(* ===== verification/_CoqProject ===== *)
-Q . S2P
Prelude.v
Numbers.v
Types.v
Crypto.v
Committees.v
Policy.v
Bcs.v
Inbox.v
Outbox.v
Errors.v
Certificates.v
Managers.v
Consensus.v
Registry.v
System.v
Batches.v
KeyValueStore.v
Views.v
Logs.v
Collections.v
Clients.v
Splitting.v
Caching.v
Journal.v
JournalExamples.v
Runtime.v
Execution.v
ChainState.v
Blocks.v
Storage.v
Worker.v
WorkerExamples.v
WorkerSteps.v
WorkerSafety.v
Delivery.v
Fungible.v
TokenCalls.v
MatchingEngine.v
Amm.v
CrowdFunding.v
Quorum.v
Updater.v
Subscriptions.v
LocalNode.v
LocalSafety.v
Client.v
ClientSafety.v
ClientExamples.v
