(* ===== verification/Prelude.v ===== *)
(** * Linera protocol: a verification development

    A shallow embedding of the core of the Linera protocol, a blockchain in which
    every user has chains of their own and every validator runs many workers.  The Rust
    sources are under [src/]; this library models the part that decides what a
    validator does, from numbers and certificates to the handlers of its
    workers, and the client that drives the validators, and proves the properties
    that make them correct.

    ** The program

    A validator keeps the state of many chains.  A chain has an execution state
    (the system application with balances, committees and the registry of
    applications, and the states of user applications), a consensus manager, a
    tip, and mailboxes: an inbox for each origin, an outbox for each target.  The
    owner of a chain proposes a block; the validators execute it and vote; a
    quorum of votes is a certificate.  A confirmed block is executed by every
    validator; its messages are scheduled in outboxes, sent to the workers of
    the recipients as cross-chain requests with the certified blocks, received
    in inboxes, confirmed to the sender, and consumed by later blocks of the
    recipients.

    A client runs a worker of its own, the local node.  It brings each validator up
    to date with the certificates that the validator misses, sends its proposal to
    all of them, makes a certificate from a quorum of votes, and processes it
    locally; it downloads the certificates of the messages that its chain receives.

    ** Files

    Each file opens with a summary of what it models.

    - [Prelude]: results of fallible computations, machine integers, sorted
      iteration of maps, tactics and generic lemmas.
    - [Numbers], [Types], [Crypto], [Bcs], [Errors]: amounts, heights, timestamps
      ([linera-base/src/data_types.rs]); the data of the protocol; the interfaces
      of the cryptography ([linera-base/src/crypto.rs]) and of serialization;
      error types.
    - [Committees], [Policy]: [linera-execution/src/committee.rs], [ownership.rs],
      [policy.rs] and the resource tracker of [lib.rs].
    - [Inbox], [Outbox]: [linera-chain/src/inbox.rs] and [outbox.rs].
    - [Certificates]: values, votes, certificates and the signature aggregator
      ([linera-chain/src/data_types.rs]).
    - [Managers], [Consensus]: the managers of [linera-chain/src/manager], and a
      network of validators that run them.
    - [Registry], [System]: [linera-execution/src/applications.rs] and [system.rs].
    - [Batches], [KeyValueStore], [Views], [Logs], [Collections]: [linera-views/src/batch.rs]
      and the views: [key_value_store_view.rs], [register_view.rs], [log_view.rs],
      [queue_view.rs], [reentrant_collection_view.rs] and structures of views.
    - [Clients], [Splitting], [Caching], [Journal]: the interface between views and
      databases ([linera-views/src/common.rs]), the client in memory, values split
      into segments ([value_splitting.rs]), the cache ([lru_caching.rs]) and the
      journal of batches ([dynamo_db.rs]).  [JournalExamples] is a database.
    - [Runtime], [Execution]: [linera-execution/src/runtime.rs] and [execution.rs].
    - [ChainState], [Blocks]: [linera-chain/src/chain.rs], and theorems on blocks.
    - [Storage]: [linera-storage/src/lib.rs].
    - [Worker]: [linera-core/src/worker.rs] and [data_types.rs].  [WorkerExamples]
      is a validator with two chains, [WorkerSteps] shows what the handlers can do,
      [WorkerSafety] and [Delivery] hold the theorems on workers.
    - [Quorum], [Updater]: the requests of a client to the validators
      ([linera-core/src/updater.rs], [node.rs]).
    - [Subscriptions]: [linera-core/src/notifier.rs] and [tracker.rs].
    - [LocalNode], [Client]: [linera-core/src/local_node.rs] and [client.rs].
      [LocalSafety] and [ClientSafety] hold the theorems on them; [ClientExamples]
      is a network of four validators, with workers of [Worker], and two clients.
    - [Fungible], [TokenCalls], [MatchingEngine], [Amm], [CrowdFunding]: applications
      ([examples/fungible], [examples/matching-engine], [examples/amm],
      [examples/crowd-funding]); [TokenCalls] is how the last three call the first.

    ** How the code is represented

    - A fallible function returns [result E A]: [Ok], [Err] or [Panic] (a failed
      assertion, [expect] or [unwrap], and an index out of bounds).  A method that
      takes [&mut self] returns the new state.  In most components an error
      discards the state, because the callers drop it; where a failure leaves
      changes behind (the runtime of applications, the workers) the state is
      returned with the error.
    - Integers are [Z] with the bounds of their types written out: checked,
      saturating and wrapping operations as in the code.
    - Maps and sets are [gmap] and [gset]; where the code iterates over a
      [BTreeMap] the model sorts the keys.  Hashes, keys and signatures are
      integers; byte strings are lists of integers.
    - Code outside the repository is a type class with the documented behaviour
      as laws: [Crypto] with [CryptoLaws] (hash function and signatures), [Bcs]
      with [BcsLaws], [LeaderSampling] (weighted sampling), [UserCode] (the code of
      applications, as a tree of requests), [StateHash], [StorageEnv], [ValueCache]
      with [ValueCacheLaws] (the LRU cache), [InfoSigning],
      [Serde] with [SerdeLaws] and [Sha3] (the views), [DynamoDb] with [DynamoDbLaws]
      and [DynamoDbAvailable] (the service), [JournalSerde], [OwnerKeys], [ErrorTexts]
      (the text of errors), [InfoChecking] (the signatures of answers).  The validators
      behind the network are [ValidatorNodes] with [ValidatorNodesLaws] and
      [DecodedValues]: a state, what each request answers in it, the order in which
      answers arrive, and that values which were decoded have their own hashes;
      nothing is assumed of what a validator answers.  [SymbolicCrypto],
      [SymbolicBcs] and [ListCache] are instances, used by the witnesses.
    - Handlers run one at a time; the readings of the clock are a sequence.  The
      requests of a client that run at the same time are run one after the other, in
      the order of their answers.

    ** What is proved

    - Consensus: two confirmed blocks of a chain at the same height are equal as
      long as the faulty validators weigh less than the validity threshold
      ([consensus_safety], [confirmed_block_locked]); the handlers of the workers
      are steps of this protocol ([managers_follow_protocol]).
    - Workers: every handler refines a small set of steps, also when it fails
      ([handlers_refine_steps]); after any history the logs are hash chains of
      stored blocks ([worker_ok_preserved]); refused certificates are harmless and
      accepted ones can be repeated.
    - Delivery: cross-chain requests can always be created and are complete; a
      recipient receives exactly the new and trusted blocks, once, and confirms
      only these; a confirmation removes exactly what it confirms; callers are
      notified only after delivery; the requests run out.
    - Quorums: a key that is returned has a quorum, and an error means that there is
      none ([quorum_decides]); an update of a validator always returns
      ([update_returns]).
    - Clients: certificates that a client makes are valid and for what was asked,
      whatever the validators answer ([updates_are_certified]); a proposal that
      succeeds made exactly its block final ([proposed_block_final]) and never
      competes with a pending one ([pending_block_guard]); whatever happens, the local
      node stays a correct worker and its chains only grow ([node_operations_safe],
      [client_operations_safe], [download_reaches_target]); certificates that are
      taken over were checked, and notifications that are passed on are true
      ([received_certificates_checked], [notification_verified]).  A notification
      reaches the subscribers that still exist ([notify_subscribers]), and the
      tracker knows the new ones ([tracker_is_new]).
    - Mailboxes: the inbox implements the reconciliation of two streams and the
      outbox hands out each height once; in any history of a chain its inboxes
      follow their origins.
    - Tokens and authentication: operations, messages and blocks create no tokens;
      only an owner spends its balance; messages are authenticated by signers that
      were given.
    - Applications: user code is confined and isolated, is charged exactly, and
      panics are characterized; dependencies are sorted topologically.
    - Storage: key-value views and batches implement persistent maps, certificates
      are read back.  Views are instances of an interface
      ([ViewLaws]) and implement registers, lists, queues and maps of views through
      saves, rollbacks and reloads ([queue_refines], [collection_refines]).  Clients
      are instances of another one ([ClientLaws]): splitting values and caching them
      are not visible ([splitting_refines], [caching_refines]).
    - Databases: a batch of any size is written completely or not at all, whatever
      transactions fail and whenever the client crashes ([journal_atomic]), and what
      is left of a journal can always be executed ([journal_recovers]).
    - Tokens of applications: the supply of a token is conserved over all chains
      ([supply_conserved]) and only owners debit their accounts ([only_owner_debits]).
      The applications that hold tokens for others have what they owe: the matching
      engine covers its book, keeps it uncrossed and pays back what is cancelled
      ([engine_solvent], [book_uncrossed], [cancel_pays_back]); the pool never loses
      ([product_never_decreases], [swap_exact], [remove_in_ratio]); campaigns cover
      their pledges, refund them exactly, and their outcome is final
      ([pledges_funded], [cancel_refunds], [outcome_final]).
    - Certificates and numbers: the quorum check, the aggregator, printing and
      parsing of amounts, fuel that can be paid for.

    Theorems on examples show where the code departs from what it means to do:
    [kv_get_ignores_deleted_prefix], [kv_dominated_prefix_resurrects],
    [kv_hash_collision], [nested_user_error_panics], [duplicate_subscription_fails],
    [limits_write_budget_wrong], [quorum_threshold_overflow],
    [later_notification_lost], [lost_confirmation_not_resent],
    [queue_iter_mut_stale_hash], [queue_flush_after_rollback_writes],
    [anyone_cancels], [engine_order_steals], [cancelled_order_remains],
    [empty_pool_panics], [adds_one_token], [self_pledge_blocks],
    [cancel_refunds_twice], [cancelled_despite_target],
    [absent_entry_stale_hash], [subviews_overlap], [prefix_collides_with_segments],
    [segments_interleaved], [failed_write_cached], [read_race_stale],
    [long_key_blocks_journal], [one_vote_spoils_certificate].

    ** Bounds

    - Calls between applications recurse; [Runtime] bounds their depth by an
      argument [depth] and tells apart running out of it.  The theorems hold for
      every depth.
    - The search for dependencies has as fuel the number of known applications and
      of their dependencies; [find_dependencies_terminates] shows that it is enough.
    - [handle_requests] has as fuel two rounds per request to update and one per
      confirmation; [requests_run_out] shows that it is enough.
    - The search for the ancestors of a chain in [Updater] has as fuel the number of
      chains of the local store ([ancestors_fuel]); [update_returns] shows that it is
      enough if no chain is its own ancestor.
    - [process_inbox] has a bound on the number of blocks, as messages may keep
      arriving, and tells apart reaching it.  The theorems hold for every bound.

    ** Not modelled

    - The Wasm engines and their bindings ([linera-execution/src/wasm],
      [linera-witty]): applications are trees of requests.
    - Of the clients, delays and time limits, the tasks that forward notifications,
      and the queries of applications, which only read.
    - The network layer ([linera-rpc]), command line tools and services: input and
      output.
    - Maps, sets and collections without locks ([map_view.rs], [set_view.rs],
      [collection_view.rs]), which keep their entries as the modelled views do; the
      locks on the entries of collections; RocksDB and ScyllaDB, and the calls to the
      service of DynamoDB.
    - Code generated by macros (loading and hashing of structures of views), metrics,
      logging, GraphQL, and functions that only tests use. *)

From Stdlib Require Import ZArith Lia.
From stdpp Require Export prelude gmap sorting list.

#[global] Open Scope Z_scope.

(** ** Computations that return a Rust [Result] or panic *)

(** The outcome of a fallible Rust computation: the two constructors of
    [Result], and a panic (a failed [assert!], [expect], [unwrap] or
    out-of-bounds access). *)
Inductive result (E A : Type) : Type :=
| Ok (a : A)
| Err (e : E)
| Panic.

Arguments Ok {E A} a.
Arguments Err {E A} e.
Arguments Panic {E A}.

#[export] Instance result_ret {E} : MRet (result E) := fun A a => Ok a.
#[export] Instance result_bind {E} : MBind (result E) :=
  fun A B f m => match m with Ok a => f a | Err e => Err e | Panic => Panic end.
#[export] Instance result_fmap {E} : FMap (result E) :=
  fun A B f m => match m with Ok a => Ok (f a) | Err e => Err e | Panic => Panic end.

(** The [ensure!] macro of [linera-base/src/lib.rs]. *)
Definition ensure {E} (cond : bool) (e : E) : result E unit :=
  if cond then Ok () else Err e.

(** [assert!]: a panic when the condition does not hold. *)
Definition assertion {E} (cond : bool) : result E unit :=
  if cond then Ok () else Panic.

(** [Option::ok_or] and [Option::expect]. *)
Definition ok_or {E A} (o : option A) (e : E) : result E A :=
  match o with Some a => Ok a | None => Err e end.

Definition expect {E A} (o : option A) : result E A :=
  match o with Some a => Ok a | None => Panic end.

(** [Result::map_err], and the conversion a [?] performs. *)
Definition map_err {E F A} (f : E -> F) (m : result E A) : result F A :=
  match m with Ok a => Ok a | Err e => Err (f e) | Panic => Panic end.

(** [Result::ok]; a panic propagates. *)
Definition ok {E F A} (m : result E A) : result F (option A) :=
  match m with Ok a => Ok (Some a) | Err _ => Ok None | Panic => Panic end.

(** A [for] loop whose body may fail, threading a state. *)
Fixpoint for_each {E A S} (f : A -> S -> result E S) (l : list A) (s : S) : result E S :=
  match l with
  | [] => Ok s
  | a :: l => s' ← f a s; for_each f l s'
  end.

(** The value of a computation that returns [Ok]. *)
Definition to_option {E A} (m : result E A) : option A :=
  match m with Ok a => Some a | _ => None end.

(** Whether the computation returns [Ok]. *)
Definition is_ok {E A} (m : result E A) : bool :=
  match m with Ok _ => true | _ => false end.

Section result_lemmas.
Context {E : Type}.

Lemma bind_Ok {A B} (m : result E A) (f : A -> result E B) b :
  m ≫= f = Ok b <-> exists a, m = Ok a /\ f a = Ok b.
Proof.
  destruct m; simpl; split; intros H; try done; [by eexists|naive_solver..].
Qed.

Lemma fmap_Ok {A B} (m : result E A) (f : A -> B) b :
  f <$> m = Ok b <-> exists a, m = Ok a /\ b = f a.
Proof. destruct m; simpl; naive_solver. Qed.

Lemma ensure_Ok cond (e : E) u : ensure cond e = Ok u <-> cond = true.
Proof. destruct cond, u; simpl; naive_solver. Qed.

Lemma assertion_Ok cond u : assertion (E := E) cond = Ok u <-> cond = true.
Proof. destruct cond, u; simpl; naive_solver. Qed.

Lemma ok_or_Ok {A} (o : option A) (e : E) a : ok_or o e = Ok a <-> o = Some a.
Proof. destruct o; simpl; naive_solver. Qed.

Lemma expect_Ok {A} (o : option A) a : expect (E := E) o = Ok a <-> o = Some a.
Proof. destruct o; simpl; naive_solver. Qed.

Lemma map_err_Ok {F A} (f : F -> E) (m : result F A) a :
  map_err f m = Ok a <-> m = Ok a.
Proof. destruct m; simpl; naive_solver. Qed.

Lemma is_ok_true {A} (m : result E A) : is_ok m = true <-> exists a, m = Ok a.
Proof. destruct m; simpl; naive_solver. Qed.

Lemma to_option_Some {A} (m : result E A) a : to_option m = Some a <-> m = Ok a.
Proof. destruct m; simpl; naive_solver. Qed.

Lemma to_option_bind {A B} (m : result E A) (f : A -> result E B) :
  to_option (m ≫= f) = (a ← to_option m; to_option (f a)).
Proof. by destruct m. Qed.

Lemma for_each_app {A S} (f : A -> S -> result E S) l1 l2 s :
  for_each f (l1 ++ l2) s = (s' ← for_each f l1 s; for_each f l2 s').
Proof.
  revert s. induction l1 as [|a l1 IH]; intros s; simpl; [done|].
  destruct (f a s); simpl; auto.
Qed.

(** A property kept by the body of a loop is kept by the loop. *)
Lemma for_each_invariant {A S} (P : S -> Prop) (f : A -> S -> result E S) l s s' :
  (forall a s1 s2, a ∈ l -> P s1 -> f a s1 = Ok s2 -> P s2) ->
  P s -> for_each f l s = Ok s' -> P s'.
Proof.
  revert s. induction l as [|a l IH]; intros s Hstep Hs; simpl.
  - by intros [= <-].
  - intros (s1 & Hf & Hl)%bind_Ok.
    eapply (IH s1); [|eapply Hstep; [left|..]; done|done].
    intros b s2 s3 Hb. apply Hstep. by right.
Qed.

(** A loop whose body moves along a preorder moves along it. *)
Lemma for_each_rel {A S} (R : relation S) `{!PreOrder R} (f : A -> S -> result E S) l s s' :
  (forall a s1 s2, a ∈ l -> f a s1 = Ok s2 -> R s1 s2) -> for_each f l s = Ok s' -> R s s'.
Proof.
  intros Hstep. apply (for_each_invariant (R s)); [|done].
  intros a s1 s2 Ha Hs1 Hf. etrans; [done|]. by eapply Hstep.
Qed.

(** A computation that does not panic. *)
Lemma bind_no_panic {A B} (m : result E A) (k : A -> result E B) :
  m <> Panic -> (forall a, m = Ok a -> k a <> Panic) -> (m ≫= k) <> Panic.
Proof. destruct m; simpl; [|done..]. intros _ Hk. by apply Hk. Qed.

Lemma map_err_no_panic {F A} (f : F -> E) (m : result F A) : m <> Panic -> map_err f m <> Panic.
Proof. by destruct m. Qed.

Lemma ok_or_no_panic {A} (o : option A) (e : E) : ok_or o e <> Panic.
Proof. by destruct o. Qed.

End result_lemmas.

(** Turns a hypothesis that a monadic computation returned [Ok] into the
    facts that made it do so. *)
Ltac inv_result :=
  repeat match goal with
  | H : _ ≫= _ = Ok _ |- _ =>
      apply bind_Ok in H; destruct H as (? & ? & H); simpl in H
  | H : _ <$> _ = Ok _ |- _ =>
      apply fmap_Ok in H; destruct H as (? & ? & H); simpl in H
  | H : ensure _ _ = Ok _ |- _ => apply ensure_Ok in H
  | H : assertion _ = Ok _ |- _ => apply assertion_Ok in H
  | H : ok_or _ _ = Ok _ |- _ => apply ok_or_Ok in H
  | H : expect _ = Ok _ |- _ => apply expect_Ok in H
  | H : map_err _ _ = Ok _ |- _ => apply map_err_Ok in H
  | H : mret _ = Ok _ |- _ => injection H as H
  | H : Ok _ = Ok _ |- _ => injection H as H
  | H : Err _ = Ok _ |- _ => discriminate H
  | H : Panic = Ok _ |- _ => discriminate H
  | x : unit |- _ => destruct x
  | H : bool_decide _ = true |- _ => apply bool_decide_eq_true in H
  | H : bool_decide _ = false |- _ => apply bool_decide_eq_false in H
  | H : negb _ = true |- _ => apply negb_true_iff in H
  | H : _ && _ = true |- _ => apply andb_true_iff in H; destruct H
  end.

(** Case analysis on the conditionals of a computation in hypothesis [H]. *)
Ltac case_in H :=
  repeat match type of H with
  | context [match ?x with _ => _ end] => destruct x eqn:?
  end; try discriminate H.

(** Proves a decidable statement by evaluating its decision procedure. *)
Ltac decide_now :=
  match goal with |- ?P => apply (bool_decide_eq_true_1 P) end; vm_compute; reflexivity.

Lemma elem_of_opt_list {A} (o : option A) x : x ∈ option_list o <-> o = Some x.
Proof.
  destruct o as [y|]; simpl.
  - rewrite list_elem_of_singleton. naive_solver.
  - rewrite elem_of_nil. naive_solver.
Qed.

(** ** Machine integers

    An unsigned integer of [w] bits is a [Z] in [0 .. 2^w - 1]; each
    operation names the largest value of its type. *)

Definition u8_MAX : Z := 2 ^ 8 - 1.
Definition u32_MAX : Z := 2 ^ 32 - 1.
Definition u64_MAX : Z := 2 ^ 64 - 1.
Definition u128_MAX : Z := 2 ^ 128 - 1.

(** The values of an unsigned type. *)
Definition in_range (max x : Z) : Prop := 0 <= x <= max.

#[export] Instance in_range_dec max x : Decision (in_range max x).
Proof. unfold in_range. apply _. Defined.

Definition checked_add (max x y : Z) : option Z :=
  if x + y <=? max then Some (x + y) else None.
Definition checked_sub (x y : Z) : option Z :=
  if y <=? x then Some (x - y) else None.
Definition checked_mul (max x y : Z) : option Z :=
  if x * y <=? max then Some (x * y) else None.
Definition checked_div (x y : Z) : option Z :=
  if y =? 0 then None else Some (x / y).
Definition saturating_add (max x y : Z) : Z := Z.min max (x + y).
Definition saturating_sub (x y : Z) : Z := Z.max 0 (x - y).
Definition saturating_mul (max x y : Z) : Z := Z.min max (x * y).
(** Plain [+] and [*] in a release build, where overflow wraps around. *)
Definition wrapping_add (max x y : Z) : Z := (x + y) mod (max + 1).
Definition wrapping_sub (max x y : Z) : Z := (x - y) mod (max + 1).
Definition wrapping_mul (max x y : Z) : Z := (x * y) mod (max + 1).
(** [T::try_from] between unsigned types. *)
Definition try_from (max x : Z) : option Z :=
  if x <=? max then Some x else None.

Lemma checked_add_Some max x y z :
  checked_add max x y = Some z <-> z = x + y /\ x + y <= max.
Proof. unfold checked_add. destruct (Z.leb_spec (x + y) max); naive_solver lia. Qed.

Lemma checked_sub_Some x y z :
  checked_sub x y = Some z <-> z = x - y /\ y <= x.
Proof. unfold checked_sub. destruct (Z.leb_spec y x); naive_solver lia. Qed.

Lemma checked_mul_Some max x y z :
  checked_mul max x y = Some z <-> z = x * y /\ x * y <= max.
Proof. unfold checked_mul. destruct (Z.leb_spec (x * y) max); naive_solver lia. Qed.

Lemma wrapping_add_small max x y :
  0 <= x + y <= max -> wrapping_add max x y = x + y.
Proof. intros. apply Z.mod_small. lia. Qed.

Lemma wrapping_mul_small max x y :
  0 <= x * y <= max -> wrapping_mul max x y = x * y.
Proof. intros. apply Z.mod_small. lia. Qed.

Lemma wrapping_sub_small max x y :
  0 <= x - y <= max -> wrapping_sub max x y = x - y.
Proof. intros. apply Z.mod_small. lia. Qed.

(** ** Ordered maps

    A [BTreeMap] with integer keys is a [gmap]; what the code reads in key
    order it reads from the sorted list of its entries. *)

Definition key_le {V} (p q : Z * V) : Prop := p.1 <= q.1.

#[export] Instance key_le_dec {V} : RelDecision (@key_le V).
Proof. unfold RelDecision, key_le. intros p q. apply _. Defined.

#[export] Instance key_le_total {V} : Total (@key_le V).
Proof. intros p q. unfold key_le. lia. Qed.

#[export] Instance key_le_trans {V} : Transitive (@key_le V).
Proof. intros p q r. unfold key_le. lia. Qed.

(** [BTreeMap::iter]. *)
Definition btree_iter {V} (m : gmap Z V) : list (Z * V) :=
  merge_sort key_le (map_to_list m).

(** [BTreeMap::first_key_value]. *)
Definition btree_first {V} (m : gmap Z V) : option (Z * V) := head (btree_iter m).

Lemma btree_iter_perm {V} (m : gmap Z V) : btree_iter m ≡ₚ map_to_list m.
Proof. apply merge_sort_Permutation. Qed.

Lemma elem_of_btree_iter {V} (m : gmap Z V) k v :
  (k, v) ∈ btree_iter m <-> m !! k = Some v.
Proof. rewrite btree_iter_perm. apply elem_of_map_to_list. Qed.

Lemma btree_first_None {V} (m : gmap Z V) : btree_first m = None <-> m = ∅.
Proof.
  unfold btree_first. rewrite head_None, <- map_to_list_empty_iff.
  pose proof (btree_iter_perm m) as Hp. split; intros Heq; rewrite Heq in Hp.
  - by apply Permutation_nil in Hp.
  - by apply Permutation_nil_r in Hp.
Qed.

Lemma btree_first_min {V} (m : gmap Z V) k v :
  btree_first m = Some (k, v) ->
  m !! k = Some v /\ forall k', is_Some (m !! k') -> k <= k'.
Proof.
  unfold btree_first. destruct (btree_iter m) as [|p l] eqn:Hm; [done|].
  intros [= ->]. split.
  - apply elem_of_btree_iter. rewrite Hm. left.
  - intros k' [v' Hk']. apply elem_of_btree_iter in Hk'. rewrite Hm in Hk'.
    assert (StronglySorted (@key_le V) ((k, v) :: l)) as Hs.
    { rewrite <- Hm. apply StronglySorted_merge_sort; apply _. }
    apply elem_of_cons in Hk' as [[= -> ->]|Hin]; [lia|].
    inversion Hs as [|? ? _ Hall]; subst.
    rewrite Forall_forall in Hall. by apply (Hall (k', v')).
Qed.

(** The sum of the values of a map. *)
Definition map_sum {K} `{Countable K} (m : gmap K Z) : Z :=
  foldr (fun p acc => p.2 + acc) 0 (map_to_list m).

Section map_sum.
Context {K} `{Countable K}.
Implicit Types m : gmap K Z.

Lemma map_sum_perm (l1 l2 : list (K * Z)) :
  l1 ≡ₚ l2 -> foldr (fun p acc => p.2 + acc) 0 l1 = foldr (fun p acc => p.2 + acc) 0 l2.
Proof. induction 1; simpl in *; lia. Qed.

Lemma map_sum_empty : map_sum (∅ : gmap K Z) = 0.
Proof. unfold map_sum. by rewrite map_to_list_empty. Qed.

Lemma map_sum_insert_new m k x : m !! k = None -> map_sum (<[k := x]> m) = x + map_sum m.
Proof.
  intros Hk. unfold map_sum. by rewrite (map_sum_perm _ _ (map_to_list_insert m k x Hk)).
Qed.

Lemma map_sum_delete m k x : m !! k = Some x -> map_sum m = x + map_sum (delete k m).
Proof.
  intros Hk. unfold map_sum. by rewrite <- (map_sum_perm _ _ (map_to_list_delete m k x Hk)).
Qed.

Lemma map_sum_insert m k x : map_sum (<[k := x]> m) = x + map_sum m - default 0 (m !! k).
Proof.
  destruct (m !! k) as [y|] eqn:Hk; simpl.
  - rewrite <- insert_delete_eq, map_sum_insert_new by by rewrite lookup_delete_eq.
    rewrite (map_sum_delete m k y Hk). unfold id. lia.
  - rewrite map_sum_insert_new by done. lia.
Qed.

Lemma map_sum_nonneg m : map_Forall (fun _ x => 0 <= x) m -> 0 <= map_sum m.
Proof.
  induction m as [|k x m Hk IH] using map_ind; intros Hall; [by rewrite map_sum_empty|].
  rewrite map_sum_insert_new by done. apply map_Forall_insert in Hall as [Hx Hall]; [|done].
  specialize (IH Hall). lia.
Qed.

Lemma map_sum_ge m k x :
  map_Forall (fun _ x => 0 <= x) m -> m !! k = Some x -> x <= map_sum m.
Proof.
  intros Hall Hk. rewrite (map_sum_delete m k x Hk).
  pose proof (map_sum_nonneg (delete k m) (map_Forall_delete _ _ _ Hall)). lia.
Qed.
End map_sum.

(** ** Byte strings

    The lexicographic order of byte strings, in which keys are stored. *)

Fixpoint bytes_leb (x y : list Z) : bool :=
  match x, y with
  | [], _ => true
  | _ :: _, [] => false
  | a :: x, b :: y => (a <? b) || ((a =? b) && bytes_leb x y)
  end.

Definition bytes_le (x y : list Z) : Prop := bytes_leb x y = true.

#[export] Instance bytes_le_dec : RelDecision bytes_le.
Proof. unfold RelDecision, bytes_le. intros. apply _. Defined.

Lemma bytes_leb_refl x : bytes_leb x x = true.
Proof. induction x as [|a x IH]; simpl; [done|]. rewrite IH. lia. Qed.

#[export] Instance bytes_le_total : Total bytes_le.
Proof.
  unfold bytes_le. intros x. induction x as [|a x IH]; intros [|b y]; simpl; auto.
  destruct (IH y) as [->| ->]; lia.
Qed.

#[export] Instance bytes_le_trans : Transitive bytes_le.
Proof.
  unfold bytes_le. intros x. induction x as [|a x IH]; intros [|b y] [|c z]; simpl; try done.
  specialize (IH y z). destruct (bytes_leb x y), (bytes_leb y z), (bytes_leb x z); naive_solver lia.
Qed.

Lemma bytes_leb_antisym x y : bytes_leb x y = true -> bytes_leb y x = true -> x = y.
Proof.
  revert y. induction x as [|a x IH]; intros [|b y]; simpl; try done.
  intros H1 H2. assert (a = b) as -> by lia. rewrite Z.ltb_irrefl, Z.eqb_refl in *.
  f_equal. by apply IH.
Qed.

(** The elements of a list in the order of their keys. *)
Definition order_by {A} (key : A -> list Z) (x y : A) : Prop := bytes_le (key x) (key y).

#[export] Instance order_by_dec {A} (key : A -> list Z) : RelDecision (order_by key).
Proof. unfold RelDecision, order_by. intros. apply _. Defined.

Definition sort_by {A} (key : A -> list Z) (l : list A) : list A := merge_sort (order_by key) l.

Lemma sort_by_perm {A} (key : A -> list Z) l : sort_by key l ≡ₚ l.
Proof. apply merge_sort_Permutation. Qed.

(** ** Hints *)

Create HintDb linera.
#[export] Hint Resolve in_range_dec : linera.
#[export] Hint Rewrite @bind_Ok @fmap_Ok @ensure_Ok @ok_or_Ok @expect_Ok @map_err_Ok
  checked_add_Some checked_sub_Some checked_mul_Some : linera.
