(* ===== verification/Numbers.v ===== *)
(** * Numbers of the protocol

    The arithmetic of [linera-base/src/data_types.rs]: the operations the
    macro [impl_wrapped_number!] generates for [Amount] (u128), [BlockHeight]
    (u64) and [RoundNumber] (u32), timestamps and durations, and the printing
    and parsing of amounts.  An amount, a height, a round or a timestamp is the
    integer it wraps; each generated operation takes the largest value of the
    wrapped type as its first argument. *)

From S2P Require Import Prelude.

(** ** Wrapped numbers *)

Notation Amount := Z (only parsing).
Notation BlockHeight := Z (only parsing).
Notation RoundNumber := Z (only parsing).
Notation Timestamp := Z (only parsing).

Inductive ArithmeticError :=
| Overflow
| Underflow.

#[export] Instance ArithmeticError_eq_dec : EqDecision ArithmeticError.
Proof. solve_decision. Defined.

Section wrapped_number.
Context (max : Z).

Definition try_add (self other : Z) : result ArithmeticError Z :=
  ok_or (checked_add max self other) Overflow.

Definition try_add_one (self : Z) : result ArithmeticError Z :=
  ok_or (checked_add max self 1) Overflow.

Definition num_saturating_add (self other : Z) : Z := saturating_add max self other.

Definition try_sub (self other : Z) : result ArithmeticError Z :=
  ok_or (checked_sub self other) Underflow.

Definition try_sub_one (self : Z) : result ArithmeticError Z :=
  ok_or (checked_sub self 1) Underflow.

Definition num_saturating_sub (self other : Z) : Z := saturating_sub self other.

(** The [_assign] variants return the new value of [self]. *)
Definition try_add_assign (self other : Z) : result ArithmeticError Z :=
  ok_or (checked_add max self other) Overflow.

Definition try_add_assign_one (self : Z) : result ArithmeticError Z :=
  ok_or (checked_add max self 1) Overflow.

Definition saturating_add_assign (self other : Z) : Z := saturating_add max self other.

Definition try_sub_assign (self other : Z) : result ArithmeticError Z :=
  ok_or (checked_sub self other) Underflow.

Definition num_saturating_mul (self other : Z) : Z := saturating_mul max self other.

Definition try_mul (self other : Z) : result ArithmeticError Z :=
  ok_or (checked_mul max self other) Overflow.

Definition try_mul_assign (self other : Z) : result ArithmeticError Z :=
  ok_or (checked_mul max self other) Overflow.

End wrapped_number.

(** ** Timestamps and durations *)

(** A [std::time::Duration], in nanoseconds; its largest value is
    [u64::MAX] seconds and 999999999 nanoseconds. *)
Notation Duration := Z (only parsing).
Definition Duration_MAX : Duration := u64_MAX * 10 ^ 9 + 999999999.
Definition duration_from_secs (secs : Z) : Duration := secs * 10 ^ 9.
Definition duration_as_micros (d : Duration) : Z := d / 1000.
Definition duration_saturating_mul (d : Duration) (rhs : Z) : Duration :=
  saturating_mul Duration_MAX d rhs.

Definition saturating_diff_micros (self other : Timestamp) : Z :=
  saturating_sub self other.

Definition timestamp_saturating_add (self : Timestamp) (duration : Duration) : Timestamp :=
  let micros := default u64_MAX (try_from u64_MAX (duration_as_micros duration)) in
  saturating_add u64_MAX self micros.

Definition saturating_add_micros (self : Timestamp) (micros : Z) : Timestamp :=
  saturating_add u64_MAX self micros.

Definition saturating_sub_micros (self : Timestamp) (micros : Z) : Timestamp :=
  saturating_sub self micros.

(** ** Amounts *)

Definition DECIMAL_PLACES : Z := 18.
Definition Amount_ONE : Amount := 10 ^ DECIMAL_PLACES.

Definition from_tokens (tokens : Z) : Amount :=
  num_saturating_mul u128_MAX Amount_ONE tokens.

Definition from_milli (millitokens : Z) : Amount :=
  num_saturating_mul u128_MAX (10 ^ (DECIMAL_PLACES - 3)) millitokens.

Definition from_atto (attotokens : Z) : Amount := attotokens.

Definition upper_half (self : Amount) : Z := Z.shiftr self 64 mod 2 ^ 64.
Definition lower_half (self : Amount) : Z := self mod 2 ^ 64.

Definition saturating_div (self other : Amount) : Z :=
  default u128_MAX (checked_div self other).

(** [impl Sum for Amount]. *)
Definition amount_sum (amounts : list Amount) : Amount :=
  foldl (fun a b => num_saturating_add u128_MAX a b) 0 amounts.

(** *** Display

    A string is the list of its code points. *)

Notation str := (list Z) (only parsing).

Inductive Alignment := AlignLeft | AlignRight | AlignCenter.

(** The options of a [std::fmt::Formatter] that the code reads. *)
Record Formatter := {
  fmt_precision : option nat;
  fmt_sign_plus : bool;
  fmt_width : option nat;
  fmt_align : option Alignment;
  fmt_fill : Z;
}.

(** The decimal digits of an integer below [10 ^ fuel], as [Display for u128]
    prints them; 39 digits are enough for a u128. *)
Fixpoint dec_digits (fuel : nat) (n : Z) (acc : str) : str :=
  match fuel with
  | O => acc
  | S fuel =>
      if n <? 10 then (48 + n) :: acc
      else dec_digits fuel (n / 10) ((48 + n mod 10) :: acc)
  end.

(** [format!("{:0width$}", n)]: zeros on the left up to the width. *)
Definition format_zero_padded (width : nat) (n : Z) : str :=
  let digits := dec_digits 39 n [] in
  replicate (width - length digits)%nat 48 ++ digits.

Fixpoint drop_while (p : Z -> bool) (s : str) : str :=
  match s with
  | [] => []
  | c :: s' => if p c then drop_while p s' else s
  end.

(** [str::trim_end_matches] for one character. *)
Definition trim_end_matches (p : Z -> bool) (s : str) : str :=
  rev (drop_while p (rev s)).

(** [impl Display for Amount]. *)
Definition amount_fmt (f : Formatter) (self : Amount) : str :=
  let places := 18%nat in
  let min_digits := (places + 1)%nat in
  let decimals := format_zero_padded min_digits self in
  let integer_part := take (length decimals - places) decimals in
  let fractional_part :=
    trim_end_matches (Z.eqb 48) (drop (length decimals - places) decimals) in
  let precision := Nat.max (default 0%nat (fmt_precision f)) (length fractional_part) in
  let sign : str := if fmt_sign_plus f && (0 <? self) then [43] else [] in
  let pad_width :=
    match fmt_width f with
    | None => 0%nat
    | Some w => (w - precision - (length sign + length integer_part + 1))%nat
    end in
  let left_pad :=
    match fmt_align f with
    | None | Some AlignRight => pad_width
    | Some AlignCenter => (pad_width / 2)%nat
    | Some AlignLeft => 0%nat
    end in
  replicate left_pad (fmt_fill f)
  ++ sign ++ integer_part ++ [46]
  ++ fractional_part ++ replicate (precision - length fractional_part)%nat 48
  ++ replicate (pad_width - left_pad)%nat (fmt_fill f).

(** [Amount::to_string], with the default formatting options. *)
Definition default_formatter : Formatter :=
  {| fmt_precision := None; fmt_sign_plus := false; fmt_width := None;
     fmt_align := None; fmt_fill := 32 |}.
Definition amount_to_string (self : Amount) : str := amount_fmt default_formatter self.

(** *** Parsing *)

Inductive ParseAmountError :=
| Parse
| TooHigh
| TooManyDigits.

(** [char::is_whitespace]: the code points of the White_Space property. *)
Definition is_whitespace (c : Z) : bool :=
  ((9 <=? c) && (c <=? 13)) || (c =? 32) || (c =? 133) || (c =? 160)
  || (c =? 5760) || ((8192 <=? c) && (c <=? 8202)) || (c =? 8232) || (c =? 8233)
  || (c =? 8239) || (c =? 8287) || (c =? 12288).

(** [str::trim]. *)
Definition trim (s : str) : str :=
  trim_end_matches is_whitespace (drop_while is_whitespace s).

(** [char::to_digit(10)]. *)
Definition to_digit (c : Z) : option Z :=
  if (48 <=? c) && (c <=? 57) then Some (c - 48) else None.

(** The loop of [from_str]: the digits read so far and the decimal places that
    are left once a point has been read. *)
Fixpoint parse_chars (chars : str) (res : Z) (decimals : option Z)
    : result ParseAmountError (Z * option Z) :=
  match chars with
  | [] => Ok (res, decimals)
  | c :: chars =>
      if c =? 95 then parse_chars chars res decimals
      else if c =? 46 then
        match decimals with
        | Some _ => Err Parse
        | None => parse_chars chars res (Some DECIMAL_PLACES)
        end
      else
        digit ← ok_or (to_digit c) Parse;
        decimals' ← match decimals with
                    | None => Ok None
                    | Some d => Some <$> ok_or (checked_sub d 1) TooManyDigits
                    end;
        res' ← ok_or (r ← checked_mul u128_MAX res 10; checked_add u128_MAX r digit) TooHigh;
        parse_chars chars res' decimals'
  end.

(** [impl FromStr for Amount]. *)
Definition amount_from_str (src : str) : result ParseAmountError Amount :=
  let chars := trim src in
  let chars :=
    match chars with c :: rest => if c =? 43 then rest else chars | [] => [] end in
  '(res, decimals) ← parse_chars chars 0 None;
  ok_or (checked_mul u128_MAX res (10 ^ default DECIMAL_PLACES decimals)) TooHigh.

(** ** Properties of the arithmetic *)

(** What each fallible operation returns: the exact result when it is in the
    type's range, the error otherwise. *)
Lemma try_add_Ok max x y z : try_add max x y = Ok z <-> z = x + y /\ x + y <= max.
Proof. unfold try_add. by rewrite ok_or_Ok, checked_add_Some. Qed.

Lemma try_add_one_Ok max x z : try_add_one max x = Ok z <-> z = x + 1 /\ x + 1 <= max.
Proof. unfold try_add_one. by rewrite ok_or_Ok, checked_add_Some. Qed.

Lemma try_sub_Ok x y z : try_sub x y = Ok z <-> z = x - y /\ y <= x.
Proof. unfold try_sub. by rewrite ok_or_Ok, checked_sub_Some. Qed.

Lemma try_sub_one_Ok x z : try_sub_one x = Ok z <-> z = x - 1 /\ 1 <= x.
Proof. unfold try_sub_one. by rewrite ok_or_Ok, checked_sub_Some. Qed.

Lemma try_add_assign_Ok max x y z :
  try_add_assign max x y = Ok z <-> z = x + y /\ x + y <= max.
Proof. unfold try_add_assign. by rewrite ok_or_Ok, checked_add_Some. Qed.

Lemma try_add_assign_one_Ok max x z :
  try_add_assign_one max x = Ok z <-> z = x + 1 /\ x + 1 <= max.
Proof. unfold try_add_assign_one. by rewrite ok_or_Ok, checked_add_Some. Qed.

Lemma try_sub_assign_Ok x y z : try_sub_assign x y = Ok z <-> z = x - y /\ y <= x.
Proof. unfold try_sub_assign. by rewrite ok_or_Ok, checked_sub_Some. Qed.

Lemma try_mul_Ok max x y z : try_mul max x y = Ok z <-> z = x * y /\ x * y <= max.
Proof. unfold try_mul. by rewrite ok_or_Ok, checked_mul_Some. Qed.

#[export] Hint Rewrite try_add_Ok try_add_one_Ok try_sub_Ok try_sub_one_Ok
  try_add_assign_Ok try_add_assign_one_Ok try_sub_assign_Ok try_mul_Ok : linera.

(** None of them panics. *)
Lemma try_add_one_cases max x :
  (x + 1 <= max /\ try_add_one max x = Ok (x + 1))
  \/ (max < x + 1 /\ try_add_one max x = Err Overflow).
Proof.
  unfold try_add_one, checked_add.
  destruct (Z.leb_spec (x + 1) max); [by left|by right].
Qed.

(** The sum of amounts is exact unless it reaches [Amount::MAX], where it
    saturates. *)
Lemma amount_sum_spec (l : list Z) :
  Forall (fun a => 0 <= a) l ->
  amount_sum l = Z.min u128_MAX (foldr Z.add 0 l).
Proof.
  intros Hl. unfold amount_sum.
  assert (forall acc, 0 <= acc <= u128_MAX ->
    foldl (fun a b => num_saturating_add u128_MAX a b) acc l
    = Z.min u128_MAX (acc + foldr Z.add 0 l)) as Hgen.
  { induction Hl as [|x l Hx Hl IH]; intros acc Hacc; simpl; [lia|].
    rewrite IH; unfold num_saturating_add, saturating_add; [|lia].
    assert (0 <= foldr Z.add 0 l) by (clear -Hl; induction Hl; simpl; lia). lia. }
  rewrite Hgen by (unfold u128_MAX; lia). f_equal.
Qed.

(** The two halves of an amount determine it. *)
Lemma upper_lower_half a :
  in_range u128_MAX a -> upper_half a * 2 ^ 64 + lower_half a = a.
Proof.
  intros [Hlo Hhi]. unfold upper_half, lower_half.
  rewrite Z.shiftr_div_pow2 by lia.
  rewrite (Z.mod_small (a / 2 ^ 64)).
  - pose proof (Z.div_mod a (2 ^ 64)). lia.
  - split; [apply Z.div_pos; lia|]. apply Z.div_lt_upper_bound; [lia|].
    unfold u128_MAX in Hhi. lia.
Qed.

(** ** Printing and parsing amounts *)

(** The examples of the unit test [display_amount]. *)
Example display_one : amount_to_string Amount_ONE = [49; 46].
Proof. reflexivity. Qed.

Example display_padded :
  amount_fmt {| fmt_precision := Some 20%nat; fmt_sign_plus := false;
                fmt_width := Some 25%nat; fmt_align := None; fmt_fill := 32 |} Amount_ONE
  = [32; 32; 32; 49; 46] ++ replicate 20 48.
Proof. reflexivity. Qed.

Example display_centered :
  amount_fmt {| fmt_precision := Some 1%nat; fmt_sign_plus := true;
                fmt_width := Some 9%nat; fmt_align := Some AlignCenter; fmt_fill := 126 |}
    (12340000000000000000)
  = [126; 43; 49; 50; 46; 51; 52; 126; 126].
Proof. reflexivity. Qed.

(** The number a string of digits denotes. *)
Definition digits_value (s : str) : Z := foldl (fun v c => 10 * v + (c - 48)) 0 s.

(** A string of decimal digits. *)
Definition digits (s : str) : Prop := Forall (fun c => 48 <= c <= 57) s.

Lemma digits_value_acc s v :
  foldl (fun v c => 10 * v + (c - 48)) v s
  = v * 10 ^ Z.of_nat (length s) + digits_value s.
Proof.
  unfold digits_value. revert v. induction s as [|c s IH]; intros v; cbn [foldl length].
  - lia.
  - rewrite IH, (IH (10 * 0 + _)), Nat2Z.inj_succ, Z.pow_succ_r by lia. lia.
Qed.

Lemma digits_value_app s1 s2 :
  digits_value (s1 ++ s2)
  = digits_value s1 * 10 ^ Z.of_nat (length s2) + digits_value s2.
Proof. unfold digits_value at 1. by rewrite foldl_app, digits_value_acc. Qed.

Lemma digits_value_cons c s :
  digits_value (c :: s) = (c - 48) * 10 ^ Z.of_nat (length s) + digits_value s.
Proof. unfold digits_value at 1. cbn [foldl]. rewrite digits_value_acc. lia. Qed.

Lemma digits_value_nonneg s : digits s -> 0 <= digits_value s.
Proof.
  induction 1 as [|c s Hc Hs IH]; [done|]. rewrite digits_value_cons.
  pose proof (Z.pow_nonneg 10 (Z.of_nat (length s))). nia.
Qed.

Lemma digits_value_zeros n : digits_value (replicate n 48) = 0.
Proof.
  induction n as [|n IH]; [done|]. cbn [replicate].
  rewrite digits_value_cons, IH. lia.
Qed.

Lemma digits_zeros n : digits (replicate n 48).
Proof. apply Forall_replicate. lia. Qed.

Lemma dec_digits_spec fuel n acc :
  0 <= n < 10 ^ Z.of_nat fuel -> fuel <> O -> digits acc ->
  digits (dec_digits fuel n acc)
  /\ digits_value (dec_digits fuel n acc) = n * 10 ^ Z.of_nat (length acc) + digits_value acc.
Proof.
  revert n acc. induction fuel as [|fuel IH]; intros n acc Hn Hfuel Hacc; [done|].
  cbn [dec_digits]. destruct (Z.ltb_spec n 10) as [Hlt|Hge].
  - split; [constructor; [lia|done]|]. rewrite digits_value_cons. lia.
  - rewrite Nat2Z.inj_succ, Z.pow_succ_r in Hn by lia.
    assert (0 <= n mod 10 < 10) by (apply Z.mod_pos_bound; lia).
    assert (n = 10 * (n / 10) + n mod 10) as Hdiv by (apply Z.div_mod; lia).
    destruct (IH (n / 10) ((48 + n mod 10) :: acc)) as [Hd Hv].
    + split; [apply Z.div_pos; lia|]. apply Z.div_lt_upper_bound; lia.
    + intros ->. simpl in Hn. lia.
    + constructor; [lia|done].
    + split; [done|]. rewrite Hv, digits_value_cons. cbn [length].
      rewrite Nat2Z.inj_succ, Z.pow_succ_r by lia. nia.
Qed.

Lemma format_zero_padded_spec width n :
  in_range u128_MAX n ->
  digits (format_zero_padded width n) /\ digits_value (format_zero_padded width n) = n
  /\ (width <= length (format_zero_padded width n))%nat.
Proof.
  intros [Hlo Hhi]. unfold format_zero_padded.
  destruct (dec_digits_spec 39 n []) as [Hd Hv]; [|done|constructor|].
  { unfold u128_MAX in Hhi. simpl Z.of_nat. lia. }
  split; [|split].
  - apply Forall_app. split; [apply digits_zeros|done].
  - rewrite digits_value_app, digits_value_zeros, Hv. cbn. lia.
  - rewrite length_app, length_replicate. lia.
Qed.

Lemma drop_while_replicate p n c s :
  p c = true -> drop_while p (replicate n c ++ s) = drop_while p s.
Proof. intros Hc. induction n as [|n IH]; simpl; [done|]. by rewrite Hc. Qed.

Lemma drop_while_stop p c s : p c = false -> drop_while p (c :: s) = c :: s.
Proof. intros Hc. simpl. by rewrite Hc. Qed.

Lemma drop_while_eqb c s : exists n, s = replicate n c ++ drop_while (Z.eqb c) s.
Proof.
  induction s as [|d s [n IH]]; simpl; [by exists O|].
  destruct (Z.eqb_spec c d) as [->|]; [|by exists O].
  exists (S n). simpl. by rewrite <- IH.
Qed.

Lemma rev_replicate {A} n (x : A) : rev (replicate n x) = replicate n x.
Proof. rewrite rev_alt. apply reverse_replicate. Qed.

Lemma trim_end_eqb c s : exists n, s = trim_end_matches (Z.eqb c) s ++ replicate n c.
Proof.
  destruct (drop_while_eqb c (rev s)) as [n Hn]. exists n.
  unfold trim_end_matches. rewrite <- (rev_replicate n), <- rev_app_distr, <- Hn.
  by rewrite rev_involutive.
Qed.

(** Trimming removes the padding around a text without white space. *)
Lemma trim_padded l r w s :
  is_whitespace w = true -> s <> [] -> Forall (fun c => is_whitespace c = false) s ->
  trim (replicate l w ++ s ++ replicate r w) = s.
Proof.
  intros Hw Hne Hs. unfold trim, trim_end_matches. rewrite drop_while_replicate by done.
  destruct s as [|c s]; [done|]. pose proof Hs as [Hc _]%Forall_cons. cbn [app].
  rewrite drop_while_stop, app_comm_cons, rev_app_distr, rev_replicate by done.
  rewrite drop_while_replicate by done.
  destruct (exists_last Hne) as (s' & d & Heq). rewrite Heq in Hs |- *.
  apply Forall_app in Hs as [_ [Hd _]%Forall_cons].
  rewrite rev_app_distr. cbn [rev app]. rewrite drop_while_stop by done.
  cbn [rev]. by rewrite rev_involutive.
Qed.

Lemma digit_not_whitespace c : 48 <= c <= 57 -> is_whitespace c = false.
Proof. intros. unfold is_whitespace. lia. Qed.

(** One digit read by the parser. *)
Lemma parse_chars_digit c s res decimals decimals' :
  48 <= c <= 57 -> 10 * res + (c - 48) <= u128_MAX -> 0 <= res ->
  match decimals with
  | None => decimals' = None
  | Some d => 1 <= d /\ decimals' = Some (d - 1)
  end ->
  parse_chars (c :: s) res decimals = parse_chars s (10 * res + (c - 48)) decimals'.
Proof.
  intros Hc Hmax Hres Hdec. cbn [parse_chars].
  destruct (Z.eqb_spec c 95), (Z.eqb_spec c 46); [lia..|].
  assert (to_digit c = Some (c - 48)) as ->.
  { unfold to_digit. destruct (48 <=? c) eqn:?, (c <=? 57) eqn:?; simpl; lia || done. }
  assert (checked_mul u128_MAX res 10 = Some (10 * res)) as Hmul
    by (apply checked_mul_Some; lia).
  assert (checked_add u128_MAX (10 * res) (c - 48) = Some (10 * res + (c - 48))) as Hadd
    by (apply checked_add_Some; lia).
  destruct decimals as [d|]; simpl.
  - destruct Hdec as [Hd ->].
    assert (checked_sub d 1 = Some (d - 1)) as -> by (apply checked_sub_Some; lia).
    simpl. rewrite Hmul. simpl. by rewrite Hadd.
  - subst. rewrite Hmul. simpl. by rewrite Hadd.
Qed.

(** A run of digits read by the parser. *)
Lemma parse_chars_digits s rest res decimals decimals' :
  digits s -> 0 <= res ->
  res * 10 ^ Z.of_nat (length s) + digits_value s <= u128_MAX ->
  match decimals with
  | None => decimals' = None
  | Some d => Z.of_nat (length s) <= d /\ decimals' = Some (d - Z.of_nat (length s))
  end ->
  parse_chars (s ++ rest) res decimals
  = parse_chars rest (res * 10 ^ Z.of_nat (length s) + digits_value s) decimals'.
Proof.
  intros Hs. revert res decimals. induction Hs as [|c s Hc Hs IH]; intros res decimals Hres Hmax Hdec.
  - change (digits_value []) with 0. cbn [app length] in *.
    replace (res * 10 ^ Z.of_nat 0 + 0) with res by lia. f_equal.
    destruct decimals; destruct_and?; subst; f_equal; lia.
  - rewrite digits_value_cons in *. cbn [length app] in *.
    rewrite Nat2Z.inj_succ, Z.pow_succ_r in * by lia.
    pose proof (digits_value_nonneg s Hs) as Hnn.
    assert (0 < 10 ^ Z.of_nat (length s)) by (apply Z.pow_pos_nonneg; lia).
    rewrite (parse_chars_digit c (s ++ rest) res decimals
      (match decimals with None => None | Some d => Some (d - 1) end)).
    + rewrite IH.
      * f_equal. lia.
      * lia.
      * nia.
      * destruct decimals; [|done]. destruct Hdec as [? ->]. split; [lia|]. f_equal. lia.
    + done.
    + nia.
    + done.
    + destruct decimals; [|done]. destruct Hdec; split; [lia|done].
Qed.

(** The parts of a printed amount, when at most 18 decimal places are asked
    for. *)
Lemma amount_fmt_shape f a :
  in_range u128_MAX a -> (default 0%nat (fmt_precision f) <= 18)%nat ->
  exists l r sign int frac,
    amount_fmt f a
      = replicate l (fmt_fill f) ++ (sign ++ int ++ [46] ++ frac) ++ replicate r (fmt_fill f)
    /\ (sign = [] \/ sign = [43]) /\ digits int /\ int <> [] /\ digits frac
    /\ (length frac <= 18)%nat
    /\ digits_value int * 10 ^ 18
       + digits_value frac * 10 ^ (18 - Z.of_nat (length frac)) = a.
Proof.
  intros Ha Hprec. unfold amount_fmt. cbv zeta.
  destruct (format_zero_padded_spec (18 + 1) a Ha) as (Hd & Hv & Hlen).
  generalize dependent (format_zero_padded (18 + 1) a). intros ds Hd Hv Hlen. set (k := (length ds - 18)%nat).
  destruct (trim_end_eqb 48 (drop k ds)) as [z Hz].
  set (frac := trim_end_matches (Z.eqb 48) (drop k ds)) in *.
  set (precision := Nat.max (default 0%nat (fmt_precision f)) (length frac)).
  assert (length (drop k ds) = 18%nat) as Hfl by (rewrite length_drop; unfold k; lia).
  assert (length frac + z = 18)%nat as Hz18
    by (rewrite Hz, length_app, length_replicate in Hfl; lia).
  match goal with
  | |- exists _ _ _ _ _, replicate ?l _ ++ ?sign ++ _ ++ _ ++ _ ++ _ ++ replicate ?r _ = _ /\ _ =>
      exists l, r, sign, (take k ds), (frac ++ replicate (precision - length frac) 48)
  end.
  split; [by rewrite <- !app_assoc|].
  split; [destruct (_ && _); auto|].
  pose proof Hd as Hd'. rewrite <- (take_drop k ds) in Hd'.
  apply Forall_app in Hd' as [Hint Hfrac]. split; [done|].
  split.
  { intros Hnil. apply (f_equal length) in Hnil. rewrite length_take in Hnil.
    simpl in Hnil. unfold k in Hnil. lia. }
  rewrite Hz in Hfrac. apply Forall_app in Hfrac as [Hfrac _].
  split; [apply Forall_app; split; [done|apply digits_zeros]|].
  assert (length (frac ++ replicate (precision - length frac) 48) = precision) as Hl
    by (rewrite length_app, length_replicate; unfold precision; lia).
  rewrite Hl. split; [unfold precision; lia|].
  assert (digits_value ds
    = digits_value (take k ds) * 10 ^ Z.of_nat 18 + digits_value (drop k ds)) as Hsplit
    by (rewrite <- (take_drop k ds) at 1; by rewrite digits_value_app, Hfl).
  rewrite <- Hv, Hsplit. f_equal.
  rewrite Hz, !digits_value_app, !digits_value_zeros, !length_replicate, !Z.add_0_r.
  rewrite <- Z.mul_assoc, <- Z.pow_add_r by lia. do 2 f_equal. unfold precision. lia.
Qed.



(** The state of the parser stays within the types of its variables. *)
Lemma parse_chars_range chars res decimals res' decimals' :
  in_range u128_MAX res -> (forall d, decimals = Some d -> 0 <= d <= DECIMAL_PLACES) ->
  parse_chars chars res decimals = Ok (res', decimals') ->
  in_range u128_MAX res' /\ (forall d, decimals' = Some d -> 0 <= d <= DECIMAL_PLACES).
Proof.
  revert res decimals. induction chars as [|c chars IH]; intros res decimals Hres Hdec; cbn [parse_chars].
  { by intros [= <- <-]. }
  destruct (c =? 95); [by apply IH|]. destruct (c =? 46).
  - destruct decimals; [done|]. apply IH; [done|]. intros d [= <-]. unfold DECIMAL_PLACES. lia.
  - intros H. inv_result.
    match goal with H : to_digit _ = _ |- _ => rename H into Hdigit end.
    unfold to_digit in Hdigit. destruct (48 <=? c) eqn:?, (c <=? 57) eqn:?; simplify_eq/=.
    match goal with H : _ ≫= _ = Some _ |- _ => apply bind_Some in H as (r & Hr & Ha) end.
    apply checked_mul_Some in Hr as [-> Hr]. apply checked_add_Some in Ha as [-> Ha].
    eapply IH; [| |done].
    + unfold in_range in *. lia.
    + intros d ->. destruct decimals as [d'|]; inv_result.
      * specialize (Hdec d' eq_refl).
        match goal with H : checked_sub _ _ = _ |- _ => apply checked_sub_Some in H end.
        simplify_eq. lia.
      * congruence.
Qed.

(** every text the parser accepts denotes an amount of the type: parsing
    never returns a value outside of the range of a u128. *)
Theorem amount_from_str_range s a : amount_from_str s = Ok a -> in_range u128_MAX a.
Proof.
  unfold amount_from_str. intros H. apply bind_Ok in H as ([res decimals] & Hp & H). inv_result.
  apply checked_mul_Some in H as [-> H].
  apply parse_chars_range in Hp as [[Hlo Hhi] Hdec]; [|unfold in_range, u128_MAX; lia|done].
  split; [|done]. apply Z.mul_nonneg_nonneg; [done|]. apply Z.pow_nonneg. lia.
Qed.

Lemma amount_from_str_range_witness : in_range u128_MAX 1250000000000000000.
Proof. apply (amount_from_str_range [49; 46; 50; 53]). vm_compute. reflexivity. Defined.
