(* ===== verification/Types.v ===== *)
(** * Data types of the protocol

    The identifiers of [linera-base/src/identifiers.rs], the types of
    [linera-execution] (policies, committees, ownership, operations, messages
    and execution results) and those of [linera-chain/src/data_types.rs]
    (blocks, events, certificates, votes), with decidable equality and, for
    the types used as keys, an encoding.

    A hash, a key or a signature is a fixed-length byte string; it is
    represented by the integer it denotes in big-endian order, so that the
    order [Ord] derives on byte arrays is the order of the integers.  A
    [Vec<u8>] is a list of integers.  [BTreeMap] and [HashMap] are [gmap]. *)

From S2P Require Import Prelude Numbers.

(** ** Identifiers *)

Notation CryptoHash := Z (only parsing).
Notation PublicKey := Z (only parsing).
Notation KeyPair := Z (only parsing).
Notation Signature := Z (only parsing).
Notation ChainId := Z (only parsing).
Notation Owner := Z (only parsing).
Notation ValidatorName := Z (only parsing).
Notation Epoch := Z (only parsing).
Notation bytes := (list Z) (only parsing).
Notation ChannelName := (list Z) (only parsing).

Record MessageId := {
  mid_chain_id : ChainId;
  mid_height : BlockHeight;
  mid_index : Z;
}.

Inductive ChainDescription :=
| Root (index : Z)
| Child (id : MessageId).

Record BytecodeId := { bytecode_message_id : MessageId }.

Record UserApplicationId := {
  app_bytecode_id : BytecodeId;
  app_creation : MessageId;
}.

Inductive GenericApplicationId :=
| AppSystem
| AppUser (id : UserApplicationId).

Inductive Destination :=
| Recipient (id : ChainId)
| Subscribers (name : ChannelName).

#[export] Instance MessageId_eq_dec : EqDecision MessageId.
Proof. solve_decision. Defined.
#[export] Instance ChainDescription_eq_dec : EqDecision ChainDescription.
Proof. solve_decision. Defined.
#[export] Instance BytecodeId_eq_dec : EqDecision BytecodeId.
Proof. solve_decision. Defined.
#[export] Instance UserApplicationId_eq_dec : EqDecision UserApplicationId.
Proof. solve_decision. Defined.
#[export] Instance GenericApplicationId_eq_dec : EqDecision GenericApplicationId.
Proof. solve_decision. Defined.
#[export] Instance Destination_eq_dec : EqDecision Destination.
Proof. solve_decision. Defined.

#[export] Instance MessageId_countable : Countable MessageId.
Proof.
  refine (inj_countable' (fun m => (mid_chain_id m, mid_height m, mid_index m))
    (fun '(c, h, i) => {| mid_chain_id := c; mid_height := h; mid_index := i |}) _).
  by intros [].
Defined.
#[export] Instance BytecodeId_countable : Countable BytecodeId.
Proof.
  refine (inj_countable' bytecode_message_id Build_BytecodeId _). by intros [].
Defined.
#[export] Instance UserApplicationId_countable : Countable UserApplicationId.
Proof.
  refine (inj_countable' (fun a => (app_bytecode_id a, app_creation a))
    (fun '(b, c) => {| app_bytecode_id := b; app_creation := c |}) _). by intros [].
Defined.
#[export] Instance GenericApplicationId_countable : Countable GenericApplicationId.
Proof.
  refine (inj_countable'
    (fun a => match a with AppSystem => None | AppUser id => Some id end)
    (fun o => match o with None => AppSystem | Some id => AppUser id end) _).
  by intros [].
Defined.

(** ** Applications *)

Record BytecodeLocation := {
  loc_certificate_hash : CryptoHash;
  loc_operation_index : Z;
}.

Record UserApplicationDescription := {
  desc_bytecode_id : BytecodeId;
  desc_bytecode_location : BytecodeLocation;
  desc_creation : MessageId;
  desc_parameters : bytes;
  desc_required_application_ids : list UserApplicationId;
}.

#[export] Instance BytecodeLocation_eq_dec : EqDecision BytecodeLocation.
Proof. solve_decision. Defined.
#[export] Instance UserApplicationDescription_eq_dec : EqDecision UserApplicationDescription.
Proof. solve_decision. Defined.

(** ** Policies, committees and ownership *)

Record ResourceControlPolicy := {
  policy_certificate : Amount;
  policy_fuel : Amount;
  policy_storage_num_reads : Amount;
  policy_storage_bytes_read : Amount;
  policy_storage_bytes_written : Amount;
  policy_maximum_bytes_read_per_block : Z;
  policy_maximum_bytes_written_per_block : Z;
  policy_messages : Amount;
}.

Record ValidatorState := {
  network_address : bytes;
  votes : Z;
}.

Record Committee := {
  validators : gmap ValidatorName ValidatorState;
  total_votes : Z;
  quorum_threshold : Z;
  validity_threshold : Z;
  committee_policy : ResourceControlPolicy;
}.

Inductive ChainOwnership :=
| OwnershipNone
| OwnershipSingle (owner : Owner) (public_key : PublicKey)
| OwnershipMulti (public_keys : gmap Owner (PublicKey * Z)) (multi_leader_rounds : RoundNumber).

#[export] Instance ResourceControlPolicy_eq_dec : EqDecision ResourceControlPolicy.
Proof. solve_decision. Defined.
#[export] Instance ValidatorState_eq_dec : EqDecision ValidatorState.
Proof. solve_decision. Defined.
#[export] Instance Committee_eq_dec : EqDecision Committee.
Proof. solve_decision. Defined.
#[export] Instance ChainOwnership_eq_dec : EqDecision ChainOwnership.
Proof. solve_decision. Defined.

(** ** System operations and messages *)

Record Account := {
  account_chain_id : ChainId;
  account_owner : option Owner;
}.

(** The recipient of a transfer. *)
Inductive TransferRecipient :=
| Burn
| ToAccount (account : Account).

Notation UserData := (option (list Z)) (only parsing).

Inductive SystemChannel :=
| AdminChannel
| PublishedBytecodes.

Record ChannelSubscription := {
  sub_chain_id : ChainId;
  sub_name : ChannelName;
}.

Inductive AdminOperation :=
| CreateCommittee (epoch : Epoch) (committee : Committee)
| RemoveCommittee (epoch : Epoch).

Inductive SystemOperation :=
| OpTransfer (owner : option Owner) (recipient : TransferRecipient) (amount : Amount)
    (user_data : UserData)
| OpClaim (owner : Owner) (target : ChainId) (recipient : TransferRecipient)
    (amount : Amount) (user_data : UserData)
| OpOpenChain (ownership : ChainOwnership) (admin_id : ChainId) (epoch : Epoch)
    (committees : gmap Epoch Committee)
| OpCloseChain
| OpChangeOwner (new_public_key : PublicKey)
| OpChangeMultipleOwners (new_public_keys : list (PublicKey * Z))
    (multi_leader_rounds : RoundNumber)
| OpSubscribe (chain_id : ChainId) (channel : SystemChannel)
| OpUnsubscribe (chain_id : ChainId) (channel : SystemChannel)
| OpPublishBytecode (contract service : bytes)
| OpCreateApplication (bytecode_id : BytecodeId) (parameters : bytes)
    (initialization_argument : bytes) (required_application_ids : list UserApplicationId)
| OpRequestApplication (chain_id : ChainId) (application_id : UserApplicationId)
| OpAdmin (operation : AdminOperation).

Inductive SystemMessage :=
| MsgCredit (account : Account) (amount : Amount)
| MsgWithdraw (account : Account) (amount : Amount) (recipient : TransferRecipient)
    (user_data : UserData)
| MsgOpenChain (ownership : ChainOwnership) (admin_id : ChainId) (epoch : Epoch)
    (committees : gmap Epoch Committee)
| MsgSetCommittees (epoch : Epoch) (committees : gmap Epoch Committee)
| MsgSubscribe (id : ChainId) (subscription : ChannelSubscription)
| MsgUnsubscribe (id : ChainId) (subscription : ChannelSubscription)
| MsgBytecodePublished (operation_index : Z)
| MsgApplicationCreated
| MsgBytecodeLocations (locations : list (BytecodeId * BytecodeLocation))
| MsgRegisterApplications (applications : list UserApplicationDescription)
| MsgNotify (id : ChainId)
| MsgRequestApplication (id : UserApplicationId).

#[export] Instance Account_eq_dec : EqDecision Account.
Proof. solve_decision. Defined.
#[export] Instance TransferRecipient_eq_dec : EqDecision TransferRecipient.
Proof. solve_decision. Defined.
#[export] Instance SystemChannel_eq_dec : EqDecision SystemChannel.
Proof. solve_decision. Defined.
#[export] Instance ChannelSubscription_eq_dec : EqDecision ChannelSubscription.
Proof. solve_decision. Defined.
#[export] Instance ChannelSubscription_countable : Countable ChannelSubscription.
Proof.
  refine (inj_countable' (fun s => (sub_chain_id s, sub_name s))
    (fun '(c, n) => {| sub_chain_id := c; sub_name := n |}) _). by intros [].
Defined.
#[export] Instance AdminOperation_eq_dec : EqDecision AdminOperation.
Proof. solve_decision. Defined.
#[export] Instance SystemOperation_eq_dec : EqDecision SystemOperation.
Proof. solve_decision. Defined.
#[export] Instance SystemMessage_eq_dec : EqDecision SystemMessage.
Proof. solve_decision. Defined.

Inductive Operation :=
| SystemOp (operation : SystemOperation)
| UserOp (application_id : UserApplicationId) (operation_bytes : bytes).

Inductive Message :=
| SystemMsg (message : SystemMessage)
| UserMsg (application_id : UserApplicationId) (message_bytes : bytes).

#[export] Instance Operation_eq_dec : EqDecision Operation.
Proof. solve_decision. Defined.
#[export] Instance Message_eq_dec : EqDecision Message.
Proof. solve_decision. Defined.

(** [Message::application_id]. *)
Definition message_application_id (m : Message) : GenericApplicationId :=
  match m with
  | SystemMsg _ => AppSystem
  | UserMsg application_id _ => AppUser application_id
  end.

(** ** Execution contexts and results *)

Record OperationContext := {
  opctx_chain_id : ChainId;
  opctx_authenticated_signer : option Owner;
  opctx_height : BlockHeight;
  opctx_index : Z;
  opctx_next_message_index : Z;
}.

Record MessageContext := {
  msgctx_chain_id : ChainId;
  msgctx_authenticated_signer : option Owner;
  msgctx_height : BlockHeight;
  msgctx_certificate_hash : CryptoHash;
  msgctx_message_id : MessageId;
}.

(** [OperationContext::next_message_id]. *)
Definition next_message_id (ctx : OperationContext) : MessageId :=
  {| mid_chain_id := opctx_chain_id ctx;
     mid_height := opctx_height ctx;
     mid_index := opctx_next_message_index ctx |}.

Record RawOutgoingMessage (M : Type) := {
  raw_destination : Destination;
  raw_authenticated : bool;
  raw_is_skippable : bool;
  raw_message : M;
}.
Arguments raw_destination {M}.
Arguments raw_authenticated {M}.
Arguments raw_is_skippable {M}.
Arguments raw_message {M}.

Record RawExecutionResult (M : Type) := {
  res_authenticated_signer : option Owner;
  res_messages : list (RawOutgoingMessage M);
  res_subscribe : list (ChannelName * ChainId);
  res_unsubscribe : list (ChannelName * ChainId);
}.
Arguments res_authenticated_signer {M}.
Arguments res_messages {M}.
Arguments res_subscribe {M}.
Arguments res_unsubscribe {M}.

(** [RawExecutionResult::default]. *)
Definition default_result {M} : RawExecutionResult M :=
  {| res_authenticated_signer := None; res_messages := [];
     res_subscribe := []; res_unsubscribe := [] |}.

Inductive ExecutionResult :=
| ResultSystem (r : RawExecutionResult SystemMessage)
| ResultUser (application_id : UserApplicationId) (r : RawExecutionResult bytes).

(** ** Blocks, events and messages between chains *)

Record ChannelFullName := {
  channel_application_id : GenericApplicationId;
  channel_name : ChannelName;
}.

Inductive Medium :=
| Direct
| Channel (name : ChannelFullName).

Record Origin := { sender : ChainId; origin_medium : Medium }.

Record Target := { recipient : ChainId; target_medium : Medium }.

Record Event := {
  ev_certificate_hash : CryptoHash;
  ev_height : BlockHeight;
  ev_index : Z;
  ev_authenticated_signer : option Owner;
  ev_is_skippable : bool;
  ev_timestamp : Timestamp;
  ev_message : Message;
}.

Record IncomingMessage := {
  in_origin : Origin;
  in_event : Event;
}.

Record Block := {
  block_chain_id : ChainId;
  block_epoch : Epoch;
  block_incoming_messages : list IncomingMessage;
  block_operations : list Operation;
  block_height : BlockHeight;
  block_timestamp : Timestamp;
  block_authenticated_signer : option Owner;
  block_previous_block_hash : option CryptoHash;
}.

Record ChainAndHeight := { cah_chain_id : ChainId; cah_height : BlockHeight }.

Record BlockAndRound := { bar_block : Block; bar_round : RoundNumber }.

Record OutgoingMessage := {
  out_destination : Destination;
  out_authenticated_signer : option Owner;
  out_is_skippable : bool;
  out_message : Message;
}.

Record ExecutedBlock := {
  eb_block : Block;
  eb_messages : list OutgoingMessage;
  eb_message_counts : list Z;
  eb_state_hash : CryptoHash;
}.

Record BlockExecutionOutcome := {
  outcome_messages : list OutgoingMessage;
  outcome_message_counts : list Z;
  outcome_state_hash : CryptoHash;
}.

#[export] Instance ChannelFullName_eq_dec : EqDecision ChannelFullName.
Proof. solve_decision. Defined.
#[export] Instance Medium_eq_dec : EqDecision Medium.
Proof. solve_decision. Defined.
#[export] Instance Origin_eq_dec : EqDecision Origin.
Proof. solve_decision. Defined.
#[export] Instance Target_eq_dec : EqDecision Target.
Proof. solve_decision. Defined.
#[export] Instance Event_eq_dec : EqDecision Event.
Proof. solve_decision. Defined.
#[export] Instance IncomingMessage_eq_dec : EqDecision IncomingMessage.
Proof. solve_decision. Defined.
#[export] Instance Block_eq_dec : EqDecision Block.
Proof. solve_decision. Defined.
#[export] Instance ChainAndHeight_eq_dec : EqDecision ChainAndHeight.
Proof. solve_decision. Defined.
#[export] Instance BlockAndRound_eq_dec : EqDecision BlockAndRound.
Proof. solve_decision. Defined.
#[export] Instance OutgoingMessage_eq_dec : EqDecision OutgoingMessage.
Proof. solve_decision. Defined.
#[export] Instance ExecutedBlock_eq_dec : EqDecision ExecutedBlock.
Proof. solve_decision. Defined.

#[export] Instance ChannelFullName_countable : Countable ChannelFullName.
Proof.
  refine (inj_countable' (fun c => (channel_application_id c, channel_name c))
    (fun '(a, n) => {| channel_application_id := a; channel_name := n |}) _). by intros [].
Defined.
#[export] Instance Medium_countable : Countable Medium.
Proof.
  refine (inj_countable' (fun m => match m with Direct => None | Channel c => Some c end)
    (fun o => match o with None => Direct | Some c => Channel c end) _). by intros [].
Defined.
#[export] Instance Origin_countable : Countable Origin.
Proof.
  refine (inj_countable' (fun o => (sender o, origin_medium o))
    (fun '(s, m) => {| sender := s; origin_medium := m |}) _). by intros [].
Defined.
#[export] Instance Target_countable : Countable Target.
Proof.
  refine (inj_countable' (fun t => (recipient t, target_medium t))
    (fun '(r, m) => {| recipient := r; target_medium := m |}) _). by intros [].
Defined.

(** ** Certified statements, votes and certificates *)

Inductive CertificateValue :=
| ValidatedBlock (executed_block : ExecutedBlock)
| ConfirmedBlock (executed_block : ExecutedBlock)
| LeaderTimeout (chain_id : ChainId) (height : BlockHeight) (epoch : Epoch).

Record HashedValue := {
  hv_value : CertificateValue;
  hv_hash : CryptoHash;
}.

Record LiteValue := {
  lv_value_hash : CryptoHash;
  lv_chain_id : ChainId;
}.

Record Vote := {
  vote_value : HashedValue;
  vote_round : RoundNumber;
  vote_validator : ValidatorName;
  vote_signature : Signature;
}.

Record LiteVote := {
  lvote_value : LiteValue;
  lvote_round : RoundNumber;
  lvote_validator : ValidatorName;
  lvote_signature : Signature;
}.

Record Certificate := {
  cert_value : HashedValue;
  cert_round : RoundNumber;
  cert_signatures : list (ValidatorName * Signature);
}.

Record LiteCertificate := {
  lcert_value : LiteValue;
  lcert_round : RoundNumber;
  lcert_signatures : list (ValidatorName * Signature);
}.

Record BlockProposal := {
  prop_content : BlockAndRound;
  prop_owner : Owner;
  prop_signature : Signature;
  prop_blobs : list HashedValue;
  prop_validated : option Certificate;
}.

#[export] Instance CertificateValue_eq_dec : EqDecision CertificateValue.
Proof. solve_decision. Defined.
#[export] Instance HashedValue_eq_dec : EqDecision HashedValue.
Proof. solve_decision. Defined.
#[export] Instance LiteValue_eq_dec : EqDecision LiteValue.
Proof. solve_decision. Defined.
#[export] Instance Vote_eq_dec : EqDecision Vote.
Proof. solve_decision. Defined.
#[export] Instance Certificate_eq_dec : EqDecision Certificate.
Proof. solve_decision. Defined.
