(* ===== verification/Crypto.v ===== *)
(** * Hashes and signatures

    The interface of [linera-base/src/crypto.rs].  The hash function (SHA3-256
    of a type name and the BCS bytes) and the signature scheme (Ed25519) come
    from external crates: they are the methods of the class [Crypto], and what
    the protocol relies on is the class [CryptoLaws].  [SymbolicCrypto] is an
    instance of both, in which a hash or a signature is an injective encoding
    of what it was computed from. *)

From S2P Require Import Prelude Numbers Types.

(** The values of a type that implements [BcsSignable] and is signed by the
    protocol: a [ValueHashAndRound] or a [BlockAndRound]. *)
Inductive Signable :=
| ValueHashAndRound (hash : CryptoHash) (round : RoundNumber)
| SignedBlockAndRound (content : BlockAndRound).

Class Crypto := {
  (** [CryptoHash::new] at the types of the protocol. *)
  hash_value : CertificateValue -> CryptoHash;
  hash_public_key : PublicKey -> CryptoHash;
  hash_description : ChainDescription -> CryptoHash;
  (** [KeyPair::public]. *)
  key_public : KeyPair -> PublicKey;
  (** Signing, verifying one signature and verifying several of them. *)
  dalek_sign : KeyPair -> Signable -> Signature;
  dalek_verify : PublicKey -> Signable -> Signature -> bool;
  dalek_verify_batch : list Signable -> list Signature -> list PublicKey -> bool;
}.

(** What is relied on.  A batch is accepted only when its members are valid
    signatures. *)
Class CryptoLaws (C : Crypto) := {
  hash_value_inj v1 v2 : hash_value v1 = hash_value v2 -> v1 = v2;
  verify_sign k m : dalek_verify (key_public k) m (dalek_sign k m) = true;
  verify_batch_sound m votes :
    dalek_verify_batch (replicate (length votes) m) votes.*2 votes.*1 = true ->
    Forall (fun '(author, signature) => dalek_verify author m signature = true) votes;
  verify_batch_complete m votes :
    Forall (fun '(author, signature) => dalek_verify author m signature = true) votes ->
    dalek_verify_batch (replicate (length votes) m) votes.*2 votes.*1 = true;
}.

Inductive CryptoError :=
| InvalidSignature.

Section crypto.
Context `{Crypto}.

(** [From<PublicKey> for Owner] and [From<ChainDescription> for ChainId]. *)
Definition owner_from (key : PublicKey) : Owner := hash_public_key key.
Definition chain_id_from (description : ChainDescription) : ChainId :=
  hash_description description.

(** [Signature::new]. *)
Definition signature_new (value : Signable) (secret : KeyPair) : Signature :=
  dalek_sign secret value.

(** [Signature::check]. *)
Definition signature_check (self : Signature) (value : Signable) (author : PublicKey)
    : result CryptoError unit :=
  ensure (dalek_verify author value self) InvalidSignature.

(** [Signature::verify_batch]. *)
Definition signature_verify_batch (value : Signable) (votes : list (PublicKey * Signature))
    : result CryptoError unit :=
  ensure (dalek_verify_batch (replicate (length votes) value) votes.*2 votes.*1)
    InvalidSignature.

End crypto.

(** ** A symbolic instance *)

Module SymbolicCrypto.

Notation tree := (gen_tree Z).

(** Injective encodings of the hashed and signed types as trees of integers. *)
Definition enc_bool (b : bool) : tree := GenNode (if b then 1%nat else 0%nat) [].
Definition enc_list {A} (f : A -> tree) (l : list A) : tree := GenNode 0 (f <$> l).
Definition enc_option {A} (f : A -> tree) (o : option A) : tree :=
  match o with None => GenNode 0 [] | Some a => GenNode 1 [f a] end.
Definition enc_pair {A B} (f : A -> tree) (g : B -> tree) (p : A * B) : tree :=
  GenNode 0 [f p.1; g p.2].
Definition enc_map {V} (f : V -> tree) (m : gmap Z V) : tree :=
  enc_list (enc_pair GenLeaf f) (map_to_list m).

#[local] Instance enc_leaf_inj : Inj (=) (=) (@GenLeaf Z).
Proof. by intros ? ? [= ->]. Qed.
#[local] Instance enc_bool_inj : Inj (=) (=) enc_bool.
Proof. by intros [] []. Qed.
#[local] Instance enc_list_inj {A} (f : A -> tree) :
  Inj (=) (=) f -> Inj (=) (=) (enc_list f).
Proof. intros ? l1 l2 [= ?%(inj (fmap f))]. done. Qed.
#[local] Instance enc_option_inj {A} (f : A -> tree) :
  Inj (=) (=) f -> Inj (=) (=) (enc_option f).
Proof. intros ? [] []; simpl; intros ?; by simplify_eq. Qed.
#[local] Instance enc_pair_inj {A B} (f : A -> tree) (g : B -> tree) :
  Inj (=) (=) f -> Inj (=) (=) g -> Inj (=) (=) (enc_pair f g).
Proof. intros ? ? [] []; unfold enc_pair; simpl; intros ?; by simplify_eq. Qed.
#[local] Instance enc_map_inj {V} (f : V -> tree) :
  Inj (=) (=) f -> Inj (=) (=) (enc_map f).
Proof.
  intros ? m1 m2 Heq. apply (inj (enc_list (enc_pair GenLeaf f))) in Heq.
  apply map_to_list_inj. by rewrite Heq.
Qed.

Notation Zs := (enc_list GenLeaf).

Definition enc_mid (m : MessageId) : tree :=
  GenNode 0 [GenLeaf (mid_chain_id m); GenLeaf (mid_height m); GenLeaf (mid_index m)].
Definition enc_description (d : ChainDescription) : tree :=
  match d with Root i => GenNode 0 [GenLeaf i] | Child m => GenNode 1 [enc_mid m] end.
Definition enc_bytecode (b : BytecodeId) : tree := enc_mid (bytecode_message_id b).
Definition enc_app (a : UserApplicationId) : tree :=
  GenNode 0 [enc_bytecode (app_bytecode_id a); enc_mid (app_creation a)].
Definition enc_generic (a : GenericApplicationId) : tree :=
  match a with AppSystem => GenNode 0 [] | AppUser i => GenNode 1 [enc_app i] end.
Definition enc_destination (d : Destination) : tree :=
  match d with Recipient i => GenNode 0 [GenLeaf i] | Subscribers n => GenNode 1 [Zs n] end.
Definition enc_location (l : BytecodeLocation) : tree :=
  GenNode 0 [GenLeaf (loc_certificate_hash l); GenLeaf (loc_operation_index l)].
Definition enc_app_description (d : UserApplicationDescription) : tree :=
  GenNode 0 [enc_bytecode (desc_bytecode_id d); enc_location (desc_bytecode_location d);
    enc_mid (desc_creation d); Zs (desc_parameters d);
    enc_list enc_app (desc_required_application_ids d)].
Definition enc_policy (p : ResourceControlPolicy) : tree :=
  Zs [policy_certificate p; policy_fuel p; policy_storage_num_reads p;
    policy_storage_bytes_read p; policy_storage_bytes_written p;
    policy_maximum_bytes_read_per_block p; policy_maximum_bytes_written_per_block p;
    policy_messages p].
Definition enc_validator (v : ValidatorState) : tree :=
  GenNode 0 [Zs (network_address v); GenLeaf (votes v)].
Definition enc_committee (c : Committee) : tree :=
  GenNode 0 [enc_map enc_validator (validators c); GenLeaf (total_votes c);
    GenLeaf (quorum_threshold c); GenLeaf (validity_threshold c);
    enc_policy (committee_policy c)].
Definition enc_ownership (o : ChainOwnership) : tree :=
  match o with
  | OwnershipNone => GenNode 0 []
  | OwnershipSingle o k => GenNode 1 [GenLeaf o; GenLeaf k]
  | OwnershipMulti ks r => GenNode 2 [enc_map (enc_pair GenLeaf GenLeaf) ks; GenLeaf r]
  end.

Lemma node_inj n m (l k : list tree) : GenNode n l = GenNode m k -> n = m /\ l = k.
Proof. by intros [= -> ->]. Qed.

Ltac inj_enc f :=
  intros [] []; unfold f; simpl; intros ?;
  repeat match goal with
  | H : GenNode _ _ = GenNode _ _ |- _ =>
      apply node_inj in H; destruct H as [Hn H]; try discriminate Hn; clear Hn
  | H : _ :: _ = _ :: _ |- _ => apply cons_eq_inj in H; destruct H
  | H : @nil _ = [] |- _ => clear H
  | H : ?x = ?y |- _ => is_var x; is_var y; subst y
  | H : ?g ?x = ?g ?y |- _ => apply (inj g) in H
  end; done.


#[local] Instance enc_mid_inj : Inj (=) (=) enc_mid.
Proof. inj_enc enc_mid. Qed.
#[local] Instance enc_description_inj : Inj (=) (=) enc_description.
Proof. inj_enc enc_description. Qed.
#[local] Instance enc_bytecode_inj : Inj (=) (=) enc_bytecode.
Proof. inj_enc enc_bytecode. Qed.
#[local] Instance enc_app_inj : Inj (=) (=) enc_app.
Proof. inj_enc enc_app. Qed.
#[local] Instance enc_generic_inj : Inj (=) (=) enc_generic.
Proof. inj_enc enc_generic. Qed.
#[local] Instance enc_destination_inj : Inj (=) (=) enc_destination.
Proof. inj_enc enc_destination. Qed.
#[local] Instance enc_location_inj : Inj (=) (=) enc_location.
Proof. inj_enc enc_location. Qed.
#[local] Instance enc_app_description_inj : Inj (=) (=) enc_app_description.
Proof. inj_enc enc_app_description. Qed.
#[local] Instance enc_policy_inj : Inj (=) (=) enc_policy.
Proof. inj_enc enc_policy. Qed.
#[local] Instance enc_validator_inj : Inj (=) (=) enc_validator.
Proof. inj_enc enc_validator. Qed.
#[local] Instance enc_committee_inj : Inj (=) (=) enc_committee.
Proof. inj_enc enc_committee. Qed.
#[local] Instance enc_ownership_inj : Inj (=) (=) enc_ownership.
Proof. inj_enc enc_ownership. Qed.
Definition enc_account (a : Account) : tree :=
  GenNode 0 [GenLeaf (account_chain_id a); enc_option GenLeaf (account_owner a)].
#[local] Instance enc_account_inj : Inj (=) (=) enc_account.
Proof. inj_enc enc_account. Qed.

Definition enc_recipient (r : TransferRecipient) : tree :=
  match r with Burn => GenNode 0 [] | ToAccount a => GenNode 1 [enc_account a] end.
#[local] Instance enc_recipient_inj : Inj (=) (=) enc_recipient.
Proof. inj_enc enc_recipient. Qed.

Definition enc_channel (c : SystemChannel) : tree :=
  match c with AdminChannel => GenNode 0 [] | PublishedBytecodes => GenNode 1 [] end.
#[local] Instance enc_channel_inj : Inj (=) (=) enc_channel.
Proof. inj_enc enc_channel. Qed.

Definition enc_subscription (s : ChannelSubscription) : tree :=
  GenNode 0 [GenLeaf (sub_chain_id s); Zs (sub_name s)].
#[local] Instance enc_subscription_inj : Inj (=) (=) enc_subscription.
Proof. inj_enc enc_subscription. Qed.

Definition enc_admin (o : AdminOperation) : tree :=
  match o with
  | CreateCommittee e c => GenNode 0 [GenLeaf e; enc_committee c]
  | RemoveCommittee e => GenNode 1 [GenLeaf e]
  end.
#[local] Instance enc_admin_inj : Inj (=) (=) enc_admin.
Proof. inj_enc enc_admin. Qed.

Definition enc_system_operation (o : SystemOperation) : tree :=
  match o with
  | OpTransfer o r a d =>
      GenNode 0 [enc_option GenLeaf o; enc_recipient r; GenLeaf a; enc_option Zs d]
  | OpClaim o t r a d =>
      GenNode 1 [GenLeaf o; GenLeaf t; enc_recipient r; GenLeaf a; enc_option Zs d]
  | OpOpenChain o a e c =>
      GenNode 2 [enc_ownership o; GenLeaf a; GenLeaf e; enc_map enc_committee c]
  | OpCloseChain => GenNode 3 []
  | OpChangeOwner k => GenNode 4 [GenLeaf k]
  | OpChangeMultipleOwners ks r =>
      GenNode 5 [enc_list (enc_pair GenLeaf GenLeaf) ks; GenLeaf r]
  | OpSubscribe i c => GenNode 6 [GenLeaf i; enc_channel c]
  | OpUnsubscribe i c => GenNode 7 [GenLeaf i; enc_channel c]
  | OpPublishBytecode c s => GenNode 8 [Zs c; Zs s]
  | OpCreateApplication b p a r =>
      GenNode 9 [enc_bytecode b; Zs p; Zs a; enc_list enc_app r]
  | OpRequestApplication i a => GenNode 10 [GenLeaf i; enc_app a]
  | OpAdmin o => GenNode 11 [enc_admin o]
  end.
#[local] Instance enc_system_operation_inj : Inj (=) (=) enc_system_operation.
Proof. inj_enc enc_system_operation. Qed.

Definition enc_system_message (m : SystemMessage) : tree :=
  match m with
  | MsgCredit a n => GenNode 0 [enc_account a; GenLeaf n]
  | MsgWithdraw a n r d =>
      GenNode 1 [enc_account a; GenLeaf n; enc_recipient r; enc_option Zs d]
  | MsgOpenChain o a e c =>
      GenNode 2 [enc_ownership o; GenLeaf a; GenLeaf e; enc_map enc_committee c]
  | MsgSetCommittees e c => GenNode 3 [GenLeaf e; enc_map enc_committee c]
  | MsgSubscribe i s => GenNode 4 [GenLeaf i; enc_subscription s]
  | MsgUnsubscribe i s => GenNode 5 [GenLeaf i; enc_subscription s]
  | MsgBytecodePublished i => GenNode 6 [GenLeaf i]
  | MsgApplicationCreated => GenNode 7 []
  | MsgBytecodeLocations l => GenNode 8 [enc_list (enc_pair enc_bytecode enc_location) l]
  | MsgRegisterApplications l => GenNode 9 [enc_list enc_app_description l]
  | MsgNotify i => GenNode 10 [GenLeaf i]
  | MsgRequestApplication a => GenNode 11 [enc_app a]
  end.
#[local] Instance enc_system_message_inj : Inj (=) (=) enc_system_message.
Proof. inj_enc enc_system_message. Qed.

Definition enc_operation (o : Operation) : tree :=
  match o with
  | SystemOp o => GenNode 0 [enc_system_operation o]
  | UserOp a b => GenNode 1 [enc_app a; Zs b]
  end.
#[local] Instance enc_operation_inj : Inj (=) (=) enc_operation.
Proof. inj_enc enc_operation. Qed.

Definition enc_message (m : Message) : tree :=
  match m with
  | SystemMsg m => GenNode 0 [enc_system_message m]
  | UserMsg a b => GenNode 1 [enc_app a; Zs b]
  end.
#[local] Instance enc_message_inj : Inj (=) (=) enc_message.
Proof. inj_enc enc_message. Qed.

Definition enc_channel_name (c : ChannelFullName) : tree :=
  GenNode 0 [enc_generic (channel_application_id c); Zs (channel_name c)].
#[local] Instance enc_channel_name_inj : Inj (=) (=) enc_channel_name.
Proof. inj_enc enc_channel_name. Qed.

Definition enc_medium (m : Medium) : tree :=
  match m with Direct => GenNode 0 [] | Channel c => GenNode 1 [enc_channel_name c] end.
#[local] Instance enc_medium_inj : Inj (=) (=) enc_medium.
Proof. inj_enc enc_medium. Qed.

Definition enc_origin (o : Origin) : tree :=
  GenNode 0 [GenLeaf (sender o); enc_medium (origin_medium o)].
#[local] Instance enc_origin_inj : Inj (=) (=) enc_origin.
Proof. inj_enc enc_origin. Qed.

Definition enc_event (e : Event) : tree :=
  GenNode 0 [GenLeaf (ev_certificate_hash e); GenLeaf (ev_height e); GenLeaf (ev_index e);
    enc_option GenLeaf (ev_authenticated_signer e); enc_bool (ev_is_skippable e);
    GenLeaf (ev_timestamp e); enc_message (ev_message e)].
#[local] Instance enc_event_inj : Inj (=) (=) enc_event.
Proof. inj_enc enc_event. Qed.

Definition enc_incoming (m : IncomingMessage) : tree :=
  GenNode 0 [enc_origin (in_origin m); enc_event (in_event m)].
#[local] Instance enc_incoming_inj : Inj (=) (=) enc_incoming.
Proof. inj_enc enc_incoming. Qed.

Definition enc_block (b : Block) : tree :=
  GenNode 0 [GenLeaf (block_chain_id b); GenLeaf (block_epoch b);
    enc_list enc_incoming (block_incoming_messages b);
    enc_list enc_operation (block_operations b); GenLeaf (block_height b);
    GenLeaf (block_timestamp b); enc_option GenLeaf (block_authenticated_signer b);
    enc_option GenLeaf (block_previous_block_hash b)].
#[local] Instance enc_block_inj : Inj (=) (=) enc_block.
Proof. inj_enc enc_block. Qed.

Definition enc_outgoing (m : OutgoingMessage) : tree :=
  GenNode 0 [enc_destination (out_destination m);
    enc_option GenLeaf (out_authenticated_signer m); enc_bool (out_is_skippable m);
    enc_message (out_message m)].
#[local] Instance enc_outgoing_inj : Inj (=) (=) enc_outgoing.
Proof. inj_enc enc_outgoing. Qed.

Definition enc_executed (b : ExecutedBlock) : tree :=
  GenNode 0 [enc_block (eb_block b); enc_list enc_outgoing (eb_messages b);
    Zs (eb_message_counts b); GenLeaf (eb_state_hash b)].
#[local] Instance enc_executed_inj : Inj (=) (=) enc_executed.
Proof. inj_enc enc_executed. Qed.

Definition enc_value (v : CertificateValue) : tree :=
  match v with
  | ValidatedBlock b => GenNode 0 [enc_executed b]
  | ConfirmedBlock b => GenNode 1 [enc_executed b]
  | LeaderTimeout c h e => GenNode 2 [GenLeaf c; GenLeaf h; GenLeaf e]
  end.
#[local] Instance enc_value_inj : Inj (=) (=) enc_value.
Proof. inj_enc enc_value. Qed.

Definition enc_block_and_round (b : BlockAndRound) : tree :=
  GenNode 0 [enc_block (bar_block b); GenLeaf (bar_round b)].
#[local] Instance enc_block_and_round_inj : Inj (=) (=) enc_block_and_round.
Proof. inj_enc enc_block_and_round. Qed.

Definition enc_signable (s : Signable) : tree :=
  match s with
  | ValueHashAndRound h r => GenNode 0 [GenLeaf h; GenLeaf r]
  | SignedBlockAndRound b => GenNode 1 [enc_block_and_round b]
  end.
#[local] Instance enc_signable_inj : Inj (=) (=) enc_signable.
Proof. inj_enc enc_signable. Qed.

Definition to_Z (t : tree) : Z := Zpos (encode t).
#[local] Instance to_Z_inj : Inj (=) (=) to_Z.
Proof. intros ? ? [= ?%(inj encode)]. done. Qed.

Definition signed (author : PublicKey) (m : Signable) : Signature :=
  to_Z (GenNode 2 [GenLeaf author; enc_signable m]).

#[export] Instance symbolic : Crypto := {
  hash_value v := to_Z (enc_value v);
  hash_public_key k := to_Z (GenLeaf k);
  hash_description d := to_Z (enc_description d);
  key_public k := k;
  dalek_sign k m := signed k m;
  dalek_verify author m s := s =? signed author m;
  dalek_verify_batch ms ss ks :=
    forallb (fun '(m, s, k) => s =? signed k m) (zip (zip ms ss) ks);
}.

Lemma batch_forallb m (votes : list (PublicKey * Signature)) :
  dalek_verify_batch (replicate (length votes) m) votes.*2 votes.*1 =
  forallb (fun '(k, s) => dalek_verify k m s) votes.
Proof. induction votes as [|[k s] votes IH]; [done|]. cbn in *. by rewrite IH. Qed.

#[export] Instance symbolic_laws : CryptoLaws symbolic.
Proof.
  split.
  - intros v1 v2 ?%(inj to_Z)%(inj enc_value). done.
  - intros k m. apply Z.eqb_refl.
  - intros m votes. rewrite batch_forallb. intros Hall%Is_true_true%forallb_True. eapply Forall_impl; [exact Hall|]. intros [k s]. by intros ?%Is_true_true.
  - intros m votes Hall. rewrite batch_forallb. apply Is_true_true, forallb_True.
    eapply Forall_impl; [exact Hall|]. intros [k s] Hv. by apply Is_true_true.
Qed.

End SymbolicCrypto.
