(* ===== verification/Committees.v ===== *)
(** * Committees and ownership

    [linera-execution/src/committee.rs] (the voting weights, the thresholds,
    the two serialized forms) and [linera-execution/src/ownership.rs].  The
    theorems give the thresholds their meaning: with [f] the largest weight of
    faulty validators tolerated, a quorum has weight [N - f] and two quorums
    share validators of weight more than [f]. *)

From S2P Require Import Prelude Numbers Types Crypto.

(** ** The code *)

Definition epoch_try_add_one (self : Epoch) : result ArithmeticError Epoch :=
  ok_or (checked_add u32_MAX self 1) Overflow.

Definition epoch_try_add_assign_one (self : Epoch) : result ArithmeticError Epoch :=
  ok_or (checked_add u32_MAX self 1) Overflow.

Definition committee_new (validators : gmap ValidatorName ValidatorState)
    (policy : ResourceControlPolicy) : Committee :=
  let total_votes :=
    foldl (fun sum '(_, state) => wrapping_add u64_MAX sum (votes state)) 0
      (btree_iter validators) in
  {| validators := validators;
     total_votes := total_votes;
     quorum_threshold := wrapping_add u64_MAX (wrapping_mul u64_MAX 2 total_votes / 3) 1;
     validity_threshold := wrapping_add u64_MAX total_votes 2 / 3;
     committee_policy := policy |}.

Definition weight (self : Committee) (author : ValidatorName) : Z :=
  match validators self !! author with
  | Some state => votes state
  | None => 0
  end.

Definition committee_network_address (self : Committee) (author : ValidatorName)
    : option bytes :=
  network_address <$> validators self !! author.

(** The serialized forms of a committee: with the thresholds in human-readable
    formats, without them in binary ones. *)
Record CommitteeFull := {
  full_validators : gmap ValidatorName ValidatorState;
  full_total_votes : Z;
  full_quorum_threshold : Z;
  full_validity_threshold : Z;
  full_policy : ResourceControlPolicy;
}.

Record CommitteeMinimal := {
  minimal_validators : gmap ValidatorName ValidatorState;
  minimal_policy : ResourceControlPolicy;
}.

(** The message of a failed conversion: the field, its value and the value
    expected. *)
Inductive CommitteeError :=
| InvalidTotalVotes (found expected : Z)
| InvalidQuorumThreshold (found expected : Z)
| InvalidValidityThreshold (found expected : Z).

Definition committee_try_from_full (c : CommitteeFull) : result CommitteeError Committee :=
  let committee := committee_new (full_validators c) (full_policy c) in
  if negb (full_total_votes c =? total_votes committee) then
    Err (InvalidTotalVotes (full_total_votes c) (total_votes committee))
  else if negb (full_quorum_threshold c =? quorum_threshold committee) then
    Err (InvalidQuorumThreshold (full_quorum_threshold c) (quorum_threshold committee))
  else if negb (full_validity_threshold c =? validity_threshold committee) then
    Err (InvalidValidityThreshold (full_validity_threshold c) (validity_threshold committee))
  else Ok committee.

Definition full_from_committee (c : Committee) : CommitteeFull :=
  {| full_validators := validators c; full_total_votes := total_votes c;
     full_quorum_threshold := quorum_threshold c;
     full_validity_threshold := validity_threshold c;
     full_policy := committee_policy c |}.

Definition committee_from_minimal (c : CommitteeMinimal) : Committee :=
  committee_new (minimal_validators c) (minimal_policy c).

Definition minimal_from_committee (c : Committee) : CommitteeMinimal :=
  {| minimal_validators := validators c; minimal_policy := committee_policy c |}.

(** *** Ownership *)

Section ownership.
Context `{Crypto}.

Definition ownership_single (public_key : PublicKey) : ChainOwnership :=
  OwnershipSingle (owner_from public_key) public_key.

(** Collecting into a [BTreeMap]: a later entry for an owner replaces an
    earlier one. *)
Definition ownership_multiple (keys_and_weights : list (PublicKey * Z))
    (multi_leader_rounds : RoundNumber) : ChainOwnership :=
  OwnershipMulti
    (foldl (fun m '(key, weight) => <[owner_from key := (key, weight)]> m) ∅ keys_and_weights)
    multi_leader_rounds.

Definition ownership_is_active (self : ChainOwnership) : bool :=
  match self with OwnershipNone => false | _ => true end.

Definition ownership_verify_owner (self : ChainOwnership) (owner : Owner)
    : option PublicKey :=
  match self with
  | OwnershipSingle owner1 public_key =>
      if bool_decide (owner1 = owner) then Some public_key else None
  | OwnershipMulti public_keys _ => fst <$> public_keys !! owner
  | OwnershipNone => None
  end.

End ownership.

(** ** Weights of sets of validators *)

(** The weight of a list of validators, without wrap-around. *)
Definition weight_of (c : Committee) (vs : list ValidatorName) : Z :=
  foldr (fun v w => weight c v + w) 0 vs.

(** The weight of all validators. *)
Definition full_weight (m : gmap ValidatorName ValidatorState) : Z :=
  foldr (fun '(_, state) w => votes state + w) 0 (map_to_list m).

(** The voting rights are unsigned and their sum stays below [2^63], so that
    doubling it does not wrap around. *)
Definition votes_bounded (m : gmap ValidatorName ValidatorState) : Prop :=
  map_Forall (fun _ state => 0 <= votes state) m /\ 2 * full_weight m <= u64_MAX.

#[export] Instance votes_bounded_dec m : Decision (votes_bounded m).
Proof. unfold votes_bounded. apply _. Defined.

(** The weight of faulty validators that is tolerated. *)
Definition max_faulty (n : Z) : Z := (n - 1) / 3.

Lemma foldl_wrapping l acc :
  Forall (fun p : ValidatorName * ValidatorState => 0 <= votes p.2) l ->
  0 <= acc -> acc + foldr (fun '(_, state) w => votes state + w) 0 l <= u64_MAX ->
  foldl (fun sum '(_, state) => wrapping_add u64_MAX sum (votes state)) acc l =
  acc + foldr (fun '(_, state) w => votes state + w) 0 l.
Proof.
  intros Hall. revert acc. induction Hall as [|[v s] l Hv Hall IH]; intros acc Hacc Hle.
  { simpl. lia. }
  assert (0 <= foldr (fun '(_, state) w => votes state + w) 0 l) as Hpos.
  { clear -Hall. induction Hall as [|[??]]; simpl in *; lia. }
  simpl in *. rewrite wrapping_add_small by lia. rewrite IH; lia.
Qed.

Lemma foldr_votes_perm (l1 l2 : list (ValidatorName * ValidatorState)) :
  l1 ≡ₚ l2 ->
  foldr (fun '(_, state) w => votes state + w) 0 l1 =
  foldr (fun '(_, state) w => votes state + w) 0 l2.
Proof. induction 1 as [|[]|[] []|]; simpl in *; lia. Qed.

Lemma committee_new_total m p :
  votes_bounded m -> total_votes (committee_new m p) = full_weight m.
Proof.
  intros [Hpos Hle]. simpl. unfold full_weight in *.
  rewrite <- (foldr_votes_perm _ _ (btree_iter_perm m)) in *.
  rewrite foldl_wrapping; [lia| |lia|].
  - apply Forall_forall. intros [v s] Hin. apply elem_of_btree_iter in Hin.
    by apply (Hpos v).
  - assert (0 <= foldr (fun '(_, state) w => votes state + w) 0 (btree_iter m)); [|lia].
    assert (Forall (fun p : ValidatorName * ValidatorState => 0 <= votes p.2) (btree_iter m)) as Hall.
    { apply Forall_forall. intros [v s] Hin. apply elem_of_btree_iter in Hin. by apply (Hpos v). }
    clear -Hall. induction Hall as [|[??]]; simpl in *; lia.
Qed.

Lemma full_weight_delete m v s :
  m !! v = Some s -> full_weight m = votes s + full_weight (delete v m).
Proof.
  intros Hv. unfold full_weight.
  by rewrite <- (foldr_votes_perm _ _ (map_to_list_delete m v s Hv)).
Qed.

Lemma full_weight_nonneg m :
  map_Forall (fun _ state => 0 <= votes state) m -> 0 <= full_weight m.
Proof.
  intros Hpos. unfold full_weight.
  assert (Forall (fun p : ValidatorName * ValidatorState => 0 <= votes p.2) (map_to_list m)) as Hall.
  { apply Forall_forall. intros [v s] Hin%elem_of_map_to_list. by apply (Hpos v). }
  induction Hall as [|[??]]; simpl in *; lia.
Qed.

Lemma weight_of_cons c v vs : weight_of c (v :: vs) = weight c v + weight_of c vs.
Proof. done. Qed.

Lemma weight_of_app c vs1 vs2 : weight_of c (vs1 ++ vs2) = weight_of c vs1 + weight_of c vs2.
Proof. unfold weight_of. induction vs1; simpl; lia. Qed.

Lemma weight_of_filter c (P : ValidatorName -> Prop) `{forall v, Decision (P v)} vs :
  weight_of c vs = weight_of c (filter P vs) + weight_of c (filter (fun v => ~ P v) vs).
Proof.
  induction vs as [|v vs IH]; [done|]. rewrite !filter_cons.
  destruct (decide (P v)); destruct (decide (~ P v)); try done; simpl; lia.
Qed.

Lemma weight_of_perm c vs1 vs2 : vs1 ≡ₚ vs2 -> weight_of c vs1 = weight_of c vs2.
Proof. unfold weight_of. induction 1; simpl in *; lia. Qed.

Lemma weight_nonneg c v :
  map_Forall (fun _ state => 0 <= votes state) (validators c) -> 0 <= weight c v.
Proof.
  intros Hpos. unfold weight. destruct (validators c !! v) eqn:Hv; [|lia]. by apply (Hpos v).
Qed.

Lemma weight_of_nonneg c vs :
  map_Forall (fun _ state => 0 <= votes state) (validators c) -> 0 <= weight_of c vs.
Proof.
  intros Hpos. unfold weight_of. induction vs as [|v vs IH]; simpl; [lia|].
  pose proof (weight_nonneg c v Hpos). lia.
Qed.

(** Distinct validators weigh at most as much as all of them. *)
Lemma weight_of_le_full c vs :
  map_Forall (fun _ state => 0 <= votes state) (validators c) ->
  NoDup vs -> weight_of c vs <= full_weight (validators c).
Proof.
  intros Hpos Hnd. enough (forall m,
    map_Forall (fun _ state => 0 <= votes state) m ->
    (forall v, v ∈ vs -> m !! v = validators c !! v) ->
    weight_of c vs <= full_weight m) by auto.
  unfold weight_of. induction Hnd as [|v vs Hv Hnd IH]; intros m Hm Hagree; simpl.
  { by apply full_weight_nonneg. }
  pose proof (Hagree v ltac:(left)) as Hmv. unfold weight at 1.
  destruct (validators c !! v) as [s|] eqn:Hs.
  - rewrite (full_weight_delete m v s Hmv).
    assert (foldr (fun v w => weight c v + w) 0 vs <= full_weight (delete v m)); [|lia].
    apply IH; [by apply map_Forall_delete|]. intros v' Hv'.
    rewrite lookup_delete_ne by (intros ->; done). apply Hagree. by right.
  - assert (foldr (fun v w => weight c v + w) 0 vs <= full_weight m); [|lia].
    apply IH; [done|]. intros v' Hv'. apply Hagree. by right.
Qed.

(** The validators of one list that are in another one weigh at least the sum
    of the two weights minus the total. *)
Lemma weight_of_common c vs1 vs2 :
  map_Forall (fun _ state => 0 <= votes state) (validators c) ->
  NoDup vs1 -> NoDup vs2 ->
  weight_of c vs1 + weight_of c vs2 - full_weight (validators c) <=
  weight_of c (filter (.∈ vs1) vs2).
Proof.
  intros Hpos Hnd1 Hnd2. rewrite (weight_of_filter c (.∈ vs1) vs2).
  assert (weight_of c (vs1 ++ filter (fun v => ~ v ∈ vs1) vs2) <= full_weight (validators c)).
  { apply weight_of_le_full; [done|]. apply NoDup_app. split_and!; [done| |by apply NoDup_filter].
    intros v Hv [Hn _]%list_elem_of_filter. done. }
  rewrite weight_of_app in *. lia.
Qed.

Lemma quorum_arith n :
  0 < n -> 2 * n / 3 + 1 = n - max_faulty n /\ (n + 2) / 3 = max_faulty n + 1.
Proof.
  unfold max_faulty. intros Hn.
  pose proof (Z.div_mod (2 * n) 3 ltac:(lia)). pose proof (Z.mod_pos_bound (2 * n) 3 ltac:(lia)).
  pose proof (Z.div_mod (n + 2) 3 ltac:(lia)). pose proof (Z.mod_pos_bound (n + 2) 3 ltac:(lia)).
  pose proof (Z.div_mod (n - 1) 3 ltac:(lia)). pose proof (Z.mod_pos_bound (n - 1) 3 ltac:(lia)).
  lia.
Qed.

Lemma committee_new_thresholds m p :
  votes_bounded m -> 0 < full_weight m ->
  quorum_threshold (committee_new m p) = full_weight m - max_faulty (full_weight m) /\
  validity_threshold (committee_new m p) = max_faulty (full_weight m) + 1.
Proof.
  intros Hb Hpos. pose proof (committee_new_total m p Hb) as Ht. destruct Hb as [_ Hle].
  destruct (quorum_arith (full_weight m) Hpos) as [Hq Hv].
  unfold committee_new in *. simpl in *. rewrite Ht.
  unfold u64_MAX in *. rewrite wrapping_mul_small by (unfold u64_MAX; lia).
  rewrite !wrapping_add_small; [lia|lia|].
  pose proof (Z.div_le_upper_bound (2 * full_weight m) 3 (2 ^ 64 - 2)).
  pose proof (Z.div_pos (2 * full_weight m) 3). lia.
Qed.

(** ** Theorems *)

(** The thresholds of a committee are those of its documentation.  With
    [N] the total of the votes (below [2^63]) and [f] the largest weight with
    [3 f < N], a quorum is [N - f] votes and the validity threshold [f + 1]. *)
Theorem committee_thresholds m p :
  votes_bounded m -> 0 < full_weight m ->
  let n := full_weight m in
  let f := max_faulty n in
  let c := committee_new m p in
  total_votes c = n /\ 3 * f < n <= 3 * f + 3 /\
  quorum_threshold c = n - f /\ validity_threshold c = f + 1.
Proof.
  intros Hb Hpos n f c. destruct (committee_new_thresholds m p Hb Hpos) as [Hq Hv].
  split_and!; [by apply committee_new_total| | |done|done]; unfold f, max_faulty, n;
    pose proof (Z.div_mod (full_weight m - 1) 3 ltac:(lia));
    pose proof (Z.mod_pos_bound (full_weight m - 1) 3 ltac:(lia)); lia.
Qed.

Lemma quorums_common_weight m p vs1 vs2 :
  votes_bounded m -> 0 < full_weight m ->
  let c := committee_new m p in
  NoDup vs1 -> NoDup vs2 ->
  quorum_threshold c <= weight_of c vs1 -> quorum_threshold c <= weight_of c vs2 ->
  validity_threshold c <= weight_of c (filter (.∈ vs1) vs2).
Proof.
  intros Hb Hpos c Hnd1 Hnd2 Hq1 Hq2.
  destruct (committee_new_thresholds m p Hb Hpos) as [Hq Hv]. fold c in Hq, Hv.
  destruct Hb as [Hnn _].
  pose proof (weight_of_common c vs1 vs2 Hnn Hnd1 Hnd2). simpl in H.
  unfold max_faulty in *. pose proof (Z.div_mod (full_weight m - 1) 3 ltac:(lia)).
  pose proof (Z.mod_pos_bound (full_weight m - 1) 3 ltac:(lia)). lia.
Qed.

(** Quorum intersection.  The validators common to two quorums have at
    least the weight of the validity threshold, so not all of them are faulty
    when the faulty ones weigh at most [f]. *)
Theorem quorum_intersection m p vs1 vs2 :
  votes_bounded m -> 0 < full_weight m ->
  NoDup vs1 -> NoDup vs2 ->
  quorum_threshold (committee_new m p) <= weight_of (committee_new m p) vs1 ->
  quorum_threshold (committee_new m p) <= weight_of (committee_new m p) vs2 ->
  validity_threshold (committee_new m p) <=
  weight_of (committee_new m p) (filter (.∈ vs1) vs2).
Proof. apply quorums_common_weight. Qed.

(** Two quorums share a validator outside any set that weighs less than the
    validity threshold. *)
Lemma quorums_share m p vs1 vs2 faulty :
  votes_bounded m -> 0 < full_weight m ->
  let c := committee_new m p in
  NoDup vs1 -> NoDup vs2 ->
  quorum_threshold c <= weight_of c vs1 -> quorum_threshold c <= weight_of c vs2 ->
  NoDup faulty -> weight_of c faulty < validity_threshold c ->
  exists v, v ∈ vs1 /\ v ∈ vs2 /\ v ∉ faulty.
Proof.
  intros Hb Hpos c Hnd1 Hnd2 Hq1 Hq2 Hndf Hf.
  pose proof (quorums_common_weight m p vs1 vs2 Hb Hpos Hnd1 Hnd2 Hq1 Hq2) as Hw. fold c in Hw.
  set (common := filter (.∈ vs1) vs2) in *.
  destruct (filter (fun v => ~ v ∈ faulty) common) as [|v l] eqn:Hfil.
  2:{ assert (v ∈ filter (fun v => ~ v ∈ faulty) common) as Hv by (rewrite Hfil; left).
      apply list_elem_of_filter in Hv as [Hnf [??]%list_elem_of_filter]. by exists v. }
  exfalso. rewrite (weight_of_filter c (.∈ faulty) common), Hfil in Hw.
  assert (NoDup common) as Hndc by by apply NoDup_filter.
  destruct Hb as [Hnn _].
  assert (weight_of c (filter (.∈ faulty) common) <= weight_of c faulty); [|change (weight_of c []) with 0 in Hw; lia].
  rewrite (weight_of_filter c (.∈ common) faulty).
  rewrite (weight_of_perm c (filter (.∈ faulty) common) (filter (.∈ common) faulty)).
  { pose proof (weight_of_nonneg c (filter (fun v => ~ v ∈ common) faulty) Hnn). lia. }
  apply NoDup_Permutation; [by apply NoDup_filter..|].
  intros v. rewrite !list_elem_of_filter. tauto.
Qed.

(** A committee built by [Committee::new] survives both serialized forms,
    and the human-readable form is accepted only if its totals and thresholds
    are the ones recomputed from its validators. *)
Theorem committee_serialization m p full c :
  committee_try_from_full (full_from_committee (committee_new m p)) = Ok (committee_new m p) /\
  committee_from_minimal (minimal_from_committee (committee_new m p)) = committee_new m p /\
  (committee_try_from_full full = Ok c <->
   c = committee_new (full_validators full) (full_policy full) /\
   full = full_from_committee c).
Proof.
  split_and!; [|done|].
  - unfold committee_try_from_full. simpl. by rewrite !Z.eqb_refl.
  - destruct full as [v t q w p']. simpl. split.
    + unfold committee_try_from_full. cbn [full_validators full_policy full_total_votes
        full_quorum_threshold full_validity_threshold].
      destruct (Z.eqb_spec t (total_votes (committee_new v p'))) as [->|]; [|done].
      destruct (Z.eqb_spec q (quorum_threshold (committee_new v p'))) as [->|]; [|done].
      destruct (Z.eqb_spec w (validity_threshold (committee_new v p'))) as [->|]; [|done].
      by intros [= <-].
    + intros [-> ->]. unfold committee_try_from_full. simpl. by rewrite !Z.eqb_refl.
Qed.

(** The quorum threshold is computed with a 64-bit product that wraps
    around: there is a committee whose votes add up to [2^63] without overflow,
    in which a validator with a single vote is a quorum on its own. *)
Theorem quorum_threshold_overflow :
  exists m p v,
    map_Forall (fun _ state => in_range u64_MAX (votes state)) m /\
    full_weight m = 2 ^ 63 /\
    total_votes (committee_new m p) = full_weight m /\
    weight (committee_new m p) v = 1 /\
    quorum_threshold (committee_new m p) <= weight (committee_new m p) v.
Proof.
  exists (<[1 := {| network_address := []; votes := 1 |}]>
    (<[2 := {| network_address := []; votes := 2 ^ 63 - 1 |}]> ∅)).
  exists {| policy_certificate := 0; policy_fuel := 0; policy_storage_num_reads := 0;
    policy_storage_bytes_read := 0; policy_storage_bytes_written := 0;
    policy_maximum_bytes_read_per_block := 0; policy_maximum_bytes_written_per_block := 0;
    policy_messages := 0 |}, 1.
  split_and!; [|vm_compute; reflexivity..|vm_compute; discriminate].
  apply map_Forall_insert_2; [by vm_compute|]. apply map_Forall_insert_2; [by vm_compute|].
  apply map_Forall_empty.
Qed.

Section ownership_lemmas.
Context `{Crypto}.

(** The owners of a multi-owner chain are indexed by the hash of their keys. *)
Lemma ownership_multiple_keys ks r keys r' o key w :
  ownership_multiple ks r = OwnershipMulti keys r' ->
  keys !! o = Some (key, w) -> o = owner_from key /\ (key, w) ∈ ks.
Proof.
  unfold ownership_multiple. intros [= <- <-]. revert o key w.
  induction ks as [|[k wt] ks IH] using rev_ind; intros o key w; [done|].
  rewrite foldl_app. simpl. rewrite elem_of_app. rewrite lookup_insert_Some.
  intros [[<- [= <- <-]]|[_ Hl]].
  - split; [done|]. right. by left.
  - destruct (IH _ _ _ Hl). auto.
Qed.

(** A chain accepts a proposal from an owner only with the public key that
    hashes to that owner, whether it has one owner or several. *)
Theorem verify_owner_key ks r o key single :
  (ownership_verify_owner (ownership_single single) o = Some key ->
   o = owner_from key /\ key = single) /\
  (ownership_verify_owner (ownership_multiple ks r) o = Some key ->
   o = owner_from key /\ key ∈ ks.*1).
Proof.
  split; simpl.
  - case_bool_decide; [|done]. by intros [= <-].
  - intros [[k w] [Hl ->]]%fmap_Some.
    destruct (ownership_multiple_keys ks r _ _ _ _ _ eq_refl Hl) as [-> Hin].
    split; [done|]. by apply (list_elem_of_fmap_2 fst) in Hin.
Qed.

End ownership_lemmas.

(** ** Examples *)

Module CommitteeExamples.

Definition validator : ValidatorState := {| network_address := []; votes := 1 |}.
Definition four : gmap ValidatorName ValidatorState :=
  <[1 := validator]> (<[2 := validator]> (<[3 := validator]> (<[4 := validator]> ∅))).
Definition free : ResourceControlPolicy :=
  {| policy_certificate := 0; policy_fuel := 0; policy_storage_num_reads := 0;
     policy_storage_bytes_read := 0; policy_storage_bytes_written := 0;
     policy_maximum_bytes_read_per_block := u64_MAX / 2;
     policy_maximum_bytes_written_per_block := u64_MAX / 2; policy_messages := 0 |}.

Lemma four_bounded : votes_bounded four.
Proof. decide_now. Qed.

Lemma committee_thresholds_witness :
  quorum_threshold (committee_new four free) = 3 /\
  validity_threshold (committee_new four free) = 2.
Proof.
  destruct (committee_thresholds four free four_bounded) as (_ & _ & Hq & Hv);
    [vm_compute; reflexivity|].
  rewrite Hq, Hv. vm_compute. auto.
Defined.

Lemma quorum_intersection_witness :
  validity_threshold (committee_new four free) <=
  weight_of (committee_new four free) (filter (.∈ [1; 2; 3]) [2; 3; 4]).
Proof.
  apply (quorum_intersection four free [1; 2; 3] [2; 3; 4]);
    [apply four_bounded|by vm_compute| | |by vm_compute|by vm_compute];
    decide_now.
Defined.

End CommitteeExamples.
