(* ===== verification/Policy.v ===== *)
(** * Prices and resource tracking

    [linera-execution/src/policy.rs] and the resource tracker of
    [linera-execution/src/lib.rs].  The size of the serialization of a value is
    given by an external crate; the functions that need it take what
    [bcs::serialized_size] returned as an argument. *)

From S2P Require Import Prelude Numbers Types.

(** ** The code *)

Inductive PricingError :=
| PricingArithmeticError (e : ArithmeticError)
| PricingSerializationError.

(** [bcs::Error]. *)
Inductive BcsError := BcsErr.

Definition policy_default : ResourceControlPolicy :=
  {| policy_certificate := 0;
     policy_fuel := 0;
     policy_storage_num_reads := 0;
     policy_storage_bytes_read := 0;
     policy_storage_bytes_written := 0;
     policy_maximum_bytes_read_per_block := u64_MAX / 2;
     policy_maximum_bytes_written_per_block := u64_MAX / 2;
     policy_messages := 0 |}.

Section policy.
Context (self : ResourceControlPolicy).

Definition certificate_price : Amount := policy_certificate self.

Definition messages_price (serialized_size : result BcsError Z) : result PricingError Amount :=
  size ← map_err (fun _ => PricingSerializationError) serialized_size;
  size ← ok_or (try_from u128_MAX size) (PricingArithmeticError Overflow);
  map_err PricingArithmeticError (try_mul u128_MAX (policy_messages self) size).

Definition storage_num_reads_price (count : Z) : result PricingError Amount :=
  map_err PricingArithmeticError (try_mul u128_MAX (policy_storage_num_reads self) count).

Definition storage_bytes_read_price (count : Z) : result PricingError Amount :=
  map_err PricingArithmeticError (try_mul u128_MAX (policy_storage_bytes_read self) count).

Definition storage_bytes_written_price (count : Z) : result PricingError Amount :=
  map_err PricingArithmeticError (try_mul u128_MAX (policy_storage_bytes_written self) count).

Definition storage_bytes_written_price_raw (serialized_size : result BcsError Z)
    : result PricingError Amount :=
  size ← map_err (fun _ => PricingSerializationError) serialized_size;
  size ← ok_or (try_from u128_MAX size) (PricingArithmeticError Overflow);
  map_err PricingArithmeticError (try_mul u128_MAX (policy_storage_bytes_written self) size).

Definition fuel_price (fuel : Z) : result PricingError Amount :=
  map_err PricingArithmeticError (try_mul u128_MAX (policy_fuel self) fuel).

Definition remaining_fuel (balance : Amount) : Z :=
  default u64_MAX (try_from u64_MAX (saturating_div balance (policy_fuel self))).

End policy.

Record RuntimeLimits := {
  lim_max_budget_num_reads : Z;
  lim_max_budget_bytes_read : Z;
  lim_max_budget_bytes_written : Z;
  lim_maximum_bytes_left_to_read : Z;
  lim_maximum_bytes_left_to_write : Z;
}.

Record ResourceTracker := {
  used_fuel : Z;
  num_reads : Z;
  bytes_read : Z;
  bytes_written : Z;
  maximum_bytes_left_to_read : Z;
  maximum_bytes_left_to_write : Z;
}.

Record RuntimeCounts := {
  count_remaining_fuel : Z;
  count_num_reads : Z;
  count_bytes_read : Z;
  count_bytes_written : Z;
}.

(** [sub_assign_fees]: the new balance. *)
Definition sub_assign_fees (balance fees : Amount) : result PricingError Amount :=
  map_err (fun _ => PricingArithmeticError Underflow) (try_sub_assign balance fees).

(** [ResourceTracker::update_limits]: the new balance and the new tracker.  The
    counters are 64-bit integers updated with plain [+=] and [-=]. *)
Definition update_limits (balance : Amount) (policy : ResourceControlPolicy)
    (counts : RuntimeCounts) (self : ResourceTracker)
    : result PricingError (Amount * ResourceTracker) :=
  let initial_fuel := remaining_fuel policy balance in
  let used := saturating_sub initial_fuel (count_remaining_fuel counts) in
  fees ← fuel_price policy used;
  balance ← sub_assign_fees balance fees;
  fees ← storage_num_reads_price policy (count_num_reads counts);
  balance ← sub_assign_fees balance fees;
  fees ← storage_bytes_read_price policy (count_bytes_read counts);
  balance ← sub_assign_fees balance fees;
  fees ← storage_bytes_written_price policy (count_bytes_written counts);
  balance ← sub_assign_fees balance fees;
  Ok (balance,
      {| used_fuel := wrapping_add u64_MAX (used_fuel self) used;
         num_reads := wrapping_add u64_MAX (num_reads self) (count_num_reads counts);
         bytes_read := wrapping_add u64_MAX (bytes_read self) (count_bytes_read counts);
         bytes_written := wrapping_add u64_MAX (bytes_written self) (count_bytes_written counts);
         maximum_bytes_left_to_read :=
           wrapping_sub u64_MAX (maximum_bytes_left_to_read self) (count_bytes_read counts);
         maximum_bytes_left_to_write :=
           wrapping_sub u64_MAX (maximum_bytes_left_to_write self) (count_bytes_written counts) |}).

(** [ResourceTracker::limits]. *)
Definition limits (policy : ResourceControlPolicy) (balance : Amount) (self : ResourceTracker)
    : RuntimeLimits :=
  let budget price := default u64_MAX (try_from u64_MAX (saturating_div balance price)) in
  {| lim_max_budget_num_reads := budget (policy_storage_num_reads policy);
     lim_max_budget_bytes_read := budget (policy_storage_bytes_read policy);
     lim_max_budget_bytes_written := budget (policy_storage_bytes_read policy);
     lim_maximum_bytes_left_to_read := maximum_bytes_left_to_read self;
     lim_maximum_bytes_left_to_write := maximum_bytes_left_to_write self |}.

(** ** Theorems *)

(** The prices are not negative and fit their types. *)
Definition policy_wf (p : ResourceControlPolicy) : Prop :=
  in_range u128_MAX (policy_certificate p) /\ in_range u128_MAX (policy_fuel p) /\
  in_range u128_MAX (policy_storage_num_reads p) /\
  in_range u128_MAX (policy_storage_bytes_read p) /\
  in_range u128_MAX (policy_storage_bytes_written p) /\
  in_range u128_MAX (policy_messages p).

#[export] Instance policy_wf_dec p : Decision (policy_wf p).
Proof. unfold policy_wf. apply _. Defined.

(** [update_limits] charges exactly the four prices of the resources used:
    the new balance is the old one minus their sum, which it covers, and every
    counter moves by what was used. *)
Theorem update_limits_charge balance policy counts t balance' t' :
  update_limits balance policy counts t = Ok (balance', t') ->
  let used := saturating_sub (remaining_fuel policy balance) (count_remaining_fuel counts) in
  balance' = balance
    - policy_fuel policy * used
    - policy_storage_num_reads policy * count_num_reads counts
    - policy_storage_bytes_read policy * count_bytes_read counts
    - policy_storage_bytes_written policy * count_bytes_written counts /\
  used_fuel t' = wrapping_add u64_MAX (used_fuel t) used /\
  num_reads t' = wrapping_add u64_MAX (num_reads t) (count_num_reads counts) /\
  maximum_bytes_left_to_read t' =
    wrapping_sub u64_MAX (maximum_bytes_left_to_read t) (count_bytes_read counts) /\
  maximum_bytes_left_to_write t' =
    wrapping_sub u64_MAX (maximum_bytes_left_to_write t) (count_bytes_written counts).
Proof.
  intros H used. unfold update_limits, fuel_price, storage_num_reads_price,
    storage_bytes_read_price, storage_bytes_written_price, sub_assign_fees in H. inv_result.
  repeat match goal with
  | H : try_mul _ _ _ = Ok _ |- _ => apply try_mul_Ok in H as [-> _]
  | H : try_sub_assign _ _ = Ok _ |- _ => apply try_sub_assign_Ok in H as [-> _]
  end.
  simplify_eq. simpl. split_and!; done.
Qed.

(** Fees are not negative. *)
Lemma update_limits_le balance policy counts t balance' t' :
  policy_wf policy -> 0 <= count_num_reads counts -> 0 <= count_bytes_read counts ->
  0 <= count_bytes_written counts ->
  update_limits balance policy counts t = Ok (balance', t') ->
  balance' <= balance /\ (0 <= balance -> 0 <= balance').
Proof.
  intros Hp H1 H2 H3 H. unfold update_limits, fuel_price, storage_num_reads_price,
    storage_bytes_read_price, storage_bytes_written_price, sub_assign_fees in H. inv_result.
  repeat match goal with
  | H : try_mul _ _ _ = Ok _ |- _ => apply try_mul_Ok in H as [-> _]
  | H : try_sub_assign _ _ = Ok _ |- _ => apply try_sub_assign_Ok in H as [-> ?]
  end.
  simplify_eq. unfold policy_wf, in_range, saturating_sub in *. nia.
Qed.

Lemma budget_le balance price :
  0 < price -> 0 <= balance ->
  default u64_MAX (try_from u64_MAX (saturating_div balance price)) * price <= balance.
Proof.
  intros Hp Hb. unfold saturating_div, checked_div.
  destruct (Z.eqb_spec price 0); [lia|]. simpl.
  assert (balance / price * price <= balance).
  { rewrite Z.mul_comm. by apply Z.mul_div_le. }
  unfold try_from. destruct (Z.leb_spec (balance / price) u64_MAX); simpl; [done|].
  unfold id. nia.
Qed.


(** The budget for bytes written is computed from the price of bytes read.
    There is a policy and a balance for which the limit returned for writes
    costs more than the balance, although the limit for reads does not. *)
Theorem limits_write_budget_wrong :
  exists policy balance tracker,
    policy_wf policy /\ in_range u128_MAX balance /\ 0 < policy_storage_bytes_written policy /\
    policy_storage_bytes_read policy * lim_max_budget_bytes_read (limits policy balance tracker)
      <= balance /\
    balance < policy_storage_bytes_written policy *
      lim_max_budget_bytes_written (limits policy balance tracker).
Proof.
  exists {| policy_certificate := 0; policy_fuel := 0; policy_storage_num_reads := 0;
    policy_storage_bytes_read := 1; policy_storage_bytes_written := 10;
    policy_maximum_bytes_read_per_block := u64_MAX;
    policy_maximum_bytes_written_per_block := u64_MAX; policy_messages := 0 |}.
  exists 100, {| used_fuel := 0; num_reads := 0; bytes_read := 0; bytes_written := 0;
    maximum_bytes_left_to_read := u64_MAX; maximum_bytes_left_to_write := u64_MAX |}.
  decide_now.
Qed.

(** ** Examples *)

Module PolicyExamples.

Definition policy : ResourceControlPolicy :=
  {| policy_certificate := 1; policy_fuel := 3; policy_storage_num_reads := 2;
     policy_storage_bytes_read := 1; policy_storage_bytes_written := 5;
     policy_maximum_bytes_read_per_block := u64_MAX;
     policy_maximum_bytes_written_per_block := u64_MAX; policy_messages := 1 |}.
Definition tracker : ResourceTracker :=
  {| used_fuel := 0; num_reads := 0; bytes_read := 0; bytes_written := 0;
     maximum_bytes_left_to_read := 100; maximum_bytes_left_to_write := 100 |}.
Definition counts : RuntimeCounts :=
  {| count_remaining_fuel := 23; count_num_reads := 4; count_bytes_read := 6;
     count_bytes_written := 2 |}.

(** A balance of 100 pays for 33 units of fuel, 10 of which are used. *)
Lemma update_limits_charge_witness :
  46 = 100 - 3 * 10 - 2 * 4 - 1 * 6 - 5 * 2 /\
  exists t', update_limits 100 policy counts tracker = Ok (46, t') /\
    used_fuel t' = wrapping_add u64_MAX 0 10.
Proof.
  split; [reflexivity|]. eexists. split; [vm_compute; reflexivity|].
  eapply (update_limits_charge 100 policy counts tracker 46). vm_compute. reflexivity.
Defined.


End PolicyExamples.
