(* ===== verification/Bcs.v ===== *)
(** * Serialization

    The values whose BCS serialization matters to the protocol: views iterate
    over sets and maps in the order of the serialized keys, channel names are
    serialized enumerations, and fees depend on serialized sizes.  The [bcs]
    crate is external: the class [Bcs] holds the functions used, [BcsLaws] says
    that serialization is injective and that sizes are not negative. *)

From S2P Require Import Prelude Numbers Types Crypto Policy.

Class Bcs := {
  bcs_system_channel : SystemChannel -> bytes;
  bcs_subscription : ChannelSubscription -> bytes;
  bcs_bytecode_id : BytecodeId -> bytes;
  bcs_chain_id : ChainId -> bytes;
  bcs_target : Target -> bytes;
  bcs_origin : Origin -> bytes;
  bcs_size_incoming : list IncomingMessage -> result BcsError Z;
  bcs_size_operations : list Operation -> result BcsError Z;
}.

Class BcsLaws (B : Bcs) := {
  bcs_system_channel_inj c1 c2 : bcs_system_channel c1 = bcs_system_channel c2 -> c1 = c2;
  bcs_size_incoming_nonneg l n : bcs_size_incoming l = Ok n -> 0 <= n;
  bcs_size_operations_nonneg l n : bcs_size_operations l = Ok n -> 0 <= n;
}.

(** An instance in which a serialized key is one large digit. *)
Module SymbolicBcs.
Import SymbolicCrypto.

#[export] Instance symbolic_bcs : Bcs := {
  bcs_system_channel c := [match c with AdminChannel => 0 | PublishedBytecodes => 1 end];
  bcs_subscription s := [to_Z (enc_subscription s)];
  bcs_bytecode_id b := [to_Z (enc_bytecode b)];
  bcs_chain_id c := [c];
  bcs_target t := [to_Z (GenNode 0 [GenLeaf (recipient t); enc_medium (target_medium t)])];
  bcs_origin o := [to_Z (enc_origin o)];
  bcs_size_incoming l := Ok (Z.of_nat (length l));
  bcs_size_operations l := Ok (Z.of_nat (length l));
}.

#[export] Instance symbolic_bcs_laws : BcsLaws symbolic_bcs.
Proof. split; [by intros [] []|intros l n [= <-]; lia..]. Qed.

End SymbolicBcs.
