(* ===== verification/Inbox.v ===== *)
(** * Inboxes

    [linera-chain/src/inbox.rs]: the queue of events received from one origin.
    Events can be consumed before they are received; the inbox reconciles the
    two streams.  The reference semantics [reconcile] is a function of the
    stream of added events and of the stream of removed events alone, and the
    theorems show that the operations implement it, so the order in which a
    validator receives and executes messages does not matter.

    An operation that fails returns the error only: the callers discard the
    chain state they were working on when a step fails. *)

From S2P Require Import Prelude Numbers Types.

(** ** The code *)

Record Cursor := { cursor_height : BlockHeight; cursor_index : Z }.

#[export] Instance Cursor_eq_dec : EqDecision Cursor.
Proof. solve_decision. Defined.

(** The order derived for [Cursor]: lexicographic. *)
Definition cursor_lt (c1 c2 : Cursor) : bool :=
  (cursor_height c1 <? cursor_height c2) ||
  ((cursor_height c1 =? cursor_height c2) && (cursor_index c1 <? cursor_index c2)).
Definition cursor_ge (c1 c2 : Cursor) : bool := negb (cursor_lt c1 c2).

Definition cursor_default : Cursor := {| cursor_height := 0; cursor_index := 0 |}.

Record InboxState := {
  next_cursor_to_add : Cursor;
  next_cursor_to_remove : Cursor;
  added_events : list Event;
  removed_events : list Event;
}.

Inductive InboxError :=
| InboxArithmeticError (e : ArithmeticError)
| UnexpectedEvent (event previous_event : Event)
| IncorrectOrder (event : Event) (next_cursor : Cursor)
| UnskippableEvent (event : Event).

Definition cursor_from (event : Event) : Cursor :=
  {| cursor_height := ev_height event; cursor_index := ev_index event |}.

Definition cursor_try_add_one (self : Cursor) : result InboxError Cursor :=
  index ← ok_or (checked_add u32_MAX (cursor_index self) 1) (InboxArithmeticError Overflow);
  Ok {| cursor_height := cursor_height self; cursor_index := index |}.

Definition next_block_height_to_receive (self : InboxState)
    : result ArithmeticError BlockHeight :=
  let cursor := next_cursor_to_add self in
  if cursor_index cursor =? 0 then Ok (cursor_height cursor)
  else try_add_one u64_MAX (cursor_height cursor).

(** The loop of [remove_event]: discard the added events below [cursor]. *)
Fixpoint discard_lower (cursor : Cursor) (added : list Event)
    : result InboxError (list Event) :=
  match added with
  | [] => Ok []
  | previous_event :: rest =>
      if cursor_ge (cursor_from previous_event) cursor then Ok added
      else ensure (ev_is_skippable previous_event) (UnskippableEvent previous_event) ;;
           discard_lower cursor rest
  end.

Definition remove_event (event : Event) (self : InboxState) : result InboxError InboxState :=
  let cursor := cursor_from event in
  ensure (cursor_ge cursor (next_cursor_to_remove self))
    (IncorrectOrder event (next_cursor_to_remove self)) ;;
  added ← discard_lower cursor (added_events self);
  '(added, removed) ←
    match added with
    | previous_event :: rest =>
        ensure (bool_decide (event = previous_event))
          (UnexpectedEvent event previous_event) ;;
        Ok (rest, removed_events self)
    | [] => Ok ([], removed_events self ++ [event])
    end;
  next ← cursor_try_add_one cursor;
  Ok {| next_cursor_to_add := next_cursor_to_add self;
        next_cursor_to_remove := next;
        added_events := added;
        removed_events := removed |}.

Definition add_event (event : Event) (self : InboxState) : result InboxError InboxState :=
  let cursor := cursor_from event in
  ensure (cursor_ge cursor (next_cursor_to_add self))
    (IncorrectOrder event (next_cursor_to_add self)) ;;
  '(added, removed) ←
    match removed_events self with
    | previous_event :: rest =>
        if bool_decide (cursor_from previous_event = cursor) then
          ensure (bool_decide (event = previous_event))
            (UnexpectedEvent event previous_event) ;;
          Ok (added_events self, rest)
        else
          ensure (cursor_lt cursor (cursor_from previous_event) && ev_is_skippable event)
            (UnexpectedEvent event previous_event) ;;
          Ok (added_events self, removed_events self)
    | [] => Ok (added_events self ++ [event], [])
    end;
  next ← cursor_try_add_one cursor;
  Ok {| next_cursor_to_add := next;
        next_cursor_to_remove := next_cursor_to_remove self;
        added_events := added;
        removed_events := removed |}.

(** The state of a new inbox. *)
Definition inbox_default : InboxState :=
  {| next_cursor_to_add := cursor_default; next_cursor_to_remove := cursor_default;
     added_events := []; removed_events := [] |}.

(** ** Histories *)

Inductive InboxOp :=
| AddEvent (event : Event)
| RemoveEvent (event : Event).

Definition inbox_step (op : InboxOp) (s : InboxState) : result InboxError InboxState :=
  match op with
  | AddEvent event => add_event event s
  | RemoveEvent event => remove_event event s
  end.

Fixpoint inbox_run (ops : list InboxOp) (s : InboxState) : result InboxError InboxState :=
  match ops with
  | [] => Ok s
  | op :: ops => s' ← inbox_step op s; inbox_run ops s'
  end.

Definition added_of (ops : list InboxOp) : list Event :=
  omap (fun op => match op with AddEvent e => Some e | RemoveEvent _ => None end) ops.
Definition removed_of (ops : list InboxOp) : list Event :=
  omap (fun op => match op with RemoveEvent e => Some e | AddEvent _ => None end) ops.

(** ** Reference semantics *)

(** Match the added events against the removed ones, in order.  What is left
    is the added events still to be removed and the removed events still to be
    added; [None] means that the two streams cannot be reconciled. *)
Fixpoint reconcile (added removed : list Event) : option (list Event * list Event) :=
  match added with
  | [] => Some ([], removed)
  | a :: added' =>
      match removed with
      | [] => Some (added, [])
      | r :: removed' =>
          if bool_decide (a = r) then reconcile added' removed'
          else if cursor_lt (cursor_from a) (cursor_from r) && ev_is_skippable a
          then reconcile added' removed
          else None
      end
  end.

(** The cursor following the events of a stream, if they are in order. *)
Definition advance (c : option Cursor) (e : Event) : option Cursor :=
  c ← c;
  if cursor_ge (cursor_from e) c then to_option (cursor_try_add_one (cursor_from e)) else None.
Definition next_cursor (es : list Event) : option Cursor :=
  foldl advance (Some cursor_default) es.

(** The inbox after the events [added] were added and [removed] removed. *)
Definition inbox_spec (added removed : list Event) : option InboxState :=
  a ← next_cursor added; r ← next_cursor removed;
  '(qa, qr) ← reconcile added removed;
  Some {| next_cursor_to_add := a; next_cursor_to_remove := r;
          added_events := qa; removed_events := qr |}.

(** ** The operations implement the reference semantics *)

Section reconcile_lemmas.

Lemma reconcile_nil_r added : reconcile added [] = Some (added, []).
Proof. by destruct added. Qed.

(** At least one of the two queues is empty. *)
Lemma reconcile_one_empty added removed qa qr :
  reconcile added removed = Some (qa, qr) -> qa = [] \/ qr = [].
Proof.
  revert removed. induction added as [|a added IH]; intros [|r removed]; simpl;
    try naive_solver.
  case_bool_decide; [apply IH|]. case_match; [apply IH|done].
Qed.

(** Reconciliation is incremental in both streams. *)
Lemma reconcile_app added removed qa qr added' removed' :
  reconcile added removed = Some (qa, qr) ->
  reconcile (added ++ added') (removed ++ removed') = reconcile (qa ++ added') (qr ++ removed').
Proof.
  revert removed. induction added as [|a added IH]; intros removed.
  - by intros [= <- <-].
  - destruct removed as [|r removed]; simpl; [by intros [= <- <-]|].
    case_bool_decide; [apply IH|]. case_match; [|done].
    intros Hr. rewrite <- (IH (r :: removed)) by done. done.
Qed.

Lemma reconcile_prefix_None added removed added' removed' :
  reconcile added removed = None -> reconcile (added ++ added') (removed ++ removed') = None.
Proof.
  revert removed. induction added as [|a added IH]; intros [|r removed]; simpl; try done.
  case_bool_decide; [apply IH|]. case_match; [|done]. apply (IH (r :: removed)).
Qed.

End reconcile_lemmas.

Lemma next_cursor_snoc es e : next_cursor (es ++ [e]) = advance (next_cursor es) e.
Proof. unfold next_cursor. by rewrite foldl_app. Qed.

Lemma cursor_lt_irrefl c : cursor_lt c c = false.
Proof. unfold cursor_lt. rewrite Z.ltb_irrefl, Z.eqb_refl, Z.ltb_irrefl. done. Qed.

(** The discarding loop followed by the match of the front is one
    reconciliation against a single removed event. *)
Lemma remove_from_added event qa :
  to_option
    (added ← discard_lower (cursor_from event) qa;
     match added with
     | previous_event :: rest =>
         ensure (bool_decide (event = previous_event))
           (UnexpectedEvent event previous_event) ;;
         Ok (rest, [])
     | [] => Ok ([], [event])
     end) = reconcile qa [event].
Proof.
  induction qa as [|a qa IH]; simpl; [done|].
  unfold cursor_ge. destruct (cursor_lt (cursor_from a) (cursor_from event)) eqn:Hlt; simpl.
  - rewrite bool_decide_eq_false_2.
    2:{ intros ->. by rewrite cursor_lt_irrefl in Hlt. }
    destruct (ev_is_skippable a); simpl; [apply IH|done].
  - destruct (decide (a = event)) as [->|Hne].
    + rewrite !bool_decide_eq_true_2 by done. by rewrite reconcile_nil_r.
    + by rewrite !bool_decide_eq_false_2 by done.
Qed.

Lemma remove_event_spec added removed s event :
  inbox_spec added removed = Some s ->
  to_option (remove_event event s) = inbox_spec added (removed ++ [event]).
Proof.
  unfold inbox_spec. destruct (next_cursor added) as [ca|] eqn:Ha; [|done]. simpl.
  destruct (next_cursor removed) as [cr|] eqn:Hr; [|done]. simpl.
  destruct (reconcile added removed) as [[qa qr]|] eqn:Hq; [|done]. simpl. intros [= <-].
  rewrite next_cursor_snoc, Hr. unfold remove_event, advance. simpl.
  destruct (cursor_ge _ _); simpl; [|done].
  rewrite <- (app_nil_r added), (reconcile_app _ _ _ _ [] [event] Hq), app_nil_r.
  rewrite !to_option_bind.
  destruct (reconcile_one_empty _ _ _ _ Hq) as [->| ->]; simpl.
  - rewrite to_option_bind. destruct (to_option (cursor_try_add_one _)); done.
  - rewrite <- remove_from_added.
    destruct (discard_lower _ qa) as [[|p rest]| |]; simpl; try by destruct (to_option _).
    + rewrite to_option_bind. by destruct (to_option _).
    + case_bool_decide; simpl; [rewrite to_option_bind|]; by destruct (to_option _).
Qed.

Lemma add_event_spec added removed s event :
  inbox_spec added removed = Some s ->
  to_option (add_event event s) = inbox_spec (added ++ [event]) removed.
Proof.
  unfold inbox_spec. destruct (next_cursor added) as [ca|] eqn:Ha; [|done]. simpl.
  destruct (next_cursor removed) as [cr|] eqn:Hr; [|done]. simpl.
  destruct (reconcile added removed) as [[qa qr]|] eqn:Hq; [|done]. simpl. intros [= <-].
  rewrite next_cursor_snoc, Ha. unfold add_event, advance. simpl.
  destruct (cursor_ge _ _); simpl; [|done].
  rewrite <- (app_nil_r removed), (reconcile_app _ _ _ _ [event] [] Hq), app_nil_r.
  destruct qr as [|r qr]; simpl.
  - rewrite reconcile_nil_r, to_option_bind. by destruct (to_option _).
  - destruct (reconcile_one_empty _ _ _ _ Hq) as [->|]; [|done]. simpl.
    destruct (decide (event = r)) as [->|Hne].
    + rewrite !bool_decide_eq_true_2 by done. simpl.
      rewrite to_option_bind. by destruct (to_option _).
    + rewrite (bool_decide_eq_false_2 (event = r)) by done. case_bool_decide as Hc; simpl.
      * rewrite <- Hc, cursor_lt_irrefl. simpl. by destruct (to_option _).
      * case_match; simpl; [rewrite to_option_bind|]; by destruct (to_option _).
Qed.

(** A stream that cannot be extended stays so. *)
Lemma foldl_advance_None es : foldl advance None es = None.
Proof. by induction es. Qed.

Lemma inbox_spec_None added removed added' removed' :
  inbox_spec added removed = None -> inbox_spec (added ++ added') (removed ++ removed') = None.
Proof.
  unfold inbox_spec, next_cursor. rewrite !foldl_app.
  destruct (foldl advance _ added) as [ca|]; simpl; [|by rewrite foldl_advance_None].
  destruct (foldl advance _ removed) as [cr|]; simpl.
  2:{ rewrite foldl_advance_None. by destruct (foldl _ _ _). }
  destruct (reconcile added removed) as [[qa qr]|] eqn:Hq; [done|]. intros _.
  rewrite (reconcile_prefix_None _ _ _ _ Hq).
  destruct (foldl advance (Some ca) added'); simpl; [|done].
  by destruct (foldl advance (Some cr) removed').
Qed.

Lemma inbox_run_from ops added removed s :
  inbox_spec added removed = Some s ->
  to_option (inbox_run ops s) = inbox_spec (added ++ added_of ops) (removed ++ removed_of ops).
Proof.
  revert added removed s. induction ops as [|op ops IH]; intros added removed s Hs.
  - simpl. by rewrite !app_nil_r.
  - assert (to_option (inbox_step op s) =
      inbox_spec (added ++ added_of [op]) (removed ++ removed_of [op])) as Hop.
    { destruct op; simpl; rewrite app_nil_r;
        [by apply add_event_spec|by apply remove_event_spec]. }
    assert (added_of (op :: ops) = added_of [op] ++ added_of ops) as -> by by destruct op.
    assert (removed_of (op :: ops) = removed_of [op] ++ removed_of ops) as -> by by destruct op.
    simpl inbox_run. rewrite to_option_bind, Hop, !app_assoc.
    destruct (inbox_spec _ (removed ++ removed_of [op])) as [s'|] eqn:Hs'; simpl.
    + by apply IH.
    + by rewrite inbox_spec_None.
Qed.

Lemma inbox_run_default ops :
  to_option (inbox_run ops inbox_default) = inbox_spec (added_of ops) (removed_of ops).
Proof. by apply (inbox_run_from ops [] []). Qed.

Lemma inbox_run_Ok ops s :
  inbox_run ops inbox_default = Ok s ->
  next_cursor (added_of ops) = Some (next_cursor_to_add s) /\
  next_cursor (removed_of ops) = Some (next_cursor_to_remove s) /\
  reconcile (added_of ops) (removed_of ops) = Some (added_events s, removed_events s).
Proof.
  rewrite <- to_option_Some, inbox_run_default. unfold inbox_spec.
  destruct (next_cursor (added_of ops)); [|done]. simpl.
  destruct (next_cursor (removed_of ops)); [|done]. simpl.
  destruct (reconcile _ _) as [[qa qr]|]; [|done]. by intros [= <-].
Qed.

(** C7: The inbox implements its reference semantics.  Whatever the sequence of
    [add_event] and [remove_event] calls on a new inbox, all of them succeed
    exactly when each stream has increasing cursors and the two streams can be
    reconciled, and the state is then the one computed from the stream of added
    events and the stream of removed events. *)
Theorem inbox_refines_reconcile ops s :
  inbox_run ops inbox_default = Ok s <->
  inbox_spec (added_of ops) (removed_of ops) = Some s.
Proof. by rewrite <- inbox_run_default, to_option_Some. Qed.

(** The order in which a chain receives the events of an origin and
    executes them does not matter.  Two interleavings of the same added events
    and the same removed events both succeed with the same state or both
    fail. *)
Theorem inbox_order_independent ops1 ops2 s :
  added_of ops1 = added_of ops2 -> removed_of ops1 = removed_of ops2 ->
  inbox_run ops1 inbox_default = Ok s <-> inbox_run ops2 inbox_default = Ok s.
Proof.
  intros Ha Hr. by rewrite <- !to_option_Some, !inbox_run_default, Ha, Hr.
Qed.

(** [removed] is [added] without some events, all of which were skippable. *)
Inductive skips : list Event -> list Event -> Prop :=
| skips_nil : skips [] []
| skips_keep e added removed : skips added removed -> skips (e :: added) (e :: removed)
| skips_skip e added removed :
    ev_is_skippable e = true -> skips added removed -> skips (e :: added) removed.

Lemma reconcile_skips added removed qa qr :
  reconcile added removed = Some (qa, qr) ->
  exists consumed executed,
    added = consumed ++ qa /\ removed = executed ++ qr /\ skips consumed executed.
Proof.
  revert removed. induction added as [|a added IH]; intros removed.
  { intros [= <- <-]. exists [], []. split_and!; [done..|constructor]. }
  destruct removed as [|r removed]; simpl.
  { intros [= <- <-]. exists [], []. split_and!; [done..|constructor]. }
  case_bool_decide as Heq.
  - intros (c & x & -> & -> & Hs)%IH. subst r.
    exists (a :: c), (a :: x). split_and!; [done..|by constructor].
  - case_match eqn:Hlt; [|done]. apply andb_true_iff in Hlt as [_ Hskip].
    intros (c & x & -> & Hr & Hs)%IH.
    exists (a :: c), x. split_and!; [done..|by constructor].
Qed.

(** Every executed event was received or is still expected, and no
    unskippable event is lost.  After any successful history, the received
    events are a consumed prefix followed by [added_events], the executed ones a
    reconciled prefix followed by [removed_events]; the reconciled events are
    the consumed ones in order, without some that are skippable; and one of
    the two queues is empty. *)
Theorem inbox_no_loss ops s :
  inbox_run ops inbox_default = Ok s ->
  exists consumed executed,
    added_of ops = consumed ++ added_events s /\
    removed_of ops = executed ++ removed_events s /\
    skips consumed executed /\
    (added_events s = [] \/ removed_events s = []).
Proof.
  intros (_ & _ & Hq)%inbox_run_Ok.
  destruct (reconcile_skips _ _ _ _ Hq) as (c & x & ? & ? & ?).
  exists c, x. split_and!; try done. by eapply reconcile_one_empty.
Qed.

Lemma cursor_ge_height c1 c2 :
  cursor_ge c1 c2 = true -> cursor_height c2 <= cursor_height c1.
Proof. unfold cursor_ge, cursor_lt. lia. Qed.

Lemma next_cursor_bound es c :
  Forall (fun e => 0 <= ev_index e) es -> next_cursor es = Some c ->
  Forall (fun e => ev_height e <= cursor_height c) es /\
  0 <= cursor_index c /\ (es <> [] -> 0 < cursor_index c).
Proof.
  revert c. induction es as [|e es IH] using rev_ind; intros c Hall.
  { unfold next_cursor. simpl. intros [= <-]. split_and!; [constructor|done|done]. }
  apply Forall_app in Hall as [Hall [He _]%Forall_cons].
  rewrite next_cursor_snoc. unfold advance.
  destruct (next_cursor es) as [c0|]; [|done]. simpl. intros Hc.
  destruct (cursor_ge _ _) eqn:Hge; [|done]. apply to_option_Some in Hc.
  unfold cursor_try_add_one in Hc. inv_result. subst c. simpl.
  apply checked_add_Some in H as [-> _].
  destruct (IH c0 Hall eq_refl) as (Hh & _ & _). apply cursor_ge_height in Hge. simpl in *.
  split_and!; [|lia|intros; lia]. apply Forall_app. split.
  - eapply Forall_impl; [exact Hh|]. simpl. lia.
  - by constructor.
Qed.

(** [next_block_height_to_receive] is above the height of every event
    received so far, so that a block at that height or later has not been
    received yet. *)
Theorem next_height_above_received ops s h :
  Forall (fun e => 0 <= ev_index e) (added_of ops) ->
  inbox_run ops inbox_default = Ok s ->
  next_block_height_to_receive s = Ok h ->
  Forall (fun e => ev_height e < h) (added_of ops).
Proof.
  intros Hall (Hc & _ & _)%inbox_run_Ok.
  destruct (next_cursor_bound _ _ Hall Hc) as (Hh & Hpos & Hne).
  unfold next_block_height_to_receive. destruct (Z.eqb_spec (cursor_index (next_cursor_to_add s)) 0).
  - intros _. destruct (added_of ops); [constructor|]. specialize (Hne ltac:(done)). lia.
  - intros [-> _]%try_add_one_Ok. eapply Forall_impl; [exact Hh|]. simpl. lia.
Qed.

(** ** Examples *)

Module InboxExamples.

Definition event (h i : Z) (skippable : bool) : Event :=
  {| ev_certificate_hash := 7; ev_height := h; ev_index := i;
     ev_authenticated_signer := None; ev_is_skippable := skippable; ev_timestamp := 0;
     ev_message := SystemMsg MsgApplicationCreated |}.

(** Executing the second event before either was received. *)
Definition early : list InboxOp :=
  [RemoveEvent (event 1 0 false); AddEvent (event 0 3 true); AddEvent (event 1 0 false)].
Definition late : list InboxOp :=
  [AddEvent (event 0 3 true); AddEvent (event 1 0 false); RemoveEvent (event 1 0 false)].

Definition after : InboxState :=
  {| next_cursor_to_add := {| cursor_height := 1; cursor_index := 1 |};
     next_cursor_to_remove := {| cursor_height := 1; cursor_index := 1 |};
     added_events := []; removed_events := [] |}.

Lemma inbox_order_independent_witness :
  inbox_run early inbox_default = Ok after /\ inbox_run late inbox_default = Ok after.
Proof.
  split; [reflexivity|].
  apply (inbox_order_independent early late after); vm_compute; reflexivity.
Defined.

Lemma inbox_no_loss_witness :
  exists consumed executed,
    added_of early = consumed ++ [] /\ removed_of early = executed ++ [] /\
    skips consumed executed /\ (@nil Event = [] \/ @nil Event = []).
Proof. apply (inbox_no_loss early after). vm_compute. reflexivity. Defined.

Lemma next_height_above_received_witness :
  Forall (fun e => ev_height e < 2) (added_of early).
Proof.
  apply (next_height_above_received early after 2);
    [repeat constructor; discriminate|vm_compute; reflexivity..].
Defined.

(** An unskippable event cannot be skipped, in either order. *)
Example unskippable_after :
  inbox_run [AddEvent (event 0 3 false); RemoveEvent (event 1 0 false)] inbox_default =
  Err (UnskippableEvent (event 0 3 false)).
Proof. reflexivity. Qed.
Example unskippable_before :
  inbox_run [RemoveEvent (event 1 0 false); AddEvent (event 0 3 false)] inbox_default =
  Err (UnexpectedEvent (event 0 3 false) (event 1 0 false)).
Proof. reflexivity. Qed.

End InboxExamples.
