(* ===== verification/Outbox.v ===== *)
(** * Outboxes

    [linera-chain/src/outbox.rs]: the heights of the blocks that still have to
    be delivered to one target.  The theorems follow an outbox through any
    history of calls: each height is scheduled at most once, in increasing
    order, and handed back exactly once by [mark_messages_as_received]. *)

From S2P Require Import Prelude Numbers Types.

(** ** The code *)

Record OutboxState := {
  next_height_to_schedule : BlockHeight;
  outbox_queue : list BlockHeight;
}.

Definition outbox_default : OutboxState :=
  {| next_height_to_schedule := 0; outbox_queue := [] |}.

Definition schedule_message (height : BlockHeight) (self : OutboxState)
    : result ArithmeticError (bool * OutboxState) :=
  if height <? next_height_to_schedule self then Ok (false, self)
  else
    next ← try_add_one u64_MAX height;
    Ok (true, {| next_height_to_schedule := next;
                 outbox_queue := outbox_queue self ++ [height] |}).

(** The loop of [mark_messages_as_received]: the heights taken from the front
    of the queue and the queue left. *)
Fixpoint take_received (height : BlockHeight) (queue : list BlockHeight)
    : list BlockHeight * list BlockHeight :=
  match queue with
  | [] => ([], [])
  | h :: rest =>
      if height <? h then ([], queue)
      else let '(updates, remaining) := take_received height rest in (h :: updates, remaining)
  end.

Definition mark_messages_as_received (height : BlockHeight) (self : OutboxState)
    : list BlockHeight * OutboxState :=
  let '(updates, remaining) := take_received height (outbox_queue self) in
  (updates, {| next_height_to_schedule := next_height_to_schedule self;
               outbox_queue := remaining |}).

(** ** Invariant *)

Definition outbox_wf (s : OutboxState) : Prop :=
  StronglySorted Z.lt (outbox_queue s) /\
  Forall (fun h => 0 <= h < next_height_to_schedule s) (outbox_queue s) /\
  0 <= next_height_to_schedule s.

Lemma outbox_default_wf : outbox_wf outbox_default.
Proof. split_and!; [constructor..|done]. Qed.

Lemma StronglySorted_snoc (l : list Z) x :
  StronglySorted Z.lt l -> Forall (fun y => y < x) l -> StronglySorted Z.lt (l ++ [x]).
Proof.
  induction 1 as [|y l Hl IH Hy]; simpl; intros Hall; [repeat constructor|].
  apply Forall_cons in Hall as [Hyx Hall]. constructor; [by apply IH|].
  apply Forall_app. split; [done|]. by constructor.
Qed.

Lemma schedule_message_wf h s b s' :
  outbox_wf s -> schedule_message h s = Ok (b, s') -> outbox_wf s'.
Proof.
  intros (Hs & Hlt & Hn). unfold schedule_message.
  destruct (Z.ltb_spec h (next_height_to_schedule s)) as [Hle|Hge]; [intros [= _ <-]; by split|].
  intros H. inv_result. apply try_add_one_Ok in H0 as [-> _]. simplify_eq. split_and!; simpl; [..|lia].
  - apply StronglySorted_snoc; [done|]. eapply Forall_impl; [exact Hlt|]. simpl. lia.
  - apply Forall_app. split; [eapply Forall_impl; [exact Hlt|]; simpl; lia|].
    constructor; [lia|constructor].
Qed.

(** The heights handed back are the ones up to [height], the others stay. *)
Lemma take_received_spec height queue updates remaining :
  StronglySorted Z.lt queue -> take_received height queue = (updates, remaining) ->
  queue = updates ++ remaining /\
  Forall (fun h => h <= height) updates /\ Forall (fun h => height < h) remaining.
Proof.
  intros Hs. revert updates remaining. induction Hs as [|h queue Hq IH Hall]; intros updates remaining.
  { intros [= <- <-]. split_and!; constructor. }
  simpl. destruct (Z.ltb_spec height h).
  - intros [= <- <-]. split_and!; [done|constructor|]. constructor; [done|].
    eapply Forall_impl; [exact Hall|]. simpl. lia.
  - destruct (take_received height queue) as [u l]. intros [= <- <-].
    destruct (IH u l eq_refl) as (-> & Hu & Hl). split_and!; [done|by constructor|done].
Qed.

Lemma StronglySorted_app_r (l1 l2 : list Z) :
  StronglySorted Z.lt (l1 ++ l2) -> StronglySorted Z.lt l2.
Proof. induction l1 as [|x l1 IH]; simpl; [done|]. inversion_clear 1. auto. Qed.

Lemma mark_messages_wf h s updates s' :
  outbox_wf s -> mark_messages_as_received h s = (updates, s') ->
  outbox_wf s' /\ outbox_queue s = updates ++ outbox_queue s' /\
  Forall (fun x => x <= h) updates /\ Forall (fun x => h < x) (outbox_queue s').
Proof.
  intros (Hs & Hlt & Hn). unfold mark_messages_as_received.
  destruct (take_received h (outbox_queue s)) as [u l] eqn:Ht. intros [= <- <-].
  destruct (take_received_spec _ _ _ _ Hs Ht) as (Heq & Hu & Hl). simpl.
  rewrite Heq in Hs, Hlt. apply Forall_app in Hlt as [_ Hlt].
  split_and!; try done. split_and!; [by eapply StronglySorted_app_r|done..].
Qed.

(** ** Histories *)

Inductive OutboxOp :=
| Schedule (height : BlockHeight)
| MarkReceived (height : BlockHeight).

(** An outbox with the heights accepted by [schedule_message] and those handed
    back by [mark_messages_as_received], both in the order of the calls. *)
Record OutboxTrace := {
  trace_outbox : OutboxState;
  trace_scheduled : list BlockHeight;
  trace_delivered : list BlockHeight;
}.

Definition outbox_step (op : OutboxOp) (t : OutboxTrace) : result ArithmeticError OutboxTrace :=
  match op with
  | Schedule h =>
      '(changed, s) ← schedule_message h (trace_outbox t);
      Ok {| trace_outbox := s;
            trace_scheduled := trace_scheduled t ++ (if changed : bool then [h] else []);
            trace_delivered := trace_delivered t |}
  | MarkReceived h =>
      let '(updates, s) := mark_messages_as_received h (trace_outbox t) in
      Ok {| trace_outbox := s; trace_scheduled := trace_scheduled t;
            trace_delivered := trace_delivered t ++ updates |}
  end.

Definition outbox_run (ops : list OutboxOp) : result ArithmeticError OutboxTrace :=
  for_each outbox_step ops
    {| trace_outbox := outbox_default; trace_scheduled := []; trace_delivered := [] |}.

Definition trace_wf (t : OutboxTrace) : Prop :=
  trace_scheduled t = trace_delivered t ++ outbox_queue (trace_outbox t) /\
  StronglySorted Z.lt (trace_scheduled t) /\
  Forall (fun h => 0 <= h < next_height_to_schedule (trace_outbox t)) (trace_scheduled t) /\
  0 <= next_height_to_schedule (trace_outbox t).

Lemma outbox_step_wf op t t' : trace_wf t -> outbox_step op t = Ok t' -> trace_wf t'.
Proof.
  destruct t as [s sch del]. intros (Heq & Hs & Hlt & Hn). simpl in *. destruct op as [h|h]; simpl.
  - intros ([b s'] & Hsch & [= <-])%bind_Ok. unfold schedule_message in Hsch.
    destruct (Z.ltb_spec h (next_height_to_schedule s)).
    { injection Hsch as <- <-. split_and!; simpl; rewrite ?app_nil_r; done. }
    inv_result. apply try_add_one_Ok in H0 as [-> _]. simplify_eq. split_and!; simpl; [..|lia].
    + by rewrite (assoc_L (++)).
    + apply StronglySorted_snoc; [done|]. eapply Forall_impl; [exact Hlt|]. simpl. lia.
    + apply Forall_app. split; [eapply Forall_impl; [exact Hlt|]; simpl; lia|].
      constructor; [lia|constructor].
  - assert (outbox_wf s) as Hwf.
    { subst sch. apply Forall_app in Hlt as [_ Hlt]. split_and!; [|done..].
      by eapply StronglySorted_app_r. }
    destruct (mark_messages_as_received h s) as [u s'] eqn:Hm. intros [= <-].
    destruct (mark_messages_wf _ _ _ _ Hwf Hm) as (_ & Hq & _ & _).
    assert (next_height_to_schedule s' = next_height_to_schedule s) as Hnext.
    { unfold mark_messages_as_received in Hm. destruct (take_received _ _). by simplify_eq. }
    split_and!; simpl; [|done|by rewrite Hnext..].
    by rewrite <- (assoc_L (++)), <- Hq.
Qed.

Lemma outbox_run_wf ops t : outbox_run ops = Ok t -> trace_wf t.
Proof.
  apply for_each_invariant.
  - intros op t1 t2 _. apply outbox_step_wf.
  - split_and!; [done|constructor..|done].
Qed.

(** An outbox delivers each scheduled height exactly once and in order.
    After any history, the heights handed back so far followed by the queue
    are the heights accepted so far, and these are strictly increasing. *)
Theorem outbox_exactly_once ops t :
  outbox_run ops = Ok t ->
  trace_scheduled t = trace_delivered t ++ outbox_queue (trace_outbox t) /\
  StronglySorted Z.lt (trace_scheduled t).
Proof. by intros (H1 & H2 & _)%outbox_run_wf. Qed.

(** Marking a height as received in a reachable outbox hands back exactly
    the queued heights up to it; the queue keeps exactly the later ones. *)
Theorem mark_received_exact ops t h updates s' :
  outbox_run ops = Ok t ->
  mark_messages_as_received h (trace_outbox t) = (updates, s') ->
  (forall x, x ∈ updates <-> x ∈ outbox_queue (trace_outbox t) /\ x <= h) /\
  (forall x, x ∈ outbox_queue s' <-> x ∈ outbox_queue (trace_outbox t) /\ h < x).
Proof.
  intros (Heq & Hs & Hlt & Hn)%outbox_run_wf Hm.
  assert (outbox_wf (trace_outbox t)) as Hwf.
  { rewrite Heq in Hs, Hlt. apply Forall_app in Hlt as [_ Hlt]. split_and!; [|done..].
    by eapply StronglySorted_app_r. }
  destruct (mark_messages_wf _ _ _ _ Hwf Hm) as (_ & Hq & Hu & Hl). rewrite Hq.
  rewrite Forall_forall in Hu, Hl.
  split; intros x; rewrite elem_of_app; split.
  - intros Hx. split; [by left|]. by apply Hu.
  - intros [[Hx|Hx] Hle]; [done|]. apply Hl in Hx. lia.
  - intros Hx. split; [by right|]. by apply Hl.
  - intros [[Hx|Hx] Hle]; [|done]. apply Hu in Hx. lia.
Qed.

(** ** Examples *)

Module OutboxExamples.

(** Height 5 is scheduled a second time and refused. *)
Definition history : list OutboxOp :=
  [Schedule 2; Schedule 5; Schedule 5; MarkReceived 3; Schedule 9; MarkReceived 3].

Definition trace : OutboxTrace :=
  {| trace_outbox := {| next_height_to_schedule := 10; outbox_queue := [5; 9] |};
     trace_scheduled := [2; 5; 9]; trace_delivered := [2] |}.

Lemma outbox_exactly_once_witness :
  outbox_run history = Ok trace /\
  [2; 5; 9] = [2] ++ [5; 9] /\ StronglySorted Z.lt [2; 5; 9].
Proof.
  split; [vm_compute; reflexivity|].
  apply (outbox_exactly_once history trace). vm_compute. reflexivity.
Defined.

Lemma mark_received_exact_witness :
  (forall x, x ∈ [5] <-> x ∈ [5; 9] /\ x <= 7) /\
  (forall x, x ∈ [9] <-> x ∈ [5; 9] /\ 7 < x).
Proof.
  apply (mark_received_exact history trace 7 [5]
    {| next_height_to_schedule := 10; outbox_queue := [9] |}); vm_compute; reflexivity.
Defined.

End OutboxExamples.
