(* ===== verification/Errors.v ===== *)
(** * Errors

    The error types of [linera-execution] and [linera-chain], and the
    conversions that [?] performs between them.  Payloads that are only shown
    to a user (messages, boxed causes of external libraries) are left out. *)

From S2P Require Import Prelude Numbers Types Policy Inbox Crypto.

(** [linera-views/src/views.rs]; the storage errors of the backends are one
    constructor. *)
Inductive ViewError :=
| ViewSerialization
| ViewCannotAcquireCollectionEntry
| ViewIo
| ViewTryLockError
| ViewContextError
| ViewNotFound
| ViewInconsistentEntries
| ViewMissingEntries
| ViewTooLargeValue.

Inductive SystemExecutionError :=
| SysArithmeticError (e : ArithmeticError)
| SysViewError (e : ViewError)
| InvalidNewChainId (id : ChainId)
| InvalidNewChainAdminId (id : ChainId)
| InvalidCommittees
| InvalidEpoch (chain_id : ChainId) (epoch : Epoch)
| IncorrectTransferAmount
| UnauthenticatedTransferOwner
| InsufficientFunding (current_balance : Amount)
| IncorrectClaimAmount
| UnauthenticatedClaimOwner
| AdminOperationOnNonAdminChain
| InvalidCommitteeCreation
| InvalidCommitteeRemoval
| InvalidAdminSubscription (id : ChainId) (channel : SystemChannel)
| SelfSubscription (id : ChainId) (channel : SystemChannel)
| NoSuchChannel (id : ChainId) (channel : SystemChannel)
| InvalidUnsubscription (id : ChainId) (channel : SystemChannel)
| AmountOverflow
| AmountUnderflow
| BalanceOverflow
| BalanceUnderflow
| CannotRewindEpoch
| TicksOutOfOrder
| UnknownBytecodeId (id : BytecodeId)
| UnknownApplicationId (id : UserApplicationId).

Inductive ExecutionError :=
| ExecViewError (e : ViewError)
| ExecArithmeticError (e : ArithmeticError)
| ExecSystemError (e : SystemExecutionError)
| UserError
| WasmError
| SessionWasNotClosed
| InvalidOperation
| InvalidMessage
| InvalidQuery
| CallApplicationFromQuery
| LockStateFromQuery
| InvalidSession
| SessionIsInUse
| InvalidSessionOwner
| ApplicationIsInUse
| ApplicationStateNotLocked
| ExecPricingError (e : PricingError)
| ExcessiveRead
| ExcessiveWrite
| InvalidBytecodeId (id : BytecodeId)
| ApplicationBytecodeNotFound (description : UserApplicationDescription).

(** [From<ViewError> for ExecutionError]. *)
Definition execution_error_from_view (error : ViewError) : ExecutionError :=
  match error with
  | ViewTryLockError => ApplicationIsInUse
  | error => ExecViewError error
  end.

Inductive ChainExecutionContext :=
| ContextQuery
| ContextDescribeApplication
| ContextIncomingMessage (index : Z)
| ContextOperation (index : Z).

Inductive ChainError :=
| ChainCryptoError (e : CryptoError)
| ChainArithmeticError (e : ArithmeticError)
| ChainViewError (e : ViewError)
| ChainExecutionError (e : ExecutionError) (c : ChainExecutionContext)
| ChainPricingError (e : PricingError)
| InactiveChain (id : ChainId)
| MissingCrossChainUpdate (chain_id : ChainId) (origin : Origin) (height : BlockHeight)
| UnexpectedMessage (chain_id : ChainId) (origin : Origin) (event previous_event : Event)
| IncorrectMessageOrder (chain_id : ChainId) (origin : Origin) (event : Event)
    (next_height : BlockHeight) (next_index : Z)
| UnskippableMessage (chain_id : ChainId) (origin : Origin) (event : Event)
| IncorrectEventTimestamp (chain_id : ChainId)
    (message_timestamp block_timestamp : Timestamp)
| InvalidSigner
| UnexpectedBlockHeight (expected_block_height found_block_height : BlockHeight)
| UnexpectedPreviousBlockHash
| InvalidBlockHeight
| InvalidBlockTimestamp
| PreviousBlockMustBeConfirmedFirst
| InvalidBlockProposal
| InsufficientRound (round : RoundNumber)
| WrongRound (round : RoundNumber)
| HasLockedBlock (height : BlockHeight) (round : RoundNumber)
| MissingEarlierBlocks (current_block_height : BlockHeight)
| CertificateValidatorReuse
| CertificateRequiresQuorum
| CertificateSignatureVerificationFailed
| InternalError
| InsufficientBalance
| OwnerWeightError.

(** [From<(ChainId, Origin, InboxError)> for ChainError]. *)
Definition chain_error_from_inbox (chain_id : ChainId) (origin : Origin) (error : InboxError)
    : ChainError :=
  match error with
  | InboxArithmeticError e => ChainArithmeticError e
  | UnexpectedEvent event previous_event =>
      UnexpectedMessage chain_id origin event previous_event
  | IncorrectOrder event next_cursor =>
      IncorrectMessageOrder chain_id origin event
        (cursor_height next_cursor) (cursor_index next_cursor)
  | UnskippableEvent event => UnskippableMessage chain_id origin event
  end.
