(* ===== verification/Certificates.v ===== *)
(** * Certificates, votes and their verification

    The operations of [linera-chain/src/data_types.rs]: certified values and
    their hashes, votes, certificates with their sorted signature lists,
    [check_signatures] and the [SignatureAggregator]. *)

From S2P Require Import Prelude Numbers Types Crypto Committees Policy Errors.

(** ** Binary search

    [slice::binary_search_by], as the loop of the standard library. *)

Section binary_search.
Context {A : Type} (cmp : A -> comparison).

Fixpoint binary_search_loop (fuel : nat) (l : list A) (lo hi : nat) : result nat nat :=
  match fuel with
  | O => Err lo
  | S fuel =>
      if (lo <? hi)%nat then
        let mid := (lo + (hi - lo) / 2)%nat in
        match l !! mid with
        | None => Panic
        | Some x =>
            match cmp x with
            | Eq => Ok mid
            | Lt => binary_search_loop fuel l (S mid) hi
            | Gt => binary_search_loop fuel l lo mid
            end
        end
      else Err lo
  end.

(** The range shrinks at each turn, so the length of the slice is enough fuel. *)
Definition binary_search_by (l : list A) : result nat nat :=
  binary_search_loop (S (length l)) l 0 (length l).

End binary_search.

(** [Vec::insert]: panics when the index is above the length. *)
Definition vec_insert {E A} (i : nat) (x : A) (l : list A) : result E (list A) :=
  if (i <=? length l)%nat then Ok (take i l ++ x :: drop i l) else Panic.

(** ** Certified values *)

Definition value_chain_id (self : CertificateValue) : ChainId :=
  match self with
  | ConfirmedBlock executed_block | ValidatedBlock executed_block =>
      block_chain_id (eb_block executed_block)
  | LeaderTimeout chain_id _ _ => chain_id
  end.

Definition value_height (self : CertificateValue) : BlockHeight :=
  match self with
  | ConfirmedBlock executed_block | ValidatedBlock executed_block =>
      block_height (eb_block executed_block)
  | LeaderTimeout _ height _ => height
  end.

Definition value_epoch (self : CertificateValue) : Epoch :=
  match self with
  | ConfirmedBlock executed_block | ValidatedBlock executed_block =>
      block_epoch (eb_block executed_block)
  | LeaderTimeout _ _ epoch => epoch
  end.

Definition with_hash_unchecked (self : CertificateValue) (hash : CryptoHash) : HashedValue :=
  {| hv_value := self; hv_hash := hash |}.

Definition value_executed_block (self : CertificateValue) : option ExecutedBlock :=
  match self with
  | ConfirmedBlock executed_block | ValidatedBlock executed_block => Some executed_block
  | LeaderTimeout _ _ _ => None
  end.

Definition value_block (self : CertificateValue) : option Block :=
  eb_block <$> value_executed_block self.

Definition has_message (self : CertificateValue) (message_id : MessageId) : bool :=
  match value_executed_block self with
  | None => false
  | Some executed_block =>
      (value_height self =? mid_height message_id) &&
      (value_chain_id self =? mid_chain_id message_id) &&
      (mid_index message_id <? Z.of_nat (length (eb_messages executed_block)))
  end.

Definition is_confirmed (self : CertificateValue) : bool :=
  match self with ConfirmedBlock _ => true | _ => false end.
Definition is_validated (self : CertificateValue) : bool :=
  match self with ValidatedBlock _ => true | _ => false end.
Definition is_timeout (self : CertificateValue) : bool :=
  match self with LeaderTimeout _ _ _ => true | _ => false end.

(** [ExecutedBlock::message_id]. *)
Definition eb_message_id (self : ExecutedBlock) (index : Z) : MessageId :=
  {| mid_chain_id := block_chain_id (eb_block self);
     mid_height := block_height (eb_block self);
     mid_index := index |}.

(** [ExecutedBlock::message_id_for_operation]; a [usize] has 64 bits. *)
Definition message_id_for_operation (self : ExecutedBlock) (operation_index message_index : Z)
    : option MessageId :=
  transaction_index ←
    checked_add u64_MAX (Z.of_nat (length (block_incoming_messages (eb_block self))))
      operation_index;
  first_message_index ←
    match checked_sub transaction_index 1 with
    | None => Some 0
    | Some index => eb_message_counts self !! Z.to_nat index
    end;
  index ← checked_add u32_MAX first_message_index message_index;
  next_transaction_index ← eb_message_counts self !! Z.to_nat transaction_index;
  if index <? next_transaction_index then Some (eb_message_id self index) else None.

(** [BlockExecutionOutcome::with]. *)
Definition outcome_with (self : BlockExecutionOutcome) (block : Block) : ExecutedBlock :=
  {| eb_block := block;
     eb_messages := outcome_messages self;
     eb_message_counts := outcome_message_counts self;
     eb_state_hash := outcome_state_hash self |}.

(** [SystemMessage::bytecode_locations]. *)
Definition message_bytecode_locations (self : SystemMessage) (certificate_hash : CryptoHash)
    : list BytecodeLocation :=
  match self with
  | MsgBytecodePublished operation_index =>
      [{| loc_certificate_hash := certificate_hash; loc_operation_index := operation_index |}]
  | MsgBytecodeLocations new_locations => snd <$> new_locations
  | MsgRegisterApplications applications => desc_bytecode_location <$> applications
  | _ => []
  end.

(** [Block::bytecode_locations]: the entries inserted into the map, in order. *)
Definition block_bytecode_locations (self : Block) : list (BytecodeLocation * ChainId) :=
  message ← block_incoming_messages self;
  match ev_message (in_event message) with
  | SystemMsg sys_message =>
      (fun location => (location, sender (in_origin message))) <$>
        message_bytecode_locations sys_message (ev_certificate_hash (in_event message))
  | UserMsg _ _ => []
  end.

(** [Origin::chain], [Origin::channel], [Target::chain], [Target::channel]. *)
Definition origin_chain (s : ChainId) : Origin := {| sender := s; origin_medium := Direct |}.
Definition origin_channel (s : ChainId) (name : ChannelFullName) : Origin :=
  {| sender := s; origin_medium := Channel name |}.
Definition target_chain (r : ChainId) : Target := {| recipient := r; target_medium := Direct |}.
Definition target_channel (r : ChainId) (name : ChannelFullName) : Target :=
  {| recipient := r; target_medium := Channel name |}.

Section certificates.
Context `{Crypto}.

(** [From<CertificateValue> for HashedValue], which deserializing a value also
    uses. *)
Definition hashed_from (value : CertificateValue) : HashedValue :=
  {| hv_value := value; hv_hash := hash_value value |}.

Definition new_confirmed (executed_block : ExecutedBlock) : HashedValue :=
  hashed_from (ConfirmedBlock executed_block).
Definition new_validated (executed_block : ExecutedBlock) : HashedValue :=
  hashed_from (ValidatedBlock executed_block).
Definition new_leader_timeout (chain_id : ChainId) (height : BlockHeight) (epoch : Epoch)
    : HashedValue :=
  hashed_from (LeaderTimeout chain_id height epoch).

Definition hashed_lite (self : HashedValue) : LiteValue :=
  {| lv_value_hash := hv_hash self; lv_chain_id := value_chain_id (hv_value self) |}.

Definition into_confirmed (self : HashedValue) : option HashedValue :=
  match hv_value self with
  | ConfirmedBlock executed_block =>
      Some {| hv_hash := hv_hash self; hv_value := ConfirmedBlock executed_block |}
  | ValidatedBlock executed_block => Some (hashed_from (ConfirmedBlock executed_block))
  | LeaderTimeout _ _ _ => None
  end.

(** ** Votes and proposals *)

Definition vote_new (value : HashedValue) (round : RoundNumber) (key_pair : KeyPair) : Vote :=
  {| vote_value := value;
     vote_round := round;
     vote_validator := key_public key_pair;
     vote_signature := signature_new (ValueHashAndRound (hv_hash value) round) key_pair |}.

Definition vote_lite (self : Vote) : LiteVote :=
  {| lvote_value := hashed_lite (vote_value self);
     lvote_round := vote_round self;
     lvote_validator := vote_validator self;
     lvote_signature := vote_signature self |}.

Definition lite_vote_new (value : LiteValue) (round : RoundNumber) (key_pair : KeyPair)
    : LiteVote :=
  {| lvote_value := value;
     lvote_round := round;
     lvote_validator := key_public key_pair;
     lvote_signature := signature_new (ValueHashAndRound (lv_value_hash value) round) key_pair |}.

Definition lite_vote_with_value (self : LiteVote) (value : HashedValue) : option Vote :=
  if bool_decide (lvote_value self = hashed_lite value) then
    Some {| vote_value := value;
            vote_round := lvote_round self;
            vote_validator := lvote_validator self;
            vote_signature := lvote_signature self |}
  else None.

Definition lite_vote_check (self : LiteVote) : result ChainError unit :=
  map_err ChainCryptoError
    (signature_check (lvote_signature self)
       (ValueHashAndRound (lv_value_hash (lvote_value self)) (lvote_round self))
       (lvote_validator self)).

Definition proposal_new (content : BlockAndRound) (secret : KeyPair) (blobs : list HashedValue)
    (validated : option Certificate) : BlockProposal :=
  {| prop_content := content;
     prop_owner := owner_from (key_public secret);
     prop_signature := signature_new (SignedBlockAndRound content) secret;
     prop_blobs := blobs;
     prop_validated := validated |}.

(** ** Certificates *)

Fixpoint is_strictly_ordered (values : list (ValidatorName * Signature)) : bool :=
  match values with
  | (v1, _) :: (((v2, _) :: _) as rest) => (v1 <? v2) && is_strictly_ordered rest
  | _ => true
  end.

(** [sort_by_key] is stable, as [merge_sort] is. *)
Definition sort_signatures (signatures : list (ValidatorName * Signature))
    : list (ValidatorName * Signature) :=
  if negb (is_strictly_ordered signatures) then merge_sort key_le signatures else signatures.

Definition certificate_new (value : HashedValue) (round : RoundNumber)
    (signatures : list (ValidatorName * Signature)) : Certificate :=
  {| cert_value := value; cert_round := round;
     cert_signatures := sort_signatures signatures |}.

Definition lite_certificate_new (value : LiteValue) (round : RoundNumber)
    (signatures : list (ValidatorName * Signature)) : LiteCertificate :=
  {| lcert_value := value; lcert_round := round;
     lcert_signatures := sort_signatures signatures |}.

(** [Deserialize for Certificate], after its fields were read; [None] is the
    error "Vector is not strictly sorted". *)
Definition certificate_deserialize (value : CertificateValue) (round : RoundNumber)
    (signatures : list (ValidatorName * Signature)) : option Certificate :=
  if negb (is_strictly_ordered signatures) then None
  else Some {| cert_value := hashed_from value; cert_round := round;
               cert_signatures := signatures |}.

Definition try_from_votes (votes : list LiteVote) : option LiteCertificate :=
  match votes with
  | [] => None
  | vote :: votes =>
      if forallb (fun v =>
           (lv_value_hash (lvote_value v) =? lv_value_hash (lvote_value vote)) &&
           (lvote_round v =? lvote_round vote)) votes
      then Some (lite_certificate_new (lvote_value vote) (lvote_round vote)
             ((fun v => (lvote_validator v, lvote_signature v)) <$> vote :: votes))
      else None
  end.

Definition cert_lite_value (self : Certificate) : LiteValue :=
  {| lv_value_hash := hv_hash (cert_value self);
     lv_chain_id := value_chain_id (hv_value (cert_value self)) |}.

Definition lite_certificate (self : Certificate) : LiteCertificate :=
  {| lcert_value := cert_lite_value self;
     lcert_round := cert_round self;
     lcert_signatures := cert_signatures self |}.

Definition lite_with_value (self : LiteCertificate) (value : HashedValue)
    : option Certificate :=
  if negb (lv_chain_id (lcert_value self) =? value_chain_id (hv_value value)) ||
     negb (lv_value_hash (lcert_value self) =? hv_hash value)
  then None
  else Some {| cert_value := value; cert_round := lcert_round self;
               cert_signatures := lcert_signatures self |}.

Definition compare_name (name : ValidatorName) (p : ValidatorName * Signature) : comparison :=
  p.1 ?= name.

Definition add_signature {E} (signature : ValidatorName * Signature) (self : Certificate)
    : result E Certificate :=
  index ←
    match binary_search_by (compare_name signature.1) (cert_signatures self) with
    | Ok i | Err i => Ok i
    | Panic => Panic
    end;
  signatures ← vec_insert index signature (cert_signatures self);
  Ok {| cert_value := cert_value self; cert_round := cert_round self;
        cert_signatures := signatures |}.

Definition is_signed_by (self : Certificate) (name : ValidatorName) : bool :=
  is_ok (binary_search_by (compare_name name) (cert_signatures self)).

(** The body of the loop of [check_signatures]: the weight so far and the
    validators already counted. *)
Definition count_signature (committee : Committee) (p : ValidatorName * Signature)
    (acc : Z * gset ValidatorName) : result ChainError (Z * gset ValidatorName) :=
  let '(w, used_validators) := acc in
  ensure (bool_decide (p.1 ∉ used_validators)) CertificateValidatorReuse ;;
  let voting_rights := weight committee p.1 in
  ensure (0 <? voting_rights) InvalidSigner ;;
  Ok (wrapping_add u64_MAX w voting_rights, {[p.1]} ∪ used_validators).

Definition check_signatures (value : LiteValue) (round : RoundNumber)
    (signatures : list (ValidatorName * Signature)) (committee : Committee)
    : result ChainError unit :=
  '(w, _) ← for_each (count_signature committee) signatures (0, ∅);
  ensure (quorum_threshold committee <=? w) CertificateRequiresQuorum ;;
  map_err ChainCryptoError
    (signature_verify_batch (ValueHashAndRound (lv_value_hash value) round) signatures).

Definition certificate_check (self : Certificate) (committee : Committee)
    : result ChainError HashedValue :=
  check_signatures (cert_lite_value self) (cert_round self) (cert_signatures self) committee ;;
  Ok (cert_value self).

Definition lite_certificate_check (self : LiteCertificate) (committee : Committee)
    : result ChainError LiteValue :=
  check_signatures (lcert_value self) (lcert_round self) (lcert_signatures self) committee ;;
  Ok (lcert_value self).

(** ** Aggregation of signatures *)

Record SignatureAggregator := {
  agg_committee : Committee;
  agg_weight : Z;
  agg_used_validators : gset ValidatorName;
  agg_partial : Certificate;
}.

Definition aggregator_new (value : HashedValue) (round : RoundNumber) (committee : Committee)
    : SignatureAggregator :=
  {| agg_committee := committee;
     agg_weight := 0;
     agg_used_validators := ∅;
     agg_partial := {| cert_value := value; cert_round := round; cert_signatures := [] |} |}.

(** The certificate completed by the signature, if any, and the aggregator.
    [self.used_validators] and [self.weight] are updated in place, so that a
    failing call can leave them changed: the error comes with the aggregator. *)
Definition append (validator : ValidatorName) (signature : Signature)
    (self : SignatureAggregator)
    : result (ChainError * SignatureAggregator) (option Certificate * SignatureAggregator) :=
  map_err (fun e => (ChainCryptoError e, self))
    (signature_check signature
      (ValueHashAndRound (hv_hash (cert_value (agg_partial self))) (cert_round (agg_partial self)))
      validator) ;;
  ensure (bool_decide (validator ∉ agg_used_validators self))
    (CertificateValidatorReuse, self) ;;
  let used := {[validator]} ∪ agg_used_validators self in
  let voting_rights := weight (agg_committee self) validator in
  ensure (0 <? voting_rights)
    (InvalidSigner,
     {| agg_committee := agg_committee self; agg_weight := agg_weight self;
        agg_used_validators := used; agg_partial := agg_partial self |}) ;;
  let w := wrapping_add u64_MAX (agg_weight self) voting_rights in
  partial ← add_signature (validator, signature) (agg_partial self);
  if quorum_threshold (agg_committee self) <=? w then
    Ok (Some partial,
        {| agg_committee := agg_committee self; agg_weight := 0;
           agg_used_validators := used; agg_partial := partial |})
  else
    Ok (None,
        {| agg_committee := agg_committee self; agg_weight := w;
           agg_used_validators := used; agg_partial := partial |}).

End certificates.

(** ** Sorted signature lists *)

Section sorted.
Implicit Types l : list (ValidatorName * Signature).

Lemma is_strictly_ordered_sorted l :
  is_strictly_ordered l = true <-> StronglySorted Z.lt l.*1.
Proof.
  induction l as [|[v1 s1] l IH]; simpl; [split; [constructor|done]|].
  destruct l as [|[v2 s2] l].
  { split; [repeat constructor|done]. }
  rewrite andb_true_iff, IH, Z.ltb_lt. split.
  - intros [Hlt Hs]. constructor; [done|]. simpl. constructor; [done|].
    inversion Hs as [|? ? _ Hall]; subst.
    eapply Forall_impl; [exact Hall|]. simpl. lia.
  - inversion 1 as [|? ? Hs Hall]; subst. split; [|done]. by inversion Hall.
Qed.

Lemma sorted_lookup_lt l i j p q :
  StronglySorted Z.lt l.*1 -> (i < j)%nat -> l !! i = Some p -> l !! j = Some q -> p.1 < q.1.
Proof.
  revert i j. induction l as [|x l IH]; intros i j Hs Hij Hi Hj; [done|].
  simpl in Hs. inversion Hs as [|? ? Hs' Hall]; subst.
  destruct j as [|j]; [lia|]. simpl in Hj. destruct i as [|i]; simpl in Hi.
  - injection Hi as ->. rewrite Forall_forall in Hall. apply Hall.
    apply list_elem_of_fmap_2. by eapply list_elem_of_lookup_2.
  - eapply IH; [done| |done..]. lia.
Qed.

(** What [binary_search_by] promises on a sorted list. *)
Definition search_spec (key : ValidatorName) l (r : result nat nat) : Prop :=
  match r with
  | Ok i => exists p, l !! i = Some p /\ p.1 = key
  | Err i =>
      (i <= length l)%nat /\
      (forall j p, (j < i)%nat -> l !! j = Some p -> p.1 < key) /\
      (forall j p, (i <= j)%nat -> l !! j = Some p -> key < p.1)
  | Panic => False
  end.

Lemma binary_search_loop_spec key l fuel lo hi :
  StronglySorted Z.lt l.*1 -> (lo <= hi <= length l)%nat -> (hi - lo < fuel)%nat ->
  (forall j p, (j < lo)%nat -> l !! j = Some p -> p.1 < key) ->
  (forall j p, (hi <= j)%nat -> l !! j = Some p -> key < p.1) ->
  search_spec key l (binary_search_loop (compare_name key) fuel l lo hi).
Proof.
  intros Hs. revert lo hi. induction fuel as [|fuel IH]; intros lo hi Hb Hf Hlo Hhi; [lia|].
  cbn [binary_search_loop]. destruct (Nat.ltb_spec lo hi) as [Hlt|Hge].
  2:{ simpl. assert (lo = hi) as -> by lia. split_and!; [lia|done|done]. }
  set (mid := (lo + (hi - lo) / 2)%nat).
  assert (lo <= mid < hi)%nat as Hmid.
  { unfold mid. pose proof (Nat.div_lt (hi - lo) 2). lia. }
  destruct (lookup_lt_is_Some_2 l mid ltac:(lia)) as [x Hx]. rewrite Hx.
  unfold compare_name at 1. destruct (Z.compare_spec x.1 key) as [Heq|Hl|Hg].
  - simpl. eauto.
  - apply IH; [lia|lia| |done]. intros j p Hj Hp.
    destruct (decide (j = mid)) as [->|]; [by simplify_eq|].
    pose proof (sorted_lookup_lt l j mid p x Hs ltac:(lia) Hp Hx). lia.
  - apply IH; [lia|lia|done|]. intros j p Hj Hp.
    destruct (decide (j = mid)) as [->|]; [by simplify_eq|].
    pose proof (sorted_lookup_lt l mid j x p Hs ltac:(lia) Hx Hp). lia.
Qed.

Lemma binary_search_spec key l :
  StronglySorted Z.lt l.*1 -> search_spec key l (binary_search_by (compare_name key) l).
Proof.
  intros Hs. apply binary_search_loop_spec; [done|lia|lia| |].
  - intros j p Hj. lia.
  - intros j p Hj Hp. apply lookup_lt_Some in Hp. lia.
Qed.

(** Inserting at the index a failed search returns keeps the list sorted. *)
Lemma insert_sorted l i p :
  StronglySorted Z.lt l.*1 -> (i <= length l)%nat ->
  (forall j q, (j < i)%nat -> l !! j = Some q -> q.1 < p.1) ->
  (forall j q, (i <= j)%nat -> l !! j = Some q -> p.1 < q.1) ->
  StronglySorted Z.lt (take i l ++ p :: drop i l).*1.
Proof.
  revert i. induction l as [|x l IH]; intros i Hs Hi Hlt Hgt.
  { destruct i; simpl in *; [|lia]. repeat constructor. }
  destruct i as [|i]; simpl in *.
  - constructor; [done|]. simpl. apply Forall_forall. intros v Hv.
    apply (list_elem_of_fmap_1 fst (x :: l)) in Hv as (q & -> & Hq).
    apply list_elem_of_lookup_1 in Hq as [j Hj]. apply (Hgt j); [lia|done].
  - inversion Hs as [|? ? Hs' Hall]; subst. constructor.
    + apply IH; [done|lia| |]; intros j q Hj Hq.
      * apply (Hlt (S j)); [lia|done].
      * apply (Hgt (S j)); [lia|done].
    + rewrite fmap_app, fmap_cons. apply Forall_app.
      rewrite <- (take_drop i l), fmap_app in Hall.
      apply Forall_app in Hall as [Ht Hd]. split; [done|].
      constructor; [|done]. apply (Hlt 0%nat); [lia|done].
Qed.

End sorted.

(** ** Verification of signatures *)

Section check.
Context {C : Crypto} {CL : CryptoLaws C}.

#[local] Arguments weight_of : simpl never.

(** The votes of the committee are unsigned and their sum fits in 64 bits, and
    its thresholds are those [Committee::new] computes. *)
Definition committee_wf (c : Committee) : Prop :=
  exists m p, c = committee_new m p /\ votes_bounded m /\ 0 < full_weight m.

Lemma committee_wf_votes c :
  committee_wf c -> map_Forall (fun _ state => 0 <= votes state) (validators c).
Proof. by intros (m & p & -> & [? _] & _). Qed.

Lemma weight_of_bounded c vs :
  committee_wf c -> NoDup vs -> 0 <= weight_of c vs <= u64_MAX.
Proof.
  intros Hwf Hnd. pose proof (committee_wf_votes c Hwf) as Hpos.
  pose proof (weight_of_nonneg c vs Hpos). pose proof (weight_of_le_full c vs Hpos Hnd).
  pose proof (full_weight_nonneg (validators c) Hpos).
  destruct Hwf as (m & p & -> & [_ Hb] & _). simpl in *. lia.
Qed.

Lemma count_signatures c l w used :
  committee_wf c -> 0 <= w -> w + weight_of c l.*1 <= u64_MAX ->
  forall w' used',
  for_each (count_signature c) l (w, used) = Ok (w', used') <->
  NoDup l.*1 /\ Forall (fun v => v ∉ used /\ 0 < weight c v) l.*1 /\
  w' = w + weight_of c l.*1 /\ used' = list_to_set l.*1 ∪ used.
Proof.
  intros Hwf. revert w used. induction l as [|[v s] l IH]; intros w used Hw Hb w' used'.
  { simpl in *. change (weight_of c []) with 0 in *. split.
    - intros [= <- <-]. split_and!; [constructor|constructor|lia|set_solver].
    - intros (_ & _ & -> & ->). do 2 f_equal; [lia|set_solver]. }
  pose proof (weight_nonneg c v (committee_wf_votes c Hwf)) as Hv.
  pose proof (weight_of_nonneg c l.*1 (committee_wf_votes c Hwf)) as Hl.
  rewrite fmap_cons in *. cbn [fst] in *. rewrite weight_of_cons in *.
  rewrite NoDup_cons, Forall_cons, list_to_set_cons. cbn [for_each count_signature fst].
  case_bool_decide as Hused; simpl.
  2:{ split; [done|]. intros (_ & [[? _] _] & _). done. }
  destruct (Z.ltb_spec 0 (weight c v)) as [Hpos|Hneg]; simpl.
  2:{ split; [done|]. intros (_ & [[_ ?] _] & _). lia. }
  rewrite wrapping_add_small by lia. rewrite IH by lia. split.
  - intros (Hnd & Hall & -> & ->). split_and!; [ |done|done|done| |lia|set_solver].
    + intros Hin. rewrite Forall_forall in Hall. destruct (Hall v Hin). set_solver.
    + eapply Forall_impl; [exact Hall|]. simpl. intros v' [??]. split; [set_solver|done].
  - intros ([Hnin Hnd] & [_ Hall] & -> & ->). split_and!; [done| |lia|set_solver].
    apply Forall_forall. intros v' Hv'. rewrite Forall_forall in Hall.
    destruct (Hall v' Hv'). split; [|done]. assert (v' <> v) by (intros ->; done). set_solver.
Qed.

(** What [check_signatures] accepts. *)
Definition valid_signatures (hash : CryptoHash) (round : RoundNumber)
    (l : list (ValidatorName * Signature)) (c : Committee) : Prop :=
  NoDup l.*1 /\ Forall (fun v => 0 < weight c v) l.*1 /\
  quorum_threshold c <= weight_of c l.*1 /\
  Forall (fun '(v, s) => dalek_verify v (ValueHashAndRound hash round) s = true) l.

Lemma count_signatures_dup c l w used r :
  for_each (count_signature c) l (w, used) = Ok r ->
  NoDup l.*1 /\ Forall (fun v => v ∉ used) l.*1.
Proof.
  revert w used. induction l as [|[v s] l IH]; intros w used; simpl.
  { intros _. split; constructor. }
  case_bool_decide; simpl; [|done]. destruct (0 <? weight c v); simpl; [|done].
  intros [Hnd Hall]%IH. rewrite Forall_forall in Hall. split.
  - constructor; [|done]. intros Hin. specialize (Hall v Hin). set_solver.
  - constructor; [done|]. apply Forall_forall. intros v' Hv'. specialize (Hall v' Hv').
    set_solver.
Qed.

Lemma check_signatures_valid value round l c :
  committee_wf c ->
  check_signatures value round l c = Ok () <-> valid_signatures (lv_value_hash value) round l c.
Proof.
  intros Hwf. unfold check_signatures, valid_signatures, signature_verify_batch.
  assert (forall r, for_each (count_signature c) l (0, ∅) = Ok r ->
    0 + weight_of c l.*1 <= u64_MAX) as Hbound.
  { intros r [Hnd _]%count_signatures_dup. pose proof (weight_of_bounded c _ Hwf Hnd). lia. }
  split.
  - intros H. inv_result. destruct x as [w used]. inv_result.
    pose proof (Hbound _ H0) as Hb.
    apply (count_signatures c l 0 ∅ Hwf) in H0 as (Hnd & Hall & -> & _); [|lia|lia].
    split_and!; [done| | |].
    + eapply Forall_impl; [exact Hall|]. by intros v [_ ?].
    + simpl in H. inv_result. lia.
    + simpl in H. inv_result. by apply verify_batch_sound.
  - intros (Hnd & Hpos & Hq & Hv).
    pose proof (weight_of_bounded c _ Hwf Hnd).
    assert (for_each (count_signature c) l (0, ∅) =
      Ok (0 + weight_of c l.*1, list_to_set l.*1 ∪ ∅)) as ->.
    { apply (count_signatures c l 0 ∅ Hwf); [lia|lia|]. split_and!; try done.
      eapply Forall_impl; [exact Hpos|]. intros v ?. split; [set_solver|done]. }
    rewrite verify_batch_complete by done. simpl.
    destruct (Z.leb_spec (quorum_threshold c) (0 + weight_of c l.*1)); [reflexivity|lia].
Qed.

(** [check_signatures] accepts exactly the lists of signatures by distinct
    members of the committee that together reach the quorum threshold, all of
    them valid for the hash of the value and the round. *)
Theorem check_signatures_spec value round l c :
  committee_wf c ->
  check_signatures value round l c = Ok () <->
  NoDup l.*1 /\ Forall (fun v => 0 < weight c v) l.*1 /\
  quorum_threshold c <= weight_of c l.*1 /\
  Forall (fun '(v, s) =>
    dalek_verify v (ValueHashAndRound (lv_value_hash value) round) s = true) l.
Proof. apply check_signatures_valid. Qed.

Lemma valid_signatures_perm hash round l1 l2 c :
  l1 ≡ₚ l2 -> valid_signatures hash round l1 c -> valid_signatures hash round l2 c.
Proof.
  intros Hp (Hnd & Hpos & Hq & Hv). unfold valid_signatures.
  rewrite <- (weight_of_perm c _ _ (fmap_Permutation fst _ _ Hp)).
  split_and!; [| |done|]; by rewrite <- Hp.
Qed.

Lemma certificate_check_Ok cert c v :
  certificate_check cert c = Ok v <->
  v = cert_value cert /\
  check_signatures (cert_lite_value cert) (cert_round cert) (cert_signatures cert) c = Ok ().
Proof.
  unfold certificate_check. rewrite bind_Ok. split.
  - intros ([] & ? & [= <-]). done.
  - intros [-> ?]. by exists ().
Qed.

(** ** Aggregation *)

Lemma add_signature_spec {E} v s cert :
  StronglySorted Z.lt (cert_signatures cert).*1 -> v ∉ (cert_signatures cert).*1 ->
  exists cert', add_signature (E := E) (v, s) cert = Ok cert' /\
    cert_value cert' = cert_value cert /\ cert_round cert' = cert_round cert /\
    cert_signatures cert' ≡ₚ (v, s) :: cert_signatures cert /\
    StronglySorted Z.lt (cert_signatures cert').*1.
Proof.
  intros Hs Hv. unfold add_signature. pose proof (binary_search_spec v _ Hs) as Hb.
  simpl. destruct (binary_search_by _ _) as [i|i|]; simpl in *; [|..|done].
  { destruct Hb as ([v' s'] & Hl & Heq). simpl in Heq. subst v'. destruct Hv.
    apply list_elem_of_lookup_2 in Hl. by apply (list_elem_of_fmap_2 fst) in Hl. }
  destruct Hb as (Hi & Hlt & Hgt). unfold vec_insert.
  destruct (Nat.leb_spec i (length (cert_signatures cert))); [|lia]. simpl.
  eexists. split; [reflexivity|]. simpl. split_and!; [done..| |by apply insert_sorted].
  rewrite <- (take_drop i (cert_signatures cert)) at 3. by rewrite Permutation_middle.
Qed.

(** The signatures collected are valid, distinct and sorted; [done] is the
    weight of those that went into a certificate already. *)
Definition aggregator_wf (done : Z) (a : SignatureAggregator) : Prop :=
  let l := cert_signatures (agg_partial a) in
  let c := agg_committee a in
  committee_wf c /\ StronglySorted Z.lt l.*1 /\
  Forall (fun v => v ∈ agg_used_validators a /\ 0 < weight c v) l.*1 /\
  Forall (fun '(v, s) => dalek_verify v
    (ValueHashAndRound (hv_hash (cert_value (agg_partial a))) (cert_round (agg_partial a))) s
    = true) l /\
  agg_weight a = weight_of c l.*1 - done /\ 0 <= agg_weight a < quorum_threshold c /\
  (done = 0 \/ quorum_threshold c <= done).

Lemma quorum_pos c : committee_wf c -> 0 < quorum_threshold c.
Proof.
  intros (m & p & -> & Hb & Hpos). destruct (committee_new_thresholds m p Hb Hpos) as [-> _].
  unfold max_faulty. pose proof (Z.div_le_upper_bound (full_weight m - 1) 3 (full_weight m - 1)).
  lia.
Qed.

Lemma aggregator_new_wf value round c :
  committee_wf c -> aggregator_wf 0 (aggregator_new value round c).
Proof.
  intros Hwf. pose proof (quorum_pos c Hwf). unfold aggregator_wf. simpl.
  change (weight_of c []) with 0. split_and!; [done|constructor..|done|lia|done|by left].
Qed.

Lemma sorted_NoDup (l : list Z) : StronglySorted Z.lt l -> NoDup l.
Proof.
  induction 1 as [|x l Hs IH Hall]; constructor; [|done].
  intros Hin. rewrite Forall_forall in Hall. specialize (Hall x Hin). lia.
Qed.

(** Less than two quorums fit in a committee. *)
Lemma quorum_majority c vs :
  committee_wf c -> NoDup vs -> weight_of c vs < 2 * quorum_threshold c.
Proof.
  intros Hwf Hnd. pose proof (weight_of_le_full c vs (committee_wf_votes c Hwf) Hnd) as Hle.
  destruct Hwf as (m & p & -> & Hb & Hpos).
  destruct (committee_new_thresholds m p Hb Hpos) as [Hq _]. rewrite Hq. simpl in Hle.
  unfold max_faulty. pose proof (Z.div_mod (full_weight m - 1) 3 ltac:(lia)).
  pose proof (Z.mod_pos_bound (full_weight m - 1) 3 ltac:(lia)). lia.
Qed.

(** One call: it does not panic; an error leaves the signatures alone; a
    certificate is returned only once and is the valid partial one. *)
Lemma append_wf done v s a :
  aggregator_wf done a ->
  match append v s a with
  | Ok (o, a') =>
      agg_committee a' = agg_committee a /\
      cert_value (agg_partial a') = cert_value (agg_partial a) /\
      cert_round (agg_partial a') = cert_round (agg_partial a) /\
      cert_signatures (agg_partial a') ≡ₚ (v, s) :: cert_signatures (agg_partial a) /\
      match o with
      | None => aggregator_wf done a'
      | Some cert =>
          done = 0 /\ cert = agg_partial a' /\
          quorum_threshold (agg_committee a) <=
            weight_of (agg_committee a) (cert_signatures cert).*1 /\
          aggregator_wf (weight_of (agg_committee a) (cert_signatures cert).*1) a'
      end
  | Err (_, a') =>
      aggregator_wf done a' /\ agg_committee a' = agg_committee a /\
      agg_partial a' = agg_partial a /\ agg_weight a' = agg_weight a
  | Panic => False
  end.
Proof.
  intros Ha. pose proof Ha as (Hwf & Hs & Hused & Hver & Hw & Hlt & Hdone).
  unfold append, signature_check.
  destruct (dalek_verify _ _ _) eqn:Hv; simpl; [|done].
  case_bool_decide as Hfresh; simpl; [|done].
  destruct (Z.ltb_spec 0 (weight (agg_committee a) v)) as [Hpos|]; simpl.
  2:{ split_and!; try done. unfold aggregator_wf. simpl. split_and!; try done; try lia.
      eapply Forall_impl; [exact Hused|]. simpl. set_solver. }
  assert (v ∉ (cert_signatures (agg_partial a)).*1) as Hnew.
  { intros Hin. rewrite Forall_forall in Hused. by apply Hused in Hin as [? _]. }
  destruct (add_signature_spec (E := ChainError * SignatureAggregator) v s (agg_partial a) Hs Hnew)
    as (partial & -> & Hpv & Hpr & Hperm & Hs'). simpl.
  assert (weight_of (agg_committee a) (cert_signatures partial).*1 =
    weight (agg_committee a) v + weight_of (agg_committee a) (cert_signatures (agg_partial a)).*1)
    as Hweight.
  { rewrite (weight_of_perm _ _ _ (fmap_Permutation fst _ _ Hperm)). done. }
  pose proof (weight_of_bounded _ _ Hwf (sorted_NoDup _ Hs')) as Hbound.
  pose proof (quorum_majority _ _ Hwf (sorted_NoDup _ Hs')) as Hmaj.
  pose proof (quorum_pos _ Hwf) as Hq.
  rewrite wrapping_add_small by (destruct Hdone; lia).
  assert (Forall (fun v' => v' ∈ {[v]} ∪ agg_used_validators a /\ 0 < weight (agg_committee a) v')
    (cert_signatures partial).*1) as Hused'.
  { rewrite Hperm. constructor; [split; [set_solver|done]|].
    eapply Forall_impl; [exact Hused|]. simpl. set_solver. }
  assert (Forall (fun '(v, s) => dalek_verify v
    (ValueHashAndRound (hv_hash (cert_value partial)) (cert_round partial)) s = true)
    (cert_signatures partial)) as Hver'.
  { rewrite Hperm, Hpv, Hpr. by constructor. }
  destruct (Z.leb_spec (quorum_threshold (agg_committee a))
    (agg_weight a + weight (agg_committee a) v)) as [Hge|Hlt']; simpl.
  - assert (done = 0) as -> by (destruct Hdone; lia).
    split_and!; try done; [lia|]. split_and!; simpl; try done; [lia|right; lia].
  - split_and!; try done. split_and!; simpl; try done; lia.
Qed.

(** Appending several signatures; after an error the aggregator is used as the
    failed call left it. *)
Definition aggregate_step (p : ValidatorName * Signature)
    (acc : list Certificate * SignatureAggregator)
    : result Empty_set (list Certificate * SignatureAggregator) :=
  let '(certs, a) := acc in
  match append p.1 p.2 a with
  | Ok (o, a') => Ok (certs ++ option_list o, a')
  | Err (_, a') => Ok (certs, a')
  | Panic => Panic
  end.

Definition aggregate (value : HashedValue) (round : RoundNumber) (c : Committee)
    (l : list (ValidatorName * Signature))
    : result Empty_set (list Certificate * SignatureAggregator) :=
  for_each aggregate_step l ([], aggregator_new value round c).

(** The certificates returned so far: none, or one that is valid. *)
Definition aggregated (value : HashedValue) (round : RoundNumber) (c : Committee)
    (acc : list Certificate * SignatureAggregator) : Prop :=
  let '(certs, a) := acc in
  agg_committee a = c /\ cert_value (agg_partial a) = value /\
  cert_round (agg_partial a) = round /\
  exists done, aggregator_wf done a /\
    (certs = [] /\ done = 0 \/
     exists cert, certs = [cert] /\ done <> 0 /\ cert_value cert = value /\
       cert_round cert = round /\ is_strictly_ordered (cert_signatures cert) = true /\
       certificate_check cert c = Ok value).

Lemma aggregate_step_wf value round c p acc :
  aggregated value round c acc ->
  exists acc', aggregate_step p acc = Ok acc' /\ aggregated value round c acc'.
Proof.
  destruct acc as [certs a], p as [v s]. intros (Hc & Hv & Hr & done & Hwf & Hcerts).
  pose proof (append_wf done v s a Hwf) as Hap. simpl.
  destruct (append v s a) as [[o a']|[e a']|]; [| |done].
  - destruct Hap as (Hc' & Hv' & Hr' & _ & Ho). eexists. split; [reflexivity|].
    destruct o as [cert|]; simpl; rewrite Hc', Hv', Hr'; (split_and!; [done..|]).
    + destruct Ho as (-> & -> & Hq & Hwf').
      destruct Hcerts as [[-> _]|(? & _ & ? & _)]; [|done].
      eexists. split; [exact Hwf'|]. right. eexists. rewrite Hv', Hr'. split_and!; try done.
      * pose proof (quorum_pos _ (proj1 Hwf)). lia.
      * apply is_strictly_ordered_sorted. by destruct Hwf' as (_ & ? & _).
      * apply certificate_check_Ok. rewrite Hv'. split; [done|].
        destruct Hwf' as (Hw & Hs & Hu & Hver & _). rewrite Hc' in *. subst c.
        apply check_signatures_valid; [done|]. simpl. split_and!; [by apply sorted_NoDup| |done|done].
        eapply Forall_impl; [exact Hu|]. by intros ? [_ ?].
    + exists done. split; [done|]. by rewrite app_nil_r.
  - destruct Hap as (Hwf' & Hc' & Hp' & _). eexists. split; [reflexivity|].
    simpl. rewrite Hc', Hp'. split_and!; [done..|]. by exists done.
Qed.

Lemma aggregate_wf value round c l acc :
  aggregated value round c acc ->
  exists acc', for_each aggregate_step l acc = Ok acc' /\ aggregated value round c acc'.
Proof.
  revert acc. induction l as [|p l IH]; intros acc Hacc; simpl; [by exists acc|].
  destruct (aggregate_step_wf value round c p acc Hacc) as (acc' & -> & Hacc'). by apply IH.
Qed.

Lemma append_accepts done v s a :
  aggregator_wf done a ->
  dalek_verify v
    (ValueHashAndRound (hv_hash (cert_value (agg_partial a))) (cert_round (agg_partial a))) s = true ->
  v ∉ agg_used_validators a -> 0 < weight (agg_committee a) v ->
  exists o a', append v s a = Ok (o, a') /\
    agg_used_validators a' = {[v]} ∪ agg_used_validators a.
Proof.
  intros (_ & Hs & Hused & _) Hv Hfresh Hpos. unfold append, signature_check. rewrite Hv. simpl.
  rewrite bool_decide_eq_true_2 by done. simpl.
  destruct (Z.ltb_spec 0 (weight (agg_committee a) v)); [|lia]. simpl.
  destruct (add_signature_spec (E := ChainError * SignatureAggregator) v s (agg_partial a) Hs)
    as (partial & -> & _).
  { intros Hin. rewrite Forall_forall in Hused. by apply Hused in Hin as [? _]. }
  simpl. case_match; eauto.
Qed.

Lemma aggregate_collects value round c l certs a certs' a' :
  aggregated value round c (certs, a) ->
  Forall (fun '(v, s) => 0 < weight c v /\ v ∉ agg_used_validators a /\
    dalek_verify v (ValueHashAndRound (hv_hash value) round) s = true) l ->
  NoDup l.*1 -> for_each aggregate_step l (certs, a) = Ok (certs', a') ->
  cert_signatures (agg_partial a') ≡ₚ l ++ cert_signatures (agg_partial a).
Proof.
  revert certs a. induction l as [|[v s] l IH]; intros certs a Hacc Hall Hnd; simpl.
  { by intros [= <- <-]. }
  apply Forall_cons in Hall as [(Hpos & Hfresh & Hver) Hall].
  simpl in Hnd. apply NoDup_cons in Hnd as [Hnin Hnd].
  pose proof Hacc as (Hc & Hv & Hr & done & Hwf & _). subst.
  destruct (append_accepts done v s a Hwf Hver Hfresh Hpos) as (o & a1 & Hap & Hused).
  pose proof (append_wf done v s a Hwf) as Hstep.
  destruct (aggregate_step_wf _ _ _ (v, s) _ Hacc) as (acc' & Heq & Hacc').
  unfold aggregate_step in Heq. simpl in Heq. rewrite Hap in Hstep, Heq. injection Heq as <-.
  rewrite Hap. simpl. destruct Hstep as (_ & _ & _ & Hperm & _).
  intros Hl. rewrite (IH _ _ Hacc'); [|clear IH|done|done].
  - rewrite Hperm. by rewrite Permutation_middle.
  - rewrite Hused. apply Forall_forall. intros [v' s'] Hin. rewrite Forall_forall in Hall.
    destruct (Hall _ Hin) as (? & ? & ?). split_and!; try done.
    apply (list_elem_of_fmap_2 fst) in Hin. simpl in Hin.
    assert (v' <> v) by (intros ->; done). set_solver.
Qed.

Lemma aggregated_new value round c :
  committee_wf c -> aggregated value round c ([], aggregator_new value round c).
Proof.
  intros Hwf. simpl. split_and!; [done..|]. exists 0. split; [by apply aggregator_new_wf|by left].
Qed.

(** C35: The aggregator is safe.  Whatever signatures are appended, valid or not
    and by whom, no call panics, at most one certificate is ever returned, and
    that certificate is for the given value and round, is sorted as the wire
    format requires, and passes [check]. *)
Theorem aggregator_sound value round c l :
  committee_wf c ->
  exists certs a, aggregate value round c l = Ok (certs, a) /\ (length certs <= 1)%nat /\
    forall cert, cert ∈ certs ->
      cert_value cert = value /\ cert_round cert = round /\
      is_strictly_ordered (cert_signatures cert) = true /\
      certificate_check cert c = Ok value.
Proof.
  intros Hwf. destruct (aggregate_wf value round c l _ (aggregated_new value round c Hwf))
    as ([certs a] & Heq & _ & _ & _ & done & _ & Hcerts).
  exists certs, a. split; [done|]. destruct Hcerts as [[-> _]|(cert & -> & _ & Hcert)].
  - split; [simpl; lia|]. intros cert []%not_elem_of_nil.
  - split; [simpl; lia|]. by intros cert' ->%list_elem_of_singleton.
Qed.

(** The aggregator is live.  Valid signatures by distinct members of the
    committee that reach the quorum produce a certificate. *)
Theorem aggregator_complete value round c l :
  committee_wf c -> NoDup l.*1 ->
  Forall (fun '(v, s) => 0 < weight c v /\
    dalek_verify v (ValueHashAndRound (hv_hash value) round) s = true) l ->
  quorum_threshold c <= weight_of c l.*1 ->
  exists cert a, aggregate value round c l = Ok ([cert], a).
Proof.
  intros Hwf Hnd Hall Hq. pose proof (aggregated_new value round c Hwf) as Hnew.
  destruct (aggregate_wf value round c l _ Hnew) as ([certs a] & Heq & Hacc).
  unfold aggregate. rewrite Heq.
  pose proof (aggregate_collects value round c l _ _ certs a Hnew) as Hperm.
  cbn [cert_signatures agg_partial aggregator_new] in Hperm. rewrite app_nil_r in Hperm.
  destruct Hacc as (Hc & _ & _ & done & Hwfa & [[-> ->]|(cert & -> & _)]); [|eauto].
  exfalso. destruct Hwfa as (_ & _ & _ & _ & Hw & Hlt & _). rewrite Hc in *.
  rewrite (weight_of_perm c _ l.*1) in Hw; [lia|]. apply fmap_Permutation, Hperm; try done.
  eapply Forall_impl; [exact Hall|]. intros [v s] [??]. split_and!; [done|set_solver|done].
Qed.

(** Converting a certificate to its light form and back with its value gives
    the certificate; a light certificate combined with any other value with
    another hash is refused. *)
Theorem lite_certificate_roundtrip cert value cert' :
  lite_with_value (lite_certificate cert) (cert_value cert) = Some cert /\
  (lite_with_value (lite_certificate cert) value = Some cert' ->
   hv_hash value = hv_hash (cert_value cert) /\ cert_value cert' = value /\
   cert_round cert' = cert_round cert /\ cert_signatures cert' = cert_signatures cert).
Proof.
  unfold lite_with_value. simpl. split.
  - rewrite !Z.eqb_refl. simpl. by destruct cert.
  - destruct (Z.eqb_spec (value_chain_id (hv_value (cert_value cert))) (value_chain_id (hv_value value))); [|done].
    destruct (Z.eqb_spec (hv_hash (cert_value cert)) (hv_hash value)); [|done].
    simpl. by intros [= <-].
Qed.

End check.

(** ** Membership, messages and light certificates *)

(** The sorted list of signatures is a set: [is_signed_by] finds exactly the
    signatories, and [add_signature] of a new one adds it, keeps the list
    sorted and does not panic. *)
Theorem signatures_as_set cert v w s :
  is_strictly_ordered (cert_signatures cert) = true ->
  (is_signed_by cert v = true <-> v ∈ (cert_signatures cert).*1) /\
  (is_signed_by cert w = false ->
   exists cert', add_signature (E := ChainError) (w, s) cert = Ok cert' /\
     is_strictly_ordered (cert_signatures cert') = true /\
     cert_signatures cert' ≡ₚ (w, s) :: cert_signatures cert).
Proof.
  intros Hs%is_strictly_ordered_sorted.
  assert (forall v, is_signed_by cert v = true <-> v ∈ (cert_signatures cert).*1) as Hmem.
  { intros u. unfold is_signed_by. pose proof (binary_search_spec u _ Hs) as Hb.
    destruct (binary_search_by _ _) as [i|i|]; simpl in *; [|..|done].
    - destruct Hb as (p & Hl & <-). split; [|done]. intros _.
      apply list_elem_of_lookup_2 in Hl. by apply (list_elem_of_fmap_2 fst) in Hl.
    - split; [done|]. intros (p & -> & Hp)%(list_elem_of_fmap_1 fst).
      apply list_elem_of_lookup_1 in Hp as [j Hj]. destruct Hb as (_ & Hlt & Hgt).
      destruct (decide (j < i)%nat) as [Hji|Hji].
      + specialize (Hlt j p Hji Hj). lia.
      + specialize (Hgt j p ltac:(lia) Hj). lia. }
  split; [apply Hmem|]. intros Hw.
  destruct (add_signature_spec (E := ChainError) w s cert Hs) as (cert' & ? & _ & _ & ? & ?).
  { rewrite <- Hmem. by rewrite Hw. }
  exists cert'. by rewrite is_strictly_ordered_sorted.
Qed.

(** The counts of a block are cumulative and bounded by its messages. *)
Definition message_counts_wf (eb : ExecutedBlock) : Prop :=
  StronglySorted Z.le (eb_message_counts eb) /\
  Forall (fun n => 0 <= n <= Z.of_nat (length (eb_messages eb))) (eb_message_counts eb).

(** A message id computed for an operation names a message of the block
    that the operation itself created: it lies at or after the messages of the
    earlier transactions and before those of the later ones. *)
Theorem message_id_for_operation_valid eb i k id :
  message_counts_wf eb -> 0 <= i -> 0 <= k ->
  message_id_for_operation eb i k = Some id ->
  has_message (ConfirmedBlock eb) id = true /\
  (forall j n, (j <= length (block_incoming_messages (eb_block eb)) + Z.to_nat i - 1)%nat ->
     (0 < length (block_incoming_messages (eb_block eb)) + Z.to_nat i)%nat ->
     eb_message_counts eb !! j = Some n -> n <= mid_index id) /\
  (forall j n, (length (block_incoming_messages (eb_block eb)) + Z.to_nat i <= j)%nat ->
     eb_message_counts eb !! j = Some n -> mid_index id < n).
Proof.
  intros [Hs Hb] Hi Hk. set (t := length (block_incoming_messages (eb_block eb))).
  assert (forall a b x y, (a <= b)%nat -> eb_message_counts eb !! a = Some x ->
    eb_message_counts eb !! b = Some y -> x <= y) as Hmono.
  { clear -Hs. induction Hs as [|z l Hs IH Hall]; intros a b x y Hab Ha Hy; [done|].
    destruct a as [|a], b as [|b]; simpl in *; simplify_eq; [lia| |lia|].
    - rewrite Forall_forall in Hall. apply Hall. by eapply list_elem_of_lookup_2.
    - eapply (IH a b); [lia|done..]. }
  unfold message_id_for_operation. fold t.
  destruct (checked_add u64_MAX (Z.of_nat t) i) as [tr|] eqn:Htr; [|done]. simpl.
  apply checked_add_Some in Htr as [-> _].
  destruct (match checked_sub (Z.of_nat t + i) 1 with
    | Some index => eb_message_counts eb !! Z.to_nat index | None => Some 0 end)
    as [first|] eqn:Hfirst; [|done]. simpl.
  destruct (checked_add u32_MAX first k) as [idx|] eqn:Hidx; [|done]. simpl.
  apply checked_add_Some in Hidx as [-> _].
  destruct (eb_message_counts eb !! Z.to_nat (Z.of_nat t + i)) as [nxt|] eqn:Hnxt; [|done]. simpl.
  destruct (Z.ltb_spec (first + k) nxt) as [Hlt|]; [|done]. intros [= <-].
  replace (Z.to_nat (Z.of_nat t + i)) with (t + Z.to_nat i)%nat in Hnxt by lia.
  split_and!.
  - unfold has_message. simpl. rewrite !Z.eqb_refl. simpl. apply Z.ltb_lt.
    rewrite Forall_forall in Hb. destruct (Hb nxt); [by eapply list_elem_of_lookup_2|]. lia.
  - intros j n Hj Hpos Hn. simpl. destruct (checked_sub _ 1) as [x|] eqn:Hx.
    + apply checked_sub_Some in Hx as [-> ?].
      assert (n <= first); [|lia]. eapply Hmono; [|exact Hn|exact Hfirst]. lia.
    + unfold checked_sub in Hx. destruct (Z.leb_spec 1 (Z.of_nat t + i)); [done|]. lia.
  - intros j n Hj Hn. simpl. assert (nxt <= n); [|lia]. by eapply Hmono.
Qed.

Lemma sort_signatures_perm l : sort_signatures l ≡ₚ l.
Proof. unfold sort_signatures. case_match; [apply merge_sort_Permutation|done]. Qed.

Lemma sort_signatures_sorted l :
  NoDup l.*1 -> StronglySorted Z.lt (sort_signatures l).*1.
Proof.
  intros Hnd. unfold sort_signatures.
  destruct (is_strictly_ordered l) eqn:Hord; simpl; [by apply is_strictly_ordered_sorted|].
  assert (NoDup (merge_sort key_le l).*1) as Hnd' by by rewrite merge_sort_Permutation.
  assert (StronglySorted key_le (merge_sort key_le l)) as Hs
    by (apply StronglySorted_merge_sort; apply _).
  clear -Hs Hnd'. induction Hs as [|p l' Hs IH Hle]; [constructor|].
  simpl in *. apply NoDup_cons in Hnd' as [Hnin Hnd]. constructor; [by apply IH|].
  apply Forall_forall. intros v Hv. pose proof Hv as (q & -> & Hin)%(list_elem_of_fmap_1 fst).
  rewrite Forall_forall in Hle. specialize (Hle q Hin). unfold key_le in Hle.
  assert (p.1 <> q.1) by (intros Heq; rewrite Heq in Hnin; done). lia.
Qed.

(** Light votes by distinct committee members that agree on a value and a
    round, check individually and reach the quorum assemble into a light
    certificate that checks. *)
Theorem try_from_votes_valid `{Crypto, !CryptoLaws _} votes c cert :
  committee_wf c -> NoDup (lvote_validator <$> votes) ->
  Forall (fun v => lite_vote_check v = Ok () /\ 0 < weight c (lvote_validator v)) votes ->
  quorum_threshold c <= weight_of c (lvote_validator <$> votes) ->
  try_from_votes votes = Some cert ->
  lite_certificate_check cert c = Ok (lcert_value cert) /\
  is_strictly_ordered (lcert_signatures cert) = true.
Proof.
  intros Hwf Hnd Hall Hq. unfold try_from_votes. destruct votes as [|vote votes]; [done|].
  destruct (forallb _ votes) eqn:Hsame; [|done]. intros <-%(inj Some).
  assert (((fun v => (lvote_validator v, lvote_signature v)) <$> vote :: votes).*1 =
    lvote_validator <$> vote :: votes) as Hnames by by rewrite <- list_fmap_compose.
  split; [|apply is_strictly_ordered_sorted, sort_signatures_sorted; by rewrite Hnames].
  unfold lite_certificate_check. rewrite (proj2 (check_signatures_valid _ _ _ _ Hwf)); [done|].
  eapply valid_signatures_perm; [symmetry; apply sort_signatures_perm|].
  unfold valid_signatures. rewrite Hnames. split_and!; [done| |done|].
  - apply Forall_fmap. eapply Forall_impl; [exact Hall|]. by intros v [_ ?].
  - apply Forall_fmap, Forall_forall. intros v Hv. simpl.
    rewrite Forall_forall in Hall. destruct (Hall v Hv) as [Hc _].
    unfold lite_vote_check, signature_check in Hc. inv_result.
    assert (lv_value_hash (lvote_value v) = lv_value_hash (lvote_value vote) /\
      lvote_round v = lvote_round vote) as [<- <-]; [|done].
    apply elem_of_cons in Hv as [->|Hv]; [done|].
    apply list_elem_of_In in Hv. rewrite forallb_forall in Hsame. specialize (Hsame v Hv). lia.
Qed.

(** ** Examples *)

Module CertificateExamples.
Import SymbolicCrypto CommitteeExamples.

Definition committee : Committee := committee_new four free.
Definition value : HashedValue := hashed_from (LeaderTimeout 9 1 0).
Definition signatures (ks : list KeyPair) : list (ValidatorName * Signature) :=
  (fun k => (key_public k, signature_new (ValueHashAndRound (hv_hash value) 2) k)) <$> ks.

Lemma example_committee_ok : committee_wf committee.
Proof. exists four, free. split_and!; [done|apply four_bounded|by vm_compute]. Qed.

Lemma check_signatures_spec_witness :
  check_signatures (hashed_lite value) 2 (signatures [1; 2; 4]) committee = Ok () /\
  NoDup (signatures [1; 2; 4]).*1.
Proof.
  split; [vm_compute; reflexivity|].
  apply (check_signatures_spec (hashed_lite value) 2 (signatures [1; 2; 4]) committee example_committee_ok).
  vm_compute. reflexivity.
Defined.

(** A wrong signature and a repeated one are ignored. *)
Definition noisy : list (ValidatorName * Signature) :=
  signatures [3; 1] ++ [(2, 5)] ++ signatures [3; 2; 4].

Lemma aggregator_sound_witness :
  exists certs a, aggregate value 2 committee noisy = Ok (certs, a) /\ (length certs <= 1)%nat /\
    forall cert, cert ∈ certs ->
      cert_value cert = value /\ cert_round cert = 2 /\
      is_strictly_ordered (cert_signatures cert) = true /\
      certificate_check cert committee = Ok value.
Proof. apply (aggregator_sound value 2 committee noisy example_committee_ok). Defined.

Lemma aggregator_complete_witness :
  exists cert a, aggregate value 2 committee (signatures [4; 1; 3]) = Ok ([cert], a).
Proof.
  apply (aggregator_complete value 2 committee (signatures [4; 1; 3]) example_committee_ok).
  - decide_now.
  - repeat constructor; vm_compute; reflexivity.
  - vm_compute. discriminate.
Defined.

Definition partial : Certificate :=
  {| cert_value := value; cert_round := 2; cert_signatures := signatures [1; 3] |}.

Lemma signatures_as_set_witness :
  (is_signed_by partial 3 = true <-> 3 ∈ (cert_signatures partial).*1) /\
  (is_signed_by partial 2 = false ->
   exists cert', add_signature (E := ChainError) (2, 77) partial = Ok cert' /\
     is_strictly_ordered (cert_signatures cert') = true /\
     cert_signatures cert' ≡ₚ (2, 77) :: cert_signatures partial).
Proof. apply (signatures_as_set partial 3 2 77). vm_compute. reflexivity. Defined.

Definition block : Block :=
  {| block_chain_id := 9; block_epoch := 0; block_incoming_messages := [];
     block_operations := [SystemOp OpCloseChain; SystemOp OpCloseChain]; block_height := 1;
     block_timestamp := 0; block_authenticated_signer := None;
     block_previous_block_hash := None |}.
Definition message : OutgoingMessage :=
  {| out_destination := Recipient 8; out_authenticated_signer := None;
     out_is_skippable := false; out_message := SystemMsg (MsgNotify 8) |}.
Definition executed : ExecutedBlock :=
  {| eb_block := block; eb_messages := [message; message; message];
     eb_message_counts := [1; 3]; eb_state_hash := 0 |}.

Lemma message_id_for_operation_valid_witness :
  has_message (ConfirmedBlock executed)
    {| mid_chain_id := 9; mid_height := 1; mid_index := 2 |} = true.
Proof.
  apply (message_id_for_operation_valid executed 1 1); [|lia|lia|vm_compute; reflexivity].
  split; repeat constructor; simpl; lia.
Defined.

Definition light_votes : list LiteVote :=
  (fun k => lite_vote_new (hashed_lite value) 2 k) <$> [2; 1; 3].

Lemma try_from_votes_valid_witness :
  exists cert, try_from_votes light_votes = Some cert /\
    lite_certificate_check cert committee = Ok (lcert_value cert) /\
    is_strictly_ordered (lcert_signatures cert) = true.
Proof.
  eexists. split; [reflexivity|].
  apply (try_from_votes_valid light_votes committee _ example_committee_ok).
  - decide_now.
  - repeat constructor; vm_compute; reflexivity.
  - vm_compute. discriminate.
  - reflexivity.
Defined.

End CertificateExamples.
