(* ===== verification/Managers.v ===== *)
(** * Chain managers

    [linera-chain/src/manager]: the consensus state of a chain at one height,
    with a single owner ([single.rs]), several owners ([multi.rs]) or none, and
    their common interface ([mod.rs]).  Methods that take [&mut self] return
    the new manager.

    The weighted sampling of round leaders (the [rand_distr] and [rand_chacha]
    crates) is the class [LeaderSampling]: whether a list of weights is
    accepted, and the index sampled from the weights with a seed. *)

From S2P Require Import Prelude Numbers Types Crypto Committees Policy Errors Certificates.

Class LeaderSampling := {
  weights_accepted : list Z -> bool;
  sample_index : list Z -> Z -> nat;
}.

Inductive Outcome := Accept | Skip.

(** [Iterator::max_by_key]: the last of the greatest elements. *)
Definition max_by_key {A} (key : A -> Z) (l : list A) : option A :=
  foldl (fun best x =>
    match best with
    | None => Some x
    | Some b => if key x <? key b then Some b else Some x
    end) None l.

(** ** One owner: [single.rs] *)

Record SingleOwnerManager := {
  single_owner : Owner;
  single_public_key : PublicKey;
  single_pending : option Vote;
}.

Definition single_new (owner : Owner) (public_key : PublicKey) : SingleOwnerManager :=
  {| single_owner := owner; single_public_key := public_key; single_pending := None |}.

Definition single_check_proposed_block (self : SingleOwnerManager) (proposal : BlockProposal)
    : result ChainError Outcome :=
  let new_block := bar_block (prop_content proposal) in
  let new_round := bar_round (prop_content proposal) in
  ensure (bool_decide (prop_validated proposal = None)) InvalidBlockProposal ;;
  ensure ((new_round =? 0) && bool_decide (prop_validated proposal = None))
    InvalidBlockProposal ;;
  match single_pending self with
  | Some vote =>
      match hv_value (vote_value vote) with
      | ConfirmedBlock executed_block =>
          if bool_decide (eb_block executed_block = new_block) then Ok Skip
          else Err PreviousBlockMustBeConfirmedFirst
      | _ => Err InternalError
      end
  | None => Ok Accept
  end.

Definition single_create_vote `{Crypto} (proposal : BlockProposal)
    (outcome : BlockExecutionOutcome) (key_pair : option KeyPair) (self : SingleOwnerManager)
    : SingleOwnerManager :=
  match key_pair with
  | Some key_pair =>
      let round := bar_round (prop_content proposal) in
      if negb (round =? 0) then self
      else
        let executed_block := outcome_with outcome (bar_block (prop_content proposal)) in
        let value := hashed_from (ConfirmedBlock executed_block) in
        {| single_owner := single_owner self;
           single_public_key := single_public_key self;
           single_pending := Some (vote_new value round key_pair) |}
  | None => self
  end.

Definition single_verify_owner (self : SingleOwnerManager) (proposal : BlockProposal)
    : option PublicKey :=
  if single_owner self =? prop_owner proposal then Some (single_public_key self) else None.

Record SingleOwnerManagerInfo := {
  sinfo_owner : Owner;
  sinfo_public_key : PublicKey;
  sinfo_pending : option LiteVote;
  sinfo_requested_pending_value : option HashedValue;
}.

Definition single_info (manager : SingleOwnerManager) : SingleOwnerManagerInfo :=
  {| sinfo_owner := single_owner manager;
     sinfo_public_key := single_public_key manager;
     sinfo_pending := vote_lite <$> single_pending manager;
     sinfo_requested_pending_value := None |}.

Definition single_add_values (manager : SingleOwnerManager) (self : SingleOwnerManagerInfo)
    : SingleOwnerManagerInfo :=
  {| sinfo_owner := sinfo_owner self;
     sinfo_public_key := sinfo_public_key self;
     sinfo_pending := sinfo_pending self;
     sinfo_requested_pending_value := vote_value <$> single_pending manager |}.

(** ** Several owners: [multi.rs] *)

Definition TIMEOUT : Duration := duration_from_secs 10.

(** The distribution is represented by the weights it was built from. *)
Record MultiOwnerManager := {
  public_keys : gmap Owner (PublicKey * Z);
  multi_leader_rounds : RoundNumber;
  seed : Z;
  distribution : list Z;
  proposed : option BlockProposal;
  locked : option Certificate;
  leader_timeout : option Certificate;
  pending : option Vote;
  timeout_vote : option Vote;
  round_timeout : Timestamp;
}.

Section multi.
Context `{Crypto, LeaderSampling}.

Definition multi_new (public_keys : gmap Owner (PublicKey * Z))
    (multi_leader_rounds : RoundNumber) (seed : Z) (now : Timestamp)
    : result ChainError MultiOwnerManager :=
  let weights := (fun '(_, (_, weight)) => weight) <$> btree_iter public_keys in
  ensure (weights_accepted weights) OwnerWeightError ;;
  Ok {| public_keys := public_keys;
        multi_leader_rounds := multi_leader_rounds;
        seed := seed;
        distribution := weights;
        proposed := None;
        locked := None;
        leader_timeout := None;
        pending := None;
        timeout_vote := None;
        round_timeout := timestamp_saturating_add now TIMEOUT |}.

(** [RoundNumber::try_add_one] followed by [unwrap_or(RoundNumber::MAX)]. *)
Definition next_round_or_max (round : RoundNumber) : RoundNumber :=
  match try_add_one u32_MAX round with Ok r => r | _ => u32_MAX end.

Definition multi_current_round (self : MultiOwnerManager) : RoundNumber :=
  let rounds :=
    option_list ((fun certificate => next_round_or_max (cert_round certificate)) <$>
      leader_timeout self) ++
    option_list (cert_round <$> locked self) ++
    option_list ((fun proposal => bar_round (prop_content proposal)) <$> proposed self) in
  default 0 (max_by_key (fun r => r) rounds).

Definition multi_check_proposed_block (self : MultiOwnerManager) (proposal : BlockProposal)
    : result ChainError Outcome :=
  let new_round := bar_round (prop_content proposal) in
  let new_block := bar_block (prop_content proposal) in
  let validated := prop_validated proposal in
  match validated with
  | Some validated =>
      ensure (is_validated (hv_value (cert_value validated))) InvalidBlockProposal
  | None => Ok ()
  end ;;
  expected_round ←
    match validated with
    | None => Ok (multi_current_round self)
    | Some cert =>
        next ← map_err ChainArithmeticError (try_add_one u32_MAX (cert_round cert));
        Ok (Z.max next (multi_current_round self))
    end;
  (if multi_leader_rounds self <? new_round then
     ensure (expected_round =? new_round) (WrongRound expected_round)
   else
     ensure (expected_round <=? new_round) (InsufficientRound expected_round)) ;;
  let locked_check : result ChainError Outcome :=
    match max_by_key cert_round (option_list validated ++ option_list (locked self)) with
    | Some locked =>
        block ← ok_or (value_block (hv_value (cert_value locked))) InternalError;
        ensure ((cert_round locked <? new_round) && bool_decide (block = new_block))
          (HasLockedBlock (block_height block) (cert_round locked)) ;;
        Ok Accept
    | None => Ok Accept
    end in
  match proposed self with
  | Some old_proposal =>
      if bool_decide (prop_content old_proposal = prop_content proposal) then Ok Skip
      else if new_round <=? bar_round (prop_content old_proposal) then
        Err (InsufficientRound (bar_round (prop_content old_proposal)))
      else locked_check
  | None => locked_check
  end.

Definition multi_vote_leader_timeout (chain_id : ChainId) (height : BlockHeight) (epoch : Epoch)
    (key_pair : option KeyPair) (now : Timestamp) (self : MultiOwnerManager)
    : bool * MultiOwnerManager :=
  match key_pair with
  | None => (false, self)
  | Some key_pair =>
      if now <? round_timeout self then (false, self)
      else
        let current_round := multi_current_round self in
        if match timeout_vote self with
           | Some vote => vote_round vote =? current_round
           | None => false
           end
        then (false, self)
        else
          let value := new_leader_timeout chain_id height epoch in
          (true,
           {| public_keys := public_keys self;
              multi_leader_rounds := multi_leader_rounds self;
              seed := seed self;
              distribution := distribution self;
              proposed := proposed self;
              locked := locked self;
              leader_timeout := leader_timeout self;
              pending := pending self;
              timeout_vote := Some (vote_new value current_round key_pair);
              round_timeout := round_timeout self |})
  end.

Definition multi_check_validated_block (self : MultiOwnerManager) (certificate : Certificate)
    : result ChainError Outcome :=
  let new_block := value_block (hv_value (cert_value certificate)) in
  let new_round := cert_round certificate in
  let locked_check : result ChainError Outcome :=
    match locked self with
    | Some locked =>
        ensure (cert_round locked <? new_round) (InsufficientRound (cert_round locked)) ;;
        Ok Accept
    | None => Ok Accept
    end in
  match pending self with
  | Some vote =>
      match hv_value (vote_value vote) with
      | ConfirmedBlock executed_block =>
          if bool_decide (Some (eb_block executed_block) = new_block) &&
             (vote_round vote =? new_round)
          then Ok Skip
          else locked_check
      | ValidatedBlock _ =>
          ensure (vote_round vote <=? new_round) (InsufficientRound (vote_round vote)) ;;
          locked_check
      | LeaderTimeout _ _ _ => Err InternalError
      end
  | None => locked_check
  end.

(** The manager with the consensus fields replaced. *)
Definition multi_update (self : MultiOwnerManager) (new_proposed : option BlockProposal)
    (new_locked new_leader_timeout : option Certificate) (new_pending : option Vote)
    (new_round_timeout : Timestamp) : MultiOwnerManager :=
  {| public_keys := public_keys self;
     multi_leader_rounds := multi_leader_rounds self;
     seed := seed self;
     distribution := distribution self;
     proposed := new_proposed;
     locked := new_locked;
     leader_timeout := new_leader_timeout;
     pending := new_pending;
     timeout_vote := timeout_vote self;
     round_timeout := new_round_timeout |}.

(** [update_timeout]: the new value of [round_timeout]. *)
Definition update_timeout (round : RoundNumber) (now : Timestamp) (self : MultiOwnerManager)
    : Timestamp :=
  if multi_current_round self <=? round then
    let factor := saturating_add u32_MAX round 2 in
    timestamp_saturating_add now (duration_saturating_mul TIMEOUT factor)
  else round_timeout self.

Definition multi_create_vote (proposal : BlockProposal) (outcome : BlockExecutionOutcome)
    (key_pair : option KeyPair) (now : Timestamp) (self : MultiOwnerManager)
    : MultiOwnerManager :=
  let new_round_timeout :=
    match try_sub_one (bar_round (prop_content proposal)) with
    | Ok round => update_timeout round now self
    | _ => round_timeout self
    end in
  let new_locked :=
    match prop_validated proposal with
    | Some validated =>
        if match locked self with
           | None => true
           | Some locked => cert_round locked <? cert_round validated
           end
        then Some validated
        else locked self
    | None => locked self
    end in
  let new_pending :=
    match key_pair with
    | Some key_pair =>
        let executed_block := outcome_with outcome (bar_block (prop_content proposal)) in
        Some (vote_new (new_validated executed_block) (bar_round (prop_content proposal)) key_pair)
    | None => pending self
    end in
  multi_update self (Some proposal) new_locked (leader_timeout self) new_pending
    new_round_timeout.

Definition multi_create_final_vote (certificate : Certificate) (key_pair : option KeyPair)
    (now : Timestamp) (self : MultiOwnerManager) : MultiOwnerManager :=
  let round := cert_round certificate in
  if bool_decide (is_Some key_pair) && (round <? multi_current_round self) then self
  else
    match into_confirmed (cert_value certificate) with
    | None => self
    | Some value =>
        multi_update self (proposed self) (Some certificate) (leader_timeout self)
          (match key_pair with
           | Some key_pair => Some (vote_new value round key_pair)
           | None => pending self
           end)
          (update_timeout round now self)
    end.

Definition multi_handle_timeout_certificate (certificate : Certificate) (now : Timestamp)
    (self : MultiOwnerManager) : MultiOwnerManager :=
  if negb (is_timeout (hv_value (cert_value certificate))) then self
  else
    let round := cert_round certificate in
    if match leader_timeout self with
       | Some known_certificate => round <=? cert_round known_certificate
       | None => false
       end
    then self
    else
      multi_update self (proposed self) (locked self) (Some certificate) (pending self)
        (update_timeout round now self).

(** [u64::rotate_left(32)] followed by [wrapping_add]. *)
Definition leader_seed (self : MultiOwnerManager) (round : RoundNumber) : Z :=
  let rotated := Z.lor (Z.shiftl round 32 mod 2 ^ 64) (Z.shiftr round 32) in
  wrapping_add u64_MAX rotated (seed self).

Definition round_leader_index (self : MultiOwnerManager) (round : RoundNumber) : option nat :=
  Some (sample_index (distribution self) (leader_seed self round)).

Definition multi_verify_owner (self : MultiOwnerManager) (proposal : BlockProposal)
    : option PublicKey :=
  if bar_round (prop_content proposal) <? multi_leader_rounds self then
    '(key, _) ← public_keys self !! prop_owner proposal;
    Some key
  else
    index ← round_leader_index self (bar_round (prop_content proposal));
    '(leader, (key, _)) ← btree_iter (public_keys self) !! index;
    if leader =? prop_owner proposal then Some key else None.

Definition round_leader (self : MultiOwnerManager) (round : RoundNumber) : option Owner :=
  if round <? multi_leader_rounds self then None
  else
    index ← round_leader_index self round;
    fst <$> btree_iter (public_keys self) !! index.

Record MultiOwnerManagerInfo := {
  minfo_public_keys : gmap Owner (PublicKey * Z);
  minfo_multi_leader_rounds : RoundNumber;
  minfo_requested_proposed : option BlockProposal;
  minfo_requested_locked : option Certificate;
  minfo_leader_timeout : option Certificate;
  minfo_pending : option LiteVote;
  minfo_timeout_vote : option LiteVote;
  minfo_requested_pending_value : option HashedValue;
  minfo_current_round : RoundNumber;
  minfo_leader : option Owner;
  minfo_round_timeout : Timestamp;
}.

Definition multi_info (manager : MultiOwnerManager) : MultiOwnerManagerInfo :=
  let current_round := multi_current_round manager in
  {| minfo_public_keys := public_keys manager;
     minfo_multi_leader_rounds := multi_leader_rounds manager;
     minfo_requested_proposed := None;
     minfo_requested_locked := None;
     minfo_leader_timeout := leader_timeout manager;
     minfo_pending := vote_lite <$> pending manager;
     minfo_timeout_vote := vote_lite <$> timeout_vote manager;
     minfo_requested_pending_value := None;
     minfo_current_round := current_round;
     minfo_leader := round_leader manager current_round;
     minfo_round_timeout := round_timeout manager |}.

Definition multi_add_values (manager : MultiOwnerManager) (self : MultiOwnerManagerInfo)
    : MultiOwnerManagerInfo :=
  {| minfo_public_keys := minfo_public_keys self;
     minfo_multi_leader_rounds := minfo_multi_leader_rounds self;
     minfo_requested_proposed := proposed manager;
     minfo_requested_locked := locked manager;
     minfo_leader_timeout := minfo_leader_timeout self;
     minfo_pending := minfo_pending self;
     minfo_timeout_vote := minfo_timeout_vote self;
     minfo_requested_pending_value := vote_value <$> pending manager;
     minfo_current_round := minfo_current_round self;
     minfo_leader := minfo_leader self;
     minfo_round_timeout := minfo_round_timeout self |}.

Definition multi_highest_validated (self : MultiOwnerManagerInfo) : option Certificate :=
  max_by_key cert_round
    (option_list (minfo_requested_locked self) ++
     option_list (proposal ← minfo_requested_proposed self; prop_validated proposal)).

Definition multi_next_round (self : MultiOwnerManagerInfo) : option RoundNumber :=
  let proposal_round :=
    (fun proposal => bar_round (prop_content proposal)) <$> minfo_requested_proposed self in
  let locked_round := cert_round <$> minfo_requested_locked self in
  if negb (bool_decide (proposal_round = Some (minfo_current_round self))) &&
     negb (bool_decide (locked_round = Some (minfo_current_round self)))
  then Some (minfo_current_round self)
  else if minfo_current_round self <? minfo_multi_leader_rounds self then
    to_option (try_add_one u32_MAX (minfo_current_round self))
  else None.

End multi.

(** ** The manager of a chain: [mod.rs] *)

Inductive ChainManager :=
| ManagerNone
| ManagerSingle (manager : SingleOwnerManager)
| ManagerMulti (manager : MultiOwnerManager).

Section manager.
Context `{Crypto, LeaderSampling}.

Definition manager_reset (ownership : ChainOwnership) (height : BlockHeight) (now : Timestamp)
    : result ChainError ChainManager :=
  match ownership with
  | OwnershipNone => Ok ManagerNone
  | OwnershipSingle owner public_key => Ok (ManagerSingle (single_new owner public_key))
  | OwnershipMulti public_keys multi_leader_rounds =>
      ManagerMulti <$> multi_new public_keys multi_leader_rounds height now
  end.

Definition manager_is_active (self : ChainManager) : bool :=
  match self with ManagerNone => false | _ => true end.

Definition manager_verify_owner (self : ChainManager) (proposal : BlockProposal)
    : option PublicKey :=
  match self with
  | ManagerSingle manager => single_verify_owner manager proposal
  | ManagerMulti manager => multi_verify_owner manager proposal
  | ManagerNone => None
  end.

Definition manager_current_round (self : ChainManager) : RoundNumber :=
  match self with
  | ManagerMulti manager => multi_current_round manager
  | ManagerNone | ManagerSingle _ => 0
  end.

Definition manager_pending (self : ChainManager) : option Vote :=
  match self with
  | ManagerSingle manager => single_pending manager
  | ManagerMulti manager => pending manager
  | ManagerNone => None
  end.

Definition manager_vote_leader_timeout (chain_id : ChainId) (height : BlockHeight)
    (epoch : Epoch) (key_pair : option KeyPair) (now : Timestamp) (self : ChainManager)
    : bool * ChainManager :=
  match self with
  | ManagerMulti manager =>
      let '(changed, manager) :=
        multi_vote_leader_timeout chain_id height epoch key_pair now manager in
      (changed, ManagerMulti manager)
  | ManagerSingle _ | ManagerNone => (false, self)
  end.

Definition manager_check_proposed_block (self : ChainManager) (proposal : BlockProposal)
    : result ChainError Outcome :=
  ensure (block_height (bar_block (prop_content proposal)) <? u64_MAX) InvalidBlockHeight ;;
  match self with
  | ManagerSingle manager => single_check_proposed_block manager proposal
  | ManagerMulti manager => multi_check_proposed_block manager proposal
  | ManagerNone => Panic
  end.

Definition manager_check_validated_block (self : ChainManager) (certificate : Certificate)
    : result ChainError Outcome :=
  match self with
  | ManagerMulti manager => multi_check_validated_block manager certificate
  | ManagerNone | ManagerSingle _ => Panic
  end.

Definition manager_create_vote (proposal : BlockProposal) (outcome : BlockExecutionOutcome)
    (key_pair : option KeyPair) (now : Timestamp) (self : ChainManager)
    : result ChainError ChainManager :=
  match self with
  | ManagerSingle manager =>
      Ok (ManagerSingle (single_create_vote proposal outcome key_pair manager))
  | ManagerMulti manager =>
      Ok (ManagerMulti (multi_create_vote proposal outcome key_pair now manager))
  | ManagerNone => Panic
  end.

Definition manager_create_final_vote (certificate : Certificate) (key_pair : option KeyPair)
    (now : Timestamp) (self : ChainManager) : result ChainError ChainManager :=
  match self with
  | ManagerMulti manager =>
      Ok (ManagerMulti (multi_create_final_vote certificate key_pair now manager))
  | ManagerNone | ManagerSingle _ => Panic
  end.

Definition manager_handle_timeout_certificate (certificate : Certificate) (now : Timestamp)
    (self : ChainManager) : result ChainError ChainManager :=
  match self with
  | ManagerMulti manager =>
      Ok (ManagerMulti (multi_handle_timeout_certificate certificate now manager))
  | ManagerNone | ManagerSingle _ => Panic
  end.

Inductive ChainManagerInfo :=
| InfoNone
| InfoSingle (info : SingleOwnerManagerInfo)
| InfoMulti (info : MultiOwnerManagerInfo).

Definition manager_info (manager : ChainManager) : ChainManagerInfo :=
  match manager with
  | ManagerSingle single => InfoSingle (single_info single)
  | ManagerMulti multi => InfoMulti (multi_info multi)
  | ManagerNone => InfoNone
  end.

Definition info_add_values (manager : ChainManager) (self : ChainManagerInfo)
    : ChainManagerInfo :=
  match self, manager with
  | InfoSingle info, ManagerSingle single => InfoSingle (single_add_values single info)
  | InfoMulti info, ManagerMulti multi => InfoMulti (multi_add_values multi info)
  | _, _ => self
  end.

Definition info_pending (self : ChainManagerInfo) : option LiteVote :=
  match self with
  | InfoSingle single => sinfo_pending single
  | InfoMulti multi => minfo_pending multi
  | InfoNone => None
  end.

Definition info_timeout_vote (self : ChainManagerInfo) : option LiteVote :=
  match self with
  | InfoMulti multi => minfo_timeout_vote multi
  | InfoSingle _ | InfoNone => None
  end.

Definition info_highest_validated (self : ChainManagerInfo) : option Certificate :=
  match self with
  | InfoMulti multi => multi_highest_validated multi
  | InfoNone | InfoSingle _ => None
  end.

Definition info_current_round (self : ChainManagerInfo) : RoundNumber :=
  match self with
  | InfoMulti multi => minfo_current_round multi
  | InfoNone | InfoSingle _ => 0
  end.

Definition info_next_round (self : ChainManagerInfo) : option RoundNumber :=
  match self with
  | InfoMulti multi => multi_next_round multi
  | InfoSingle _ => Some 0
  | InfoNone => None
  end.

End manager.

(** ** Lemmas on the voting rules *)

Lemma max_by_key_snoc {A} (key : A -> Z) l x :
  max_by_key key (l ++ [x]) =
  match max_by_key key l with
  | None => Some x
  | Some b => if key x <? key b then Some b else Some x
  end.
Proof. unfold max_by_key. by rewrite foldl_app. Qed.

Lemma max_by_key_None {A} (key : A -> Z) l : max_by_key key l = None <-> l = [].
Proof.
  induction l as [|x l _] using rev_ind; [done|]. rewrite max_by_key_snoc. split.
  - repeat case_match; done.
  - intros Heq. by destruct l.
Qed.

Lemma max_by_key_Some {A} (key : A -> Z) l x :
  max_by_key key l = Some x -> x ∈ l /\ forall y, y ∈ l -> key y <= key x.
Proof.
  revert x. induction l as [|z l IH] using rev_ind; intros x; [done|].
  rewrite max_by_key_snoc. destruct (max_by_key key l) as [b|] eqn:Hb.
  - destruct (IH b eq_refl) as [Hin Hmax]. destruct (Z.ltb_spec (key z) (key b)); intros [= <-].
    + split; [set_solver|]. intros y [Hy| ->%list_elem_of_singleton]%elem_of_app; [auto|lia].
    + split; [set_solver|].
      intros y [Hy| ->%list_elem_of_singleton]%elem_of_app; [|lia]. specialize (Hmax y Hy). lia.
  - apply max_by_key_None in Hb as ->. intros [= <-]. split; [set_solver|].
    intros y ->%list_elem_of_singleton. lia.
Qed.

Section multi_lemmas.
Context `{Crypto, LeaderSampling}.
Implicit Types m : MultiOwnerManager.

(** The current round is at least the rounds of the proposal and of the lock. *)
Lemma current_round_bounds m :
  (forall p, proposed m = Some p -> bar_round (prop_content p) <= multi_current_round m) /\
  (forall c, locked m = Some c -> cert_round c <= multi_current_round m).
Proof.
  unfold multi_current_round.
  match goal with |- context [max_by_key _ ?l] => set (rounds := l) end.
  destruct (max_by_key _ rounds) as [r|] eqn:Hmax; simpl.
  - apply max_by_key_Some in Hmax as [_ Hmax]. split.
    + intros p Hp. apply Hmax. unfold rounds. rewrite Hp. set_solver.
    + intros c Hc. apply Hmax. unfold rounds. rewrite Hc. set_solver.
  - apply max_by_key_None in Hmax. unfold rounds in Hmax. split.
    + intros p Hp. rewrite Hp in Hmax. destruct (leader_timeout m), (locked m); done.
    + intros c Hc. rewrite Hc in Hmax. destruct (leader_timeout m); done.
Qed.

(** What accepting a proposal means: its round is above the one of any earlier
    proposal, and if a lock is known, here or in the proposal, the highest one
    is for the same block in an earlier round. *)
Lemma check_proposed_accept m p :
  multi_check_proposed_block m p = Ok Accept ->
  (forall old, proposed m = Some old ->
     bar_round (prop_content old) < bar_round (prop_content p)) /\
  (forall v, prop_validated p = Some v -> is_validated (hv_value (cert_value v)) = true) /\
  multi_current_round m <= bar_round (prop_content p) /\
  (forall c, (locked m = Some c \/ prop_validated p = Some c) ->
     exists lock, (locked m = Some lock \/ prop_validated p = Some lock) /\
       cert_round c <= cert_round lock < bar_round (prop_content p) /\
       value_block (hv_value (cert_value lock)) = Some (bar_block (prop_content p))).
Proof.
  unfold multi_check_proposed_block. intros Hc.
  apply bind_Ok in Hc as ([] & Hval & Hc). apply bind_Ok in Hc as (expected & Hexp & Hc).
  apply bind_Ok in Hc as ([] & Hr & Hc).
  assert (multi_current_round m <= bar_round (prop_content p)) as Hround.
  { assert (multi_current_round m <= expected).
    { destruct (prop_validated p); inv_result; subst; lia. }
    destruct (multi_leader_rounds m <? _); inv_result; lia. }
  clear Hexp Hr.
  assert (forall o, match max_by_key cert_round (option_list (prop_validated p) ++
        option_list (locked m)) with
      | Some locked =>
          block ← ok_or (value_block (hv_value (cert_value locked))) InternalError;
          ensure ((cert_round locked <? bar_round (prop_content p)) &&
            bool_decide (block = bar_block (prop_content p)))
            (HasLockedBlock (block_height block) (cert_round locked)) ;;
          Ok Accept
      | None => Ok Accept
      end = Ok o ->
    forall c, (locked m = Some c \/ prop_validated p = Some c) ->
     exists lock, (locked m = Some lock \/ prop_validated p = Some lock) /\
       cert_round c <= cert_round lock < bar_round (prop_content p) /\
       value_block (hv_value (cert_value lock)) = Some (bar_block (prop_content p))) as Hlock.
  { intros o Hl c Hin. destruct (max_by_key _ _) as [lock|] eqn:Hmax.
    - apply max_by_key_Some in Hmax as [Hlin Hmax]. inv_result. exists lock. split_and!.
      + apply elem_of_app in Hlin as [Hl'|Hl']; rewrite elem_of_opt_list in Hl'; auto.
      + apply Hmax. apply elem_of_app. rewrite !elem_of_opt_list. tauto.
      + lia.
      + congruence.
    - apply max_by_key_None in Hmax. destruct Hin as [Heq|Heq]; rewrite Heq in Hmax.
      + by destruct (prop_validated p).
      + done. }
  split_and!; [| |done|].
  - intros old Hold. rewrite Hold in Hc. case_bool_decide; [done|].
    destruct (Z.leb_spec (bar_round (prop_content p)) (bar_round (prop_content old))); [done|lia].
  - intros v Hv. rewrite Hv in Hval. by inv_result.
  - destruct (proposed m) as [old|]; [|by eapply Hlock].
    case_bool_decide; [done|].
    destruct (_ <=? bar_round (prop_content old)); [done|]. by eapply Hlock.
Qed.

Lemma check_validated_accept m c :
  multi_check_validated_block m c = Ok Accept ->
  forall lock, locked m = Some lock -> cert_round lock < cert_round c.
Proof.
  unfold multi_check_validated_block. intros Hc lock Hlock. rewrite Hlock in Hc.
  destruct (pending m) as [vote|]; [|inv_result; lia].
  destruct (hv_value (vote_value vote)); [inv_result; lia| |done].
  destruct (_ && _); [done|]. inv_result. lia.
Qed.

End multi_lemmas.
