(* ===== verification/Consensus.v ===== *)
(** * Safety of the consensus protocol

    The validators of a committee run the chain managers of
    [linera-chain/src/manager] for one chain and one height.  A step of the
    network is one call of a handler of [linera-core/src/worker.rs] at an honest
    validator, as far as its manager is concerned:

    - [handle_block_proposal]: the [validated] certificate of the proposal is
      checked, then [check_proposed_block] must accept, then [create_vote];
    - [process_validated_block]: the certificate is checked, then
      [check_validated_block] must accept, then [create_final_vote];
    - [process_leader_timeout]: [handle_timeout_certificate];
    - [handle_chain_info_query]: [vote_leader_timeout].

    Faulty validators sign anything.  Signatures cannot be forged: a
    certificate can carry the signature of an honest validator only for a value
    and a round that this validator voted for.

    The theorem is the claim made at the top of [manager/multi.rs]: as long as
    the faulty validators weigh less than the validity threshold (less than a
    third), all [ConfirmedBlock] certificates contain the same block. *)

From S2P Require Import Prelude Numbers Types Crypto Committees Policy Errors Certificates Managers.

Section consensus.
Context {C : Crypto} {CL : CryptoLaws C} {LS : LeaderSampling}.
Context (committee : Committee) (committee_ok : committee_wf committee).
Context (faulty : list ValidatorName) (faulty_distinct : NoDup faulty)
  (faulty_weight : weight_of committee faulty < validity_threshold committee).
Context (keys : ValidatorName -> KeyPair).

(** ** The network *)

(** The managers of the validators, and the values they voted for with the
    rounds of the votes. *)
Record World := {
  managers : ValidatorName -> ChainManager;
  cast : ValidatorName -> list (CertificateValue * RoundNumber);
}.

(** The votes a manager holds, and serves to whoever asks. *)
Definition vote_content (vote : Vote) : CertificateValue * RoundNumber :=
  (hv_value (vote_value vote), vote_round vote).

Definition votes_of (m : ChainManager) : list (CertificateValue * RoundNumber) :=
  vote_content <$>
    option_list (manager_pending m) ++
    match m with ManagerMulti multi => option_list (timeout_vote multi) | _ => [] end.

(** A certificate that an honest node can receive in the world [w]: it was
    deserialized, so its hash is the one of its value; it passes [check]; and
    its honest signatories voted for its value in its round. *)
Definition certified (w : World) (cert : Certificate) : Prop :=
  hv_hash (cert_value cert) = hash_value (hv_value (cert_value cert)) /\
  certificate_check cert committee = Ok (cert_value cert) /\
  forall v, v ∈ (cert_signatures cert).*1 -> v ∉ faulty ->
    exists value, (value, cert_round cert) ∈ cast w v /\
      hash_value value = hv_hash (cert_value cert).

(** One handler at the validator [v]. *)
Inductive handled (w : World) (v : ValidatorName) : ChainManager -> ChainManager -> Prop :=
| handled_proposal m m' proposal outcome now :
    (forall cert, prop_validated proposal = Some cert -> certified w cert) ->
    manager_check_proposed_block m proposal = Ok Accept ->
    manager_create_vote proposal outcome (Some (keys v)) now m = Ok m' ->
    handled w v m m'
| handled_validated m m' cert now :
    certified w cert -> is_validated (hv_value (cert_value cert)) = true ->
    manager_check_validated_block m cert = Ok Accept ->
    manager_create_final_vote cert (Some (keys v)) now m = Ok m' ->
    handled w v m m'
| handled_timeout_certificate m m' cert now :
    manager_handle_timeout_certificate cert now m = Ok m' ->
    handled w v m m'
| handled_timeout_query m m' changed chain_id height epoch now :
    manager_vote_leader_timeout chain_id height epoch (Some (keys v)) now m = (changed, m') ->
    handled w v m m'.

Inductive step : World -> World -> Prop :=
| step_honest w v m' :
    v ∉ faulty -> handled w v (managers w v) m' ->
    step w {| managers := fun u => if decide (u = v) then m' else managers w u;
              cast := fun u => if decide (u = v) then votes_of m' ++ cast w v else cast w u |}.

(** The next block of a chain with the given ownership: every validator resets
    its manager, at a time of its own, and nobody has voted. *)
Definition initial (ownership : ChainOwnership) (height : BlockHeight) (w : World) : Prop :=
  forall v, (exists now, manager_reset ownership height now = Ok (managers w v)) /\
    cast w v = [].

Definition reachable (ownership : ChainOwnership) (height : BlockHeight) (w : World) : Prop :=
  exists w0, initial ownership height w0 /\ rtc step w0 w.

(** ** Certificates and quorums *)

Lemma certified_value w cert v :
  certified w cert -> v ∈ (cert_signatures cert).*1 -> v ∉ faulty ->
  (hv_value (cert_value cert), cert_round cert) ∈ cast w v.
Proof.
  intros (Hh & _ & Hc) Hin Hnf. destruct (Hc v Hin Hnf) as (value & Hcast & Heq).
  rewrite Hh in Heq. apply hash_value_inj in Heq. by subst.
Qed.

(** Two certificates have an honest signatory in common. *)
Lemma certified_common w cert1 cert2 :
  certified w cert1 -> certified w cert2 ->
  exists v, v ∉ faulty /\
    (hv_value (cert_value cert1), cert_round cert1) ∈ cast w v /\
    (hv_value (cert_value cert2), cert_round cert2) ∈ cast w v.
Proof.
  intros Hc1 Hc2. pose proof Hc1 as (_ & Hk1 & _). pose proof Hc2 as (_ & Hk2 & _).
  apply certificate_check_Ok in Hk1 as [_ Hk1]. apply certificate_check_Ok in Hk2 as [_ Hk2].
  apply check_signatures_valid in Hk1 as (Hnd1 & _ & Hq1 & _); [|done].
  apply check_signatures_valid in Hk2 as (Hnd2 & _ & Hq2 & _); [|done].
  destruct committee_ok as (m & p & Heq & Hb & Hpos). rewrite Heq in *.
  destruct (quorums_share m p _ _ faulty Hb Hpos Hnd1 Hnd2 Hq1 Hq2 faulty_distinct faulty_weight)
    as (v & Hv1 & Hv2 & Hnf).
  exists v. split_and!; [done| |]; by apply certified_value.
Qed.

Lemma certified_honest w cert :
  certified w cert ->
  exists v, v ∉ faulty /\ (hv_value (cert_value cert), cert_round cert) ∈ cast w v.
Proof. intros Hc. destruct (certified_common w cert cert Hc Hc) as (v & ? & ? & _). eauto. Qed.

Definition cast_le (w w' : World) : Prop := forall v, cast w v ⊆ cast w' v.

Lemma certified_mono w w' cert : cast_le w w' -> certified w cert -> certified w' cert.
Proof.
  intros Hle (Hh & Hk & Hc). split_and!; [done..|]. intros v Hin Hnf.
  destruct (Hc v Hin Hnf) as (value & Hcast & Heq). exists value. split; [by apply Hle|done].
Qed.

(** A validated certificate for the block [b] in the round [r] exists. *)
Definition validated_at (w : World) (b : Block) (r : RoundNumber) : Prop :=
  exists cert eb, certified w cert /\ hv_value (cert_value cert) = ValidatedBlock eb /\
    eb_block eb = b /\ cert_round cert = r.

Lemma validated_at_mono w w' b r : cast_le w w' -> validated_at w b r -> validated_at w' b r.
Proof.
  intros Hle (cert & eb & Hc & ?). exists cert, eb. split; [by eapply certified_mono|done].
Qed.

(** ** Invariant of an honest validator *)

(** What the votes of a validator and its manager tell of each other. *)
Record multi_inv (w : World) (m : MultiOwnerManager)
    (votes : list (CertificateValue * RoundNumber)) : Prop := {
  inv_pending : forall vote, pending m = Some vote -> vote_content vote ∈ votes;
  inv_timeout : forall vote, timeout_vote m = Some vote ->
    is_timeout (hv_value (vote_value vote)) = true;
  inv_locked : forall c, locked m = Some c ->
    certified w c /\ is_validated (hv_value (cert_value c)) = true;
  inv_validate : forall eb r, (ValidatedBlock eb, r) ∈ votes ->
    exists p, proposed m = Some p /\ r <= bar_round (prop_content p);
  inv_validate_unique : forall eb1 eb2 r,
    (ValidatedBlock eb1, r) ∈ votes -> (ValidatedBlock eb2, r) ∈ votes ->
    eb_block eb1 = eb_block eb2;
  inv_confirm : forall eb s, (ConfirmedBlock eb, s) ∈ votes ->
    validated_at w (eb_block eb) s /\
    exists c, locked m = Some c /\ s <= cert_round c;
  inv_confirm_validate : forall eb s eb' r,
    (ConfirmedBlock eb, s) ∈ votes -> (ValidatedBlock eb', r) ∈ votes -> s < r ->
    exists l, s <= l < r /\ validated_at w (eb_block eb') l;
}.

Lemma multi_inv_mono w w' m votes :
  cast_le w w' -> multi_inv w m votes -> multi_inv w' m votes.
Proof.
  intros Hle [Hp Ht Hl Hv Hu Hc Hcv]. split; try done.
  - intros c Hc'. destruct (Hl c Hc') as [??]. split; [by eapply certified_mono|done].
  - intros eb s Hin. destruct (Hc eb s Hin) as [??]. split; [by eapply validated_at_mono|done].
  - intros eb s eb' r H1 H2 Hlt. destruct (Hcv eb s eb' r H1 H2 Hlt) as (l & ? & ?).
    exists l. split; [done|by eapply validated_at_mono].
Qed.

(** The votes for blocks after a handler are the old ones and the pending one. *)
Lemma block_vote_cases m votes value r :
  (forall vote, timeout_vote m = Some vote -> is_timeout (hv_value (vote_value vote)) = true) ->
  is_timeout value = false ->
  (value, r) ∈ votes_of (ManagerMulti m) ++ votes ->
  (exists vote, pending m = Some vote /\ vote_content vote = (value, r)) \/ (value, r) ∈ votes.
Proof.
  intros Ht Hv. unfold votes_of. rewrite fmap_app, !elem_of_app.
  intros [[(vote & Heq & Hin)%list_elem_of_fmap_1|(vote & Heq & Hin)%list_elem_of_fmap_1]|?];
    [| |by right]; rewrite elem_of_opt_list in Hin.
  - left. by exists vote.
  - apply Ht in Hin. unfold vote_content in Heq. simplify_eq. congruence.
Qed.

Lemma pending_in_votes_of m votes vote :
  pending m = Some vote -> vote_content vote ∈ votes_of (ManagerMulti m) ++ votes.
Proof.
  intros Hp. apply elem_of_app. left. unfold votes_of. simpl. rewrite Hp. simpl. left.
Qed.

(** A handler that leaves the proposal, the lock and the vote alone. *)
Lemma multi_inv_same w m m' votes :
  multi_inv w m votes ->
  pending m' = pending m -> proposed m' = proposed m -> locked m' = locked m ->
  (forall vote, timeout_vote m' = Some vote -> is_timeout (hv_value (vote_value vote)) = true) ->
  multi_inv w m' (votes_of (ManagerMulti m') ++ votes).
Proof.
  intros [Hp Ht Hl Hv Hu Hc Hcv] Epend Eprop Elock Ht'.
  assert (forall value r, is_timeout value = false ->
    (value, r) ∈ votes_of (ManagerMulti m') ++ votes -> (value, r) ∈ votes) as Hold.
  { intros value r Hval Hin. destruct (block_vote_cases m' votes value r Ht' Hval Hin)
      as [(vote & Hvote & <-)|?]; [|done]. apply Hp. congruence. }
  split; try rewrite Elock; try rewrite Eprop; try done.
  - intros vote Hvote. by apply pending_in_votes_of.
  - intros eb r Hin. eapply Hv. by eapply Hold.
  - intros eb1 eb2 r H1 H2. eapply Hu; by eapply Hold.
  - intros eb s Hin. apply Hc. by eapply Hold.
  - intros eb s eb' r H1 H2. eapply Hcv; by eapply Hold.
Qed.

Lemma create_vote_inv w m votes proposal outcome key now :
  multi_inv w m votes ->
  (forall cert, prop_validated proposal = Some cert -> certified w cert) ->
  multi_check_proposed_block m proposal = Ok Accept ->
  let m' := multi_create_vote proposal outcome (Some key) now m in
  multi_inv w m' (votes_of (ManagerMulti m') ++ votes).
Proof.
  intros Hinv Hcert Haccept m'. pose proof Hinv as [Hp Ht Hl Hv Hu Hc Hcv].
  apply check_proposed_accept in Haccept as (Hround & Hval & _ & Hlock).
  set (new := outcome_with outcome (bar_block (prop_content proposal))).
  assert (forall value r, (value, r) ∈ votes_of (ManagerMulti m') ++ votes ->
    is_timeout value = false ->
    value = ValidatedBlock new /\ r = bar_round (prop_content proposal) \/ (value, r) ∈ votes)
    as Hcases.
  { intros value r Hin Hvalue. destruct (block_vote_cases m' votes value r Ht Hvalue Hin)
      as [(vote & [= <-] & [= <- <-])|?]; auto. }
  assert (forall eb r, (ValidatedBlock eb, r) ∈ votes -> r < bar_round (prop_content proposal))
    as Hbelow.
  { intros eb r Hin. destruct (Hv eb r Hin) as (old & Hold & Hle).
    specialize (Hround old Hold). lia. }
  assert (forall c, locked m = Some c \/ prop_validated proposal = Some c ->
    certified w c /\ is_validated (hv_value (cert_value c)) = true) as Hcertified.
  { intros c [Hc'|Hc']; [by apply Hl|]. split; [by apply Hcert|by apply Hval]. }
  split.
  - intros vote Hvote. by apply pending_in_votes_of.
  - apply Ht.
  - intros c Hc'. apply Hcertified. unfold m', multi_create_vote in Hc'. simpl in Hc'.
    destruct (prop_validated proposal) as [v|]; [|by left].
    destruct (locked m) as [l|]; [|by right]. destruct (_ <? _); [by right|by left].
  - intros eb r Hin. exists proposal. split; [done|].
    destruct (Hcases (ValidatedBlock eb) r Hin eq_refl) as [[_ ->]|Hin']; [lia|].
    apply Hbelow in Hin'. lia.
  - intros eb1 eb2 r H1 H2.
    destruct (Hcases _ _ H1 eq_refl) as [[E1 R1]|H1'];
      destruct (Hcases _ _ H2 eq_refl) as [[E2 R2]|H2'].
    + congruence.
    + apply Hbelow in H2'. lia.
    + apply Hbelow in H1'. lia.
    + by eapply Hu.
  - intros eb s Hin. destruct (Hcases _ _ Hin eq_refl) as [[? _]|Hin']; [done|].
    destruct (Hc eb s Hin') as (Hva & c & Hc' & Hle). split; [done|].
    unfold m', multi_create_vote. simpl. rewrite Hc'.
    destruct (prop_validated proposal) as [v|]; [|by exists c].
    destruct (Z.ltb_spec (cert_round c) (cert_round v)); [exists v|exists c]; split; [done|lia|done..].
  - intros eb s eb' r H1 H2 Hlt.
    destruct (Hcases _ _ H1 eq_refl) as [[? _]|H1']; [done|].
    destruct (Hcases _ _ H2 eq_refl) as [[E2 ->]|H2']; [|by eapply Hcv].
    injection E2 as ->. destruct (Hc eb s H1') as (_ & c & Hc' & Hle).
    destruct (Hlock c (or_introl Hc')) as (lock & Hin & Hr & Hb).
    exists (cert_round lock). split; [lia|]. destruct (Hcertified lock Hin) as [Hcl Hvl].
    destruct (hv_value (cert_value lock)) as [ebl| |] eqn:Hlv; try done.
    exists lock, ebl. split_and!; try done. by injection Hb.
Qed.

Lemma create_final_vote_inv w m votes cert key now :
  multi_inv w m votes -> certified w cert -> is_validated (hv_value (cert_value cert)) = true ->
  multi_check_validated_block m cert = Ok Accept ->
  let m' := multi_create_final_vote cert (Some key) now m in
  multi_inv w m' (votes_of (ManagerMulti m') ++ votes).
Proof.
  intros Hinv Hcert Hval Haccept. pose proof (check_validated_accept _ _ Haccept) as Hlock.
  destruct (hv_value (cert_value cert)) as [eb| |] eqn:Hvalue; try done.
  unfold multi_create_final_vote, into_confirmed. rewrite Hvalue. simpl.
  destruct (Z.ltb_spec (cert_round cert) (multi_current_round m)) as [Hlt|Hge].
  { apply (multi_inv_same w m m); try done. by destruct Hinv. }
  set (m' := multi_update _ _ _ _ _ _). pose proof Hinv as [Hp Ht Hl Hv Hu Hc Hcv].
  assert (forall value r, (value, r) ∈ votes_of (ManagerMulti m') ++ votes ->
    is_timeout value = false ->
    value = ConfirmedBlock eb /\ r = cert_round cert \/ (value, r) ∈ votes) as Hcases.
  { intros value r Hin Hvalue'. destruct (block_vote_cases m' votes value r Ht Hvalue' Hin)
      as [(vote & [= <-] & [= <- <-])|?]; auto. }
  split.
  - intros vote Hvote. by apply pending_in_votes_of.
  - apply Ht.
  - intros c [= <-]. by rewrite Hvalue.
  - intros eb' r Hin. destruct (Hcases _ _ Hin eq_refl) as [[? _]|Hin']; [done|].
    by apply (Hv eb').
  - intros eb1 eb2 r H1 H2. destruct (Hcases _ _ H1 eq_refl) as [[? _]|H1']; [done|].
    destruct (Hcases _ _ H2 eq_refl) as [[? _]|H2']; [done|]. by eapply Hu.
  - intros eb' s Hin. destruct (Hcases _ _ Hin eq_refl) as [[[= ->] ->]|Hin'].
    + split; [by exists cert, eb|]. exists cert. split; [done|lia].
    + destruct (Hc _ _ Hin') as (Hva & c & Hc' & Hle). split; [done|]. exists cert.
      split; [done|]. specialize (Hlock c Hc'). lia.
  - intros eb' s eb2 r H1 H2 Hlt. destruct (Hcases _ _ H2 eq_refl) as [[? _]|H2']; [done|].
    destruct (Hcases _ _ H1 eq_refl) as [[_ ->]|H1']; [|by eapply Hcv].
    destruct (Hv _ _ H2') as (p & Hp' & Hle).
    pose proof (proj1 (current_round_bounds m) p Hp'). lia.
Qed.

(** With a single owner, all the votes are for the block of the pending one. *)
Definition single_inv (m : SingleOwnerManager)
    (votes : list (CertificateValue * RoundNumber)) : Prop :=
  (forall vote, single_pending m = Some vote -> vote_content vote ∈ votes) /\
  forall value r, (value, r) ∈ votes ->
    exists eb vote eb', value = ConfirmedBlock eb /\ single_pending m = Some vote /\
      hv_value (vote_value vote) = ConfirmedBlock eb' /\ eb_block eb = eb_block eb'.

Lemma votes_of_single m : votes_of (ManagerSingle m) = vote_content <$> option_list (single_pending m).
Proof. unfold votes_of. simpl. by rewrite app_nil_r. Qed.

Lemma single_create_vote_inv m votes proposal outcome key :
  single_inv m votes -> single_check_proposed_block m proposal = Ok Accept ->
  let m' := single_create_vote proposal outcome (Some key) m in
  single_inv m' (votes_of (ManagerSingle m') ++ votes).
Proof.
  intros [_ Hinv] Haccept. unfold single_check_proposed_block in Haccept. inv_result.
  destruct (Z.eqb_spec (bar_round (prop_content proposal)) 0) as [Hr|]; [|done].
  assert (single_pending m = None) as Hnone.
  { destruct (single_pending m) as [vote|]; [|done].
    destruct (hv_value (vote_value vote)); try done. by case_bool_decide. }
  unfold single_create_vote. rewrite Hr. rewrite votes_of_single. simpl. split.
  - intros vote [= <-]. left.
  - intros value r [Hin|Hin]%elem_of_cons.
    + injection Hin as -> ->. eexists _, _, _. split_and!; simpl; reflexivity.
    + destruct (Hinv value r Hin) as (? & ? & ? & _ & Heq & _). congruence.
Qed.

Lemma single_inv_same m votes :
  single_inv m votes -> single_inv m (votes_of (ManagerSingle m) ++ votes).
Proof.
  intros [Hp Hinv]. rewrite votes_of_single. split.
  - intros vote Hvote. apply elem_of_app. right. by apply Hp.
  - intros value r [Hin|Hin]%elem_of_app; [|by eapply Hinv].
    apply list_elem_of_fmap_1 in Hin as (vote & Heq & Hin). rewrite elem_of_opt_list in Hin.
    eapply Hinv. rewrite Heq. by apply Hp.
Qed.

(** ** Invariant of the network *)

Definition validator_inv (w : World) (m : ChainManager)
    (votes : list (CertificateValue * RoundNumber)) : Prop :=
  match m with
  | ManagerMulti m => multi_inv w m votes
  | ManagerSingle m => single_inv m votes
  | ManagerNone => votes = []
  end.

(** The manager is of the kind the ownership calls for. *)
Definition manager_kind (ownership : ChainOwnership) (m : ChainManager) : Prop :=
  match ownership, m with
  | OwnershipNone, ManagerNone | OwnershipSingle _ _, ManagerSingle _
  | OwnershipMulti _ _, ManagerMulti _ => True
  | _, _ => False
  end.

Definition network_inv (ownership : ChainOwnership) (w : World) : Prop :=
  forall v, v ∉ faulty ->
    manager_kind ownership (managers w v) /\ validator_inv w (managers w v) (cast w v).

Lemma handled_inv w v m m' votes :
  validator_inv w m votes -> handled w v m m' ->
  validator_inv w m' (votes_of m' ++ votes) /\
  (forall ownership, manager_kind ownership m -> manager_kind ownership m').
Proof.
  intros Hinv Hh.
  destruct Hh as [m m' proposal outcome now Hcert Hcheck Hvote|m m' cert now Hcert Hval Hcheck Hvote
    |m m' cert now Hto|m m' changed chain_id height epoch now Hto].
  - unfold manager_check_proposed_block in Hcheck. inv_result.
    destruct m as [|m|m]; simpl in *; simplify_eq.
    + split; [by apply single_create_vote_inv|done].
    + split; [by apply create_vote_inv|done].
  - destruct m as [|m|m]; simpl in *; simplify_eq. split; [by apply create_final_vote_inv|done].
  - destruct m as [|m|m]; simpl in *; simplify_eq. split; [|done].
    unfold multi_handle_timeout_certificate.
    assert (multi_inv w m (votes_of (ManagerMulti m) ++ votes)).
    { apply (multi_inv_same w m m); try done. by destruct Hinv. }
    destruct (negb _); [done|]. case_match; [done|].
    apply (multi_inv_same w m); try done. by destruct Hinv.
  - destruct m as [|m|m]; cbn [manager_vote_leader_timeout] in Hto.
    + injection Hto as _ <-. simpl in Hinv. subst votes. done.
    + injection Hto as _ <-. split; [by apply single_inv_same|done].
    + destruct (multi_vote_leader_timeout chain_id height epoch (Some (keys v)) now m)
        as [b m1] eqn:Hm.
      injection Hto as _ <-. split; [|done]. simpl. unfold multi_vote_leader_timeout in Hm.
      assert (multi_inv w m (votes_of (ManagerMulti m) ++ votes)).
      { apply (multi_inv_same w m m); try done. by destruct Hinv. }
      destruct (now <? round_timeout m); [by simplify_eq|].
      destruct (match timeout_vote m with Some _ => _ | None => _ end); simplify_eq; [done|].
      apply (multi_inv_same w m); try done. by intros vote [= <-].
Qed.

Lemma step_inv ownership w w' :
  network_inv ownership w -> step w w' -> network_inv ownership w'.
Proof.
  intros Hinv Hstep. destruct Hstep as [w v m' Hv Hh].
  destruct (Hinv v Hv) as [Hkind Hvinv].
  destruct (handled_inv _ _ _ _ _ Hvinv Hh) as [Hnew Hk].
  set (w' := {| managers := _; cast := _ |}).
  assert (cast_le w w') as Hle.
  { intros u x Hx. simpl. destruct (decide (u = v)) as [->|]; [|done]. apply elem_of_app. by right. }
  assert (forall m votes, validator_inv w m votes -> validator_inv w' m votes) as Hmono.
  { intros [|m|m] votes; simpl; [done..|]. by apply multi_inv_mono. }
  intros u Hu. simpl. destruct (decide (u = v)) as [->|].
  - split; [by apply Hk|by apply Hmono].
  - destruct (Hinv u Hu). split; [done|by apply Hmono].
Qed.

Lemma initial_inv ownership height w : initial ownership height w -> network_inv ownership w.
Proof.
  intros Hinit v _. destruct (Hinit v) as [[now Hreset] ->].
  unfold manager_reset in Hreset. destruct ownership.
  - injection Hreset as <-. done.
  - injection Hreset as <-. split; [done|]. split; [done|]. by intros value r []%not_elem_of_nil.
  - inv_result. rewrite Hreset. split; [done|]. unfold multi_new in H. inv_result. subst. simpl.
    split; try done; try (by intros ? ? []%not_elem_of_nil); try (by intros ? ? ? []%not_elem_of_nil).
    by intros ? ? ? ? []%not_elem_of_nil.
Qed.

Lemma reachable_inv ownership height w :
  reachable ownership height w -> network_inv ownership w.
Proof.
  intros (w0 & Hinit & Hsteps). apply initial_inv in Hinit.
  induction Hsteps as [|w1 w2 w3 Hstep _ IH]; [done|]. apply IH. by eapply step_inv.
Qed.

(** ** Safety *)

Section safety.
Context (ownership : ChainOwnership) (w : World) (Hinv : network_inv ownership w).

(** An honest validator of a multi-owner chain and its votes. *)
Lemma honest_multi v b r :
  v ∉ faulty -> (ValidatedBlock b, r) ∈ cast w v -> exists m, multi_inv w m (cast w v).
Proof.
  intros Hv Hin. destruct (Hinv v Hv) as [_ Hm]. destruct (managers w v) as [|m|m]; simpl in Hm.
  - rewrite Hm in Hin. by apply not_elem_of_nil in Hin.
  - destruct Hm as [_ Hm]. by destruct (Hm _ _ Hin) as (? & ? & ? & ? & _).
  - eauto.
Qed.

(** At most one block is validated in a round. *)
Lemma validated_unique b1 b2 r : validated_at w b1 r -> validated_at w b2 r -> b1 = b2.
Proof.
  intros (c1 & eb1 & Hc1 & Hv1 & <- & Hr1) (c2 & eb2 & Hc2 & Hv2 & <- & Hr2).
  destruct (certified_common w c1 c2 Hc1 Hc2) as (v & Hv & Hin1 & Hin2).
  rewrite Hv1, Hr1 in Hin1. rewrite Hv2, Hr2 in Hin2.
  destruct (honest_multi v eb1 r Hv Hin1) as (m & Hm). by eapply inv_validate_unique.
Qed.

(** Once a block is confirmed in a round, no other block is validated in a
    later one. *)
Lemma confirmed_blocks_others cert eb :
  certified w cert -> hv_value (cert_value cert) = ConfirmedBlock eb ->
  validated_at w (eb_block eb) (cert_round cert) ->
  forall r b, cert_round cert < r -> validated_at w b r -> b = eb_block eb.
Proof.
  intros Hcert Hval Hat r.
  enough (forall n : nat, forall r b, (Z.to_nat (r - cert_round cert) < n)%nat ->
    cert_round cert < r -> validated_at w b r -> b = eb_block eb) as Hall.
  { intros b. by apply (Hall (S (Z.to_nat (r - cert_round cert)))); lia. }
  clear r. induction n as [|n IH]; intros r b Hn Hlt Hb; [lia|].
  pose proof Hb as (c2 & eb2 & Hc2 & Hv2 & Hb2 & Hr2).
  destruct (certified_common w cert c2 Hcert Hc2) as (v & Hv & Hin1 & Hin2).
  rewrite Hval in Hin1. rewrite Hv2, Hr2 in Hin2.
  destruct (honest_multi v eb2 r Hv Hin2) as (m & Hm).
  destruct (inv_confirm_validate _ _ _ Hm eb _ eb2 r Hin1 Hin2 Hlt) as (l & Hl & Hatl).
  rewrite Hb2 in Hatl. destruct (decide (l = cert_round cert)) as [->|].
  - by eapply validated_unique.
  - apply (IH l); [lia|lia|done].
Qed.

Lemma confirmed_validated_or_single cert eb :
  certified w cert -> hv_value (cert_value cert) = ConfirmedBlock eb ->
  validated_at w (eb_block eb) (cert_round cert) \/
  exists o k, ownership = OwnershipSingle o k.
Proof.
  intros Hcert Hval. destruct (certified_honest w cert Hcert) as (v & Hv & Hin).
  rewrite Hval in Hin. destruct (Hinv v Hv) as [Hkind Hm].
  destruct (managers w v) as [|m|m]; simpl in Hm.
  - rewrite Hm in Hin. by apply not_elem_of_nil in Hin.
  - right. destruct ownership; try done. eauto.
  - left. by destruct (inv_confirm _ _ _ Hm eb _ Hin).
Qed.

Lemma confirmed_same cert1 cert2 eb1 eb2 :
  certified w cert1 -> certified w cert2 ->
  hv_value (cert_value cert1) = ConfirmedBlock eb1 ->
  hv_value (cert_value cert2) = ConfirmedBlock eb2 ->
  eb_block eb1 = eb_block eb2.
Proof.
  intros Hc1 Hc2 Hv1 Hv2.
  destruct (confirmed_validated_or_single cert1 eb1 Hc1 Hv1) as [Hat1|(o & k & Hown)].
  - destruct (confirmed_validated_or_single cert2 eb2 Hc2 Hv2) as [Hat2|(o & k & Hown)].
    + destruct (Z.lt_trichotomy (cert_round cert1) (cert_round cert2)) as [Hlt|[Heq|Hlt]].
      * symmetry. by eapply (confirmed_blocks_others cert1 eb1 Hc1).
      * rewrite Heq in Hat1. by eapply validated_unique.
      * by eapply (confirmed_blocks_others cert2 eb2 Hc2).
    + destruct Hat1 as (c & eb & Hc & Hv & _). destruct (certified_honest w c Hc) as (v & Hvh & Hin).
      rewrite Hv in Hin. destruct (Hinv v Hvh) as [Hkind Hm]. rewrite Hown in Hkind.
      destruct (managers w v) as [|m|m]; try done. destruct Hm as [_ Hm].
      by destruct (Hm _ _ Hin) as (? & ? & ? & ? & _).
  - destruct (certified_common w cert1 cert2 Hc1 Hc2) as (v & Hv & Hin1 & Hin2).
    rewrite Hv1 in Hin1. rewrite Hv2 in Hin2. destruct (Hinv v Hv) as [Hkind Hm].
    rewrite Hown in Hkind. destruct (managers w v) as [|m|m]; try done. destruct Hm as [_ Hm].
    destruct (Hm _ _ Hin1) as (? & ? & ? & ? & ? & ? & ?).
    destruct (Hm _ _ Hin2) as (? & ? & ? & ? & ? & ? & ?). simplify_eq. congruence.
Qed.

End safety.

(** C1: Safety of consensus.  Let the honest validators of a committee run the
    chain managers for one height, starting from the reset of the managers for
    any ownership, against validators that sign anything and weigh less than the
    validity threshold.  At any reachable state of the network, any two
    [ConfirmedBlock] certificates, of whatever rounds, contain the same block. *)
Theorem consensus_safety ownership height w cert1 cert2 eb1 eb2 :
  reachable ownership height w ->
  certified w cert1 -> certified w cert2 ->
  hv_value (cert_value cert1) = ConfirmedBlock eb1 ->
  hv_value (cert_value cert2) = ConfirmedBlock eb2 ->
  eb_block eb1 = eb_block eb2.
Proof. intros Hr. eapply confirmed_same. by eapply reachable_inv. Qed.

(** A confirmed block locks the chain.  Once a [ConfirmedBlock] certificate
    exists on a chain with several owners, every [ValidatedBlock] certificate of
    a later round is for the same block. *)
Theorem confirmed_block_locked keys_map rounds height w cert eb cert' eb' :
  reachable (OwnershipMulti keys_map rounds) height w ->
  certified w cert -> hv_value (cert_value cert) = ConfirmedBlock eb ->
  certified w cert' -> hv_value (cert_value cert') = ValidatedBlock eb' ->
  cert_round cert < cert_round cert' ->
  eb_block eb' = eb_block eb.
Proof.
  intros Hr Hc Hv Hc' Hv' Hlt. apply reachable_inv in Hr.
  destruct (confirmed_validated_or_single _ w Hr cert eb Hc Hv) as [Hat|(? & ? & ?)]; [|done].
  eapply (confirmed_blocks_others _ w Hr cert eb Hc Hv Hat _ _ Hlt).
  by exists cert', eb'.
Qed.

(** Validators never vote twice for different blocks in a round, and never
    vote to confirm a block without a certificate that validates it in the same
    round. *)
Theorem honest_votes keys_map rounds height w v :
  reachable (OwnershipMulti keys_map rounds) height w -> v ∉ faulty ->
  (forall eb1 eb2 r, (ValidatedBlock eb1, r) ∈ cast w v -> (ValidatedBlock eb2, r) ∈ cast w v ->
     eb_block eb1 = eb_block eb2) /\
  (forall eb r, (ConfirmedBlock eb, r) ∈ cast w v ->
     exists cert eb', certified w cert /\ hv_value (cert_value cert) = ValidatedBlock eb' /\
       eb_block eb' = eb_block eb /\ cert_round cert = r).
Proof.
  intros Hr%reachable_inv Hv. destruct (Hr v Hv) as [Hkind Hm].
  destruct (managers w v) as [|m|m]; try done. split.
  - apply (inv_validate_unique _ _ _ Hm).
  - intros eb r Hin. by destruct (inv_confirm _ _ _ Hm eb r Hin) as [? _].
Qed.

End consensus.

(** ** Example

    Four validators with one vote each, the fourth one faulty; a chain with two
    owners.  The three honest validators validate and confirm one block. *)

Module ConsensusExamples.
Import SymbolicCrypto CommitteeExamples.

#[local] Instance first_leader : LeaderSampling :=
  {| weights_accepted l := negb (bool_decide (l = [])); sample_index _ _ := 0%nat |}.

Definition committee : Committee := committee_new four free.
Definition keys (v : ValidatorName) : KeyPair := v.
Definition ownership : ChainOwnership := ownership_multiple [(11, 1); (12, 1)] 5.

Definition block : Block :=
  {| block_chain_id := 9; block_epoch := 0; block_incoming_messages := [];
     block_operations := []; block_height := 0; block_timestamp := 0;
     block_authenticated_signer := None; block_previous_block_hash := None |}.
Definition outcome : BlockExecutionOutcome :=
  {| outcome_messages := []; outcome_message_counts := []; outcome_state_hash := 5 |}.
Definition executed : ExecutedBlock := outcome_with outcome block.
Definition certificate (value : CertificateValue) (round : RoundNumber) : Certificate :=
  certificate_new (hashed_from value) round
    ((fun v => (v, signature_new (ValueHashAndRound (hash_value value) round) v)) <$> [1; 2; 3]).
Definition validated : Certificate := certificate (ValidatedBlock executed) 0.
Definition proposal0 : BlockProposal :=
  proposal_new {| bar_block := block; bar_round := 0 |} 11 [] None.
(** The other owner proposes the same block again in the next round. *)
Definition proposal1 : BlockProposal :=
  proposal_new {| bar_block := block; bar_round := 1 |} 12 [] (Some validated).

Definition manager_or_none (r : result ChainError ChainManager) : ChainManager :=
  match r with Ok m => m | _ => ManagerNone end.
Definition manager0 : ChainManager := manager_or_none (manager_reset ownership 0 0).
Definition manager1 (v : ValidatorName) : ChainManager :=
  manager_or_none (manager_create_vote proposal0 outcome (Some (keys v)) 1 manager0).
Definition manager2 (v : ValidatorName) : ChainManager :=
  manager_or_none (manager_create_final_vote validated (Some (keys v)) 2 (manager1 v)).
Definition manager3 (v : ValidatorName) : ChainManager :=
  manager_or_none (manager_create_vote proposal1 outcome (Some (keys v)) 3 (manager2 v)).

Definition update (v : ValidatorName) (m : ChainManager) (w : World) : World :=
  {| managers := fun u => if decide (u = v) then m else managers w u;
     cast := fun u => if decide (u = v) then votes_of m ++ cast w v else cast w u |}.
Definition update_all (m : ValidatorName -> ChainManager) (w : World) : World :=
  update 3 (m 3) (update 2 (m 2) (update 1 (m 1) w)).

Definition world0 : World := {| managers := fun _ => manager0; cast := fun _ => [] |}.
Definition world1 : World := update_all manager1 world0.
Definition world2 : World := update_all manager2 world1.
Definition world3 : World := update_all manager3 world2.

Lemma four_validators_ok : committee_wf committee.
Proof. exists four, free. split_and!; [done|apply four_bounded|by vm_compute]. Qed.

Lemma voted w value round :
  Forall (fun v => (value, round) ∈ cast w v) [1; 2; 3] ->
  certified committee [4] w (certificate value round).
Proof.
  intros Hall. split_and!; [done| |].
  - apply certificate_check_Ok. split; [done|]. apply check_signatures_valid; [apply four_validators_ok|].
    split_and!; [decide_now|decide_now|by vm_compute|].
    repeat constructor; apply Z.eqb_refl.
  - intros v Hin _. exists value. split; [|done]. rewrite Forall_forall in Hall. by apply Hall.
Qed.

Lemma steps_all w (before after : ValidatorName -> ChainManager) :
  (forall w' v, cast_le w w' -> v ∈ [1; 2; 3] -> handled committee [4] keys w' v (before v) (after v)) ->
  (forall v, v ∈ [1; 2; 3] -> managers w v = before v) ->
  rtc (step committee [4] keys) w (update_all after w).
Proof.
  intros Hh Hb.
  assert (forall w' v, v ∈ [1; 2; 3] -> cast_le w w' -> managers w' v = before v ->
    step committee [4] keys w' (update v (after v) w')) as Hstep.
  { intros w' v Hv Hle Hm. apply step_honest; [set_solver|]. rewrite Hm. by apply Hh. }
  assert (forall w' v m, cast_le w w' -> cast_le w (update v m w')) as Hle.
  { intros w' v m Hle u x Hx. simpl. destruct (decide (u = v)) as [->|]; [|by apply Hle].
    apply elem_of_app. right. by apply Hle. }
  assert (cast_le w w) as Hrefl by (intros v x Hx; done).
  eapply rtc_l; [apply (Hstep w 1); [set_solver|done|by apply Hb; set_solver]|].
  eapply rtc_l; [apply (Hstep _ 2); [set_solver|auto|by apply Hb; set_solver]|].
  eapply rtc_once. apply (Hstep _ 3); [set_solver|auto|by apply Hb; set_solver].
Qed.

Lemma world3_reachable : reachable committee [4] keys ownership 0 world3.
Proof.
  exists world0. split.
  { intros v. split; [|done]. exists 0. vm_compute. reflexivity. }
  transitivity world1.
  { apply (steps_all world0 (fun _ => manager0)); [|done].
    intros w' v _ _. apply (handled_proposal _ _ _ _ _ _ _ proposal0 outcome 1); [done| |done].
    vm_compute. reflexivity. }
  transitivity world2.
  { apply (steps_all world1 manager1).
    - intros w' v Hle Hv. apply (handled_validated _ _ _ _ _ _ _ validated 2); [|done| |done].
      + eapply certified_mono; [exact Hle|]. apply voted. decide_now.
      + vm_compute. reflexivity.
    - intros v Hv. repeat (apply elem_of_cons in Hv as [->|Hv]; [done|]).
      by apply not_elem_of_nil in Hv. }
  apply (steps_all world2 manager2).
  - intros w' v Hle Hv. apply (handled_proposal _ _ _ _ _ _ _ proposal1 outcome 3); [| |done].
    + intros cert [= <-]. eapply certified_mono; [exact Hle|]. apply voted. decide_now.
    + vm_compute. reflexivity.
  - intros v Hv. repeat (apply elem_of_cons in Hv as [->|Hv]; [done|]).
    by apply not_elem_of_nil in Hv.
Qed.

Lemma faulty_ok : weight_of committee [4] < validity_threshold committee.
Proof. vm_compute. reflexivity. Qed.

Lemma consensus_safety_witness :
  reachable committee [4] keys ownership 0 world3 /\
  certified committee [4] world3 (certificate (ConfirmedBlock executed) 0) /\
  eb_block executed = eb_block executed.
Proof.
  split; [apply world3_reachable|]. split; [apply voted; decide_now|].
  apply (consensus_safety committee four_validators_ok [4] ltac:(decide_now) faulty_ok keys ownership 0
    world3 (certificate (ConfirmedBlock executed) 0) (certificate (ConfirmedBlock executed) 0)).
  - apply world3_reachable.
  - apply voted. decide_now.
  - apply voted. decide_now.
  - reflexivity.
  - reflexivity.
Defined.

Lemma confirmed_block_locked_witness :
  certified committee [4] world3 (certificate (ConfirmedBlock executed) 0) /\
  certified committee [4] world3 (certificate (ValidatedBlock executed) 1) /\
  eb_block executed = eb_block executed.
Proof.
  split; [apply voted; decide_now|]. split; [apply voted; decide_now|].
  eapply (confirmed_block_locked committee four_validators_ok [4] ltac:(decide_now) faulty_ok keys _ _ 0
    world3 (certificate (ConfirmedBlock executed) 0) executed
    (certificate (ValidatedBlock executed) 1)).
  - apply world3_reachable.
  - apply voted. decide_now.
  - reflexivity.
  - apply voted. decide_now.
  - reflexivity.
  - reflexivity.
Defined.

Lemma honest_votes_witness :
  exists cert eb', certified committee [4] world3 cert /\
    hv_value (cert_value cert) = ValidatedBlock eb' /\
    eb_block eb' = eb_block executed /\ cert_round cert = 0.
Proof.
  destruct (honest_votes committee [4] keys _ _ 0 world3 1 world3_reachable ltac:(decide_now))
    as [_ Hconfirm].
  apply Hconfirm. decide_now.
Defined.

End ConsensusExamples.
