(* ===== verification/Registry.v ===== *)
(** * The application registry

    [linera-execution/src/applications.rs]: the bytecodes and applications a
    chain knows, and the topological sort of the dependencies of applications.
    The theorems show that the sort terminates, that it lists dependencies
    first, and that therefore the descriptions a chain sends can be registered
    one after the other by a chain that knows none of them. *)

From S2P Require Import Prelude Numbers Types Crypto Policy Bcs Inbox Errors.

(** ** The code *)

Record ApplicationRegistry := {
  published_bytecodes : gmap BytecodeId BytecodeLocation;
  known_applications : gmap UserApplicationId UserApplicationDescription;
}.

Definition registry_default : ApplicationRegistry :=
  {| published_bytecodes := ∅; known_applications := ∅ |}.

(** [From<&UserApplicationDescription> for UserApplicationId]. *)
Definition application_id_from (description : UserApplicationDescription) : UserApplicationId :=
  {| app_bytecode_id := desc_bytecode_id description;
     app_creation := desc_creation description |}.

Definition register_published_bytecode (id : BytecodeId) (location : BytecodeLocation)
    (self : ApplicationRegistry) : ApplicationRegistry :=
  {| published_bytecodes := <[id := location]> (published_bytecodes self);
     known_applications := known_applications self |}.

Definition bytecode_locations `{Bcs} (self : ApplicationRegistry)
    : list (BytecodeId * BytecodeLocation) :=
  sort_by (fun p => bcs_bytecode_id p.1) (map_to_list (published_bytecodes self)).

Definition bytecode_location_for (self : ApplicationRegistry) (id : BytecodeId)
    : option BytecodeLocation :=
  published_bytecodes self !! id.

Definition describe_application (self : ApplicationRegistry) (id : UserApplicationId)
    : result SystemExecutionError UserApplicationDescription :=
  ok_or (known_applications self !! id) (UnknownApplicationId id).

(** The loop that checks the required applications. *)
Definition check_required (self : ApplicationRegistry) (ids : list UserApplicationId)
    : result SystemExecutionError unit :=
  for_each (fun required_id _ => describe_application self required_id ;; Ok ()) ids ().

Definition register_application (application : UserApplicationDescription)
    (self : ApplicationRegistry)
    : result SystemExecutionError (UserApplicationId * ApplicationRegistry) :=
  check_required self (desc_required_application_ids application) ;;
  let id := application_id_from application in
  Ok (id, {| published_bytecodes := published_bytecodes self;
             known_applications := <[id := application]> (known_applications self) |}).

Definition register_new_application (application_id : UserApplicationId) (parameters : bytes)
    (required_application_ids : list UserApplicationId) (self : ApplicationRegistry)
    : result SystemExecutionError ApplicationRegistry :=
  check_required self required_application_ids ;;
  let bytecode_id := app_bytecode_id application_id in
  bytecode_location ←
    ok_or (published_bytecodes self !! bytecode_id) (UnknownBytecodeId bytecode_id);
  let description :=
    {| desc_bytecode_location := bytecode_location;
       desc_bytecode_id := bytecode_id;
       desc_parameters := parameters;
       desc_creation := app_creation application_id;
       desc_required_application_ids := required_application_ids |} in
  Ok {| published_bytecodes := published_bytecodes self;
        known_applications := <[application_id := description]> (known_applications self) |}.

Section dependencies.
Context (self : ApplicationRegistry)
  (registered_apps : gmap UserApplicationId UserApplicationDescription).

(** The description of an application, from the given ones or the registry. *)
Definition find_description (id : UserApplicationId)
    : result SystemExecutionError UserApplicationDescription :=
  match registered_apps !! id with
  | Some app => Ok app
  | None => describe_application self id
  end.

(** The state of the loop of [find_dependencies]; the head of [dep_stack] is the
    top of the stack.  The set [sorted] holds the elements of [dep_result]. *)
Record DepState := {
  dep_stack : list UserApplicationId;
  dep_result : list UserApplicationId;
  dep_sorted : gset UserApplicationId;
  dep_seen : gset UserApplicationId;
}.

Definition dep_step (id : UserApplicationId) (stack : list UserApplicationId) (s : DepState)
    : result SystemExecutionError DepState :=
  if decide (id ∈ dep_sorted s) then
    Ok {| dep_stack := stack; dep_result := dep_result s;
          dep_sorted := dep_sorted s; dep_seen := dep_seen s |}
  else if decide (id ∈ dep_seen s) then
    Ok {| dep_stack := stack; dep_result := dep_result s ++ [id];
          dep_sorted := {[id]} ∪ dep_sorted s; dep_seen := dep_seen s |}
  else
    let seen := {[id]} ∪ dep_seen s in
    app ← find_description id;
    let children :=
      filter (fun child => child ∉ seen) (reverse (desc_required_application_ids app)) in
    Ok {| dep_stack := reverse children ++ id :: stack; dep_result := dep_result s;
          dep_sorted := dep_sorted s; dep_seen := seen |}.

(** Running out of fuel is a panic; [find_dependencies_terminates] shows that
    it does not happen. *)
Fixpoint dep_loop (fuel : nat) (s : DepState) : result SystemExecutionError DepState :=
  match dep_stack s with
  | [] => Ok s
  | id :: stack =>
      match fuel with
      | O => Panic
      | S fuel => s' ← dep_step id stack s; dep_loop fuel s'
      end
  end.

(** Every entry of the stack is popped once.  An application is pushed by the
    first visit of its dependents and once more by its own first visit. *)
Definition entries_of (app : UserApplicationDescription) : nat :=
  S (length (desc_required_application_ids app)).
Definition total_entries (m : gmap UserApplicationId UserApplicationDescription) : nat :=
  sum_list (entries_of <$> (map_to_list m).*2).
Definition dep_fuel (stack : list UserApplicationId) : nat :=
  length stack + total_entries (registered_apps ∪ known_applications self).

Definition find_dependencies (stack : list UserApplicationId)
    : result SystemExecutionError (list UserApplicationId) :=
  s ← dep_loop (dep_fuel stack)
    {| dep_stack := reverse stack; dep_result := []; dep_sorted := ∅; dep_seen := ∅ |};
  Ok (dep_result s).

End dependencies.

Fixpoint describe_all (self : ApplicationRegistry)
    (extra : gmap UserApplicationId UserApplicationDescription) (ids : list UserApplicationId)
    : result SystemExecutionError (list UserApplicationDescription) :=
  match ids with
  | [] => Ok []
  | id :: ids =>
      description ← find_description self extra id;
      rest ← describe_all self extra ids;
      Ok (description :: rest)
  end.

Definition describe_applications_with_dependencies (self : ApplicationRegistry)
    (ids : list UserApplicationId)
    (extra_registered_apps : gmap UserApplicationId UserApplicationDescription)
    : result SystemExecutionError (list UserApplicationDescription) :=
  ids_with_deps ← find_dependencies self extra_registered_apps ids;
  describe_all self extra_registered_apps ids_with_deps.

(** ** Termination *)

Section termination.
Context (self : ApplicationRegistry)
  (registered_apps : gmap UserApplicationId UserApplicationDescription).

Let all := registered_apps ∪ known_applications self.

Lemma find_description_Ok id app :
  find_description self registered_apps id = Ok app <-> all !! id = Some app.
Proof.
  unfold find_description, describe_application, all. rewrite lookup_union.
  destruct (registered_apps !! id), (known_applications self !! id);
    cbn; split; intros [= ->]; done.
Qed.

Lemma find_description_not_panic id : find_description self registered_apps id <> Panic.
Proof.
  unfold find_description, describe_application, ok_or. by repeat case_match.
Qed.

Lemma total_entries_delete m id app :
  m !! id = Some app -> total_entries m = (entries_of app + total_entries (delete id m))%nat.
Proof.
  intros Hm. unfold total_entries.
  assert (forall l1 l2 : list nat, l1 ≡ₚ l2 -> sum_list l1 = sum_list l2) as Hperm.
  { induction 1; simpl in *; lia. }
  rewrite (Hperm _ (entries_of <$> ((id, app) :: map_to_list (delete id m)).*2)); [done|].
  by rewrite <- (map_to_list_delete m id app Hm).
Qed.

(** The applications not visited yet. *)
Definition unseen (seen : gset UserApplicationId)
    : gmap UserApplicationId UserApplicationDescription :=
  filter (fun p => p.1 ∉ seen) all.

Lemma total_unseen seen id app :
  id ∉ seen -> all !! id = Some app ->
  total_entries (unseen seen) = (entries_of app + total_entries (unseen ({[id]} ∪ seen)))%nat.
Proof.
  intros Hid Happ. unfold unseen.
  rewrite (total_entries_delete _ id app) by by apply map_lookup_filter_Some_2.
  f_equal. f_equal. apply map_eq. intros i. apply option_eq. intros x.
  rewrite lookup_delete_Some, !map_lookup_filter_Some. simpl. set_solver.
Qed.

Definition dep_measure (s : DepState) : nat :=
  length (dep_stack s) + total_entries (unseen (dep_seen s)).

Lemma dep_step_measure id stack s s' :
  dep_stack s = id :: stack -> dep_step self registered_apps id stack s = Ok s' ->
  (dep_measure s' < dep_measure s)%nat.
Proof.
  intros Hs. unfold dep_step, dep_measure. rewrite Hs.
  destruct (decide (id ∈ dep_sorted s)); [intros [= <-]; simpl; lia|].
  destruct (decide (id ∈ dep_seen s)) as [|Hseen]; [intros [= <-]; simpl; lia|].
  intros (app & Happ & [= <-])%bind_Ok. apply find_description_Ok in Happ. simpl.
  rewrite (total_unseen _ id app Hseen Happ). unfold entries_of.
  rewrite length_app, length_reverse. simpl.
  pose proof (length_filter (fun child => child ∉ {[id]} ∪ dep_seen s)
    (reverse (desc_required_application_ids app))) as Hl.
  rewrite length_reverse in Hl. lia.
Qed.

Lemma dep_loop_no_panic fuel s :
  (dep_measure s <= fuel)%nat -> dep_loop self registered_apps fuel s <> Panic.
Proof.
  revert s. induction fuel as [|fuel IH]; intros s Hm; simpl.
  - unfold dep_measure in Hm. by destruct (dep_stack s); simpl in *; [|lia].
  - destruct (dep_stack s) as [|id stack] eqn:Hs; [done|].
    destruct (dep_step self registered_apps id stack s) as [s'|e|] eqn:Hstep; simpl; [|done|].
    + apply IH. pose proof (dep_step_measure _ _ _ _ Hs Hstep). lia.
    + unfold dep_step in Hstep. do 2 (case_match; [done|]).
      pose proof (find_description_not_panic id). by destruct (find_description _ _ id).
Qed.

Lemma find_dependencies_no_panic stack :
  find_dependencies self registered_apps stack <> Panic.
Proof.
  unfold find_dependencies. pose proof (dep_loop_no_panic (dep_fuel self registered_apps stack)
    {| dep_stack := reverse stack; dep_result := []; dep_sorted := ∅; dep_seen := ∅ |}) as Hp.
  destruct (dep_loop _ _ _ _); simpl; [done|done|]. exfalso. apply Hp; [|done].
  unfold dep_measure, dep_fuel, unseen. simpl. rewrite length_reverse.
  rewrite map_filter_id; [done|]. intros i x _. simpl. set_solver.
Qed.

End termination.

(** ** Order of the dependencies *)

Section topological.
Context (self : ApplicationRegistry)
  (registered_apps : gmap UserApplicationId UserApplicationDescription).
(** Dependencies are acyclic. *)
Context (rank : UserApplicationId -> nat).
Context (acyclic : forall id app d, find_description self registered_apps id = Ok app ->
  d ∈ desc_required_application_ids app -> (rank d < rank id)%nat).

Definition deps_of (id d : UserApplicationId) : Prop :=
  exists app, find_description self registered_apps id = Ok app /\
    d ∈ desc_required_application_ids app.

(** An entry is open between its two visits. *)
Definition open (s : DepState) (id : UserApplicationId) : Prop :=
  id ∈ dep_seen s /\ id ∉ dep_sorted s.

Record dep_inv (start : list UserApplicationId) (s : DepState) : Prop := {
  di_sorted : forall id, id ∈ dep_sorted s <-> id ∈ dep_result s;
  di_nodup : NoDup (dep_result s);
  di_sub : dep_sorted s ⊆ dep_seen s;
  di_start : forall id, id ∈ start -> id ∈ dep_stack s \/ id ∈ dep_sorted s;
  di_known : forall id, id ∈ dep_seen s ->
    exists app, find_description self registered_apps id = Ok app;
  di_open : forall id, open s id -> id ∈ dep_stack s;
  (** Above the last entry of an open application: all of lower rank, and all
      its dependencies that are not sorted. *)
  di_above : forall above id below, dep_stack s = above ++ id :: below -> open s id ->
    id ∉ above ->
    Forall (fun d => (rank d < rank id)%nat) above /\
    (forall d, deps_of id d -> d ∈ dep_sorted s \/ d ∈ above);
  di_topological : forall r1 id r2, dep_result s = r1 ++ id :: r2 ->
    forall d, deps_of id d -> d ∈ r1;
}.

(** A split at an element that is not in the first part lies in the second. *)
Lemma app_split {A} (l1 l2 above below : list A) i :
  l1 ++ l2 = above ++ i :: below -> i ∉ l1 ->
  exists above', above = l1 ++ above' /\ l2 = above' ++ i :: below.
Proof.
  revert above. induction l1 as [|x l1 IH]; intros above Heq Hi; [by exists above|].
  destruct above as [|y above]; injection Heq as -> Heq; [set_solver|].
  destruct (IH above Heq) as (above' & -> & ->); [set_solver|]. by exists above'.
Qed.

Lemma dep_inv_init start :
  dep_inv start {| dep_stack := reverse start; dep_result := []; dep_sorted := ∅; dep_seen := ∅ |}.
Proof.
  split; unfold open; simpl.
  - set_solver.
  - constructor.
  - done.
  - intros id Hid. left. by apply elem_of_reverse.
  - set_solver.
  - set_solver.
  - intros above id below _ [Hseen _]. set_solver.
  - by intros [|] ? ?.
Qed.

Lemma dep_inv_skip start id stack s :
  dep_stack s = id :: stack -> dep_inv start s -> id ∈ dep_sorted s ->
  dep_inv start {| dep_stack := stack; dep_result := dep_result s;
    dep_sorted := dep_sorted s; dep_seen := dep_seen s |}.
Proof.
  intros Hs [H1 H2 H3 H4 H5 H6 H7 H8] Hid. split; unfold open in *; simpl in *; try done.
  - intros i Hi. destruct (H4 i Hi) as [Hin|]; [|by right]. rewrite Hs in Hin.
    apply elem_of_cons in Hin as [->|]; auto.
  - intros i Hi. specialize (H6 i Hi). rewrite Hs in H6. apply elem_of_cons in H6 as [->|]; [|done].
    by destruct Hi.
  - intros above i below Heq Hi Hnin. assert (i <> id) by (intros ->; by destruct Hi).
    destruct (H7 (id :: above) i below) as [Ha Hd]; [by rewrite Hs, Heq|done|set_solver|].
    apply Forall_cons in Ha as [_ Ha]. split; [done|].
    intros d Hdep. destruct (Hd d Hdep) as [|Hin]; [by left|].
    apply elem_of_cons in Hin as [->|]; auto.
Qed.

Lemma dep_inv_second start id stack s :
  dep_stack s = id :: stack -> dep_inv start s -> open s id ->
  dep_inv start {| dep_stack := stack; dep_result := dep_result s ++ [id];
    dep_sorted := {[id]} ∪ dep_sorted s; dep_seen := dep_seen s |}.
Proof.
  intros Hs [H1 H2 H3 H4 H5 H6 H7 H8] Hid.
  assert (forall d, deps_of id d -> d ∈ dep_sorted s) as Hdeps.
  { intros d Hd. destruct (H7 [] id stack Hs Hid) as [_ Hall]; [set_solver|].
    destruct (Hall d Hd) as [|Hin]; [done|]. by apply not_elem_of_nil in Hin. }
  destruct Hid as [Hseen Hnot]. split; unfold open in *; simpl in *.
  - intros i. rewrite elem_of_union, elem_of_app, H1, list_elem_of_singleton. set_solver.
  - apply NoDup_app. split_and!; [done| |apply NoDup_singleton].
    intros x Hx ->%list_elem_of_singleton. by rewrite <- H1 in Hx.
  - set_solver.
  - intros i Hi. destruct (H4 i Hi) as [Hin|]; [|set_solver]. rewrite Hs in Hin. set_solver.
  - done.
  - intros i [Hi Hn]. assert (i ∈ dep_stack s) as Hin by (apply H6; set_solver).
    rewrite Hs in Hin. set_solver.
  - intros above i below Heq [Hi Hn] Hnin.
    destruct (H7 (id :: above) i below) as [Ha Hd]; [by rewrite Hs, Heq|set_solver..|].
    apply Forall_cons in Ha as [_ Ha]. split; [done|].
    intros d Hdep. destruct (Hd d Hdep); set_solver.
  - intros r1 i r2 Heq d Hd. destruct r2 as [|x r2 _] using rev_ind.
    + apply app_inj_tail in Heq as [<- <-]. by apply H1, Hdeps.
    + rewrite app_comm_cons, (assoc_L (++)) in Heq. apply app_inj_tail in Heq as [Heq _].
      by eapply H8.
Qed.

Lemma dep_inv_first start id stack s app :
  dep_stack s = id :: stack -> dep_inv start s -> id ∉ dep_sorted s -> id ∉ dep_seen s ->
  find_description self registered_apps id = Ok app ->
  let seen := {[id]} ∪ dep_seen s in
  let children :=
    filter (fun child => child ∉ seen) (reverse (desc_required_application_ids app)) in
  dep_inv start {| dep_stack := reverse children ++ id :: stack; dep_result := dep_result s;
    dep_sorted := dep_sorted s; dep_seen := seen |}.
Proof.
  intros Hs [H1 H2 H3 H4 H5 H6 H7 H8] Hsorted Hseen Happ seen children.
  assert (forall d, d ∈ reverse children <->
    d ∉ seen /\ d ∈ desc_required_application_ids app) as Hchild.
  { intros d. unfold children.
    by rewrite elem_of_reverse, list_elem_of_filter, elem_of_reverse. }
  assert (forall d, d ∈ reverse children -> (rank d < rank id)%nat) as Hrank.
  { intros d [_ Hd]%Hchild. by eapply acyclic. }
  split; unfold open in *; simpl in *; try done.
  - set_solver.
  - intros i Hi. destruct (H4 i Hi) as [Hin|]; [|by right]. left. rewrite Hs in Hin. set_solver.
  - intros i [->%elem_of_singleton|Hi]%elem_of_union; [by exists app|by apply H5].
  - intros i [Hi Hn]. apply elem_of_app. right.
    apply elem_of_union in Hi as [->%elem_of_singleton|Hi]; [by left|].
    assert (i ∈ dep_stack s) as Hin by by apply H6. by rewrite Hs in Hin.
  - intros above i below Heq [Hi Hn] Hnin. destruct (decide (i = id)) as [->|Hne].
    + apply app_split in Heq as (above' & -> & Heq); [|rewrite Hchild; set_solver].
      destruct above' as [|x above']; [|simplify_eq/=; set_solver]. rewrite app_nil_r.
      split; [by apply Forall_forall|].
      intros d (app' & Happ' & Hd). rewrite Happ in Happ'. injection Happ' as <-.
      destruct (decide (d ∈ dep_sorted s)) as [|Hds]; [by left|]. right. apply Hchild.
      split; [|done]. pose proof (acyclic id app d Happ Hd) as Hlt.
      intros [->%elem_of_singleton|Hdseen]%elem_of_union; [lia|].
      assert (d ∈ dep_stack s) as Hin by by apply H6.
      rewrite Hs in Hin. apply elem_of_cons in Hin as [->|Hin]; [lia|].
      apply list_elem_of_split_l in Hin as (a & b & -> & Ha).
      destruct (H7 (id :: a) d b Hs) as [Hr _]; [done|set_solver by lia|].
      apply Forall_cons in Hr as [? _]. lia.
    + assert (i ∈ dep_seen s) as His by set_solver.
      rewrite cons_middle, (assoc_L (++)) in Heq.
      apply app_split in Heq as (above' & -> & Heq).
      2:{ rewrite elem_of_app, Hchild. set_solver. }
      destruct (H7 (id :: above') i below) as [Hr Hd]; [by rewrite Hs, Heq|done|set_solver|].
      apply Forall_cons in Hr as [Hidr Hr]. split.
      * rewrite !Forall_app. split_and!; [|by repeat constructor|done].
        apply Forall_forall. intros x Hx. specialize (Hrank x Hx). lia.
      * intros d Hdep. destruct (Hd d Hdep); set_solver.
Qed.

Lemma dep_step_inv start id stack s s' :
  dep_stack s = id :: stack -> dep_inv start s ->
  dep_step self registered_apps id stack s = Ok s' -> dep_inv start s'.
Proof.
  intros Hs Hinv. unfold dep_step.
  destruct (decide (id ∈ dep_sorted s)); [intros [= <-]; by eapply dep_inv_skip|].
  destruct (decide (id ∈ dep_seen s)); [intros [= <-]; by eapply dep_inv_second|].
  intros (app & Happ & [= <-])%bind_Ok. by apply dep_inv_first.
Qed.

Lemma dep_loop_inv start fuel s s' :
  dep_inv start s -> dep_loop self registered_apps fuel s = Ok s' ->
  dep_inv start s' /\ dep_stack s' = [].
Proof.
  revert s. induction fuel as [|fuel IH]; intros s Hinv; simpl;
    destruct (dep_stack s) as [|id stack] eqn:Hs; try done; try by intros [= <-].
  intros (s1 & Hstep & Hloop)%bind_Ok. eapply IH; [|done]. by eapply dep_step_inv.
Qed.

Lemma find_dependencies_sorted start ids :
  find_dependencies self registered_apps start = Ok ids ->
  NoDup ids /\ (forall id, id ∈ start -> id ∈ ids) /\
  (forall id, id ∈ ids -> exists app, find_description self registered_apps id = Ok app) /\
  (forall r1 id r2, ids = r1 ++ id :: r2 -> forall d, deps_of id d -> d ∈ r1).
Proof.
  unfold find_dependencies. intros (s & Hloop & [= <-])%bind_Ok.
  apply (dep_loop_inv start) in Hloop as [[H1 H2 H3 H4 H5 H6 H7 H8] Hs]; [|apply dep_inv_init].
  split_and!; try done.
  - intros id Hid. destruct (H4 id Hid) as [Hin|Hin]; [|by apply H1].
    rewrite Hs in Hin. by apply not_elem_of_nil in Hin.
  - intros id Hid. by apply H5, H3, H1.
Qed.

End topological.

(** ** The registry of a chain *)

(** Applications are filed under their ids, and their dependencies are known
    and acyclic. *)
Definition registry_wf (r : ApplicationRegistry) : Prop :=
  (forall id app, known_applications r !! id = Some app -> application_id_from app = id) /\
  (forall id app d, known_applications r !! id = Some app ->
     d ∈ desc_required_application_ids app -> is_Some (known_applications r !! d)) /\
  exists rank : UserApplicationId -> nat, forall id app d,
    known_applications r !! id = Some app -> d ∈ desc_required_application_ids app ->
    (rank d < rank id)%nat.

Lemma check_required_Ok r ids :
  check_required r ids = Ok () <-> forall d, d ∈ ids -> is_Some (known_applications r !! d).
Proof.
  unfold check_required, describe_application. induction ids as [|id ids IH]; simpl.
  { split; [|done]. intros _ d Hd. by apply not_elem_of_nil in Hd. }
  destruct (known_applications r !! id) as [app|] eqn:Hid; simpl.
  - rewrite IH. split.
    + intros Hall d [->|Hd]%elem_of_cons; [by rewrite Hid|by apply Hall].
    + intros Hall d Hd. apply Hall. by right.
  - split; [done|]. intros Hall. destruct (Hall id ltac:(left)). congruence.
Qed.

(** Adding an application whose dependencies are known under a fresh id. *)
Lemma registry_wf_insert r id app bytecodes :
  registry_wf r -> known_applications r !! id = None -> application_id_from app = id ->
  (forall d, d ∈ desc_required_application_ids app -> is_Some (known_applications r !! d)) ->
  registry_wf {| published_bytecodes := bytecodes;
    known_applications := <[id := app]> (known_applications r) |}.
Proof.
  intros (Hid & Hdeps & rank & Hrank) Hfresh Happ Hreq. split_and!; simpl.
  - intros i a [[<- <-]|[_ Ha]]%lookup_insert_Some; [done|by apply Hid].
  - intros i a d [[<- <-]|[_ Ha]]%lookup_insert_Some Hd.
    + destruct (decide (d = id)) as [->|]; [by rewrite lookup_insert_eq|].
      rewrite lookup_insert_ne by done. by apply Hreq.
    + destruct (decide (d = id)) as [->|]; [by rewrite lookup_insert_eq|].
      rewrite lookup_insert_ne by done. by eapply Hdeps.
  - set (bound := S (sum_list (rank <$> desc_required_application_ids app))).
    exists (fun x => if decide (x = id) then bound else rank x).
    assert (forall d, d ∈ desc_required_application_ids app -> (rank d < bound)%nat) as Hb.
    { unfold bound. clear. intros d. generalize (desc_required_application_ids app). intros l Hd.
      induction Hd; csimpl; lia. }
    intros i a d [[<- <-]|[Hne Ha]]%lookup_insert_Some Hd.
    + rewrite (decide_True (P := id = id)) by done.
      rewrite decide_False; [by apply Hb|]. intros ->. destruct (Hreq id Hd). congruence.
    + rewrite (decide_False (P := i = id)) by done.
      rewrite decide_False; [by eapply Hrank|]. intros ->.
      destruct (Hdeps i a id Ha Hd). congruence.
Qed.


(** Registering several applications, as the message [RegisterApplications]
    does. *)
Definition register_all (applications : list UserApplicationDescription)
    (r : ApplicationRegistry) : result SystemExecutionError ApplicationRegistry :=
  for_each (fun application r => '(_, r') ← register_application application r; Ok r')
    applications r.

Section wf.
Context (r : ApplicationRegistry) (Hwf : registry_wf r).

Lemma describe_known id app :
  find_description r ∅ id = Ok app <-> known_applications r !! id = Some app.
Proof. rewrite find_description_Ok. by rewrite (left_id_L ∅ (∪)). Qed.

Lemma dep_loop_Ok fuel s :
  (forall id, id ∈ dep_stack s -> is_Some (known_applications r !! id)) ->
  dep_loop r ∅ fuel s <> Panic -> exists s', dep_loop r ∅ fuel s = Ok s'.
Proof.
  destruct Hwf as (_ & Hdeps & _). revert s.
  induction fuel as [|fuel IH]; intros s Hknown Hp; simpl in *;
    destruct (dep_stack s) as [|id stack] eqn:Hs; try done; eauto.
  destruct (dep_step r ∅ id stack s) as [s1|e|] eqn:Hstep; simpl in *; [|exfalso|done].
  - apply IH; [|done]. intros i Hi. unfold dep_step in Hstep.
    do 2 (case_match; [simplify_eq; apply Hknown; by right|]).
    apply bind_Ok in Hstep as (app & Happ & [= <-]). apply describe_known in Happ. simpl in Hi.
    apply elem_of_app in Hi as [Hi|Hi]; [|by apply Hknown].
    rewrite elem_of_reverse, list_elem_of_filter, elem_of_reverse in Hi. by eapply Hdeps, Hi.
  - unfold dep_step in Hstep. do 2 (case_match; [done|]).
    destruct (Hknown id ltac:(left)) as [app Happ]. apply describe_known in Happ.
    by rewrite Happ in Hstep.
Qed.

Lemma describe_all_Ok ids :
  (forall id, id ∈ ids -> is_Some (known_applications r !! id)) ->
  exists apps, describe_all r ∅ ids = Ok apps /\
    Forall2 (fun id app => known_applications r !! id = Some app) ids apps.
Proof.
  induction ids as [|id ids IH]; intros Hknown; simpl.
  { exists []. split; [done|constructor]. }
  destruct (Hknown id ltac:(left)) as [app Happ].
  destruct IH as (apps & -> & Hall); [intros i Hi; apply Hknown; by right|].
  rewrite (proj2 (describe_known id app) Happ). simpl.
  exists (app :: apps). split; [done|by constructor].
Qed.

(** Descriptions listed after their dependencies are accepted one by one. *)
Lemma register_all_Ok ids apps done_ids target :
  Forall2 (fun id app => known_applications r !! id = Some app) ids apps ->
  (forall id, id ∈ done_ids -> known_applications target !! id = known_applications r !! id) ->
  (forall id, id ∈ done_ids -> is_Some (known_applications r !! id)) ->
  (forall r1 id r2, ids = r1 ++ id :: r2 -> forall app d, known_applications r !! id = Some app ->
     d ∈ desc_required_application_ids app -> d ∈ done_ids ++ r1) ->
  exists target', register_all apps target = Ok target' /\
    forall id, id ∈ done_ids ++ ids ->
      known_applications target' !! id = known_applications r !! id.
Proof.
  destruct Hwf as (Hids & _). intros Hall. revert done_ids target.
  induction Hall as [|id app ids apps Happ Hall IH]; intros done_ids target Hdone Hsome Htop.
  { exists target. split; [done|]. intros id. rewrite app_nil_r. apply Hdone. }
  assert (register_application app target = Ok (id,
    {| published_bytecodes := published_bytecodes target;
       known_applications := <[id := app]> (known_applications target) |})) as Hfirst.
  { unfold register_application. rewrite (proj2 (check_required_Ok target _)).
    { simpl. by rewrite (Hids id app Happ). }
    intros d Hd. assert (d ∈ done_ids) as Hin.
    { specialize (Htop [] id ids eq_refl app d Happ Hd). by rewrite app_nil_r in Htop. }
    rewrite (Hdone d Hin). by apply Hsome. }
  unfold register_all. cbn [for_each]. rewrite Hfirst. simpl.
  destruct (IH (done_ids ++ [id]) {| published_bytecodes := published_bytecodes target;
    known_applications := <[id := app]> (known_applications target) |}) as (target' & Hreg & Hfin).
  - intros i Hi. simpl. destruct (decide (i = id)) as [->|Hne].
    + by rewrite lookup_insert_eq.
    + rewrite lookup_insert_ne by done. apply Hdone. set_solver.
  - intros i [Hi| ->%list_elem_of_singleton]%elem_of_app; [by apply Hsome|by rewrite Happ].
  - intros r1 i r2 -> a d Ha Hd. rewrite <- (assoc_L (++)). by apply (Htop (id :: r1) i r2 eq_refl a).
  - exists target'. split; [done|]. intros i Hi. apply Hfin. rewrite <- (assoc_L (++)). done.
Qed.

End wf.

(** ** Theorems *)

(** The search for dependencies terminates: on any registry, with cyclic or
    missing dependencies too, the loop ends within the number of stack entries
    that the known applications account for. *)
Theorem find_dependencies_terminates r registered stack :
  find_dependencies r registered stack <> Panic.
Proof. apply find_dependencies_no_panic. Qed.

(** The search for dependencies is a topological sort.  With acyclic
    dependencies the result has no duplicates, contains the applications asked
    for, and lists every dependency of an application before it. *)
Theorem find_dependencies_topological r registered rank stack ids :
  (forall id app d, find_description r registered id = Ok app ->
     d ∈ desc_required_application_ids app -> (rank d < rank id)%nat) ->
  find_dependencies r registered stack = Ok ids ->
  NoDup ids /\ (forall id, id ∈ stack -> id ∈ ids) /\
  (forall before id after, ids = before ++ id :: after ->
     forall app d, find_description r registered id = Ok app ->
       d ∈ desc_required_application_ids app -> d ∈ before).
Proof.
  intros Hacyclic Hfind.
  destruct (find_dependencies_sorted r registered rank Hacyclic stack ids Hfind)
    as (Hnd & Hstart & _ & Htop).
  split_and!; [done..|]. intros before id after Heq app d Happ Hd.
  eapply Htop; [done|]. by exists app.
Qed.

(** An application known by a chain can be announced to any other chain.
    The descriptions that a well-formed registry lists for known applications
    can be registered one after the other by any registry, and give it the same
    descriptions of these applications. *)
Theorem announced_applications_register r ids target :
  registry_wf r -> (forall id, id ∈ ids -> is_Some (known_applications r !! id)) ->
  exists apps target',
    describe_applications_with_dependencies r ids ∅ = Ok apps /\
    register_all apps target = Ok target' /\
    forall id, id ∈ ids -> known_applications target' !! id = known_applications r !! id.
Proof.
  intros Hwf Hknown. pose proof Hwf as (_ & _ & rank & Hrank).
  assert (exists sorted, find_dependencies r ∅ ids = Ok sorted) as [sorted Hsorted].
  { pose proof (find_dependencies_no_panic r ∅ ids) as Hp. unfold find_dependencies in *.
    destruct (dep_loop_Ok r Hwf (dep_fuel r ∅ ids)
      {| dep_stack := reverse ids; dep_result := []; dep_sorted := ∅; dep_seen := ∅ |})
      as [s ->]; [|by intros Heq; rewrite Heq in Hp|simpl; eauto].
    intros id Hid. apply Hknown. by apply elem_of_reverse. }
  destruct (find_dependencies_sorted r ∅ rank) with (start := ids) (ids := sorted)
    as (_ & Hstart & Hdesc & Htop); [|done|].
  { intros id app d Happ. apply Hrank. by apply describe_known. }
  unfold describe_applications_with_dependencies. rewrite Hsorted. simpl.
  destruct (describe_all_Ok r sorted) as (apps & -> & Hall).
  { intros id Hid. destruct (Hdesc id Hid) as [app Happ]. exists app. by apply describe_known. }
  destruct (register_all_Ok r Hwf sorted apps [] target Hall) as (target' & Hreg & Hfin).
  - intros id Hid. by apply not_elem_of_nil in Hid.
  - intros id Hid. by apply not_elem_of_nil in Hid.
  - intros r1 id r2 Heq app d Happ Hd. simpl. eapply Htop; [done|]. exists app.
    by rewrite describe_known.
  - exists apps, target'. split_and!; [done..|]. intros id Hid. apply Hfin. simpl. by apply Hstart.
Qed.

(** ** Examples *)

Module RegistryExamples.

Definition message_id (i : Z) : MessageId :=
  {| mid_chain_id := 1; mid_height := 0; mid_index := i |}.
Definition bytecode : BytecodeId := {| bytecode_message_id := message_id 0 |}.
Definition location : BytecodeLocation :=
  {| loc_certificate_hash := 3; loc_operation_index := 0 |}.
Definition app (i : Z) : UserApplicationId :=
  {| app_bytecode_id := bytecode; app_creation := message_id i |}.

(** Applications 2 and 3 need 1, application 4 needs 3 and 2. *)
Definition build : result SystemExecutionError ApplicationRegistry :=
  let r := register_published_bytecode bytecode location registry_default in
  r ← register_new_application (app 1) [] [] r;
  r ← register_new_application (app 2) [] [app 1] r;
  r ← register_new_application (app 3) [] [app 1] r;
  register_new_application (app 4) [] [app 3; app 2] r.
Definition registry : ApplicationRegistry :=
  match build with Ok r => r | _ => registry_default end.

Example dependencies_of_4 :
  find_dependencies registry ∅ [app 4] = Ok [app 1; app 3; app 2; app 4].
Proof. vm_compute. reflexivity. Qed.

Definition rank (id : UserApplicationId) : nat := Z.to_nat (mid_index (app_creation id)).

Lemma registry_default_wf : registry_wf registry_default.
Proof. split_and!; [by intros ? ?..|]. exists rank. by intros ? ?. Qed.


Lemma known_cases id d :
  known_applications registry !! id = Some d ->
  (id, d) ∈ map_to_list (known_applications registry).
Proof. apply elem_of_map_to_list. Qed.

Lemma registry_ranked id d q :
  known_applications registry !! id = Some d -> q ∈ desc_required_application_ids d ->
  (rank q < rank id)%nat.
Proof.
  intros Hid Hq.
  assert (Forall (fun p => Forall (fun q => (rank q < rank p.1)%nat)
    (desc_required_application_ids p.2)) (map_to_list (known_applications registry))) as Hall
    by decide_now.
  rewrite Forall_forall in Hall. specialize (Hall (id, d) (known_cases id d Hid)). simpl in Hall.
  rewrite Forall_forall in Hall. by apply Hall.
Qed.

Lemma registry_ok : registry_wf registry.
Proof.
  split_and!; [| |exists rank; apply registry_ranked].
  - intros id d Hid.
    assert (Forall (fun p => application_id_from p.2 = p.1)
      (map_to_list (known_applications registry))) as Hall by decide_now.
    rewrite Forall_forall in Hall. apply (Hall (id, d) (known_cases id d Hid)).
  - intros id d q Hid Hq.
    assert (Forall (fun p => Forall (fun q => is_Some (known_applications registry !! q))
      (desc_required_application_ids p.2)) (map_to_list (known_applications registry))) as Hall
      by decide_now.
    rewrite Forall_forall in Hall. specialize (Hall (id, d) (known_cases id d Hid)). simpl in Hall.
    rewrite Forall_forall in Hall. by apply Hall.
Qed.

Lemma find_dependencies_topological_witness :
  NoDup [app 1; app 3; app 2; app 4] /\
  (forall id, id ∈ [app 4] -> id ∈ [app 1; app 3; app 2; app 4]) /\
  (forall before id after, [app 1; app 3; app 2; app 4] = before ++ id :: after ->
     forall a d, find_description registry ∅ id = Ok a ->
       d ∈ desc_required_application_ids a -> d ∈ before).
Proof.
  apply (find_dependencies_topological registry ∅ rank [app 4]).
  - intros id a d Ha. apply registry_ranked. by apply describe_known.
  - vm_compute. reflexivity.
Defined.

Lemma announced_applications_register_witness :
  exists apps target',
    describe_applications_with_dependencies registry [app 4] ∅ = Ok apps /\
    register_all apps registry_default = Ok target' /\
    forall id, id ∈ [app 4] ->
      known_applications target' !! id = known_applications registry !! id.
Proof.
  apply (announced_applications_register registry [app 4] registry_default registry_ok).
  intros id ->%list_elem_of_singleton. decide_now.
Defined.

End RegistryExamples.
