(* ===== verification/System.v ===== *)
(** * The system application

    [linera-execution/src/system.rs]: transfers and accounts, opening and
    closing chains, ownership, committees, channel subscriptions, bytecodes and
    applications.  Each arm of [execute_operation] and [execute_message] is a
    definition; the two dispatchers compose them.

    The views of the state are plain values: registers hold their value, maps
    are [gmap]s, sets are [gset]s that iterate in the order of the serialized
    elements. *)

From S2P Require Import Prelude Numbers Types Crypto Committees Policy Bcs Inbox Errors Registry.

(** ** State *)

Record SystemState := {
  sys_description : option ChainDescription;
  sys_epoch : option Epoch;
  sys_admin_id : option ChainId;
  sys_subscriptions : gset ChannelSubscription;
  sys_committees : gmap Epoch Committee;
  sys_ownership : ChainOwnership;
  sys_balance : Amount;
  sys_balances : gmap Owner Amount;
  sys_timestamp : Timestamp;
  sys_registry : ApplicationRegistry;
}.

(** The state with one field replaced. *)
Definition set_ownership (ownership : ChainOwnership) (s : SystemState) : SystemState :=
  {| sys_description := sys_description s; sys_epoch := sys_epoch s;
     sys_admin_id := sys_admin_id s; sys_subscriptions := sys_subscriptions s;
     sys_committees := sys_committees s; sys_ownership := ownership;
     sys_balance := sys_balance s; sys_balances := sys_balances s;
     sys_timestamp := sys_timestamp s; sys_registry := sys_registry s |}.
Definition set_subscriptions (subscriptions : gset ChannelSubscription) (s : SystemState)
    : SystemState :=
  {| sys_description := sys_description s; sys_epoch := sys_epoch s;
     sys_admin_id := sys_admin_id s; sys_subscriptions := subscriptions;
     sys_committees := sys_committees s; sys_ownership := sys_ownership s;
     sys_balance := sys_balance s; sys_balances := sys_balances s;
     sys_timestamp := sys_timestamp s; sys_registry := sys_registry s |}.
Definition set_committees (epoch : option Epoch) (committees : gmap Epoch Committee)
    (s : SystemState) : SystemState :=
  {| sys_description := sys_description s; sys_epoch := epoch;
     sys_admin_id := sys_admin_id s; sys_subscriptions := sys_subscriptions s;
     sys_committees := committees; sys_ownership := sys_ownership s;
     sys_balance := sys_balance s; sys_balances := sys_balances s;
     sys_timestamp := sys_timestamp s; sys_registry := sys_registry s |}.
Definition set_balance (balance : Amount) (s : SystemState) : SystemState :=
  {| sys_description := sys_description s; sys_epoch := sys_epoch s;
     sys_admin_id := sys_admin_id s; sys_subscriptions := sys_subscriptions s;
     sys_committees := sys_committees s; sys_ownership := sys_ownership s;
     sys_balance := balance; sys_balances := sys_balances s;
     sys_timestamp := sys_timestamp s; sys_registry := sys_registry s |}.
Definition set_balances (balances : gmap Owner Amount) (s : SystemState) : SystemState :=
  {| sys_description := sys_description s; sys_epoch := sys_epoch s;
     sys_admin_id := sys_admin_id s; sys_subscriptions := sys_subscriptions s;
     sys_committees := sys_committees s; sys_ownership := sys_ownership s;
     sys_balance := sys_balance s; sys_balances := balances;
     sys_timestamp := sys_timestamp s; sys_registry := sys_registry s |}.
Definition set_timestamp (timestamp : Timestamp) (s : SystemState) : SystemState :=
  {| sys_description := sys_description s; sys_epoch := sys_epoch s;
     sys_admin_id := sys_admin_id s; sys_subscriptions := sys_subscriptions s;
     sys_committees := sys_committees s; sys_ownership := sys_ownership s;
     sys_balance := sys_balance s; sys_balances := sys_balances s;
     sys_timestamp := timestamp; sys_registry := sys_registry s |}.
Definition set_registry (registry : ApplicationRegistry) (s : SystemState) : SystemState :=
  {| sys_description := sys_description s; sys_epoch := sys_epoch s;
     sys_admin_id := sys_admin_id s; sys_subscriptions := sys_subscriptions s;
     sys_committees := sys_committees s; sys_ownership := sys_ownership s;
     sys_balance := sys_balance s; sys_balances := sys_balances s;
     sys_timestamp := sys_timestamp s; sys_registry := registry |}.

(** [MapView::get_mut_or_default]: the entry is created when it is missing. *)
Definition balance_of (s : SystemState) (owner : Owner) : Amount :=
  default 0 (sys_balances s !! owner).
Definition set_balance_of (owner : Owner) (amount : Amount) (s : SystemState) : SystemState :=
  set_balances (<[owner := amount]> (sys_balances s)) s.

(** [Account::chain] and [Account::owner]. *)
Definition account_of_chain (chain_id : ChainId) : Account :=
  {| account_chain_id := chain_id; account_owner := None |}.
Definition account_of_owner (chain_id : ChainId) (owner : Owner) : Account :=
  {| account_chain_id := chain_id; account_owner := Some owner |}.

Definition current_committee (s : SystemState) : option (Epoch * Committee) :=
  epoch ← sys_epoch s;
  committee ← sys_committees s !! epoch;
  Some (epoch, committee).

Definition system_is_active (s : SystemState) : bool :=
  bool_decide (is_Some (sys_description s)) && ownership_is_active (sys_ownership s) &&
  bool_decide (is_Some (current_committee s)) && bool_decide (is_Some (sys_admin_id s)).

Section system.
Context `{Crypto, Bcs}.

Notation sys_message := (RawOutgoingMessage SystemMessage).
Notation sys_result := (RawExecutionResult SystemMessage).

(** [SystemChannel::name]. *)
Definition system_channel_name (self : SystemChannel) : ChannelName := bcs_system_channel self.

(** [ChainId::child] and [ChainId::root]. *)
Definition chain_id_child (id : MessageId) : ChainId := chain_id_from (Child id).
Definition chain_id_root (index : Z) : ChainId := chain_id_from (Root index).

(** A message that is neither authenticated nor skippable. *)
Definition plain_message (destination : Destination) (message : SystemMessage) : sys_message :=
  {| raw_destination := destination; raw_authenticated := false; raw_is_skippable := false;
     raw_message := message |}.

(** A result that only sends messages. *)
Definition messages_result (messages : list sys_message) : sys_result :=
  {| res_authenticated_signer := None; res_messages := messages;
     res_subscribe := []; res_unsubscribe := [] |}.

(** ** Operations *)

Definition exec_open_chain (context : OperationContext) (ownership : ChainOwnership)
    (admin_id : ChainId) (epoch : Epoch) (committees : gmap Epoch Committee) (s : SystemState)
    : result SystemExecutionError (list sys_message) :=
  let child_id := chain_id_child (next_message_id context) in
  ensure (bool_decide (sys_admin_id s = Some admin_id)) (InvalidNewChainAdminId child_id) ;;
  ensure (bool_decide (sys_committees s = committees)) InvalidCommittees ;;
  ensure (bool_decide (sys_epoch s = Some epoch)) (InvalidEpoch child_id epoch) ;;
  let e1 := plain_message (Recipient child_id)
    (MsgOpenChain ownership admin_id epoch committees) in
  let subscription :=
    {| sub_chain_id := admin_id; sub_name := system_channel_name AdminChannel |} in
  let e2 := plain_message (Recipient admin_id) (MsgSubscribe child_id subscription) in
  Ok [e1; e2].

Definition exec_change_owner (new_public_key : PublicKey) (s : SystemState) : SystemState :=
  set_ownership (ownership_single new_public_key) s.

Definition exec_change_multiple_owners (new_public_keys : list (PublicKey * Z))
    (multi_leader_rounds : RoundNumber) (s : SystemState) : SystemState :=
  set_ownership (ownership_multiple new_public_keys multi_leader_rounds) s.

Definition exec_close_chain (context : OperationContext) (s : SystemState)
    : SystemState * list sys_message :=
  let messages :=
    (fun subscription =>
       plain_message (Recipient (sub_chain_id subscription))
         (MsgUnsubscribe (opctx_chain_id context) subscription)) <$>
    sort_by bcs_subscription (elements (sys_subscriptions s)) in
  (set_subscriptions ∅ (set_ownership OwnershipNone s), messages).

(** The message that credits the recipient of a transfer, if any. *)
Definition credit_message (recipient : TransferRecipient) (amount : Amount)
    : list sys_message :=
  match recipient with
  | ToAccount account =>
      [plain_message (Recipient (account_chain_id account)) (MsgCredit account amount)]
  | Burn => []
  end.

Definition exec_transfer (context : OperationContext) (owner : option Owner)
    (recipient : TransferRecipient) (amount : Amount) (s : SystemState)
    : result SystemExecutionError (SystemState * list sys_message) :=
  match owner with
  | Some _ =>
      ensure (bool_decide (opctx_authenticated_signer context = owner))
        UnauthenticatedTransferOwner
  | None => Ok ()
  end ;;
  ensure (0 <? amount) IncorrectTransferAmount ;;
  let balance :=
    match owner with Some owner => balance_of s owner | None => sys_balance s end in
  ensure (amount <=? balance) (InsufficientFunding balance) ;;
  balance ← map_err SysArithmeticError (try_sub_assign balance amount);
  let s :=
    match owner with
    | Some owner => set_balance_of owner balance s
    | None => set_balance balance s
    end in
  Ok (s, credit_message recipient amount).

Definition exec_claim (context : OperationContext) (owner : Owner) (target : ChainId)
    (recipient : TransferRecipient) (amount : Amount) (user_data : UserData)
    : result SystemExecutionError (list sys_message) :=
  ensure (bool_decide (opctx_authenticated_signer context = Some owner))
    UnauthenticatedClaimOwner ;;
  ensure (0 <? amount) IncorrectClaimAmount ;;
  Ok [{| raw_destination := Recipient target;
         raw_authenticated := true;
         raw_is_skippable := false;
         raw_message :=
           MsgWithdraw (account_of_owner target owner) amount recipient user_data |}].

Definition exec_create_committee (epoch : Epoch) (committee : Committee) (s : SystemState)
    : result SystemExecutionError (SystemState * list sys_message) :=
  current ← expect (sys_epoch s);
  next ← map_err SysArithmeticError (epoch_try_add_one current);
  ensure (epoch =? next) InvalidCommitteeCreation ;;
  let committees := <[epoch := committee]> (sys_committees s) in
  Ok (set_committees (Some epoch) committees s,
      [plain_message (Subscribers (system_channel_name AdminChannel))
         (MsgSetCommittees epoch committees)]).

Definition exec_remove_committee (epoch : Epoch) (s : SystemState)
    : result SystemExecutionError (SystemState * list sys_message) :=
  ensure (bool_decide (is_Some (sys_committees s !! epoch))) InvalidCommitteeRemoval ;;
  let committees := delete epoch (sys_committees s) in
  current ← expect (sys_epoch s);
  Ok (set_committees (sys_epoch s) committees s,
      [plain_message (Subscribers (system_channel_name AdminChannel))
         (MsgSetCommittees current committees)]).

Definition exec_admin (context : OperationContext) (operation : AdminOperation)
    (s : SystemState) : result SystemExecutionError (SystemState * list sys_message) :=
  ensure (bool_decide (sys_admin_id s = Some (opctx_chain_id context)))
    AdminOperationOnNonAdminChain ;;
  match operation with
  | CreateCommittee epoch committee => exec_create_committee epoch committee s
  | RemoveCommittee epoch => exec_remove_committee epoch s
  end.

Definition exec_subscribe (context : OperationContext) (chain_id : ChainId)
    (channel : SystemChannel) (s : SystemState)
    : result SystemExecutionError (SystemState * list sys_message) :=
  ensure (negb (opctx_chain_id context =? chain_id))
    (SelfSubscription (opctx_chain_id context) channel) ;;
  (if bool_decide (channel = AdminChannel) then
     ensure (bool_decide (sys_admin_id s = Some chain_id))
       (InvalidAdminSubscription (opctx_chain_id context) channel)
   else Ok ()) ;;
  let subscription :=
    {| sub_chain_id := chain_id; sub_name := system_channel_name channel |} in
  ensure (bool_decide (subscription ∉ sys_subscriptions s))
    (NoSuchChannel (opctx_chain_id context) channel) ;;
  Ok (set_subscriptions ({[subscription]} ∪ sys_subscriptions s) s,
      [plain_message (Recipient chain_id) (MsgSubscribe (opctx_chain_id context) subscription)]).

Definition exec_unsubscribe (context : OperationContext) (chain_id : ChainId)
    (channel : SystemChannel) (s : SystemState)
    : result SystemExecutionError (SystemState * list sys_message) :=
  let subscription :=
    {| sub_chain_id := chain_id; sub_name := system_channel_name channel |} in
  ensure (bool_decide (subscription ∈ sys_subscriptions s))
    (InvalidUnsubscription (opctx_chain_id context) channel) ;;
  Ok (set_subscriptions (sys_subscriptions s ∖ {[subscription]}) s,
      [plain_message (Recipient chain_id) (MsgUnsubscribe (opctx_chain_id context) subscription)]).

Definition exec_publish_bytecode (context : OperationContext) : list sys_message :=
  [plain_message (Recipient (opctx_chain_id context))
     (MsgBytecodePublished (opctx_index context))].

Definition exec_create_application (context : OperationContext) (bytecode_id : BytecodeId)
    (parameters : bytes) (required_application_ids : list UserApplicationId) (s : SystemState)
    : result SystemExecutionError (SystemState * list sys_message * UserApplicationId) :=
  let id := {| app_bytecode_id := bytecode_id; app_creation := next_message_id context |} in
  registry ←
    register_new_application id parameters required_application_ids (sys_registry s);
  Ok (set_registry registry s,
      [plain_message (Recipient (opctx_chain_id context)) MsgApplicationCreated], id).

Definition exec_request_application (chain_id : ChainId) (application_id : UserApplicationId)
    : list sys_message :=
  [plain_message (Recipient chain_id) (MsgRequestApplication application_id)].

(** [execute_operation]: the new state, the result, and the application to
    initialize with its argument. *)
Definition system_execute_operation (context : OperationContext) (operation : SystemOperation)
    (s : SystemState)
    : result SystemExecutionError
        (SystemState * sys_result * option (UserApplicationId * bytes)) :=
  let keep := fun messages => Ok (s, messages_result messages, None) in
  let update := fun '(s, messages) => Ok (s, messages_result messages, None) in
  match operation with
  | OpOpenChain ownership admin_id epoch committees =>
      messages ← exec_open_chain context ownership admin_id epoch committees s; keep messages
  | OpChangeOwner new_public_key => update (exec_change_owner new_public_key s, [])
  | OpChangeMultipleOwners new_public_keys multi_leader_rounds =>
      update (exec_change_multiple_owners new_public_keys multi_leader_rounds s, [])
  | OpCloseChain => update (exec_close_chain context s)
  | OpTransfer owner recipient amount _ =>
      p ← exec_transfer context owner recipient amount s; update p
  | OpClaim owner target recipient amount user_data =>
      messages ← exec_claim context owner target recipient amount user_data; keep messages
  | OpAdmin operation => p ← exec_admin context operation s; update p
  | OpSubscribe chain_id channel => p ← exec_subscribe context chain_id channel s; update p
  | OpUnsubscribe chain_id channel => p ← exec_unsubscribe context chain_id channel s; update p
  | OpPublishBytecode _ _ => keep (exec_publish_bytecode context)
  | OpCreateApplication bytecode_id parameters argument required_application_ids =>
      '(s, messages, id) ←
        exec_create_application context bytecode_id parameters required_application_ids s;
      Ok (s, messages_result messages, Some (id, argument))
  | OpRequestApplication chain_id application_id =>
      keep (exec_request_application chain_id application_id)
  end.

(** ** Messages *)

Definition receive_credit (account : Account) (amount : Amount) (s : SystemState)
    : SystemState :=
  match account_owner account with
  | None => set_balance (num_saturating_add u128_MAX (sys_balance s) amount) s
  | Some owner => set_balance_of owner (num_saturating_add u128_MAX (balance_of s owner) amount) s
  end.

(** A withdrawal without enough funds changes nothing, except that the entry of
    the owner now exists. *)
Definition receive_withdraw (owner : Owner) (amount : Amount) (recipient : TransferRecipient)
    (s : SystemState) : SystemState * list sys_message :=
  match try_sub_assign (balance_of s owner) amount with
  | Ok balance => (set_balance_of owner balance s, credit_message recipient amount)
  | _ => (set_balance_of owner (balance_of s owner) s, [])
  end.

Definition receive_set_committees (epoch : Epoch) (committees : gmap Epoch Committee)
    (s : SystemState) : result SystemExecutionError SystemState :=
  current ← expect (sys_epoch s);
  ensure (current <=? epoch) CannotRewindEpoch ;;
  Ok (set_committees (Some epoch) committees s).

(** The subscriber is notified and added; [res_subscribe] is applied by the
    chain. *)
Definition receive_subscribe (id : ChainId) (subscription : ChannelSubscription) : sys_result :=
  {| res_authenticated_signer := None;
     res_messages := [plain_message (Recipient id) (MsgNotify id)];
     res_subscribe := [(sub_name subscription, id)];
     res_unsubscribe := [] |}.

Definition receive_unsubscribe (id : ChainId) (subscription : ChannelSubscription) : sys_result :=
  {| res_authenticated_signer := None;
     res_messages := [plain_message (Recipient id) (MsgNotify id)];
     res_subscribe := [];
     res_unsubscribe := [(sub_name subscription, id)] |}.

Definition receive_bytecode_published (context : MessageContext) (operation_index : Z)
    (s : SystemState) : SystemState * list sys_message :=
  let bytecode_id := {| bytecode_message_id := msgctx_message_id context |} in
  let bytecode_location :=
    {| loc_certificate_hash := msgctx_certificate_hash context;
       loc_operation_index := operation_index |} in
  let registry := register_published_bytecode bytecode_id bytecode_location (sys_registry s) in
  (set_registry registry s,
   [plain_message (Subscribers (system_channel_name PublishedBytecodes))
      (MsgBytecodeLocations (bytecode_locations registry))]).

Definition receive_bytecode_locations (locations : list (BytecodeId * BytecodeLocation))
    (s : SystemState) : SystemState :=
  set_registry
    (foldl (fun registry '(id, location) => register_published_bytecode id location registry)
       (sys_registry s) locations) s.

Definition receive_register_applications (applications : list UserApplicationDescription)
    (s : SystemState) : result SystemExecutionError SystemState :=
  registry ← register_all applications (sys_registry s);
  Ok (set_registry registry s).

Definition receive_request_application (context : MessageContext)
    (application_id : UserApplicationId) (s : SystemState)
    : result SystemExecutionError (list sys_message) :=
  match describe_applications_with_dependencies (sys_registry s) [application_id] ∅ with
  | Err (UnknownApplicationId _) => Ok []
  | Err e => Err e
  | Panic => Panic
  | Ok applications =>
      Ok [{| raw_destination := Recipient (mid_chain_id (msgctx_message_id context));
             raw_authenticated := false;
             raw_is_skippable := true;
             raw_message := MsgRegisterApplications applications |}]
  end.

(** [execute_message]: the new state and the result.  A message that does not
    match any case is skipped. *)
Definition system_execute_message (context : MessageContext) (message : SystemMessage)
    (s : SystemState) : result SystemExecutionError (SystemState * sys_result) :=
  let keep := fun messages => Ok (s, messages_result messages) in
  let update := fun '(s, messages) => Ok (s, messages_result messages) in
  match message with
  | MsgCredit account amount =>
      if msgctx_chain_id context =? account_chain_id account
      then update (receive_credit account amount s, [])
      else keep []
  | MsgWithdraw account amount recipient _ =>
      match account_owner account with
      | Some owner =>
          if (account_chain_id account =? msgctx_chain_id context) &&
             bool_decide (msgctx_authenticated_signer context = Some owner)
          then update (receive_withdraw owner amount recipient s)
          else keep []
      | None => keep []
      end
  | MsgSetCommittees epoch committees =>
      s ← receive_set_committees epoch committees s; update (s, [])
  | MsgSubscribe id subscription =>
      if sub_chain_id subscription =? msgctx_chain_id context
      then Ok (s, receive_subscribe id subscription)
      else keep []
  | MsgUnsubscribe id subscription =>
      if sub_chain_id subscription =? msgctx_chain_id context
      then Ok (s, receive_unsubscribe id subscription)
      else keep []
  | MsgBytecodePublished operation_index =>
      update (receive_bytecode_published context operation_index s)
  | MsgBytecodeLocations locations => update (receive_bytecode_locations locations s, [])
  | MsgApplicationCreated | MsgNotify _ => keep []
  | MsgOpenChain _ _ _ _ => keep []
  | MsgRegisterApplications applications =>
      s ← receive_register_applications applications s; update (s, [])
  | MsgRequestApplication application_id =>
      messages ← receive_request_application context application_id s; keep messages
  end.

(** [open_chain]: executed as soon as the message is received. *)
Definition open_chain {E} (message_id : MessageId) (ownership : ChainOwnership) (epoch : Epoch)
    (committees : gmap Epoch Committee) (admin_id : ChainId) (timestamp : Timestamp)
    (s : SystemState) : result E SystemState :=
  assertion (bool_decide (sys_description s = None)) ;;
  assertion (negb (ownership_is_active (sys_ownership s))) ;;
  assertion (bool_decide (sys_committees s = ∅)) ;;
  Ok {| sys_description := Some (Child message_id);
        sys_epoch := Some epoch;
        sys_admin_id := Some admin_id;
        sys_subscriptions :=
          {[ {| sub_chain_id := admin_id; sub_name := system_channel_name AdminChannel |} ]} ∪
          sys_subscriptions s;
        sys_committees := committees;
        sys_ownership := ownership;
        sys_balance := sys_balance s;
        sys_balances := sys_balances s;
        sys_timestamp := timestamp;
        sys_registry := sys_registry s |}.

(** [handle_query]: the chain and its unattributed balance. *)
Definition system_handle_query (chain_id : ChainId) (s : SystemState) : ChainId * Amount :=
  (chain_id, sys_balance s).

End system.

(** ** Tokens *)

(** The tokens held by a chain, and those on their way in its messages. *)
Definition total_tokens (s : SystemState) : Z := sys_balance s + map_sum (sys_balances s).

Definition credited (r : RawExecutionResult SystemMessage) : Z :=
  foldr (fun m acc =>
    match raw_message m with MsgCredit _ amount => amount + acc | _ => acc end) 0 (res_messages r).

(** The tokens an operation, or a message, destroys. *)
Definition burned_by (operation : SystemOperation) : Z :=
  match operation with OpTransfer _ Burn amount _ => amount | _ => 0 end.

Definition balances_wf (s : SystemState) : Prop :=
  in_range u128_MAX (sys_balance s) /\
  map_Forall (fun _ amount => in_range u128_MAX amount) (sys_balances s).

Lemma balance_of_range s owner : balances_wf s -> in_range u128_MAX (balance_of s owner).
Proof.
  intros [_ Hall]. unfold balance_of. destruct (sys_balances s !! owner) eqn:Ho; simpl.
  - by apply (Hall owner).
  - by vm_compute.
Qed.

Lemma set_balance_of_wf s owner amount :
  balances_wf s -> in_range u128_MAX amount -> balances_wf (set_balance_of owner amount s).
Proof. intros [Hb Hall] Ha. split; [done|]. simpl. by apply map_Forall_insert_2. Qed.

Lemma total_set_balance_of s owner amount :
  total_tokens (set_balance_of owner amount s) = total_tokens s + amount - balance_of s owner.
Proof. unfold total_tokens, balance_of. simpl. rewrite map_sum_insert. lia. Qed.

Lemma total_set_balance s amount :
  total_tokens (set_balance amount s) = total_tokens s + amount - sys_balance s.
Proof. unfold total_tokens. simpl. lia. Qed.

Section tokens.
Context `{Crypto, Bcs}.

(** The arms that do not touch the balances. *)
Definition same_balances (s s' : SystemState) : Prop :=
  sys_balance s' = sys_balance s /\ sys_balances s' = sys_balances s.

Lemma credited_none messages :
  Forall (fun m => match raw_message m with MsgCredit _ _ => False | _ => True end) messages ->
  credited (messages_result messages) = 0.
Proof.
  unfold credited. simpl. induction 1 as [|m messages Hm _ IH]; simpl; [done|].
  by destruct (raw_message m).
Qed.

Lemma credited_credit recipient amount :
  credited (messages_result (credit_message recipient amount)) =
  match recipient with Burn => 0 | ToAccount _ => amount end.
Proof. destruct recipient; simpl; [done|]. unfold credited. simpl. lia. Qed.

Lemma exec_transfer_Ok context owner recipient amount s s' messages :
  exec_transfer context owner recipient amount s = Ok (s', messages) ->
  messages = credit_message recipient amount /\ 0 < amount /\
  match owner with
  | Some o => opctx_authenticated_signer context = Some o /\ amount <= balance_of s o /\
      s' = set_balance_of o (balance_of s o - amount) s
  | None => amount <= sys_balance s /\ s' = set_balance (sys_balance s - amount) s
  end.
Proof.
  unfold exec_transfer. intros Ht.
  apply bind_Ok in Ht as ([] & Hauth & Ht). apply bind_Ok in Ht as ([] & Hpos & Ht).
  apply bind_Ok in Ht as ([] & Hfund & Ht). apply bind_Ok in Ht as (balance & Hsub & [= <- <-]).
  inv_result. apply try_sub_assign_Ok in Hsub as [-> Hle].
  split; [done|]. split; [lia|]. destruct owner as [o|]; inv_result; done.
Qed.

(** An operation either leaves the balances alone and credits nobody, or is a
    successful transfer. *)
Lemma execute_operation_cases context operation s s' r new :
  system_execute_operation context operation s = Ok (s', r, new) ->
  (same_balances s s' /\ credited r = 0 /\ burned_by operation = 0) \/
  (exists owner recipient amount data messages,
     operation = OpTransfer owner recipient amount data /\ r = messages_result messages /\
     exec_transfer context owner recipient amount s = Ok (s', messages)).
Proof.
  unfold system_execute_operation. intros Hop.
  destruct operation as [owner recipient amount data|owner target recipient amount data
    |ownership admin epoch committees| |key|keys rounds|chain channel|chain channel
    |contract service|bytecode parameters argument required|chain app|admin].
  - right. apply bind_Ok in Hop as ([s1 messages] & Ht & [= <- <- <-]).
    by exists owner, recipient, amount, data, messages.
  - left. apply bind_Ok in Hop as (messages & Hc & [= <- <- <-]). split_and!; [done| |done].
    unfold exec_claim in Hc. inv_result. subst. by apply credited_none; repeat constructor.
  - left. apply bind_Ok in Hop as (messages & Hc & [= <- <- <-]). split_and!; [done| |done].
    unfold exec_open_chain in Hc. inv_result. subst. by apply credited_none; repeat constructor.
  - left. injection Hop as <- <- <-. split_and!; [done| |done]. apply credited_none, Forall_fmap.
    by apply Forall_true.
  - left. by injection Hop as <- <- <-.
  - left. by injection Hop as <- <- <-.
  - left. apply bind_Ok in Hop as ([s1 messages] & Hc & [= <- <- <-]). unfold exec_subscribe in Hc.
    inv_result. simplify_eq. split_and!; [done| |done]. by apply credited_none; repeat constructor.
  - left. apply bind_Ok in Hop as ([s1 messages] & Hc & [= <- <- <-]).
    unfold exec_unsubscribe in Hc. inv_result. simplify_eq. split_and!; [done| |done].
    by apply credited_none; repeat constructor.
  - left. by injection Hop as <- <- <-.
  - left. apply bind_Ok in Hop as ([[s1 messages] id] & Hc & [= <- <- <-]).
    unfold exec_create_application in Hc. inv_result. simplify_eq. split_and!; [done| |done].
    by apply credited_none; repeat constructor.
  - left. by injection Hop as <- <- <-.
  - left. apply bind_Ok in Hop as ([s1 messages] & Hc & [= <- <- <-]). unfold exec_admin in Hc.
    inv_result. destruct admin.
    + unfold exec_create_committee in Hc. inv_result. simplify_eq. split_and!; [done| |done].
      by apply credited_none; repeat constructor.
    + unfold exec_remove_committee in Hc. inv_result. simplify_eq. split_and!; [done| |done].
      by apply credited_none; repeat constructor.
Qed.

Lemma same_balances_total s s' : same_balances s s' -> total_tokens s' = total_tokens s.
Proof. intros [Hb Hbs]. unfold total_tokens. by rewrite Hb, Hbs. Qed.

Lemma same_balances_wf s s' : same_balances s s' -> balances_wf s -> balances_wf s'.
Proof. intros [Hb Hbs]. unfold balances_wf. by rewrite Hb, Hbs. Qed.

Lemma execute_operation_tokens context operation s s' r new :
  balances_wf s ->
  system_execute_operation context operation s = Ok (s', r, new) ->
  total_tokens s = total_tokens s' + credited r + burned_by operation /\ balances_wf s'.
Proof.
  intros Hwf Hop.
  destruct (execute_operation_cases _ _ _ _ _ _ Hop)
    as [(Hsame & Hcr & Hb)|(owner & recipient & amount & data & messages & -> & -> & Ht)].
  - rewrite Hcr, Hb, (same_balances_total _ _ Hsame).
    split; [lia|by apply (same_balances_wf s)].
  - apply exec_transfer_Ok in Ht as (-> & Hpos & Howner). rewrite credited_credit.
    destruct owner as [o|].
    + destruct Howner as (_ & Hle & ->). rewrite total_set_balance_of. split.
      * destruct recipient; simpl; lia.
      * apply set_balance_of_wf; [done|]. pose proof (balance_of_range s o Hwf).
        unfold in_range in *. lia.
    + destruct Howner as (Hle & ->). rewrite total_set_balance. split.
      * destruct recipient; simpl; lia.
      * destruct Hwf as [Hb Hall]. split; [|done]. simpl. unfold in_range in *. lia.
Qed.

(** Operations conserve tokens.  What a chain holds before a system
    operation is what it holds afterwards, plus what the messages sent will
    credit, plus what a transfer burns; and the balances stay within the 128
    bits of an amount. *)
Theorem operations_conserve_tokens context operation s s' r new :
  balances_wf s ->
  system_execute_operation context operation s = Ok (s', r, new) ->
  total_tokens s = total_tokens s' + credited r + burned_by operation /\ balances_wf s'.
Proof. apply execute_operation_tokens. Qed.

(** The amount carried by a message, and the tokens it brings to the chain that
    executes it. *)
Definition message_amount (m : SystemMessage) : Z :=
  match m with MsgCredit _ amount | MsgWithdraw _ amount _ _ => amount | _ => 0 end.
Definition received (context : MessageContext) (m : SystemMessage) : Z :=
  match m with
  | MsgCredit account amount =>
      if msgctx_chain_id context =? account_chain_id account then amount else 0
  | _ => 0
  end.
Definition burns (m : SystemMessage) : bool :=
  match m with MsgWithdraw _ _ Burn _ => true | _ => false end.

Lemma receive_credit_tokens account amount s :
  balances_wf s -> in_range u128_MAX amount ->
  let s' := receive_credit account amount s in
  balances_wf s' /\ total_tokens s' <= total_tokens s + amount /\
  (total_tokens s + amount <= u128_MAX -> total_tokens s' = total_tokens s + amount).
Proof.
  intros Hwf [Ha Hmax] s'. unfold s', receive_credit, num_saturating_add, saturating_add.
  assert (map_Forall (fun _ x => 0 <= x) (sys_balances s)) as Hnn.
  { intros o x Ho. destruct Hwf as [_ Hall]. by destruct (Hall o x Ho). }
  destruct (account_owner account) as [o|].
  - pose proof (balance_of_range s o Hwf) as [Hb1 Hb2].
    rewrite total_set_balance_of. split_and!; [|lia|].
    + apply set_balance_of_wf; [done|]. unfold in_range in *. lia.
    + intros Hle. assert (balance_of s o <= map_sum (sys_balances s)).
      { unfold balance_of. destruct (sys_balances s !! o) as [x|] eqn:Ho; simpl.
        - by eapply map_sum_ge.
        - by apply map_sum_nonneg. }
      destruct Hwf as [[Hb _] _]. unfold total_tokens in *. lia.
  - rewrite total_set_balance. destruct Hwf as [[Hb1 Hb2] Hall]. split_and!; [|lia|].
    + split; [|done]. simpl. unfold in_range. lia.
    + pose proof (map_sum_nonneg _ Hnn). unfold total_tokens. lia.
Qed.

Lemma receive_withdraw_tokens owner amount recipient s s' messages :
  balances_wf s -> 0 <= amount -> receive_withdraw owner amount recipient s = (s', messages) ->
  balances_wf s' /\
  total_tokens s' + credited (messages_result messages) <= total_tokens s /\
  (recipient <> Burn -> total_tokens s' + credited (messages_result messages) = total_tokens s).
Proof.
  intros Hwf Ha. unfold receive_withdraw. pose proof (balance_of_range s owner Hwf) as [Hb1 Hb2].
  destruct (try_sub_assign (balance_of s owner) amount) as [b| |] eqn:Hsub; intros [= <- <-].
  - apply try_sub_assign_Ok in Hsub as [-> Hle].
    rewrite total_set_balance_of, credited_credit. split_and!.
    + apply set_balance_of_wf; [done|]. unfold in_range. lia.
    + destruct recipient; lia.
    + intros Hr. destruct recipient; [done|lia].
  - rewrite total_set_balance_of. change (credited _) with 0. split_and!; [|lia|lia].
    apply set_balance_of_wf; [done|]. unfold in_range. lia.
  - rewrite total_set_balance_of. change (credited _) with 0. split_and!; [|lia|lia].
    apply set_balance_of_wf; [done|]. unfold in_range. lia.
Qed.

(** A message either leaves the balances alone and credits nobody, or is an
    executed credit or withdrawal. *)
Lemma execute_message_cases context m s s' r :
  system_execute_message context m s = Ok (s', r) ->
  (same_balances s s' /\ credited r = 0 /\ received context m = 0) \/
  (exists account amount, m = MsgCredit account amount /\ received context m = amount /\
     s' = receive_credit account amount s /\ r = messages_result []) \/
  (exists account owner amount recipient data messages,
     m = MsgWithdraw account amount recipient data /\ received context m = 0 /\
     msgctx_authenticated_signer context = Some owner /\ r = messages_result messages /\
     receive_withdraw owner amount recipient s = (s', messages)).
Proof.
  unfold system_execute_message. intros Hm.
  destruct m as [account amount|account amount recipient data| |epoch committees|id sub|id sub
    |index| |locations|applications|id|id].
  - simpl. destruct (Z.eqb_spec (msgctx_chain_id context) (account_chain_id account)).
    + right. left. injection Hm as <- <-. by exists account, amount.
    + left. by injection Hm as <- <-.
  - destruct (account_owner account) as [owner|]; [|left; by injection Hm as <- <-].
    destruct (account_chain_id account =? msgctx_chain_id context); simpl in Hm;
      [|left; by injection Hm as <- <-].
    case_bool_decide; [|left; by injection Hm as <- <-]. right. right.
    destruct (receive_withdraw owner amount recipient s) as [s1 messages] eqn:Hw.
    injection Hm as <- <-. exists account, owner, amount, recipient, data, messages.
    by split_and!.
  - left. by injection Hm as <- <-.
  - left. apply bind_Ok in Hm as (s1 & Hc & [= <- <-]). unfold receive_set_committees in Hc.
    inv_result. by subst.
  - left. destruct (_ =? _); by injection Hm as <- <-.
  - left. destruct (_ =? _); by injection Hm as <- <-.
  - left. by injection Hm as <- <-.
  - left. by injection Hm as <- <-.
  - left. by injection Hm as <- <-.
  - left. apply bind_Ok in Hm as (s1 & Hc & [= <- <-]).
    unfold receive_register_applications in Hc. inv_result. by subst.
  - left. by injection Hm as <- <-.
  - left. apply bind_Ok in Hm as (messages & Hc & [= <- <-]). split_and!; [done| |done].
    unfold receive_request_application in Hc. apply credited_none.
    destruct (describe_applications_with_dependencies _ _ _) as [apps|[]|];
      simplify_eq; by repeat constructor.
Qed.

(** System messages do not authenticate what they send. *)
Lemma system_message_unsigned context m s s' r :
  system_execute_message context m s = Ok (s', r) -> res_authenticated_signer r = None.
Proof.
  unfold system_execute_message. intros Hm.
  destruct m; inv_result; repeat case_match; inv_result; simplify_eq; done.
Qed.

Lemma execute_message_tokens context m s s' r :
  balances_wf s -> in_range u128_MAX (message_amount m) ->
  system_execute_message context m s = Ok (s', r) ->
  balances_wf s' /\
  total_tokens s' + credited r <= total_tokens s + received context m /\
  (total_tokens s + received context m <= u128_MAX -> burns m = false ->
   total_tokens s' + credited r = total_tokens s + received context m).
Proof.
  intros Hwf Ha Hm.
  destruct (execute_message_cases _ _ _ _ _ Hm)
    as [(Hsame & Hcr & Hrec)|[(account & amount & -> & Hrec & -> & ->)
       |(account & owner & amount & recipient & data & messages & -> & Hrec & _ & -> & Hw)]];
    rewrite Hrec.
  - rewrite Hcr, (same_balances_total _ _ Hsame).
    split_and!; [by apply (same_balances_wf s)|lia|lia].
  - change (credited _) with 0.
    destruct (receive_credit_tokens account amount s Hwf Ha) as (? & ? & Heq).
    split_and!; [done|lia|]. intros Hle _. specialize (Heq Hle). lia.
  - destruct (receive_withdraw_tokens _ _ _ _ _ _ Hwf (proj1 Ha) Hw) as (? & ? & Heq).
    split_and!; [done|lia|]. intros _ Hb. rewrite Heq; [lia|]. intros ->. done.
Qed.

(** Messages conserve tokens.  Executing a system message never creates
    tokens: what the chain holds afterwards and what its new messages will
    credit is at most what it held before and what the message brought.  It is
    exactly that unless the total does not fit in an amount or the message
    burns tokens.  The balances stay within 128 bits. *)
Theorem messages_conserve_tokens context m s s' r :
  balances_wf s -> in_range u128_MAX (message_amount m) ->
  system_execute_message context m s = Ok (s', r) ->
  balances_wf s' /\
  total_tokens s' + credited r <= total_tokens s + received context m /\
  (total_tokens s + received context m <= u128_MAX -> burns m = false ->
   total_tokens s' + credited r = total_tokens s + received context m).
Proof. apply execute_message_tokens. Qed.

(** C32: Only its owner spends an account.  If a system operation or message
    lowers the balance of an owner, it was authenticated by that owner. *)
Theorem only_owner_spends s owner :
  (forall context operation s' r new,
     system_execute_operation context operation s = Ok (s', r, new) ->
     balance_of s' owner < balance_of s owner ->
     opctx_authenticated_signer context = Some owner) /\
  (forall context m s' r, balances_wf s -> in_range u128_MAX (message_amount m) ->
     system_execute_message context m s = Ok (s', r) ->
     balance_of s' owner < balance_of s owner ->
     msgctx_authenticated_signer context = Some owner).
Proof.
  assert (forall o x, owner <> o -> balance_of (set_balance_of o x s) owner = balance_of s owner)
    as Hne.
  { intros o x Hno. unfold balance_of. simpl. by rewrite lookup_insert_ne. }
  assert (forall s', same_balances s s' -> balance_of s' owner = balance_of s owner) as Hsame.
  { intros s' [_ Hb]. unfold balance_of. by rewrite Hb. }
  split.
  - intros context operation s' r new Hop Hlt.
    destruct (execute_operation_cases _ _ _ _ _ _ Hop)
      as [(Hs & _)|(o & recipient & amount & data & messages & _ & _ & Ht)].
    { rewrite Hsame in Hlt by done. lia. }
    apply exec_transfer_Ok in Ht as (_ & _ & Ho). destruct o as [o|].
    + destruct Ho as (Hauth & _ & ->). destruct (decide (owner = o)) as [->|]; [done|].
      rewrite Hne in Hlt by done. lia.
    + destruct Ho as [_ ->]. unfold balance_of in Hlt. simpl in Hlt. lia.
  - intros context m s' r Hwf Ha Hm Hlt.
    destruct (execute_message_cases _ _ _ _ _ Hm)
      as [(Hs & _)|[(account & amount & -> & _ & -> & _)
         |(account & o & amount & recipient & data & messages & -> & _ & Hauth & _ & Hw)]].
    { rewrite Hsame in Hlt by done. lia. }
    + exfalso. unfold receive_credit in Hlt. destruct (account_owner account) as [o|].
      * destruct (decide (owner = o)) as [->|]; [|rewrite Hne in Hlt by done; lia].
        unfold balance_of at 1 in Hlt. simpl in Hlt. rewrite lookup_insert_eq in Hlt. simpl in Hlt.
        unfold id, num_saturating_add, saturating_add in Hlt.
        pose proof (balance_of_range s o Hwf) as [? ?]. destruct Ha. simpl in *. lia.
      * unfold balance_of in Hlt. simpl in Hlt. lia.
    + destruct (decide (owner = o)) as [->|]; [done|]. exfalso. unfold receive_withdraw in Hw.
      destruct (try_sub_assign _ _); injection Hw as <- _; rewrite Hne in Hlt by done; lia.
Qed.
End tokens.

(** ** Chain identity and epochs *)

Section epochs.
Context `{Crypto, Bcs}.

(** The state after a system operation or message. *)
Inductive system_step (s s' : SystemState) : Prop :=
  | operation_step context operation r new :
      system_execute_operation context operation s = Ok (s', r, new) -> system_step s s'
  | message_step context message r :
      system_execute_message context message s = Ok (s', r) -> system_step s s'.

Definition epoch_le (s s' : SystemState) : Prop :=
  sys_description s' = sys_description s /\ sys_admin_id s' = sys_admin_id s /\
  (sys_epoch s' = sys_epoch s \/
   exists e e', sys_epoch s = Some e /\ sys_epoch s' = Some e' /\ e <= e').

Lemma epoch_le_refl s s' :
  sys_description s' = sys_description s -> sys_admin_id s' = sys_admin_id s ->
  sys_epoch s' = sys_epoch s -> epoch_le s s'.
Proof. intros. unfold epoch_le. split_and!; [done..|by left]. Qed.

Lemma epoch_le_trans s1 s2 s3 : epoch_le s1 s2 -> epoch_le s2 s3 -> epoch_le s1 s3.
Proof.
  intros (Hd & Ha & He) (Hd' & Ha' & He'). unfold epoch_le. split_and!; [congruence..|].
  destruct He as [He|(e & e' & He & Hf & Hle)], He' as [He'|(g & g' & Hg & Hg' & Hle')].
  - left. congruence.
  - right. exists g, g'. rewrite <- He. done.
  - right. exists e, e'. by rewrite He'.
  - right. exists e, g'. assert (g = e') as -> by congruence. split_and!; [done..|lia].
Qed.

Lemma exec_admin_epoch context operation s s' messages :
  exec_admin context operation s = Ok (s', messages) -> epoch_le s s'.
Proof.
  unfold exec_admin. intros Ha. apply bind_Ok in Ha as ([] & _ & Ha). destruct operation.
  - unfold exec_create_committee in Ha. apply bind_Ok in Ha as (current & Hc & Ha).
    apply bind_Ok in Ha as (next & Hn & Ha). apply bind_Ok in Ha as ([] & He & [= <- <-]).
    apply expect_Ok in Hc. apply map_err_Ok in Hn. change (try_add_one u32_MAX current = Ok next) in Hn.
    apply try_add_one_Ok in Hn as [-> _]. apply ensure_Ok, Z.eqb_eq in He as ->.
    unfold epoch_le. split_and!; [done..|]. right. exists current, (current + 1).
    split_and!; [done..|lia].
  - unfold exec_remove_committee in Ha. apply bind_Ok in Ha as ([] & _ & Ha).
    apply bind_Ok in Ha as (current & Hc & [= <- <-]). by apply epoch_le_refl.
Qed.

Lemma system_step_epoch s s' : system_step s s' -> epoch_le s s'.
Proof.
  intros [context operation r new Hop|context message r Hm].
  - unfold system_execute_operation in Hop. destruct operation; simpl in Hop.
    all: try (injection Hop as <- _ _; by apply epoch_le_refl).
    + apply bind_Ok in Hop as ([s1 messages] & Ht & [= <- _ _]).
      apply exec_transfer_Ok in Ht as (_ & _ & Ho).
      destruct owner as [o|]; destruct_and?; subst; by apply epoch_le_refl.
    + apply bind_Ok in Hop as (messages & _ & [= <- _ _]). by apply epoch_le_refl.
    + apply bind_Ok in Hop as (messages & _ & [= <- _ _]). by apply epoch_le_refl.
    + apply bind_Ok in Hop as ([s1 messages] & Hc & [= <- _ _]). unfold exec_subscribe in Hc.
      inv_result. simplify_eq. by apply epoch_le_refl.
    + apply bind_Ok in Hop as ([s1 messages] & Hc & [= <- _ _]). unfold exec_unsubscribe in Hc.
      inv_result. simplify_eq. by apply epoch_le_refl.
    + apply bind_Ok in Hop as ([[s1 messages] id] & Hc & [= <- _ _]).
      unfold exec_create_application in Hc. inv_result. simplify_eq. by apply epoch_le_refl.
    + apply bind_Ok in Hop as ([s1 messages] & Hc & [= <- _ _]). by eapply exec_admin_epoch.
  - destruct (execute_message_cases _ _ _ _ _ Hm) as [(_ & _ & _)|[(? & ? & _ & _ & -> & _)
      |(? & ? & ? & ? & ? & ? & _ & _ & _ & _ & Hw)]].
    2: { unfold receive_credit. destruct (account_owner _); by apply epoch_le_refl. }
    2: { unfold receive_withdraw in Hw.
         destruct (try_sub_assign _ _); injection Hw as <- _; by apply epoch_le_refl. }
    unfold system_execute_message in Hm. destruct message; simpl in Hm.
    all: try (injection Hm as <- _; by apply epoch_le_refl).
    all: try (destruct (_ =? _); injection Hm as <- _; try by apply epoch_le_refl).
    + unfold receive_credit. destruct (account_owner _); by apply epoch_le_refl.
    + destruct (account_owner _) as [o|]; [|injection Hm as <- _; by apply epoch_le_refl].
      destruct (_ && _); [|injection Hm as <- _; by apply epoch_le_refl].
      unfold receive_withdraw in Hm.
      destruct (try_sub_assign _ _); injection Hm as <- _; by apply epoch_le_refl.
    + apply bind_Ok in Hm as (s1 & Hc & [= <- _]). unfold receive_set_committees in Hc.
      apply bind_Ok in Hc as (current & Hcur & Hc). apply bind_Ok in Hc as ([] & Hle & [= <-]).
      unfold expect in Hcur. destruct (sys_epoch s) as [e|] eqn:He; simplify_eq.
      inv_result. unfold epoch_le. split_and!; [done..|]. right. eexists _, _. split_and!; [done..|]. lia.
    + apply bind_Ok in Hm as (s1 & Hc & [= <- _]).
      unfold receive_register_applications in Hc. inv_result. subst. by apply epoch_le_refl.
    + apply bind_Ok in Hm as (messages & _ & [= <- _]). by apply epoch_le_refl.
Qed.

(** The epoch of a chain never goes back.  Along every sequence of system
    operations and messages the description and the admin of the chain stay
    the same, a chain that has an epoch keeps one, and it only grows; in
    particular a chain cannot be moved back to an older committee. *)
Theorem epochs_monotone s s' e :
  rtc system_step s s' -> sys_epoch s = Some e ->
  sys_description s' = sys_description s /\ sys_admin_id s' = sys_admin_id s /\
  exists e', sys_epoch s' = Some e' /\ e <= e'.
Proof.
  intros Hsteps He. assert (epoch_le s s') as (Hd & Ha & Hep).
  { clear He. induction Hsteps as [s|s1 s2 s3 Hstep _ IH]; [by apply epoch_le_refl|].
    eapply epoch_le_trans; [by apply system_step_epoch|done]. }
  split_and!; [done..|]. destruct Hep as [->|(x & y & Hx & Hy & Hle)].
  - by exists e.
  - rewrite He in Hx. injection Hx as ->. by exists y.
Qed.
End epochs.

(** ** Examples *)

Module SystemExamples.
Import SymbolicCrypto SymbolicBcs.

(** Chain 1, its own admin, holding 10 tokens of which owner 5 has 7. *)
Definition state : SystemState :=
  {| sys_description := Some (Root 0); sys_epoch := Some 0; sys_admin_id := Some 1;
     sys_subscriptions := ∅; sys_committees := ∅; sys_ownership := OwnershipSingle 5 50;
     sys_balance := 3; sys_balances := {[5 := 7]}; sys_timestamp := 0;
     sys_registry := registry_default |}.
Definition by_owner : OperationContext :=
  {| opctx_chain_id := 1; opctx_authenticated_signer := Some 5; opctx_height := 0;
     opctx_index := 0; opctx_next_message_index := 0 |}.
Definition from_owner : MessageContext :=
  {| msgctx_chain_id := 1; msgctx_authenticated_signer := Some 5; msgctx_height := 0;
     msgctx_certificate_hash := 9;
     msgctx_message_id := {| mid_chain_id := 2; mid_height := 4; mid_index := 0 |} |}.
Definition transfer : SystemOperation :=
  OpTransfer (Some 5) (ToAccount (account_of_chain 2)) 4 None.
Definition withdrawal : SystemMessage :=
  MsgWithdraw (account_of_owner 1 5) 4 (ToAccount (account_of_chain 2)) None.
Definition new_committee : SystemOperation :=
  OpAdmin (CreateCommittee 1 (committee_new ∅ policy_default)).

Definition after_operation (operation : SystemOperation) : SystemState :=
  match system_execute_operation by_owner operation state with
  | Ok (s, _, _) => s
  | _ => state
  end.
Definition after_message (message : SystemMessage) : SystemState :=
  match system_execute_message from_owner message state with Ok (s, _) => s | _ => state end.

Lemma state_balances : balances_wf state.
Proof.
  split; [split; simpl; unfold u128_MAX; lia|]. apply map_Forall_singleton.
  unfold in_range, u128_MAX. lia.
Qed.

Lemma operations_conserve_tokens_witness :
  total_tokens (after_operation transfer) = 6 /\
  exists r, total_tokens state = total_tokens (after_operation transfer) + credited r + 0 /\
    balances_wf (after_operation transfer).
Proof.
  split; [by vm_compute|]. eexists.
  apply (operations_conserve_tokens by_owner transfer state (after_operation transfer) _ None
           state_balances).
  by vm_compute.
Defined.

Lemma messages_conserve_tokens_witness :
  exists r, total_tokens (after_message withdrawal) + credited r = total_tokens state + 0.
Proof.
  eexists.
  destruct (messages_conserve_tokens from_owner withdrawal state (after_message withdrawal)
              _ state_balances ltac:(done) ltac:(by vm_compute)) as (_ & _ & Heq).
  apply Heq; by vm_compute.
Defined.

Lemma only_owner_spends_witness :
  opctx_authenticated_signer by_owner = Some 5 /\ msgctx_authenticated_signer from_owner = Some 5.
Proof.
  destruct (only_owner_spends state 5) as [Hop Hm]. split.
  - eapply (Hop by_owner transfer (after_operation transfer)); by vm_compute.
  - eapply (Hm from_owner withdrawal (after_message withdrawal));
      [apply state_balances|done|by vm_compute..].
Defined.

Lemma epochs_monotone_witness :
  exists e', sys_epoch (after_operation new_committee) = Some e' /\ 0 <= e'.
Proof.
  destruct (epochs_monotone state (after_operation new_committee) 0) as (_ & _ & He).
  - apply rtc_once. eapply (operation_step _ _ by_owner new_committee). by vm_compute.
  - done.
  - exact He.
Defined.

End SystemExamples.
