(* ===== verification/Batches.v ===== *)
(** * Write batches

    [linera-views/src/common.rs] (intervals of keys with a common prefix),
    [linera-views/src/memory.rs] (the reference store) and
    [linera-views/src/batch.rs] (batches of writes, their simplification, and
    the expansion of prefix deletions for databases without them).

    A store is a [gmap] from keys to values; [BTreeMap] and [BTreeSet] iterate
    in the lexicographic order of their keys.  Keys are lists of [Z]; the
    theorems assume that they are bytes. *)

From S2P Require Import Prelude Types.

(** ** Intervals *)

Inductive Bound :=
| Included (b : bytes)
| Excluded (b : bytes)
| Unbounded.

Notation Interval := (Bound * Bound)%type.

Definition above (lower : Bound) (k : bytes) : bool :=
  match lower with
  | Included b => bytes_leb b k
  | Excluded b => negb (bytes_leb k b)
  | Unbounded => true
  end.
Definition below (upper : Bound) (k : bytes) : bool :=
  match upper with
  | Included b => bytes_leb k b
  | Excluded b => negb (bytes_leb b k)
  | Unbounded => true
  end.
Definition in_interval (i : Interval) (k : bytes) : bool := above i.1 k && below i.2 k.

(** The loop of [get_upper_bound_option], from the last byte to the first. *)
Fixpoint upper_bound_loop (rev_prefix : bytes) : option bytes :=
  match rev_prefix with
  | [] => None
  | val :: rest => if val <? u8_MAX then Some (reverse (val + 1 :: rest)) else upper_bound_loop rest
  end.

Definition get_upper_bound_option (key_prefix : bytes) : option bytes :=
  upper_bound_loop (reverse key_prefix).

Definition get_upper_bound (key_prefix : bytes) : Bound :=
  match get_upper_bound_option key_prefix with
  | None => Unbounded
  | Some upper_bound => Excluded upper_bound
  end.

Definition get_interval (key_prefix : bytes) : Interval :=
  (Included key_prefix, get_upper_bound key_prefix).

(** [BTreeMap::range] and [BTreeSet::range]: the keys in the interval, in order. *)
Definition range_keys {V} (i : Interval) (m : gmap bytes V) : list bytes :=
  sort_by id (filter (fun k => in_interval i k = true) (map_to_list m).*1).
Definition range_entries {V} (i : Interval) (m : gmap bytes V) : list (bytes * V) :=
  sort_by fst (filter (fun kv => in_interval i kv.1 = true) (map_to_list m)).
Definition range_set (i : Interval) (s : gset bytes) : list bytes :=
  sort_by id (filter (fun k => in_interval i k = true) (elements s)).

(** Removing a list of keys, one after the other. *)
Definition remove_keys {V} (keys : list bytes) (m : gmap bytes V) : gmap bytes V :=
  foldl (fun m k => delete k m) m keys.
Definition remove_elements (keys : list bytes) (s : gset bytes) : gset bytes :=
  foldl (fun s k => s ∖ {[k]}) s keys.

(** ** Batches and the store in memory *)

Inductive WriteOperation :=
| Delete (key : bytes)
| DeletePrefix (key_prefix : bytes)
| Put (key value : bytes).

Notation Batch := (list WriteOperation).
Notation Store := (gmap bytes bytes).

(** [Batch::size]: sums of [usize] are taken to be exact. *)
Definition operation_size (operation : WriteOperation) : Z :=
  match operation with
  | Delete key => Z.of_nat (length key)
  | Put key value => Z.of_nat (length key) + Z.of_nat (length value)
  | DeletePrefix key_prefix => Z.of_nat (length key_prefix)
  end.
Definition batch_size (self : Batch) : Z :=
  foldl (fun size operation => size + operation_size operation) 0 self.

(** [Batch::check_value_size]. *)
Definition check_value_size (self : Batch) (max_value_size : Z) : bool :=
  forallb (fun operation =>
    match operation with
    | Put _ value => Z.of_nat (length value) <=? max_value_size
    | _ => true
    end) self.

(** [MemoryClient]: the store is the map itself. *)
Definition read_key_bytes (key : bytes) (map : Store) : option bytes := map !! key.
Definition find_keys_by_prefix (key_prefix : bytes) (map : Store) : list bytes :=
  drop (length key_prefix) <$> range_keys (get_interval key_prefix) map.
Definition find_key_values_by_prefix (key_prefix : bytes) (map : Store) : list (bytes * bytes) :=
  (fun kv => (drop (length key_prefix) kv.1, kv.2)) <$>
    range_entries (get_interval key_prefix) map.

Definition write_operation (map : Store) (operation : WriteOperation) : Store :=
  match operation with
  | Put key value => <[key := value]> map
  | Delete key => delete key map
  | DeletePrefix key_prefix => remove_keys (range_keys (get_interval key_prefix) map) map
  end.
Definition write_batch (batch : Batch) (map : Store) : Store := foldl write_operation map batch.

(** ** Simplification *)

Record SimpleUnorderedBatch := {
  deletions : list bytes;
  insertions : list (bytes * bytes);
}.

Record UnorderedBatch := {
  key_prefix_deletions : list bytes;
  simple_unordered_batch : SimpleUnorderedBatch;
}.

Definition is_prefix_matched (key_prefix_set : gset bytes) (key : bytes) : bool :=
  match last (range_set (Unbounded, Included key) key_prefix_set) with
  | Some value =>
      if (length key <? length value)%nat then false
      else bool_decide (value = take (length value) key)
  | None => false
  end.

(** The two collections built by the loop of [simplify]. *)
Notation SimplifyState := (gmap bytes (option bytes) * gset bytes)%type.

Definition simplify_step (state : SimplifyState) (operation : WriteOperation) : SimplifyState :=
  let '(delete_and_insert_map, delete_prefix_set) := state in
  match operation with
  | Delete key =>
      if negb (is_prefix_matched delete_prefix_set key)
      then (<[key := None]> delete_and_insert_map, delete_prefix_set)
      else (delete key delete_and_insert_map, delete_prefix_set)
  | Put key value => (<[key := Some value]> delete_and_insert_map, delete_prefix_set)
  | DeletePrefix key_prefix =>
      let key_list := range_keys (get_interval key_prefix) delete_and_insert_map in
      let delete_and_insert_map := remove_keys key_list delete_and_insert_map in
      if negb (is_prefix_matched delete_prefix_set key_prefix) then
        let key_prefix_list := range_set (get_interval key_prefix) delete_prefix_set in
        let delete_prefix_set := remove_elements key_prefix_list delete_prefix_set in
        (delete_and_insert_map, {[key_prefix]} ∪ delete_prefix_set)
      else (delete_and_insert_map, delete_prefix_set)
  end.

Definition simplify (self : Batch) : UnorderedBatch :=
  let '(delete_and_insert_map, delete_prefix_set) := foldl simplify_step (∅, ∅) self in
  let entries := range_entries (Unbounded, Unbounded) delete_and_insert_map in
  {| key_prefix_deletions := range_set (Unbounded, Unbounded) delete_prefix_set;
     simple_unordered_batch :=
       {| deletions :=
            omap (fun kv => match kv.2 with None => Some kv.1 | Some _ => None end) entries;
          insertions :=
            omap (fun kv => match kv.2 with Some value => Some (kv.1, value) | None => None end)
              entries |} |}.

(** [expand_delete_prefix] of the store in memory. *)
Definition expand_delete_prefix (db : Store) (key_prefix : bytes) : list bytes :=
  find_keys_by_prefix key_prefix db.

(** The keys of a prefix that are to be deleted one by one. *)
Definition expanded (db : Store) (inserted : gset bytes) (key_prefix : bytes) : list bytes :=
  filter (fun key => key ∉ inserted)
    ((fun short_key => key_prefix ++ short_key) <$> expand_delete_prefix db key_prefix).

Definition expand_delete_prefixes (db : Store) (self : UnorderedBatch) : SimpleUnorderedBatch :=
  let simple := simple_unordered_batch self in
  let insert_set : gset bytes := list_to_set (insertions simple).*1 in
  {| deletions :=
       foldl (fun deletions key_prefix => deletions ++ expanded db insert_set key_prefix)
         (deletions simple) (key_prefix_deletions self);
     insertions := insertions simple |}.

Definition expand_colliding_prefix_deletions (db : Store) (self : UnorderedBatch)
    : UnorderedBatch :=
  let simple := simple_unordered_batch self in
  let inserted_keys : gset bytes := list_to_set (insertions simple).*1 in
  let '(key_prefix_deletions, deletions) :=
    foldl (fun '(key_prefix_deletions, deletions) key_prefix =>
      match range_set (get_interval key_prefix) inserted_keys with
      | _ :: _ => (key_prefix_deletions, deletions ++ expanded db inserted_keys key_prefix)
      | [] => (key_prefix_deletions ++ [key_prefix], deletions)
      end) ([], deletions simple) (key_prefix_deletions self) in
  {| key_prefix_deletions := key_prefix_deletions;
     simple_unordered_batch :=
       {| deletions := deletions; insertions := insertions simple |} |}.

(** ** Prefixes and the lexicographic order *)

Definition bytes_wf (k : bytes) : Prop := Forall (in_range u8_MAX) k.
Definition store_wf {V} (m : gmap bytes V) : Prop := map_Forall (fun k _ => bytes_wf k) m.

Lemma bytes_leb_app p t : bytes_leb p (p ++ t) = true.
Proof. induction p as [|a p IH]; simpl; [done|]. rewrite IH. lia. Qed.

Lemma bytes_leb_prefix p k : p `prefix_of` k -> bytes_leb p k = true.
Proof. intros [t ->]. apply bytes_leb_app. Qed.

(** What lies between a prefix of a key and the key has this prefix too. *)
Lemma bytes_between_prefix p q t :
  bytes_leb p q = true -> bytes_leb q (p ++ t) = true -> p `prefix_of` q.
Proof.
  revert q. induction p as [|a p IH]; intros q Hpq Hqt; [by exists q|].
  destruct q as [|b q]; [done|]. simpl in *. assert (a = b) as -> by lia.
  rewrite Z.ltb_irrefl, Z.eqb_refl in *. by apply prefix_cons, IH.
Qed.

(** [get_upper_bound_option] by recursion from the first byte. *)
Lemma upper_bound_loop_snoc l b :
  upper_bound_loop (l ++ [b]) =
  match upper_bound_loop l with
  | Some u => Some (b :: u)
  | None => if b <? u8_MAX then Some [b + 1] else None
  end.
Proof.
  induction l as [|a l IH]; simpl; [done|]. destruct (a <? u8_MAX); [|done].
  change (a + 1 :: l ++ [b]) with ((a + 1 :: l) ++ [b]). by rewrite reverse_snoc.
Qed.

Lemma get_upper_bound_option_cons b p :
  get_upper_bound_option (b :: p) =
  match get_upper_bound_option p with
  | Some u => Some (b :: u)
  | None => if b <? u8_MAX then Some [b + 1] else None
  end.
Proof. unfold get_upper_bound_option. by rewrite reverse_cons, upper_bound_loop_snoc. Qed.

Lemma below_upper_bound_cons b p c v :
  in_range u8_MAX b -> in_range u8_MAX c ->
  (b <? c) || ((b =? c) && bytes_leb p v) = true ->
  below (get_upper_bound (b :: p)) (c :: v) = (b =? c) && below (get_upper_bound p) v.
Proof.
  unfold get_upper_bound. rewrite get_upper_bound_option_cons. intros [Hb1 Hb2] [Hc1 Hc2] Hle.
  destruct (get_upper_bound_option p) as [u|]; simpl.
  - destruct (bytes_leb u v); lia.
  - destruct (Z.ltb_spec b u8_MAX); simpl; lia.
Qed.

(** A key is in the interval computed by [get_interval] exactly if it starts with
    the prefix, also when the prefix ends in bytes 255 and has no upper bound. *)
Lemma interval_prefix p k :
  bytes_wf p -> bytes_wf k -> in_interval (get_interval p) k = true <-> p `prefix_of` k.
Proof.
  unfold in_interval, get_interval. cbn [fst snd above]. intros Hp. revert k.
  induction Hp as [|b p Hb Hp IH]; intros k Hk.
  - split; [intros _; apply prefix_nil|done].
  - destruct Hk as [|c v Hc Hv]; [split; [done|by intros []%prefix_nil_not]|].
    cbn [bytes_leb]. rewrite andb_true_iff. split.
    + intros [Hle Hbelow]. rewrite below_upper_bound_cons in Hbelow by done.
      apply andb_true_iff in Hbelow as [->%Z.eqb_eq Hbelow]. apply prefix_cons, IH; [done|].
      apply andb_true_iff. split; [|done]. destruct (bytes_leb p v); lia.
    + intros Hpre. assert (b = c) as -> by (by apply prefix_cons_inv_1 in Hpre).
      apply prefix_cons_inv_2, IH, andb_true_iff in Hpre as [Hle Hbelow]; [|done].
      assert (Hlex : (c <? c) || ((c =? c) && bytes_leb p v) = true).
      { rewrite Hle, Z.eqb_refl. apply orb_true_r. }
      split; [done|]. rewrite below_upper_bound_cons by done. by rewrite Z.eqb_refl.
Qed.

(** ** Ranges *)

Lemma elem_of_range_keys {V} (i : Interval) (m : gmap bytes V) k :
  k ∈ range_keys i m <-> in_interval i k = true /\ is_Some (m !! k).
Proof.
  unfold range_keys. rewrite sort_by_perm, list_elem_of_filter, list_elem_of_fmap. split.
  - intros [Hi ([k' v] & -> & Hin)]. apply elem_of_map_to_list in Hin. by eauto.
  - intros [Hi [v Hv]]. split; [done|]. exists (k, v). by rewrite elem_of_map_to_list.
Qed.

Lemma elem_of_range_entries {V} (i : Interval) (m : gmap bytes V) k v :
  (k, v) ∈ range_entries i m <-> in_interval i k = true /\ m !! k = Some v.
Proof.
  unfold range_entries. by rewrite sort_by_perm, list_elem_of_filter, elem_of_map_to_list.
Qed.

Lemma elem_of_range_set (i : Interval) (s : gset bytes) k :
  k ∈ range_set i s <-> in_interval i k = true /\ k ∈ s.
Proof. unfold range_set. by rewrite sort_by_perm, list_elem_of_filter, elem_of_elements. Qed.

Lemma lookup_remove_keys {V} (keys : list bytes) (m : gmap bytes V) k :
  remove_keys keys m !! k = if decide (k ∈ keys) then None else m !! k.
Proof.
  revert m. induction keys as [|k' keys IH]; intros m.
  { by rewrite decide_False by apply not_elem_of_nil. }
  unfold remove_keys in *. simpl. rewrite IH. destruct (decide (k = k')) as [->|Hne].
  - rewrite lookup_delete_eq. rewrite (decide_True (P := k' ∈ k' :: keys)) by set_solver.
    by destruct (decide (k' ∈ keys)).
  - rewrite lookup_delete_ne by done. apply decide_ext. set_solver.
Qed.

Lemma elem_of_remove_elements keys s k : k ∈ remove_elements keys s <-> k ∈ s /\ k ∉ keys.
Proof.
  revert s. unfold remove_elements. induction keys as [|k' keys IH]; intros s; simpl; [set_solver|].
  rewrite IH. set_solver.
Qed.

(** Sorted lists: the last element is the greatest. *)
Lemma sort_by_sorted {A} (key : A -> list Z) l : StronglySorted (order_by key) (sort_by key l).
Proof.
  unfold sort_by. apply Sorted_StronglySorted.
  - intros x y z. unfold order_by. apply bytes_le_trans.
  - apply Sorted_merge_sort. intros x y. unfold order_by. apply bytes_le_total.
Qed.

Lemma last_sorted (l : list bytes) x :
  StronglySorted (order_by id) l -> last l = Some x -> forall y, y ∈ l -> bytes_leb y x = true.
Proof.
  induction 1 as [|a l Hl IH Ha]; [done|]. rewrite last_cons. intros Hlast y.
  destruct (last l) as [z|] eqn:Hz; injection Hlast as ->.
  - rewrite elem_of_cons. intros [->|Hy]; [|by apply IH].
    rewrite Forall_forall in Ha. apply Ha. apply last_Some in Hz as [l' ->]. set_solver.
  - apply last_None in Hz as ->. rewrite list_elem_of_singleton. intros ->. apply bytes_leb_refl.
Qed.

(** ** What a batch does to a key *)

(** The new value of the key, if the operation touches it. *)
Definition touch (operation : WriteOperation) (k : bytes) : option (option bytes) :=
  match operation with
  | Delete key => if decide (key = k) then Some None else None
  | Put key value => if decide (key = k) then Some (Some value) else None
  | DeletePrefix key_prefix => if decide (key_prefix `prefix_of` k) then Some None else None
  end.

Fixpoint batch_effect (batch : Batch) (k : bytes) : option (option bytes) :=
  match batch with
  | [] => None
  | operation :: batch =>
      match batch_effect batch k with Some r => Some r | None => touch operation k end
  end.

Definition operation_wf (operation : WriteOperation) : Prop :=
  match operation with Delete key | Put key _ | DeletePrefix key => bytes_wf key end.
Notation batch_wf := (Forall operation_wf).

Lemma lookup_delete_prefix {V} (p : bytes) (m : gmap bytes V) k :
  bytes_wf p -> store_wf m ->
  remove_keys (range_keys (get_interval p) m) m !! k =
  if decide (p `prefix_of` k) then None else m !! k.
Proof.
  intros Hp Hm. rewrite lookup_remove_keys. destruct (m !! k) as [v|] eqn:Hk.
  - apply decide_ext. rewrite elem_of_range_keys, interval_prefix by (done || by eapply Hm).
    rewrite Hk. naive_solver.
  - by repeat case_decide.
Qed.

Lemma lookup_write_operation operation m k :
  operation_wf operation -> store_wf m ->
  write_operation m operation !! k = default (m !! k) (touch operation k).
Proof.
  intros Hop Hm. destruct operation as [key|p|key value]; simpl in *.
  - case_decide; subst; simpl; [apply lookup_delete_eq|by apply lookup_delete_ne].
  - rewrite lookup_delete_prefix by done. by case_decide.
  - case_decide; subst; simpl; [apply lookup_insert_eq|by apply lookup_insert_ne].
Qed.

Lemma write_operation_wf operation m :
  operation_wf operation -> store_wf m -> store_wf (write_operation m operation).
Proof.
  intros Hop Hm k v Hk. rewrite lookup_write_operation in Hk by done.
  destruct (touch operation k) as [r|] eqn:Ht; [|by eapply Hm].
  destruct operation; simpl in *; case_decide; naive_solver.
Qed.

Lemma lookup_write_batch batch m k :
  batch_wf batch -> store_wf m -> write_batch batch m !! k = default (m !! k) (batch_effect batch k).
Proof.
  intros Hb. revert m. induction Hb as [|operation batch Hop Hb IH]; intros m Hm; [done|].
  unfold write_batch in *. simpl. rewrite IH by by apply write_operation_wf.
  rewrite lookup_write_operation by done. by destruct (batch_effect batch k).
Qed.

Lemma batch_effect_app b1 b2 k :
  batch_effect (b1 ++ b2) k =
  match batch_effect b2 k with Some r => Some r | None => batch_effect b1 k end.
Proof.
  induction b1 as [|operation b1 IH]; simpl; [by destruct (batch_effect b2 k)|].
  rewrite IH. by destruct (batch_effect b2 k).
Qed.

Lemma batch_effect_Some batch k r :
  batch_effect batch k = Some r -> exists operation, operation ∈ batch /\ touch operation k = Some r.
Proof.
  induction batch as [|operation batch IH]; simpl; [done|].
  destruct (batch_effect batch k) as [r'|].
  - intros [= ->]. destruct IH as (o & ? & ?); [done|]. exists o. set_solver.
  - intros Ht. exists operation. set_solver.
Qed.

Lemma batch_effect_None batch k :
  batch_effect batch k = None <-> forall operation, operation ∈ batch -> touch operation k = None.
Proof.
  induction batch as [|operation batch IH]; simpl; [set_solver|].
  destruct (batch_effect batch k) as [r|] eqn:He.
  - split; [done|]. intros Hall. apply batch_effect_Some in He as (o & Ho & Ht).
    rewrite (Hall o) in Ht; [done|set_solver].
  - split.
    + intros Ht o. rewrite elem_of_cons. intros [->|Ho]; [done|]. by apply IH.
    + intros Hall. apply Hall. set_solver.
Qed.

(** Operations that agree on a key can be applied in any order. *)
Lemma batch_effect_unique batch k r :
  (exists operation, operation ∈ batch /\ touch operation k = Some r) ->
  (forall operation r', operation ∈ batch -> touch operation k = Some r' -> r' = r) ->
  batch_effect batch k = Some r.
Proof.
  intros (o & Ho & Ht) Hall. destruct (batch_effect batch k) as [r'|] eqn:He.
  - apply batch_effect_Some in He as (o' & Ho' & Ht'). f_equal. by eapply Hall.
  - rewrite batch_effect_None in He. rewrite He in Ht; done.
Qed.

(** ** Reading by prefix *)

Lemma prefix_drop (p k : bytes) : p `prefix_of` k -> p ++ drop (length p) k = k.
Proof. intros [t ->]. by rewrite drop_app_length. Qed.

Lemma elem_of_find_keys p m k :
  bytes_wf p -> store_wf m -> k ∈ find_keys_by_prefix p m <-> is_Some (m !! (p ++ k)).
Proof.
  intros Hp Hm. unfold find_keys_by_prefix. rewrite list_elem_of_fmap. split.
  - intros (k' & -> & Hk). apply elem_of_range_keys in Hk as [Hi [v Hv]].
    apply interval_prefix in Hi; [|done|by eapply Hm]. rewrite prefix_drop by done. by exists v.
  - intros [v Hv]. exists (p ++ k). rewrite drop_app_length. split; [done|].
    apply elem_of_range_keys. split; [|by exists v].
    apply interval_prefix; [done|by eapply Hm|by apply prefix_app_r].
Qed.

(** Comparing keys with a common prefix is comparing what follows it. *)
Lemma bytes_leb_app_l p x y : bytes_leb (p ++ x) (p ++ y) = bytes_leb x y.
Proof. induction p as [|a p IH]; simpl; [done|]. by rewrite Z.ltb_irrefl, Z.eqb_refl. Qed.

Lemma StronglySorted_fmap_on {A B} (R : relation A) (S : relation B) (f : A -> B) l :
  StronglySorted R l -> (forall x y, x ∈ l -> y ∈ l -> R x y -> S (f x) (f y)) ->
  StronglySorted S (f <$> l).
Proof.
  induction 1 as [|a l Hl IH Ha]; intros Hf; csimpl; constructor.
  - apply IH. intros x y Hx Hy. apply Hf; set_solver.
  - rewrite Forall_fmap, Forall_forall in *. intros x Hx. apply Hf; [set_solver..|by apply Ha].
Qed.

(** The entries with a prefix, relative to it. *)
Definition relative {V} (p : bytes) (m : gmap bytes V) : list (bytes * V) :=
  (fun kv => (drop (length p) kv.1, kv.2)) <$> range_entries (get_interval p) m.

Section relative.
Context {V : Type} (p : bytes) (m : gmap bytes V).
Context (prefix_ok : bytes_wf p) (map_ok : store_wf m).

Lemma elem_of_prefix_entries k v :
  (k, v) ∈ range_entries (get_interval p) m <-> p `prefix_of` k /\ m !! k = Some v.
Proof.
  rewrite elem_of_range_entries. split; intros [Hi Hk]; split; try done;
    (apply interval_prefix; [done|by eapply map_ok|done]).
Qed.

Lemma elem_of_relative k v : (k, v) ∈ relative p m <-> m !! (p ++ k) = Some v.
Proof.
  unfold relative. rewrite list_elem_of_fmap. split.
  - intros ([k' v'] & [= -> ->] & [Hpre Hk]%elem_of_prefix_entries). simpl.
    by rewrite prefix_drop.
  - intros Hk. exists (p ++ k, v). simpl. rewrite drop_app_length. split; [done|].
    apply elem_of_prefix_entries. split; [by apply prefix_app_r|done].
Qed.

Lemma relative_NoDup : NoDup (relative p m).*1.
Proof.
  unfold relative. rewrite <- list_fmap_compose. apply NoDup_fmap_2_strong.
  - intros [k v] [k' v'] [Hk Hv]%elem_of_prefix_entries [Hk' Hv']%elem_of_prefix_entries.
    simpl. intros Heq.
    assert (k = k') as <- by (rewrite <- (prefix_drop p k), <- (prefix_drop p k'); congruence).
    congruence.
  - unfold range_entries. rewrite sort_by_perm. apply NoDup_filter, NoDup_map_to_list.
Qed.

Lemma relative_sorted : StronglySorted (order_by fst) (relative p m).
Proof.
  unfold relative. apply (StronglySorted_fmap_on (order_by fst)); [apply sort_by_sorted|].
  intros [k v] [k' v'] [Hk _]%elem_of_prefix_entries [Hk' _]%elem_of_prefix_entries.
  unfold order_by, bytes_le. simpl.
  rewrite <- (prefix_drop p k Hk) at 1. rewrite <- (prefix_drop p k' Hk') at 1.
  by rewrite bytes_leb_app_l.
Qed.

End relative.

(** Reading by prefix is exact.  [find_key_values_by_prefix] lists precisely
    the entries whose keys start with the prefix, each once, without the prefix
    and in the order of the keys; also for prefixes that end in bytes 255, which
    have no upper bound. *)
Theorem find_by_prefix_exact p m :
  bytes_wf p -> store_wf m ->
  (forall k v, (k, v) ∈ find_key_values_by_prefix p m <-> m !! (p ++ k) = Some v) /\
  NoDup (find_key_values_by_prefix p m).*1 /\
  StronglySorted (order_by fst) (find_key_values_by_prefix p m).
Proof.
  intros Hp Hm. split_and!.
  - intros k v. by apply elem_of_relative.
  - by apply relative_NoDup.
  - by apply relative_sorted.
Qed.

(** ** Correctness of the simplification *)

(** No prefix of the set is a prefix of another one. *)
Definition prefix_free (s : gset bytes) : Prop :=
  forall p q, p ∈ s -> q ∈ s -> p `prefix_of` q -> p = q.

(** Some prefix of the set matches the key. *)
Definition matched (D : gset bytes) (k : bytes) : Prop := exists p, p ∈ D /\ p `prefix_of` k.

#[export] Instance matched_dec D k : Decision (matched D k).
Proof. apply (set_Exists_dec (fun p => p `prefix_of` k)). Defined.

(** In a prefix-free set, only the greatest element below a key can match it. *)
Lemma greatest_match s key value p :
  prefix_free s -> value ∈ s -> bytes_leb value key = true ->
  (forall q, q ∈ s -> bytes_leb q key = true -> bytes_leb q value = true) ->
  p ∈ s -> p `prefix_of` key -> p = value.
Proof.
  intros Hfree Hv Hle Hmax Hp Hpre. apply Hfree; [done..|].
  pose proof (bytes_leb_prefix _ _ Hpre). destruct Hpre as [t ->].
  eapply bytes_between_prefix; [|done]. by apply Hmax.
Qed.

Lemma is_prefix_matched_spec s key :
  prefix_free s -> is_prefix_matched s key = true <-> matched s key.
Proof.
  intros Hfree. unfold is_prefix_matched.
  destruct (last _) as [value|] eqn:Hlast.
  - assert (value ∈ s /\ bytes_leb value key = true) as [Hv Hle].
    { apply last_Some in Hlast as [l Hl].
      assert (value ∈ range_set (Unbounded, Included key) s) as Hin by (rewrite Hl; set_solver).
      by apply elem_of_range_set in Hin as [? ?]. }
    assert (forall p, p ∈ s -> p `prefix_of` key -> p = value) as Hmax.
    { intros p. eapply greatest_match; try done. intros q Hq Hqk.
      eapply last_sorted; [apply sort_by_sorted|done|]. by apply elem_of_range_set. }
    destruct (Nat.ltb_spec (length key) (length value)) as [Hlt|Hge].
    + split; [done|]. intros (p & Hp & Hpre). pose proof (Hmax p Hp Hpre) as ->.
      apply prefix_length in Hpre. lia.
    + rewrite bool_decide_eq_true. split.
      * intros Heq. exists value. split; [done|]. rewrite Heq. apply prefix_take.
      * intros (p & Hp & Hpre). pose proof (Hmax p Hp Hpre) as ->. destruct Hpre as [t ->].
        by rewrite take_app_length.
  - apply last_None in Hlast. split; [done|]. intros (p & Hp & Hpre).
    assert (p ∈ range_set (Unbounded, Included key) s) as Hin.
    { apply elem_of_range_set. split; [by apply bytes_leb_prefix|done]. }
    rewrite Hlast in Hin. by apply not_elem_of_nil in Hin.
Qed.

(** Replacing the prefixes that a new one dominates. *)
Lemma matched_insert_prefix D p k :
  bytes_wf p -> set_Forall bytes_wf D ->
  matched ({[p]} ∪ remove_elements (range_set (get_interval p) D) D) k <->
  matched D k \/ p `prefix_of` k.
Proof.
  intros Hp HD. unfold matched. setoid_rewrite elem_of_union. setoid_rewrite elem_of_singleton.
  setoid_rewrite elem_of_remove_elements. setoid_rewrite elem_of_range_set. split.
  - intros (q & [->|[Hq _]] & Hqk); [by right|]. left. by exists q.
  - intros [(q & Hq & Hqk)|Hpre]; [|by exists p; auto].
    destruct (decide (p `prefix_of` q)) as [Hpq|Hpq].
    + exists p. split; [by left|]. by etrans.
    + exists q. split; [|done]. right. split; [done|]. intros [Hi _]. apply Hpq.
      apply interval_prefix; [done|by apply HD|done].
Qed.

Lemma insert_prefix_wf D p :
  bytes_wf p -> set_Forall bytes_wf D ->
  set_Forall bytes_wf ({[p]} ∪ remove_elements (range_set (get_interval p) D) D).
Proof.
  intros Hp HD q. rewrite elem_of_union, elem_of_singleton, elem_of_remove_elements.
  intros [->|[Hq _]]; [done|by apply HD].
Qed.

(** A new prefix that no other one matches keeps the set prefix-free. *)
Lemma insert_prefix_free D p :
  bytes_wf p -> set_Forall bytes_wf D -> prefix_free D -> ~ matched D p ->
  prefix_free ({[p]} ∪ remove_elements (range_set (get_interval p) D) D).
Proof.
  intros Hp HD Hfree Hm q1 q2. rewrite !elem_of_union, !elem_of_singleton,
    !elem_of_remove_elements, !elem_of_range_set.
  intros [->|[Hq1 _]] [->|[Hq2 Hn2]] Hpre; [done| | |by apply Hfree].
  - destruct Hn2. split; [|done]. apply interval_prefix; [done|by apply HD|done].
  - destruct Hm. by exists q1.
Qed.

(** What the two collections of [simplify] do to a key. *)
Inductive simplify_effect (M : gmap bytes (option bytes)) (D : gset bytes) (k : bytes)
    : option (option bytes) -> Prop :=
  | effect_map r : M !! k = Some r -> simplify_effect M D k (Some r)
  | effect_prefix : M !! k = None -> matched D k -> simplify_effect M D k (Some None)
  | effect_none : M !! k = None -> ~ matched D k -> simplify_effect M D k None.

Definition simplify_inv (batch : Batch) (state : SimplifyState) : Prop :=
  prefix_free state.2 /\ set_Forall bytes_wf state.2 /\ store_wf state.1 /\
  forall k, simplify_effect state.1 state.2 k (batch_effect batch k).

Lemma batch_effect_snoc batch operation k :
  batch_effect (batch ++ [operation]) k =
  match touch operation k with Some r => Some r | None => batch_effect batch k end.
Proof. by rewrite batch_effect_app. Qed.

(** A step that touches one key. *)
Lemma simplify_key_inv batch M D operation key M' :
  simplify_inv batch (M, D) -> store_wf M' ->
  (forall k, k <> key -> M' !! k = M !! k) ->
  (forall k, k <> key -> touch operation k = None) ->
  (exists r, touch operation key = Some r /\ simplify_effect M' D key (Some r)) ->
  simplify_inv (batch ++ [operation]) (M', D).
Proof.
  intros (Hfree & HD & HM & Heff) HM' Hne Hother (r & Hr & Hk). split_and!; [done..|].
  intros k. simpl. rewrite batch_effect_snoc. destruct (decide (k = key)) as [->|Hkey].
  - by rewrite Hr.
  - rewrite (Hother k Hkey). destruct (Heff k) as [r' Hr'|Hr' Hm|Hr' Hm].
    + apply effect_map. by rewrite Hne.
    + apply effect_prefix; [by rewrite Hne|done].
    + apply effect_none; [by rewrite Hne|done].
Qed.

(** A step that removes a prefix, with the new set of prefixes. *)
Lemma simplify_prefix_inv batch M D p D' :
  bytes_wf p -> simplify_inv batch (M, D) -> prefix_free D' -> set_Forall bytes_wf D' ->
  (forall k, matched D' k <-> matched D k \/ p `prefix_of` k) ->
  simplify_inv (batch ++ [DeletePrefix p])
    (remove_keys (range_keys (get_interval p) M) M, D').
Proof.
  intros Hp (Hfree & HD & HM & Heff) Hfree' HD' Hmatched. split_and!; [done..| |].
  - intros k v Hk. simpl in Hk. rewrite lookup_delete_prefix in Hk by done.
    case_decide; [done|]. by eapply HM.
  - intros k. rewrite batch_effect_snoc. cbn [touch fst snd].
    pose proof (lookup_delete_prefix p M k Hp HM) as Hk.
    destruct (decide (p `prefix_of` k)) as [Hpre|Hpre].
    + apply effect_prefix; [done|]. apply Hmatched. by right.
    + destruct (Heff k) as [r Hr|Hr Hm|Hr Hm]; simpl in *.
      * apply effect_map. congruence.
      * apply effect_prefix; [congruence|]. apply Hmatched. by left.
      * apply effect_none; [congruence|]. rewrite Hmatched. naive_solver.
Qed.

Lemma simplify_delete_prefix_inv batch M D p :
  bytes_wf p -> simplify_inv batch (M, D) ->
  simplify_inv (batch ++ [DeletePrefix p]) (simplify_step (M, D) (DeletePrefix p)).
Proof.
  intros Hp Hinv. pose proof Hinv as (Hfree & HD & _ & _). simpl in *.
  pose proof (is_prefix_matched_spec D p Hfree) as Hspec.
  destruct (is_prefix_matched D p); simpl; apply (simplify_prefix_inv batch M D); try done.
  - intros k. split; [by left|]. intros [Hm|Hpre]; [done|].
    destruct (proj1 Hspec eq_refl) as (q & Hq & Hqp). exists q. split; [done|]. by etrans.
  - apply insert_prefix_free; [done..|]. rewrite <- Hspec. done.
  - by apply insert_prefix_wf.
  - intros k. by apply matched_insert_prefix.
Qed.

Lemma simplify_step_inv batch state operation :
  operation_wf operation -> simplify_inv batch state ->
  simplify_inv (batch ++ [operation]) (simplify_step state operation).
Proof.
  intros Hop Hinv. destruct state as [M D], operation as [key|p|key value]; simpl in Hop.
  - pose proof Hinv as (Hfree & HD & HM & Heff). simpl in *.
    pose proof (is_prefix_matched_spec D key Hfree) as Hspec.
    destruct (is_prefix_matched D key); simpl; apply (simplify_key_inv batch M D _ key);
      try done; try (intros k Hk; simpl; by rewrite decide_False || simplify_map_eq).
    + intros k v [_ Hk]%lookup_delete_Some. by eapply HM.
    + exists None. simpl. rewrite decide_True by done. split; [done|].
      apply effect_prefix; [apply lookup_delete_eq|by apply Hspec].
    + by apply map_Forall_insert_2.
    + exists None. simpl. rewrite decide_True by done. split; [done|].
      apply effect_map, lookup_insert_eq.
  - by apply simplify_delete_prefix_inv.
  - pose proof Hinv as (_ & _ & HM & _). apply (simplify_key_inv batch M D _ key); try done;
      try (intros k Hk; simpl; by rewrite decide_False || simplify_map_eq).
    + by apply map_Forall_insert_2.
    + exists (Some value). simpl. rewrite decide_True by done. split; [done|].
      apply effect_map, lookup_insert_eq.
Qed.

Lemma simplify_state_inv batch :
  batch_wf batch -> simplify_inv batch (foldl simplify_step (∅, ∅) batch).
Proof.
  induction batch as [|operation batch IH] using rev_ind; intros Hwf.
  - split_and!; simpl.
    + intros p q Hp. by apply elem_of_empty in Hp.
    + intros p Hp. by apply elem_of_empty in Hp.
    + done.
    + intros k. apply effect_none; [done|]. intros (p & Hp & _). by apply elem_of_empty in Hp.
  - apply Forall_app in Hwf as [Hwf [Hop _]%Forall_cons]. rewrite foldl_snoc.
    apply simplify_step_inv; auto.
Qed.

(** ** Applying simplified batches *)

(** The operations of the simple part, which can be applied in any order. *)
Definition simple_operations (b : SimpleUnorderedBatch) : Batch :=
  (Delete <$> deletions b) ++ (uncurry Put <$> insertions b).

Lemma elem_of_simple_operations b operation :
  operation ∈ simple_operations b <->
  (exists key, operation = Delete key /\ key ∈ deletions b) \/
  (exists key value, operation = Put key value /\ (key, value) ∈ insertions b).
Proof.
  unfold simple_operations. rewrite elem_of_app, !list_elem_of_fmap. split.
  - intros [(key & -> & Hk)|([key value] & -> & Hk)]; [left|right]; eauto.
  - intros [(key & -> & Hk)|(key & value & -> & Hk)]; [left|right]; [by exists key|].
    by exists (key, value).
Qed.

(** What [simplify] returns. *)
Lemma simplify_elements batch M D :
  foldl simplify_step (∅, ∅) batch = (M, D) ->
  (forall p, p ∈ key_prefix_deletions (simplify batch) <-> p ∈ D) /\
  (forall k, k ∈ deletions (simple_unordered_batch (simplify batch)) <-> M !! k = Some None) /\
  (forall k v, (k, v) ∈ insertions (simple_unordered_batch (simplify batch)) <->
     M !! k = Some (Some v)).
Proof.
  intros Hs. unfold simplify. rewrite Hs. simpl. split_and!.
  - intros p. rewrite elem_of_range_set. split; [by intros [_ Hp]|done].
  - intros k. rewrite list_elem_of_omap. split.
    + intros ([k' [v|]] & [_ Hk]%elem_of_range_entries & Heq); simpl in Heq; naive_solver.
    + intros Hk. exists (k, None). by rewrite elem_of_range_entries.
  - intros k v. rewrite list_elem_of_omap. split.
    + intros ([k' [v'|]] & [_ Hk]%elem_of_range_entries & Heq); simpl in Heq; naive_solver.
    + intros Hk. exists (k, Some v). by rewrite elem_of_range_entries.
Qed.

Section simplified.
Context (batch : Batch) (map : Store).
Context (batch_ok : batch_wf batch) (map_ok : store_wf map).

Let u := simplify batch.
Let M := (foldl simplify_step (∅, ∅) batch).1.
Let D := (foldl simplify_step (∅, ∅) batch).2.

Lemma simplified_inv : simplify_inv batch (M, D).
Proof. unfold M, D. rewrite <- surjective_pairing. by apply simplify_state_inv. Qed.

Lemma elem_of_prefixes p : p ∈ key_prefix_deletions u <-> p ∈ D.
Proof. apply (simplify_elements batch M D). unfold M, D. by destruct (foldl _ _ _). Qed.
Lemma elem_of_deletions k : k ∈ deletions (simple_unordered_batch u) <-> M !! k = Some None.
Proof. apply (simplify_elements batch M D). unfold M, D. by destruct (foldl _ _ _). Qed.
Lemma elem_of_insertions k v :
  (k, v) ∈ insertions (simple_unordered_batch u) <-> M !! k = Some (Some v).
Proof. apply (simplify_elements batch M D). unfold M, D. by destruct (foldl _ _ _). Qed.

Lemma inserted_keys k :
  k ∈ (list_to_set (insertions (simple_unordered_batch u)).*1 : gset bytes) <->
  exists v, M !! k = Some (Some v).
Proof.
  rewrite elem_of_list_to_set, list_elem_of_fmap. split.
  - intros ([k' v] & -> & Hin). apply elem_of_insertions in Hin. by exists v.
  - intros [v Hv]. exists (k, v). by rewrite elem_of_insertions.
Qed.

(** The effect of operations that touch the keys of the map as the map says, and
    otherwise delete keys that the prefixes match, or that are not stored. *)
Lemma write_simplified ops k :
  batch_wf ops ->
  (forall r, M !! k = Some r -> batch_effect ops k = Some r) ->
  (M !! k = None -> matched D k -> batch_effect ops k = Some None \/
     (batch_effect ops k = None /\ map !! k = None)) ->
  (M !! k = None -> ~ matched D k -> batch_effect ops k = None) ->
  write_batch ops map !! k = write_batch batch map !! k.
Proof.
  intros Hwf Hmap Hpre Hnone. rewrite !lookup_write_batch by done.
  destruct simplified_inv as (_ & _ & _ & Heff).
  destruct (Heff k) as [r Hr|Hr Hm|Hr Hm]; simpl in *.
  - by rewrite (Hmap r Hr).
  - destruct (Hpre Hr Hm) as [->|[-> ->]]; done.
  - by rewrite (Hnone Hr Hm).
Qed.

(** Operations, in any order, that only write what the two collections say. *)
Definition sound (ops : Batch) (k : bytes) : Prop :=
  forall operation r, operation ∈ ops -> touch operation k = Some r ->
    M !! k = Some r \/ (M !! k = None /\ matched D k /\ r = None).
Definition complete (ops : Batch) (k : bytes) : Prop :=
  forall r, M !! k = Some r -> exists operation, operation ∈ ops /\ touch operation k = Some r.

Lemma effect_of_map ops k r :
  sound ops k -> complete ops k -> M !! k = Some r -> batch_effect ops k = Some r.
Proof.
  intros Hs Hc Hr. apply batch_effect_unique; [by apply Hc|].
  intros o r' Ho Ht. destruct (Hs o r' Ho Ht) as [|(? & _)]; congruence.
Qed.

Lemma effect_of_prefix ops k :
  sound ops k -> M !! k = None -> batch_effect ops k = None \/ batch_effect ops k = Some None.
Proof.
  intros Hs Hr. destruct (batch_effect ops k) as [r|] eqn:He; [|by left]. right.
  apply batch_effect_Some in He as (o & Ho & Ht).
  destruct (Hs o r Ho Ht) as [|(_ & _ & ->)]; [congruence|done].
Qed.

Lemma effect_unmatched ops k :
  sound ops k -> M !! k = None -> ~ matched D k -> batch_effect ops k = None.
Proof.
  intros Hs Hr Hm. apply batch_effect_None. intros o Ho.
  destruct (touch o k) as [r|] eqn:Ht; [|done].
  destruct (Hs o r Ho Ht) as [|(_ & ? & _)]; [congruence|done].
Qed.

(** Any order of the operations of a simple batch that has the insertions of
    [simplify], its deletions, and possibly deletions that a prefix matches. *)
Lemma simple_sound b k :
  insertions b = insertions (simple_unordered_batch u) ->
  (forall key, key ∈ deletions b ->
     M !! key = Some None \/ (M !! key = None /\ matched D key)) ->
  sound (simple_operations b) k.
Proof.
  intros Hi Hd o r Ho Ht. apply elem_of_simple_operations in Ho
    as [(key & -> & Hk)|(key & value & -> & Hk)]; simpl in Ht; case_decide; simplify_eq.
  - destruct (Hd k Hk) as [|[]]; auto.
  - left. rewrite Hi in Hk. by apply elem_of_insertions in Hk.
Qed.

Lemma simple_complete b k :
  insertions b = insertions (simple_unordered_batch u) ->
  (forall key, M !! key = Some None -> key ∈ deletions b) -> complete (simple_operations b) k.
Proof.
  intros Hi Hd [value|] Hr.
  - exists (Put k value). simpl. rewrite decide_True by done. split; [|done].
    apply elem_of_simple_operations. right. exists k, value. split; [done|].
    rewrite Hi. by apply elem_of_insertions.
  - exists (Delete k). simpl. rewrite decide_True by done. split; [|done].
    apply elem_of_simple_operations. left. exists k. split; [done|]. by apply Hd.
Qed.

Lemma sound_perm ops ops' k : ops ≡ₚ ops' -> sound ops k -> sound ops' k.
Proof. intros Hp Hs o r Ho. apply Hs. by rewrite Hp. Qed.
Lemma complete_perm ops ops' k : ops ≡ₚ ops' -> complete ops k -> complete ops' k.
Proof. intros Hp Hc r Hr. destruct (Hc r Hr) as (o & Ho & ?). exists o. by rewrite <- Hp. Qed.

Lemma simple_wf b :
  insertions b = insertions (simple_unordered_batch u) ->
  (forall key, key ∈ deletions b -> bytes_wf key) -> batch_wf (simple_operations b).
Proof.
  intros Hi Hd. apply Forall_forall. intros o Ho.
  apply elem_of_simple_operations in Ho as [(key & -> & Hk)|(key & value & -> & Hk)]; simpl;
    [by apply Hd|].
  rewrite Hi in Hk. apply elem_of_insertions in Hk. destruct simplified_inv as (_ & _ & HM & _).
  by eapply HM.
Qed.

Lemma deletions_wf key : key ∈ deletions (simple_unordered_batch u) -> bytes_wf key.
Proof.
  intros Hk%elem_of_deletions. destruct simplified_inv as (_ & _ & HM & _). by eapply HM.
Qed.

Lemma prefixes_wf : batch_wf (DeletePrefix <$> key_prefix_deletions u).
Proof.
  apply Forall_fmap, Forall_forall. intros p Hp%elem_of_prefixes. simpl.
  destruct simplified_inv as (_ & HD & _). by apply HD.
Qed.

Lemma prefixes_effect k :
  batch_effect (DeletePrefix <$> key_prefix_deletions u) k = Some None /\ matched D k \/
  batch_effect (DeletePrefix <$> key_prefix_deletions u) k = None /\ ~ matched D k.
Proof.
  destruct (batch_effect _ k) as [r|] eqn:He; [left|right].
  - apply batch_effect_Some in He as (o & (p & -> & Hp)%list_elem_of_fmap & Ht).
    simpl in Ht. case_decide; simplify_eq. split; [done|]. exists p. by rewrite <- elem_of_prefixes.
  - split; [done|]. intros (p & Hp & Hpre). rewrite batch_effect_None in He.
    specialize (He (DeletePrefix p)). simpl in He. rewrite decide_True in He by done.
    discriminate He. apply list_elem_of_fmap_2. by apply elem_of_prefixes.
Qed.

(** C34: Simplification preserves the meaning of a batch.  Applying the prefix
    deletions of [simplify] and then its deletions and insertions, in any order,
    leaves every store as the original sequence of operations does. *)
Theorem simplify_equivalent ops :
  ops ≡ₚ simple_operations (simple_unordered_batch (simplify batch)) ->
  write_batch ((DeletePrefix <$> key_prefix_deletions (simplify batch)) ++ ops) map =
  write_batch batch map.
Proof.
  fold u. intros Hp. apply map_eq. intros k.
  assert (sound ops k) as Hs.
  { eapply sound_perm; [done|]. apply simple_sound; [done|].
    intros key Hk. left. by apply elem_of_deletions. }
  assert (complete ops k) as Hc.
  { eapply complete_perm; [done|]. apply simple_complete; [done|].
    intros key Hk. by apply elem_of_deletions. }
  pose proof (prefixes_effect k) as Hpre. apply write_simplified.
  - apply Forall_app. split; [apply prefixes_wf|]. rewrite Hp.
    apply simple_wf; [done|apply deletions_wf].
  - intros r Hr. rewrite batch_effect_app. by rewrite (effect_of_map _ _ _ Hs Hc Hr).
  - intros Hr Hm. left. rewrite batch_effect_app.
    destruct (effect_of_prefix _ _ Hs Hr) as [->| ->]; [|done]. by destruct Hpre as [[-> _]|[_ ?]].
  - intros Hr Hm. rewrite batch_effect_app, (effect_unmatched _ _ Hs Hr Hm).
    by destruct Hpre as [[_ ?]|[-> _]].
Qed.

(** The deletions that replace the prefixes. *)
Lemma elem_of_expanded p key :
  bytes_wf p ->
  key ∈ expanded map (list_to_set (insertions (simple_unordered_batch u)).*1) p <->
  p `prefix_of` key /\ is_Some (map !! key) /\ ~ exists v, M !! key = Some (Some v).
Proof.
  intros Hp. unfold expanded, expand_delete_prefix.
  rewrite list_elem_of_filter, inserted_keys, list_elem_of_fmap. split.
  - intros [Hn (short & -> & Hk)]. apply elem_of_find_keys in Hk; [|done..].
    split_and!; [by apply prefix_app_r|done..].
  - intros ([short ->] & Hk & Hn). split; [done|]. exists short. split; [done|].
    by apply elem_of_find_keys.
Qed.

Lemma elem_of_all_expanded init prefixes key :
  key ∈ foldl (fun deletions p => deletions ++
      expanded map (list_to_set (insertions (simple_unordered_batch u)).*1) p) init prefixes <->
  key ∈ init \/ exists p, p ∈ prefixes /\
    key ∈ expanded map (list_to_set (insertions (simple_unordered_batch u)).*1) p.
Proof.
  revert init. induction prefixes as [|p prefixes IH]; intros init; simpl; [set_solver|].
  rewrite IH. set_solver.
Qed.

(** Operations in any order are equivalent to the batch if they are sound and
    complete and delete what the prefixes match. *)
Lemma write_unordered ops k :
  batch_wf ops -> sound ops k -> complete ops k ->
  (M !! k = None -> matched D k -> is_Some (map !! k) ->
   exists operation, operation ∈ ops /\ touch operation k = Some None) ->
  write_batch ops map !! k = write_batch batch map !! k.
Proof.
  intros Hwf Hs Hc Hp. apply write_simplified; [done| | |by apply effect_unmatched].
  - intros r. by apply effect_of_map.
  - intros Hr Hm. destruct (map !! k) as [v|] eqn:Hk.
    + left. apply batch_effect_unique; [by apply Hp; [..|exists v]|].
      intros o r Ho Ht. destruct (Hs o r Ho Ht) as [|(_ & _ & ->)]; [congruence|done].
    + destruct (effect_of_prefix ops k Hs Hr) as [->| ->]; auto.
Qed.

(** Prefix deletions can be replaced by deletions of single keys.  For a
    database without prefix deletions, [simplify] followed by
    [expand_delete_prefixes] on the stored keys gives deletions and insertions
    that, in any order, leave the store as the original batch does. *)
Theorem expand_delete_prefixes_equivalent ops :
  ops ≡ₚ simple_operations (expand_delete_prefixes map (simplify batch)) ->
  write_batch ops map = write_batch batch map.
Proof.
  fold u. intros Hp. apply map_eq. intros k. destruct simplified_inv as (_ & HD & HM & _).
  assert (forall key, key ∈ deletions (expand_delete_prefixes map u) <->
    M !! key = Some None \/ exists p, p ∈ D /\ p `prefix_of` key /\ is_Some (map !! key) /\
      ~ exists v, M !! key = Some (Some v)) as Hdel.
  { intros key. cbn [expand_delete_prefixes deletions].
    rewrite elem_of_all_expanded, elem_of_deletions. apply or_iff_compat_l.
    setoid_rewrite elem_of_prefixes. split; intros (p & Hpin & Hk); exists p; split; try done;
      apply elem_of_expanded; by try apply HD. }
  assert (sound ops k) as Hs.
  { eapply sound_perm; [done|]. apply simple_sound; [done|].
    intros key [Hk|(p & Hpin & Hpre & _ & Hn)]%Hdel; [by left|].
    destruct (M !! key) as [[v|]|]; [by destruct Hn; exists v|by left|].
    right. split; [done|]. by exists p. }
  assert (complete ops k) as Hc.
  { eapply complete_perm; [done|]. apply simple_complete; [done|].
    intros key Hk. apply Hdel. by left. }
  apply write_unordered; [|done..|].
  - rewrite Hp. apply simple_wf; [done|]. intros key [Hk|(p & _ & _ & [v Hv] & _)]%Hdel.
    + by eapply HM.
    + by eapply map_ok.
  - intros Hr (p & Hpin & Hpre) Hk. exists (Delete k). simpl. rewrite decide_True by done.
    split; [|done]. rewrite Hp. apply elem_of_simple_operations. left. exists k.
    split; [done|]. apply Hdel. right. exists p. rewrite Hr. split_and!; try done. by intros [].
Qed.

(** The prefixes kept and the deletions added by
    [expand_colliding_prefix_deletions]. *)
Definition colliding (p : bytes) : Prop :=
  exists key v, p `prefix_of` key /\ M !! key = Some (Some v).

Lemma range_set_inserted p :
  bytes_wf p ->
  match range_set (get_interval p) (list_to_set (insertions (simple_unordered_batch u)).*1) with
  | _ :: _ => colliding p
  | [] => ~ colliding p
  end.
Proof.
  intros Hp. destruct simplified_inv as (_ & _ & HM & _).
  assert (forall key, key ∈ range_set (get_interval p)
      (list_to_set (insertions (simple_unordered_batch u)).*1) <->
    p `prefix_of` key /\ exists v, M !! key = Some (Some v)) as Hin.
  { intros key. rewrite elem_of_range_set, inserted_keys. split; intros [Hi [v Hv]]; split;
      try (by exists v); (apply interval_prefix; [done|by eapply HM|done]). }
  destruct (range_set _ _) as [|key keys].
  - intros (key & v & Hpre & Hv). apply (not_elem_of_nil key), Hin. split; [done|by exists v].
  - destruct (proj1 (Hin key)) as [Hpre [v Hv]]; [set_solver|]. by exists key, v.
Qed.

Lemma colliding_dec p : bytes_wf p -> colliding p \/ ~ colliding p.
Proof.
  intros Hp. pose proof (range_set_inserted p Hp). destruct (range_set _ _); auto.
Qed.

Lemma elem_of_colliding init_p init_d prefixes :
  Forall bytes_wf prefixes ->
  let '(ps, ds) := foldl (fun '(key_prefix_deletions, deletions) key_prefix =>
      match range_set (get_interval key_prefix)
        (list_to_set (insertions (simple_unordered_batch u)).*1) with
      | _ :: _ => (key_prefix_deletions, deletions ++
          expanded map (list_to_set (insertions (simple_unordered_batch u)).*1) key_prefix)
      | [] => (key_prefix_deletions ++ [key_prefix], deletions)
      end) (init_p, init_d) prefixes in
  (forall p, p ∈ ps <-> p ∈ init_p \/ (p ∈ prefixes /\ ~ colliding p)) /\
  (forall key, key ∈ ds <-> key ∈ init_d \/ exists p, p ∈ prefixes /\ colliding p /\
    key ∈ expanded map (list_to_set (insertions (simple_unordered_batch u)).*1) p).
Proof.
  intros Hwf. revert init_p init_d. induction Hwf as [|p prefixes Hp Hwf IH];
    intros init_p init_d; simpl; [set_solver|].
  pose proof (range_set_inserted p Hp) as Hcol. destruct (range_set _ _).
  - specialize (IH (init_p ++ [p]) init_d).
    destruct (foldl _ (_, init_d) _) as [ps ds].
    destruct IH as [IH1 IH2]. split.
    + intros q. rewrite IH1, elem_of_app, list_elem_of_singleton, elem_of_cons. naive_solver.
    + intros q. rewrite IH2. setoid_rewrite elem_of_cons. naive_solver.
  - specialize (IH init_p (init_d ++
      expanded map (list_to_set (insertions (simple_unordered_batch u)).*1) p)).
    destruct (foldl _ (init_p, _) _) as [ps ds]. destruct IH as [IH1 IH2]. split.
    + intros q. rewrite IH1, elem_of_cons. naive_solver.
    + intros q. rewrite IH2, elem_of_app. setoid_rewrite elem_of_cons. naive_solver.
Qed.

Lemma colliding_elements u' :
  u' = expand_colliding_prefix_deletions map u ->
  insertions (simple_unordered_batch u') = insertions (simple_unordered_batch u) /\
  (forall p, p ∈ key_prefix_deletions u' <-> p ∈ D /\ ~ colliding p) /\
  (forall key, key ∈ deletions (simple_unordered_batch u') <-> M !! key = Some None \/
    exists p, p ∈ D /\ colliding p /\ p `prefix_of` key /\ is_Some (map !! key) /\
      ~ exists v, M !! key = Some (Some v)).
Proof.
  destruct simplified_inv as (_ & HD & _ & _). intros Hu'.
  assert (Forall bytes_wf (key_prefix_deletions u)) as Hwf.
  { apply Forall_forall. intros p Hpin%elem_of_prefixes. by apply HD. }
  pose proof (elem_of_colliding [] (deletions (simple_unordered_batch u)) _ Hwf) as Hcol.
  unfold expand_colliding_prefix_deletions in Hu'.
  destruct (foldl _ ([], _) _) as [ps ds]. destruct Hcol as [Hps Hds]. subst u'. simpl. split_and!.
  - done.
  - intros p. rewrite Hps, elem_of_prefixes. set_solver.
  - intros key. rewrite Hds, elem_of_deletions. apply or_iff_compat_l.
    setoid_rewrite elem_of_prefixes. split; intros (p & Hpin & Hc & Hk); exists p;
      (split; [done|]); (split; [done|]); apply elem_of_expanded; by try apply HD.
Qed.

(** Prefix deletions that collide with insertions can be replaced.  After
    [simplify] and [expand_colliding_prefix_deletions] on the stored keys, all
    the operations, the remaining prefix deletions included, can be applied in
    any order with the effect of the original batch. *)
Theorem expand_colliding_equivalent u' ops :
  u' = expand_colliding_prefix_deletions map (simplify batch) ->
  ops ≡ₚ (DeletePrefix <$> key_prefix_deletions u') ++
         simple_operations (simple_unordered_batch u') ->
  write_batch ops map = write_batch batch map.
Proof.
  fold u. intros (Hins & Hps & Hdel)%colliding_elements Hp. apply map_eq. intros k.
  destruct simplified_inv as (_ & HD & HM & _).
  assert (sound (simple_operations (simple_unordered_batch u')) k) as Hs.
  { apply simple_sound; [done|].
    intros key [Hk|(p & Hpin & _ & Hpre & _ & Hn)]%Hdel; [by left|].
    destruct (M !! key) as [[v|]|]; [by destruct Hn; exists v|by left|].
    right. split; [done|]. by exists p. }
  apply write_unordered.
  - rewrite Hp. apply Forall_app. split.
    + apply Forall_fmap, Forall_forall. intros p [Hpin _]%Hps. by apply HD.
    + apply simple_wf; [done|]. intros key [Hk|(p & _ & _ & _ & [v Hv] & _)]%Hdel;
        [by eapply HM|by eapply map_ok].
  - intros o r. rewrite Hp, elem_of_app. intros [Ho|Ho]; [|by apply Hs].
    apply list_elem_of_fmap in Ho as (p & -> & [Hpin Hn]%Hps).
    simpl. case_decide as Hpre; intros [= <-].
    destruct (M !! k) as [[v|]|] eqn:Hk; [destruct Hn; by exists k, v|by left|].
    right. split_and!; try done. by exists p.
  - assert (complete (simple_operations (simple_unordered_batch u')) k) as Hc.
    { apply simple_complete; [done|]. intros key Hk. apply Hdel. by left. }
    intros r Hr. destruct (Hc r Hr) as (o & Ho & Ht). exists o. split; [|done].
    rewrite Hp, elem_of_app. by right.
  - intros Hr (p & Hpin & Hpre) Hk. destruct (colliding_dec p (HD p Hpin)) as [Hcol|Hcol].
    + exists (Delete k). simpl. rewrite decide_True by done. split; [|done].
      rewrite Hp, elem_of_app. right. apply elem_of_simple_operations. left. exists k.
      split; [done|]. apply Hdel. right. exists p. rewrite Hr. split_and!; try done. by intros [].
    + exists (DeletePrefix p). simpl. rewrite decide_True by done. split; [|done].
      rewrite Hp, elem_of_app. left. apply list_elem_of_fmap_2, Hps. done.
Qed.

End simplified.

(** ** Examples *)

Module BatchExamples.

(** A stored key under the deleted prefix, one outside, and a new key under it. *)
Definition stored : Store := {[ [1; 2; 9] := [7]; [4] := [5] ]}.
Definition batch : Batch :=
  [Put [1; 2] [8]; DeletePrefix [1; 2]; Delete [1; 2; 4]; Put [1; 2; 255] [3]; Delete [4]].

Lemma stored_ok : store_wf stored.
Proof. apply map_Forall_to_list. by vm_compute; repeat constructor. Qed.

Lemma batch_ok : batch_wf batch.
Proof. by vm_compute; repeat constructor. Qed.

Lemma find_by_prefix_exact_witness :
  find_key_values_by_prefix [1; 2] stored = [([9], [7])] /\
  stored !! ([1; 2] ++ [9]) = Some [7].
Proof.
  split; [by vm_compute|].
  apply (find_by_prefix_exact [1; 2] stored); [by repeat constructor|apply stored_ok|decide_now].
Defined.

Lemma simplify_equivalent_witness :
  write_batch [DeletePrefix [1; 2]; Put [1; 2; 255] [3]; Delete [4]] stored =
  write_batch batch stored.
Proof.
  apply (simplify_equivalent batch stored batch_ok stored_ok [Put [1; 2; 255] [3]; Delete [4]]).
  vm_compute. apply Permutation_swap.
Defined.

Lemma expand_delete_prefixes_equivalent_witness :
  write_batch [Delete [4]; Delete [1; 2; 9]; Put [1; 2; 255] [3]] stored =
  write_batch batch stored.
Proof.
  apply (expand_delete_prefixes_equivalent batch stored batch_ok stored_ok). by vm_compute.
Defined.

Lemma expand_colliding_equivalent_witness :
  write_batch [Delete [4]; Delete [1; 2; 9]; Put [1; 2; 255] [3]] stored =
  write_batch batch stored.
Proof.
  apply (expand_colliding_equivalent batch stored batch_ok stored_ok
           (expand_colliding_prefix_deletions stored (simplify batch))); [done|by vm_compute].
Defined.

End BatchExamples.
