(* ===== verification/KeyValueStore.v ===== *)
(** * The key-value store view

    [linera-views/src/key_value_store_view.rs]: the view through which user
    applications keep their state.  A view caches updates and deleted prefixes
    on top of a store shared by all views; [flush] turns them into a batch.

    The context of a view is its base key; the store is the map of
    [linera-views/src/memory.rs] and is passed to the operations that read it.
    The hash function is third-party code and a parameter. *)

From S2P Require Import Prelude Types Errors Batches.

(** ** Contexts *)

Definition MIN_VIEW_TAG : Z := 1.
Definition base_tag (base_key : bytes) (tag : Z) : bytes := base_key ++ [tag].
Definition base_tag_index (base_key : bytes) (tag : Z) (index : bytes) : bytes :=
  base_key ++ [tag] ++ index.

(** [KeyTag]. *)
Definition tag_index : Z := MIN_VIEW_TAG.
Definition tag_hash : Z := MIN_VIEW_TAG + 1.

(** ** State *)

Inductive Update :=
| Removed
| SetTo (value : bytes).

#[export] Instance Update_eq_dec : EqDecision Update.
Proof. solve_decision. Defined.

Record KeyValueStoreView := {
  kv_base_key : bytes;
  was_cleared : bool;
  updates : gmap bytes Update;
  deleted_prefixes : gset bytes;
  stored_hash : option bytes;
  kv_hash : option bytes;
}.

(** A SHA3-256 hash as read from the store: the 32 bytes of an array. *)
Definition hash_length : nat := 32%nat.
Definition read_hash (key : bytes) (store : Store) : result ViewError (option bytes) :=
  match read_key_bytes key store with
  | None => Ok None
  | Some value =>
      if (length value =? hash_length)%nat then Ok (Some value) else Err ViewSerialization
  end.

Definition kv_load (base_key : bytes) (store : Store) : result ViewError KeyValueStoreView :=
  hash ← read_hash (base_tag base_key tag_hash) store;
  Ok {| kv_base_key := base_key; was_cleared := false; updates := ∅; deleted_prefixes := ∅;
        stored_hash := hash; kv_hash := hash |}.

Definition kv_rollback (self : KeyValueStoreView) : KeyValueStoreView :=
  {| kv_base_key := kv_base_key self; was_cleared := false; updates := ∅; deleted_prefixes := ∅;
     stored_hash := stored_hash self; kv_hash := stored_hash self |}.

Definition kv_clear (self : KeyValueStoreView) : KeyValueStoreView :=
  {| kv_base_key := kv_base_key self; was_cleared := true; updates := ∅; deleted_prefixes := ∅;
     stored_hash := stored_hash self; kv_hash := None |}.

(** Every entry of a [BTreeMap], in order. *)
Notation all := (Unbounded, Unbounded).

(** [flush]: the operations appended to the batch and the new state. *)
Definition flush_entries (self : KeyValueStoreView) : Batch :=
  let key index := base_tag_index (kv_base_key self) tag_index index in
  if was_cleared self then
    DeletePrefix (kv_base_key self) ::
    omap (fun '(index, update) =>
            match update with SetTo value => Some (Put (key index) value) | Removed => None end)
      (range_entries all (updates self))
  else
    ((fun index => DeletePrefix (key index)) <$> range_set all (deleted_prefixes self)) ++
    ((fun '(index, update) =>
        match update with
        | Removed => Delete (key index)
        | SetTo value => Put (key index) value
        end) <$> range_entries all (updates self)).
Definition flush_hash (self : KeyValueStoreView) : Batch :=
  if bool_decide (stored_hash self = kv_hash self) then []
  else
    let key := base_tag (kv_base_key self) tag_hash in
    [match kv_hash self with None => Delete key | Some hash => Put key hash end].
Definition kv_flush (batch : Batch) (self : KeyValueStoreView) : Batch * KeyValueStoreView :=
  (batch ++ flush_entries self ++ flush_hash self,
   {| kv_base_key := kv_base_key self; was_cleared := false; updates := ∅;
      deleted_prefixes := if was_cleared self then deleted_prefixes self else ∅;
      stored_hash := kv_hash self; kv_hash := kv_hash self |}).

Definition kv_delete (batch : Batch) (self : KeyValueStoreView) : Batch :=
  batch ++ [DeletePrefix (kv_base_key self)].

(** ** Updates *)

(** The view with new updates and deleted prefixes; the hash is forgotten. *)
Definition kv_update (new_updates : gmap bytes Update) (new_prefixes : gset bytes)
    (self : KeyValueStoreView) : KeyValueStoreView :=
  {| kv_base_key := kv_base_key self; was_cleared := was_cleared self; updates := new_updates;
     deleted_prefixes := new_prefixes; stored_hash := stored_hash self; kv_hash := None |}.

Definition kv_insert (index value : bytes) (self : KeyValueStoreView) : KeyValueStoreView :=
  kv_update (<[index := SetTo value]> (updates self)) (deleted_prefixes self) self.

Definition kv_remove (index : bytes) (self : KeyValueStoreView) : KeyValueStoreView :=
  if was_cleared self
  then kv_update (delete index (updates self)) (deleted_prefixes self) self
  else kv_update (<[index := Removed]> (updates self)) (deleted_prefixes self) self.

Definition kv_delete_prefix (key_prefix : bytes) (self : KeyValueStoreView) : KeyValueStoreView :=
  let key_list := range_keys (get_interval key_prefix) (updates self) in
  let new_updates := remove_keys key_list (updates self) in
  let new_prefixes :=
    if was_cleared self then deleted_prefixes self
    else
      let key_prefix_list := range_set (get_interval key_prefix) (deleted_prefixes self) in
      {[key_prefix]} ∪ remove_elements key_prefix_list (deleted_prefixes self) in
  kv_update new_updates new_prefixes self.

Definition kv_write_operation (self : KeyValueStoreView) (operation : WriteOperation)
    : KeyValueStoreView :=
  match operation with
  | Delete key => kv_remove key self
  | Put key value => kv_insert key value self
  | DeletePrefix key_prefix => kv_delete_prefix key_prefix self
  end.
Definition kv_write_batch (batch : Batch) (self : KeyValueStoreView) : KeyValueStoreView :=
  foldl kv_write_operation (kv_update (updates self) (deleted_prefixes self) self) batch.

(** ** Reads *)

Definition kv_get (index : bytes) (self : KeyValueStoreView) (store : Store) : option bytes :=
  match updates self !! index with
  | Some Removed => None
  | Some (SetTo value) => Some value
  | None =>
      if was_cleared self then None
      else read_key_bytes (base_tag_index (kv_base_key self) tag_index index) store
  end.

(** [multi_get]: the indices without an update are read together. *)
Definition kv_multi_get (indices : list bytes) (self : KeyValueStoreView) (store : Store)
    : list (option bytes) :=
  (fun index => kv_get index self store) <$> indices.

(** [NextLowerKeyIterator]. *)
Record LowerKeys := {
  prec1 : option bytes;
  prec2 : option bytes;
  lower_iter : list bytes;
}.

Definition lower_new (s : gset bytes) : LowerKeys :=
  let iter := range_set all s in
  {| prec1 := None; prec2 := head iter; lower_iter := tail iter |}.

(** The loop of [get_lower_bound]. *)
Fixpoint lower_loop (p1 p2 : option bytes) (iter : list bytes) (val : bytes)
    : option bytes * LowerKeys :=
  match p2 with
  | None => (p1, {| prec1 := p1; prec2 := p2; lower_iter := iter |})
  | Some x =>
      if negb (bytes_leb x val) then (p1, {| prec1 := p1; prec2 := p2; lower_iter := iter |})
      else
        match iter with
        | [] => (p2, {| prec1 := p2; prec2 := None; lower_iter := [] |})
        | y :: iter => lower_loop p2 (Some y) iter val
        end
  end.
Definition get_lower_bound (self : LowerKeys) (val : bytes) : option bytes * LowerKeys :=
  lower_loop (prec1 self) (prec2 self) (lower_iter self) val.

Definition is_index_present (self : LowerKeys) (index : bytes) : bool * LowerKeys :=
  let '(lower_bound, self) := get_lower_bound self index in
  (match lower_bound with
   | None => true
   | Some key_prefix =>
       if (length index <? length key_prefix)%nat then true
       else negb (bool_decide (take (length key_prefix) index = key_prefix))
   end, self).

(** The updates up to a stored key: the entries they contribute, the remaining
    updates, and whether the last one is for the key itself. *)
Fixpoint take_updates (key : bytes) (pending : list (bytes * Update))
    : list (bytes * bytes) * list (bytes * Update) * bool :=
  match pending with
  | (update_key, update) :: rest =>
      if bytes_leb update_key key then
        let here := match update with SetTo value => [(update_key, value)] | Removed => [] end in
        if bool_decide (update_key = key) then (here, rest, true)
        else let '(entries, rest, found) := take_updates key rest in (here ++ entries, rest, found)
      else ([], pending, false)
  | [] => ([], [], false)
  end.

(** The entries of the remaining updates. *)
Definition set_entries (pending : list (bytes * Update)) : list (bytes * bytes) :=
  omap (fun '(key, update) =>
          match update with SetTo value => Some (key, value) | Removed => None end) pending.

(** The merge of the stored entries with the updates.  Keys are relative to
    [key_prefix]. *)
Fixpoint merge_entries (key_prefix : bytes) (stored : list (bytes * bytes))
    (pending : list (bytes * Update)) (lower : LowerKeys) : list (bytes * bytes) :=
  match stored with
  | [] => set_entries pending
  | (key, value) :: stored =>
      let '(entries, pending, found) := take_updates key pending in
      if found then entries ++ merge_entries key_prefix stored pending lower
      else
        let '(present, lower) := is_index_present lower (key_prefix ++ key) in
        entries ++ (if present then [(key, value)] else []) ++
        merge_entries key_prefix stored pending lower
  end.

Definition kv_find_key_values_by_prefix (key_prefix : bytes) (self : KeyValueStoreView)
    (store : Store) : list (bytes * bytes) :=
  let len := length key_prefix in
  let key_prefix_full := base_tag_index (kv_base_key self) tag_index key_prefix in
  let pending :=
    (fun kv => (drop len kv.1, kv.2)) <$>
      range_entries (Included key_prefix, get_upper_bound key_prefix) (updates self) in
  if was_cleared self then set_entries pending
  else merge_entries key_prefix (find_key_values_by_prefix key_prefix_full store) pending
         (lower_new (deleted_prefixes self)).

Definition kv_find_keys_by_prefix (key_prefix : bytes) (self : KeyValueStoreView)
    (store : Store) : list bytes :=
  (kv_find_key_values_by_prefix key_prefix self store).*1.

(** [for_each_index_value]: the entries in the order they are visited. *)
Definition kv_entries (self : KeyValueStoreView) (store : Store) : list (bytes * bytes) :=
  let key_prefix := base_tag (kv_base_key self) tag_index in
  let pending := range_entries all (updates self) in
  if was_cleared self then set_entries pending
  else merge_entries [] (find_key_values_by_prefix key_prefix store) pending
         (lower_new (deleted_prefixes self)).

Definition kv_indices (self : KeyValueStoreView) (store : Store) : list bytes :=
  (kv_entries self store).*1.

(** ** Hashes *)

(** BCS of an [i32]: four bytes, little endian. *)
Definition le_bytes32 (x : Z) : bytes :=
  [x mod 256; (x / 2 ^ 8) mod 256; (x / 2 ^ 16) mod 256; (x / 2 ^ 24) mod 256].

(** What [compute_hash] feeds to the hash function. *)
Definition hash_input (entries : list (bytes * bytes)) : bytes :=
  concat ((fun kv => kv.1 ++ kv.2) <$> entries) ++ le_bytes32 (Z.of_nat (length entries)).

Section hashing.
Context (sha3_256 : bytes -> bytes).

Definition compute_hash (self : KeyValueStoreView) (store : Store) : bytes :=
  sha3_256 (hash_input (kv_entries self store)).

(** [hash_mut] and [hash]: the hash and the view that remembers it. *)
Definition hash_mut (self : KeyValueStoreView) (store : Store) : bytes * KeyValueStoreView :=
  match kv_hash self with
  | Some hash => (hash, self)
  | None =>
      let new_hash := compute_hash self store in
      (new_hash, {| kv_base_key := kv_base_key self; was_cleared := was_cleared self;
                    updates := updates self; deleted_prefixes := deleted_prefixes self;
                    stored_hash := stored_hash self; kv_hash := Some new_hash |})
  end.

End hashing.

(** ** Contents of a view *)

(** The value of a key: its update if it has one, otherwise what is stored,
    unless the view was cleared or a deleted prefix matches the key. *)
Definition stored_at (base_key : bytes) (store : Store) (k : bytes) : option bytes :=
  store !! base_tag_index base_key tag_index k.

Definition kv_contents (self : KeyValueStoreView) (store : Store) (k : bytes) : option bytes :=
  match updates self !! k with
  | Some (SetTo value) => Some value
  | Some Removed => None
  | None =>
      if was_cleared self || bool_decide (matched (deleted_prefixes self) k) then None
      else stored_at (kv_base_key self) store k
  end.

Record kv_wf (self : KeyValueStoreView) : Prop := {
  wf_base_key : bytes_wf (kv_base_key self);
  wf_updates : store_wf (updates self);
  wf_prefixes : set_Forall bytes_wf (deleted_prefixes self);
  wf_cleared : was_cleared self = true -> deleted_prefixes self = ∅;
  wf_stored_hash : forall hash, stored_hash self = Some hash -> length hash = hash_length;
  wf_hash : forall hash, kv_hash self = Some hash -> length hash = hash_length;
}.

(** The hash read by [kv_load] is well formed. *)
Definition hash_stored (base_key : bytes) (store : Store) : Prop :=
  forall hash, store !! base_tag base_key tag_hash = Some hash -> length hash = hash_length.

Lemma kv_load_Ok base_key store :
  hash_stored base_key store ->
  kv_load base_key store =
  Ok {| kv_base_key := base_key; was_cleared := false; updates := ∅; deleted_prefixes := ∅;
        stored_hash := store !! base_tag base_key tag_hash;
        kv_hash := store !! base_tag base_key tag_hash |}.
Proof.
  intros Hh. unfold kv_load, read_hash, read_key_bytes.
  destruct (store !! base_tag base_key tag_hash) as [hash|] eqn:Hs; [|done].
  rewrite (Hh hash Hs). by rewrite Nat.eqb_refl.
Qed.

(** A view without changes has the stored contents. *)
Lemma kv_contents_clean self store k :
  updates self = ∅ -> was_cleared self = false -> deleted_prefixes self = ∅ ->
  kv_contents self store k = stored_at (kv_base_key self) store k.
Proof.
  intros Hu Hc Hp. unfold kv_contents. rewrite Hu, Hc, Hp. rewrite lookup_empty.
  rewrite bool_decide_eq_false_2; [done|]. intros (p & Hin & _). by apply elem_of_empty in Hin.
Qed.

(** Each operation of a batch does to the contents what it says. *)
Lemma kv_contents_remove self store key k :
  kv_contents (kv_remove key self) store k =
  default (kv_contents self store k) (touch (Delete key) k).
Proof.
  unfold kv_remove, kv_contents. simpl. destruct (was_cleared self) eqn:Hc; simpl; rewrite ?Hc.
  - case_decide; subst; [by rewrite lookup_delete_eq|by rewrite lookup_delete_ne].
  - case_decide; subst; [by rewrite lookup_insert_eq|by rewrite lookup_insert_ne].
Qed.

Lemma kv_contents_insert self store key value k :
  kv_contents (kv_insert key value self) store k =
  default (kv_contents self store k) (touch (Put key value) k).
Proof.
  unfold kv_insert, kv_contents. simpl.
  case_decide; subst; [by rewrite lookup_insert_eq|by rewrite lookup_insert_ne].
Qed.

Lemma kv_contents_delete_prefix self store p k :
  bytes_wf p -> kv_wf self ->
  kv_contents (kv_delete_prefix p self) store k =
  default (kv_contents self store k) (touch (DeletePrefix p) k).
Proof.
  intros Hp Hwf. unfold kv_delete_prefix, kv_contents. simpl.
  rewrite lookup_delete_prefix by (done || apply Hwf). destruct (was_cleared self); simpl.
  { by case_decide. }
  rewrite (bool_decide_ext _ _ (matched_insert_prefix _ p k Hp (wf_prefixes _ Hwf))).
  case_decide as Hpre; simpl; [by rewrite bool_decide_eq_true_2 by auto|].
  by rewrite (bool_decide_ext (_ \/ p `prefix_of` k) (matched (deleted_prefixes self) k))
    by naive_solver.
Qed.

Lemma kv_contents_operation self store operation k :
  operation_wf operation -> kv_wf self ->
  kv_contents (kv_write_operation self operation) store k =
  default (kv_contents self store k) (touch operation k).
Proof.
  intros Hop Hwf. destruct operation as [key|p|key value]; unfold kv_write_operation.
  - apply kv_contents_remove.
  - by apply kv_contents_delete_prefix.
  - apply kv_contents_insert.
Qed.

Lemma kv_operation_wf self operation :
  operation_wf operation -> kv_wf self -> kv_wf (kv_write_operation self operation).
Proof.
  intros Hop [Hb Hu Hp Hc Hs Hh]. destruct operation as [key|p|key value]; simpl in *.
  - unfold kv_remove. destruct (was_cleared self) eqn:Hcl; split; simpl; auto; try congruence.
    + intros k v [_ Hk]%lookup_delete_Some. by eapply Hu.
    + by apply map_Forall_insert_2.
  - split; simpl; try done.
    + intros k v Hk. rewrite lookup_delete_prefix in Hk by done. case_decide; [done|].
      by eapply Hu.
    + destruct (was_cleared self); [done|]. by apply insert_prefix_wf.
    + intros Hcl. rewrite Hcl. auto.
  - split; simpl; try done. by apply map_Forall_insert_2.
Qed.

Lemma kv_operation_base_key self operation :
  kv_base_key (kv_write_operation self operation) = kv_base_key self.
Proof. destruct operation; simpl; [|done..]. unfold kv_remove. by destruct (was_cleared self). Qed.

Lemma kv_batch_spec batch self store :
  batch_wf batch -> kv_wf self ->
  let self' := kv_write_batch batch self in
  kv_wf self' /\ kv_base_key self' = kv_base_key self /\
  forall k, kv_contents self' store k = default (kv_contents self store k) (batch_effect batch k).
Proof.
  intros Hb Hwf. unfold kv_write_batch.
  assert (kv_wf (kv_update (updates self) (deleted_prefixes self) self)) as Hwf'.
  { by destruct Hwf; split. }
  change (kv_contents self store) with
    (kv_contents (kv_update (updates self) (deleted_prefixes self) self) store).
  change (kv_base_key self) with
    (kv_base_key (kv_update (updates self) (deleted_prefixes self) self)).
  revert Hwf'. generalize (kv_update (updates self) (deleted_prefixes self) self). clear self Hwf.
  induction Hb as [|operation batch Hop Hb IH]; intros self Hwf; simpl; [done|].
  destruct (IH (kv_write_operation self operation)) as (IH1 & IH2 & IH3).
  { by apply kv_operation_wf. }
  split_and!; [done|by rewrite IH2, kv_operation_base_key|]. intros k. rewrite IH3.
  rewrite kv_contents_operation by done. by destruct (batch_effect batch k).
Qed.

(** ** Flushing *)

Lemma base_tag_index_inj base_key k k' :
  base_tag_index base_key tag_index k = base_tag_index base_key tag_index k' <-> k = k'.
Proof.
  unfold base_tag_index. split; [|by intros ->]. intros Heq%app_inv_head. by injection Heq.
Qed.

Lemma hash_key_index base_key k :
  base_tag base_key tag_hash <> base_tag_index base_key tag_index k.
Proof. unfold base_tag, base_tag_index. by intros ?%app_inv_head. Qed.

Lemma base_tag_index_prefix base_key p k :
  base_tag_index base_key tag_index p `prefix_of` base_tag_index base_key tag_index k <->
  p `prefix_of` k.
Proof.
  unfold base_tag_index. split.
  - intros [t Ht]. rewrite <- !(assoc_L (++)) in Ht. apply app_inv_head in Ht.
    injection Ht as ->. by exists t.
  - intros [t ->]. exists t. by rewrite <- !(assoc_L (++)).
Qed.

Lemma base_tag_index_wf base_key k :
  bytes_wf base_key -> bytes_wf k -> bytes_wf (base_tag_index base_key tag_index k).
Proof. intros Hb Hk. apply Forall_app_2; [done|]. by constructor. Qed.

(** The operation written for an update. *)
Definition update_operation (base_key : bytes) (kv : bytes * Update) : WriteOperation :=
  let key := base_tag_index base_key tag_index kv.1 in
  match kv.2 with Removed => Delete key | SetTo value => Put key value end.

Lemma touch_update_operation base_key index update k :
  touch (update_operation base_key (index, update)) (base_tag_index base_key tag_index k) =
  if decide (index = k)
  then Some (match update with Removed => None | SetTo value => Some value end) else None.
Proof.
  unfold update_operation. destruct update; simpl; repeat case_decide; try done;
    by rewrite base_tag_index_inj in *.
Qed.

Lemma flush_updates_effect (base_key : bytes) (U : gmap bytes Update) l (k : bytes) :
  (forall index update, (index, update) ∈ l -> U !! index = Some update) ->
  (forall value, U !! k = Some (SetTo value) -> (k, SetTo value) ∈ l) ->
  (batch_effect (update_operation base_key <$> l) (base_tag_index base_key tag_index k) =
   match U !! k with
   | Some (SetTo value) => Some (Some value)
   | Some Removed => if decide ((k, Removed) ∈ l) then Some None else None
   | None => None
   end).
Proof.
  intros Hin Hset.
  assert (forall update, (k, update) ∈ l -> batch_effect (update_operation base_key <$> l)
    (base_tag_index base_key tag_index k) =
    Some (match update with Removed => None | SetTo value => Some value end)) as Hsome.
  { intros update Hup. apply batch_effect_unique.
    - exists (update_operation base_key (k, update)). split; [by apply list_elem_of_fmap_2|].
      by rewrite touch_update_operation, decide_True.
    - intros o r ([index update'] & -> & Hl)%list_elem_of_fmap.
      rewrite touch_update_operation. case_decide; [|done]. subst. intros [= <-].
      assert (Some update = Some update') as [= ->] by by rewrite <- (Hin _ _ Hup), <- (Hin _ _ Hl).
      done. }
  assert ((forall update, (k, update) ∉ l) -> batch_effect (update_operation base_key <$> l)
    (base_tag_index base_key tag_index k) = None) as Hnone.
  { intros Hno. apply batch_effect_None. intros o ([index update] & -> & Hl)%list_elem_of_fmap.
    rewrite touch_update_operation. case_decide; [|done]. subst. by destruct (Hno update). }
  destruct (U !! k) as [[|value]|] eqn:Hk.
  - case_decide as Hl; [by apply (Hsome Removed)|]. apply Hnone. intros update Hup.
    pose proof (Hin _ _ Hup). congruence.
  - by apply (Hsome (SetTo value)), Hset.
  - apply Hnone. intros update Hup. pose proof (Hin _ _ Hup). congruence.
Qed.

Lemma flush_prefixes_effect (base_key : bytes) (D : gset bytes) (k : bytes) :
  batch_effect ((fun index => DeletePrefix (base_tag_index base_key tag_index index)) <$>
    range_set all D) (base_tag_index base_key tag_index k) =
  if decide (matched D k) then Some None else None.
Proof.
  case_decide as Hm.
  - apply batch_effect_unique.
    + destruct Hm as (p & Hp & Hpre). exists (DeletePrefix (base_tag_index base_key tag_index p)).
      split.
      * apply list_elem_of_fmap. exists p. by rewrite elem_of_range_set.
      * simpl. by rewrite decide_True by by apply base_tag_index_prefix.
    + intros o r (p & -> & _)%list_elem_of_fmap. simpl. case_decide; naive_solver.
  - apply batch_effect_None. intros o (p & -> & [_ Hp]%elem_of_range_set)%list_elem_of_fmap.
    simpl. rewrite decide_False; [done|]. rewrite base_tag_index_prefix. intros Hpre.
    apply Hm. by exists p.
Qed.

Lemma flush_hash_effect self k :
  batch_effect (flush_hash self) (base_tag_index (kv_base_key self) tag_index k) = None.
Proof.
  unfold flush_hash. case_bool_decide; [done|].
  destruct (kv_hash self); simpl; by rewrite decide_False by apply hash_key_index.
Qed.

(** [flush_entries] with the operations of the updates named. *)
Lemma flush_entries_alt self :
  flush_entries self =
  if was_cleared self then
    DeletePrefix (kv_base_key self) ::
    (update_operation (kv_base_key self) <$>
       filter (fun kv => kv.2 <> Removed) (range_entries all (updates self)))
  else
    ((fun index => DeletePrefix (base_tag_index (kv_base_key self) tag_index index)) <$>
       range_set all (deleted_prefixes self)) ++
    (update_operation (kv_base_key self) <$> range_entries all (updates self)).
Proof.
  unfold flush_entries. destruct (was_cleared self); f_equal.
  - induction (range_entries _ _) as [|[index [|value]] l IH]; [done|..].
    + rewrite filter_cons_False by naive_solver. by rewrite <- IH.
    + rewrite filter_cons_True by done. rewrite fmap_cons, <- IH. done.
  - apply list_fmap_ext. by intros i [index [|value]].
Qed.

Lemma flush_contents self store k :
  kv_wf self ->
  default (stored_at (kv_base_key self) store k)
    (batch_effect (flush_entries self ++ flush_hash self)
       (base_tag_index (kv_base_key self) tag_index k)) =
  kv_contents self store k.
Proof.
  intros Hwf. rewrite batch_effect_app, flush_hash_effect, flush_entries_alt. unfold kv_contents.
  destruct (was_cleared self) eqn:Hc.
  - cbn [batch_effect touch orb]. rewrite (flush_updates_effect _ (updates self)).
    + rewrite (decide_True (P := kv_base_key self `prefix_of` _)) by by apply prefix_app_r.
      destruct (updates self !! k) as [[|value]|]; [|done..].
      by rewrite decide_False by (rewrite list_elem_of_filter; naive_solver).
    + intros index update [_ Hin]%list_elem_of_filter. by apply elem_of_range_entries in Hin as [_ ?].
    + intros value Hk. rewrite list_elem_of_filter, elem_of_range_entries. done.
  - rewrite batch_effect_app, flush_prefixes_effect, (flush_updates_effect _ (updates self)).
    + cbn [orb]. destruct (updates self !! k) as [[|value]|] eqn:Hk; [|done|].
      * by rewrite decide_True by by rewrite elem_of_range_entries.
      * destruct (decide (matched (deleted_prefixes self) k));
          [by rewrite bool_decide_eq_true_2|by rewrite bool_decide_eq_false_2].
    + intros index update Hin. by apply elem_of_range_entries in Hin as [_ ?].
    + intros value Hk. by rewrite elem_of_range_entries.
Qed.

(** Every operation of a flush is about a key of the view. *)
Definition operation_key (operation : WriteOperation) : bytes :=
  match operation with Delete key | DeletePrefix key | Put key _ => key end.

Lemma flush_operations self operation :
  operation ∈ flush_entries self ++ flush_hash self ->
  (exists index, (is_Some (updates self !! index) \/ index ∈ deleted_prefixes self) /\
     operation_key operation = base_tag_index (kv_base_key self) tag_index index) \/
  operation = DeletePrefix (kv_base_key self) \/
  operation = Delete (base_tag (kv_base_key self) tag_hash) \/
  (exists hash, operation = Put (base_tag (kv_base_key self) tag_hash) hash /\
     kv_hash self = Some hash).
Proof.
  assert (forall kv, kv ∈ range_entries all (updates self) ->
    exists index, (is_Some (updates self !! index) \/ index ∈ deleted_prefixes self) /\
      operation_key (update_operation (kv_base_key self) kv) =
      base_tag_index (kv_base_key self) tag_index index) as Hup.
  { intros [index update] [_ Hin]%elem_of_range_entries. exists index. rewrite Hin.
    split; [by left; eexists|]. by destruct update. }
  rewrite flush_entries_alt, elem_of_app. intros [Hop|Hop].
  - destruct (was_cleared self).
    + apply elem_of_cons in Hop as [->|(kv & -> & [_ Hin]%list_elem_of_filter)%list_elem_of_fmap];
        auto.
    + apply elem_of_app in Hop as [(p & -> & [_ Hp]%elem_of_range_set)%list_elem_of_fmap
        |(kv & -> & Hin)%list_elem_of_fmap]; left; eauto.
  - unfold flush_hash in Hop. case_bool_decide; [by apply not_elem_of_nil in Hop|].
    apply list_elem_of_singleton in Hop as ->. destruct (kv_hash self) as [hash|]; eauto 6.
Qed.

Lemma flush_batch_wf self : kv_wf self -> batch_wf (flush_entries self ++ flush_hash self).
Proof.
  intros [Hb Hu Hp _ _ _]. apply Forall_forall. intros o Ho.
  assert (bytes_wf (operation_key o)) as Hk; [|by destruct o].
  assert (bytes_wf (base_tag (kv_base_key self) tag_hash)).
  { apply Forall_app_2; [done|]. by repeat constructor. }
  apply flush_operations in Ho as [(index & Hin & ->)|[->|[->|(hash & -> & _)]]]; try done.
  apply base_tag_index_wf; [done|]. destruct Hin as [[update Hin]|Hin]; [|by apply Hp].
  by eapply Hu.
Qed.

Lemma flush_frame self key :
  ~ kv_base_key self `prefix_of` key ->
  batch_effect (flush_entries self ++ flush_hash self) key = None.
Proof.
  intros Hn. apply batch_effect_None. intros o Ho.
  assert (~ operation_key o `prefix_of` key) as Hk.
  { intros Hpre. apply Hn. etrans; [|exact Hpre].
    apply flush_operations in Ho as [(index & _ & ->)|[->|[->|(hash & -> & _)]]];
      [by apply prefix_app_r|done|by apply prefix_app_r..]. }
  destruct o; simpl in *; rewrite decide_False; try done; intros ->; by destruct Hk.
Qed.

Lemma flush_hash_stored self store :
  kv_wf self -> store_wf store -> hash_stored (kv_base_key self) store ->
  hash_stored (kv_base_key self)
    (write_batch (flush_entries self ++ flush_hash self) store).
Proof.
  intros Hwf Hstore Hh hash. rewrite lookup_write_batch by (done || by apply flush_batch_wf).
  destruct (batch_effect _ _) as [r|] eqn:He; simpl; [|by apply Hh]. intros ->.
  apply batch_effect_Some in He as (o & Ho & Ht).
  apply flush_operations in Ho as [(index & _ & Hk)|[->|[->|(hash' & -> & Heq)]]].
  - destruct o as [| |key value]; simpl in *; case_decide; try done.
    destruct (hash_key_index (kv_base_key self) index). congruence.
  - simpl in Ht. by case_decide.
  - simpl in Ht. by case_decide.
  - simpl in Ht. case_decide; simplify_eq. by eapply wf_hash.
Qed.

(** ** Refinement

    A view over a store behaves like a pair of partial functions: the current
    contents and those saved in the store. *)

Section refinement.
Context (sha3_256 : bytes -> bytes).
Context (sha3_length : forall input, length (sha3_256 input) = hash_length).

(** What a client does with a view; [KvReload] forgets the view and loads it
    again. *)
Inductive KvOp :=
| KvInsert (index value : bytes)
| KvRemove (index : bytes)
| KvWriteBatch (batch : Batch)
| KvClear
| KvRollback
| KvHash
| KvSave
| KvReload.

Definition kv_step (op : KvOp) (state : KeyValueStoreView * Store)
    : result ViewError (KeyValueStoreView * Store) :=
  let '(self, store) := state in
  match op with
  | KvInsert index value => Ok (kv_insert index value self, store)
  | KvRemove index => Ok (kv_remove index self, store)
  | KvWriteBatch batch => Ok (kv_write_batch batch self, store)
  | KvClear => Ok (kv_clear self, store)
  | KvRollback => Ok (kv_rollback self, store)
  | KvHash => Ok ((hash_mut sha3_256 self store).2, store)
  | KvSave => let '(batch, self) := kv_flush [] self in Ok (self, write_batch batch store)
  | KvReload => self ← kv_load (kv_base_key self) store; Ok (self, store)
  end.
Definition kv_run (ops : list KvOp) (state : KeyValueStoreView * Store)
    : result ViewError (KeyValueStoreView * Store) := for_each kv_step ops state.

Record KvSpec := {
  current : bytes -> option bytes;
  saved : bytes -> option bytes;
}.

Definition spec_step (s : KvSpec) (op : KvOp) : KvSpec :=
  match op with
  | KvInsert index value =>
      {| current k := if decide (index = k) then Some value else current s k; saved := saved s |}
  | KvRemove index =>
      {| current k := if decide (index = k) then None else current s k; saved := saved s |}
  | KvWriteBatch batch =>
      {| current k := default (current s k) (batch_effect batch k); saved := saved s |}
  | KvClear => {| current _ := None; saved := saved s |}
  | KvRollback | KvReload => {| current := saved s; saved := saved s |}
  | KvHash => s
  | KvSave => {| current := current s; saved := current s |}
  end.
Definition spec_run (ops : list KvOp) (s : KvSpec) : KvSpec := foldl spec_step s ops.

Definition kv_op_wf (op : KvOp) : Prop :=
  match op with
  | KvInsert index _ | KvRemove index => bytes_wf index
  | KvWriteBatch batch => batch_wf batch
  | _ => True
  end.

(** The simulation relation. *)
Record simulates (base_key : bytes) (state : KeyValueStoreView * Store) (s : KvSpec) : Prop := {
  sim_base_key : kv_base_key state.1 = base_key;
  sim_view : kv_wf state.1;
  sim_store : store_wf state.2;
  sim_hash : hash_stored base_key state.2;
  sim_current : forall k, kv_contents state.1 state.2 k = current s k;
  sim_saved : forall k, stored_at base_key state.2 k = saved s k;
}.

Lemma write_batch_wf batch store :
  batch_wf batch -> store_wf store -> store_wf (write_batch batch store).
Proof.
  intros Hb. revert store. induction Hb as [|o batch Ho Hb IH]; intros store Hs; [done|].
  apply IH. by apply write_operation_wf.
Qed.

Lemma save_simulates base_key self store s :
  simulates base_key (self, store) s ->
  simulates base_key ((kv_flush [] self).2, write_batch (kv_flush [] self).1 store)
    {| current := current s; saved := current s |}.
Proof.
  intros [Hb Hwf Hs Hh Hc Hsv]. cbn [fst snd] in *. subst base_key. cbn [kv_flush fst snd app].
  pose proof (flush_batch_wf self Hwf) as Hbwf.
  assert (forall k, stored_at (kv_base_key self)
    (write_batch (flush_entries self ++ flush_hash self) store) k = current s k) as Hst.
  { intros k. unfold stored_at. rewrite lookup_write_batch by done. rewrite <- Hc.
    by apply flush_contents. }
  split; cbn [fst snd]; [done| |by apply write_batch_wf|by apply flush_hash_stored| |done].
  - destruct Hwf as [? ? ? Hcl ? ?]. split; simpl; try done. by destruct (was_cleared self).
  - intros k. cbn [current]. rewrite <- Hst, kv_contents_clean; [done..|]. simpl.
    destruct (was_cleared self) eqn:Hcl; [by apply wf_cleared|done].
Qed.

Lemma kv_step_simulates base_key op state s :
  kv_op_wf op -> simulates base_key state s ->
  exists state', kv_step op state = Ok state' /\ simulates base_key state' (spec_step s op).
Proof.
  destruct state as [self store]. intros Hop Hsim. pose proof Hsim as [Hb Hwf Hs Hh Hc Hsv].
  simpl in Hb, Hwf, Hs, Hh, Hc, Hsv. subst base_key.
  destruct op as [index value|index|batch| | | | |]; simpl in Hop |- *.
  - eexists. split; [done|]. split; simpl; try done.
    + apply (kv_operation_wf self (Put index value)); done.
    + intros k. rewrite kv_contents_insert, Hc. simpl. by case_decide.
  - eexists. split; [done|]. split; simpl; try done.
    + apply (kv_operation_base_key self (Delete index)).
    + apply (kv_operation_wf self (Delete index)); done.
    + intros k. rewrite kv_contents_remove, Hc. simpl. by case_decide.
  - eexists. split; [done|]. destruct (kv_batch_spec batch self store Hop Hwf) as (H1 & H2 & H3).
    split; simpl; try done. intros k. by rewrite H3, Hc.
  - eexists. split; [done|]. split; simpl; try done. by destruct Hwf; split.
  - eexists. split; [done|]. split; simpl; try done.
    destruct Hwf; split; simpl; done.
  - eexists. split; [done|]. unfold hash_mut. destruct (kv_hash self) as [hash|] eqn:Hk; [done|].
    split; simpl; try done. destruct Hwf; split; simpl; try done.
    intros hash [= <-]. apply sha3_length.
  - eexists. split; [done|]. by apply save_simulates.
  - rewrite kv_load_Ok by done. eexists. split; [done|]. split; simpl; try done.
    destruct Hwf. split; simpl; done.
Qed.

Lemma kv_run_simulates base_key ops state s :
  Forall kv_op_wf ops -> simulates base_key state s ->
  exists state', kv_run ops state = Ok state' /\ simulates base_key state' (spec_run ops s).
Proof.
  intros Hops. revert state s. unfold kv_run, spec_run.
  induction Hops as [|op ops Hop Hops IH]; intros state s Hsim; simpl; [by exists state|].
  destruct (kv_step_simulates base_key op state s Hop Hsim) as (state1 & Hstep & Hsim1).
  rewrite Hstep. simpl. by apply IH.
Qed.


End refinement.

(** ** Iteration *)

(** Lists of entries with strictly increasing keys. *)
Definition key_lt (x y : bytes) : Prop := bytes_leb y x = false.
Notation sorted_entries := (StronglySorted (fun kv kv' => key_lt kv.1 kv'.1)).

Lemma key_lt_leb x y : key_lt x y -> bytes_leb x y = true.
Proof. unfold key_lt. destruct (bytes_le_total x y) as [?|?]; unfold bytes_le in *; congruence. Qed.
Lemma key_lt_ne x y : key_lt x y -> x <> y.
Proof. unfold key_lt. intros Hlt ->. by rewrite bytes_leb_refl in Hlt. Qed.
Lemma key_le_lt_trans x y z : bytes_leb x y = true -> key_lt y z -> key_lt x z.
Proof.
  unfold key_lt. intros Hxy Hyz. destruct (bytes_leb z x) eqn:Hzx; [|done].
  assert (bytes_leb z y = true) by by apply (bytes_le_trans z x y). congruence.
Qed.
Lemma key_lt_of_le x y : bytes_leb x y = true -> x <> y -> key_lt x y.
Proof.
  unfold key_lt. intros Hle Hne. destruct (bytes_leb y x) eqn:Hyx; [|done].
  destruct Hne. by apply bytes_leb_antisym.
Qed.
Lemma key_lt_app p x y : key_lt (p ++ x) (p ++ y) <-> key_lt x y.
Proof. unfold key_lt. by rewrite bytes_leb_app_l. Qed.

(** [NextLowerKeyIterator]: the prefixes already passed are at most every later
    query. *)
Definition lower_inv (D : gset bytes) (it : LowerKeys) (passed : list bytes) : Prop :=
  exists todo, passed ++ todo = range_set all D /\ prec1 it = last passed /\
    prec2 it = head todo /\ lower_iter it = tail todo.

Lemma lower_new_inv D : lower_inv D (lower_new D) [].
Proof. by exists (range_set all D). Qed.

Lemma lower_loop_spec D passed todo val :
  passed ++ todo = range_set all D -> Forall (fun p => bytes_leb p val = true) passed ->
  exists passed' it', lower_loop (last passed) (head todo) (tail todo) val = (last passed', it') /\
    lower_inv D it' passed' /\ Forall (fun p => bytes_leb p val = true) passed' /\
    (forall q, q ∈ D -> bytes_leb q val = true -> q ∈ passed').
Proof.
  assert (StronglySorted (order_by id) (range_set all D)) as Hsorted by apply sort_by_sorted.
  assert (forall q, q ∈ D -> q ∈ range_set all D) as Hall by by (intros q; rewrite elem_of_range_set).
  assert (forall q, q ∈ D -> passed ++ todo = range_set all D -> q ∈ passed \/ q ∈ todo) as Hsplit.
  { intros q Hq Heq. rewrite <- elem_of_app, Heq. by apply Hall. }
  revert passed Hsplit. induction todo as [|x todo IH]; intros passed Hsplit Heq Hle; simpl.
  - exists passed. eexists. split_and!; [by destruct passed| | |]; [..|by eauto|].
    + by exists [].
    + intros q Hq _. destruct (Hsplit q Hq Heq) as [|[]%not_elem_of_nil]; done.
  - assert ((passed ++ [x]) ++ todo = range_set all D) as Heq' by by rewrite <- (assoc_L (++)).
    destruct (bytes_leb x val) eqn:Hx.
    + destruct (IH (passed ++ [x])) as (passed' & it' & Hloop & Hrest); try done.
      { intros q Hq _. destruct (Hsplit q Hq Heq) as [|[->|]%elem_of_cons]; set_solver. }
      { by apply Forall_app_2; [|constructor]. }
      exists passed', it'. split; [|done]. rewrite <- Hloop. rewrite last_snoc.
      destruct todo; simpl; by rewrite Hx.
    + exists passed. eexists. split_and!; [by destruct todo; simpl; rewrite Hx| | |].
      * by exists (x :: todo).
      * done.
      * intros q Hq Hqv. destruct (Hsplit q Hq Heq) as [|Hin]; [done|]. exfalso.
        rewrite <- Heq in Hsorted. apply StronglySorted_app_1_r in Hsorted as Hs.
        apply elem_of_cons in Hin as [->|Hin]; [congruence|].
        inversion Hs as [|? ? _ Hfa]; subst. rewrite Forall_forall in Hfa.
        specialize (Hfa q Hin). unfold order_by, bytes_le in Hfa. simpl in Hfa.
        assert (bytes_leb x val = true) by by apply (bytes_le_trans x q val). congruence.
Qed.

(** The prefix test is exact on increasing queries if no deleted prefix
    dominates another one. *)
Lemma is_index_present_spec D it passed index :
  prefix_free D -> lower_inv D it passed -> Forall (fun p => bytes_leb p index = true) passed ->
  exists passed' it', is_index_present it index = (bool_decide (~ matched D index), it') /\
    lower_inv D it' passed' /\ Forall (fun p => bytes_leb p index = true) passed'.
Proof.
  intros Hfree (todo & Heq & H1 & H2 & H3) Hle.
  destruct (lower_loop_spec D passed todo index Heq Hle)
    as (passed' & it' & Hloop & Hinv & Hle' & Hmax).
  exists passed', it'. split_and!; [|done..].
  unfold is_index_present, get_lower_bound. rewrite H1, H2, H3, Hloop. f_equal.
  assert (forall p, p ∈ passed' -> p ∈ D) as HinD.
  { intros p Hp. destruct Hinv as (todo' & Heq' & _).
    assert (p ∈ range_set all D) as Hin by (rewrite <- Heq'; set_solver).
    by apply elem_of_range_set in Hin as [_ ?]. }
  destruct (last passed') as [value|] eqn:Hlast.
  - assert (value ∈ passed') as Hv by (apply last_Some in Hlast as [l ->]; set_solver).
    assert (forall p, p ∈ D -> p `prefix_of` index -> p = value) as Hmatch.
    { intros p Hp Hpre. rewrite Forall_forall in Hle'.
      eapply (greatest_match D index); try done; [by apply HinD|by apply Hle'|].
      intros q Hq Hqi. eapply last_sorted; [|done|by apply Hmax].
      destruct Hinv as (todo' & Heq' & _). eapply StronglySorted_app_1_l. rewrite Heq'.
      apply sort_by_sorted. }
    destruct (Nat.ltb_spec (length index) (length value)) as [Hlt|Hge].
    + symmetry. apply bool_decide_eq_true_2. intros (p & Hp & Hpre).
      rewrite (Hmatch p Hp Hpre) in Hpre. apply prefix_length in Hpre. lia.
    + rewrite <- bool_decide_not. apply bool_decide_ext. f_equiv. split.
      * intros Htake. exists value. split; [by apply HinD|]. rewrite <- Htake. apply prefix_take.
      * intros (p & Hp & Hpre). rewrite (Hmatch p Hp Hpre) in Hpre. destruct Hpre as [t ->].
        by rewrite take_app_length.
  - apply last_None in Hlast. subst passed'. symmetry. apply bool_decide_eq_true_2.
    intros (p & Hp & Hpre). apply (not_elem_of_nil p), Hmax; [done|]. by apply bytes_leb_prefix.
Qed.

Lemma elem_of_set_entries pending k value :
  (k, value) ∈ set_entries pending <-> (k, SetTo value) ∈ pending.
Proof.
  unfold set_entries. rewrite list_elem_of_omap. split.
  - intros ([k' [|value']] & Hin & Heq); naive_solver.
  - intros Hin. by exists (k, SetTo value).
Qed.

Lemma set_entries_app l l' : set_entries (l ++ l') = set_entries l ++ set_entries l'.
Proof. apply omap_app. Qed.

Lemma set_entries_sorted pending : sorted_entries pending -> sorted_entries (set_entries pending).
Proof.
  induction 1 as [|[k update] pending Hs IH Hfa]; [constructor|]. unfold set_entries in *.
  destruct update as [|value]; csimpl; [done|]. constructor; [done|].
  apply Forall_forall. intros [k' value'] Hin%elem_of_set_entries.
  rewrite Forall_forall in Hfa. exact (Hfa _ Hin).
Qed.

(** The updates up to a key are a prefix of the list. *)
Lemma take_updates_spec key pending :
  sorted_entries pending ->
  exists taken rest found, take_updates key pending = (set_entries taken, rest, found) /\
    pending = taken ++ rest /\
    Forall (fun kv => bytes_leb kv.1 key = true) taken /\
    Forall (fun kv => key_lt key kv.1) rest /\
    (found = true <-> key ∈ taken.*1).
Proof.
  induction 1 as [|[k update] pending Hs IH Hfa]; simpl.
  { exists [], [], false. split_and!; try done. split; [done|by intros ?%not_elem_of_nil]. }
  destruct (bytes_leb k key) eqn:Hle.
  - case_bool_decide as Heq.
    + subst k. exists [(key, update)], pending, true. split_and!.
      * by destruct update.
      * done.
      * by repeat constructor.
      * done.
      * split; [intros _; apply list_elem_of_here|done].
    + destruct IH as (taken & rest & found & Htake & -> & Ht & Hr & Hf).
      exists ((k, update) :: taken), rest, found. rewrite Htake. split_and!; try done.
      * by destruct update.
      * by constructor.
      * rewrite Hf. csimpl. rewrite elem_of_cons. naive_solver.
  - exists [], ((k, update) :: pending), false. split_and!; try done.
    + constructor; [done|]. eapply Forall_impl; [exact Hfa|]. intros [k' u'] Hlt. simpl in *.
      eapply key_le_lt_trans; [|done]. by apply key_lt_leb.
    + split; [done|by intros ?%not_elem_of_nil].
Qed.

Lemma sorted_entries_app {A} (l l' : list (bytes * A)) :
  sorted_entries l -> sorted_entries l' ->
  (forall kv kv', kv ∈ l -> kv' ∈ l' -> key_lt kv.1 kv'.1) -> sorted_entries (l ++ l').
Proof.
  induction 1 as [|kv l Hs IH Hfa]; intros Hs' Hlt; [done|]. simpl. constructor.
  - apply IH; [done|]. intros ? ? ? ?. apply Hlt; [by right|done].
  - apply Forall_app_2; [done|]. apply Forall_forall. intros kv' Hkv'. apply Hlt; [by left|done].
Qed.

(** What the merge lists, and in which order. *)
Lemma merge_entries_spec D key_prefix stored : forall pending it passed,
  prefix_free D -> sorted_entries stored -> sorted_entries pending -> lower_inv D it passed ->
  Forall (fun kv => Forall (fun p => bytes_leb p (key_prefix ++ kv.1) = true) passed) stored ->
  let merged := merge_entries key_prefix stored pending it in
  sorted_entries merged /\
  forall k value, (k, value) ∈ merged <->
    (k, SetTo value) ∈ pending \/
    ((k, value) ∈ stored /\ k ∉ pending.*1 /\ ~ matched D (key_prefix ++ k)).
Proof.
  induction stored as [|[key value] stored IH];
    intros pending it passed Hfree Hstored Hpending Hit Hpassed; simpl.
  { split; [by apply set_entries_sorted|]. intros k v. rewrite elem_of_set_entries. set_solver. }
  inversion Hstored as [|? ? Hstored' Hafter]; subst. clear Hstored.
  inversion Hpassed as [|? ? Hpass Hpassed']; subst. clear Hpassed. simpl in Hafter, Hpass.
  destruct (take_updates_spec key pending Hpending)
    as (taken & rest & found & -> & -> & Htaken & Hrest & Hfound).
  apply StronglySorted_app in Hpending as (Hlt & Htk & Hrs).
  rewrite Forall_forall in Hafter. rewrite Forall_forall in Htaken. rewrite Forall_forall in Hrest.
  assert (forall k v, (k, v) ∈ stored -> k ∉ taken.*1) as Hnot.
  { intros k v Hin ([k' u] & -> & Hk)%list_elem_of_fmap. specialize (Hafter _ Hin).
    specialize (Htaken _ Hk). simpl in *. unfold key_lt in Hafter. congruence. }
  assert (key ∉ rest.*1) as Hkeyr.
  { intros ([k' u] & Heq & Hk)%list_elem_of_fmap. simpl in Heq. subst.
    by destruct (key_lt_ne _ _ (Hrest _ Hk)). }
  assert (forall it' passed', lower_inv D it' passed' ->
    Forall (fun p => bytes_leb p (key_prefix ++ key) = true) passed' ->
    let merged := merge_entries key_prefix stored rest it' in
    sorted_entries merged /\ (forall kv, kv ∈ merged -> key_lt key kv.1) /\
    forall k v, (k, v) ∈ merged <-> (k, SetTo v) ∈ rest \/
      ((k, v) ∈ stored /\ k ∉ rest.*1 /\ ~ matched D (key_prefix ++ k))) as Hmerged.
  { intros it' passed' Hit' Hp'. destruct (IH rest it' passed') as [IHs IHm]; try done.
    { apply Forall_forall. intros [k v] Hin. eapply Forall_impl; [exact Hp'|].
      intros p Hp. eapply (bytes_le_trans _ (key_prefix ++ key)); [exact Hp|].
      unfold bytes_le. rewrite bytes_leb_app_l. apply key_lt_leb. exact (Hafter _ Hin). }
    split_and!; [done| |done]. intros [k v] [Hin|[Hin _]]%IHm; [exact (Hrest _ Hin)|].
    exact (Hafter _ Hin). }
  assert (forall kv, kv ∈ set_entries taken -> bytes_leb kv.1 key = true /\ kv.1 ∈ taken.*1)
    as Hset.
  { intros [k v] Hin%elem_of_set_entries. split; [exact (Htaken _ Hin)|].
    apply list_elem_of_fmap. by exists (k, SetTo v). }
  destruct found.
  - destruct (Hmerged it passed Hit Hpass) as (Hms & Hgt & Hmem). split.
    + apply sorted_entries_app; [by apply set_entries_sorted|done|].
      intros kv kv' [Hle _]%Hset Hin. eapply key_le_lt_trans; [done|by apply Hgt].
    + intros k v. rewrite elem_of_app, Hmem, elem_of_set_entries, elem_of_app, fmap_app,
        not_elem_of_app, elem_of_cons. assert (key ∈ taken.*1) as Hkeyt by by apply Hfound.
      clear -Hnot Hkeyt. naive_solver.
  - destruct (is_index_present_spec D it passed (key_prefix ++ key)) as
      (passed' & it' & -> & Hit' & Hpass'); try done.
    destruct (Hmerged it' passed' Hit' Hpass') as (Hms & Hgt & Hmem).
    assert (key ∉ taken.*1) as Hkeyt by (intros ?%Hfound; done). split.
    + apply sorted_entries_app; [by apply set_entries_sorted| |].
      * case_bool_decide; [|done]. simpl. constructor; [done|]. by apply Forall_forall.
      * intros kv kv' [Hle Hin]%Hset. rewrite elem_of_app. intros [Hin'|Hin'].
        -- case_bool_decide; [|by apply not_elem_of_nil in Hin'].
           apply list_elem_of_singleton in Hin' as ->. apply key_lt_of_le; [done|].
           simpl. intros <-. done.
        -- eapply key_le_lt_trans; [done|by apply Hgt].
    + intros k v. rewrite !elem_of_app, Hmem, elem_of_set_entries, fmap_app, not_elem_of_app,
        elem_of_cons. case_bool_decide as Hm.
      * rewrite list_elem_of_singleton. clear -Hnot Hkeyt Hkeyr Hm. naive_solver.
      * destruct (decide (matched D (key_prefix ++ key))) as [Hmk|]; [|done].
        clear -Hnot Hkeyt Hkeyr Hmk. rewrite elem_of_nil. naive_solver.
Qed.

Lemma relative_strictly_sorted {V} (p : bytes) (m : gmap bytes V) :
  bytes_wf p -> store_wf m -> sorted_entries (relative p m).
Proof.
  intros Hp Hm. pose proof (relative_NoDup p m Hp Hm) as Hnd.
  pose proof (relative_sorted p m Hp Hm) as Hs.
  induction Hs as [|kv l Hs IH Hfa]; [constructor|]. rewrite fmap_cons in Hnd.
  apply NoDup_cons in Hnd as [Hn Hnd]. constructor; [by apply IH|].
  rewrite Forall_forall in *. intros kv' Hin. apply key_lt_of_le; [by apply Hfa|].
  intros Heq. apply Hn. rewrite Heq. by apply list_elem_of_fmap_2.
Qed.

Lemma range_keys_entries {V} (i : Interval) (m : gmap bytes V) : range_keys i m = (range_entries i m).*1.
Proof.
  apply (StronglySorted_unique_strong (order_by id)).
  - intros x y _ _. apply bytes_leb_antisym.
  - apply sort_by_sorted.
  - apply (StronglySorted_fmap_on (order_by fst)); [apply sort_by_sorted|done].
  - unfold range_keys, range_entries. rewrite !sort_by_perm.
    induction (map_to_list m) as [|[k v] l IH]; [done|]. csimpl. rewrite !filter_cons.
    simpl. case_decide; csimpl; by rewrite IH.
Qed.

(** The pending updates of a prefix, relative to it. *)
Lemma elem_of_pending (p : bytes) (U : gmap bytes Update) k :
  bytes_wf p -> store_wf U -> k ∈ (relative p U).*1 <-> is_Some (U !! (p ++ k)).
Proof.
  intros Hp HU. rewrite list_elem_of_fmap. split.
  - intros ([k' u] & -> & Hin%elem_of_relative); [|done..]. by exists u.
  - intros [u Hu]. exists (k, u). split; [done|]. by apply elem_of_relative.
Qed.

(** Iteration over a prefix: the empty prefix gives [for_each_index_value]. *)
Lemma kv_find_spec self store p :
  kv_wf self -> prefix_free (deleted_prefixes self) -> bytes_wf p -> store_wf store ->
  sorted_entries (kv_find_key_values_by_prefix p self store) /\
  forall k value, (k, value) ∈ kv_find_key_values_by_prefix p self store <->
    kv_contents self store (p ++ k) = Some value.
Proof.
  intros Hwf Hfree Hp Hstore. unfold kv_find_key_values_by_prefix, kv_contents.
  pose proof (wf_updates _ Hwf) as HU. change ((fun kv => _) <$> _) with (relative p (updates self)).
  destruct (was_cleared self) eqn:Hc.
  - split; [by apply set_entries_sorted, relative_strictly_sorted|]. intros k value.
    rewrite elem_of_set_entries, elem_of_relative by done. cbn [orb].
    destruct (updates self !! (p ++ k)) as [[|v]|]; naive_solver.
  - assert (bytes_wf (base_tag_index (kv_base_key self) tag_index p)) as Hfull.
    { apply base_tag_index_wf; [apply Hwf|done]. }
    destruct (merge_entries_spec (deleted_prefixes self) p
      (find_key_values_by_prefix (base_tag_index (kv_base_key self) tag_index p) store)
      (relative p (updates self)) (lower_new (deleted_prefixes self)) []) as [Hsorted Hin].
    + done.
    + by apply relative_strictly_sorted.
    + by apply relative_strictly_sorted.
    + apply lower_new_inv.
    + apply Forall_forall. constructor.
    + split; [done|]. intros k value. rewrite Hin. clear Hin Hsorted.
      rewrite elem_of_relative, elem_of_pending by done.
      rewrite (elem_of_relative (base_tag_index (kv_base_key self) tag_index p) store) by done.
      unfold stored_at. unfold base_tag_index. rewrite <- !(assoc_L (++)). cbn [orb].
      destruct (updates self !! (p ++ k)) as [[|v]|]; [naive_solver|naive_solver|].
      case_bool_decide; naive_solver.
Qed.

Lemma range_entries_all {V} (m : gmap bytes V) :
  range_entries all m = relative [] m.
Proof.
  unfold relative, range_entries. cbn [length]. rewrite <- list_fmap_id at 1.
  apply list_fmap_ext. by intros i [k v].
Qed.

Lemma kv_entries_find self store :
  kv_entries self store = kv_find_key_values_by_prefix [] self store.
Proof.
  unfold kv_entries, kv_find_key_values_by_prefix. rewrite range_entries_all. done.
Qed.

(** Iteration is exact.  As long as no deleted prefix of the view extends
    another one, [for_each_index_value] and [find_key_values_by_prefix] visit
    exactly the entries of the contents (with the prefix, if any), merging the
    stored entries with the updates, each once and in increasing order. *)
Theorem kv_iteration_exact self store p :
  kv_wf self -> prefix_free (deleted_prefixes self) -> bytes_wf p -> store_wf store ->
  sorted_entries (kv_entries self store) /\
  (forall k value, (k, value) ∈ kv_entries self store <-> kv_contents self store k = Some value) /\
  sorted_entries (kv_find_key_values_by_prefix p self store) /\
  (forall k value, (k, value) ∈ kv_find_key_values_by_prefix p self store <->
     kv_contents self store (p ++ k) = Some value).
Proof.
  intros Hwf Hfree Hp Hstore. rewrite kv_entries_find.
  destruct (kv_find_spec self store p) as [Hsorted Hin]; [done..|].
  destruct (kv_find_spec self store []) as [Hsorted0 Hin0]; [done..|constructor|done|].
  by split_and!.
Qed.

(** Strictly sorted lists with the same elements are equal. *)
Lemma sorted_entries_unique (l l' : list (bytes * bytes)) :
  sorted_entries l -> sorted_entries l' -> (forall kv, kv ∈ l <-> kv ∈ l') -> l = l'.
Proof.
  intros Hs. revert l'. induction Hs as [|kv l Hs IH Hfa]; intros l' Hs' Heq.
  - destruct l' as [|kv' l']; [done|]. exfalso. apply (not_elem_of_nil kv'), Heq. by left.
  - destruct Hs' as [|kv' l' Hs' Hfa'].
    { exfalso. apply (not_elem_of_nil kv), Heq. by left. }
    rewrite Forall_forall in Hfa, Hfa'.
    assert (forall x, x ∈ l -> x <> kv) as Hne.
    { intros x Hx ->. by destruct (key_lt_ne _ _ (Hfa _ Hx)). }
    assert (forall x, x ∈ l' -> x <> kv') as Hne'.
    { intros x Hx ->. by destruct (key_lt_ne _ _ (Hfa' _ Hx)). }
    assert (kv = kv') as <-.
    { destruct (decide (kv = kv')) as [|Hkk]; [done|]. exfalso.
      assert (kv ∈ l') as Hin by (pose proof (Heq kv); set_solver).
      assert (kv' ∈ l) as Hin' by (pose proof (Heq kv'); set_solver).
      pose proof (Hfa _ Hin') as Hlt. pose proof (Hfa' _ Hin) as Hlt'. simpl in *.
      apply key_lt_leb in Hlt'. unfold key_lt in Hlt. congruence. }
    f_equal. apply IH; [done|]. intros x. specialize (Heq x). rewrite !elem_of_cons in Heq.
    split; intros Hx.
    + destruct (proj1 Heq (or_intror Hx)) as [->|]; [by destruct (Hne _ Hx)|done].
    + destruct (proj2 Heq (or_intror Hx)) as [->|]; [by destruct (Hne' _ Hx)|done].
Qed.

(** The hash of a view depends on its contents only.  Two views with the
    same contents have the same hash, whatever part of them is stored and
    whatever the history of their updates, as long as no deleted prefix of
    theirs extends another one. *)
Theorem kv_hash_deterministic sha3_256 v1 store1 v2 store2 :
  kv_wf v1 -> prefix_free (deleted_prefixes v1) -> store_wf store1 ->
  kv_wf v2 -> prefix_free (deleted_prefixes v2) -> store_wf store2 ->
  (forall k, kv_contents v1 store1 k = kv_contents v2 store2 k) ->
  compute_hash sha3_256 v1 store1 = compute_hash sha3_256 v2 store2.
Proof.
  intros Hwf1 Hf1 Hs1 Hwf2 Hf2 Hs2 Heq. unfold compute_hash. do 2 f_equal.
  rewrite !kv_entries_find.
  destruct (kv_find_spec v1 store1 []) as [Hsorted1 Hin1]; [done..|constructor|done|].
  destruct (kv_find_spec v2 store2 []) as [Hsorted2 Hin2]; [done..|constructor|done|].
  apply sorted_entries_unique; [done..|]. intros [k value]. by rewrite Hin1, Hin2, Heq.
Qed.

(** ** Defects *)

Module KvDefects.

(** A store with one entry, at index [0; 3] of the view with the empty base key. *)
Definition store : Store := {[ [1; 0; 3] := [5] ]}.
Definition loaded : KeyValueStoreView :=
  {| kv_base_key := []; was_cleared := false; updates := ∅; deleted_prefixes := ∅;
     stored_hash := None; kv_hash := None |}.

Lemma loaded_wf : kv_wf loaded.
Proof. split; try done. constructor. Qed.

Lemma loaded_contents batch s k :
  batch_wf batch ->
  kv_contents (kv_write_batch batch loaded) s k =
  default (stored_at [] s k) (batch_effect batch k).
Proof.
  intros Hb. rewrite (proj2 (proj2 (kv_batch_spec batch loaded s Hb loaded_wf))).
  by rewrite kv_contents_clean.
Qed.

(** [get] does not take the deleted prefixes into account: after a prefix is
    deleted, a stored key with the prefix can still be read, although iteration
    no longer lists it and saving the view removes it. *)
Theorem kv_get_ignores_deleted_prefix :
  kv_load [] store = Ok loaded /\
  let deleted := kv_write_batch [DeletePrefix [0]] loaded in
  kv_get [0; 3] deleted store = Some [5] /\
  kv_contents deleted store [0; 3] = None /\
  kv_indices deleted store = [] /\
  let '(batch, saved) := kv_flush [] deleted in
  kv_get [0; 3] saved (write_batch batch store) = None.
Proof. by vm_compute. Qed.

(** [delete_prefix] keeps a prefix that is dominated by a shorter one, against
    the invariant stated for [deleted_prefixes].  The shorter prefix is then no
    longer found by the iteration: a deleted entry is listed again, until the
    view is saved. *)
Theorem kv_dominated_prefix_resurrects :
  let deleted := kv_write_batch [DeletePrefix [0]] loaded in
  let again := kv_write_batch [DeletePrefix [0]; DeletePrefix [0; 2]] loaded in
  kv_indices deleted store = [] /\
  kv_indices again store = [[0; 3]] /\
  (forall k, kv_contents again store k = kv_contents deleted store k) /\
  let '(batch, saved) := kv_flush [] again in
  kv_indices saved (write_batch batch store) = [].
Proof.
  split; [by vm_compute|]. split; [by vm_compute|]. split; [|by vm_compute]. intros k.
  rewrite !loaded_contents by by repeat constructor.
  cbn [batch_effect touch]. destruct (decide ([0; 2] `prefix_of` k)) as [Hp|]; [|done].
  rewrite decide_True; [done|]. etrans; [|exact Hp]. by exists [2].
Qed.

(** The hash of a view does not determine its contents.  The indices and
    values are fed to the hash function without their lengths, so that two
    views with different contents have the same hash, whatever the function. *)
Theorem kv_hash_collision sha3_256 :
  let v1 := kv_insert [1] [2; 3] loaded in
  let v2 := kv_insert [1; 2] [3] loaded in
  kv_contents v1 ∅ [1] <> kv_contents v2 ∅ [1] /\
  compute_hash sha3_256 v1 ∅ = compute_hash sha3_256 v2 ∅.
Proof. split; [by vm_compute|]. unfold compute_hash. f_equal. Qed.

End KvDefects.

(** ** Examples *)

Module KvExamples.
Import KvDefects.

(** A stand-in for the hash function. *)
Definition zero_hash (input : bytes) : bytes := replicate hash_length 0.

Definition ops : list KvOp :=
  [KvInsert [0; 4] [8]; KvWriteBatch [DeletePrefix [0]; Put [0; 1] [7]]; KvHash; KvSave;
   KvRemove [0; 1]; KvRollback; KvReload].

Lemma store_ok : store_wf store.
Proof. apply map_Forall_singleton. by repeat constructor. Qed.


(** The stored entry is deleted by its prefix, a new one is pending. *)
Definition pending : KeyValueStoreView :=
  kv_write_batch [DeletePrefix [0]; Put [0; 1] [7]] loaded.

Lemma pending_wf : kv_wf pending.
Proof. apply (kv_batch_spec _ loaded store); [by repeat constructor|apply loaded_wf]. Qed.

Lemma pending_prefix_free : prefix_free (deleted_prefixes pending).
Proof.
  change (deleted_prefixes pending) with ({[ [0] ]} ∪ ∅ : gset bytes).
  intros p q. rewrite !elem_of_union, !elem_of_singleton. set_solver.
Qed.

Lemma kv_iteration_exact_witness :
  kv_entries pending store = [([0; 1], [7])] /\ kv_contents pending store [0; 1] = Some [7].
Proof.
  split; [by vm_compute|].
  apply (kv_iteration_exact pending store [] pending_wf pending_prefix_free ltac:(constructor)
           store_ok).
  decide_now.
Defined.

(** The same contents without a store. *)
Lemma kv_hash_deterministic_witness :
  compute_hash zero_hash pending store =
  compute_hash zero_hash (kv_write_batch [Put [0; 1] [7]] loaded) ∅.
Proof.
  apply (kv_hash_deterministic zero_hash pending store (kv_write_batch [Put [0; 1] [7]] loaded) ∅
           pending_wf pending_prefix_free store_ok).
  - apply (kv_batch_spec _ loaded store); [by repeat constructor|apply loaded_wf].
  - intros p q Hp. by apply elem_of_empty in Hp.
  - done.
  - intros k. unfold pending.
    rewrite !loaded_contents by by repeat constructor.
    cbn [batch_effect touch]. destruct (decide ([0; 1] = k)) as [|Hne]; [done|].
    destruct (decide ([0] `prefix_of` k)) as [|Hn]; [done|]. cbn [default]. unfold stored_at, store.
    rewrite lookup_empty. apply lookup_singleton_ne. intros [= <-]. apply Hn. by exists [3].
Defined.

End KvExamples.
