(* ===== verification/Views.v ===== *)
(** * Views

    The interface of [linera-views/src/views.rs], and what it promises.  A view
    stages changes on top of the keys of a store that start with its base key:
    [load] reads the saved contents, [rollback] and [clear] drop the staged changes
    and the contents, [flush] turns the staged changes into a batch, [hash_mut]
    computes or remembers the hash of the contents.

    The class [ViewLaws] says when a view implements a type of contents [A]:
    [represents base_key store view saved contents] relates a view to what is saved in
    the store and to what the view holds.  [view_history] follows a view through any
    history of operations, saves and reloads.  Registers
    ([linera-views/src/register_view.rs]) and structures of views (the code that
    [linera-views-derive] generates) are instances; logs, queues and collections follow
    in other files.

    Serialization ([bcs]) and the hash function ([sha3]) are external: classes
    [Serde] and [Sha3]. *)

From S2P Require Import Prelude Types Errors Batches KeyValueStore.

(** ** Serialization and hashing *)

Class Serde (T : Type) := {
  to_bytes : T -> bytes;
  from_bytes : bytes -> option T;
}.
Class SerdeLaws (T : Type) `{Serde T} := {
  from_to_bytes (x : T) : from_bytes (to_bytes x) = Some x;
  to_bytes_wf (x : T) : bytes_wf (to_bytes x);
}.
Class Sha3 := { sha3_256 : bytes -> bytes }.
Class Sha3Laws `{Sha3} := { sha3_length input : length (sha3_256 input) = hash_length }.
Class HasDefault (T : Type) := { default_value : T }.

Lemma to_bytes_inj {T} `{SerdeLaws T} (x y : T) : to_bytes x = to_bytes y -> x = y.
Proof. intros Heq%(f_equal from_bytes). rewrite !from_to_bytes in Heq. by injection Heq. Qed.

Definition from_bytes_opt {T} `{Serde T} (key_opt : option bytes) : result ViewError (option T) :=
  match key_opt with
  | Some bytes => value ← ok_or (from_bytes bytes) ViewSerialization; Ok (Some value)
  | None => Ok None
  end.
Definition read_key {T} `{Serde T} (key : bytes) (store : Store) : result ViewError (option T) :=
  from_bytes_opt (read_key_bytes key store).

(** ** The interface *)

Class View (V : Type) := {
  view_load : bytes -> Store -> result ViewError V;
  view_rollback : V -> V;
  view_clear : V -> V;
  view_flush : Batch -> V -> Batch * V;
}.
Class HashableView (V : Type) `{View V} := {
  view_hash : Store -> V -> result ViewError (bytes * V);
}.

(** The keys that start with a base key. *)
Definition same_below (base_key : bytes) (s s' : Store) : Prop :=
  forall k, base_key `prefix_of` k -> s !! k = s' !! k.
Definition empty_below (base_key : bytes) (s : Store) : Prop :=
  forall k, base_key `prefix_of` k -> s !! k = None.
Definition operation_below (base_key : bytes) (operation : WriteOperation) : Prop :=
  bytes_wf (operation_key operation) /\ base_key `prefix_of` operation_key operation.

Class ViewLaws (V A : Type) `{HashableView V} := {
  default_contents : A;
  contents_hash : A -> bytes;
  saved_as : bytes -> Store -> A -> Prop;
  represents : bytes -> Store -> V -> A -> A -> Prop;
  cleared : V -> Prop;
  saved_as_local b s s' a : same_below b s s' -> saved_as b s a -> saved_as b s' a;
  represents_local b s s' v a0 a :
    same_below b s s' -> represents b s v a0 a -> represents b s' v a0 a;
  saved_as_default b s : empty_below b s -> saved_as b s default_contents;
  represents_saved b s v a0 a : represents b s v a0 a -> saved_as b s a0;
  load_represents b s a : bytes_wf b -> saved_as b s a ->
    exists v, view_load b s = Ok v /\ represents b s v a a;
  rollback_represents b s v a0 a :
    represents b s v a0 a -> represents b s (view_rollback v) a0 a0;
  clear_represents b s v a0 a :
    represents b s v a0 a ->
    represents b s (view_clear v) a0 default_contents /\ cleared (view_clear v);
  hash_represents b s v a0 a :
    store_wf s -> represents b s v a0 a ->
    exists v', view_hash s v = Ok (contents_hash a, v') /\ represents b s v' a0 a /\
      (cleared v -> cleared v');
  flush_batch batch v :
    view_flush batch v = (batch ++ (view_flush [] v).1, (view_flush [] v).2);
  flush_below b s v a0 a :
    represents b s v a0 a -> Forall (operation_below b) (view_flush [] v).1;
  flush_represents b s v a0 a :
    store_wf s -> represents b s v a0 a ->
    represents b (write_batch (view_flush [] v).1 s) (view_flush [] v).2 a a;
  flush_cleared b s v a0 a s' :
    represents b s v a0 a -> cleared v -> store_wf s' -> empty_below b s' ->
    saved_as b (write_batch (view_flush [] v).1 s') a;
}.

(** ** Keys below a base key *)

Lemma below_wf b ops : Forall (operation_below b) ops -> batch_wf ops.
Proof. intros Hops. eapply Forall_impl; [exact Hops|]. intros [] [Hk _]; exact Hk. Qed.

Lemma below_frame b ops k :
  Forall (operation_below b) ops -> ~ b `prefix_of` k -> batch_effect ops k = None.
Proof.
  rewrite Forall_forall. intros Hops Hn. apply batch_effect_None. intros o Ho.
  destruct (Hops o Ho) as [_ Hb].
  assert (~ operation_key o `prefix_of` k) as Hk by (intros Hp; apply Hn; by etrans).
  destruct o; simpl in *; rewrite decide_False; try done; intros ->; by destruct Hk.
Qed.

Lemma below_weaken b t ops :
  Forall (operation_below (b ++ t)) ops -> Forall (operation_below b) ops.
Proof.
  intros Hops. eapply Forall_impl; [exact Hops|]. intros o [Hwf Hp]. split; [done|].
  etrans; [|exact Hp]. by apply prefix_app_r.
Qed.

Lemma write_below_frame b ops s k :
  Forall (operation_below b) ops -> store_wf s -> ~ b `prefix_of` k ->
  write_batch ops s !! k = s !! k.
Proof.
  intros Hops Hs Hk. rewrite lookup_write_batch by (done || by eapply below_wf).
  by rewrite (below_frame b).
Qed.

Lemma same_below_sym b s s' : same_below b s s' -> same_below b s' s.
Proof. intros Hsame k Hk. by rewrite Hsame. Qed.

Lemma same_below_weaken b t s s' : same_below b s s' -> same_below (b ++ t) s s'.
Proof. intros Hsame k Hk. apply Hsame. etrans; [|exact Hk]. by apply prefix_app_r. Qed.

Lemma empty_below_weaken b t s : empty_below b s -> empty_below (b ++ t) s.
Proof. intros He k Hk. apply He. etrans; [|exact Hk]. by apply prefix_app_r. Qed.

Lemma base_tag_below b t : b `prefix_of` base_tag b t.
Proof. by apply prefix_app_r. Qed.
Lemma base_tag_index_below b t i : b `prefix_of` base_tag_index b t i.
Proof. by apply prefix_app_r. Qed.
Lemma base_tag_wf b t : bytes_wf b -> in_range u8_MAX t -> bytes_wf (base_tag b t).
Proof. intros Hb Ht. apply Forall_app_2; [done|]. by constructor. Qed.
Lemma tag_index_wf b t i :
  bytes_wf b -> in_range u8_MAX t -> bytes_wf i -> bytes_wf (base_tag_index b t i).
Proof. intros Hb Ht Hi. apply Forall_app_2; [done|]. by constructor. Qed.
Lemma base_tag_eq b t t' : base_tag b t = base_tag b t' <-> t = t'.
Proof. unfold base_tag. split; [|by intros ->]. intros Heq%app_inv_head. by injection Heq. Qed.
Lemma tag_index_eq b t t' i i' :
  base_tag_index b t i = base_tag_index b t' i' <-> t = t' /\ i = i'.
Proof.
  unfold base_tag_index. split; [|by intros [-> ->]]. intros Heq%app_inv_head. by injection Heq.
Qed.
Lemma base_tag_index_nil b t : base_tag b t = base_tag_index b t [].
Proof. done. Qed.
Lemma tag_prefix b t t' i i' :
  base_tag_index b t i `prefix_of` base_tag_index b t' i' <-> t = t' /\ i `prefix_of` i'.
Proof.
  unfold base_tag_index. split.
  - intros [r Hr]. rewrite <- !(assoc_L (++)) in Hr. apply app_inv_head in Hr.
    injection Hr as -> ->. split; [done|]. by exists r.
  - intros [-> [r ->]]. exists r. by rewrite <- !(assoc_L (++)).
Qed.

(** ** Histories of a view *)

Section history.
Context {V A : Type} `{ViewLaws V A}.
Context {Op : Type} (run : Op -> Store -> V -> result ViewError V) (effect : Op -> A -> A).
Context (run_ok : forall op b s v a0 a, represents b s v a0 a ->
  exists v', run op s v = Ok v' /\ represents b s v' a0 (effect op a)).

Inductive ViewStep :=
| StepOp (op : Op)
| StepClear
| StepRollback
| StepHash
| StepSave
| StepReload.

(** One step of the code, on the view and the store. *)
Definition view_step (base_key : bytes) (step : ViewStep) (state : V * Store)
    : result ViewError (V * Store) :=
  let '(v, s) := state in
  match step with
  | StepOp op => v ← run op s v; Ok (v, s)
  | StepClear => Ok (view_clear v, s)
  | StepRollback => Ok (view_rollback v, s)
  | StepHash => '(_, v) ← view_hash s v; Ok (v, s)
  | StepSave => let '(batch, v) := view_flush [] v in Ok (v, write_batch batch s)
  | StepReload => v ← view_load base_key s; Ok (v, s)
  end.

(** The same step on the contents: what is saved, and what the view holds. *)
Definition contents_step (step : ViewStep) (contents : A * A) : A * A :=
  let '(saved, current) := contents in
  match step with
  | StepOp op => (saved, effect op current)
  | StepClear => (saved, default_contents)
  | StepRollback | StepReload => (saved, saved)
  | StepHash => (saved, current)
  | StepSave => (current, current)
  end.

Lemma write_below_wf b ops s :
  Forall (operation_below b) ops -> store_wf s -> store_wf (write_batch ops s).
Proof.
  intros Hops. apply below_wf in Hops. revert s.
  induction Hops as [|o ops Ho _ IH]; intros s Hs; [done|]. by apply IH, write_operation_wf.
Qed.

Lemma view_step_ok b step v s saved current :
  bytes_wf b -> store_wf s -> represents b s v saved current ->
  exists v' s', view_step b step (v, s) = Ok (v', s') /\ store_wf s' /\
    represents b s' v' (contents_step step (saved, current)).1
      (contents_step step (saved, current)).2 /\
    forall k, ~ b `prefix_of` k -> s' !! k = s !! k.
Proof.
  intros Hb Hs Hr. destruct step; simpl.
  - destruct (run_ok op _ _ _ _ _ Hr) as (v' & -> & Hr'). by exists v', s.
  - exists (view_clear v), s. split_and!; try done. by apply clear_represents in Hr as [Hr _].
  - exists (view_rollback v), s. split_and!; try done. by eapply rollback_represents.
  - destruct (hash_represents _ _ _ _ _ Hs Hr) as (v' & -> & Hr' & _). by exists v', s.
  - pose proof (flush_below _ _ _ _ _ Hr) as Hops. pose proof (flush_represents _ _ _ _ _ Hs Hr) as Hf.
    destruct (view_flush [] v) as [batch v']. simpl in *. exists v', (write_batch batch s).
    split_and!; [done|by eapply write_below_wf|done|]. intros k Hk. by eapply write_below_frame.
  - destruct (load_represents b s saved) as (v' & -> & Hr'); [done|by eapply represents_saved|].
    by exists v', s.
Qed.

(** A view implements its contents: loaded from a store, it goes through any history
    without failing, holds what the operations say, has saved what the last save
    says, and changes no key outside of its base key. *)
Lemma view_history b s a steps :
  bytes_wf b -> store_wf s -> saved_as b s a ->
  exists v0 v s', view_load b s = Ok v0 /\
    for_each (view_step b) steps (v0, s) = Ok (v, s') /\ store_wf s' /\
    represents b s' v (foldl (fun c step => contents_step step c) (a, a) steps).1
      (foldl (fun c step => contents_step step c) (a, a) steps).2 /\
    forall k, ~ b `prefix_of` k -> s' !! k = s !! k.
Proof.
  intros Hb Hs Ha. destruct (load_represents _ _ _ Hb Ha) as (v0 & Hl & Hr0). exists v0.
  enough (exists v s', for_each (view_step b) steps (v0, s) = Ok (v, s') /\ store_wf s' /\
    represents b s' v (foldl (fun c step => contents_step step c) (a, a) steps).1
      (foldl (fun c step => contents_step step c) (a, a) steps).2 /\
    forall k, ~ b `prefix_of` k -> s' !! k = s !! k) as (v & s' & Hrun & Hrest); [by exists v, s'|].
  clear Hl Ha. revert v0 s Hs Hr0. generalize a at 1 3 5 as saved. generalize a as current.
  induction steps as [|step steps IH]; intros current saved v0 s Hs Hr; [by exists v0, s|].
  destruct (view_step_ok b step v0 s saved current Hb Hs Hr) as (v1 & s1 & Hstep & Hs1 & Hr1 & Hf1).
  cbn [for_each foldl]. destruct (contents_step step (saved, current)) as [saved1 current1].
  destruct (IH current1 saved1 v1 s1 Hs1 Hr1) as (v & s' & Hrun & Hs' & Hr' & Hf').
  exists v, s'. split_and!; [|done|done|].
  - change (v0, s) with ((v0, s) : V * Store) in *. unfold mbind, result_bind. by rewrite Hstep.
  - intros k Hk. by rewrite Hf', Hf1.
Qed.

End history.
Arguments ViewStep : clear implicits.

(** ** Hashes of views *)

(** The end of [flush]: the hash is written when it is not the stored one. *)
Definition flush_hash_at (key : bytes) (stored_hash hash : option bytes) : Batch :=
  if bool_decide (stored_hash = hash) then []
  else [match hash with None => Delete key | Some hash => Put key hash end].

(** The hash in the store, the stored hash of the view and its hash, for contents with
    the hashes [h0] (saved) and [h]. *)
Definition hash_saved (key : bytes) (h0 : bytes) (s : Store) : Prop :=
  s !! key = None \/ s !! key = Some h0.
Record hash_ok (key : bytes) (s : Store) (stored hash : option bytes) (h0 h : bytes) : Prop := {
  hash_in_store : s !! key = None \/ s !! key = stored;
  hash_of_saved x : stored = Some x -> x = h0;
  hash_of_current x : hash = Some x -> x = h;
}.

Lemma hash_load key h0 s :
  hash_saved key h0 s -> length h0 = hash_length ->
  exists x, read_hash key s = Ok x /\ hash_ok key s x x h0 h0.
Proof.
  unfold read_hash, read_key_bytes. intros Hs Hl. destruct Hs as [Hs|Hs]; rewrite Hs.
  - exists None. split; [done|]. by split; [left|..].
  - exists (Some h0). split; [|split; [by right|naive_solver..]].
    by rewrite (proj2 (Nat.eqb_eq (length h0) hash_length)).
Qed.

Lemma hash_ok_saved key s stored hash h0 h : hash_ok key s stored hash h0 h -> hash_saved key h0 s.
Proof.
  unfold hash_saved. intros [[Hs|Hs] Hst _]; rewrite Hs; [by left|]. destruct stored as [x|]; [|by left].
  right. by rewrite (Hst x).
Qed.

Lemma hash_ok_local key s s' stored hash h0 h :
  s !! key = s' !! key -> hash_ok key s stored hash h0 h -> hash_ok key s' stored hash h0 h.
Proof. intros Heq [Hs Hst Hh]. split; [by rewrite <- Heq|done|done]. Qed.

Lemma hash_ok_clean key s stored hash h0 h :
  hash_ok key s stored hash h0 h -> hash_ok key s stored stored h0 h0.
Proof. by intros [Hs Hst Hh]. Qed.

Lemma hash_ok_forget key s stored hash h0 h h' :
  hash_ok key s stored hash h0 h -> hash_ok key s stored None h0 h'.
Proof. by intros [Hs Hst Hh]. Qed.

(** The key after the end of a flush, where the operations before it left the key alone or
    deleted it. *)
Lemma flush_hash_ok key s s1 s' stored hash h0 h :
  hash_ok key s stored hash h0 h -> s1 = None \/ s1 = s !! key ->
  s' !! key = default s1 (batch_effect (flush_hash_at key stored hash) key) ->
  hash_ok key s' hash hash h h.
Proof.
  intros [Hs Hst Hh] Hs1 Hs'. split; [|done|done]. rewrite Hs'. unfold flush_hash_at.
  case_bool_decide as Heq; simpl.
  - subst hash. destruct Hs1 as [->| ->]; [by left|done].
  - destruct hash as [x|]; simpl; rewrite decide_True by done; simpl; auto.
Qed.

Lemma flush_hash_below b key stored hash :
  bytes_wf key -> b `prefix_of` key -> Forall (operation_below b) (flush_hash_at key stored hash).
Proof.
  intros Hk Hb. unfold flush_hash_at. case_bool_decide; constructor; [|constructor].
  by destruct hash.
Qed.

Lemma flush_hash_other key k stored hash :
  key <> k -> batch_effect (flush_hash_at key stored hash) k = None.
Proof.
  intros Hk. unfold flush_hash_at. case_bool_decide; [done|].
  by destruct hash; simpl; rewrite decide_False.
Qed.

(** ** Registers *)

Definition register_tag_value : Z := MIN_VIEW_TAG.
Definition register_tag_hash : Z := MIN_VIEW_TAG + 1.

Record RegisterView (T : Type) := {
  register_base_key : bytes;
  stored_value : T;
  register_update : option T;
  register_stored_hash : option bytes;
  register_hash : option bytes;
}.
Arguments register_base_key {T}.
Arguments stored_value {T}.
Arguments register_update {T}.
Arguments register_stored_hash {T}.
Arguments register_hash {T}.

Section register.
Context {T : Type} `{SerdeLaws T, HasDefault T, Sha3Laws}.

Definition register_load (base_key : bytes) (store : Store) : result ViewError (RegisterView T) :=
  value ← read_key (base_tag base_key register_tag_value) store;
  hash ← read_hash (base_tag base_key register_tag_hash) store;
  Ok {| register_base_key := base_key; stored_value := default default_value value;
        register_update := None; register_stored_hash := hash; register_hash := hash |}.

Definition register_rollback (self : RegisterView T) : RegisterView T :=
  {| register_base_key := register_base_key self; stored_value := stored_value self;
     register_update := None; register_stored_hash := register_stored_hash self;
     register_hash := register_stored_hash self |}.

Definition register_flush (batch : Batch) (self : RegisterView T) : Batch * RegisterView T :=
  let base_key := register_base_key self in
  (batch ++
   match register_update self with
   | Some value => [Put (base_tag base_key register_tag_value) (to_bytes value)]
   | None => []
   end ++
   flush_hash_at (base_tag base_key register_tag_hash) (register_stored_hash self)
     (register_hash self),
   {| register_base_key := base_key;
      stored_value := default (stored_value self) (register_update self);
      register_update := None; register_stored_hash := register_hash self;
      register_hash := register_hash self |}).

(** [set]; the hash is forgotten. *)
Definition register_set (value : T) (self : RegisterView T) : RegisterView T :=
  {| register_base_key := register_base_key self; stored_value := stored_value self;
     register_update := Some value; register_stored_hash := register_stored_hash self;
     register_hash := None |}.
Definition register_clear (self : RegisterView T) : RegisterView T :=
  register_set default_value self.
Definition register_get (self : RegisterView T) : T :=
  default (stored_value self) (register_update self).
(** A change through the reference that [get_mut] returns. *)
Definition register_get_mut (change : T -> T) (self : RegisterView T) : RegisterView T :=
  register_set (change (register_get self)) self.

Definition register_compute_hash (self : RegisterView T) : bytes :=
  sha3_256 (to_bytes (register_get self)).
Definition register_hash_mut (_ : Store) (self : RegisterView T)
    : result ViewError (bytes * RegisterView T) :=
  match register_hash self with
  | Some hash => Ok (hash, self)
  | None =>
      let new_hash := register_compute_hash self in
      Ok (new_hash,
          {| register_base_key := register_base_key self; stored_value := stored_value self;
             register_update := register_update self;
             register_stored_hash := register_stored_hash self; register_hash := Some new_hash |})
  end.

#[export] Instance register_view : View (RegisterView T) :=
  {| view_load := register_load; view_rollback := register_rollback;
     view_clear := register_clear; view_flush := register_flush |}.
#[export] Instance register_hashable : HashableView (RegisterView T) :=
  {| view_hash := register_hash_mut |}.

(** *** What a register promises *)

Definition value_hash (value : T) : bytes := sha3_256 (to_bytes value).

Definition register_saved (b : bytes) (s : Store) (a : T) : Prop :=
  default default_value <$> read_key (base_tag b register_tag_value) s = Ok a /\
  hash_saved (base_tag b register_tag_hash) (value_hash a) s.
Record register_represents (b : bytes) (s : Store) (v : RegisterView T) (a0 a : T) : Prop := {
  rr_base : register_base_key v = b /\ bytes_wf b;
  rr_saved : default default_value <$> read_key (base_tag b register_tag_value) s = Ok a0;
  rr_stored : stored_value v = a0;
  rr_current : register_get v = a;
  rr_hash : hash_ok (base_tag b register_tag_hash) s (register_stored_hash v) (register_hash v)
    (value_hash a0) (value_hash a);
}.

Lemma register_flush_wf b v :
  register_base_key v = b -> bytes_wf b -> Forall (operation_below b) (register_flush [] v).1.
Proof.
  intros Hb Hwf. simpl. rewrite Hb. apply Forall_app_2.
  - destruct (register_update v); repeat constructor; simpl;
      [by apply base_tag_wf|apply base_tag_below].
  - apply flush_hash_below; [by apply base_tag_wf|apply base_tag_below].
Qed.

Lemma register_flush_value b s v a0 a s' :
  register_represents b s v a0 a -> store_wf s' ->
  s' !! base_tag b register_tag_value = s !! base_tag b register_tag_value \/
    is_Some (register_update v) ->
  default default_value <$> read_key (base_tag b register_tag_value)
    (write_batch (register_flush [] v).1 s') = Ok a.
Proof.
  intros [[Hb Hwf] Hsv Hst Hc _] Hs' Hor. unfold read_key, read_key_bytes.
  rewrite lookup_write_batch by (done || by eapply below_wf, register_flush_wf).
  simpl. rewrite Hb, batch_effect_app, flush_hash_other by by intros ?%base_tag_eq.
  unfold register_get in Hc. destruct (register_update v) as [value|]; simpl.
  - rewrite decide_True by done. simpl. rewrite from_to_bytes. simpl. by f_equal.
  - destruct Hor as [->|[? [=]]]. simpl in Hc. subst. done.
Qed.

Lemma register_flush_hash b s v a0 a s' :
  register_represents b s v a0 a -> store_wf s' ->
  s' !! base_tag b register_tag_hash = None \/
    s' !! base_tag b register_tag_hash = s !! base_tag b register_tag_hash ->
  hash_ok (base_tag b register_tag_hash) (write_batch (register_flush [] v).1 s')
    (register_hash v) (register_hash v) (value_hash a) (value_hash a).
Proof.
  intros [[Hb Hwf] Hsv Hst Hc Hh] Hs' Hor. eapply (flush_hash_ok _ s); [exact Hh|exact Hor|].
  rewrite lookup_write_batch by (done || by eapply below_wf, register_flush_wf).
  simpl. rewrite Hb, batch_effect_app. destruct (batch_effect (flush_hash_at _ _ _) _); [done|].
  destruct (register_update v); simpl; [|done]. by rewrite decide_False by by intros ?%base_tag_eq.
Qed.

#[export] Program Instance register_laws : ViewLaws (RegisterView T) T :=
  {| default_contents := default_value; contents_hash := value_hash;
     saved_as := register_saved; represents := register_represents;
     cleared v := is_Some (register_update v) |}.
Next Obligation.
  intros b s s' a Hsame [Hv Hh]. unfold register_saved, hash_saved, read_key, read_key_bytes in *.
  by rewrite <- !Hsame by apply base_tag_below.
Qed.
Next Obligation.
  intros b s s' v a0 a Hsame [Hb Hv Hst Hc Hh]. split; try done.
  - unfold read_key, read_key_bytes in *. by rewrite <- Hsame by apply base_tag_below.
  - eapply hash_ok_local, Hh. apply Hsame, base_tag_below.
Qed.
Next Obligation.
  intros b s He. unfold register_saved, hash_saved, read_key, read_key_bytes.
  rewrite !He by apply base_tag_below. split; [done|by left].
Qed.
Next Obligation.
  intros b s v a0 a [Hb Hv Hst Hc Hh]. split; [done|]. by eapply hash_ok_saved.
Qed.
Next Obligation.
  intros b s a Hb [Hv Hh]. destruct (hash_load _ _ _ Hh) as (x & Hx & Hok); [apply sha3_length|].
  apply fmap_Ok in Hv as (o & Ho & ->). simpl. unfold register_load. rewrite Ho. simpl. rewrite Hx.
  simpl. eexists. split; [done|]. split; try done. by rewrite Ho.
Qed.
Next Obligation.
  intros b s v a0 a [Hb Hv Hst Hc Hh]. split; try done. by eapply hash_ok_clean.
Qed.
Next Obligation.
  intros b s v a0 a [Hb Hv Hst Hc Hh]. split; [|by eexists]. split; try done.
  by eapply hash_ok_forget.
Qed.
Next Obligation.
  intros b s v a0 a _ [Hb Hv Hst Hc Hh]. simpl. unfold register_hash_mut.
  destruct (register_hash v) as [x|] eqn:Hx.
  - exists v. pose proof (hash_of_current _ _ _ _ _ _ Hh x eq_refl) as ->.
    split_and!; [done| |done]. by split; rewrite ?Hx.
  - eexists. unfold register_compute_hash. rewrite Hc. split; [done|]. split; [|done].
    split; try done. destruct Hh as [Hs Hst' _]. split; simpl; naive_solver.
Qed.
Next Obligation. intros batch v. done. Qed.
Next Obligation.
  intros b s v a0 a [[Hb Hwf] Hv Hst Hc Hh]. by apply register_flush_wf.
Qed.
Next Obligation.
  intros b s v a0 a Hs Hr. pose proof (register_flush_value b s v a0 a s Hr Hs (or_introl eq_refl)) as Hv.
  pose proof (register_flush_hash b s v a0 a s Hr Hs (or_intror eq_refl)) as Hh'.
  by destruct Hr as [[Hb Hwf] Hsv Hst Hc Hh].
Qed.
Next Obligation.
  intros b s v a0 a s' Hr Hc Hs' He. split; [by eapply register_flush_value; eauto|].
  eapply hash_ok_saved, (register_flush_hash b s v a0 a s' Hr Hs'). left. apply He, base_tag_below.
Qed.

(** The operations of a register, for [view_history] and for the entries of collections. *)
Definition register_run (change : T -> T) (_ : Store) (v : RegisterView T)
    : result ViewError (RegisterView T) := Ok (register_get_mut change v).

Lemma register_run_ok change b s v a0 a :
  represents b s v a0 a ->
  exists v', register_run change s v = Ok v' /\ represents b s v' a0 (change a) /\
    (cleared v -> cleared v').
Proof.
  intros [Hb Hv Hst Hc Hh]. eexists. split; [done|]. split; [|by eexists]. split; try done.
  - unfold register_get_mut, register_get at 1. simpl. by rewrite Hc.
  - by eapply hash_ok_forget.
Qed.

End register.

(** ** Structures of views

    The code generated for a structure with two fields: each field has its own base
    key, and every operation is done on one field after the other. *)

(** Two base keys, neither of which starts with the other. *)
Definition apart (b1 b2 : bytes) : Prop := forall k, b1 `prefix_of` k -> b2 `prefix_of` k -> False.

Lemma write_apart b1 b2 ops s :
  apart b1 b2 -> Forall (operation_below b1) ops -> store_wf s ->
  same_below b2 s (write_batch ops s).
Proof.
  intros Hap Hops Hs k Hk. rewrite (write_below_frame b1); [done..|]. intros Hk1. by eapply Hap.
Qed.

Lemma write_batch_app ops1 ops2 s :
  write_batch (ops1 ++ ops2) s = write_batch ops2 (write_batch ops1 s).
Proof. apply foldl_app. Qed.

Section structure.
Context {V1 A1 V2 A2 : Type} `{ViewLaws V1 A1, ViewLaws V2 A2, Sha3Laws}.

Definition field_key (base_key : bytes) (index : Z) : bytes :=
  base_tag_index base_key MIN_VIEW_TAG (le_bytes32 index).

Definition struct_load (base_key : bytes) (store : Store) : result ViewError (V1 * V2) :=
  v1 ← view_load (field_key base_key 0) store;
  v2 ← view_load (field_key base_key 1) store;
  Ok (v1, v2).
Definition struct_rollback (self : V1 * V2) : V1 * V2 :=
  (view_rollback self.1, view_rollback self.2).
Definition struct_clear (self : V1 * V2) : V1 * V2 := (view_clear self.1, view_clear self.2).
Definition struct_flush (batch : Batch) (self : V1 * V2) : Batch * (V1 * V2) :=
  let '(batch, v1) := view_flush batch self.1 in
  let '(batch, v2) := view_flush batch self.2 in
  (batch, (v1, v2)).
Definition struct_hash_mut (store : Store) (self : V1 * V2) : result ViewError (bytes * (V1 * V2)) :=
  '(hash1, v1) ← view_hash store self.1;
  '(hash2, v2) ← view_hash store self.2;
  Ok (sha3_256 (hash1 ++ hash2), (v1, v2)).

#[export] Instance struct_view : View (V1 * V2) :=
  {| view_load := struct_load; view_rollback := struct_rollback; view_clear := struct_clear;
     view_flush := struct_flush |}.
#[export] Instance struct_hashable : HashableView (V1 * V2) := {| view_hash := struct_hash_mut |}.

Lemma fields_apart b : apart (field_key b 0) (field_key b 1).
Proof.
  unfold field_key, base_tag_index. intros k [r1 ->] [r2 Hr]. rewrite <- !(assoc_L (++)) in Hr.
  apply app_inv_head in Hr. by injection Hr.
Qed.

Lemma field_key_wf b i : bytes_wf b -> bytes_wf (field_key b i).
Proof.
  intros Hb. apply tag_index_wf; [done|done|]. unfold le_bytes32.
  assert (forall x, in_range u8_MAX (x mod 256)) as Hbyte; [|by repeat constructor; try apply Hbyte].
  intros x. pose proof (Z.mod_pos_bound x 256). unfold in_range, u8_MAX. lia.
Qed.

Lemma struct_flush_eq v :
  struct_flush [] v =
  ((view_flush [] v.1).1 ++ (view_flush [] v.2).1, ((view_flush [] v.1).2, (view_flush [] v.2).2)).
Proof.
  unfold struct_flush. destruct (view_flush [] v.1) as [ops1 v1]. simpl. by rewrite flush_batch.
Qed.

#[export] Program Instance struct_laws : ViewLaws (V1 * V2) (A1 * A2) :=
  {| default_contents := (default_contents, default_contents);
     contents_hash a := sha3_256 (contents_hash a.1 ++ contents_hash a.2);
     saved_as b s a := saved_as (field_key b 0) s a.1 /\ saved_as (field_key b 1) s a.2;
     represents b s v a0 a :=
       represents (field_key b 0) s v.1 a0.1 a.1 /\ represents (field_key b 1) s v.2 a0.2 a.2;
     cleared v := cleared v.1 /\ cleared v.2 |}.
Next Obligation.
  intros b s s' a Hsame [H1' H2']. split; (eapply saved_as_local; [by apply same_below_weaken|done]).
Qed.
Next Obligation.
  intros b s s' v a0 a Hsame [H1' H2'].
  split; (eapply represents_local; [by apply same_below_weaken|done]).
Qed.
Next Obligation.
  intros b s He. split; apply saved_as_default; by apply empty_below_weaken.
Qed.
Next Obligation. intros b s v a0 a [H1' H2']. split; by eapply represents_saved. Qed.
Next Obligation.
  intros b s a Hb [H1' H2'].
  destruct (load_represents _ _ _ (field_key_wf b 0 Hb) H1') as (v1 & Hv1 & Hr1).
  destruct (load_represents _ _ _ (field_key_wf b 1 Hb) H2') as (v2 & Hv2 & Hr2).
  exists (v1, v2). simpl. unfold struct_load. rewrite Hv1. simpl. by rewrite Hv2.
Qed.
Next Obligation.
  intros b s v a0 a [H1' H2']. split; by eapply rollback_represents.
Qed.
Next Obligation.
  intros b s v a0 a [[Hr1 Hc1]%clear_represents [Hr2 Hc2]%clear_represents]. done.
Qed.
Next Obligation.
  intros b s v a0 a Hs
    [(v1 & Hv1 & Hr1 & Hc1)%hash_represents (v2 & Hv2 & Hr2 & Hc2)%hash_represents]; [|done..].
  exists (v1, v2). simpl. unfold struct_hash_mut. rewrite Hv1. simpl. rewrite Hv2. simpl.
  naive_solver.
Qed.
Next Obligation.
  intros batch v. simpl. rewrite struct_flush_eq. unfold struct_flush.
  rewrite (flush_batch batch). destruct (view_flush [] v.1) as [ops1 v1]. simpl.
  rewrite flush_batch. destruct (view_flush [] v.2) as [ops2 v2]. simpl. by rewrite (assoc_L (++)).
Qed.
Next Obligation.
  intros b s v a0 a [Hr1 Hr2]. simpl. rewrite struct_flush_eq.
  apply Forall_app_2; eapply below_weaken, flush_below; [exact Hr1|exact Hr2].
Qed.
Next Obligation.
  intros b s v a0 a Hs [Hr1 Hr2]. simpl. rewrite struct_flush_eq. simpl.
  pose proof (flush_below _ _ _ _ _ Hr1) as Hb1. pose proof (flush_below _ _ _ _ _ Hr2) as Hb2.
  rewrite write_batch_app.
  assert (store_wf (write_batch (view_flush [] v.1).1 s)) as Hs1 by by eapply write_below_wf.
  split.
  - eapply represents_local, flush_represents, Hr1; [|done].
    apply write_apart with (field_key b 1); [|done|done]. intros k ? ?. by eapply (fields_apart b k).
  - apply (flush_represents _ _ _ a0.2 _ Hs1). eapply represents_local, Hr2. apply write_apart with (field_key b 0); [|done|done].
    apply fields_apart.
Qed.
Next Obligation.
  intros b s v a0 a s' [Hr1 Hr2] [Hc1 Hc2] Hs' He. simpl. rewrite struct_flush_eq. simpl.
  pose proof (flush_below _ _ _ _ _ Hr1) as Hb1. pose proof (flush_below _ _ _ _ _ Hr2) as Hb2.
  rewrite write_batch_app.
  assert (store_wf (write_batch (view_flush [] v.1).1 s')) as Hs1 by by eapply write_below_wf.
  split.
  - eapply saved_as_local, (flush_cleared _ _ _ _ _ s' Hr1); [|done|done|by apply empty_below_weaken].
    apply write_apart with (field_key b 1); [|done|done]. intros k ? ?. by eapply (fields_apart b k).
  - apply (flush_cleared _ _ _ _ _ _ Hr2); [done|done|]. intros k Hk.
    rewrite <- (write_apart (field_key b 0) (field_key b 1) _ s' (fields_apart b) Hb1 Hs' k Hk).
    by eapply (empty_below_weaken b).
Qed.

End structure.
