(* ===== verification/Logs.v ===== *)
(** * Logs and queues

    [linera-views/src/log_view.rs] and [linera-views/src/queue_view.rs]: lists of values
    with staged changes, instances of the interface of [Views].  Indices and counts
    ([usize]) are natural numbers: a log or a queue does not reach the size of the
    address space.

    The theorems: both views implement lists through any history, and all their reads
    are exact. *)

From S2P Require Import Prelude Types Errors Batches KeyValueStore Views.

(** ** Reading several keys *)

Section reading.
Context {T : Type} `{Serde T}.

Fixpoint read_multi_key (keys : list bytes) (store : Store) : result ViewError (list (option T)) :=
  match keys with
  | [] => Ok []
  | key :: keys =>
      entry ← read_key key store;
      entries ← read_multi_key keys store;
      Ok (entry :: entries)
  end.

(** The loop of [read_context]. *)
Fixpoint all_present (entries : list (option T)) : result ViewError (list T) :=
  match entries with
  | [] => Ok []
  | None :: _ => Err ViewMissingEntries
  | Some value :: entries => values ← all_present entries; Ok (value :: values)
  end.

(** Keys that all hold a value are read exactly. *)
Lemma read_multi_exact keys (values : list T) s :
  Forall2 (fun key value => read_key key s = Ok (Some value)) keys values ->
  read_multi_key keys s ≫= all_present = Ok values.
Proof.
  induction 1 as [|key value keys values Hk _ IH]; [done|]. simpl. rewrite Hk. simpl.
  destruct (read_multi_key keys s) as [entries|e|]; simpl in *; [|done..].
  by rewrite IH.
Qed.

End reading.

(** ** Logs *)

Definition log_tag_store : Z := MIN_VIEW_TAG.
Definition log_tag_index : Z := MIN_VIEW_TAG + 1.
Definition log_tag_hash : Z := MIN_VIEW_TAG + 2.

(** [derive_tag_key] of an index. *)
Definition index_key `{Serde nat} (base_key : bytes) (index : nat) : bytes :=
  base_tag_index base_key log_tag_index (to_bytes index).

Record LogView (T : Type) := {
  log_base_key : bytes;
  log_was_cleared : bool;
  log_stored_count : nat;
  new_values : list T;
  log_stored_hash : option bytes;
  log_hash : option bytes;
}.
Arguments log_base_key {T}.
Arguments log_was_cleared {T}.
Arguments log_stored_count {T}.
Arguments new_values {T}.
Arguments log_stored_hash {T}.
Arguments log_hash {T}.

(** The bounds of a range of indices. *)
Inductive RangeBound :=
| AtIncluded (index : nat)
| AtExcluded (index : nat)
| NoBound.

(** The operations that store values from an index on. *)
Definition put_values {T} `{Serde T, Serde nat} (base_key : bytes) (start : nat) (values : list T)
    : Batch :=
  imap (fun i value => Put (index_key base_key (start + i)) (to_bytes value)) values.

Section log.
Context {T : Type} `{SerdeLaws T, SerdeLaws nat, Serde (list T), Sha3Laws}.

Definition log_load (base_key : bytes) (store : Store) : result ViewError (LogView T) :=
  stored_count ← read_key (base_tag base_key log_tag_store) store;
  hash ← read_hash (base_tag base_key log_tag_hash) store;
  Ok {| log_base_key := base_key; log_was_cleared := false;
        log_stored_count := default 0%nat stored_count; new_values := [];
        log_stored_hash := hash; log_hash := hash |}.

Definition log_rollback (self : LogView T) : LogView T :=
  {| log_base_key := log_base_key self; log_was_cleared := false;
     log_stored_count := log_stored_count self; new_values := [];
     log_stored_hash := log_stored_hash self; log_hash := log_stored_hash self |}.

Definition log_clear (self : LogView T) : LogView T :=
  {| log_base_key := log_base_key self; log_was_cleared := true;
     log_stored_count := log_stored_count self; new_values := [];
     log_stored_hash := log_stored_hash self; log_hash := None |}.

Definition log_flush (batch : Batch) (self : LogView T) : Batch * LogView T :=
  let base_key := log_base_key self in
  let deletions :=
    if log_was_cleared self && (0 <? log_stored_count self)%nat then [DeletePrefix base_key]
    else [] in
  let stored_count := if log_was_cleared self then 0%nat else log_stored_count self in
  let new_count := (stored_count + length (new_values self))%nat in
  let insertions :=
    match new_values self with
    | [] => []
    | _ => put_values base_key stored_count (new_values self) ++
           [Put (base_tag base_key log_tag_store) (to_bytes new_count)]
    end in
  (batch ++ deletions ++ insertions ++
     flush_hash_at (base_tag base_key log_tag_hash) (log_stored_hash self) (log_hash self),
   {| log_base_key := base_key; log_was_cleared := false; log_stored_count := new_count;
      new_values := []; log_stored_hash := log_hash self; log_hash := log_hash self |}).

Definition log_push (value : T) (self : LogView T) : LogView T :=
  {| log_base_key := log_base_key self; log_was_cleared := log_was_cleared self;
     log_stored_count := log_stored_count self; new_values := new_values self ++ [value];
     log_stored_hash := log_stored_hash self; log_hash := None |}.

Definition log_count (self : LogView T) : nat :=
  if log_was_cleared self then length (new_values self)
  else (log_stored_count self + length (new_values self))%nat.

Definition log_get (index : nat) (self : LogView T) (store : Store) : result ViewError (option T) :=
  if log_was_cleared self then Ok (new_values self !! index)
  else if (index <? log_stored_count self)%nat
       then read_key (index_key (log_base_key self) index) store
       else Ok (new_values self !! (index - log_stored_count self)%nat).

(** The values of an index that is not stored, and [None] in the place of one that is. *)
Definition log_placeholder (self : LogView T) (index : nat) : option T :=
  if (index <? log_stored_count self)%nat then None
  else new_values self !! (index - log_stored_count self)%nat.

Definition log_multi_get (indices : list nat) (self : LogView T) (store : Store)
    : result ViewError (list (option T)) :=
  if log_was_cleared self then Ok ((fun index => new_values self !! index) <$> indices)
  else
    let stored := filter (fun p => p.2 < log_stored_count self)%nat (imap pair indices) in
    let result := log_placeholder self <$> indices in
    values ← read_multi_key ((fun p => index_key (log_base_key self) p.2) <$> stored) store;
    Ok (foldl (fun result '(pos, value) => <[pos := value]> result) result
          (zip stored.*1 values)).

Definition log_read_context (start stop : nat) (self : LogView T) (store : Store)
    : result ViewError (list T) :=
  read_multi_key (index_key (log_base_key self) <$> seq start (stop - start)) store ≫= all_present.

Definition log_read_range (first last : RangeBound) (self : LogView T) (store : Store)
    : result ViewError (list T) :=
  let effective_stored_count := if log_was_cleared self then 0%nat else log_stored_count self in
  let stop :=
    (match last with
     | AtIncluded stop => stop + 1
     | AtExcluded stop => stop
     | NoBound => log_count self
     end `min` log_count self)%nat in
  let start :=
    (match first with AtIncluded start => start | AtExcluded start => start + 1 | NoBound => 0 end)%nat in
  if (stop <=? start)%nat then Ok []
  else if (start <? effective_stored_count)%nat then
    if (stop <=? effective_stored_count)%nat then log_read_context start stop self store
    else
      values ← log_read_context start effective_stored_count self store;
      Ok (values ++ take (stop - effective_stored_count) (new_values self))
  else
    Ok (take (stop - start) (drop (start - effective_stored_count) (new_values self))).

Definition log_compute_hash (store : Store) (self : LogView T) : result ViewError bytes :=
  elements ← log_read_range NoBound NoBound self store;
  Ok (sha3_256 (to_bytes elements)).
Definition log_hash_mut (store : Store) (self : LogView T) : result ViewError (bytes * LogView T) :=
  match log_hash self with
  | Some hash => Ok (hash, self)
  | None =>
      new_hash ← log_compute_hash store self;
      Ok (new_hash,
          {| log_base_key := log_base_key self; log_was_cleared := log_was_cleared self;
             log_stored_count := log_stored_count self; new_values := new_values self;
             log_stored_hash := log_stored_hash self; log_hash := Some new_hash |})
  end.

#[export] Instance log_view : View (LogView T) :=
  {| view_load := log_load; view_rollback := log_rollback; view_clear := log_clear;
     view_flush := log_flush |}.
#[export] Instance log_hashable : HashableView (LogView T) := {| view_hash := log_hash_mut |}.

(** *** What a log promises *)

Definition list_hash (l : list T) : bytes := sha3_256 (to_bytes l).

Definition stored_values (b : bytes) (s : Store) (start : nat) (l : list T) : Prop :=
  forall i x, l !! i = Some x -> read_key (index_key b (start + i)) s = Ok (Some x).

Definition log_saved (b : bytes) (s : Store) (l : list T) : Prop :=
  default 0%nat <$> read_key (base_tag b log_tag_store) s = Ok (length l) /\
  stored_values b s 0 l /\ hash_saved (base_tag b log_tag_hash) (list_hash l) s.

Record log_represents (b : bytes) (s : Store) (v : LogView T) (l0 l : list T) : Prop := {
  lr_base : log_base_key v = b /\ bytes_wf b;
  lr_count : default 0%nat <$> read_key (base_tag b log_tag_store) s = Ok (length l0);
  lr_values : stored_values b s 0 l0;
  lr_stored : log_stored_count v = length l0;
  lr_current : l = (if log_was_cleared v then [] else l0) ++ new_values v;
  lr_hash : hash_ok (base_tag b log_tag_hash) s (log_stored_hash v) (log_hash v)
    (list_hash l0) (list_hash l);
}.

Lemma index_key_eq b i j : index_key b i = index_key b j <-> i = j.
Proof.
  unfold index_key. rewrite tag_index_eq. split; [|by intros ->]. by intros [_ Heq%to_bytes_inj].
Qed.

Lemma index_key_other b t i : t <> log_tag_index -> base_tag b t <> index_key b i.
Proof. intros Ht [? _]%tag_index_eq. by destruct Ht. Qed.

Lemma index_key_wf b i : bytes_wf b -> bytes_wf (index_key b i).
Proof. intros Hb. apply tag_index_wf; [done|done|apply to_bytes_wf]. Qed.

Lemma elem_of_put_values b start (l : list T) o :
  o ∈ put_values b start l <->
  exists i x, l !! i = Some x /\ o = Put (index_key b (start + i)) (to_bytes x).
Proof. unfold put_values. rewrite elem_of_lookup_imap. naive_solver. Qed.

Lemma put_values_below b start (l : list T) :
  bytes_wf b -> Forall (operation_below b) (put_values b start l).
Proof.
  intros Hb. apply Forall_forall. intros o (i & x & _ & ->)%elem_of_put_values.
  split; [by apply index_key_wf|apply base_tag_index_below].
Qed.

Lemma put_values_effect b start (l : list T) i :
  batch_effect (put_values b start l) (index_key b i) =
  if (start <=? i)%nat then (fun x => Some (to_bytes x)) <$> l !! (i - start)%nat else None.
Proof.
  destruct (decide (start <= i /\ i - start < length l))%nat as [[Hle Hlt]|Hout].
  - rewrite (proj2 (Nat.leb_le _ _) Hle). apply lookup_lt_is_Some in Hlt as [x Hx]. rewrite Hx. simpl.
    apply batch_effect_unique.
    + exists (Put (index_key b i) (to_bytes x)). split; [|simpl; by rewrite decide_True].
      apply elem_of_put_values. exists (i - start)%nat, x. split; [done|]. do 2 f_equal. lia.
    + intros o r (j & y & Hy & ->)%elem_of_put_values. simpl. case_decide as Hj; [|done].
      apply index_key_eq in Hj. replace (i - start)%nat with j in Hx by lia. naive_solver.
  - replace (if (start <=? i)%nat then _ else None) with (None : option (option bytes)).
    + apply batch_effect_None. intros o (j & y & Hy & ->)%elem_of_put_values. simpl.
      rewrite decide_False; [done|]. intros Hj%index_key_eq. apply lookup_lt_Some in Hy. lia.
    + destruct (Nat.leb_spec start i); [|done]. rewrite lookup_ge_None_2; [done|lia].
Qed.

Lemma put_values_other b start (l : list T) k :
  (forall i, k <> index_key b i) -> batch_effect (put_values b start l) k = None.
Proof.
  intros Hk. apply batch_effect_None. intros o (j & y & Hy & ->)%elem_of_put_values. simpl.
  rewrite decide_False; [done|]. intros <-. by eapply Hk.
Qed.

Lemma log_flush_below b v :
  log_base_key v = b -> bytes_wf b -> Forall (operation_below b) (log_flush [] v).1.
Proof.
  intros Hb Hwf. simpl. rewrite Hb. repeat apply Forall_app_2.
  - destruct (_ && _); repeat constructor; simpl; done.
  - destruct (new_values v); [constructor|]. apply Forall_app_2; [by apply put_values_below|].
    repeat constructor; simpl; [by apply base_tag_wf|apply base_tag_below].
  - apply flush_hash_below; [by apply base_tag_wf|apply base_tag_below].
Qed.

(** The flush, applied to the store of the view, or, when the view was cleared, to a store without
    keys of the view. *)
Definition flush_target (b : bytes) (s : Store) (v : LogView T) (s' : Store) : Prop :=
  same_below b s s' \/ log_was_cleared v = true /\ empty_below b s'.

Lemma log_flush_values b s v l0 l s' :
  log_represents b s v l0 l -> store_wf s' -> flush_target b s v s' ->
  stored_values b (write_batch (log_flush [] v).1 s') 0 l.
Proof.
  intros [[Hb Hwf] Hc Hv Hst -> Hh] Hs' Ht i x Hi. unfold read_key, read_key_bytes. simpl (0 + _)%nat.
  rewrite lookup_write_batch by (done || by eapply below_wf, log_flush_below).
  simpl. rewrite Hb, !batch_effect_app, flush_hash_other by by apply index_key_other.
  set (sc := if log_was_cleared v then 0%nat else log_stored_count v).
  assert ((match new_values v with [] => [] | _ :: _ => put_values b sc (new_values v) ++
    [Put (base_tag b log_tag_store) (to_bytes (sc + length (new_values v))%nat)] end) =
    put_values b sc (new_values v) ++ match new_values v with [] => [] | _ :: _ =>
      [Put (base_tag b log_tag_store) (to_bytes (sc + length (new_values v))%nat)] end) as ->
    by by destruct (new_values v).
  rewrite batch_effect_app.
  replace (batch_effect (match new_values v with [] => [] | _ :: _ => _ end) _)
    with (None : option (option bytes)).
  2:{ destruct (new_values v); [done|]. simpl. rewrite decide_False; [done|]. by apply index_key_other. }
  rewrite put_values_effect. unfold sc. destruct (log_was_cleared v) eqn:Hcl; simpl in Hi |- *.
  - rewrite Nat.sub_0_r, Hi. simpl. by rewrite from_to_bytes.
  - rewrite Hst. destruct Ht as [Ht|[? _]]; [|congruence]. apply lookup_app_Some in Hi as [Hi|[Hle Hi]].
    + pose proof (lookup_lt_Some _ _ _ Hi). rewrite (proj2 (Nat.leb_gt (length l0) i)) by done.
      simpl. rewrite <- Ht by apply base_tag_index_below. by apply (Hv i).
    + rewrite (proj2 (Nat.leb_le _ _) Hle), Hi. simpl. by rewrite from_to_bytes.
Qed.

Lemma log_flush_count b s v l0 l s' :
  log_represents b s v l0 l -> store_wf s' -> flush_target b s v s' ->
  default 0%nat <$> read_key (base_tag b log_tag_store) (write_batch (log_flush [] v).1 s') =
    Ok (length l).
Proof.
  intros [[Hb Hwf] Hc Hv Hst -> Hh] Hs' Ht. unfold read_key, read_key_bytes.
  rewrite lookup_write_batch by (done || by eapply below_wf, log_flush_below).
  simpl. rewrite Hb, !batch_effect_app, flush_hash_other by by intros ?%base_tag_eq.
  destruct (new_values v) as [|x new] eqn:Hn; simpl.
  - rewrite app_nil_r. unfold read_key, read_key_bytes in Hc.
    destruct (log_was_cleared v) eqn:Hcl; simpl.
    + rewrite Hst. destruct l0 as [|y l0]; simpl; [|by rewrite decide_True by apply base_tag_below].
      destruct Ht as [Ht|[_ Ht]]; [by rewrite <- Ht by apply base_tag_below|].
      by rewrite Ht by apply base_tag_below.
    + destruct Ht as [Ht|[? _]]; [|congruence]. by rewrite <- Ht by apply base_tag_below.
  - rewrite batch_effect_app. simpl. rewrite decide_True by done. simpl. rewrite from_to_bytes.
    simpl. rewrite Hst, length_app. by destruct (log_was_cleared v).
Qed.

Lemma log_flush_hash b s v l0 l s' :
  log_represents b s v l0 l -> store_wf s' -> flush_target b s v s' ->
  hash_ok (base_tag b log_tag_hash) (write_batch (log_flush [] v).1 s') (log_hash v) (log_hash v)
    (list_hash l) (list_hash l).
Proof.
  intros [[Hb Hwf] Hc Hv Hst -> Hh] Hs' Ht.
  set (key := base_tag b log_tag_hash) in *.
  eapply (flush_hash_ok key s (default (s' !! key) (batch_effect
    (if log_was_cleared v && (0 <? log_stored_count v)%nat then [DeletePrefix b] else []) key)));
    [exact Hh| |].
  - destruct (_ && _); simpl; [rewrite decide_True by apply base_tag_below; by left|].
    destruct Ht as [Ht|[_ Ht]]; [right; symmetry; apply Ht|left; apply Ht]; apply base_tag_below.
  - rewrite lookup_write_batch by (done || by eapply below_wf, log_flush_below).
    simpl. rewrite Hb, !batch_effect_app. fold key.
    destruct (batch_effect (flush_hash_at _ _ _) _); [done|].
    destruct (new_values v); [done|]. rewrite batch_effect_app. cbn [batch_effect touch].
    rewrite decide_False by by intros ?%base_tag_eq.
    rewrite put_values_other; [done|]. intros i. by apply index_key_other.
Qed.

(** *** Reads *)

Lemma stored_seq b s (l : list T) first start n :
  stored_values b s first l -> (start + n <= length l)%nat ->
  Forall2 (fun key value => read_key key s = Ok (Some value))
    (index_key b <$> seq (first + start) n) (take n (drop start l)).
Proof.
  revert start. induction n as [|n IH]; intros start Hv Hle; [constructor|].
  destruct (lookup_lt_is_Some_2 l start) as [x Hx]; [lia|].
  rewrite (drop_S l x start Hx). simpl. constructor; [by apply (Hv start)|].
  rewrite <- Nat.add_succ_r. apply IH; [done|lia].
Qed.

Lemma log_read_context_exact b s v l0 l start stop :
  log_represents b s v l0 l -> (stop <= length l0)%nat ->
  log_read_context start stop v s = Ok (take (stop - start) (drop start l0)).
Proof.
  intros [[Hb Hwf] Hc Hv Hst Hl Hh] Hle. unfold log_read_context. rewrite Hb.
  apply read_multi_exact. destruct (decide (start <= stop)%nat) as [Hs|Hs].
  - apply (stored_seq _ _ _ 0); [done|lia].
  - replace (stop - start)%nat with 0%nat by lia. constructor.
Qed.

Lemma log_get_exact b s v l0 l i :
  log_represents b s v l0 l -> log_get i v s = Ok (l !! i).
Proof.
  intros [[Hb Hwf] Hc Hv Hst -> Hh]. unfold log_get. destruct (log_was_cleared v); [done|].
  rewrite Hst, Hb. destruct (Nat.ltb_spec i (length l0)) as [Hlt|Hge].
  - rewrite lookup_app_l by done. destruct (lookup_lt_is_Some_2 _ _ Hlt) as [x Hx].
    rewrite Hx. by apply (Hv i).
  - by rewrite lookup_app_r.
Qed.

Lemma log_count_exact b s v l0 l : log_represents b s v l0 l -> log_count v = length l.
Proof.
  intros [_ _ _ Hst -> _]. unfold log_count. rewrite length_app, Hst.
  by destruct (log_was_cleared v).
Qed.

(** The bounds of a range, as the interval of the positions that it covers. *)
Definition range_start (first : RangeBound) : nat :=
  match first with AtIncluded i => i | AtExcluded i => S i | NoBound => 0 end.
Definition range_stop (last : RangeBound) (count : nat) : nat :=
  match last with AtIncluded i => S i | AtExcluded i => i | NoBound => count end.

Lemma log_read_exact b s v l0 l first last :
  log_represents b s v l0 l ->
  log_read_range first last v s =
    Ok (take (range_stop last (length l) - range_start first) (drop (range_start first) l)).
Proof.
  intros Hr. unfold log_read_range. rewrite (log_count_exact _ _ _ _ _ Hr).
  assert (match first with AtIncluded start => start | AtExcluded start => start + 1 | NoBound => 0 end
    = range_start first)%nat as -> by (destruct first; simpl; lia).
  assert (match last with AtIncluded stop => stop + 1 | AtExcluded stop => stop
    | NoBound => length l end = range_stop last (length l))%nat as -> by (destruct last; simpl; lia).
  set (start := range_start first). set (stop := range_stop last (length l)).
  destruct (Nat.leb_spec (stop `min` length l) start) as [Hle|Hlt].
  { destruct (decide (stop <= start)%nat) as [Hss|Hss].
    - by replace (stop - start)%nat with 0%nat by lia.
    - rewrite drop_ge by lia. by rewrite take_nil. }
  assert (take (stop - start) (drop start l) =
    take ((stop `min` length l) - start) (drop start l)) as ->.
  { destruct (decide (stop <= length l)%nat); [by rewrite Nat.min_l|].
    rewrite Nat.min_r, !take_ge by (rewrite ?length_drop; lia). done. }
  revert Hlt. set (m := (stop `min` length l)%nat). intros Hlt.
  assert (m <= length l)%nat as Hm by (unfold m; lia). clearbody m.
  pose proof Hr as [_ _ _ Hst Hl _].
  destruct (Nat.ltb_spec start (if log_was_cleared v then 0 else log_stored_count v)%nat) as [Hin|Hout].
  - destruct (log_was_cleared v); [lia|]. rewrite Hst in *. rewrite Hl in *. simpl in *.
    rewrite !length_app in Hm. destruct (Nat.leb_spec m (length l0)) as [Hml|Hml].
    + rewrite (log_read_context_exact _ _ _ _ _ _ _ Hr) by done. f_equal.
      rewrite drop_app_le by lia. rewrite take_app_le; [done|]. rewrite length_drop. lia.
    + rewrite (log_read_context_exact _ _ _ _ _ _ _ Hr) by done. simpl. f_equal.
      rewrite drop_app_le by lia. rewrite take_app, length_drop.
      f_equal; [|f_equal; lia]. rewrite !take_ge; [done|rewrite length_drop; lia..].
  - rewrite Hl. destruct (log_was_cleared v); simpl; [by rewrite Nat.sub_0_r|].
    rewrite Hst in *. by rewrite drop_app_ge.
Qed.

(** Values written over a list at the positions where it differs from another list. *)
Lemma fill_positions {A} (target r : list A) (l : list (nat * A)) :
  Forall (fun p => target !! p.1 = Some p.2) l ->
  length r = length target -> (forall pos, pos ∉ l.*1 -> r !! pos = target !! pos) ->
  foldl (fun result '(pos, value) => <[pos := value]> result) r l = target.
Proof.
  intros Hl. revert r. induction Hl as [|[pos value] l Hp Hl IH]; intros r Hlen Hr; simpl in *.
  - apply list_eq. intros i. apply Hr, not_elem_of_nil.
  - apply IH; [by rewrite length_insert|]. intros i Hi. destruct (decide (i = pos)) as [->|Hne].
    + rewrite list_lookup_insert_eq; [done|]. rewrite Hlen. by eapply lookup_lt_Some.
    + rewrite list_lookup_insert_ne by done. apply Hr. set_solver.
Qed.

Lemma read_stored_keys b s (l : list T) (indices : list nat) :
  stored_values b s 0 l -> Forall (fun i => i < length l)%nat indices ->
  read_multi_key (index_key b <$> indices) s = Ok ((fun i => l !! i) <$> indices).
Proof.
  intros Hv. induction 1 as [|i indices Hi _ IH]; [done|]. csimpl. simpl.
  destruct (lookup_lt_is_Some_2 _ _ Hi) as [x Hx]. rewrite (Hv i x Hx : read_key (index_key b i) s = _).
  simpl. rewrite IH. simpl. by rewrite Hx.
Qed.

Lemma log_multi_get_exact b s v l0 l indices :
  log_represents b s v l0 l -> log_multi_get indices v s = Ok ((fun i => l !! i) <$> indices).
Proof.
  intros [[Hb Hwf] Hc Hv Hst -> Hh]. unfold log_multi_get.
  destruct (log_was_cleared v); [done|]. rewrite Hst, Hb.
  set (stored := filter _ _). simpl.
  assert (Forall (fun p => indices !! p.1 = Some p.2 /\ p.2 < length l0)%nat stored) as Hstored.
  { apply Forall_forall. intros [pos i] [Hi (pos' & i' & [= -> ->] & Hin)%elem_of_lookup_imap]%list_elem_of_filter.
    done. }
  replace ((fun p => index_key b p.2) <$> stored) with (index_key b <$> stored.*2)
    by by rewrite <- list_fmap_compose.
  rewrite (read_stored_keys _ _ l0); [|done|].
  2:{ apply Forall_fmap. eapply Forall_impl; [exact Hstored|]. by intros p [_ ?]. }
  assert (zip stored.*1 ((fun i => l0 !! i) <$> stored.*2) =
    (fun p => (p.1, l0 !! p.2)) <$> stored) as Hzip.
  { clear. induction stored as [|p stored IH]; [done|]. csimpl. by rewrite IH. }
  simpl. rewrite Hzip. f_equal. apply fill_positions.
  - apply Forall_fmap. eapply Forall_impl; [exact Hstored|]. intros [pos i] [Hp Hi]. simpl in *.
    rewrite list_lookup_fmap, Hp. simpl. by rewrite lookup_app_l.
  - by rewrite !length_fmap.
  - intros pos Hpos. rewrite !list_lookup_fmap. destruct (indices !! pos) as [i|] eqn:Hi; [|done].
    simpl. f_equal. unfold log_placeholder. rewrite Hst.
    destruct (Nat.ltb_spec i (length l0)) as [Hlt|Hge]; [|by rewrite lookup_app_r].
    destruct Hpos. rewrite <- list_fmap_compose. apply list_elem_of_fmap. exists (pos, i).
    split; [done|]. apply list_elem_of_filter. split; [done|]. apply elem_of_lookup_imap. eauto.
Qed.

(** *** The laws *)

#[export] Program Instance log_laws : ViewLaws (LogView T) (list T) :=
  {| default_contents := []; contents_hash := list_hash; saved_as := log_saved;
     represents := log_represents; cleared v := log_was_cleared v = true |}.
Next Obligation.
  intros b s s' l Hsame (Hc & Hv & Hh). unfold log_saved, hash_saved, stored_values in *.
  unfold read_key, read_key_bytes in *. rewrite <- !Hsame by apply base_tag_below.
  split_and!; [done| |done]. intros i x Hi. rewrite <- Hsame by apply base_tag_index_below. eauto.
Qed.
Next Obligation.
  intros b s s' v l0 l Hsame [Hb Hc Hv Hst Hl Hh]. split; try done.
  - unfold read_key, read_key_bytes in *. by rewrite <- Hsame by apply base_tag_below.
  - intros i x Hi. unfold read_key, read_key_bytes in *.
    rewrite <- Hsame by apply base_tag_index_below. by apply (Hv i).
  - eapply hash_ok_local, Hh. apply Hsame, base_tag_below.
Qed.
Next Obligation.
  intros b s He. unfold log_saved, hash_saved, read_key, read_key_bytes.
  rewrite !He by apply base_tag_below. split_and!; [done| |by left]. by intros i x.
Qed.
Next Obligation.
  intros b s v l0 l [Hb Hc Hv Hst Hl Hh]. split_and!; [done|done|]. by eapply hash_ok_saved.
Qed.
Next Obligation.
  intros b s l Hb (Hc & Hv & Hh).
  destruct (hash_load _ _ _ Hh) as (x & Hx & Hok); [apply sha3_length|]. pose proof Hc as Hc'.
  apply fmap_Ok in Hc' as (o & Ho & Hlen). simpl. unfold log_load. rewrite Ho. simpl. rewrite Hx.
  simpl. eexists. split; [done|]. split; simpl; try done. by rewrite app_nil_r.
Qed.
Next Obligation.
  intros b s v l0 l [Hb Hc Hv Hst Hl Hh]. split; simpl; try done.
  - by rewrite app_nil_r.
  - by eapply hash_ok_clean.
Qed.
Next Obligation.
  intros b s v l0 l [Hb Hc Hv Hst Hl Hh]. split; [|done]. split; simpl; try done.
  by eapply hash_ok_forget.
Qed.
Next Obligation.
  intros b s v l0 l _ Hr. simpl. unfold log_hash_mut. destruct (log_hash v) as [x|] eqn:Hx.
  - exists v. split_and!; [|done|done]. destruct Hr as [_ _ _ _ _ Hh].
    by rewrite (hash_of_current _ _ _ _ _ _ Hh x Hx).
  - unfold log_compute_hash. rewrite (log_read_exact _ _ _ _ _ NoBound NoBound Hr). simpl.
    rewrite Nat.sub_0_r, drop_0, take_ge by done. eexists. split; [done|]. split; [|done].
    destruct Hr as [Hb Hc Hv Hst Hl [Hs Hst' _]]. split; simpl; try done. by split; simpl; naive_solver.
Qed.
Next Obligation. intros batch v. done. Qed.
Next Obligation. intros b s v l0 l [[Hb Hwf] _ _ _ _ _]. by apply log_flush_below. Qed.
Next Obligation.
  intros b s v l0 l Hs Hr. assert (flush_target b s v s) as Ht by by left.
  pose proof (log_flush_count _ _ _ _ _ _ Hr Hs Ht) as Hc'.
  pose proof (log_flush_values _ _ _ _ _ _ Hr Hs Ht) as Hv'.
  pose proof (log_flush_hash _ _ _ _ _ _ Hr Hs Ht) as Hh'.
  destruct Hr as [Hb Hc Hv Hst -> Hh]. destruct Hb as [Hb Hwf]. split; simpl; try done.
  - rewrite length_app, Hst. by destruct (log_was_cleared v).
  - by rewrite app_nil_r.
Qed.
Next Obligation.
  intros b s v l0 l s' Hr Hc Hs' He. assert (flush_target b s v s') as Ht by by right.
  split_and!; [by eapply log_flush_count|by eapply log_flush_values|].
  by eapply hash_ok_saved, log_flush_hash.
Qed.

Definition log_run (value : T) (_ : Store) (v : LogView T) : result ViewError (LogView T) :=
  Ok (log_push value v).

Lemma log_run_ok value b s v l0 l :
  represents b s v l0 l ->
  exists v', log_run value s v = Ok v' /\ represents b s v' l0 (l ++ [value]).
Proof.
  intros [Hb Hc Hv Hst -> Hh]. eexists. split; [done|]. split; simpl; try done.
  - by rewrite (assoc_L (++)).
  - by eapply hash_ok_forget.
Qed.

(** Logs implement lists.  Through any history of pushes, clears, rollbacks, hash
    computations, saves and reloads a log does not fail and holds the list that the
    history says; all its reads are those of the list, its hash is the one of the list, and
    the keys of other views do not change. *)
Theorem log_refines b s l steps :
  bytes_wf b -> store_wf s -> log_saved b s l ->
  let '(saved, current) := foldl (fun c step =>
    contents_step (fun value l => l ++ [value]) step c) (l, l) steps in
  exists v0 v s', log_load b s = Ok v0 /\
    for_each (view_step log_run b) steps (v0, s) = Ok (v, s') /\ log_saved b s' saved /\
    (forall k, ~ b `prefix_of` k -> s' !! k = s !! k) /\
    log_count v = length current /\
    (forall i, log_get i v s' = Ok (current !! i)) /\
    (forall indices, log_multi_get indices v s' = Ok ((fun i => current !! i) <$> indices)) /\
    (forall first last, log_read_range first last v s' =
       Ok (take (range_stop last (length current) - range_start first)
             (drop (range_start first) current))) /\
    (exists v', log_hash_mut s' v = Ok (list_hash current, v')).
Proof.
  intros Hb Hs Hl.
  destruct (view_history log_run (fun value l => l ++ [value]) log_run_ok b s l steps Hb Hs Hl)
    as (v0 & v & s' & Hload & Hrun & Hs' & Hr & Hf).
  destruct (foldl _ _ _) as [saved current]. cbn [fst snd] in Hr. exists v0, v, s'.
  split_and!; [done|done|exact (represents_saved _ _ _ _ _ Hr)|done|by eapply log_count_exact| | | |].
  - intros i. by eapply log_get_exact.
  - intros indices. by eapply log_multi_get_exact.
  - intros first last. by eapply log_read_exact.
  - destruct (hash_represents _ _ _ _ _ Hs' Hr) as (v' & Hv' & _). by exists v'.
Qed.

End log.

(** ** Queues

    The tags of the keys are those of logs. *)

Record QueueView (T : Type) := {
  queue_base_key : bytes;
  stored_indices : nat * nat;
  front_delete_count : nat;
  queue_was_cleared : bool;
  new_back_values : list T;
  queue_stored_hash : option bytes;
  queue_hash : option bytes;
}.
Arguments queue_base_key {T}.
Arguments stored_indices {T}.
Arguments front_delete_count {T}.
Arguments queue_was_cleared {T}.
Arguments new_back_values {T}.
Arguments queue_stored_hash {T}.
Arguments queue_hash {T}.

Section queue.
Context {T : Type} `{SerdeLaws T, SerdeLaws nat, SerdeLaws (nat * nat), Serde (list T), Sha3Laws}.

Definition queue_load (base_key : bytes) (store : Store) : result ViewError (QueueView T) :=
  indices ← read_key (base_tag base_key log_tag_store) store;
  hash ← read_hash (base_tag base_key log_tag_hash) store;
  Ok {| queue_base_key := base_key; stored_indices := default (0%nat, 0%nat) indices;
        front_delete_count := 0; queue_was_cleared := false; new_back_values := [];
        queue_stored_hash := hash; queue_hash := hash |}.

Definition queue_rollback (self : QueueView T) : QueueView T :=
  {| queue_base_key := queue_base_key self; stored_indices := stored_indices self;
     front_delete_count := 0; queue_was_cleared := false; new_back_values := [];
     queue_stored_hash := queue_stored_hash self; queue_hash := queue_stored_hash self |}.

Definition queue_clear (self : QueueView T) : QueueView T :=
  {| queue_base_key := queue_base_key self; stored_indices := stored_indices self;
     front_delete_count := front_delete_count self; queue_was_cleared := true;
     new_back_values := []; queue_stored_hash := queue_stored_hash self; queue_hash := None |}.

Definition queue_stored_count (self : QueueView T) : nat :=
  if queue_was_cleared self then 0
  else (stored_indices self).2 - (stored_indices self).1 - front_delete_count self.

(** The first part of [flush]: the entries that are deleted, the indices that stay, and whether
    they have to be saved. *)
Definition queue_deletions (self : QueueView T) : Batch * (nat * nat) * bool :=
  let '(start, stop) := stored_indices self in
  if (queue_stored_count self =? 0)%nat then
    ([DeletePrefix (base_tag (queue_base_key self) log_tag_index)], (0%nat, 0%nat), true)
  else if (0 <? front_delete_count self)%nat then
    ((fun index => Delete (index_key (queue_base_key self) index)) <$>
       seq start (front_delete_count self),
     ((start + front_delete_count self)%nat, stop), true)
  else ([], (start, stop), false).

Definition queue_flush (batch : Batch) (self : QueueView T) : Batch * QueueView T :=
  let base_key := queue_base_key self in
  let '(deletions, (start, stop), save_stored_indices) := queue_deletions self in
  let values := new_back_values self in
  let indices := (start, stop + length values)%nat in
  let save_stored_indices := save_stored_indices || negb (length values =? 0)%nat in
  (batch ++ deletions ++ put_values base_key stop values ++
     (if save_stored_indices then [Put (base_tag base_key log_tag_store) (to_bytes indices)]
      else []) ++
     flush_hash_at (base_tag base_key log_tag_hash) (queue_stored_hash self) (queue_hash self),
   {| queue_base_key := base_key; stored_indices := indices; front_delete_count := 0;
      queue_was_cleared := false; new_back_values := []; queue_stored_hash := queue_hash self;
      queue_hash := queue_hash self |}).

Definition queue_get (index : nat) (self : QueueView T) (store : Store)
    : result ViewError (option T) :=
  read_key (index_key (queue_base_key self) index) store.

Definition queue_front (self : QueueView T) (store : Store) : result ViewError (option T) :=
  let stored_remainder := queue_stored_count self in
  if (0 <? stored_remainder)%nat
  then queue_get ((stored_indices self).2 - stored_remainder) self store
  else Ok (head (new_back_values self)).

Definition queue_back (self : QueueView T) (store : Store) : result ViewError (option T) :=
  match last (new_back_values self) with
  | Some value => Ok (Some value)
  | None =>
      if (0 <? queue_stored_count self)%nat
      then queue_get ((stored_indices self).2 - 1) self store
      else Ok None
  end.

(** The view with new staged values; the hash is forgotten. *)
Definition queue_update (deleted : nat) (values : list T) (self : QueueView T) : QueueView T :=
  {| queue_base_key := queue_base_key self; stored_indices := stored_indices self;
     front_delete_count := deleted; queue_was_cleared := queue_was_cleared self;
     new_back_values := values; queue_stored_hash := queue_stored_hash self; queue_hash := None |}.

Definition queue_delete_front (self : QueueView T) : QueueView T :=
  if (0 <? queue_stored_count self)%nat
  then queue_update (front_delete_count self + 1) (new_back_values self) self
  else queue_update (front_delete_count self) (tail (new_back_values self)) self.
Definition queue_push_back (value : T) (self : QueueView T) : QueueView T :=
  queue_update (front_delete_count self) (new_back_values self ++ [value]) self.
Definition queue_count (self : QueueView T) : nat :=
  queue_stored_count self + length (new_back_values self).

Definition queue_read_context (start stop : nat) (self : QueueView T) (store : Store)
    : result ViewError (list T) :=
  read_multi_key (index_key (queue_base_key self) <$> seq start (stop - start)) store
    ≫= all_present.

Definition queue_read_front (count : nat) (self : QueueView T) (store : Store)
    : result ViewError (list T) :=
  let count := (count `min` queue_count self)%nat in
  if (count =? 0)%nat then Ok []
  else if queue_was_cleared self then Ok (take count (new_back_values self))
  else
    let stored_remainder := queue_stored_count self in
    let stop := (stored_indices self).2 in
    let start := (stop - stored_remainder)%nat in
    if (count <=? stored_remainder)%nat then queue_read_context start (start + count) self store
    else
      values ← queue_read_context start stop self store;
      Ok (values ++ take (count - stored_remainder) (new_back_values self)).

Definition queue_read_back (count : nat) (self : QueueView T) (store : Store)
    : result ViewError (list T) :=
  let count := (count `min` queue_count self)%nat in
  let new_back_len := length (new_back_values self) in
  if (count =? 0)%nat then Ok []
  else if (count <=? new_back_len)%nat || queue_was_cleared self
  then Ok (drop (new_back_len - count) (new_back_values self))
  else
    let stop := (stored_indices self).2 in
    values ← queue_read_context (stop + new_back_len - count) stop self store;
    Ok (values ++ new_back_values self).

Definition queue_elements (self : QueueView T) (store : Store) : result ViewError (list T) :=
  queue_read_front (queue_count self) self store.

Definition queue_hash_mut (store : Store) (self : QueueView T)
    : result ViewError (bytes * QueueView T) :=
  match queue_hash self with
  | Some hash => Ok (hash, self)
  | None =>
      elements ← queue_read_front (queue_count self) self store;
      let new_hash := sha3_256 (to_bytes elements) in
      Ok (new_hash,
          {| queue_base_key := queue_base_key self; stored_indices := stored_indices self;
             front_delete_count := front_delete_count self;
             queue_was_cleared := queue_was_cleared self;
             new_back_values := new_back_values self;
             queue_stored_hash := queue_stored_hash self; queue_hash := Some new_hash |})
  end.

(** [VecDeque::rotate_right]. *)
Definition rotate_right (shift : nat) (l : list T) : list T :=
  drop (length l - shift) l ++ take (length l - shift) l.

(** The view with all its values staged; the hash stays. *)
Definition queue_load_all (self : QueueView T) (store : Store) : result ViewError (QueueView T) :=
  if queue_was_cleared self then Ok self
  else
    let stop := (stored_indices self).2 in
    let start := (stop - queue_stored_count self)%nat in
    elements ← queue_read_context start stop self store;
    Ok {| queue_base_key := queue_base_key self; stored_indices := stored_indices self;
          front_delete_count := front_delete_count self; queue_was_cleared := true;
          new_back_values := rotate_right (stop - start) (new_back_values self ++ elements);
          queue_stored_hash := queue_stored_hash self; queue_hash := queue_hash self |}.

(** Changes through the iterator that [iter_mut] returns. *)
Definition queue_iter_mut (change : nat -> T -> T) (self : QueueView T) (store : Store)
    : result ViewError (QueueView T) :=
  self ← queue_load_all self store;
  Ok {| queue_base_key := queue_base_key self; stored_indices := stored_indices self;
        front_delete_count := front_delete_count self;
        queue_was_cleared := queue_was_cleared self;
        new_back_values := imap change (new_back_values self);
        queue_stored_hash := queue_stored_hash self; queue_hash := queue_hash self |}.

#[export] Instance queue_view : View (QueueView T) :=
  {| view_load := queue_load; view_rollback := queue_rollback; view_clear := queue_clear;
     view_flush := queue_flush |}.
#[export] Instance queue_hashable : HashableView (QueueView T) := {| view_hash := queue_hash_mut |}.

(** *** What a queue promises *)

Definition queue_saved (b : bytes) (s : Store) (l : list T) : Prop :=
  exists start, default (0%nat, 0%nat) <$> read_key (base_tag b log_tag_store) s =
      Ok (start, start + length l)%nat /\
    stored_values b s start l /\ hash_saved (base_tag b log_tag_hash) (list_hash l) s.

Record queue_represents (b : bytes) (s : Store) (v : QueueView T) (l0 l : list T) : Prop := {
  qr_base : queue_base_key v = b /\ bytes_wf b;
  qr_indices : default (0%nat, 0%nat) <$> read_key (base_tag b log_tag_store) s =
    Ok (stored_indices v);
  qr_range : (stored_indices v).2 = ((stored_indices v).1 + length l0)%nat;
  qr_values : stored_values b s (stored_indices v).1 l0;
  qr_deleted : (front_delete_count v <= length l0)%nat;
  qr_current : l = (if queue_was_cleared v then [] else drop (front_delete_count v) l0) ++
    new_back_values v;
  qr_hash : hash_ok (base_tag b log_tag_hash) s (queue_stored_hash v) (queue_hash v)
    (list_hash l0) (list_hash l);
}.

Definition queue_target (b : bytes) (s : Store) (v : QueueView T) (s' : Store) : Prop :=
  same_below b s s' \/ queue_was_cleared v = true /\ empty_below b s'.

Lemma queue_stored_rest b s v l0 l :
  queue_represents b s v l0 l ->
  queue_stored_count v =
    length (if queue_was_cleared v then [] else drop (front_delete_count v) l0).
Proof.
  intros [_ _ Hr _ Hd _ _]. unfold queue_stored_count. destruct (queue_was_cleared v); [done|].
  rewrite Hr, length_drop. lia.
Qed.

(** The stored values that stay, after the deletions. *)
Record rest_stored (b : bytes) (s' : Store) (deletions : Batch) (start stop : nat) (save : bool)
    (rest : list T) : Prop := {
  rest_range : stop = (start + length rest)%nat;
  rest_values i x : rest !! i = Some x ->
    from_bytes_opt (default (s' !! index_key b (start + i))
      (batch_effect deletions (index_key b (start + i)))) = Ok (Some x);
  rest_saved : save = false ->
    default (0%nat, 0%nat) <$> read_key (base_tag b log_tag_store) s' = Ok (start, stop);
  rest_tags t : t <> log_tag_index -> batch_effect deletions (base_tag b t) = None;
  rest_below : Forall (operation_below b) deletions;
}.

Lemma queue_deletions_spec b s v l0 l s' deletions start stop save :
  queue_represents b s v l0 l -> queue_target b s v s' ->
  queue_deletions v = (deletions, (start, stop), save) ->
  rest_stored b s' deletions start stop save
    (if queue_was_cleared v then [] else drop (front_delete_count v) l0).
Proof.
  intros Hrep Ht. pose proof (queue_stored_rest _ _ _ _ _ Hrep) as Hcount.
  destruct Hrep as [[Hb Hwf] Hi Hr Hv Hd _ _]. unfold queue_deletions. rewrite Hcount, Hb.
  destruct (stored_indices v) as [first last] eqn:Hidx. simpl in Hr, Hv. subst last.
  destruct (if queue_was_cleared v then [] else _) as [|x rest] eqn:Hrest; simpl.
  { intros [= <- <- <- <-]. split; simpl; try done.
    - intros t Hne. rewrite base_tag_index_nil, decide_False; [done|].
      rewrite base_tag_index_nil. by intros [? _]%tag_prefix.
    - repeat constructor; simpl; [by apply base_tag_wf|apply base_tag_below]. }
  destruct (queue_was_cleared v) eqn:Hcl; [done|]. destruct Ht as [Ht|[? _]]; [|congruence].
  rewrite <- Hrest. clear x rest Hrest Hcount.
  assert (forall i y, drop (front_delete_count v) l0 !! i = Some y ->
    from_bytes_opt (s' !! index_key b (first + front_delete_count v + i)) = Ok (Some y)) as Hval.
  { intros i y Hy. rewrite lookup_drop in Hy. rewrite <- Ht by apply base_tag_index_below.
    rewrite <- Nat.add_assoc. by apply (Hv _ _ Hy). }
  assert (length (drop (front_delete_count v) l0) = length l0 - front_delete_count v)%nat as Hlen
    by apply length_drop.
  destruct (Nat.ltb_spec 0 (front_delete_count v)) as [Hpos|Hzero]; intros [= <- <- <- <-].
  - split; [lia| |done| |].
    + intros i y Hy. rewrite (proj2 (batch_effect_None _ _)); [by apply Hval|].
      intros o (j & -> & Hj)%list_elem_of_fmap. simpl. rewrite decide_False; [done|].
      intros ?%index_key_eq. apply elem_of_seq in Hj. lia.
    + intros t Hne. apply batch_effect_None. intros o (j & -> & _)%list_elem_of_fmap. simpl.
      rewrite decide_False; [done|]. intros Heq. by apply (index_key_other b t j).
    + apply Forall_fmap, Forall_forall. intros j _.
      split; [by apply index_key_wf|apply base_tag_index_below].
  - replace (front_delete_count v) with 0%nat in * by lia. rewrite Nat.add_0_r in Hval.
    split; [lia| | |done|constructor].
    + intros i y Hy. by apply Hval.
    + intros _. unfold read_key, read_key_bytes in *. by rewrite <- Ht by apply base_tag_below.
Qed.

Lemma queue_flush_below b s v l0 l :
  queue_represents b s v l0 l -> Forall (operation_below b) (queue_flush [] v).1.
Proof.
  intros Hrep. unfold queue_flush.
  destruct (queue_deletions v) as [[deletions [start stop]] save] eqn:Hdel.
  pose proof (queue_deletions_spec _ _ _ _ _ s _ _ _ _ Hrep (or_introl (fun k _ => eq_refl)) Hdel)
    as [_ _ _ _ Hbelow].
  destruct Hrep as [[Hb Hwf] _ _ _ _ _ _]. rewrite Hb. simpl.
  repeat apply Forall_app_2; [done|by apply put_values_below| |].
  - destruct (_ || _); repeat constructor; simpl; [by apply base_tag_wf|apply base_tag_below].
  - apply flush_hash_below; [by apply base_tag_wf|apply base_tag_below].
Qed.

Lemma queue_flush_spec b s v l0 l s' :
  queue_represents b s v l0 l -> store_wf s' -> queue_target b s v s' ->
  let '(ops, v') := queue_flush [] v in
  default (0%nat, 0%nat) <$> read_key (base_tag b log_tag_store) (write_batch ops s') =
    Ok (stored_indices v') /\
  (stored_indices v').2 = ((stored_indices v').1 + length l)%nat /\
  stored_values b (write_batch ops s') (stored_indices v').1 l /\
  hash_ok (base_tag b log_tag_hash) (write_batch ops s') (queue_hash v) (queue_hash v)
    (list_hash l) (list_hash l).
Proof.
  intros Hrep Hs' Ht. pose proof (queue_flush_below _ _ _ _ _ Hrep) as Hops. revert Hops.
  unfold queue_flush. destruct (queue_deletions v) as [[deletions [start stop]] save] eqn:Hdel.
  pose proof (queue_deletions_spec _ _ _ _ _ _ _ _ _ _ Hrep Ht Hdel)
    as [Hrange Hval Hsave Htags Hbelow].
  destruct Hrep as [[Hb Hwf] Hi Hr Hv Hd Hl Hh]. rewrite Hb. simpl.
  set (rest := if queue_was_cleared v then [] else _) in *. set (values := new_back_values v) in *.
  set (hashes := flush_hash_at _ _ _).
  set (store := if save || _ then _ else _).
  intros Hops.
  assert (forall k, write_batch (deletions ++ put_values b stop values ++ store ++ hashes) s' !! k =
    default (s' !! k) (batch_effect (deletions ++ put_values b stop values ++ store ++ hashes) k))
    as Hlook by (intros k; apply lookup_write_batch; [by eapply below_wf|done]).
  assert (forall t, t <> log_tag_index -> batch_effect (put_values b stop values) (base_tag b t) = None)
    as Hput by (intros t Hne; apply put_values_other; intros i; by apply index_key_other).
  split_and!.
  - unfold read_key, read_key_bytes in *. rewrite Hlook, !batch_effect_app.
    unfold hashes. rewrite flush_hash_other by by intros ?%base_tag_eq.
    unfold store. destruct (save || _) eqn:Hs; simpl.
    + rewrite decide_True by done. simpl. by rewrite from_to_bytes.
    + rewrite Hput, Htags by done. simpl. apply orb_false_iff in Hs as [-> Hz].
      destruct values; [|done]. simpl. rewrite Nat.add_0_r. by apply Hsave.
  - rewrite Hl, length_app, Hrange. lia.
  - intros i x Hx. unfold read_key, read_key_bytes. rewrite Hlook, !batch_effect_app.
    unfold hashes. rewrite flush_hash_other by by apply index_key_other.
    replace (batch_effect store _) with (None : option (option bytes)).
    2:{ unfold store. destruct (_ || _); simpl; [|done]. rewrite decide_False; [done|].
        by apply index_key_other. }
    rewrite put_values_effect. rewrite Hl in Hx. fold rest in Hx.
    apply lookup_app_Some in Hx as [Hx|[Hle Hx]].
    + pose proof (lookup_lt_Some _ _ _ Hx). rewrite (proj2 (Nat.leb_gt stop _)) by lia. by apply Hval.
    + rewrite (proj2 (Nat.leb_le stop _)) by lia.
      replace (start + i - stop)%nat with (i - length rest)%nat by lia. rewrite Hx. simpl.
      by rewrite from_to_bytes.
  - eapply (flush_hash_ok _ s (s' !! base_tag b log_tag_hash)); [exact Hh| |].
    + destruct Ht as [Ht|[_ Ht]]; [right; symmetry; apply Ht|left; apply Ht]; apply base_tag_below.
    + rewrite Hlook, !batch_effect_app. fold hashes. destruct (batch_effect hashes _); [done|].
      replace (batch_effect store _) with (None : option (option bytes)).
      2:{ unfold store. destruct (_ || _); simpl; [|done]. rewrite decide_False; [done|].
          by intros ?%base_tag_eq. }
      by rewrite Hput, Htags.
Qed.

(** *** Reads *)

Lemma queue_context_exact b s v l0 l i j :
  queue_represents b s v l0 l -> (j <= length l0)%nat ->
  queue_read_context ((stored_indices v).1 + i) ((stored_indices v).1 + j) v s =
    Ok (take (j - i) (drop i l0)).
Proof.
  intros [[Hb Hwf] Hi Hr Hv Hd Hl Hh] Hj. unfold queue_read_context. rewrite Hb.
  replace ((stored_indices v).1 + j - ((stored_indices v).1 + i))%nat with (j - i)%nat by lia.
  apply read_multi_exact. destruct (decide (i <= j)%nat).
  - apply stored_seq; [done|lia].
  - replace (j - i)%nat with 0%nat by lia. constructor.
Qed.

Lemma queue_count_exact b s v l0 l : queue_represents b s v l0 l -> queue_count v = length l.
Proof.
  intros Hrep. unfold queue_count. rewrite (queue_stored_rest _ _ _ _ _ Hrep).
  destruct Hrep as [_ _ _ _ _ -> _]. by rewrite length_app.
Qed.

(** All the stored values that are left. *)
Lemma queue_rest_exact b s v l0 l :
  queue_represents b s v l0 l -> queue_was_cleared v = false ->
  queue_read_context ((stored_indices v).2 - queue_stored_count v) (stored_indices v).2 v s =
    Ok (drop (front_delete_count v) l0).
Proof.
  intros Hrep Hcl. pose proof (queue_stored_rest _ _ _ _ _ Hrep) as Hc. rewrite Hcl in Hc.
  pose proof Hrep as [_ _ Hr _ Hd _ _]. rewrite length_drop in Hc.
  replace ((stored_indices v).2 - queue_stored_count v)%nat
    with ((stored_indices v).1 + front_delete_count v)%nat by lia.
  rewrite Hr, (queue_context_exact _ _ _ _ _ _ _ Hrep) by done.
  by rewrite take_ge by (rewrite length_drop; lia).
Qed.

Lemma queue_front_exact b s v l0 l :
  queue_represents b s v l0 l -> queue_front v s = Ok (head l).
Proof.
  intros Hrep. unfold queue_front. pose proof (queue_stored_rest _ _ _ _ _ Hrep) as Hc.
  destruct Hrep as [[Hb Hwf] Hi Hr Hv Hd Hl Hh]. rewrite Hl.
  destruct (if queue_was_cleared v then [] else _) as [|x rest] eqn:Hrest; rewrite Hc; [done|].
  destruct (queue_was_cleared v); [done|]. simpl. unfold queue_get. rewrite Hb.
  assert (l0 !! front_delete_count v = Some x) as Hx.
  { rewrite <- (Nat.add_0_r (front_delete_count v)), <- lookup_drop, Hrest. done. }
  rewrite <- (Hv _ _ Hx). do 2 f_equal.
  assert (length (x :: rest) = length l0 - front_delete_count v)%nat as Hlen
    by (rewrite <- Hrest; apply length_drop).
  simpl in Hlen. lia.
Qed.

Lemma queue_back_exact b s v l0 l :
  queue_represents b s v l0 l -> queue_back v s = Ok (last l).
Proof.
  intros Hrep. unfold queue_back. pose proof (queue_stored_rest _ _ _ _ _ Hrep) as Hc.
  destruct Hrep as [[Hb Hwf] Hi Hr Hv Hd Hl Hh]. rewrite Hl, last_app.
  destruct (last (new_back_values v)) as [x|] eqn:Hlast; [done|]. rewrite Hc.
  destruct (if queue_was_cleared v then [] else _) as [|x rest] eqn:Hrest; [done|].
  destruct (queue_was_cleared v); [done|]. cbn [length]. simpl (0 <? _)%nat. cbv iota.
  rewrite <- Hrest. assert (length (x :: rest) = length l0 - front_delete_count v)%nat as Hlen
    by (rewrite <- Hrest; apply length_drop).
  rewrite last_lookup, length_drop, lookup_drop. simpl in Hlen. unfold queue_get. rewrite Hb, Hr.
  destruct (lookup_lt_is_Some_2 l0 (length l0 - 1)) as [y Hy]; [lia|].
  replace (front_delete_count v + Init.Nat.pred (length l0 - front_delete_count v))%nat
    with (length l0 - 1)%nat by lia.
  rewrite Hy, <- (Hv _ _ Hy). do 2 f_equal. lia.
Qed.

Lemma queue_read_front_exact b s v l0 l count :
  queue_represents b s v l0 l -> queue_read_front count v s = Ok (take count l).
Proof.
  intros Hrep. unfold queue_read_front. rewrite (queue_count_exact _ _ _ _ _ Hrep).
  assert (take count l = take (count `min` length l) l) as ->.
  { destruct (decide (count <= length l)%nat); [by rewrite Nat.min_l|].
    by rewrite Nat.min_r, !take_ge by lia. }
  assert (count `min` length l <= length l)%nat as Hle by lia.
  revert Hle. generalize (count `min` length l)%nat as n. clear count. intros n Hn.
  destruct (Nat.eqb_spec n 0) as [->|Hz]; [done|].
  pose proof (queue_stored_rest _ _ _ _ _ Hrep) as Hc.
  pose proof Hrep as [_ _ Hr _ Hd Hl _]. rewrite Hl.
  destruct (queue_was_cleared v) eqn:Hcl; [done|]. rewrite length_drop in Hc.
  destruct (Nat.leb_spec n (queue_stored_count v)) as [Hin|Hout].
  - replace ((stored_indices v).2 - queue_stored_count v)%nat
      with ((stored_indices v).1 + front_delete_count v)%nat by lia.
    rewrite <- Nat.add_assoc, (queue_context_exact _ _ _ _ _ _ _ Hrep) by lia.
    replace (front_delete_count v + n - front_delete_count v)%nat with n by lia.
    by rewrite take_app_le by (rewrite length_drop; lia).
  - rewrite (queue_rest_exact _ _ _ _ _ Hrep Hcl). simpl. f_equal. rewrite take_app, length_drop.
    rewrite (take_ge (drop _ _)) by (rewrite length_drop; lia). do 2 f_equal. lia.
Qed.

Lemma queue_read_back_exact b s v l0 l count :
  queue_represents b s v l0 l -> queue_read_back count v s = Ok (drop (length l - count) l).
Proof.
  intros Hrep. unfold queue_read_back. rewrite (queue_count_exact _ _ _ _ _ Hrep).
  replace (length l - count)%nat with (length l - (count `min` length l))%nat by lia.
  assert (count `min` length l <= length l)%nat as Hle by lia.
  revert Hle. generalize (count `min` length l)%nat as n. clear count. intros n Hn.
  destruct (Nat.eqb_spec n 0) as [->|Hz]; [by rewrite Nat.sub_0_r, drop_all|].
  pose proof Hrep as [_ _ Hr _ Hd Hl _]. rewrite Hl in Hn |- *. rewrite length_app in *.
  destruct (Nat.leb_spec n (length (new_back_values v))) as [Hin|Hout]; simpl.
  - rewrite drop_app_ge by lia. do 2 f_equal. lia.
  - destruct (queue_was_cleared v) eqn:Hcl; simpl in *; [lia|]. rewrite length_drop in *.
    replace ((stored_indices v).2 + length (new_back_values v) - n)%nat
      with ((stored_indices v).1 + (length l0 + length (new_back_values v) - n))%nat by lia.
    rewrite Hr, (queue_context_exact _ _ _ _ _ _ _ Hrep) by done. simpl. f_equal.
    rewrite drop_app_le by (rewrite length_drop; lia). f_equal. rewrite drop_drop.
    rewrite take_ge by (rewrite length_drop; lia). f_equal. lia.
Qed.

Lemma queue_load_all_ok b s v l0 l :
  queue_represents b s v l0 l ->
  exists v', queue_load_all v s = Ok v' /\ queue_represents b s v' l0 l /\
    queue_was_cleared v' = true /\ new_back_values v' = l /\ queue_hash v' = queue_hash v.
Proof.
  intros Hrep. unfold queue_load_all. destruct (queue_was_cleared v) eqn:Hcl.
  { exists v. split_and!; try done. destruct Hrep as [_ _ _ _ _ -> _]. by rewrite Hcl. }
  pose proof (queue_stored_rest _ _ _ _ _ Hrep) as Hc. rewrite Hcl in Hc.
  rewrite (queue_rest_exact _ _ _ _ _ Hrep Hcl). simpl. eexists. split; [done|].
  destruct Hrep as [Hb Hi Hr Hv Hd Hl Hh]. rewrite Hcl in Hl. simpl.
  assert (rotate_right ((stored_indices v).2 - ((stored_indices v).2 - queue_stored_count v))
    (new_back_values v ++ drop (front_delete_count v) l0) = l) as ->; [|by split].
  rewrite Hl. unfold rotate_right. rewrite length_app, Hc, length_drop, Hr.
  replace (length (new_back_values v) + (length l0 - front_delete_count v) - _)%nat
    with (length (new_back_values v)) by lia.
  by rewrite drop_app_length, take_app_length.
Qed.

(** *** The laws *)

#[export] Program Instance queue_laws : ViewLaws (QueueView T) (list T) :=
  {| default_contents := []; contents_hash := list_hash; saved_as := queue_saved;
     represents := queue_represents; cleared v := queue_was_cleared v = true |}.
Next Obligation.
  intros b s s' l Hsame (start & Hi & Hv & Hh). exists start.
  unfold hash_saved, stored_values, read_key, read_key_bytes in *.
  rewrite <- !Hsame by apply base_tag_below. split_and!; [done| |done].
  intros i x Hx. rewrite <- Hsame by apply base_tag_index_below. eauto.
Qed.
Next Obligation.
  intros b s s' v l0 l Hsame [Hb Hi Hr Hv Hd Hl Hh]. split; try done.
  - unfold read_key, read_key_bytes in *. by rewrite <- Hsame by apply base_tag_below.
  - intros i x Hx. unfold read_key, read_key_bytes in *.
    rewrite <- Hsame by apply base_tag_index_below. by apply (Hv i).
  - eapply hash_ok_local, Hh. apply Hsame, base_tag_below.
Qed.
Next Obligation.
  intros b s He. exists 0%nat. unfold hash_saved, read_key, read_key_bytes.
  rewrite !He by apply base_tag_below. split_and!; [done| |by left]. by intros i x.
Qed.
Next Obligation.
  intros b s v l0 l [Hb Hi Hr Hv Hd Hl Hh]. exists (stored_indices v).1.
  rewrite <- Hr. split_and!; [|done|by eapply hash_ok_saved]. by destruct (stored_indices v).
Qed.
Next Obligation.
  intros b s l Hb (start & Hi & Hv & Hh).
  destruct (hash_load _ _ _ Hh) as (x & Hx & Hok); [apply sha3_length|]. pose proof Hi as Hi'.
  apply fmap_Ok in Hi' as (o & Ho & Hd). simpl. unfold queue_load. rewrite Ho. simpl. rewrite Hx.
  simpl. eexists. split; [done|]. split; simpl; rewrite <- ?Hd; simpl; try done.
  - lia.
  - by rewrite app_nil_r.
Qed.
Next Obligation.
  intros b s v l0 l [Hb Hi Hr Hv Hd Hl Hh]. split; simpl; try done.
  - lia.
  - by rewrite app_nil_r.
  - by eapply hash_ok_clean.
Qed.
Next Obligation.
  intros b s v l0 l [Hb Hi Hr Hv Hd Hl Hh]. split; [|done]. split; simpl; try done.
  by eapply hash_ok_forget.
Qed.
Next Obligation.
  intros b s v l0 l _ Hrep. simpl. unfold queue_hash_mut. destruct (queue_hash v) as [x|] eqn:Hx.
  - exists v. split_and!; [|done|done]. destruct Hrep as [_ _ _ _ _ _ Hh].
    by rewrite (hash_of_current _ _ _ _ _ _ Hh x Hx).
  - rewrite (queue_read_front_exact _ _ _ _ _ _ Hrep), (queue_count_exact _ _ _ _ _ Hrep), take_ge
      by done.
    simpl. eexists. split; [done|]. split; [|done].
    destruct Hrep as [Hb Hi Hr Hv Hd Hl [Hs Hst _]]. split; simpl; try done.
    by split; simpl; naive_solver.
Qed.
Next Obligation.
  intros batch v. simpl. unfold queue_flush.
  by destruct (queue_deletions v) as [[deletions [start stop]] save].
Qed.
Next Obligation. intros b s v l0 l Hrep. by eapply queue_flush_below. Qed.
Next Obligation.
  intros b s v l0 l Hs Hrep.
  pose proof (queue_flush_spec _ _ _ _ _ _ Hrep Hs (or_introl (fun k _ => eq_refl))) as Hspec.
  destruct Hrep as [[Hb Hwf] _ _ _ _ _ _]. simpl.
  assert (queue_base_key (queue_flush [] v).2 = b /\ front_delete_count (queue_flush [] v).2 = 0%nat /\
    queue_was_cleared (queue_flush [] v).2 = false /\ new_back_values (queue_flush [] v).2 = [] /\
    queue_stored_hash (queue_flush [] v).2 = queue_hash v /\
    queue_hash (queue_flush [] v).2 = queue_hash v) as (Hb' & Hd' & Hc' & Hn' & Hs' & Hh').
  { unfold queue_flush. by destruct (queue_deletions v) as [[deletions [start stop]] save]. }
  destruct (queue_flush [] v) as [ops v']. destruct Hspec as (Hi & Hr & Hv & Hh). simpl in *.
  split; rewrite ?Hd', ?Hc', ?Hn', ?Hs', ?Hh'; try done; [lia|by rewrite app_nil_r].
Qed.
Next Obligation.
  intros b s v l0 l s' Hrep Hc Hs' He.
  pose proof (queue_flush_spec _ _ _ _ _ _ Hrep Hs' (or_intror (conj Hc He))) as Hspec. simpl.
  destruct (queue_flush [] v) as [ops v']. destruct Hspec as (Hi & Hr & Hv & Hh). simpl.
  exists (stored_indices v').1. rewrite <- Hr. split_and!; [|done|by eapply hash_ok_saved].
  by destruct (stored_indices v').
Qed.

(** *** Histories *)

Inductive QueueOp :=
| QueuePush (value : T)
| QueueDelete
| QueueLoadAll.

Definition queue_run (op : QueueOp) (store : Store) (v : QueueView T)
    : result ViewError (QueueView T) :=
  match op with
  | QueuePush value => Ok (queue_push_back value v)
  | QueueDelete => Ok (queue_delete_front v)
  | QueueLoadAll => queue_load_all v store
  end.
Definition queue_effect (op : QueueOp) (l : list T) : list T :=
  match op with QueuePush value => l ++ [value] | QueueDelete => tail l | QueueLoadAll => l end.

Lemma queue_run_ok op b s v l0 l :
  represents b s v l0 l ->
  exists v', queue_run op s v = Ok v' /\ represents b s v' l0 (queue_effect op l).
Proof.
  intros Hrep. destruct op as [value| |]; simpl.
  - destruct Hrep as [Hb Hi Hr Hv Hd -> Hh]. eexists. split; [done|]. split; simpl; try done.
    + by rewrite (assoc_L (++)).
    + by eapply hash_ok_forget.
  - eexists. split; [done|]. unfold queue_delete_front.
    rewrite (queue_stored_rest _ _ _ _ _ Hrep). destruct Hrep as [Hb Hi Hr Hv Hd Hl Hh].
    destruct (if queue_was_cleared v then [] else _) as [|x rest] eqn:Hrest; simpl.
    + rewrite Hl. split; simpl; rewrite ?Hrest; try done. by eapply hash_ok_forget.
    + destruct (queue_was_cleared v) eqn:Hcl; [done|]. rewrite Hl.
      assert (length (x :: rest) = length l0 - front_delete_count v)%nat as Hlen
        by (rewrite <- Hrest; apply length_drop).
      simpl in Hlen. split; simpl; rewrite ?Hcl; try done; [lia| |by eapply hash_ok_forget].
      by rewrite <- drop_drop, Hrest.
  - destruct (queue_load_all_ok _ _ _ _ _ Hrep) as (v' & Hv' & Hr' & _). by exists v'.
Qed.

(** Queues implement lists.  Through any history of operations at both ends, clears,
    rollbacks, hash computations, saves and reloads a queue does not fail and holds the list
    that the history says; all its reads are those of the list, its hash is the one of the
    list, and the keys of other views do not change. *)
Theorem queue_refines b s l steps :
  bytes_wf b -> store_wf s -> queue_saved b s l ->
  let '(saved, current) := foldl (fun c step => contents_step queue_effect step c) (l, l) steps in
  exists v0 v s', queue_load b s = Ok v0 /\
    for_each (view_step queue_run b) steps (v0, s) = Ok (v, s') /\ queue_saved b s' saved /\
    (forall k, ~ b `prefix_of` k -> s' !! k = s !! k) /\
    queue_count v = length current /\ queue_elements v s' = Ok current /\
    queue_front v s' = Ok (head current) /\ queue_back v s' = Ok (last current) /\
    (forall n, queue_read_front n v s' = Ok (take n current)) /\
    (forall n, queue_read_back n v s' = Ok (drop (length current - n) current)) /\
    (exists v', queue_hash_mut s' v = Ok (list_hash current, v')).
Proof.
  intros Hb Hs Hl. destruct (view_history queue_run queue_effect queue_run_ok b s l steps Hb Hs Hl)
    as (v0 & v & s' & Hload & Hrun & Hs' & Hr & Hf).
  destruct (foldl _ _ _) as [saved current]. cbn [fst snd] in Hr. exists v0, v, s'.
  split_and!; [done|done|exact (represents_saved _ _ _ _ _ Hr)|done|by eapply queue_count_exact|
    |by eapply queue_front_exact|by eapply queue_back_exact| | |].
  - unfold queue_elements. rewrite (queue_count_exact _ _ _ _ _ Hr).
    rewrite (queue_read_front_exact _ _ _ _ _ _ Hr). by rewrite take_ge.
  - intros n. by eapply queue_read_front_exact.
  - intros n. by eapply queue_read_back_exact.
  - destruct (hash_represents _ _ _ _ _ Hs' Hr) as (v' & Hv' & _). by exists v'.
Qed.

(** [iter_mut] keeps the hash.  When the hash of a queue was computed and its values are then
    changed through [iter_mut], the queue holds the new values, but its hash is still the one
    of the old values. *)
Theorem queue_iter_mut_stale_hash b s v l0 l change :
  store_wf s -> queue_represents b s v l0 l ->
  exists v1 v2, queue_hash_mut s v = Ok (list_hash l, v1) /\
    queue_iter_mut change v1 s = Ok v2 /\ queue_elements v2 s = Ok (imap change l) /\
    queue_hash_mut s v2 = Ok (list_hash l, v2).
Proof.
  intros Hs Hrep. destruct (hash_represents (ViewLaws := queue_laws) b s v l0 l Hs Hrep)
    as (v1 & Hh & Hr1 & _).
  assert (queue_hash v1 = Some (list_hash l)) as Hv1.
  { simpl in Hh. unfold queue_hash_mut in Hh. destruct (queue_hash v) as [x|] eqn:Hx.
    - by injection Hh as -> <-.
    - apply bind_Ok in Hh as (elements & _ & [= Heq <-]). simpl. by rewrite Heq. }
  destruct (queue_load_all_ok _ _ _ _ _ Hr1) as (v2 & Hl & _ & Hc & Hn & Hh2).
  exists v1. eexists. split; [done|]. unfold queue_iter_mut. rewrite Hl. simpl. split; [done|].
  rewrite Hn. split.
  - unfold queue_elements, queue_read_front, queue_count, queue_stored_count. simpl. rewrite Hc.
    simpl. rewrite Nat.min_id. destruct (Nat.eqb_spec (length (imap change l)) 0) as [Hz|Hz].
    + by apply nil_length_inv in Hz as ->.
    + by rewrite take_ge.
  - unfold queue_hash_mut. simpl. by rewrite Hh2, Hv1.
Qed.

End queue.

(** ** Examples *)

(** Serializations with their laws, and a hash function. *)
Module ViewExamples.

#[export] Instance unary_nat : Serde nat :=
  {| to_bytes n := replicate n 1; from_bytes bytes := Some (length bytes) |}.
#[export] Instance unary_nat_laws : SerdeLaws nat.
Proof.
  split.
  - intros n. simpl. by rewrite length_replicate.
  - intros n. by apply Forall_replicate.
Qed.

(** The first number ends at the first zero. *)
Fixpoint ones (bytes : bytes) : nat :=
  match bytes with byte :: bytes => if byte =? 1 then S (ones bytes) else 0%nat | [] => 0%nat end.
#[export] Instance unary_range : Serde (nat * nat) :=
  {| to_bytes p := replicate p.1 1 ++ [0] ++ replicate p.2 1;
     from_bytes bytes := Some (ones bytes, length bytes - ones bytes - 1)%nat |}.
#[export] Instance unary_range_laws : SerdeLaws (nat * nat).
Proof.
  split.
  - intros [x y]. simpl.
    assert (ones (replicate x 1 ++ 0 :: replicate y 1) = x) as ->.
    { induction x as [|x IH]; simpl; [done|]. by rewrite IH. }
    rewrite length_app, length_replicate. simpl. rewrite length_replicate. do 2 f_equal. lia.
  - intros [x y]. simpl. apply Forall_app_2; [by apply Forall_replicate|].
    constructor; [done|by apply Forall_replicate].
Qed.

#[export] Instance list_serde : Serde (list nat) :=
  {| to_bytes l := l ≫= (fun n => 2 :: replicate n 1); from_bytes _ := None |}.
#[export] Instance sum_hash : Sha3 :=
  {| sha3_256 input := replicate 31 0 ++ [foldr Z.add 0 input] |}.
#[export] Instance sum_hash_laws : Sha3Laws.
Proof. by split. Qed.

Definition base : bytes := [7].

Definition log_steps : list (ViewStep nat) :=
  [StepOp 3%nat; StepOp 4%nat; StepSave; StepHash; StepOp 5%nat; StepRollback; StepClear;
   StepOp 6%nat; StepSave; StepOp 8%nat].

Lemma log_refines_witness :
  exists v0 v s', log_load base ∅ = Ok v0 /\
    for_each (view_step log_run base) log_steps (v0, ∅) = Ok (v, s') /\
    log_saved base s' [6%nat] /\ log_read_range NoBound NoBound v s' = Ok [6%nat; 8%nat].
Proof.
  assert (log_saved base ∅ ([] : list nat)) as Hsaved
    by (split; [done|split; [by intros i x|by left]]).
  pose proof (log_refines base ∅ [] log_steps) as Href. simpl in Href.
  destruct Href as (v0 & v & s' & Hl & Hrun & Hs & _ & _ & _ & _ & Hread & _);
    [by repeat constructor|apply map_Forall_empty|exact Hsaved|].
  exists v0, v, s'. split_and!; [exact Hl|exact Hrun|exact Hs|]. by rewrite Hread.
Defined.

Definition queue_steps : list (ViewStep QueueOp) :=
  [StepOp (QueuePush 3%nat); StepOp (QueuePush 4%nat); StepOp (QueuePush 5%nat); StepSave;
   StepOp QueueDelete; StepHash; StepSave; StepOp QueueLoadAll; StepOp (QueuePush 6%nat);
   StepOp QueueDelete].

Lemma queue_refines_witness :
  exists v0 v s', queue_load base ∅ = Ok v0 /\
    for_each (view_step queue_run base) queue_steps (v0, ∅) = Ok (v, s') /\
    queue_saved base s' [4%nat; 5%nat] /\ queue_elements v s' = Ok [5%nat; 6%nat].
Proof.
  assert (queue_saved base ∅ ([] : list nat)) as Hsaved
    by (exists 0%nat; split; [done|split; [by intros i x|by left]]).
  pose proof (queue_refines base ∅ [] queue_steps) as Href. simpl in Href.
  destruct Href as (v0 & v & s' & Hl & Hrun & Hs & _ & _ & Hel & _);
    [by repeat constructor|apply map_Forall_empty|exact Hsaved|].
  exists v0, v, s'. split_and!; [exact Hl|exact Hrun|exact Hs|exact Hel].
Defined.

(** Rolling back an empty queue and flushing it writes to the store, although [rollback] promises
    that [flush] has no effect afterwards. *)
Theorem queue_flush_after_rollback_writes :
  exists v : QueueView nat, queue_load base ∅ = Ok v /\
    write_batch (queue_flush [] (queue_rollback v)).1 ∅ <> ∅.
Proof.
  eexists. split; [reflexivity|]. intros Heq.
  apply (f_equal (fun m : Store => m !! base_tag base log_tag_store)) in Heq.
  vm_compute in Heq. discriminate Heq.
Qed.

End ViewExamples.
