(* ===== verification/Collections.v ===== *)
(** * Collections of views

    [linera-views/src/reentrant_collection_view.rs]: a view with a subview for each index,
    which are loaded on demand.  The subviews are those of any view [W] of [Views].

    Guards on subviews are released between the operations: an operation that gives access to
    a subview is modelled with the change made through it.  Loading the same entry twice for
    writing fails with [TryLockError].

    A subview has the base key of the collection followed by a tag and the index.  When an
    index is a prefix of another one, the keys of the two subviews overlap
    ([subviews_overlap]); so the theorem is for indices without this, such as the BCS bytes of
    the values of a type. *)

From S2P Require Import Prelude Types Errors Batches KeyValueStore Views Logs.

(** Types of indices whose serializations are not prefixes of each other. *)
Class PrefixFree (I : Type) `{Serde I} := {
  to_bytes_prefix (i j : I) : to_bytes i `prefix_of` to_bytes j -> i = j;
}.

Definition collection_tag_index : Z := MIN_VIEW_TAG.
Definition collection_tag_subview : Z := MIN_VIEW_TAG + 1.
Definition collection_tag_hash : Z := MIN_VIEW_TAG + 2.

Inductive ViewUpdate (W : Type) :=
| UpdateRemoved
| UpdateSet (view : W).
Arguments UpdateRemoved {W}.
Arguments UpdateSet {W} view.

Record CollectionView (W : Type) := {
  collection_base_key : bytes;
  collection_was_cleared : bool;
  collection_updates : gmap bytes (ViewUpdate W);
  collection_stored_hash : option bytes;
  collection_hash : option bytes;
}.
Arguments collection_base_key {W}.
Arguments collection_was_cleared {W}.
Arguments collection_updates {W}.
Arguments collection_stored_hash {W}.
Arguments collection_hash {W}.

(** The keys of the updates up to a stored index, or the index itself. *)
Fixpoint take_keys {W} (index : bytes) (pending : list (bytes * ViewUpdate W))
    : list bytes * list (bytes * ViewUpdate W) :=
  match pending with
  | (key, update) :: rest =>
      if bytes_leb key index then
        let here := match update with UpdateSet _ => [key] | UpdateRemoved => [] end in
        if bool_decide (key = index) then (here, rest)
        else let '(keys, rest) := take_keys index rest in (here ++ keys, rest)
      else ([index], pending)
  | [] => ([index], [])
  end.

Definition set_keys {W} (pending : list (bytes * ViewUpdate W)) : list bytes :=
  omap (fun '(key, update) =>
          match update with UpdateSet _ => Some key | UpdateRemoved => None end) pending.

(** The loop of [for_each_key_while], over the stored indices. *)
Fixpoint merge_keys {W} (stored : list bytes) (pending : list (bytes * ViewUpdate W))
    : list bytes :=
  match stored with
  | [] => set_keys pending
  | index :: stored =>
      let '(keys, pending) := take_keys index pending in keys ++ merge_keys stored pending
  end.

Section collection.
Context {W A : Type} `{ViewLaws W A, SerdeLaws nat, Sha3Laws}.

Definition get_index_key (base_key index : bytes) : bytes :=
  base_tag_index base_key collection_tag_index index.
Definition get_subview_key (base_key index : bytes) : bytes :=
  base_tag_index base_key collection_tag_subview index.

Definition collection_load (base_key : bytes) (store : Store)
    : result ViewError (CollectionView W) :=
  hash ← read_hash (base_tag base_key collection_tag_hash) store;
  Ok {| collection_base_key := base_key; collection_was_cleared := false;
        collection_updates := ∅; collection_stored_hash := hash; collection_hash := hash |}.

Definition collection_rollback (self : CollectionView W) : CollectionView W :=
  {| collection_base_key := collection_base_key self; collection_was_cleared := false;
     collection_updates := ∅; collection_stored_hash := collection_stored_hash self;
     collection_hash := collection_stored_hash self |}.

Definition collection_clear (self : CollectionView W) : CollectionView W :=
  {| collection_base_key := collection_base_key self; collection_was_cleared := true;
     collection_updates := ∅; collection_stored_hash := collection_stored_hash self;
     collection_hash := None |}.

(** What is written for an entry. *)
Definition flush_update (base_key : bytes) (was_cleared : bool) (batch : Batch)
    (entry : bytes * ViewUpdate W) : Batch :=
  let '(index, update) := entry in
  match update with
  | UpdateSet view => (view_flush batch view).1 ++ [Put (get_index_key base_key index) []]
  | UpdateRemoved =>
      if was_cleared then batch
      else batch ++ [Delete (get_index_key base_key index);
                     DeletePrefix (get_subview_key base_key index)]
  end.

Definition collection_flush (batch : Batch) (self : CollectionView W)
    : Batch * CollectionView W :=
  let base_key := collection_base_key self in
  let was_cleared := collection_was_cleared self in
  let batch := if was_cleared then batch ++ [DeletePrefix base_key] else batch in
  let batch :=
    foldl (flush_update base_key was_cleared) batch (range_entries all (collection_updates self)) in
  (batch ++ flush_hash_at (base_tag base_key collection_tag_hash) (collection_stored_hash self)
     (collection_hash self),
   {| collection_base_key := base_key; collection_was_cleared := false; collection_updates := ∅;
      collection_stored_hash := collection_hash self; collection_hash := collection_hash self |}).

(** The collection with new updates. *)
Definition set_updates (updates : gmap bytes (ViewUpdate W)) (hash : option bytes)
    (self : CollectionView W) : CollectionView W :=
  {| collection_base_key := collection_base_key self;
     collection_was_cleared := collection_was_cleared self; collection_updates := updates;
     collection_stored_hash := collection_stored_hash self; collection_hash := hash |}.

(** A subview that is loaded, and cleared when its entry was removed. *)
Definition load_subview (index : bytes) (to_be_cleared : bool) (self : CollectionView W)
    (store : Store) : result ViewError W :=
  view ← view_load (get_subview_key (collection_base_key self) index) store;
  Ok (if to_be_cleared then view_clear view else view).

(** The subview of an entry; the entry exists from then on. *)
Definition load_entry_view (index : bytes) (self : CollectionView W) (store : Store)
    : result ViewError W :=
  match collection_updates self !! index with
  | Some (UpdateSet view) => Ok view
  | Some UpdateRemoved => load_subview index true self store
  | None => load_subview index (collection_was_cleared self) self store
  end.

Definition try_load_entry_mut (index : bytes) (change : W -> result ViewError W)
    (self : CollectionView W) (store : Store) : result ViewError (CollectionView W) :=
  view ← load_entry_view index self store;
  view ← change view;
  Ok (set_updates (<[index := UpdateSet view]> (collection_updates self)) None self).

Definition try_load_entry (index : bytes) (self : CollectionView W) (store : Store)
    : result ViewError (W * CollectionView W) :=
  view ← load_entry_view index self store;
  Ok (view, set_updates (<[index := UpdateSet view]> (collection_updates self))
              (collection_hash self) self).

Definition remove_entry (index : bytes) (self : CollectionView W) : CollectionView W :=
  set_updates
    (if collection_was_cleared self then delete index (collection_updates self)
     else <[index := UpdateRemoved]> (collection_updates self)) None self.

Definition try_reset_entry_to_default (index : bytes) (self : CollectionView W) (store : Store)
    : result ViewError (CollectionView W) :=
  try_load_entry_mut index (fun view => Ok (view_clear view)) self store.

(** The entries to load: those that are not in memory, and whether they are to be cleared. *)
Definition selected_short_key (self : CollectionView W) (index : bytes) : option (bytes * bool) :=
  match collection_updates self !! index with
  | Some (UpdateSet _) => None
  | Some UpdateRemoved => Some (index, true)
  | None => Some (index, collection_was_cleared self)
  end.
Definition insert_loaded (store : Store) (entry : bytes * bool) (self : CollectionView W)
    : result ViewError (CollectionView W) :=
  view ← load_subview entry.1 entry.2 self store;
  Ok (set_updates (<[entry.1 := UpdateSet view]> (collection_updates self))
        (collection_hash self) self).

Definition load_entries (indices : list bytes) (self : CollectionView W) (store : Store)
    : result ViewError (CollectionView W) :=
  for_each (insert_loaded store) (omap (selected_short_key self) indices) self.

(** [try_load_entries]: the subviews, which are only read. *)
Definition loaded_view (self : CollectionView W) (index : bytes) : result ViewError W :=
  match collection_updates self !! index with
  | Some (UpdateSet view) => Ok view
  | _ => Panic
  end.
Definition try_load_entries (indices : list bytes) (self : CollectionView W) (store : Store)
    : result ViewError (list W * CollectionView W) :=
  self ← load_entries indices self store;
  views ← for_each (fun index views => view ← loaded_view self index; Ok (views ++ [view]))
            indices [];
  Ok (views, self).

(** [collection_load_entries_mut], and the changes made through the guards. *)
Definition change_entry (entry : bytes * (W -> result ViewError W)) (self : CollectionView W)
    : result ViewError (CollectionView W) :=
  view ← loaded_view self entry.1;
  view ← entry.2 view;
  Ok (set_updates (<[entry.1 := UpdateSet view]> (collection_updates self))
        (collection_hash self) self).
Definition collection_load_entries_mut (changes : list (bytes * (W -> result ViewError W)))
    (self : CollectionView W) (store : Store) : result ViewError (CollectionView W) :=
  self ← load_entries changes.*1 (set_updates (collection_updates self) None self) store;
  ensure (bool_decide (NoDup changes.*1)) ViewTryLockError ;;
  for_each change_entry changes self.

Definition collection_keys (self : CollectionView W) (store : Store) : list bytes :=
  let pending := range_entries all (collection_updates self) in
  if collection_was_cleared self then set_keys pending
  else merge_keys (find_keys_by_prefix (get_index_key (collection_base_key self) []) store) pending.

(** The body of the loop of [hash_mut]: the bytes fed to the hash function. *)
Definition hash_entry (store : Store) (index : bytes) (progress : bytes * CollectionView W)
    : result ViewError (bytes * CollectionView W) :=
  let '(input, self) := progress in
  view ← load_entry_view index self store;
  '(hash, view) ← view_hash store view;
  Ok (input ++ index ++ hash,
      set_updates (<[index := UpdateSet view]> (collection_updates self)) None self).
Definition collection_hash_mut (store : Store) (self : CollectionView W)
    : result ViewError (bytes * CollectionView W) :=
  match collection_hash self with
  | Some hash => Ok (hash, self)
  | None =>
      let keys := collection_keys self store in
      '(input, self) ← for_each (hash_entry store) keys (to_bytes (length keys), self);
      let new_hash := sha3_256 input in
      Ok (new_hash, set_updates (collection_updates self) (Some new_hash) self)
  end.

#[export] Instance collection_view : View (CollectionView W) :=
  {| view_load := collection_load; view_rollback := collection_rollback;
     view_clear := collection_clear; view_flush := collection_flush |}.
#[export] Instance collection_hashable : HashableView (CollectionView W) :=
  {| view_hash := collection_hash_mut |}.

(** *** The keys of a collection *)

Definition to_update (update : ViewUpdate W) : Update :=
  match update with UpdateSet _ => SetTo [] | UpdateRemoved => Removed end.
Definition with_unit (key : bytes) : bytes * bytes := (key, []).

Lemma take_keys_updates index (pending : list (bytes * ViewUpdate W)) :
  exists taken rest found,
    take_updates index (prod_map id to_update <$> pending) = (taken, prod_map id to_update <$> rest, found) /\
    take_keys index pending = (taken.*1 ++ (if found then [] else [index]), rest).
Proof.
  induction pending as [|[key update] pending IH]; csimpl; [by exists [], [], false|].
  destruct (bytes_leb key index); [|by exists [], ((key, update) :: pending), false].
  case_bool_decide as Heq.
  - subst. destruct update as [|view]; [exists [], pending, true|exists [(index, [])], pending, true];
      done.
  - destruct IH as (taken & rest & found & -> & ->).
    destruct update as [|view]; [by exists taken, rest, found|by exists ((key, []) :: taken), rest, found].
Qed.

Lemma set_keys_entries (pending : list (bytes * ViewUpdate W)) :
  set_keys pending = (set_entries (prod_map id to_update <$> pending)).*1.
Proof.
  unfold set_keys, set_entries. induction pending as [|[key [|view]] pending IH]; csimpl; [done|done|].
  by rewrite IH.
Qed.

Lemma lower_new_empty index : is_index_present (lower_new ∅) index = (true, lower_new ∅).
Proof. done. Qed.

Lemma merge_keys_entries stored : forall pending : list (bytes * ViewUpdate W),
  merge_keys stored pending =
  (merge_entries [] (with_unit <$> stored) (prod_map id to_update <$> pending) (lower_new ∅)).*1.
Proof.
  induction stored as [|index stored IH]; intros pending; [apply set_keys_entries|]. csimpl.
  destruct (take_keys_updates index pending) as (taken & rest & found & -> & ->).
  rewrite IH, lower_new_empty. destruct found; rewrite !fmap_app; [by rewrite app_nil_r|].
  by rewrite <- (assoc_L (++)).
Qed.

Lemma keys_unique (M : gmap bytes A) (l : list (bytes * bytes)) :
  store_wf M -> sorted_entries l ->
  (forall k value, (k, value) ∈ l <-> value = [] /\ is_Some (M !! k)) ->
  l.*1 = (range_entries all M).*1.
Proof.
  intros HM Hl Hin. rewrite range_entries_all.
  assert (l = with_unit <$> (relative [] M).*1) as ->.
  2: { rewrite <- list_fmap_compose. apply list_fmap_id. }
  apply sorted_entries_unique; [done| |].
  - rewrite <- list_fmap_compose.
    assert (sorted_entries (relative [] M)) as Hs by (apply relative_strictly_sorted; [constructor|done]).
    induction Hs as [|kv rest Hs IH Hfa]; [constructor|]. csimpl. constructor; [done|].
    by apply Forall_fmap.
  - intros [k value]. rewrite Hin. rewrite list_elem_of_fmap. split.
    + intros [-> [a Ha]]. exists k. split; [done|]. apply list_elem_of_fmap. exists (k, a).
      split; [done|]. apply elem_of_relative; [constructor|done|done].
    + intros (k' & [= -> ->] & ([k'' a] & -> & Ha)%list_elem_of_fmap).
      apply elem_of_relative in Ha; [|constructor|done]. split; [done|]. by exists a.
Qed.

Lemma stored_keys_sorted p s :
  bytes_wf p -> store_wf s -> sorted_entries (with_unit <$> find_keys_by_prefix p s).
Proof.
  intros Hp Hs. assert (with_unit <$> find_keys_by_prefix p s =
    prod_map id (fun _ => []) <$> relative p s) as ->.
  { unfold find_keys_by_prefix, relative. rewrite range_keys_entries, <- !list_fmap_compose. done. }
  pose proof (relative_strictly_sorted _ s Hp Hs) as Hst.
  induction Hst as [|kv rest Hst IH Hfa]; [constructor|]. csimpl. constructor; [done|].
  by apply Forall_fmap.
Qed.

Lemma elem_of_stored_keys p s k value :
  bytes_wf p -> store_wf s ->
  (k, value) ∈ (with_unit <$> find_keys_by_prefix p s) <-> value = [] /\ is_Some (s !! (p ++ k)).
Proof.
  intros Hp Hs. rewrite list_elem_of_fmap. split.
  - intros (k' & [= -> ->] & Hk%elem_of_find_keys); [|done..]. done.
  - intros [-> Hk]. exists k. split; [done|]. by apply elem_of_find_keys.
Qed.

Lemma pending_sorted (updates : gmap bytes (ViewUpdate W)) :
  store_wf updates -> sorted_entries (prod_map id to_update <$> range_entries all updates).
Proof.
  intros Hu. rewrite range_entries_all.
  assert (sorted_entries (relative [] updates)) as Hs by (apply relative_strictly_sorted; [constructor|done]).
  induction Hs as [|[k u] rest Hs IH Hfa]; [constructor|]. csimpl. constructor; [done|].
  apply Forall_fmap. eapply Forall_impl; [exact Hfa|]. by intros [k' u'].
Qed.

Lemma elem_of_entries {V} (m : gmap bytes V) k u : (k, u) ∈ range_entries all m <-> m !! k = Some u.
Proof. rewrite elem_of_range_entries. split; [by intros [_ ?]|done]. Qed.

Lemma elem_of_pending_update (updates : gmap bytes (ViewUpdate W)) k u :
  (k, u) ∈ (prod_map id to_update <$> range_entries all updates) <->
  to_update <$> updates !! k = Some u.
Proof.
  rewrite list_elem_of_fmap. split.
  - intros ([k' u'] & [= -> ->] & Hin%elem_of_entries). by rewrite Hin.
  - intros (u' & Hu' & ->)%fmap_Some. exists (k, u'). split; [done|]. by apply elem_of_entries.
Qed.

Lemma elem_of_pending_keys (updates : gmap bytes (ViewUpdate W)) k :
  k ∈ (prod_map id to_update <$> range_entries all updates).*1 <-> is_Some (updates !! k).
Proof.
  rewrite list_elem_of_fmap. split.
  - intros ([k' u] & -> & Hin%elem_of_pending_update). apply fmap_Some in Hin as (u' & Hu' & _).
    by exists u'.
  - intros [u Hu]. exists (k, to_update u). split; [done|]. apply elem_of_pending_update. by rewrite Hu.
Qed.

(** *** What a collection promises

    The contents of a collection are a map from the serialized indices to the contents of the
    subviews. *)

Context {I : Type} `{SerdeLaws I, !PrefixFree I}.

Definition index_bytes (k : bytes) : Prop := exists i : I, k = to_bytes i.

Lemma index_bytes_wf k : index_bytes k -> bytes_wf k.
Proof. intros [i ->]. apply to_bytes_wf. Qed.
Lemma subview_key_wf b k : bytes_wf b -> index_bytes k -> bytes_wf (get_subview_key b k).
Proof. intros Hb Hk. apply tag_index_wf; [done|done|by apply index_bytes_wf]. Qed.
Lemma entry_index_wf b k : bytes_wf b -> index_bytes k -> bytes_wf (get_index_key b k).
Proof. intros Hb Hk. apply tag_index_wf; [done|done|by apply index_bytes_wf]. Qed.
Lemma subviews_apart b i j :
  index_bytes i -> index_bytes j -> i <> j -> apart (get_subview_key b i) (get_subview_key b j).
Proof.
  intros [i' ->] [j' ->] Hne k Hi Hj.
  destruct (prefix_weak_total _ _ _ Hi Hj) as [[_ Hp]%tag_prefix|[_ Hp]%tag_prefix];
    apply to_bytes_prefix in Hp; by subst.
Qed.

Definition collection_contents_hash (M : gmap bytes A) : bytes :=
  let entries := range_entries all M in
  sha3_256 (to_bytes (length entries) ++ (entries ≫= fun '(k, a) => k ++ contents_hash a)).

Record entries_saved (b : bytes) (s : Store) (M : gmap bytes A) : Prop := {
  es_indices k : is_Some (M !! k) -> index_bytes k;
  es_present k : is_Some (s !! get_index_key b k) <-> is_Some (M !! k);
  es_saved k : index_bytes k ->
    saved_as (get_subview_key b k) s (default default_contents (M !! k));
}.
Definition collection_saved (b : bytes) (s : Store) (M : gmap bytes A) : Prop :=
  entries_saved b s M /\
  hash_saved (base_tag b collection_tag_hash) (collection_contents_hash M) s.

(** An entry of the collection: the update, what is saved and what it holds. *)
Definition entry_represents (b : bytes) (s : Store) (was_cleared : bool) (k : bytes)
    (update : option (ViewUpdate W)) (saved current : option A) : Prop :=
  match update with
  | Some (UpdateSet view) => exists a, current = Some a /\
      represents (get_subview_key b k) s view (default default_contents saved) a /\
      (was_cleared = true -> cleared view)
  | Some UpdateRemoved => current = None
  | None => current = if was_cleared then None else saved
  end.

Record collection_represents (b : bytes) (s : Store) (v : CollectionView W)
    (M0 M : gmap bytes A) : Prop := {
  cr_base : collection_base_key v = b /\ bytes_wf b;
  cr_saved : entries_saved b s M0;
  cr_updates k : is_Some (collection_updates v !! k) -> index_bytes k;
  cr_entries k :
    entry_represents b s (collection_was_cleared v) k (collection_updates v !! k) (M0 !! k) (M !! k);
  cr_hash : hash_ok (base_tag b collection_tag_hash) s (collection_stored_hash v)
    (collection_hash v) (collection_contents_hash M0) (collection_contents_hash M);
}.

Lemma cr_indices b s v M0 M k :
  collection_represents b s v M0 M -> is_Some (M !! k) -> index_bytes k.
Proof.
  intros [Hb Hs Hu He Hh] HM. specialize (He k). specialize (Hu k).
  destruct (collection_updates v !! k) as [u|]; [by apply Hu|]. simpl in He.
  rewrite He in HM. destruct (collection_was_cleared v); [by destruct HM|].
  by eapply es_indices.
Qed.

Lemma cr_contents_wf b s v M0 M : collection_represents b s v M0 M -> store_wf M.
Proof. intros Hr k a Ha. eapply index_bytes_wf, cr_indices; [done|by exists a]. Qed.

Lemma cr_updates_wf b s v M0 M : collection_represents b s v M0 M -> store_wf (collection_updates v).
Proof. intros Hr k u Hu. eapply index_bytes_wf, cr_updates; [done|by exists u]. Qed.

Lemma collection_keys_exact b s v M0 M :
  store_wf s -> collection_represents b s v M0 M ->
  collection_keys v s = (range_entries all M).*1.
Proof.
  intros Hs Hr. pose proof (cr_contents_wf _ _ _ _ _ Hr) as HM.
  pose proof (pending_sorted _ (cr_updates_wf _ _ _ _ _ Hr)) as Hsorted.
  destruct Hr as [[Hb Hwf] Hsv Hu He Hh]. unfold collection_keys. rewrite Hb.
  destruct (collection_was_cleared v).
  - rewrite set_keys_entries. apply keys_unique; [done|by apply set_entries_sorted|].
    intros k value. rewrite elem_of_set_entries, elem_of_pending_update. specialize (He k).
    destruct (collection_updates v !! k) as [[|view]|]; simpl in *.
    1,3: rewrite He; split; [done|by intros [_ [? ?]]].
    destruct He as (a & -> & _). naive_solver.
  - rewrite merge_keys_entries.
    assert (bytes_wf (get_index_key b [])) as Hp by (apply tag_index_wf; [done|done|constructor]).
    destruct (merge_entries_spec ∅ [] (with_unit <$> find_keys_by_prefix (get_index_key b []) s)
      (prod_map id to_update <$> range_entries all (collection_updates v)) (lower_new ∅) [])
      as [Hms Hmm]; [done|by apply stored_keys_sorted|done|apply lower_new_inv| |].
    { apply Forall_forall. constructor. }
    apply keys_unique; [done|done|]. intros k value. rewrite Hmm, elem_of_pending_update.
    rewrite elem_of_pending_keys, elem_of_stored_keys by done.
    assert (get_index_key b [] ++ k = get_index_key b k) as ->.
    { unfold get_index_key, base_tag_index. by rewrite <- !(assoc_L (++)). }
    rewrite (es_present b s M0) by done. specialize (He k).
    assert (~ matched ∅ ([] ++ k)) by set_solver.
    destruct (collection_updates v !! k) as [[|view]|]; simpl in *.
    + rewrite He. split; [|by intros [_ [? ?]]]. intros [?|(_ & Hn & _)]; [done|]. by destruct Hn.
    + destruct He as (a & -> & _). split; [|naive_solver].
      intros [[= <-]|(_ & Hn & _)]; [done|]. by destruct Hn.
    + rewrite He, <- not_eq_None_Some. naive_solver.
Qed.

(** *** Entries *)

Lemma load_subview_ok b s v M0 M k clear :
  collection_represents b s v M0 M -> index_bytes k ->
  exists w, load_subview k clear v s = Ok w /\
    represents (get_subview_key b k) s w (default default_contents (M0 !! k))
      (if clear then default_contents else default default_contents (M0 !! k)) /\
    (clear = true -> cleared w).
Proof.
  intros [[Hb Hwf] Hsv Hu He Hh] Hk. unfold load_subview. rewrite Hb.
  destruct (load_represents _ _ _ (subview_key_wf b k Hwf Hk) (es_saved _ _ _ Hsv k Hk))
    as (w & -> & Hw). simpl. destruct clear; [|by exists w].
  apply clear_represents in Hw as [Hw Hc]. by exists (view_clear w).
Qed.

Lemma load_entry_ok b s v M0 M k :
  collection_represents b s v M0 M -> index_bytes k ->
  exists w, load_entry_view k v s = Ok w /\
    represents (get_subview_key b k) s w (default default_contents (M0 !! k))
      (default default_contents (M !! k)) /\
    (collection_was_cleared v = true -> cleared w).
Proof.
  intros Hr Hk. pose proof (cr_entries _ _ _ _ _ Hr k) as He. unfold load_entry_view.
  destruct (collection_updates v !! k) as [[|w]|]; simpl in He.
  - rewrite He. destruct (load_subview_ok _ _ _ _ _ k true Hr Hk) as (w & -> & Hw & Hc).
    exists w. split_and!; [done|done|]. intros _. by apply Hc.
  - destruct He as (a & -> & Hw & Hc). by exists w.
  - rewrite He.
    destruct (load_subview_ok _ _ _ _ _ k (collection_was_cleared v) Hr Hk) as (w & -> & Hw & Hc).
    exists w. split_and!; [done| |done]. by destruct (collection_was_cleared v).
Qed.

Lemma set_entry_ok b s v M0 M M' k w a hash :
  collection_represents b s v M0 M -> index_bytes k -> M' = <[k := a]> M ->
  represents (get_subview_key b k) s w (default default_contents (M0 !! k)) a ->
  (collection_was_cleared v = true -> cleared w) ->
  hash = None \/ hash = collection_hash v /\ M' = M ->
  collection_represents b s
    (set_updates (<[k := UpdateSet w]> (collection_updates v)) hash v) M0 M'.
Proof.
  intros [Hb Hsv Hu He Hh] Hk -> Hw Hc Hhash. split; simpl; try done.
  - intros k'. rewrite lookup_insert_is_Some. naive_solver.
  - intros k'. destruct (decide (k' = k)) as [->|Hne].
    + rewrite !lookup_insert_eq. simpl. by exists a.
    + rewrite !lookup_insert_ne by done. apply He.
  - destruct Hhash as [->|[-> ->]]; [by eapply hash_ok_forget|done].
Qed.

Lemma load_entry_mut_ok b s v M0 M k change a :
  collection_represents b s v M0 M -> index_bytes k ->
  (forall w, represents (get_subview_key b k) s w (default default_contents (M0 !! k))
     (default default_contents (M !! k)) ->
   exists w', change w = Ok w' /\
     represents (get_subview_key b k) s w' (default default_contents (M0 !! k)) a /\
     (cleared w -> cleared w')) ->
  exists v', try_load_entry_mut k change v s = Ok v' /\
    collection_represents b s v' M0 (<[k := a]> M).
Proof.
  intros Hr Hk Hchange. unfold try_load_entry_mut.
  destruct (load_entry_ok _ _ _ _ _ _ Hr Hk) as (w & -> & Hw & Hc). simpl.
  destruct (Hchange w Hw) as (w' & -> & Hw' & Hc'). simpl. eexists. split; [done|].
  eapply set_entry_ok; [done..|by auto|by left].
Qed.

(** Reading an entry that exists changes nothing. *)
Lemma load_entry_read_ok b s v M0 M k a :
  collection_represents b s v M0 M -> M !! k = Some a ->
  exists w v', try_load_entry k v s = Ok (w, v') /\ collection_represents b s v' M0 M /\
    represents (get_subview_key b k) s w (default default_contents (M0 !! k)) a.
Proof.
  intros Hr Ha. assert (index_bytes k) as Hk by (eapply cr_indices; [done|by exists a]).
  unfold try_load_entry. destruct (load_entry_ok _ _ _ _ _ _ Hr Hk) as (w & -> & Hw & Hc).
  rewrite Ha in Hw. simpl in *. eexists _, _. split; [done|]. split; [|done].
  eapply set_entry_ok; [done|done|symmetry; by apply insert_id|done|done|by right].
Qed.

Lemma remove_entry_ok b s v M0 M k :
  collection_represents b s v M0 M -> index_bytes k ->
  collection_represents b s (remove_entry k v) M0 (delete k M).
Proof.
  intros [Hb Hsv Hu He Hh] Hk. unfold remove_entry. split; simpl; try done.
  - intros k'. destruct (collection_was_cleared v).
    + intros [u [_ Hk']%lookup_delete_Some]. apply Hu. by exists u.
    + rewrite lookup_insert_is_Some. naive_solver.
  - intros k'. destruct (decide (k' = k)) as [->|Hne].
    + rewrite lookup_delete_eq.
      destruct (collection_was_cleared v); [by rewrite lookup_delete_eq|by rewrite lookup_insert_eq].
    + rewrite lookup_delete_ne by done. specialize (He k').
      destruct (collection_was_cleared v); [by rewrite lookup_delete_ne|by rewrite lookup_insert_ne].
  - by eapply hash_ok_forget.
Qed.

(** *** Saving *)

(** The operations for an entry. *)
Definition entry_operations (b : bytes) (was_cleared : bool) (entry : bytes * ViewUpdate W) : Batch :=
  flush_update b was_cleared [] entry.

Lemma flush_updates_eq b wc entries batch :
  foldl (flush_update b wc) batch entries = batch ++ (entries ≫= entry_operations b wc).
Proof.
  revert batch. induction entries as [|[k u] entries IH]; intros batch; csimpl;
    [by rewrite app_nil_r|].
  rewrite IH. rewrite (assoc_L (++)). f_equal. unfold entry_operations.
  destruct u as [|w]; simpl; [by destruct wc; rewrite ?app_nil_r|].
  rewrite (flush_batch batch). simpl. by rewrite (assoc_L (++)).
Qed.

Lemma effect_bind_none {X} (f : X -> Batch) (l : list X) k :
  (forall y, y ∈ l -> batch_effect (f y) k = None) -> batch_effect (l ≫= f) k = None.
Proof.
  induction l as [|y l IH]; intros Hall; csimpl; [done|]. rewrite batch_effect_app, IH by set_solver.
  apply Hall. set_solver.
Qed.

Lemma effect_bind_or {X} (f : X -> Batch) (l : list X) x k :
  (forall y, y ∈ l -> y = x \/ batch_effect (f y) k = None) ->
  batch_effect (l ≫= f) k = None \/ batch_effect (l ≫= f) k = batch_effect (f x) k.
Proof.
  induction l as [|y l IH]; intros Hall; csimpl; [by left|]. rewrite batch_effect_app.
  destruct IH as [->|Heq]; [set_solver| |].
  - destruct (Hall y) as [->|Hy]; [by left|by right|by left].
  - rewrite Heq. destruct (batch_effect (f x) k) eqn:Hx; [by right|].
    destruct (Hall y) as [->|Hy]; [by left|by left|by left].
Qed.

Lemma effect_bind {X} (f : X -> Batch) (l : list X) x k :
  x ∈ l -> (forall y, y ∈ l -> y = x \/ batch_effect (f y) k = None) ->
  batch_effect (l ≫= f) k = batch_effect (f x) k.
Proof.
  induction 1 as [x l|x y l Hx IH]; intros Hall; csimpl; rewrite batch_effect_app.
  - destruct (effect_bind_or f l x k) as [->|Heq]; [set_solver|done|].
    rewrite Heq. by destruct (batch_effect (f x) k).
  - rewrite IH by set_solver. destruct (batch_effect (f x) k) eqn:Hx'; [done|].
    destruct (Hall y) as [->|Hy]; [by left|done|done].
Qed.

Lemma entry_operations_below b s v M0 M k u :
  collection_represents b s v M0 M -> collection_updates v !! k = Some u ->
  Forall (fun o => operation_below (get_subview_key b k) o \/
                   operation_below b o /\ operation_key o = get_index_key b k /\
                     (forall p, o <> DeletePrefix p))
    (entry_operations b (collection_was_cleared v) (k, u)).
Proof.
  intros Hr Hu. assert (index_bytes k) as Hk by (eapply cr_updates; [done|by exists u]).
  destruct Hr as [[Hb Hwf] Hsv _ He _]. specialize (He k). rewrite Hu in He.
  unfold entry_operations. destruct u as [|w]; simpl in *.
  - destruct (collection_was_cleared v); [constructor|]. constructor; [|constructor; [|constructor]].
    + right. split_and!; [split; [by apply entry_index_wf|apply base_tag_index_below]|done|done].
    + left. split; [by apply subview_key_wf|done].
  - destruct He as (a & _ & Hw & _). apply Forall_app_2.
    + eapply Forall_impl; [by eapply flush_below|]. by left.
    + constructor; [|constructor]. right.
      split_and!; [split; [by apply entry_index_wf|apply base_tag_index_below]|done|done].
Qed.

(** The keys of an entry. *)
Definition entry_key (b k x : bytes) : Prop :=
  get_subview_key b k `prefix_of` x \/ x = get_index_key b k.

Lemma entry_keys_apart b i j x :
  index_bytes i -> index_bytes j -> entry_key b i x -> entry_key b j x -> i = j.
Proof.
  intros Hi Hj [Hx| ->] [Hx'|Hx'].
  - destruct (decide (i = j)) as [|Hne]; [done|]. by destruct (subviews_apart b i j Hi Hj Hne x).
  - subst. by apply tag_prefix in Hx as [? _].
  - by apply tag_prefix in Hx' as [? _].
  - by apply tag_index_eq in Hx' as [_ ?].
Qed.

Lemma entry_frame b s v M0 M k u x :
  collection_represents b s v M0 M -> collection_updates v !! k = Some u -> ~ entry_key b k x ->
  batch_effect (entry_operations b (collection_was_cleared v) (k, u)) x = None.
Proof.
  intros Hr Hu Hx. pose proof (entry_operations_below _ _ _ _ _ _ _ Hr Hu) as Hops.
  rewrite Forall_forall in Hops. apply batch_effect_None. intros o Ho.
  destruct (Hops o Ho) as [Hb|(_ & Heq & Hp)].
  - assert (batch_effect [o] x = None) as Hn; [|exact Hn].
    eapply below_frame; [by apply Forall_singleton|]. intros Hpre. apply Hx. by left.
  - destruct o; try (by destruct (Hp _ eq_refl)); simpl in *; subst;
      (rewrite decide_False; [done|]); intros <-; apply Hx; by right.
Qed.

Lemma entries_effect b s v M0 M k x :
  collection_represents b s v M0 M -> (forall j, index_bytes j -> entry_key b j x -> j = k) ->
  batch_effect (range_entries all (collection_updates v) ≫=
    entry_operations b (collection_was_cleared v)) x =
  (collection_updates v !! k) ≫= fun u =>
    batch_effect (entry_operations b (collection_was_cleared v) (k, u)) x.
Proof.
  intros Hr Hx.
  assert (forall j u, (j, u) ∈ range_entries all (collection_updates v) -> j <> k ->
    batch_effect (entry_operations b (collection_was_cleared v) (j, u)) x = None) as Hother.
  { intros j u Hj%elem_of_entries Hne. eapply entry_frame; [done|done|]. intros Hx'. apply Hne, Hx; [|done].
    eapply cr_updates; [done|by exists u]. }
  destruct (collection_updates v !! k) as [u|] eqn:Hu; simpl.
  - apply effect_bind with (x := (k, u)); [by apply elem_of_entries|]. intros [j u'] Hj.
    destruct (decide (j = k)) as [->|Hne]; [left|right; by apply Hother].
    apply elem_of_entries in Hj. congruence.
  - apply effect_bind_none. intros [j u'] Hj. apply Hother; [done|]. intros ->.
    apply elem_of_entries in Hj. congruence.
Qed.

Lemma entries_effect_hash b s v M0 M :
  collection_represents b s v M0 M ->
  batch_effect (range_entries all (collection_updates v) ≫=
    entry_operations b (collection_was_cleared v)) (base_tag b collection_tag_hash) = None.
Proof.
  intros Hr. apply effect_bind_none. intros [j u] Hj%elem_of_entries.
  eapply entry_frame; [done|done|]. rewrite base_tag_index_nil.
  intros [[? _]%tag_prefix|[? _]%tag_index_eq]; done.
Qed.

(** A flush after the deletion of the base key: the operations, and the stores they start from. *)
Definition flush_operations (v : CollectionView W) : Batch :=
  (range_entries all (collection_updates v) ≫=
     entry_operations (collection_base_key v) (collection_was_cleared v)) ++
  flush_hash_at (base_tag (collection_base_key v) collection_tag_hash) (collection_stored_hash v)
    (collection_hash v).
Definition flush_start (b : bytes) (s : Store) (v : CollectionView W) (s1 : Store) : Prop :=
  store_wf s1 /\ if collection_was_cleared v then empty_below b s1 else same_below b s s1.

Lemma collection_flush_eq batch v :
  (collection_flush batch v).1 =
  batch ++ (if collection_was_cleared v then [DeletePrefix (collection_base_key v)] else []) ++
  flush_operations v.
Proof.
  unfold collection_flush, flush_operations. simpl. rewrite flush_updates_eq, <- !(assoc_L (++)).
  destruct (collection_was_cleared v); [by rewrite <- !(assoc_L (++))|done].
Qed.

Lemma flush_operations_below b s v M0 M :
  collection_represents b s v M0 M -> Forall (operation_below b) (flush_operations v).
Proof.
  intros Hr. destruct (cr_base _ _ _ _ _ Hr) as [Hb Hwf]. unfold flush_operations. rewrite Hb.
  apply Forall_app_2; [|apply flush_hash_below; [by apply base_tag_wf|apply base_tag_below]].
  apply Forall_bind, Forall_forall. intros [k u] Hu%elem_of_entries.
  eapply Forall_impl; [by eapply entry_operations_below|]. intros o [[Hk Hp]|[Hp _]]; [|done].
  split; [done|]. etrans; [apply base_tag_index_below|exact Hp].
Qed.

Lemma flush_lookup b s v M0 M s1 k x :
  collection_represents b s v M0 M -> store_wf s1 ->
  (forall j, index_bytes j -> entry_key b j x -> j = k) -> base_tag b collection_tag_hash <> x ->
  write_batch (flush_operations v) s1 !! x =
  default (s1 !! x) ((collection_updates v !! k) ≫= fun u =>
    batch_effect (entry_operations b (collection_was_cleared v) (k, u)) x).
Proof.
  intros Hr Hs1 Hx Hh. rewrite lookup_write_batch by (done || by eapply below_wf, flush_operations_below).
  unfold flush_operations. destruct (cr_base _ _ _ _ _ Hr) as [-> Hwf].
  by rewrite batch_effect_app, flush_hash_other, (entries_effect b s v M0 M k).
Qed.

Lemma index_keys_unique b k j : entry_key b j (get_index_key b k) -> j = k.
Proof. by intros [[? _]%tag_prefix|[_ ?]%tag_index_eq]. Qed.

Lemma flush_present b s v M0 M s1 k :
  collection_represents b s v M0 M -> flush_start b s v s1 ->
  is_Some (write_batch (flush_operations v) s1 !! get_index_key b k) <-> is_Some (M !! k).
Proof.
  intros Hr [Hs1 Hstart]. rewrite (flush_lookup b s v M0 M s1 k); [|done|done| |].
  2: { intros j _. apply index_keys_unique. }
  2: { rewrite base_tag_index_nil. by intros [? _]%tag_index_eq. }
  assert (b `prefix_of` get_index_key b k) as Hbelow by apply base_tag_index_below.
  pose proof (cr_entries _ _ _ _ _ Hr k) as He.
  destruct (collection_updates v !! k) as [[|w]|]; simpl in *.
  - rewrite He. unfold entry_operations. simpl. destruct (collection_was_cleared v); simpl.
    + by rewrite Hstart.
    + rewrite decide_False by by intros [? _]%tag_prefix. rewrite decide_True by done. split; by intros [? ?].
  - destruct He as (a & -> & _). unfold entry_operations. simpl. rewrite batch_effect_app. simpl.
    by rewrite decide_True.
  - rewrite He. destruct (collection_was_cleared v); [by rewrite Hstart|].
    rewrite <- (Hstart _ Hbelow). apply (es_present _ _ _ (cr_saved _ _ _ _ _ Hr)).
Qed.

Lemma flush_subview b s v M0 M s1 k :
  collection_represents b s v M0 M -> flush_start b s v s1 -> index_bytes k ->
  saved_as (get_subview_key b k) (write_batch (flush_operations v) s1)
    (default default_contents (M !! k)).
Proof.
  intros Hr [Hs1 Hstart] Hk. destruct (cr_base _ _ _ _ _ Hr) as [_ Hwf].
  assert (forall x, get_subview_key b k `prefix_of` x ->
    write_batch (flush_operations v) s1 !! x =
    default (s1 !! x) ((collection_updates v !! k) ≫= fun u =>
      batch_effect (entry_operations b (collection_was_cleared v) (k, u)) x)) as Hlookup.
  { intros x Hx. eapply flush_lookup; [done|done| |].
    - intros j Hj Hjx. eapply entry_keys_apart; [done..|by left].
    - intros <-. rewrite base_tag_index_nil in Hx. by apply tag_prefix in Hx as [? _]. }
  pose proof (cr_entries _ _ _ _ _ Hr k) as He. unfold entry_operations in Hlookup.
  destruct (collection_updates v !! k) as [[|w]|]; simpl in *.
  - rewrite He. apply saved_as_default. intros x Hx. rewrite Hlookup by done.
    destruct (collection_was_cleared v); simpl.
    + apply Hstart. etrans; [apply base_tag_index_below|exact Hx].
    + by rewrite decide_True.
  - destruct He as (a & -> & Hw & Hc). simpl.
    assert (saved_as (get_subview_key b k) (write_batch (view_flush [] w).1 s1) a) as Hsaved.
    { destruct (collection_was_cleared v).
      - eapply flush_cleared; [done|by apply Hc|done|by apply empty_below_weaken].
      - eapply represents_saved, flush_represents; [done|].
        eapply represents_local; [by apply same_below_weaken|done]. }
    eapply saved_as_local, Hsaved. intros x Hx. rewrite Hlookup by done.
    rewrite lookup_write_batch by (done || by eapply below_wf, flush_below).
    rewrite batch_effect_app. simpl. rewrite decide_False; [done|].
    intros <-. by apply tag_prefix in Hx as [? _].
  - rewrite He. destruct (collection_was_cleared v); simpl.
    + apply saved_as_default. intros x Hx. rewrite Hlookup by done. simpl.
      apply Hstart. etrans; [apply base_tag_index_below|exact Hx].
    + eapply saved_as_local, (es_saved _ _ _ (cr_saved _ _ _ _ _ Hr) k Hk).
      intros x Hx. rewrite Hlookup by done. simpl. apply Hstart.
      etrans; [apply base_tag_index_below|exact Hx].
Qed.

Lemma flush_entries_saved b s v M0 M s1 :
  collection_represents b s v M0 M -> flush_start b s v s1 ->
  entries_saved b (write_batch (flush_operations v) s1) M.
Proof.
  intros Hr Hstart. split; intros k.
  - by eapply cr_indices.
  - by eapply flush_present.
  - intros Hk. by eapply flush_subview.
Qed.

Lemma flush_collection_hash b s v M0 M s1 :
  collection_represents b s v M0 M -> flush_start b s v s1 ->
  hash_ok (base_tag b collection_tag_hash) (write_batch (flush_operations v) s1)
    (collection_hash v) (collection_hash v) (collection_contents_hash M) (collection_contents_hash M).
Proof.
  intros Hr [Hs1 Hstart]. destruct (cr_base _ _ _ _ _ Hr) as [Hb Hwf].
  eapply (flush_hash_ok _ s _ _ (collection_stored_hash v)); [by eapply cr_hash| |].
  2: { rewrite lookup_write_batch by (done || by eapply below_wf, flush_operations_below).
       unfold flush_operations. rewrite Hb, batch_effect_app, (entries_effect_hash b s v M0 M Hr).
       by destruct (batch_effect _ _). }
  destruct (collection_was_cleared v); [left|right; symmetry]; apply Hstart, base_tag_below.
Qed.

(** The store from which the entries are written. *)
Lemma flush_start_ok b s v M0 M s1 :
  collection_represents b s v M0 M -> store_wf s1 ->
  same_below b s s1 \/ collection_was_cleared v = true ->
  flush_start b s v (write_batch
    (if collection_was_cleared v then [DeletePrefix (collection_base_key v)] else []) s1).
Proof.
  intros Hr Hs1 Hor. destruct (cr_base _ _ _ _ _ Hr) as [-> Hwf]. unfold flush_start.
  destruct (collection_was_cleared v).
  - assert (Forall (operation_below b) [DeletePrefix b]) as Hops by by constructor.
    split; [by eapply write_below_wf|]. intros k Hk.
    rewrite lookup_write_batch by (done || by eapply below_wf). simpl. by rewrite decide_True.
  - split; [done|]. by destruct Hor.
Qed.

(** *** Hashing *)

Lemma hash_loop b s M0 M keys : forall v input,
  store_wf s -> collection_represents b s v M0 M -> Forall (fun k => is_Some (M !! k)) keys ->
  exists v', for_each (hash_entry s) keys (input, v) =
      Ok (input ++ (keys ≫= fun k => k ++ contents_hash (default default_contents (M !! k))), v') /\
    collection_represents b s v' M0 M /\ collection_was_cleared v' = collection_was_cleared v.
Proof.
  induction keys as [|k keys IH]; intros v input Hs Hr Hkeys; csimpl.
  { exists v. by rewrite app_nil_r. }
  apply Forall_cons in Hkeys as [[a Ha] Hkeys].
  assert (index_bytes k) as Hk by (eapply cr_indices; [done|by exists a]).
  destruct (load_entry_ok _ _ _ _ _ _ Hr Hk) as (w & Hload & Hw & Hc).
  destruct (hash_represents _ _ _ _ _ Hs Hw) as (w' & Hhash & Hw' & Hc').
  rewrite Ha in *. simpl in Hhash, Hw', Hw.
  destruct (IH (set_updates (<[k := UpdateSet w']> (collection_updates v)) None v)
    (input ++ k ++ contents_hash a)) as (v' & Hrun & Hr' & Hwc); [done| |done|].
  { eapply set_entry_ok; [done|done|symmetry; by apply insert_id|done|by auto|by left]. }
  exists v'. split_and!; [|done|done]. unfold hash_entry at 1. rewrite Hload. simpl.
  rewrite Hhash. simpl. etrans; [exact Hrun|]. by rewrite <- !(assoc_L (++)).
Qed.

Lemma entries_input (M : gmap bytes A) :
  ((range_entries all M).*1 ≫= fun k => k ++ contents_hash (default default_contents (M !! k))) =
  range_entries all M ≫= fun '(k, a) => k ++ contents_hash a.
Proof.
  assert (forall k a, (k, a) ∈ range_entries all M -> M !! k = Some a) as Hin
    by by intros k a ?%elem_of_entries.
  induction (range_entries all M) as [|[k a] l IH]; [done|]. csimpl.
  rewrite IH by (intros; apply Hin; by right). by rewrite (Hin k a) by by left.
Qed.

Lemma collection_hash_ok b s v M0 M :
  store_wf s -> collection_represents b s v M0 M ->
  exists v', collection_hash_mut s v = Ok (collection_contents_hash M, v') /\
    collection_represents b s v' M0 M /\ (collection_was_cleared v = true -> collection_was_cleared v' = true).
Proof.
  intros Hs Hr. unfold collection_hash_mut. destruct (collection_hash v) as [hash|] eqn:Hh.
  { exists v. split_and!; [|done|done]. f_equal. f_equal.
    by eapply (hash_of_current _ _ _ _ _ _ (cr_hash _ _ _ _ _ Hr)). }
  rewrite (collection_keys_exact b s v M0 M Hs Hr).
  destruct (hash_loop b s M0 M (range_entries all M).*1 v (to_bytes (length (range_entries all M).*1)))
    as (v' & -> & Hr' & Hwc); [done|done| |].
  { apply Forall_fmap, Forall_forall. intros [k a] Ha%elem_of_entries. by exists a. }
  simpl. rewrite length_fmap, entries_input. eexists. split; [done|].
  split; [|simpl; by rewrite Hwc]. destruct Hr' as [Hb Hsv Hu He [Hst1 Hst2 _]]. split; try done.
  split; try done. simpl. by intros x [= <-].
Qed.

Lemma entries_saved_local b s s' M : same_below b s s' -> entries_saved b s M -> entries_saved b s' M.
Proof.
  intros Hsame [Hi Hp Hsv]. split; [done| |].
  - intros k. by rewrite <- Hp, (Hsame (get_index_key b k)) by apply base_tag_index_below.
  - intros k Hk. eapply saved_as_local; [by apply same_below_weaken|by apply Hsv].
Qed.

Lemma no_changes_ok b s v M0 stored :
  collection_base_key v = b -> bytes_wf b -> entries_saved b s M0 ->
  collection_was_cleared v = false -> collection_updates v = ∅ ->
  collection_stored_hash v = stored -> collection_hash v = stored ->
  hash_ok (base_tag b collection_tag_hash) s stored stored (collection_contents_hash M0)
    (collection_contents_hash M0) ->
  collection_represents b s v M0 M0.
Proof.
  intros Hb Hwf Hsv Hc Hu Hst Hh Hok. split; [done|done| | |by rewrite Hst, Hh].
  - intros k. rewrite Hu, lookup_empty. by intros [? ?].
  - intros k. rewrite Hu, lookup_empty. simpl. by rewrite Hc.
Qed.

Program Definition collection_laws : ViewLaws (CollectionView W) (gmap bytes A) :=
  {| default_contents := ∅; contents_hash := collection_contents_hash;
     saved_as := collection_saved; represents := collection_represents;
     cleared v := collection_was_cleared v = true |}.
Next Obligation.
  intros b s s' M Hsame [Hsv Hh]. split; [by eapply entries_saved_local|].
  unfold hash_saved in *. by rewrite <- Hsame by apply base_tag_below.
Qed.
Next Obligation.
  intros b s s' v M0 M Hsame [Hb Hsv Hu He Hh].
  split; [done|by eapply entries_saved_local|done| |].
  - intros k. specialize (He k). destruct (collection_updates v !! k) as [[|w]|]; simpl in *; try done.
    destruct He as (a & HM & Hw & Hc). exists a. split_and!; [done| |done].
    eapply represents_local; [by apply same_below_weaken|done].
  - eapply hash_ok_local, Hh. apply Hsame, base_tag_below.
Qed.
Next Obligation.
  intros b s He. split; [split|].
  - intros k. rewrite lookup_empty. by intros [? ?].
  - intros k. rewrite lookup_empty, He by apply base_tag_index_below. split; by intros [? ?].
  - intros k _. rewrite lookup_empty. by apply saved_as_default, empty_below_weaken.
  - left. apply He, base_tag_below.
Qed.
Next Obligation.
  intros b s v M0 M Hr. split; [by eapply cr_saved|]. by eapply hash_ok_saved, cr_hash.
Qed.
Next Obligation.
  intros b s M Hb [Hsv Hh]. simpl. unfold collection_load.
  destruct (hash_load _ _ _ Hh) as (x & -> & Hok); [apply sha3_length|]. eexists. split; [done|].
  by eapply no_changes_ok.
Qed.
Next Obligation.
  intros b s v M0 M [[Hb Hwf] Hsv Hu He Hh].
  eapply no_changes_ok; [done..|by eapply hash_ok_clean].
Qed.
Next Obligation.
  intros b s v M0 M [Hb Hsv Hu He Hh]. split; [|done]. split; try done.
  - intros k. simpl. rewrite lookup_empty. by intros [? ?].
  - by eapply hash_ok_forget.
Qed.
Next Obligation. intros b s v M0 M. apply collection_hash_ok. Qed.
Next Obligation.
  intros batch v. apply injective_projections; [|done].
  change ((collection_flush batch v).1 = batch ++ (collection_flush [] v).1).
  by rewrite !collection_flush_eq.
Qed.
Next Obligation.
  intros b s v M0 M Hr. change (view_flush [] v) with (collection_flush [] v).
  rewrite collection_flush_eq. simpl.
  apply Forall_app_2; [|by eapply flush_operations_below].
  destruct (cr_base _ _ _ _ _ Hr) as [-> Hwf]. destruct (collection_was_cleared v); by constructor.
Qed.
Next Obligation.
  intros b s v M0 M Hs Hr. change (view_flush [] v) with (collection_flush [] v).
  rewrite collection_flush_eq. simpl. rewrite write_batch_app.
  assert (flush_start b s v (write_batch
    (if collection_was_cleared v then [DeletePrefix (collection_base_key v)] else []) s)) as Hstart
    by (eapply flush_start_ok; [done|done|by left]).
  destruct (cr_base _ _ _ _ _ Hr) as [Hb Hwf].
  eapply no_changes_ok; [done|done|by eapply flush_entries_saved|done..|by eapply flush_collection_hash].
Qed.
Next Obligation.
  intros b s v M0 M s' Hr Hc Hs' He. change (view_flush [] v) with (collection_flush [] v).
  rewrite collection_flush_eq. simpl. rewrite write_batch_app.
  assert (flush_start b s v (write_batch
    (if collection_was_cleared v then [DeletePrefix (collection_base_key v)] else []) s')) as Hstart
    by (eapply flush_start_ok; [done|done|by right]).
  split; [by eapply flush_entries_saved|]. by eapply hash_ok_saved, flush_collection_hash.
Qed.

(** Reading an absent entry keeps the hash.  [try_load_entry] creates an entry that is not
    there, but leaves the hash that was computed before: the collection lists the new index and
    still has the hash of the contents without it. *)
Theorem absent_entry_stale_hash b s v M0 M k :
  store_wf s -> collection_represents b s v M0 M -> index_bytes k -> M !! k = None ->
  exists v1 w v2, collection_hash_mut s v = Ok (collection_contents_hash M, v1) /\
    try_load_entry k v1 s = Ok (w, v2) /\
    collection_keys v2 s = (range_entries all (<[k := default_contents]> M)).*1 /\
    collection_hash_mut s v2 = Ok (collection_contents_hash M, v2).
Proof.
  intros Hs Hr Hk HM. destruct (collection_hash_ok b s v M0 M Hs Hr) as (v1 & Hh & Hr1 & _).
  assert (collection_hash v1 = Some (collection_contents_hash M)) as Hv1.
  { unfold collection_hash_mut in Hh. destruct (collection_hash v) as [x|] eqn:Hx.
    - by injection Hh as -> <-.
    - apply bind_Ok in Hh as ([input v'] & _ & [= Heq <-]). simpl. by rewrite Heq. }
  destruct (load_entry_ok _ _ _ _ _ k Hr1 Hk) as (w & Hl & Hw & Hc). exists v1, w. eexists.
  split; [done|]. unfold try_load_entry. rewrite Hl. simpl. split; [done|]. split.
  - transitivity (collection_keys
      (set_updates (<[k := UpdateSet w]> (collection_updates v1)) None v1) s); [done|].
    apply (collection_keys_exact b s _ M0); [done|]. rewrite HM in Hw.
    eapply set_entry_ok; [done|done|done|done|done|by left].
  - unfold collection_hash_mut. simpl. by rewrite Hv1.
Qed.

(** *** Many entries at once *)

(** The contents after some entries were loaded: those that were absent are there now. *)
Definition create_entries (ks : list bytes) (M : gmap bytes A) : gmap bytes A :=
  foldr (fun k => <[k := default default_contents (M !! k)]>) M ks.

Lemma lookup_create_entries ks M k :
  create_entries ks M !! k =
  if decide (k ∈ ks) then Some (default default_contents (M !! k)) else M !! k.
Proof.
  induction ks as [|j ks IH]; [by rewrite decide_False by apply not_elem_of_nil|].
  unfold create_entries in *. cbn [foldr].
  destruct (decide (j = k)) as [->|Hne].
  - rewrite lookup_insert_eq, decide_True; [done|by left].
  - rewrite lookup_insert_ne, IH by done. apply decide_ext. set_solver.
Qed.

Lemma lookup_insert_all {X} (f : bytes -> A) (l : list (bytes * X)) k : forall M : gmap bytes A,
  foldl (fun M e => <[e.1 := f e.1]> M) M l !! k = if decide (k ∈ l.*1) then Some (f k) else M !! k.
Proof.
  induction l as [|[j x] l IH]; intros M; [by rewrite decide_False by apply not_elem_of_nil|].
  cbn [foldl fst]. rewrite IH. case_decide as Hk; [by rewrite decide_True by (csimpl; set_solver)|].
  destruct (decide (j = k)) as [->|Hne].
  - rewrite lookup_insert_eq, decide_True; [done|]. csimpl. by left.
  - rewrite lookup_insert_ne, decide_False; [done| |done]. csimpl. set_solver.
Qed.

(** The entry is in memory. *)
Definition in_memory (v : CollectionView W) (k : bytes) : Prop :=
  exists w, collection_updates v !! k = Some (UpdateSet w).

Lemma loaded_insert v k w hash k' :
  in_memory v k' \/ k' = k ->
  in_memory (set_updates (<[k := UpdateSet w]> (collection_updates v)) hash v) k'.
Proof.
  unfold in_memory. simpl. destruct (decide (k = k')) as [->|Hne].
  - intros _. exists w. apply lookup_insert_eq.
  - intros [[w' Hw']| ->]; [|done]. exists w'. by rewrite lookup_insert_ne.
Qed.

Lemma insert_loaded_ok b s v M0 M M' l : forall v',
  collection_represents b s v M0 M -> collection_represents b s v' M0 M' ->
  collection_hash v' = None -> collection_was_cleared v' = collection_was_cleared v ->
  Forall (fun e => index_bytes e.1 /\ selected_short_key v e.1 = Some e) l ->
  exists v'', for_each (insert_loaded s) l v' = Ok v'' /\
    collection_represents b s v''
      M0 (foldl (fun M' e => <[e.1 := default default_contents (M !! e.1)]> M') M' l) /\
    collection_hash v'' = None /\ collection_was_cleared v'' = collection_was_cleared v /\
    (forall k, in_memory v' k \/ k ∈ l.*1 -> in_memory v'' k).
Proof.
  revert M'. induction l as [|[k clear] l IH]; intros M' v' Hr Hr' Hh Hwc Hl.
  { exists v'. split_and!; try done. intros k [?|?%not_elem_of_nil]; done. }
  apply Forall_cons in Hl as [[Hk Hsel] Hl]. cbn [fst snd] in Hk, Hsel.
  destruct (load_subview_ok _ _ _ _ _ k clear Hr' Hk) as (w & Hw & Hrw & Hc).
  assert (insert_loaded s (k, clear) v' =
    Ok (set_updates (<[k := UpdateSet w]> (collection_updates v')) (collection_hash v') v')) as Hstep
    by (unfold insert_loaded; cbn [fst snd]; by rewrite Hw).
  assert ((if clear then default_contents else default default_contents (M0 !! k)) =
    default default_contents (M !! k) /\ (collection_was_cleared v = true -> clear = true))
    as [Heq Hclear].
  { pose proof (cr_entries _ _ _ _ _ Hr k) as He. unfold selected_short_key in Hsel.
    destruct (collection_updates v !! k) as [[|w']|]; simplify_eq/=; rewrite He; [done|].
    by destruct (collection_was_cleared v). }
  cbn [for_each foldl]. rewrite Hstep. cbn [mbind result_bind fst].
  destruct (IH (<[k := default default_contents (M !! k)]> M')
    (set_updates (<[k := UpdateSet w]> (collection_updates v')) (collection_hash v') v'))
    as (v'' & Hrun & Hr'' & Hh'' & Hwc'' & Hloaded); [done| |exact Hh|exact Hwc|done|].
  { rewrite Heq in Hrw. eapply set_entry_ok; [done|done|done|done| |by left]. rewrite Hwc. auto. }
  exists v''. split_and!; [done..|]. intros k' Hk'. apply Hloaded.
  csimpl in Hk'. destruct Hk' as [?|[->|?]%elem_of_cons].
  - left. apply loaded_insert. by left.
  - left. apply loaded_insert. by right.
  - by right.
Qed.

Lemma load_entries_ok b s v M0 M ks :
  collection_represents b s v M0 M -> collection_hash v = None -> Forall index_bytes ks ->
  exists v', load_entries ks v s = Ok v' /\
    collection_represents b s v' M0 (create_entries ks M) /\ collection_hash v' = None /\
    (forall k, k ∈ ks -> in_memory v' k).
Proof.
  intros Hr Hh Hks. rewrite Forall_forall in Hks. unfold load_entries.
  destruct (insert_loaded_ok b s v M0 M M (omap (selected_short_key v) ks) v)
    as (v' & -> & Hr' & Hh' & _ & Hloaded); [done|done|done|done| |].
  { apply Forall_forall. intros [k clear] (k' & Hk' & Hsel)%list_elem_of_omap.
    assert (k' = k) as ->; [|by auto]. unfold selected_short_key in Hsel.
    destruct (collection_updates v !! k') as [[|w]|]; congruence. }
  assert (forall k, k ∈ (omap (selected_short_key v) ks).*1 <-> k ∈ ks /\ ~ in_memory v k) as Hsel.
  { intros k. rewrite list_elem_of_fmap. setoid_rewrite list_elem_of_omap.
    unfold selected_short_key, in_memory. split.
    - intros ([k' clear] & -> & k'' & Hk'' & Hs).
      destruct (collection_updates v !! k'') as [[|w]|] eqn:Hu; simplify_eq/=; rewrite Hu; naive_solver.
    - intros [Hk Hn]. destruct (collection_updates v !! k) as [[|w]|] eqn:Hu;
        [exists (k, true)|by destruct Hn; exists w|exists (k, collection_was_cleared v)];
        (split; [done|]); exists k; by rewrite Hu. }
  exists v'. split_and!; [done| |done|].
  - assert (create_entries ks M = foldl (fun M' e => <[e.1 := default default_contents (M !! e.1)]> M')
      M (omap (selected_short_key v) ks)) as ->; [|done].
    apply map_eq. intros k. rewrite lookup_create_entries.
    rewrite (lookup_insert_all (fun k => default default_contents (M !! k))).
    destruct (decide (k ∈ ks)) as [Hk|Hk]; [|by rewrite decide_False by (rewrite Hsel; tauto)].
    destruct (decide _) as [Hs|Hs]; [done|]. rewrite Hsel in Hs.
    pose proof (cr_entries _ _ _ _ _ Hr k) as He. unfold in_memory in Hs.
    destruct (collection_updates v !! k) as [[|w]|]; [|by destruct He as (a & -> & _)|];
      destruct Hs; (split; [done|by intros [? ?]]).
  - intros k Hk. apply Hloaded. destruct (collection_updates v !! k) as [[|w]|] eqn:Hu.
    2: left; by exists w.
    all: right; apply Hsel; (split; [done|]); intros [w Hw]; congruence.
Qed.

(** *** Histories of a collection *)

Section operations.
Context {Op : Type} (run : Op -> Store -> W -> result ViewError W) (effect : Op -> A -> A).
Context (run_ok : forall op b s w a0 a, represents b s w a0 a ->
  exists w', run op s w = Ok w' /\ represents b s w' a0 (effect op a) /\ (cleared w -> cleared w')).

Inductive CollectionOp :=
| UpdateEntry (index : I) (op : Op)
| ResetEntry (index : I)
| RemoveEntry (index : I).

(** [ReentrantCollectionView]: the operations with the serialized index. *)
Definition collection_run (op : CollectionOp) (store : Store) (self : CollectionView W)
    : result ViewError (CollectionView W) :=
  match op with
  | UpdateEntry index op => try_load_entry_mut (to_bytes index) (run op store) self store
  | ResetEntry index => try_reset_entry_to_default (to_bytes index) self store
  | RemoveEntry index => Ok (remove_entry (to_bytes index) self)
  end.

Definition update_contents (M : gmap bytes A) (entry : bytes * Op) : gmap bytes A :=
  <[entry.1 := effect entry.2 (default default_contents (M !! entry.1))]> M.
Definition collection_effect (op : CollectionOp) (M : gmap bytes A) : gmap bytes A :=
  match op with
  | UpdateEntry index op => update_contents M (to_bytes index, op)
  | ResetEntry index => <[to_bytes index := default_contents]> M
  | RemoveEntry index => delete (to_bytes index) M
  end.

Lemma collection_run_ok op b s v M0 M :
  collection_represents b s v M0 M ->
  exists v', collection_run op s v = Ok v' /\
    collection_represents b s v' M0 (collection_effect op M).
Proof.
  intros Hr. destruct op as [i op|i|i]; simpl.
  - apply load_entry_mut_ok; [done|by exists i|]. intros w Hw. by apply run_ok.
  - apply load_entry_mut_ok; [done|by exists i|]. intros w Hw.
    apply clear_represents in Hw as [Hw Hc]. by exists (view_clear w).
  - eexists. split; [done|]. apply remove_entry_ok; [done|by exists i].
Qed.


Lemma change_loop b s M0 (changes : list (bytes * Op)) : forall v M,
  collection_represents b s v M0 M -> collection_hash v = None ->
  (forall k, k ∈ changes.*1 -> in_memory v k) ->
  exists v', for_each change_entry ((fun c => (c.1, run c.2 s)) <$> changes) v = Ok v' /\
    collection_represents b s v' M0 (foldl update_contents M changes).
Proof.
  induction changes as [|[k op] changes IH]; intros v M Hr Hh Hl; [by exists v|].
  destruct (Hl k) as [w Hw]; [csimpl; by left|].
  pose proof (cr_entries _ _ _ _ _ Hr k) as He. rewrite Hw in He.
  destruct He as (a & Ha & Hrw & Hc). destruct (run_ok op _ _ _ _ _ Hrw) as (w' & Hrun & Hrw' & Hc').
  assert (change_entry (k, run op s) v =
    Ok (set_updates (<[k := UpdateSet w']> (collection_updates v)) (collection_hash v) v)) as Hstep.
  { unfold change_entry, loaded_view. cbn [fst snd]. rewrite Hw. simpl. by rewrite Hrun. }
  csimpl. rewrite Hstep. simpl. apply IH; [|done|].
  - eapply set_entry_ok; [done| | |exact Hrw'|by auto|by left].
    + eapply cr_indices; [done|by exists a].
    + unfold update_contents. cbn [fst snd]. by rewrite Ha.
  - intros k' Hk'. apply loaded_insert. left. apply Hl. csimpl. by right.
Qed.

(** Changing entries that were created first makes no difference. *)
Lemma update_created (changes : list (bytes * Op)) : forall M1 M2 : gmap bytes A,
  (forall k, k ∉ changes.*1 -> M1 !! k = M2 !! k) ->
  (forall k, default default_contents (M1 !! k) = default default_contents (M2 !! k)) ->
  foldl update_contents M1 changes = foldl update_contents M2 changes.
Proof.
  induction changes as [|[k op] changes IH]; intros M1 M2 Hout Hdef; csimpl.
  { apply map_eq. intros k. apply Hout. apply not_elem_of_nil. }
  unfold update_contents at 2 4. cbn [fst snd]. rewrite Hdef. apply IH.
  - intros k' Hk'. destruct (decide (k' = k)) as [->|Hne]; [by rewrite !lookup_insert_eq|].
    rewrite !lookup_insert_ne by done. apply Hout. csimpl. set_solver.
  - intros k'. destruct (decide (k' = k)) as [->|Hne]; [by rewrite !lookup_insert_eq|].
    by rewrite !lookup_insert_ne.
Qed.

Lemma foldl_fmap {X Y Z} (f : Z -> Y -> Z) (g : X -> Y) (l : list X) : forall z,
  foldl f z (g <$> l) = foldl (fun z x => f z (g x)) z l.
Proof. induction l as [|x l IH]; intros z; csimpl; [done|apply IH]. Qed.

(** Many entries at once.  [collection_load_entries_mut] with distinct indices gives the entries that
    loading them one after the other gives; it fails when an index is repeated. *)
Theorem load_entries_mut_spec b s v M0 M (changes : list (I * Op)) :
  collection_represents b s v M0 M ->
  let requests := (fun c => (to_bytes c.1, run c.2 s)) <$> changes in
  (NoDup changes.*1 -> exists v', collection_load_entries_mut requests v s = Ok v' /\
     collection_represents b s v' M0
       (foldl (fun M c => update_contents M (to_bytes c.1, c.2)) M changes)) /\
  (~ NoDup changes.*1 -> collection_load_entries_mut requests v s = Err ViewTryLockError).
Proof.
  intros Hr requests.
  assert (requests = (fun c => (c.1, run c.2 s)) <$> (prod_map to_bytes id <$> changes)) as Hreq
    by (unfold requests; by rewrite <- list_fmap_compose).
  assert (requests.*1 = to_bytes <$> changes.*1) as Hkeys
    by (unfold requests; by rewrite <- !list_fmap_compose).
  assert ((prod_map to_bytes id <$> changes).*1 = to_bytes <$> changes.*1) as Hkeys'
    by by rewrite <- !list_fmap_compose.
  assert (NoDup requests.*1 <-> NoDup changes.*1) as Hnd.
  { rewrite Hkeys. split; [apply NoDup_fmap_1|]. apply NoDup_fmap_2. intros ? ?. apply to_bytes_inj. }
  destruct (load_entries_ok b s (set_updates (collection_updates v) None v) M0 M requests.*1)
    as (v1 & Hload & Hr1 & Hh1 & Hl1); [|done| |].
  { destruct Hr as [Hb Hsv Hu He Hh]. split; try done. by eapply hash_ok_forget. }
  { rewrite Hkeys. apply Forall_fmap, Forall_forall. intros i _. by exists i. }
  unfold collection_load_entries_mut. rewrite Hload. simpl. split; intros Hdup.
  - rewrite bool_decide_true by by apply Hnd. simpl. rewrite Hreq.
    destruct (change_loop b s M0 (prod_map to_bytes id <$> changes) v1 _ Hr1 Hh1)
      as (v' & -> & Hr'). { intros k. rewrite Hkeys', <- Hkeys. apply Hl1. }
    exists v'. split; [done|]. rewrite (update_created _ _ M) in Hr'.
    + by rewrite foldl_fmap in Hr'.
    + intros k Hk. rewrite lookup_create_entries, decide_False; [done|]. congruence.
    + intros k. rewrite lookup_create_entries. by case_decide.
  - by rewrite bool_decide_false by by rewrite Hnd.
Qed.

End operations.
End collection.

(** ** Examples *)

Module CollectionExamples.
Import ViewExamples.

#[export] Instance bool_serde : Serde bool :=
  {| to_bytes (x : bool) := [if x then 1 else 0];
     from_bytes bytes := match bytes with [byte] => Some (byte =? 1) | _ => None end |}.
#[export] Instance bool_serde_laws : SerdeLaws bool.
Proof. split; intros []; by repeat constructor. Qed.
#[export] Instance bool_prefix_free : PrefixFree bool.
Proof. split. intros [] [] [r Hr]; done || discriminate Hr. Qed.
#[export] Instance nat_default : HasDefault nat := {| default_value := 0%nat |}.

Definition collection_steps : list (ViewStep (CollectionOp (I := bool) (Op := nat -> nat))) :=
  [StepOp (UpdateEntry true (fun _ => 3%nat)); StepOp (UpdateEntry false (fun n => n + 1)%nat);
   StepHash; StepSave; StepOp (UpdateEntry false (fun n => n + 1)%nat); StepOp (RemoveEntry true);
   StepSave; StepReload; StepOp (ResetEntry true)].


(** Indices that are prefixes of each other.  The entries [[0]] and [[0; 1]] are saved with the
    values 3 and 4.  Then [[0]] is removed: the keys of the other subview are deleted with it, and
    its value is lost, although its index is still listed. *)
Theorem subviews_overlap :
  exists (v0 v1 : CollectionView (RegisterView nat)) s1 v2 s2 v3 w v4,
    collection_load base ∅ = Ok v0 /\
    collection_load_entries_mut [([0], register_run (fun _ => 3%nat) ∅); ([0; 1], register_run (fun _ => 4%nat) ∅)]
      v0 ∅ = Ok v1 /\
    write_batch (collection_flush [] v1).1 ∅ = s1 /\ (collection_flush [] v1).2 = v2 /\
    write_batch (collection_flush [] (remove_entry [0] v2)).1 s1 = s2 /\
    collection_load base s2 = Ok v3 /\ collection_keys v3 s2 = [[0; 1]] /\
    try_load_entry [0; 1] v3 s2 = Ok (w, v4) /\ register_get w = 0%nat.
Proof.
  eexists _, _, _, _, _, _, _, _. split_and!.
  - reflexivity.
  - reflexivity.
  - reflexivity.
  - reflexivity.
  - reflexivity.
  - vm_compute. reflexivity.
  - vm_compute. reflexivity.
  - vm_compute. reflexivity.
  - reflexivity.
Qed.

End CollectionExamples.
