(* ===== verification/Clients.v ===== *)
(** * Clients of key-value stores

    The trait [KeyValueStoreClient] of [linera-views/src/common.rs], as a class of operations on
    the state of a client, and what it promises: [ClientLaws] relates the state to a map, and the
    operations to those of the map, for the keys, prefixes, values and base keys of journals that
    the client can handle.  The client in memory ([linera-views/src/memory.rs]) is an instance.
    Other clients wrap a client: they are functors on this interface. *)

From S2P Require Import Prelude Types Batches KeyValueStore.

(** The errors of the clients: [MemoryContextError], [DatabaseConsistencyError] and
    [DynamoDbContextError], without those of the network. *)
Inductive ClientError :=
| ClientBcsError
| TooLargeValue
| TooShortKey
| MissingSegment
| NoCountAvailable
| ZeroLengthKey
| ZeroLengthKeyPrefix
| KeyTooLong
| KeyPrefixTooLong
| ValueLengthTooLarge
| TransactUpperLimitSize
| DatabaseRecoveryFailed
| ServiceError.

Class KeyValueStoreClient (C : Type) := {
  MAX_VALUE_SIZE : Z;
  client_read_key : bytes -> C -> result ClientError (option bytes * C);
  client_read_multi_key : list bytes -> C -> result ClientError (list (option bytes) * C);
  client_find_keys : bytes -> C -> result ClientError (list bytes);
  client_find_key_values : bytes -> C -> result ClientError (list (bytes * bytes));
  client_write_batch : Batch -> bytes -> C -> result ClientError C;
  client_clear_journal : bytes -> C -> result ClientError C;
}.
#[global] Hint Mode KeyValueStoreClient ! : typeclass_instances.
Arguments MAX_VALUE_SIZE C {_}.

(** What a client can handle. *)
Record Domain := {
  ok_key : bytes -> Prop;
  ok_prefix : bytes -> Prop;
  ok_value : bytes -> Prop;
  ok_base_key : bytes -> Prop;
}.
Definition ok_operation (D : Domain) (operation : WriteOperation) : Prop :=
  match operation with
  | Put key value => ok_key D key /\ ok_value D value
  | Delete key => ok_key D key
  | DeletePrefix key_prefix => ok_prefix D key_prefix
  end.
(** The keys and values of a map. *)
Definition ok_map (D : Domain) (m : Store) : Prop :=
  map_Forall (fun k v => ok_key D k /\ ok_value D v) m.

Class ClientLaws (C : Type) `{KeyValueStoreClient C} := {
  domain : Domain;
  holds : C -> Store -> Prop;
  ok_key_wf k : ok_key domain k -> bytes_wf k;
  ok_prefix_wf p : ok_prefix domain p -> bytes_wf p;
  holds_ok c m : holds c m -> ok_map domain m;
  read_key_holds key c m :
    ok_key domain key -> holds c m ->
    exists c', client_read_key key c = Ok (m !! key, c') /\ holds c' m;
  read_multi_key_holds keys c m :
    Forall (ok_key domain) keys -> holds c m ->
    exists c', client_read_multi_key keys c = Ok ((fun key => m !! key) <$> keys, c') /\ holds c' m;
  find_keys_holds p c m :
    ok_prefix domain p -> holds c m -> client_find_keys p c = Ok (find_keys_by_prefix p m);
  find_key_values_holds p c m :
    ok_prefix domain p -> holds c m ->
    client_find_key_values p c = Ok (find_key_values_by_prefix p m);
  write_batch_holds batch b c m :
    Forall (ok_operation domain) batch -> ok_base_key domain b -> holds c m ->
    exists c', client_write_batch batch b c = Ok c' /\ holds c' (write_batch batch m);
  clear_journal_holds b c m :
    ok_base_key domain b -> holds c m ->
    exists c', client_clear_journal b c = Ok c' /\ holds c' m;
}.
#[global] Hint Mode ClientLaws ! - : typeclass_instances.
Arguments domain C {_ _}.

Lemma ok_map_wf `{ClientLaws C} m : ok_map (domain C) m -> store_wf m.
Proof. intros Hm k v Hk. apply (ok_key_wf (C := C)). by destruct (Hm k v Hk). Qed.

Lemma ok_map_write (D : Domain) batch : forall m,
  Forall (ok_operation D) batch -> ok_map D m -> ok_map D (write_batch batch m).
Proof.
  induction batch as [|o batch IH]; intros m Hops Hm; [done|].
  apply Forall_cons in Hops as [Ho Hops]. apply IH; [done|]. destruct o as [key|p|key value]; simpl in *.
  - by apply map_Forall_delete.
  - unfold remove_keys. generalize (range_keys (get_interval p) m) as keys. intros keys.
    revert m Hm. induction keys as [|k keys IHk]; intros m Hm; simpl; [done|].
    by apply IHk, map_Forall_delete.
  - by apply map_Forall_insert_2.
Qed.

(** ** Histories of a client *)

Inductive ClientRequest :=
| ReadKey (key : bytes)
| ReadMultiKey (keys : list bytes)
| FindKeys (key_prefix : bytes)
| FindKeyValues (key_prefix : bytes)
| WriteBatch (batch : Batch) (base_key : bytes)
| ClearJournal (base_key : bytes).

Inductive ClientAnswer :=
| AnswerKey (value : option bytes)
| AnswerMultiKey (values : list (option bytes))
| AnswerKeys (keys : list bytes)
| AnswerKeyValues (key_values : list (bytes * bytes))
| AnswerDone.

Definition ok_request (D : Domain) (request : ClientRequest) : Prop :=
  match request with
  | ReadKey key => ok_key D key
  | ReadMultiKey keys => Forall (ok_key D) keys
  | FindKeys p | FindKeyValues p => ok_prefix D p
  | WriteBatch batch b => Forall (ok_operation D) batch /\ ok_base_key D b
  | ClearJournal b => ok_base_key D b
  end.

(** The answers of a map, and the map afterwards. *)
Definition map_answer (request : ClientRequest) (m : Store) : ClientAnswer * Store :=
  match request with
  | ReadKey key => (AnswerKey (m !! key), m)
  | ReadMultiKey keys => (AnswerMultiKey ((fun key => m !! key) <$> keys), m)
  | FindKeys p => (AnswerKeys (find_keys_by_prefix p m), m)
  | FindKeyValues p => (AnswerKeyValues (find_key_values_by_prefix p m), m)
  | WriteBatch batch _ => (AnswerDone, write_batch batch m)
  | ClearJournal _ => (AnswerDone, m)
  end.

Section client_history.
Context {C : Type} `{ClientLaws C}.

Definition client_answer (request : ClientRequest) (c : C) : result ClientError (ClientAnswer * C) :=
  match request with
  | ReadKey key => '(value, c) ← client_read_key key c; Ok (AnswerKey value, c)
  | ReadMultiKey keys => '(values, c) ← client_read_multi_key keys c; Ok (AnswerMultiKey values, c)
  | FindKeys p => keys ← client_find_keys p c; Ok (AnswerKeys keys, c)
  | FindKeyValues p => key_values ← client_find_key_values p c; Ok (AnswerKeyValues key_values, c)
  | WriteBatch batch b => c ← client_write_batch batch b c; Ok (AnswerDone, c)
  | ClearJournal b => c ← client_clear_journal b c; Ok (AnswerDone, c)
  end.

Fixpoint client_answers (requests : list ClientRequest) (c : C)
    : result ClientError (list ClientAnswer * C) :=
  match requests with
  | [] => Ok ([], c)
  | request :: requests =>
      '(answer, c) ← client_answer request c;
      '(answers, c) ← client_answers requests c;
      Ok (answer :: answers, c)
  end.
Fixpoint map_answers (requests : list ClientRequest) (m : Store) : list ClientAnswer * Store :=
  match requests with
  | [] => ([], m)
  | request :: requests =>
      let '(answer, m) := map_answer request m in
      let '(answers, m) := map_answers requests m in
      (answer :: answers, m)
  end.

Lemma client_answer_ok request c m :
  ok_request (domain C) request -> holds c m ->
  exists c', client_answer request c = Ok ((map_answer request m).1, c') /\
    holds c' (map_answer request m).2.
Proof.
  intros Hok Hc. destruct request; simpl in *.
  - destruct (read_key_holds _ _ _ Hok Hc) as (c' & -> & Hc'). by exists c'.
  - destruct (read_multi_key_holds _ _ _ Hok Hc) as (c' & -> & Hc'). by exists c'.
  - rewrite (find_keys_holds _ _ _ Hok Hc). by exists c.
  - rewrite (find_key_values_holds _ _ _ Hok Hc). by exists c.
  - destruct Hok as [Hok Hb].
    destruct (write_batch_holds _ _ _ _ Hok Hb Hc) as (c' & -> & Hc'). by exists c'.
  - destruct (clear_journal_holds _ _ _ Hok Hc) as (c' & -> & Hc'). by exists c'.
Qed.

(** A client answers every sequence of requests as a map does. *)
Lemma client_answers_ok requests : forall c m,
  Forall (ok_request (domain C)) requests -> holds c m ->
  exists c', client_answers requests c = Ok ((map_answers requests m).1, c') /\
    holds c' (map_answers requests m).2.
Proof.
  induction requests as [|request requests IH]; intros c m Hok Hc; simpl; [by exists c|].
  apply Forall_cons in Hok as [Hr Hok].
  destruct (client_answer_ok request c m Hr Hc) as (c1 & -> & Hc1). simpl.
  destruct (map_answer request m) as [answer m1]. simpl in *.
  destruct (IH c1 m1 Hok Hc1) as (c2 & -> & Hc2). simpl.
  destruct (map_answers requests m1) as [answers m2]. by exists c2.
Qed.

End client_history.

(** ** The client in memory *)

Record MemoryClient := { client_map : Store }.

#[export] Instance memory_client : KeyValueStoreClient MemoryClient :=
  {| MAX_VALUE_SIZE := u64_MAX;
     client_read_key key c := Ok (read_key_bytes key (client_map c), c);
     client_read_multi_key keys c := Ok ((fun key => client_map c !! key) <$> keys, c);
     client_find_keys p c := Ok (find_keys_by_prefix p (client_map c));
     client_find_key_values p c := Ok (find_key_values_by_prefix p (client_map c));
     client_write_batch batch _ c := Ok {| client_map := write_batch batch (client_map c) |};
     client_clear_journal _ c := Ok c |}.

#[export] Program Instance memory_client_laws : ClientLaws MemoryClient :=
  {| domain := {| ok_key := bytes_wf; ok_prefix := bytes_wf; ok_value _ := True;
                  ok_base_key _ := True |};
     holds c m := client_map c = m /\ store_wf m |}.
Next Obligation. done. Qed.
Next Obligation. done. Qed.
Next Obligation. intros c m [_ Hm] k v Hk. split; [by eapply Hm|done]. Qed.
Next Obligation. intros key c m _ [<- Hm]. by exists c. Qed.
Next Obligation. intros keys c m _ [<- Hm]. by exists c. Qed.
Next Obligation. by intros p c m _ [<- Hm]. Qed.
Next Obligation. by intros p c m _ [<- Hm]. Qed.
Next Obligation.
  intros batch b c m Hops _ [<- Hm]. eexists. split; [done|]. split; [done|]. simpl.
  set (D := {| ok_key := bytes_wf; ok_prefix := bytes_wf; ok_value _ := True; ok_base_key _ := True |}).
  assert (ok_map D (write_batch batch (client_map c))) as Hok.
  { apply ok_map_write; [done|]. intros k v Hk. split; [by eapply Hm|done]. }
  intros k v Hk. by destruct (Hok k v Hk).
Qed.
Next Obligation. intros b c m _ [<- Hm]. by exists c. Qed.
