(* ===== verification/Splitting.v ===== *)
(** * Stores with large values

    [linera-views/src/value_splitting.rs]: a client that wraps a client with a limit on the size
    of values, and cuts larger values into segments.  The segment [i] of the value of a key is
    stored below the key followed by [i] in four bytes, the first of them with the number of
    segments in front.

    An index takes the same place as the next bytes of a longer key.  So the client implements
    a map only for keys that do not continue each other with a byte 0, such as those of views,
    whose tags are not 0 ([splitting_laws]); what happens otherwise is at the end of the file. *)

From S2P Require Import Prelude Types Batches KeyValueStore Clients.

(** ** Indices and counts: BCS of a [u32], with the bytes reversed *)

Definition be_bytes32 (x : Z) : bytes := reverse (le_bytes32 x).
Definition from_le_bytes32 (bytes : bytes) : option Z :=
  match bytes with
  | [b0; b1; b2; b3] => Some (b0 + 2 ^ 8 * b1 + 2 ^ 16 * b2 + 2 ^ 24 * b3)
  | _ => None
  end.

Definition read_count_from_value (value : bytes) : result ClientError Z :=
  if (length value <? 4)%nat then Err NoCountAvailable
  else ok_or (from_le_bytes32 (reverse (take 4 value))) ClientBcsError.

Definition get_segment_key (key : bytes) (index : Z) : bytes := key ++ be_bytes32 index.

Definition read_index_from_key (key : bytes) : result ClientError Z :=
  let len := length key in
  if (len <? 4)%nat then Err TooShortKey
  else ok_or (from_le_bytes32 (reverse (drop (len - 4) key))) ClientBcsError.

Definition get_initial_count_first_chunk (count : Z) (first_chunk : bytes) : bytes :=
  be_bytes32 count ++ first_chunk.

Definition zero_key (key : bytes) : bytes := key ++ [0; 0; 0; 0].

(** [slice::chunks]. *)
Fixpoint chunks_loop (fuel size : nat) (l : bytes) : list bytes :=
  match fuel, l with
  | S fuel, _ :: _ => take size l :: chunks_loop fuel size (drop size l)
  | _, _ => []
  end.
Definition chunks (size : nat) (l : bytes) : list bytes := chunks_loop (length l) size l.

(** The segments after the first one: [1..count]. *)
Definition other_segments (key : bytes) (count : Z) : list bytes :=
  get_segment_key key <$> seqZ 1 (count - 1).

(** The loop over the segments of [read_key_bytes]. *)
Definition extend_segment (segment : option bytes) (big_value : bytes) : result ClientError bytes :=
  match segment with None => Err MissingSegment | Some segment => Ok (big_value ++ segment) end.

(** The first loop of [read_multi_key_bytes]. *)
Definition first_segment (entry : bytes * option bytes)
    (state : list (option bytes) * list bytes * list Z)
    : result ClientError (list (option bytes) * list bytes * list Z) :=
  let '(key, value) := entry in
  let '(big_values, keys_add, n_blocks) := state in
  match value with
  | None => Ok (big_values ++ [None], keys_add, n_blocks ++ [0])
  | Some value =>
      count ← read_count_from_value value;
      Ok (big_values ++ [Some (drop 4 value)], keys_add ++ other_segments key count,
          n_blocks ++ [count])
  end.

(** [for _ in 1..count] of its second loop: [segments.next().unwrap().unwrap()]. *)
Fixpoint take_segments (n : nat) (value : bytes) (segments : list (option bytes))
    : result ClientError (bytes * list (option bytes)) :=
  match n with
  | O => Ok (value, segments)
  | S n =>
      match segments with
      | Some segment :: segments => take_segments n (value ++ segment) segments
      | _ => Panic
      end
  end.
Fixpoint fill_values (n_blocks : list Z) (big_values : list (option bytes))
    (segments : list (option bytes)) : result ClientError (list (option bytes)) :=
  match n_blocks, big_values with
  | count :: n_blocks, value :: big_values =>
      '(value, segments) ←
        match value with
        | Some value =>
            if 1 <? count then
              '(value, segments) ← take_segments (Z.to_nat (count - 1)) value segments;
              Ok (Some value, segments)
            else Ok (Some value, segments)
        | None => Ok (None, segments)
        end;
      values ← fill_values n_blocks big_values segments;
      Ok (value :: values)
  | _, _ => Ok []
  end.

(** The loop of [find_keys_by_prefix]. *)
Definition keep_first (big_key : bytes) (keys : list bytes) : result ClientError (list bytes) :=
  index ← read_index_from_key big_key;
  if index =? 0 then Ok (keys ++ [take (length big_key - 4) big_key]) else Ok keys.

(** [for idx in 1..count] of [find_key_values_by_prefix]. *)
Fixpoint join_segments (key : bytes) (idx : Z) (n : nat) (big_value : bytes)
    (entries : list (bytes * bytes)) : result ClientError (bytes * list (bytes * bytes)) :=
  match n with
  | O => Ok (big_value, entries)
  | S n =>
      match entries with
      | [] => Err MissingSegment
      | (big_key, value) :: entries =>
          index ← read_index_from_key big_key;
          ensure ((index =? idx) && bool_decide (key `prefix_of` big_key) &&
                  (length big_key =? length key + 4)%nat) MissingSegment;;
          join_segments key (idx + 1) n (big_value ++ value) entries
      end
  end.
(** Its outer loop; every round takes an entry. *)
Fixpoint join_entries (fuel : nat) (entries key_values : list (bytes * bytes))
    : result ClientError (list (bytes * bytes)) :=
  match fuel, entries with
  | S fuel, (big_key, value) :: entries =>
      index ← read_index_from_key big_key;
      if negb (index =? 0) then join_entries fuel entries key_values
      else
        let key := take (length big_key - 4) big_key in
        count ← read_count_from_value value;
        '(big_value, entries) ← join_segments key 1 (Z.to_nat (count - 1)) (drop 4 value) entries;
        join_entries fuel entries (key_values ++ [(key, big_value)])
  | _, _ => Ok key_values
  end.

(** The body of [write_batch]. *)
Definition split_operation (max_value_size : Z) (operation : WriteOperation) : Batch :=
  match operation with
  | Delete key => [Delete (zero_key key)]
  | Put key value =>
      let big_key := get_segment_key key 0 in
      if Z.of_nat (length value) <=? max_value_size - 4
      then [Put big_key (get_initial_count_first_chunk 1 value)]
      else
        let size := Z.to_nat (max_value_size - 4) in
        let value_chunks := chunks (Z.to_nat max_value_size) (drop size value) in
        imap (fun i chunk => Put (get_segment_key key (1 + Z.of_nat i)) chunk) value_chunks ++
        [Put big_key (get_initial_count_first_chunk (1 + Z.of_nat (length value_chunks))
                        (take size value))]
  | DeletePrefix key_prefix => [DeletePrefix key_prefix]
  end.

Record ValueSplittingClient (C : Type) := { split_client : C }.
Arguments split_client {C}.
Arguments Build_ValueSplittingClient {C}.

Section splitting.
Context {C : Type} `{KeyValueStoreClient C}.
Notation Build c := {| split_client := c |}.

Definition split_read_key (key : bytes) (self : ValueSplittingClient C)
    : result ClientError (option bytes * ValueSplittingClient C) :=
  '(value, client) ← client_read_key (zero_key key) (split_client self);
  match value with
  | None => Ok (None, Build client)
  | Some value =>
      count ← read_count_from_value value;
      let big_value := drop 4 value in
      if count =? 1 then Ok (Some big_value, Build client)
      else
        '(segments, client) ← client_read_multi_key (other_segments key count) client;
        big_value ← for_each extend_segment segments big_value;
        Ok (Some big_value, Build client)
  end.

Definition split_read_multi_key (keys : list bytes) (self : ValueSplittingClient C)
    : result ClientError (list (option bytes) * ValueSplittingClient C) :=
  '(values, client) ← client_read_multi_key (zero_key <$> keys) (split_client self);
  '(big_values, keys_add, n_blocks) ← for_each first_segment (zip keys values) ([], [], []);
  if bool_decide (keys_add = []) then Ok (big_values, Build client)
  else
    '(segments, client) ← client_read_multi_key keys_add client;
    big_values ← fill_values n_blocks big_values segments;
    Ok (big_values, Build client).

Definition split_find_keys (key_prefix : bytes) (self : ValueSplittingClient C)
    : result ClientError (list bytes) :=
  big_keys ← client_find_keys key_prefix (split_client self);
  for_each keep_first big_keys [].

Definition split_find_key_values (key_prefix : bytes) (self : ValueSplittingClient C)
    : result ClientError (list (bytes * bytes)) :=
  small_key_values ← client_find_key_values key_prefix (split_client self);
  join_entries (length small_key_values) small_key_values [].

Definition split_write_batch (batch : Batch) (base_key : bytes) (self : ValueSplittingClient C)
    : result ClientError (ValueSplittingClient C) :=
  let batch_new := batch ≫= split_operation (MAX_VALUE_SIZE C) in
  client ← client_write_batch batch_new base_key (split_client self);
  Ok (Build client).

Definition split_clear_journal (base_key : bytes) (self : ValueSplittingClient C)
    : result ClientError (ValueSplittingClient C) :=
  client ← client_clear_journal base_key (split_client self);
  Ok (Build client).

End splitting.

(** ** Keys of segments *)

(** Indices of segments have a first byte 0. *)
Definition MAX_SEGMENTS : Z := 2 ^ 24.

Lemma be_bytes32_eq x :
  be_bytes32 x = [(x / 2 ^ 24) mod 256; (x / 2 ^ 16) mod 256; (x / 2 ^ 8) mod 256; x mod 256].
Proof. done. Qed.

Lemma be_bytes32_length x : length (be_bytes32 x) = 4%nat.
Proof. done. Qed.

Lemma be_bytes32_wf x : bytes_wf (be_bytes32 x).
Proof.
  rewrite be_bytes32_eq.
  assert (forall y, in_range u8_MAX (y mod 256)) as Hb; [|by repeat constructor; apply Hb].
  intros y. pose proof (Z.mod_pos_bound y 256). unfold in_range, u8_MAX. lia.
Qed.

Lemma from_be_bytes32 x : 0 <= x <= u32_MAX -> from_le_bytes32 (reverse (be_bytes32 x)) = Some x.
Proof.
  unfold u32_MAX. intros Hx. unfold be_bytes32. rewrite reverse_involutive. unfold from_le_bytes32, le_bytes32.
  f_equal. change (2 ^ 8) with 256. change (2 ^ 16) with 65536. change (2 ^ 24) with 16777216.
  pose proof (Z.div_mod x 256). pose proof (Z.div_mod (x / 256) 256).
  pose proof (Z.div_mod (x / 65536) 256).
  assert (x / 65536 = x / 256 / 256) as Hd1 by (rewrite Z.div_div; [done|lia..]).
  assert (x / 16777216 = x / 65536 / 256) as Hd2 by (rewrite Z.div_div; [done|lia..]).
  rewrite (Z.mod_small (x / 16777216) 256); [lia|].
  split; [apply Z.div_pos; lia|]. apply Z.div_lt_upper_bound; lia.
Qed.

Lemma be_bytes32_small x :
  0 <= x < MAX_SEGMENTS -> exists rest, be_bytes32 x = 0 :: rest.
Proof.
  intros Hx. rewrite be_bytes32_eq. rewrite (Z.div_small x (2 ^ 24)) by done. by eexists.
Qed.

Lemma be_bytes32_inj x y :
  0 <= x <= u32_MAX -> 0 <= y <= u32_MAX -> be_bytes32 x = be_bytes32 y -> x = y.
Proof.
  intros Hx Hy Heq%(f_equal (from_le_bytes32 ∘ reverse)). simpl in Heq.
  change (from_le_bytes32 (reverse (be_bytes32 x)) = from_le_bytes32 (reverse (be_bytes32 y))) in Heq.
  rewrite !from_be_bytes32 in Heq by done. by injection Heq.
Qed.

Lemma be_bytes32_leb x y :
  0 <= x <= u32_MAX -> 0 <= y <= u32_MAX -> bytes_leb (be_bytes32 x) (be_bytes32 y) = (x <=? y).
Proof.
  unfold u32_MAX. intros Hx Hy. rewrite !be_bytes32_eq. cbn [bytes_leb].
  change (2 ^ 8) with 256. change (2 ^ 16) with 65536. change (2 ^ 24) with 16777216.
  assert (forall z, 0 <= z <= 2 ^ 32 - 1 -> (z / 16777216) mod 256 = z / 16777216) as Hhigh.
  { intros z Hz. apply Z.mod_small. split; [apply Z.div_pos; lia|]. apply Z.div_lt_upper_bound; lia. }
  rewrite !Hhigh by done.
  assert (forall z, z / 65536 = z / 256 / 256) as Hd1 by (intros; rewrite Z.div_div; [done|lia..]).
  assert (forall z, z / 16777216 = z / 65536 / 256) as Hd2 by (intros; rewrite Z.div_div; [done|lia..]).
  pose proof (Z.div_mod x 256). pose proof (Z.div_mod (x / 256) 256).
  pose proof (Z.div_mod (x / 65536) 256). pose proof (Z.div_mod y 256).
  pose proof (Z.div_mod (y / 256) 256). pose proof (Z.div_mod (y / 65536) 256).
  pose proof (Z.mod_pos_bound x 256). pose proof (Z.mod_pos_bound (x / 256) 256).
  pose proof (Z.mod_pos_bound (x / 65536) 256). pose proof (Z.mod_pos_bound y 256).
  pose proof (Z.mod_pos_bound (y / 256) 256). pose proof (Z.mod_pos_bound (y / 65536) 256).
  rewrite !Hd2, !Hd1 in *. lia.
Qed.

Lemma segment_key_inj k k' i j :
  0 <= i <= u32_MAX -> 0 <= j <= u32_MAX ->
  get_segment_key k i = get_segment_key k' j -> k = k' /\ i = j.
Proof.
  intros Hi Hj Heq. apply app_inj_2 in Heq as [-> Heq]; [|done]. split; [done|].
  by apply be_bytes32_inj.
Qed.

Lemma zero_key_segment k : zero_key k = get_segment_key k 0.
Proof. done. Qed.

Lemma read_index_segment k i :
  0 <= i <= u32_MAX -> read_index_from_key (get_segment_key k i) = Ok i.
Proof.
  intros Hi. unfold read_index_from_key, get_segment_key. rewrite length_app, be_bytes32_length.
  rewrite (proj2 (Nat.ltb_ge _ _)) by lia. replace (length k + 4 - 4)%nat with (length k) by lia.
  by rewrite drop_app_length, from_be_bytes32.
Qed.

Lemma take_segment_key k i : take (length (get_segment_key k i) - 4) (get_segment_key k i) = k.
Proof.
  unfold get_segment_key. rewrite length_app, be_bytes32_length.
  replace (length k + 4 - 4)%nat with (length k) by lia. apply take_app_length.
Qed.

Lemma read_count_first count first :
  0 <= count <= u32_MAX ->
  read_count_from_value (get_initial_count_first_chunk count first) = Ok count.
Proof.
  intros Hc. unfold read_count_from_value, get_initial_count_first_chunk.
  rewrite length_app, be_bytes32_length. rewrite (proj2 (Nat.ltb_ge _ _)) by lia.
  by rewrite (take_app_length' _ _ 4) by done; rewrite from_be_bytes32.
Qed.

Lemma drop_first count first : drop 4 (get_initial_count_first_chunk count first) = first.
Proof. unfold get_initial_count_first_chunk. by rewrite (drop_app_length' _ _ 4). Qed.

(** Keys that do not continue each other with a byte 0. *)
Definition separated (U : bytes -> Prop) : Prop :=
  forall k b r, U k -> U (k ++ b :: r) -> b <> 0.

Lemma bytes_leb_app_ne x y u w :
  bytes_leb x y = true -> ~ x `prefix_of` y -> bytes_leb (x ++ u) (y ++ w) = true.
Proof.
  revert y. induction x as [|a x IH]; intros [|b y] Hle Hn; try done; [by destruct Hn; apply prefix_nil..|].
  simpl in *. destruct (Z.ltb_spec a b); [done|]. simpl in *.
  apply andb_true_iff in Hle as [->%Z.eqb_eq Hle]. rewrite Z.eqb_refl. simpl. apply IH; [done|].
  intros Hp. apply Hn. by apply prefix_cons.
Qed.

(** A segment key between two segment keys of the same key. *)
Lemma segment_between (U : bytes -> Prop) k i j k' i' :
  separated U -> U k -> U k' -> 0 <= i < MAX_SEGMENTS -> 0 <= j < MAX_SEGMENTS ->
  0 <= i' < MAX_SEGMENTS ->
  bytes_leb (get_segment_key k i) (get_segment_key k' i') = true ->
  bytes_leb (get_segment_key k' i') (get_segment_key k j) = true -> k' = k /\ i <= i' <= j.
Proof.
  unfold get_segment_key. intros Hsep Hk Hk' Hi Hj Hi' H1 H2.
  assert (k `prefix_of` k' ++ be_bytes32 i') as [w Hw].
  { eapply bytes_between_prefix; [|exact H2]. eapply (bytes_le_trans _ (k ++ be_bytes32 i)); [|exact H1].
    apply bytes_leb_app. }
  assert (u32_MAX = 2 ^ 32 - 1) as Hu by done. assert (MAX_SEGMENTS = 2 ^ 24) as Hm by done.
  rewrite Hw in H1, H2. rewrite bytes_leb_app_l in H1, H2.
  destruct (be_bytes32_small i Hi) as [ri Hri]. destruct (be_bytes32_small j Hj) as [rj Hrj].
  destruct (be_bytes32_small i' Hi') as [ri' Hri'].
  destruct (decide (length k = length k')) as [Heq|Hne].
  - apply app_inj_1 in Hw as [-> <-]; [|done]. split; [done|].
    rewrite !be_bytes32_leb in H1, H2 by lia. lia.
  - exfalso. destruct (decide (length k < length k')%nat) as [Hlt|Hge].
    + assert (k `prefix_of` k') as [t ->].
      { destruct (prefix_weak_total k k' (k' ++ be_bytes32 i')) as [?|Hp]; [by exists w|by apply prefix_app_r|done|].
        apply prefix_length in Hp. lia. }
      rewrite <- (assoc_L (++)) in Hw. apply app_inv_head in Hw. subst w.
      destruct t as [|b t]; [rewrite length_app in Hne; simpl in Hne; lia|]. apply (Hsep k b t Hk Hk').
      rewrite Hri in H1. rewrite Hrj in H2. cbn [bytes_leb app] in H1, H2.
      destruct (Z.ltb_spec 0 b), (Z.ltb_spec b 0), (Z.eqb_spec 0 b), (Z.eqb_spec b 0);
        cbn [orb andb] in *; done || lia.
    + assert (k' `prefix_of` k) as [t ->].
      { destruct (prefix_weak_total k k' (k' ++ be_bytes32 i')) as [Hp|?]; [by exists w|by apply prefix_app_r| |done].
        apply prefix_length in Hp. lia. }
      rewrite <- (assoc_L (++)) in Hw. apply app_inv_head in Hw.
      destruct t as [|b t]; [rewrite length_app in Hne; simpl in Hne; lia|]. apply (Hsep k' b t Hk' Hk).
      rewrite Hri' in Hw. by injection Hw.
Qed.

Lemma zero_keys_lt (U : bytes -> Prop) k k' :
  separated U -> U k -> U k' -> bytes_wf k -> bytes_wf k' ->
  key_lt (get_segment_key k 0) (get_segment_key k' 0) -> key_lt k k'.
Proof.
  unfold key_lt, get_segment_key. intros Hsep Hk Hk' Hwf Hwf' Hlt.
  destruct (bytes_leb k' k) eqn:Hle; [|done]. rewrite <- Hlt. symmetry.
  destruct (decide (k' `prefix_of` k)) as [[t ->]|Hn]; [|by apply bytes_leb_app_ne].
  rewrite <- (assoc_L (++)), bytes_leb_app_l. destruct t as [|b t]; [apply bytes_leb_refl|].
  pose proof (Hsep _ _ _ Hk' Hk) as Hb. apply Forall_app in Hwf as [_ Hwf].
  apply Forall_cons in Hwf as [[Hb0 _] _]. change (be_bytes32 0) with [0; 0; 0; 0]. simpl.
  rewrite (proj2 (Z.ltb_lt 0 b)); [done|lia].
Qed.

(** ** Sorted lists of segments *)

Section entries.
Context (U : bytes -> Prop) (U_separated : separated U).

(** The entries of a list with the segments of a value. *)
Definition segments_in (L : list (bytes * bytes)) (k : bytes) (rest : list bytes) : Prop :=
  forall i segment, rest !! i = Some segment -> (get_segment_key k (1 + Z.of_nat i), segment) ∈ L.
Definition joined (L : list (bytes * bytes)) (k v : bytes) : Prop :=
  exists first rest,
    (get_segment_key k 0, get_initial_count_first_chunk (1 + Z.of_nat (length rest)) first) ∈ L /\
    segments_in L k rest /\ v = first ++ concat rest /\ Z.of_nat (length rest) < MAX_SEGMENTS.

(** Lists of segments in order, with the segments that the first ones announce. *)
Record entries_ok (L : list (bytes * bytes)) : Prop := {
  eo_sorted : sorted_entries L;
  eo_keys x v : (x, v) ∈ L -> exists k i, x = get_segment_key k i /\ U k /\ 0 <= i < MAX_SEGMENTS;
  eo_complete k v : (get_segment_key k 0, v) ∈ L -> exists first rest,
    v = get_initial_count_first_chunk (1 + Z.of_nat (length rest)) first /\
    segments_in L k rest /\ Z.of_nat (length rest) < MAX_SEGMENTS;
}.

Definition is_first (x : bytes) : option bytes :=
  match read_index_from_key x with
  | Ok index => if index =? 0 then Some (take (length x - 4) x) else None
  | _ => None
  end.

Lemma is_first_segment k i :
  0 <= i < MAX_SEGMENTS -> is_first (get_segment_key k i) = if i =? 0 then Some k else None.
Proof.
  intros Hi. unfold is_first. rewrite read_index_segment, take_segment_key; [done|].
  unfold MAX_SEGMENTS, u32_MAX in *. lia.
Qed.

Lemma index_range i : 0 <= i < MAX_SEGMENTS -> 0 <= i <= u32_MAX.
Proof. unfold MAX_SEGMENTS, u32_MAX. lia. Qed.

(** The next segment of a value is the next entry. *)
Lemma next_segment k i value v L :
  entries_ok ((get_segment_key k i, v) :: L) -> U k -> 0 <= i < MAX_SEGMENTS - 1 ->
  (get_segment_key k (i + 1), value) ∈ L ->
  exists L', L = (get_segment_key k (i + 1), value) :: L'.
Proof.
  intros [Hs Hk _] HU Hi Hin. inversion Hs as [|? ? Hs' Hfa]; subst. rewrite Forall_forall in Hfa.
  destruct L as [|[x w] L]; [by apply not_elem_of_nil in Hin|]. exists L. f_equal.
  apply elem_of_cons in Hin as [->|Hin]; [done|]. exfalso.
  inversion Hs' as [|? ? _ Hfa']; subst. rewrite Forall_forall in Hfa'.
  pose proof (Hfa' _ Hin) as Hlt. pose proof (Hfa (x, w) ltac:(by left)) as Hlt0. simpl in *.
  destruct (Hk x w) as (k' & i' & -> & HU' & Hi'); [set_solver|].
  destruct (segment_between U k i (i + 1) k' i') as [-> Hb]; [done|done|done|lia|lia|done|by apply key_lt_leb..|].
  assert (i' = i \/ i' = i + 1) as [->| ->] by lia;
    [by apply key_lt_ne in Hlt0|by apply key_lt_ne in Hlt].
Qed.

(** What follows an entry is a list of segments too. *)
Lemma entries_ok_tail x v L : entries_ok ((x, v) :: L) -> entries_ok L.
Proof.
  intros [Hs Hk Hc]. destruct (Hk x v) as (k & i & -> & HU & Hi); [by left|].
  inversion Hs as [|? ? Hs' Hfa]; subst. split; [done| |].
  - intros x w Hx. apply (Hk x w). by right.
  - intros k' w Hw. destruct (Hc k' w) as (first & rest' & Hv & Hseg & Hl); [by right|].
    exists first, rest'. split_and!; [done| |done]. intros j s' Hj.
    destruct (proj1 (elem_of_cons _ _ _) (Hseg j s' Hj)) as [[= Heq _]|?]; [|done]. exfalso.
    assert (0 <= 1 + Z.of_nat j < MAX_SEGMENTS) as Hjr by (apply lookup_lt_Some in Hj; lia).
    apply segment_key_inj in Heq as [-> <-]; [|by apply index_range..].
    rewrite Forall_forall in Hfa. specialize (Hfa _ Hw). simpl in Hfa. unfold key_lt in Hfa.
    unfold get_segment_key in Hfa. rewrite bytes_leb_app_l, be_bytes32_leb in Hfa;
      [|apply index_range; unfold MAX_SEGMENTS in *; lia..]. lia.
Qed.

Lemma entries_ok_suffix group L : entries_ok (group ++ L) -> entries_ok L.
Proof.
  induction group as [|[x v] group IH]; intros HL; [done|]. by eapply IH, entries_ok_tail.
Qed.

Lemma join_segments_ok k rest : forall i v L big_value,
  entries_ok ((get_segment_key k i, v) :: L) -> U k -> 0 <= i ->
  i + Z.of_nat (length rest) < MAX_SEGMENTS ->
  (forall j segment, rest !! j = Some segment ->
     (get_segment_key k (i + 1 + Z.of_nat j), segment) ∈ L) ->
  exists group L', L = group ++ L' /\ omap (is_first ∘ fst) group = [] /\
    length group = length rest /\
    (forall x w, (x, w) ∈ group -> exists j, x = get_segment_key k j /\ i < j < MAX_SEGMENTS) /\
    join_segments k (i + 1) (length rest) big_value L = Ok (big_value ++ concat rest, L').
Proof.
  induction rest as [|segment rest IH]; intros i v L big_value HL HU Hi Hlen Hrest; simpl in *.
  { exists [], L. rewrite app_nil_r. split_and!; try done. by intros x w ?%not_elem_of_nil. }
  assert ((get_segment_key k (i + 1), segment) ∈ L) as Hin.
  { specialize (Hrest 0%nat segment eq_refl). by rewrite Z.add_0_r in Hrest. }
  destruct (next_segment k i segment v L HL HU) as [L1 ->]; [lia|done|].
  assert (entries_ok ((get_segment_key k (i + 1), segment) :: L1)) as HL1 by by eapply entries_ok_tail.
  destruct (IH (i + 1) segment L1 (big_value ++ segment)) as (group & L' & -> & Hf & Hlg & Hg & Hrun);
    [done|done|lia|lia| |].
  { intros j s' Hj. specialize (Hrest (S j) s' Hj).
    replace (i + 1 + Z.of_nat (S j)) with (i + 1 + 1 + Z.of_nat j) in Hrest by lia.
    apply elem_of_cons in Hrest as [[= Heq _]|?]; [|done]. exfalso.
    apply lookup_lt_Some in Hj. apply segment_key_inj in Heq as [_ ?]; [lia|apply index_range; lia..]. }
  exists ((get_segment_key k (i + 1), segment) :: group), L'. split_and!; [done| |simpl; by f_equal| |].
  - csimpl. rewrite is_first_segment by lia. rewrite (proj2 (Z.eqb_neq _ _)) by lia. done.
  - intros x w [[= -> ->]|Hx]%elem_of_cons; [exists (i + 1); split; [done|lia]|].
    destruct (Hg x w Hx) as (j & -> & Hj). exists j. split; [done|lia].
  - rewrite read_index_segment by (apply index_range; lia). simpl. rewrite Z.eqb_refl.
    rewrite bool_decide_true by by apply prefix_app_r.
    unfold get_segment_key at 1. rewrite length_app, be_bytes32_length, Nat.eqb_refl. simpl.
    rewrite Hrun. by rewrite <- (assoc_L (++)).
Qed.

Lemma join_entries_ok fuel : forall L acc,
  (length L <= fuel)%nat -> entries_ok L ->
  exists out, join_entries fuel L acc = Ok (acc ++ out) /\
    out.*1 = omap (is_first ∘ fst) L /\ forall k v, (k, v) ∈ out -> joined L k v.
Proof.
  induction fuel as [|fuel IH]; intros L acc Hlen HL.
  { destruct L; [|simpl in Hlen; lia]. exists []. rewrite app_nil_r.
    split_and!; [done|done|]. by intros k v ?%not_elem_of_nil. }
  destruct L as [|[x v] L].
  { exists []. rewrite app_nil_r. split_and!; [done|done|]. by intros k v ?%not_elem_of_nil. }
  destruct (eo_keys _ HL x v) as (k & i & -> & HU & Hi); [by left|]. cbn [join_entries].
  rewrite read_index_segment by by apply index_range. cbn [mbind result_bind].
  cbn [length] in Hlen. destruct (Z.eqb_spec i 0) as [->|Hne]; cbn [negb].
  - destruct (eo_complete _ HL k v) as (first & rest & -> & Hseg & Hrest); [by left|].
    rewrite take_segment_key, read_count_first, drop_first by (apply index_range in Hi;
      unfold MAX_SEGMENTS, u32_MAX in *; lia).
    cbn [mbind result_bind]. replace (Z.to_nat (1 + Z.of_nat (length rest) - 1)) with (length rest) by lia.
    destruct (join_segments_ok k rest 0 _ L first HL HU) as (group & L' & -> & Hf & Hlg & Hg & Hrun);
      [done|lia| |].
    { intros j s' Hj. specialize (Hseg j s' Hj). rewrite Z.add_0_l in *.
      apply elem_of_cons in Hseg as [[= Heq _]|?]; [|done]. exfalso. apply lookup_lt_Some in Hj.
      apply segment_key_inj in Heq as [_ ?]; [lia|apply index_range; lia..]. }
    change (0 + 1) with 1 in Hrun. rewrite Hrun. cbn [mbind result_bind].
    rewrite length_app in Hlen.
    destruct (IH L' (acc ++ [(k, first ++ concat rest)])) as (out & -> & Hout & Hj); [lia| |].
    { by eapply entries_ok_suffix, entries_ok_tail. }
    exists ((k, first ++ concat rest) :: out). rewrite <- (assoc_L (++)). split_and!; [done| |].
    + csimpl. rewrite is_first_segment by done. csimpl. by rewrite omap_app, Hf, Hout.
    + intros k' w [[= -> ->]|Hw]%elem_of_cons.
      * exists first, rest. split_and!; [by left|done|done|done].
      * destruct (Hj k' w Hw) as (f & r & H1 & H2 & H3 & H4). exists f, r.
        split_and!; [set_solver| |done|done]. intros j s' Hjs. specialize (H2 j s' Hjs). set_solver.
  - destruct (IH L acc) as (out & -> & Hout & Hj); [lia|by eapply entries_ok_tail|].
    exists out. split_and!; [done| |].
    + csimpl. rewrite is_first_segment by done. by rewrite (proj2 (Z.eqb_neq _ _)).
    + intros k' w Hw. destruct (Hj k' w Hw) as (f & r & H1 & H2 & H3 & H4). exists f, r.
      split_and!; [by right| |done|done]. intros j s' Hjs. right. by apply H2.
Qed.

Lemma keep_first_ok L : forall acc,
  entries_ok L -> for_each keep_first L.*1 acc = Ok (acc ++ omap (is_first ∘ fst) L).
Proof.
  induction L as [|[x v] L IH]; intros acc HL; csimpl; [by rewrite app_nil_r|].
  destruct (eo_keys _ HL x v) as (k & i & -> & HU & Hi); [by left|].
  assert (keep_first (get_segment_key k i) acc = Ok (if i =? 0 then acc ++ [k] else acc)) as ->.
  { unfold keep_first. rewrite read_index_segment by by apply index_range.
    rewrite take_segment_key. simpl. by destruct (i =? 0). }
  rewrite is_first_segment by done. cbn [mbind result_bind]. apply entries_ok_tail in HL.
  rewrite IH by done. destruct (i =? 0); [by rewrite <- (assoc_L (++))|done].
Qed.

End entries.

(** ** The store of the segments *)

Section splits.
Context (allowed allowed_prefix : bytes -> Prop).
Context (allowed_wf : forall k, allowed k -> bytes_wf k).
Context (allowed_prefix_wf : forall p, allowed_prefix p -> bytes_wf p).
Context (keys_separated : separated allowed).
Context (prefixes_separated : forall k b r, allowed k -> allowed_prefix (k ++ b :: r) -> b <> 0).

Definition stored_as (s : Store) (k v : bytes) : Prop :=
  exists first rest,
    s !! get_segment_key k 0 = Some (get_initial_count_first_chunk (1 + Z.of_nat (length rest)) first) /\
    (forall i segment, rest !! i = Some segment ->
       s !! get_segment_key k (1 + Z.of_nat i) = Some segment) /\
    v = first ++ concat rest /\ Z.of_nat (length rest) < MAX_SEGMENTS.

(** Segments that no value has any more may be left over. *)
Record splits (s m : Store) : Prop := {
  sp_segments x : is_Some (s !! x) ->
    exists k i, x = get_segment_key k i /\ allowed k /\ 0 <= i < MAX_SEGMENTS;
  sp_keys k : is_Some (m !! k) -> allowed k;
  sp_stored k v : m !! k = Some v -> stored_as s k v;
  sp_absent k : m !! k = None -> s !! get_segment_key k 0 = None;
}.

Lemma splits_wf s m : splits s m -> store_wf s.
Proof.
  intros Hs x v Hx. destruct (sp_segments _ _ Hs x) as (k & i & -> & Hk & _); [by exists v|].
  apply Forall_app_2; [by apply allowed_wf|apply be_bytes32_wf].
Qed.
Lemma splits_map_wf s m : splits s m -> store_wf m.
Proof. intros Hs k v Hk. apply allowed_wf. apply (sp_keys _ _ Hs). by exists v. Qed.

(** A prefix of a segment key is a prefix of the key. *)
Lemma prefix_of_segment p k i :
  allowed k -> allowed_prefix p -> 0 <= i < MAX_SEGMENTS ->
  p `prefix_of` get_segment_key k i <-> p `prefix_of` k.
Proof.
  intros Hk Hp Hi. unfold get_segment_key. split; [|intros; by apply prefix_app_r].
  intros Hpre. destruct (prefix_weak_total p k (k ++ be_bytes32 i)) as [?|[t ->]];
    [done|by apply prefix_app_r|done|].
  destruct t as [|b t]; [by rewrite app_nil_r|]. exfalso.
  apply (prefixes_separated k b t Hk Hp). destruct (be_bytes32_small i Hi) as [r Hr].
  rewrite Hr in Hpre. apply prefix_app_inv in Hpre. by apply prefix_cons_inv_1 in Hpre.
Qed.

(** *** Writing *)

Lemma splits_delete s m key :
  allowed key -> splits s m -> splits (delete (get_segment_key key 0) s) (delete key m).
Proof.
  intros Hkey [Hseg Hk Hst Ha]. split.
  - intros x. rewrite lookup_delete_is_Some. intros [_ Hx]. by apply Hseg.
  - intros k. rewrite lookup_delete_is_Some. intros [_ Hx]. by apply Hk.
  - intros k v. rewrite lookup_delete_Some. intros [Hne (first & rest & H1 & H2 & H3 & H4)%Hst].
    exists first, rest. split_and!; [| |done|done].
    + rewrite lookup_delete_ne; [done|]. intros [? _]%segment_key_inj; done.
    + intros i segment Hi. rewrite lookup_delete_ne; [by apply H2|].
      intros [? ?]%segment_key_inj; [done|done|].
      apply lookup_lt_Some in Hi. apply index_range. unfold MAX_SEGMENTS in *. lia.
  - intros k Hkn. destruct (decide (k = key)) as [->|Hne]; [by apply lookup_delete_eq|].
    rewrite lookup_delete_ne in Hkn by done. rewrite lookup_delete_ne; [by apply Ha|].
    intros [? _]%segment_key_inj; done.
Qed.

(** Inserting segments of a key. *)
Definition put_segments (key : bytes) (rest : list bytes) (s : Store) : Store :=
  foldl write_operation s
    (imap (fun i chunk => Put (get_segment_key key (1 + Z.of_nat i)) chunk) rest).

Lemma put_segments_snoc key rest chunk s :
  put_segments key (rest ++ [chunk]) s =
  <[get_segment_key key (1 + Z.of_nat (length rest)) := chunk]> (put_segments key rest s).
Proof. unfold put_segments. rewrite imap_app, foldl_app. simpl. by rewrite Nat.add_0_r. Qed.

Lemma lookup_put_segment key rest i s :
  Z.of_nat (length rest) < MAX_SEGMENTS -> (i < length rest)%nat ->
  put_segments key rest s !! get_segment_key key (1 + Z.of_nat i) = rest !! i.
Proof.
  induction rest as [|chunk rest IH] using rev_ind; intros Hlen Hi; simpl in *; [lia|].
  rewrite length_app in *. simpl in *. rewrite put_segments_snoc.
  destruct (decide (i = length rest)) as [->|Hne].
  - rewrite lookup_insert_eq, lookup_app_r, Nat.sub_diag by lia. done.
  - rewrite lookup_insert_ne; [by rewrite IH, lookup_app_l by lia|].
    intros [_ ?]%segment_key_inj; [lia|apply index_range; unfold MAX_SEGMENTS in *; lia..].
Qed.

Lemma lookup_put_other key rest x s :
  (forall i, (i < length rest)%nat -> x <> get_segment_key key (1 + Z.of_nat i)) ->
  put_segments key rest s !! x = s !! x.
Proof.
  induction rest as [|chunk rest IH] using rev_ind; intros Hx; [done|].
  rewrite length_app in Hx. simpl in Hx. rewrite put_segments_snoc, lookup_insert_ne.
  - apply IH. intros i Hi. apply Hx. lia.
  - intros Heq. symmetry in Heq. by apply (Hx (length rest)) in Heq; [|lia].
Qed.

Lemma splits_put s m key first rest :
  allowed key -> Z.of_nat (length rest) < MAX_SEGMENTS -> splits s m ->
  splits (<[get_segment_key key 0 := get_initial_count_first_chunk (1 + Z.of_nat (length rest)) first]>
            (put_segments key rest s)) (<[key := first ++ concat rest]> m).
Proof.
  intros Hkey Hlen [Hseg Hk Hst Ha].
  assert (forall k i, 0 <= i <= u32_MAX -> k <> key ->
    <[get_segment_key key 0 := get_initial_count_first_chunk (1 + Z.of_nat (length rest)) first]>
      (put_segments key rest s) !! get_segment_key k i = s !! get_segment_key k i) as Hother.
  { intros k i Hi Hne. rewrite lookup_insert_ne by by intros [? _]%segment_key_inj.
    apply lookup_put_other. intros j Hj Heq. apply segment_key_inj in Heq as [? _]; [done|done|].
    apply index_range. lia. }
  split.
  - intros x. rewrite lookup_insert_is_Some. intros [<-|[_ Hx]]; [by exists key, 0|].
    destruct (decide (Exists (fun i => x = get_segment_key key (1 + Z.of_nat i)) (seq 0 (length rest))))
      as [(i & Hi & ->)%Exists_exists|Hn].
    + apply elem_of_seq in Hi. exists key, (1 + Z.of_nat i). split_and!; [done|done|lia..].
    + apply Hseg. rewrite lookup_put_other in Hx; [done|]. intros i Hi ->. apply Hn, Exists_exists.
      exists i. split; [apply elem_of_seq; lia|done].
  - intros k. rewrite lookup_insert_is_Some. intros [<-|[_ Hx]]; [done|by apply Hk].
  - intros k v. destruct (decide (k = key)) as [->|Hne].
    + rewrite lookup_insert_eq. intros [= <-]. exists first, rest. rewrite lookup_insert_eq.
      split_and!; [done| |done|done]. intros i segment Hi. pose proof (lookup_lt_Some _ _ _ Hi) as Hlt.
      rewrite lookup_insert_ne; [by rewrite lookup_put_segment|].
      intros [_ ?]%segment_key_inj; [lia|done|apply index_range; unfold MAX_SEGMENTS in *; lia].
    + rewrite lookup_insert_ne by done. intros (f & r & H1 & H2 & H3 & H4)%Hst. exists f, r.
      rewrite Hother by done. split_and!; [done| |done|done]. intros i segment Hi.
      pose proof (lookup_lt_Some _ _ _ Hi) as Hlt. rewrite Hother; [by apply H2| |done].
      apply index_range. unfold MAX_SEGMENTS in *. lia.
  - intros k. destruct (decide (k = key)) as [->|Hne]; [by rewrite lookup_insert_eq|].
    rewrite lookup_insert_ne by done. intros HkN. rewrite Hother by done. by apply Ha.
Qed.

Lemma splits_delete_prefix s m p :
  allowed_prefix p -> splits s m ->
  splits (write_operation s (DeletePrefix p)) (write_operation m (DeletePrefix p)).
Proof.
  intros Hp Hs. pose proof (splits_wf _ _ Hs) as Hswf. pose proof (splits_map_wf _ _ Hs) as Hmwf.
  pose proof (allowed_prefix_wf p Hp) as Hpwf. simpl. destruct Hs as [Hseg Hk Hst Ha].
  assert (forall k i, allowed k -> 0 <= i < MAX_SEGMENTS ->
    remove_keys (range_keys (get_interval p) s) s !! get_segment_key k i =
    if decide (p `prefix_of` k) then None else s !! get_segment_key k i) as Hlook.
  { intros k i Hak Hi. rewrite lookup_delete_prefix by done.
    pose proof (prefix_of_segment p k i Hak Hp Hi) as Hiff.
    by destruct (decide (p `prefix_of` k)), (decide (p `prefix_of` get_segment_key k i)); try tauto. }
  split.
  - intros x. rewrite lookup_delete_prefix by done. case_decide; [by intros [? ?]|]. apply Hseg.
  - intros k. rewrite lookup_delete_prefix by done. case_decide; [by intros [? ?]|]. apply Hk.
  - intros k v. rewrite lookup_delete_prefix by done. case_decide as Hpk; [done|].
    intros Hm. assert (allowed k) as Hak by (apply Hk; by exists v).
    destruct (Hst _ _ Hm) as (f & r & H1 & H2 & H3 & H4). exists f, r.
    rewrite Hlook, decide_False by done. split_and!; [done| |done|done]. intros i segment Hi.
    pose proof (lookup_lt_Some _ _ _ Hi) as Hlt. rewrite Hlook, decide_False by (done || lia).
    by apply H2.
  - intros k. rewrite lookup_delete_prefix by done. intros Hnone.
    destruct (remove_keys (range_keys (get_interval p) s) s !! get_segment_key k 0) as [w|] eqn:Hw; [|done].
    exfalso. rewrite lookup_delete_prefix in Hw by done. case_decide as Hps; [done|].
    case_decide as Hpk; [|rewrite (Ha k Hnone) in Hw; done].
    apply Hps. by apply prefix_app_r.
Qed.

(** *** Reading *)

Lemma relative_entries_ok s m p :
  allowed_prefix p -> splits s m -> entries_ok (fun y => allowed (p ++ y)) (relative p s).
Proof.
  intros Hp Hs. pose proof (allowed_prefix_wf p Hp) as Hpwf. pose proof (splits_wf _ _ Hs) as Hswf.
  split.
  - by apply relative_strictly_sorted.
  - intros x v Hx%elem_of_relative; [|done..].
    destruct (sp_segments _ _ Hs (p ++ x)) as (k & i & Heq & Hk & Hi); [by exists v|].
    assert (p `prefix_of` k) as [y ->].
    { apply (prefix_of_segment p k i Hk Hp Hi). rewrite <- Heq. by apply prefix_app_r. }
    exists y, i. split; [|by split]. unfold get_segment_key in *.
    rewrite <- (assoc_L (++)) in Heq. by apply app_inv_head in Heq.
  - intros y v Hv%elem_of_relative; [|done..].
    assert (p ++ get_segment_key y 0 = get_segment_key (p ++ y) 0) as Heq by apply (assoc_L (++)).
    rewrite Heq in Hv. destruct (m !! (p ++ y)) as [w|] eqn:Hm;
      [|by rewrite (sp_absent _ _ Hs) in Hv].
    destruct (sp_stored _ _ Hs _ _ Hm) as (first & rest & H1 & H2 & _ & H4).
    exists first, rest. split_and!; [congruence| |done]. intros i segment Hi.
    apply elem_of_relative; [done..|]. unfold get_segment_key. rewrite (assoc_L (++)). by apply H2.
Qed.

Lemma joined_relative s m p y v :
  allowed_prefix p -> splits s m -> joined (relative p s) y v -> m !! (p ++ y) = Some v.
Proof.
  intros Hp Hs (first & rest & H1 & H2 & H3 & H4). pose proof (allowed_prefix_wf p Hp) as Hpwf.
  pose proof (splits_wf _ _ Hs) as Hswf. apply elem_of_relative in H1; [|done..].
  unfold get_segment_key in H1. rewrite (assoc_L (++)) in H1.
  change ((p ++ y) ++ be_bytes32 0) with (get_segment_key (p ++ y) 0) in H1.
  destruct (m !! (p ++ y)) as [w|] eqn:Hm; [|by rewrite (sp_absent _ _ Hs) in H1]. f_equal.
  destruct (sp_stored _ _ Hs _ _ Hm) as (f & r & F1 & F2 & -> & F4). rewrite F1 in H1.
  apply (inj Some) in H1. apply app_inj_1 in H1 as [Hlen ->]; [|done].
  apply be_bytes32_inj in Hlen; [|unfold MAX_SEGMENTS, u32_MAX in *; lia..].
  subst v. f_equal. f_equal. apply list_eq_same_length with (length rest); [done|lia|].
  intros i x x' Hi Hx Hx'. apply F2 in Hx. apply H2 in Hx'.
  apply elem_of_relative in Hx'; [|done..]. unfold get_segment_key in *.
  rewrite (assoc_L (++)) in Hx'. congruence.
Qed.

Lemma firsts_sorted s m p :
  allowed_prefix p -> splits s m -> StronglySorted key_lt (omap (is_first ∘ fst) (relative p s)).
Proof.
  intros Hp Hs. pose proof (relative_entries_ok s m p Hp Hs) as HL.
  assert (separated (fun y => allowed (p ++ y))) as Hsep.
  { intros k b r Hk Hk'. rewrite (assoc_L (++)) in Hk'. exact (keys_separated _ _ _ Hk Hk'). }
  assert (forall y, allowed (p ++ y) -> bytes_wf y) as Hwf.
  { intros y Hy. apply allowed_wf in Hy. by apply Forall_app in Hy as [_ ?]. }
  induction (relative p s) as [|[x v] L IH]; [constructor|]. csimpl.
  destruct (eo_keys _ _ HL x v) as (k & i & -> & HU & Hi); [by left|].
  pose proof (eo_sorted _ _ HL) as Hsorted. inversion Hsorted as [|? ? _ Hfa]; subst.
  apply entries_ok_tail in HL. rewrite is_first_segment by done. specialize (IH HL).
  destruct (Z.eqb_spec i 0) as [->|_]; [|done]. csimpl. constructor; [done|].
  apply Forall_forall. intros y ([x w] & Hx & Hy)%list_elem_of_omap. simpl in Hy.
  destruct (eo_keys _ _ HL x w Hx) as (k' & j & -> & HU' & Hj).
  rewrite is_first_segment in Hy by done. destruct (Z.eqb_spec j 0) as [Hj0|Hj0]; [|done].
  subst j. injection Hy as ->. rewrite Forall_forall in Hfa. specialize (Hfa _ Hx). simpl in Hfa.
  eapply (zero_keys_lt (fun y => allowed (p ++ y))); eauto.
Qed.

Lemma split_find_exact s m p :
  allowed_prefix p -> splits s m ->
  join_entries (length (relative p s)) (relative p s) [] = Ok (relative p m) /\
  for_each keep_first (relative p s).*1 [] = Ok (relative p m).*1.
Proof.
  intros Hp Hs. pose proof (relative_entries_ok s m p Hp Hs) as HL.
  pose proof (firsts_sorted s m p Hp Hs) as Hsorted.
  pose proof (allowed_prefix_wf p Hp) as Hpwf. pose proof (splits_wf _ _ Hs) as Hswf.
  pose proof (splits_map_wf _ _ Hs) as Hmwf.
  assert (separated (fun y => allowed (p ++ y))) as Hsep.
  { intros k b r Hk Hk'. rewrite (assoc_L (++)) in Hk'. exact (keys_separated _ _ _ Hk Hk'). }
  destruct (join_entries_ok _ Hsep (length (relative p s)) (relative p s) [] (le_n _) HL)
    as (out & -> & Hkeys & Hout).
  rewrite (keep_first_ok _ _ [] HL), <- Hkeys. simpl.
  assert (out = relative p m) as ->; [|done].
  apply sorted_entries_unique; [|by apply relative_strictly_sorted|].
  - rewrite <- Hkeys in Hsorted. clear -Hsorted. induction out as [|kv out IH]; [constructor|].
    inversion Hsorted as [|? ? Hs Hfa]; subst. constructor; [by apply IH|]. rewrite Forall_fmap in Hfa. exact Hfa.
  - intros [y v]. rewrite elem_of_relative by done. split.
    + intros Hy. eapply joined_relative; [done|done|by apply Hout].
    + intros Hm. assert (y ∈ out.*1) as Hy.
      { rewrite Hkeys. destruct (sp_stored _ _ Hs _ _ Hm) as (f & r & F1 & _).
        apply list_elem_of_omap. eexists (get_segment_key y 0, _). split.
        - apply elem_of_relative; [done|done|]. unfold get_segment_key in *.
          rewrite (assoc_L (++)). exact F1.
        - simpl. by rewrite is_first_segment. }
      apply list_elem_of_fmap in Hy as ([y' v'] & -> & Hin). simpl in *.
      assert (m !! (p ++ y') = Some v') as Hv' by (eapply joined_relative; [done|done|by apply Hout]).
      by replace v with v' by congruence.
Qed.

Lemma other_segments_read (s : Store) k (rest : list bytes) :
  (forall i segment, rest !! i = Some segment ->
     s !! get_segment_key k (1 + Z.of_nat i) = Some segment) ->
  (fun x => s !! x) <$> other_segments k (1 + Z.of_nat (length rest)) = Some <$> rest.
Proof.
  intros Hrest. unfold other_segments. replace (1 + Z.of_nat (length rest) - 1) with (Z.of_nat (length rest)) by lia.
  apply list_eq. intros i. rewrite !list_lookup_fmap. destruct (decide (i < length rest)%nat) as [Hi|Hi].
  - rewrite lookup_seqZ_lt by lia. simpl. destruct (lookup_lt_is_Some_2 rest i Hi) as [segment Hs].
    rewrite Hs. simpl. by rewrite (Hrest i segment).
  - rewrite lookup_seqZ_ge by lia. by rewrite lookup_ge_None_2 by lia.
Qed.

End splits.

Lemma extend_segments_ok rest : forall v,
  for_each extend_segment (Some <$> rest) v = Ok (v ++ concat rest).
Proof.
  induction rest as [|segment rest IH]; intros v; csimpl; [by rewrite app_nil_r|].
  rewrite IH. by rewrite <- (assoc_L (++)).
Qed.

Lemma take_segments_ok rest : forall v others,
  take_segments (length rest) v ((Some <$> rest) ++ others) = Ok (v ++ concat rest, others).
Proof.
  induction rest as [|segment rest IH]; intros v others; csimpl; [by rewrite app_nil_r|].
  rewrite IH. by rewrite <- (assoc_L (++)).
Qed.

(** *** Chunks *)

Lemma chunks_loop_ok fuel size : forall l,
  (0 < size)%nat -> (length l <= fuel)%nat ->
  concat (chunks_loop fuel size l) = l /\
  Forall (fun c => (length c <= size)%nat) (chunks_loop fuel size l) /\
  (length (chunks_loop fuel size l) * size < length l + size)%nat.
Proof.
  induction fuel as [|fuel IH]; intros l Hsize Hlen.
  { destruct l; [|simpl in Hlen; lia]. simpl. split_and!; [done|constructor|lia]. }
  destruct l as [|x l]; [split_and!; [done|constructor|simpl; lia]|].
  cbn [chunks_loop]. destruct (IH (drop size (x :: l))) as (H1 & H2 & H3); [done| |].
  { rewrite length_drop. simpl in *. lia. }
  split_and!.
  - cbn [concat]. rewrite H1. apply take_drop.
  - constructor; [rewrite length_take; lia|done].
  - rewrite length_drop in H3. cbn [length] in *. destruct (decide (S (length l) <= size)%nat); [|lia].
    replace (S (length l) - size)%nat with 0%nat in H3 by lia.
    destruct (length (chunks_loop fuel size (drop size (x :: l)))); simpl in *; lia.
Qed.

Lemma chunks_ok size l :
  (0 < size)%nat ->
  concat (chunks size l) = l /\ Forall (fun c => (length c <= size)%nat) (chunks size l) /\
  (length (chunks size l) * size < length l + size)%nat.
Proof. intros. by apply chunks_loop_ok. Qed.

(** ** What the client promises *)

Section laws.
Context {C : Type} `{ClientLaws C}.
Context (allowed allowed_prefix : bytes -> Prop).
Context (allowed_wf : forall k, allowed k -> bytes_wf k).
Context (allowed_prefix_wf : forall p, allowed_prefix p -> bytes_wf p).
Context (keys_separated : separated allowed).
Context (prefixes_separated : forall k b r, allowed k -> allowed_prefix (k ++ b :: r) -> b <> 0).
Context (max_value_size_ok : 4 < MAX_VALUE_SIZE C).
Context (segments_ok : forall k i, allowed k -> 0 <= i < MAX_SEGMENTS ->
  ok_key (domain C) (get_segment_key k i)).
Context (prefixes_ok : forall p, allowed_prefix p -> ok_prefix (domain C) p).
Context (values_ok : forall v, Z.of_nat (length v) <= MAX_VALUE_SIZE C -> ok_value (domain C) v).

#[export] Instance splitting_client : KeyValueStoreClient (ValueSplittingClient C) :=
  {| MAX_VALUE_SIZE := u64_MAX;
     client_read_key := split_read_key; client_read_multi_key := split_read_multi_key;
     client_find_keys := split_find_keys; client_find_key_values := split_find_key_values;
     client_write_batch := split_write_batch; client_clear_journal := split_clear_journal |}.

Definition splitting_domain : Domain :=
  {| ok_key := allowed; ok_prefix := allowed_prefix;
     ok_value v := Z.of_nat (length v) <= MAX_VALUE_SIZE C * MAX_SEGMENTS - 4;
     ok_base_key := ok_base_key (domain C) |}.

Definition splitting_holds (self : ValueSplittingClient C) (m : Store) : Prop :=
  exists s, holds (split_client self) s /\ splits allowed s m /\ ok_map splitting_domain m.

Lemma split_put_ok s m key value :
  allowed key -> ok_value splitting_domain value -> splits allowed s m ->
  splits allowed (write_batch (split_operation (MAX_VALUE_SIZE C) (Put key value)) s)
    (<[key := value]> m) /\
  Forall (ok_operation (domain C)) (split_operation (MAX_VALUE_SIZE C) (Put key value)).
Proof.
  cbn [ok_value splitting_domain]. intros Hkey Hvalue Hs. unfold split_operation.
  destruct (Z.leb_spec (Z.of_nat (length value)) (MAX_VALUE_SIZE C - 4)) as [Hle|Hgt].
  - split.
    + rewrite <- (app_nil_r value) at 2. by apply (splits_put allowed s m key value []).
    + constructor; [|constructor]. split; [by apply segments_ok|]. apply values_ok.
      unfold get_initial_count_first_chunk. rewrite length_app, be_bytes32_length. lia.
  - set (size := Z.to_nat (MAX_VALUE_SIZE C - 4)).
    destruct (chunks_ok (Z.to_nat (MAX_VALUE_SIZE C)) (drop size value)) as (Hconcat & Hsizes & Hnum);
      [lia|]. set (rest := chunks _ _) in *.
    assert (Z.of_nat (length rest) < MAX_SEGMENTS) as Hrest.
    { rewrite length_drop in Hnum. unfold MAX_SEGMENTS in *. nia. }
    split.
    + unfold write_batch. rewrite foldl_app. cbn [foldl write_operation].
      replace value with (take size value ++ concat rest) at 2 by by rewrite Hconcat, take_drop.
      by apply (splits_put allowed s m key (take size value) rest).
    + apply Forall_app_2.
      * apply Forall_forall. intros o (i & chunk & -> & Hi)%elem_of_lookup_imap.
        split; [apply segments_ok; [done|apply lookup_lt_Some in Hi; lia]|].
        apply values_ok. rewrite Forall_forall in Hsizes.
        specialize (Hsizes chunk (list_elem_of_lookup_2 _ _ _ Hi)). lia.
      * constructor; [|constructor]. split; [by apply segments_ok|]. apply values_ok.
        unfold get_initial_count_first_chunk. rewrite length_app, be_bytes32_length, length_take. lia.
Qed.

Lemma split_operation_ok s m operation :
  ok_operation splitting_domain operation -> splits allowed s m ->
  splits allowed (write_batch (split_operation (MAX_VALUE_SIZE C) operation) s)
    (write_operation m operation) /\
  Forall (ok_operation (domain C)) (split_operation (MAX_VALUE_SIZE C) operation).
Proof.
  intros Hok Hs. destruct operation as [key|p|key value]; simpl in Hok.
  - split; [by apply splits_delete|]. constructor; [|constructor]. simpl. rewrite zero_key_segment. by apply segments_ok.
  - split; [by eapply splits_delete_prefix|]. constructor; [|constructor]. by apply prefixes_ok.
  - destruct Hok as [Hkey Hvalue]. by apply split_put_ok.
Qed.

Lemma split_batch_ok batch : forall s m,
  Forall (ok_operation splitting_domain) batch -> splits allowed s m ->
  splits allowed (write_batch (batch ≫= split_operation (MAX_VALUE_SIZE C)) s) (write_batch batch m) /\
  Forall (ok_operation (domain C)) (batch ≫= split_operation (MAX_VALUE_SIZE C)).
Proof.
  induction batch as [|o batch IH]; intros s m Hok Hs; [by split; [|constructor]|].
  apply Forall_cons in Hok as [Ho Hok]. destruct (split_operation_ok s m o Ho Hs) as [Hs1 Ho1].
  destruct (IH _ _ Hok Hs1) as [Hs2 Ho2]. csimpl. split; [|by apply Forall_app_2].
  unfold write_batch. rewrite foldl_app. exact Hs2.
Qed.

Lemma splits_read s m key :
  allowed key -> splits allowed s m ->
  match m !! key with
  | Some v => exists first rest,
      s !! zero_key key = Some (get_initial_count_first_chunk (1 + Z.of_nat (length rest)) first) /\
      (fun x => s !! x) <$> other_segments key (1 + Z.of_nat (length rest)) = Some <$> rest /\
      Forall (ok_key (domain C)) (other_segments key (1 + Z.of_nat (length rest))) /\
      v = first ++ concat rest /\ Z.of_nat (length rest) < MAX_SEGMENTS
  | None => s !! zero_key key = None
  end.
Proof.
  intros Hkey Hs. rewrite zero_key_segment. destruct (m !! key) as [v|] eqn:Hm; [|by apply Hs].
  destruct (sp_stored _ _ _ Hs _ _ Hm) as (first & rest & H1 & H2 & H3 & H4). exists first, rest.
  split_and!; [done|by apply other_segments_read| |done|done].
  unfold other_segments. apply Forall_fmap, Forall_forall. intros i Hi%elem_of_seqZ.
  apply segments_ok; [done|]. unfold MAX_SEGMENTS in *. lia.
Qed.

Lemma split_read_key_ok key self m :
  allowed key -> splitting_holds self m ->
  exists self', split_read_key key self = Ok (m !! key, self') /\ splitting_holds self' m.
Proof.
  intros Hkey (s & Hc & Hs & Hm). unfold split_read_key. pose proof (splits_read s m key Hkey Hs) as Hr.
  destruct (read_key_holds (zero_key key) (split_client self) s) as (c1 & -> & Hc1);
    [rewrite zero_key_segment; by apply segments_ok|done|]. simpl.
  destruct (m !! key) as [v|]; [|rewrite Hr; eexists; split; [done|by exists s]].
  destruct Hr as (first & rest & -> & Hsegs & Hok & -> & Hlen).
  rewrite read_count_first, drop_first by (unfold MAX_SEGMENTS, u32_MAX in *; lia). simpl.
  destruct (Z.eqb_spec (1 + Z.of_nat (length rest)) 1) as [Hone|_].
  - destruct rest; [|simpl in Hone; lia]. rewrite app_nil_r. eexists. split; [done|by exists s].
  - destruct (read_multi_key_holds _ c1 s Hok Hc1) as (c2 & -> & Hc2). simpl. rewrite Hsegs.
    rewrite extend_segments_ok. simpl. eexists. split; [done|by exists s].
Qed.

(** The parts of the values of some keys: the first segment, and the others. *)
Definition part_of (s m : Store) (key : bytes) (part : option (bytes * list bytes)) : Prop :=
  match part with
  | None => m !! key = None /\ s !! zero_key key = None
  | Some (first, rest) =>
      m !! key = Some (first ++ concat rest) /\
      s !! zero_key key = Some (get_initial_count_first_chunk (1 + Z.of_nat (length rest)) first) /\
      (fun x => s !! x) <$> other_segments key (1 + Z.of_nat (length rest)) = Some <$> rest /\
      Forall (ok_key (domain C)) (other_segments key (1 + Z.of_nat (length rest))) /\
      Z.of_nat (length rest) < MAX_SEGMENTS
  end.
Definition part_first (part : option (bytes * list bytes)) : option bytes := fst <$> part.
Definition part_rest (part : option (bytes * list bytes)) : list bytes :=
  match part with Some (_, rest) => rest | None => [] end.
Definition part_count (part : option (bytes * list bytes)) : Z :=
  match part with Some (_, rest) => 1 + Z.of_nat (length rest) | None => 0 end.

Lemma parts_exist s m keys :
  Forall allowed keys -> splits allowed s m -> exists parts, Forall2 (part_of s m) keys parts.
Proof.
  intros Hkeys Hs. induction Hkeys as [|key keys Hkey _ [parts IH]]; [by exists []|].
  pose proof (splits_read s m key Hkey Hs) as Hr. destruct (m !! key) as [v|] eqn:Hm.
  - destruct Hr as (first & rest & H1 & H2 & H3 & -> & H5). exists (Some (first, rest) :: parts).
    by constructor.
  - exists (None :: parts). by constructor.
Qed.

Lemma first_segments_ok s m keys parts :
  Forall2 (part_of s m) keys parts -> forall bv ka nb,
  exists adds, for_each first_segment (zip keys ((fun x => s !! x) <$> (zero_key <$> keys))) (bv, ka, nb) =
      Ok (bv ++ (part_first <$> parts), ka ++ adds, nb ++ (part_count <$> parts)) /\
    (fun x => s !! x) <$> adds = Some <$> (parts ≫= part_rest) /\ Forall (ok_key (domain C)) adds.
Proof.
  induction 1 as [|key part keys parts Hp _ IH]; intros bv ka nb.
  { exists []. simpl. rewrite !app_nil_r. split_and!; [done|done|constructor]. }
  rewrite !fmap_cons. cbn [zip zip_with for_each].
  destruct part as [[first rest]|]; simpl in Hp.
  - destruct Hp as (_ & Hz & Hsegs & Hok & Hlen).
    destruct (IH (bv ++ [Some first]) (ka ++ other_segments key (1 + Z.of_nat (length rest)))
      (nb ++ [1 + Z.of_nat (length rest)])) as (adds & Hrun & Hread & Hadds).
    exists (other_segments key (1 + Z.of_nat (length rest)) ++ adds). rewrite Hz.
    assert (first_segment (key, Some (get_initial_count_first_chunk (1 + Z.of_nat (length rest)) first))
      (bv, ka, nb) = Ok (bv ++ [Some first], ka ++ other_segments key (1 + Z.of_nat (length rest)),
        nb ++ [1 + Z.of_nat (length rest)])) as ->.
    { unfold first_segment. by rewrite read_count_first, drop_first
        by (unfold MAX_SEGMENTS, u32_MAX in *; lia). }
    cbn [mbind result_bind]. rewrite Hrun, !fmap_app, Hsegs, Hread. csimpl. rewrite <- !(assoc_L (++)).
    split_and!; [done|by rewrite fmap_app|by apply Forall_app_2].
  - destruct Hp as [_ Hz]. destruct (IH (bv ++ [None]) ka (nb ++ [0])) as (adds & Hrun & Hread & Hadds).
    exists adds. rewrite Hz. cbn [first_segment mbind result_bind]. rewrite Hrun. csimpl. rewrite <- !(assoc_L (++)). done.
Qed.

Lemma fill_values_ok s m keys parts :
  Forall2 (part_of s m) keys parts ->
  fill_values (part_count <$> parts) (part_first <$> parts) (Some <$> (parts ≫= part_rest)) =
  Ok ((fun key => m !! key) <$> keys).
Proof.
  induction 1 as [|key part keys parts Hp _ IH]; csimpl; [done|].
  destruct part as [[first rest]|]; simpl in Hp; simpl.
  - destruct Hp as (-> & _ & _ & _ & _). rewrite fmap_app. destruct (Z.ltb_spec 1 (1 + Z.of_nat (length rest))) as [Hlt|Hge].
    + replace (Z.to_nat (1 + Z.of_nat (length rest) - 1)) with (length rest) by lia.
      rewrite take_segments_ok. simpl. by rewrite IH.
    + destruct rest; [|simpl in Hge; lia]. simpl. rewrite IH, app_nil_r. done.
  - destruct Hp as [-> _]. by rewrite IH.
Qed.

Lemma no_rest_values s m keys parts :
  Forall2 (part_of s m) keys parts -> parts ≫= part_rest = [] ->
  part_first <$> parts = (fun key => m !! key) <$> keys.
Proof.
  induction 1 as [|key part keys parts Hp _ IH]; csimpl; [done|]. intros [Hr Hrest]%app_eq_nil.
  rewrite IH by done. destruct part as [[first rest]|]; simpl in *; [|by destruct Hp as [-> _]].
  destruct Hp as (-> & _). rewrite Hr, app_nil_r. done.
Qed.

Lemma split_read_multi_key_ok keys self m :
  Forall allowed keys -> splitting_holds self m ->
  exists self', split_read_multi_key keys self = Ok ((fun key => m !! key) <$> keys, self') /\
    splitting_holds self' m.
Proof.
  intros Hkeys (s & Hc & Hs & Hm). unfold split_read_multi_key.
  destruct (read_multi_key_holds (zero_key <$> keys) (split_client self) s) as (c1 & -> & Hc1); [|done|].
  { apply Forall_fmap. eapply Forall_impl; [exact Hkeys|]. intros key Hkey.
    unfold compose. rewrite zero_key_segment. by apply segments_ok. }
  destruct (parts_exist s m keys Hkeys Hs) as [parts Hparts].
  destruct (first_segments_ok s m keys parts Hparts [] [] []) as (adds & Hrun & Hread & Hadds).
  cbn [mbind result_bind]. simpl in Hrun. rewrite Hrun. cbn [mbind result_bind].
  case_bool_decide as Hempty.
  - subst adds. simpl in Hread. symmetry in Hread. apply fmap_nil_inv in Hread.
    rewrite (no_rest_values s m keys parts Hparts Hread). eexists. split; [done|by exists s].
  - destruct (read_multi_key_holds adds c1 s Hadds Hc1) as (c2 & -> & Hc2). cbn [mbind result_bind].
    rewrite Hread, (fill_values_ok s m keys parts Hparts). simpl. eexists. split; [done|by exists s].
Qed.

Program Definition splitting_laws : ClientLaws (ValueSplittingClient C) :=
  {| domain := splitting_domain; holds := splitting_holds |}.
Next Obligation. by apply allowed_wf. Qed.
Next Obligation. by apply allowed_prefix_wf. Qed.
Next Obligation. by intros c m (s & _ & _ & Hm). Qed.
Next Obligation. intros key c m. apply split_read_key_ok. Qed.
Next Obligation. intros keys c m. apply split_read_multi_key_ok. Qed.
Next Obligation.
  intros p c m Hp (s & Hc & Hs & Hm). simpl. unfold split_find_keys.
  rewrite (find_keys_holds p _ s) by (by apply prefixes_ok || done). simpl.
  unfold find_keys_by_prefix. rewrite !range_keys_entries, <- !list_fmap_compose.
  destruct (split_find_exact allowed allowed_prefix allowed_wf allowed_prefix_wf keys_separated
    prefixes_separated s m p Hp Hs) as [_ Hkeys].
  unfold relative in Hkeys. rewrite <- !list_fmap_compose in Hkeys. exact Hkeys.
Qed.
Next Obligation.
  intros p c m Hp (s & Hc & Hs & Hm). simpl. unfold split_find_key_values.
  rewrite (find_key_values_holds p _ s) by (by apply prefixes_ok || done). simpl.
  by destruct (split_find_exact allowed allowed_prefix allowed_wf allowed_prefix_wf keys_separated
    prefixes_separated s m p Hp Hs) as [Hkvs _].
Qed.
Next Obligation.
  intros batch b c m Hok Hb (s & Hc & Hs & Hm). simpl. unfold split_write_batch.
  destruct (split_batch_ok batch s m Hok Hs) as [Hs' Hok'].
  destruct (write_batch_holds _ b _ s Hok' Hb Hc) as (c' & -> & Hc'). simpl. eexists. split; [done|].
  eexists. split_and!; [exact Hc'|exact Hs'|by apply ok_map_write].
Qed.
Next Obligation.
  intros b c m Hb (s & Hc & Hs & Hm). simpl. unfold split_clear_journal.
  destruct (clear_journal_holds b _ s Hb Hc) as (c' & -> & Hc'). simpl. eexists. split; [done|].
  by exists s.
Qed.

End laws.

(** ** The client in memory with a limit on the size of values *)

Record TestMemoryClientInternal := { test_client : MemoryClient }.

Definition test_write_batch (batch : Batch) (base_key : bytes) (self : TestMemoryClientInternal)
    : result ClientError TestMemoryClientInternal :=
  ensure (check_value_size batch 100) TooLargeValue;;
  client ← client_write_batch batch base_key (test_client self);
  Ok {| test_client := client |}.

#[export] Instance test_memory_client : KeyValueStoreClient TestMemoryClientInternal :=
  {| MAX_VALUE_SIZE := 100;
     client_read_key key self :=
       '(value, client) ← client_read_key key (test_client self); Ok (value, {| test_client := client |});
     client_read_multi_key keys self :=
       '(values, client) ← client_read_multi_key keys (test_client self);
       Ok (values, {| test_client := client |});
     client_find_keys p self := client_find_keys p (test_client self);
     client_find_key_values p self := client_find_key_values p (test_client self);
     client_write_batch := test_write_batch;
     client_clear_journal b self :=
       client ← client_clear_journal b (test_client self); Ok {| test_client := client |} |}.

Definition test_domain : Domain :=
  {| ok_key := bytes_wf; ok_prefix := bytes_wf; ok_value v := Z.of_nat (length v) <= 100;
     ok_base_key _ := True |}.

#[export] Program Instance test_memory_laws : ClientLaws TestMemoryClientInternal :=
  {| domain := test_domain; holds self m := client_map (test_client self) = m /\ ok_map test_domain m |}.
Next Obligation. done. Qed.
Next Obligation. done. Qed.
Next Obligation. by intros c m [_ Hm]. Qed.
Next Obligation. intros key [c] m _ [<- Hm]. by exists {| test_client := c |}. Qed.
Next Obligation. intros keys [c] m _ [<- Hm]. by exists {| test_client := c |}. Qed.
Next Obligation. by intros p c m _ [<- Hm]. Qed.
Next Obligation. by intros p c m _ [<- Hm]. Qed.
Next Obligation.
  intros batch b c m Hops _ [<- Hm]. simpl. unfold test_write_batch.
  assert (check_value_size batch 100 = true) as ->.
  { apply forallb_forall. intros o Ho%list_elem_of_In. rewrite Forall_forall in Hops.
    specialize (Hops o Ho). destruct o; [done..|]. destruct Hops as [_ Hv]. by apply Z.leb_le. }
  simpl. eexists. split; [done|]. split; [done|]. simpl. by apply ok_map_write.
Qed.
Next Obligation. intros b [c] m _ [<- Hm]. by exists {| test_client := c |}. Qed.


Module SplittingExamples.

Definition empty_client : ValueSplittingClient TestMemoryClientInternal :=
  {| split_client := {| test_client := {| client_map := ∅ |} |} |}.
(** Bytes that are not 0. *)
Definition no_zero (k : bytes) : Prop := Forall (fun b => 0 < b <= 255) k.

Definition large_value : bytes := replicate 250 3.
Definition requests : list ClientRequest :=
  [WriteBatch [Put [5] large_value; Put [5; 1] [1]; Put [6] [2]] []; ReadKey [5];
   WriteBatch [DeletePrefix [5; 1]; Put [5] [9]] []; FindKeyValues [5]; ReadMultiKey [[5]; [5; 1]; [6]]].

Lemma no_zero_wf k : no_zero k -> bytes_wf k.
Proof. intros Hk. eapply Forall_impl; [exact Hk|]. intros b [Hb1 Hb2]. unfold in_range, u8_MAX. lia. Qed.
Lemma no_zero_separated k b r : no_zero k -> no_zero (k ++ b :: r) -> b <> 0.
Proof. intros _ [_ [Hb _]%Forall_cons]%Forall_app. lia. Qed.


(** The keys [[5]] and [[5; 0]] collide.  Deleting the prefix [[5; 0]] deletes the key [[5]],
    and searching for it fails while [[5]] is there. *)
Theorem prefix_collides_with_segments :
  exists c1 c2, client_write_batch [Put [5] [1]] [] empty_client = Ok c1 /\
    client_find_keys [5; 0] c1 = Err TooShortKey /\
    client_write_batch [DeletePrefix [5; 0]] [] c1 = Ok c2 /\
    exists c3, client_read_key [5] c2 = Ok (None, c3).
Proof. eexists _, _. split_and!; [reflexivity|vm_compute; reflexivity|reflexivity|]. by eexists. Qed.

(** The segments of the key [[5]] are not next to each other when [[5; 0; 0; 0; 0]] is a key:
    listing the entries fails. *)
Theorem segments_interleaved :
  exists c1, client_write_batch [Put [5] large_value; Put [5; 0; 0; 0; 0] [1]] [] empty_client = Ok c1 /\
    client_find_key_values [5] c1 = Err MissingSegment.
Proof. eexists. split; [reflexivity|]. vm_compute. reflexivity. Qed.

End SplittingExamples.
