(* ===== verification/Caching.v ===== *)
(** * Stores with a cache

    [linera-views/src/lru_caching.rs]: a client that wraps a client with a cache of the keys that
    were read or written most recently, also of those that are absent.  Writes go to the cache and
    then to the wrapped client.

    [caching_refines] shows that the cache does not change the answers as long as the requests
    come one after the other and do not fail.  What happens otherwise is at the end of the file. *)

From S2P Require Import Prelude Types Batches KeyValueStore Clients Splitting.

Record LruPrefixCache := {
  cache_map : gmap bytes (option bytes);
  cache_queue : list bytes;
  max_cache_size : nat;
}.

Definition cache_new (max_cache_size : nat) : LruPrefixCache :=
  {| cache_map := ∅; cache_queue := []; max_cache_size := max_cache_size |}.

(** [LinkedHashMap::remove] and [LinkedHashMap::insert]. *)
Definition queue_remove (key : bytes) (queue : list bytes) : list bytes :=
  filter (fun k => k <> key) queue.
Definition queue_insert (key : bytes) (queue : list bytes) : list bytes :=
  queue_remove key queue ++ [key].

Definition cache_insert (key : bytes) (value : option bytes) (self : LruPrefixCache)
    : result ClientError LruPrefixCache :=
  let map := <[key := value]> (cache_map self) in
  let queue := queue_insert key (cache_queue self) in
  match cache_map self !! key with
  | Some _ =>
      Ok {| cache_map := map; cache_queue := queue; max_cache_size := max_cache_size self |}
  | None =>
      if (max_cache_size self <? length queue)%nat then
        match queue with
        | [] => Panic
        | first :: queue =>
            Ok {| cache_map := delete first map; cache_queue := queue;
                  max_cache_size := max_cache_size self |}
        end
      else Ok {| cache_map := map; cache_queue := queue; max_cache_size := max_cache_size self |}
  end.

Definition cache_delete_prefix (key_prefix : bytes) (self : LruPrefixCache) : LruPrefixCache :=
  {| cache_map := foldl (fun map key => <[key := None]> map) (cache_map self)
       (range_keys (get_interval key_prefix) (cache_map self));
     cache_queue := cache_queue self; max_cache_size := max_cache_size self |}.

Definition cache_query (key : bytes) (self : LruPrefixCache) : option (option bytes) :=
  cache_map self !! key.

(** The loop of [write_batch]. *)
Definition cache_operation (operation : WriteOperation) (self : LruPrefixCache)
    : result ClientError LruPrefixCache :=
  match operation with
  | Put key value => cache_insert key (Some value) self
  | Delete key => cache_insert key None self
  | DeletePrefix key_prefix => Ok (cache_delete_prefix key_prefix self)
  end.

(** The first loop of [read_multi_key_bytes]: the answers so far, and the indices and keys of
    those that are not in the cache. *)
Definition query_keys (cache : LruPrefixCache) (keys : list bytes)
    : list (option bytes) * list nat * list bytes :=
  foldl (fun '(values, cache_miss_indices, miss_keys) key =>
    match cache_query key cache with
    | Some value => (values ++ [value], cache_miss_indices, miss_keys)
    | None => (values ++ [None], cache_miss_indices ++ [length values], miss_keys ++ [key])
    end) ([], [], []) keys.
(** The second one. *)
Definition insert_miss (miss : nat * (bytes * option bytes))
    (state : list (option bytes) * LruPrefixCache)
    : result ClientError (list (option bytes) * LruPrefixCache) :=
  let '(i, (key, value)) := miss in
  let '(values, cache) := state in
  cache ← cache_insert key value cache;
  Ok (<[i := value]> values, cache).

Record LruCachingClient (C : Type) := {
  lru_client : C;
  lru_read_keys : option LruPrefixCache;
}.
Arguments lru_client {C}.
Arguments lru_read_keys {C}.
Arguments Build_LruCachingClient {C}.

Section caching.
Context {C : Type} `{KeyValueStoreClient C}.

Definition lru_new (client : C) (max_size : nat) : LruCachingClient C :=
  {| lru_client := client;
     lru_read_keys := if (max_size =? 0)%nat then None else Some (cache_new max_size) |}.

Definition lru_read_key (key : bytes) (self : LruCachingClient C)
    : result ClientError (option bytes * LruCachingClient C) :=
  match lru_read_keys self with
  | None =>
      '(value, client) ← client_read_key key (lru_client self);
      Ok (value, {| lru_client := client; lru_read_keys := None |})
  | Some cache =>
      match cache_query key cache with
      | Some value => Ok (value, self)
      | None =>
          '(value, client) ← client_read_key key (lru_client self);
          cache ← cache_insert key value cache;
          Ok (value, {| lru_client := client; lru_read_keys := Some cache |})
      end
  end.

Definition lru_read_multi_key (keys : list bytes) (self : LruCachingClient C)
    : result ClientError (list (option bytes) * LruCachingClient C) :=
  match lru_read_keys self with
  | None =>
      '(values, client) ← client_read_multi_key keys (lru_client self);
      Ok (values, {| lru_client := client; lru_read_keys := None |})
  | Some cache =>
      let '(values, cache_miss_indices, miss_keys) := query_keys cache keys in
      '(missing, client) ← client_read_multi_key miss_keys (lru_client self);
      '(values, cache) ←
        for_each insert_miss (zip cache_miss_indices (zip miss_keys missing)) (values, cache);
      Ok (values, {| lru_client := client; lru_read_keys := Some cache |})
  end.

(** A write, with the state that it leaves also when the wrapped client refuses it. *)
Definition lru_try_write (batch : Batch) (base_key : bytes) (self : LruCachingClient C)
    : result ClientError (result ClientError unit * LruCachingClient C) :=
  cache ←
    match lru_read_keys self with
    | None => Ok None
    | Some cache => cache ← for_each cache_operation batch cache; Ok (Some cache)
    end;
  match client_write_batch batch base_key (lru_client self) with
  | Ok client => Ok (Ok (), {| lru_client := client; lru_read_keys := cache |})
  | Err e => Ok (Err e, {| lru_client := lru_client self; lru_read_keys := cache |})
  | Panic => Panic
  end.
Definition lru_write_batch (batch : Batch) (base_key : bytes) (self : LruCachingClient C)
    : result ClientError (LruCachingClient C) :=
  '(outcome, self) ← lru_try_write batch base_key self;
  outcome;;
  Ok self.

#[export] Instance caching_client : KeyValueStoreClient (LruCachingClient C) :=
  {| MAX_VALUE_SIZE := MAX_VALUE_SIZE C;
     client_read_key := lru_read_key; client_read_multi_key := lru_read_multi_key;
     client_find_keys p self := client_find_keys p (lru_client self);
     client_find_key_values p self := client_find_key_values p (lru_client self);
     client_write_batch := lru_write_batch;
     client_clear_journal b self :=
       client ← client_clear_journal b (lru_client self);
       Ok {| lru_client := client; lru_read_keys := lru_read_keys self |} |}.

End caching.

(** ** The cache *)

(** The keys of the queue are those of the map, and there are not too many. *)
Record cache_ok (cache : LruPrefixCache) : Prop := {
  co_nodup : NoDup (cache_queue cache);
  co_queue k : k ∈ cache_queue cache <-> is_Some (cache_map cache !! k);
  co_size : (length (cache_queue cache) <= max_cache_size cache)%nat;
  co_wf : store_wf (cache_map cache);
}.
(** What is cached is what a map has. *)
Definition cached (cache : LruPrefixCache) (m : Store) : Prop :=
  forall k value, cache_map cache !! k = Some value -> m !! k = value.

Lemma queue_insert_nodup key queue : NoDup queue -> NoDup (queue_insert key queue).
Proof.
  intros Hq. apply NoDup_app. split_and!; [by apply NoDup_filter| |apply NoDup_singleton].
  intros k [Hk _]%list_elem_of_filter ->%list_elem_of_singleton. done.
Qed.

Lemma elem_of_queue_insert key queue k : k ∈ queue_insert key queue <-> k = key \/ k ∈ queue.
Proof.
  unfold queue_insert, queue_remove.
  rewrite elem_of_app, list_elem_of_filter, list_elem_of_singleton.
  destruct (decide (k = key)); naive_solver.
Qed.

Lemma queue_insert_length key queue :
  NoDup queue -> length (queue_insert key queue) = if decide (key ∈ queue) then length queue else S (length queue).
Proof.
  intros Hq. unfold queue_insert, queue_remove. rewrite length_app, Nat.add_1_r.
  induction Hq as [|k queue Hk Hq IH]; [done|]. rewrite filter_cons.
  destruct (decide (k = key)) as [->|Hne].
  - rewrite decide_False by by intros []. rewrite decide_True by by left.
    rewrite decide_False in IH by done. simpl in *. lia.
  - rewrite decide_True by done. simpl. rewrite IH.
    destruct (decide (key ∈ queue)); [rewrite decide_True by by right|rewrite decide_False by set_solver]; done.
Qed.

(** Inserting what a map has. *)
Lemma cache_insert_ok key value cache m :
  cache_ok cache -> (forall k w, k <> key -> cache_map cache !! k = Some w -> m !! k = w) ->
  (0 < max_cache_size cache)%nat -> bytes_wf key -> m !! key = value ->
  exists cache', cache_insert key value cache = Ok cache' /\ cache_ok cache' /\ cached cache' m /\
    max_cache_size cache' = max_cache_size cache.
Proof.
  intros [Hnd Hq Hs Hwf] Hc Hmax Hkey Hm. unfold cache_insert.
  pose proof (queue_insert_nodup key _ Hnd) as Hnd'.
  pose proof (queue_insert_length key _ Hnd) as Hlen.
  assert (cached {| cache_map := <[key := value]> (cache_map cache);
    cache_queue := queue_insert key (cache_queue cache); max_cache_size := max_cache_size cache |} m) as Hc'.
  { intros k w. simpl. destruct (decide (k = key)) as [->|Hne];
      [rewrite lookup_insert_eq|rewrite lookup_insert_ne by done]; [congruence|by apply Hc]. }
  assert (store_wf (<[key := value]> (cache_map cache))) as Hwf' by by apply map_Forall_insert_2.
  assert (forall k, k ∈ queue_insert key (cache_queue cache) <->
    is_Some (<[key := value]> (cache_map cache) !! k)) as Hq'.
  { intros k. rewrite elem_of_queue_insert, Hq, lookup_insert_is_Some.
    destruct (decide (k = key)); naive_solver. }
  destruct (cache_map cache !! key) as [w|] eqn:Hk.
  - rewrite decide_True in Hlen by (apply Hq; by exists w).
    eexists. split_and!; [done| |done|done]. split; simpl; [done|done|lia|done].
  - rewrite decide_False in Hlen by (rewrite Hq, Hk; by intros [? ?]).
    destruct (Nat.ltb_spec (max_cache_size cache) (length (queue_insert key (cache_queue cache)))) as [Hlt|Hge].
    + destruct (queue_insert key (cache_queue cache)) as [|first queue]; [simpl in Hlt; lia|].
      simpl in Hlen. apply NoDup_cons in Hnd' as [Hfirst Hnd'].
      eexists. split_and!; [done| | |done].
      * split; simpl; [done| |lia|by apply map_Forall_delete]. intros k.
        rewrite lookup_delete_is_Some, <- Hq'. set_solver.
      * intros k w Hw. cbn [cache_map] in Hw. apply lookup_delete_Some in Hw as [_ Hw]. by apply Hc'.
    + eexists. split_and!; [done| |done|done]. split; simpl; [done|done|lia|done].
Qed.

Lemma lookup_mark_deleted keys : forall (map : gmap bytes (option bytes)) k,
  foldl (fun map key => <[key := None]> map) map keys !! k =
  if decide (k ∈ keys) then Some None else map !! k.
Proof.
  induction keys as [|key keys IH]; intros map k; [by rewrite decide_False by apply not_elem_of_nil|].
  cbn [foldl]. rewrite IH. case_decide as Hk; [by rewrite decide_True by by right|].
  destruct (decide (key = k)) as [->|Hne]; [by rewrite lookup_insert_eq, decide_True by by left|].
  rewrite lookup_insert_ne, decide_False by set_solver. done.
Qed.

Lemma cache_delete_prefix_ok p cache m :
  cache_ok cache -> cached cache m -> bytes_wf p -> store_wf m ->
  cache_ok (cache_delete_prefix p cache) /\
  cached (cache_delete_prefix p cache) (write_operation m (DeletePrefix p)).
Proof.
  intros [Hnd Hq Hs Hwf] Hc Hp Hm.
  assert (forall k, k ∈ range_keys (get_interval p) (cache_map cache) <->
    p `prefix_of` k /\ is_Some (cache_map cache !! k)) as Hkeys.
  { intros k. rewrite elem_of_range_keys. split; intros [Hi [w Hw]]; (split; [|by exists w]);
      (apply interval_prefix; [done|by eapply Hwf|done]). }
  assert (forall k, is_Some (cache_map (cache_delete_prefix p cache) !! k) <-> is_Some (cache_map cache !! k))
    as Hdom.
  { intros k. simpl. rewrite lookup_mark_deleted. case_decide as Hk; [|done].
    apply Hkeys in Hk as [_ Hk]. naive_solver. }
  split.
  - split; [done| |done|].
    + intros k. rewrite Hdom. apply Hq.
    + intros k w Hw. destruct (proj1 (Hdom k)) as [w' Hw']; [by exists w|]. by eapply Hwf.
  - intros k w. simpl. rewrite lookup_mark_deleted, lookup_delete_prefix by done.
    case_decide as Hk; [apply Hkeys in Hk as [Hk _]; rewrite decide_True by done; congruence|].
    intros Hw. rewrite decide_False; [by apply Hc|]. intros Hpre. apply Hk, Hkeys.
    split; [done|by exists w].
Qed.

Lemma cache_operation_ok operation cache m :
  cache_ok cache -> cached cache m -> (0 < max_cache_size cache)%nat -> store_wf m ->
  bytes_wf (operation_key operation) ->
  exists cache', cache_operation operation cache = Ok cache' /\ cache_ok cache' /\
    cached cache' (write_operation m operation) /\ max_cache_size cache' = max_cache_size cache.
Proof.
  intros Hok Hc Hmax Hm Hwf. destruct operation as [key|p|key value]; simpl in *.
  - apply cache_insert_ok; try done; [|apply lookup_delete_eq].
    intros k w Hne Hw. rewrite lookup_delete_ne by done. by apply Hc.
  - eexists. split; [done|]. by destruct (cache_delete_prefix_ok p cache m Hok Hc Hwf Hm).
  - apply cache_insert_ok; try done; [|apply lookup_insert_eq].
    intros k w Hne Hw. rewrite lookup_insert_ne by done. by apply Hc.
Qed.

Lemma cache_batch_ok batch : forall cache m,
  cache_ok cache -> cached cache m -> (0 < max_cache_size cache)%nat -> store_wf m -> batch_wf batch ->
  exists cache', for_each cache_operation batch cache = Ok cache' /\ cache_ok cache' /\
    cached cache' (write_batch batch m) /\ max_cache_size cache' = max_cache_size cache.
Proof.
  induction batch as [|o batch IH]; intros cache m Hok Hc Hmax Hm Hwf; [by exists cache|].
  apply Forall_cons in Hwf as [Ho Hwf].
  destruct (cache_operation_ok o cache m) as (c1 & Hrun & Hok1 & Hc1 & Hmax1); try done; [by destruct o|].
  destruct (IH c1 (write_operation m o)) as (c2 & Hrun2 & Hok2 & Hc2 & Hmax2);
    [done|done|by rewrite Hmax1|by apply write_operation_wf|done|].
  exists c2. cbn [for_each]. rewrite Hrun. cbn [mbind result_bind]. rewrite Hrun2. split_and!; [done..|congruence].
Qed.

(** *** Reading many keys *)

Lemma query_keys_ok cache keys :
  let '(values, cache_miss_indices, miss_keys) := query_keys cache keys in
  length values = length keys /\
  Forall2 (fun i key => keys !! i = Some key) cache_miss_indices miss_keys /\
  Forall (fun key => key ∈ keys) miss_keys /\
  forall i key, keys !! i = Some key ->
    i ∈ cache_miss_indices \/ exists value, cache_map cache !! key = Some value /\ values !! i = Some value.
Proof.
  induction keys as [|key keys IH] using rev_ind; [by split_and!|].
  unfold query_keys in *. rewrite foldl_app. cbn [foldl].
  destruct (foldl _ _ keys) as [[values indices] misses]. destruct IH as (Hlen & Hidx & Hmiss & Hvalues).
  assert (forall i key', keys !! i = Some key' -> (keys ++ [key]) !! i = Some key') as Hmono.
  { intros i key' Hi. by apply lookup_app_l_Some. }
  unfold cache_query. destruct (cache_map cache !! key) as [value|] eqn:Hk.
  - split_and!; [rewrite !length_app; simpl; lia| | |].
    + eapply Forall2_impl; [exact Hidx|]. simpl. auto.
    + eapply Forall_impl; [exact Hmiss|]. set_solver.
    + intros i key' [[_ Hi]|[-> <-]]%lookup_snoc_Some.
      * destruct (Hvalues i key' Hi) as [?|(w & Hw & Hv)]; [by left|right]. exists w. split; [done|].
        by apply lookup_app_l_Some.
      * right. exists value. split; [done|]. by rewrite <- Hlen, lookup_app_r, Nat.sub_diag.
  - split_and!; [rewrite !length_app; simpl; lia| | |].
    + apply Forall2_app; [eapply Forall2_impl; [exact Hidx|]; simpl; auto|].
      constructor; [|constructor]. by rewrite Hlen, lookup_app_r, Nat.sub_diag.
    + apply Forall_app_2; [eapply Forall_impl; [exact Hmiss|]; set_solver|]. constructor; [set_solver|done].
    + intros i key' [[_ Hi]|[-> <-]]%lookup_snoc_Some.
      * destruct (Hvalues i key' Hi) as [?|(w & Hw & Hv)]; [left; set_solver|right]. exists w. split; [done|].
        by apply lookup_app_l_Some.
      * left. rewrite Hlen. set_solver.
Qed.

Lemma insert_misses_ok (keys : list bytes) (m : Store) indices misses : forall values cache,
  Forall2 (fun i key => keys !! i = Some key) indices misses -> Forall bytes_wf misses ->
  length values = length keys -> cache_ok cache -> cached cache m -> (0 < max_cache_size cache)%nat ->
  exists values' cache',
    for_each insert_miss (zip indices (zip misses ((fun key => m !! key) <$> misses))) (values, cache) =
      Ok (values', cache') /\
    cache_ok cache' /\ cached cache' m /\ max_cache_size cache' = max_cache_size cache /\
    length values' = length keys /\
    forall i, values' !! i = if decide (i ∈ indices) then (fun key => m !! key) <$> keys !! i else values !! i.
Proof.
  intros values cache Hidx. revert values cache.
  induction Hidx as [|i key indices misses Hi _ IH]; intros values cache Hwf Hlen Hok Hc Hmax.
  { exists values, cache. by split_and!. }
  apply Forall_cons in Hwf as [Hkey Hwf].
  destruct (cache_insert_ok key (m !! key) cache m) as (c1 & Hrun & Hok1 & Hc1 & Hmax1); try done;
    [intros k w _; apply Hc|].
  destruct (IH (<[i := m !! key]> values) c1) as (values' & c2 & Hrun2 & Hok2 & Hc2 & Hmax2 & Hlen2 & Hv);
    [done|by rewrite length_insert|done|done|by rewrite Hmax1|].
  exists values', c2. rewrite fmap_cons. cbn [zip zip_with for_each].
  assert (insert_miss (i, (key, m !! key)) (values, cache) = Ok (<[i := m !! key]> values, c1)) as ->
    by (unfold insert_miss; by rewrite Hrun).
  cbn [mbind result_bind]. rewrite Hrun2. split_and!; [done|done|done|congruence|done|].
  intros j. rewrite Hv. case_decide as Hj; [by rewrite decide_True by by right|].
  destruct (decide (j = i)) as [->|Hne].
  - rewrite decide_True, list_lookup_insert_eq, Hi; [done| |by left].
    rewrite Hlen. by eapply lookup_lt_Some.
  - rewrite list_lookup_insert_ne, decide_False by set_solver. done.
Qed.

(** ** What the client promises *)

Section laws.
Context {C : Type} `{ClientLaws C}.

Definition caching_holds (self : LruCachingClient C) (m : Store) : Prop :=
  holds (lru_client self) m /\
  match lru_read_keys self with
  | Some cache => cache_ok cache /\ cached cache m /\ (0 < max_cache_size cache)%nat
  | None => True
  end.

Lemma lru_read_key_ok key self m :
  ok_key (domain C) key -> caching_holds self m ->
  exists self', lru_read_key key self = Ok (m !! key, self') /\ caching_holds self' m.
Proof.
  intros Hkey [Hc Hcache]. unfold lru_read_key.
  destruct (read_key_holds key _ m Hkey Hc) as (c1 & Hread & Hc1). destruct self as [c [cache|]]; simpl in *.
  - destruct Hcache as (Hok & Hcached & Hmax). unfold cache_query.
    destruct (cache_map cache !! key) as [value|] eqn:Hk; [rewrite (Hcached key value Hk); by eexists|].
    rewrite Hread. simpl.
    destruct (cache_insert_ok key (m !! key) cache m) as (cache' & -> & Hok' & Hcached' & Hmax'); try done;
      [intros k w _; apply Hcached|by apply (ok_key_wf (C := C))|].
    simpl. eexists. split; [done|]. split; [done|]. simpl. by rewrite Hmax'.
  - rewrite Hread. by eexists.
Qed.

Lemma lru_read_multi_key_ok keys self m :
  Forall (ok_key (domain C)) keys -> caching_holds self m ->
  exists self', lru_read_multi_key keys self = Ok ((fun key => m !! key) <$> keys, self') /\
    caching_holds self' m.
Proof.
  intros Hkeys [Hc Hcache]. unfold lru_read_multi_key. destruct self as [c [cache|]]; simpl in *.
  - destruct Hcache as (Hok & Hcached & Hmax). pose proof (query_keys_ok cache keys) as Hq.
    destruct (query_keys cache keys) as [[values indices] misses].
    destruct Hq as (Hlen & Hidx & Hmiss & Hvalues).
    assert (Forall (ok_key (domain C)) misses) as Hmkeys.
    { rewrite Forall_forall in *. auto. }
    destruct (read_multi_key_holds misses c m Hmkeys Hc) as (c1 & -> & Hc1). cbn [mbind result_bind].
    destruct (insert_misses_ok keys m indices misses values cache Hidx)
      as (values' & cache' & -> & Hok' & Hcached' & Hmax' & Hlen' & Hv); try done.
    { eapply Forall_impl; [exact Hmkeys|]. apply ok_key_wf. }
    cbn [mbind result_bind]. exists {| lru_client := c1; lru_read_keys := Some cache' |}. split; [|split; [done|]; simpl; by rewrite Hmax'].
    do 2 f_equal. apply list_eq. intros i. rewrite Hv, list_lookup_fmap.
    case_decide as Hi; [done|]. destruct (keys !! i) as [key|] eqn:Hk.
    + destruct (Hvalues i key Hk) as [?|(w & Hw & ->)]; [done|]. simpl. by rewrite (Hcached key w Hw).
    + apply lookup_ge_None in Hk. simpl. apply lookup_ge_None. lia.
  - destruct (read_multi_key_holds keys c m Hkeys Hc) as (c1 & -> & Hc1). simpl. by eexists.
Qed.

Lemma ok_batch_wf batch : Forall (ok_operation (domain C)) batch -> batch_wf batch.
Proof.
  intros Hops. eapply Forall_impl; [exact Hops|]. intros [key|p|key value] Ho; simpl in *.
  - exact (ok_key_wf (C := C) _ Ho).
  - exact (ok_prefix_wf (C := C) _ Ho).
  - exact (ok_key_wf (C := C) _ (proj1 Ho)).
Qed.

Lemma lru_write_batch_ok batch b self m :
  Forall (ok_operation (domain C)) batch -> ok_base_key (domain C) b -> caching_holds self m ->
  exists self', lru_write_batch batch b self = Ok self' /\ caching_holds self' (write_batch batch m).
Proof.
  intros Hops Hb [Hc Hcache]. unfold lru_write_batch, lru_try_write.
  destruct (write_batch_holds batch b _ m Hops Hb Hc) as (c1 & Hwrite & Hc1).
  destruct self as [c [cache|]]; simpl in *.
  - destruct Hcache as (Hok & Hcached & Hmax).
    destruct (cache_batch_ok batch cache m) as (cache' & -> & Hok' & Hcached' & Hmax'); try done.
    { by eapply ok_map_wf, holds_ok. }
    { by apply ok_batch_wf. }
    simpl. rewrite Hwrite. simpl. eexists. split; [done|]. split; [done|]. simpl. by rewrite Hmax'.
  - rewrite Hwrite. by eexists.
Qed.

#[export] Program Instance caching_laws : ClientLaws (LruCachingClient C) :=
  {| domain := domain C; holds := caching_holds |}.
Next Obligation. apply ok_key_wf. Qed.
Next Obligation. apply ok_prefix_wf. Qed.
Next Obligation. intros c m [Hc _]. by eapply holds_ok. Qed.
Next Obligation. intros key c m. apply lru_read_key_ok. Qed.
Next Obligation. intros keys c m. apply lru_read_multi_key_ok. Qed.
Next Obligation. intros p c m Hp [Hc _]. by apply (find_keys_holds (C := C)). Qed.
Next Obligation. intros p c m Hp [Hc _]. by apply (find_key_values_holds (C := C)). Qed.
Next Obligation. intros batch b c m. apply lru_write_batch_ok. Qed.
Next Obligation.
  intros b c m Hb [Hc Hcache]. simpl.
  destruct (clear_journal_holds b _ m Hb Hc) as (c1 & -> & Hc1). simpl. by eexists.
Qed.


End laws.

(** ** Failed and concurrent requests *)

Section concurrent.
Context {C : Type} `{KeyValueStoreClient C}.

(** [read_key_bytes] releases the cache while it reads from the wrapped client; these are its
    two halves, for a key that is not in the cache. *)
Definition lru_read_miss (key : bytes) (self : LruCachingClient C)
    : result ClientError (option bytes * LruCachingClient C) :=
  '(value, client) ← client_read_key key (lru_client self);
  Ok (value, {| lru_client := client; lru_read_keys := lru_read_keys self |}).
Definition lru_read_finish (key : bytes) (value : option bytes) (self : LruCachingClient C)
    : result ClientError (LruCachingClient C) :=
  match lru_read_keys self with
  | None => Ok self
  | Some cache =>
      cache ← cache_insert key value cache;
      Ok {| lru_client := lru_client self; lru_read_keys := Some cache |}
  end.

Lemma lru_read_halves key self :
  (forall cache, lru_read_keys self = Some cache -> cache_query key cache = None) ->
  lru_read_key key self =
  ('(value, self) ← lru_read_miss key self; self ← lru_read_finish key value self; Ok (value, self)).
Proof.
  intros Hmiss. unfold lru_read_key, lru_read_miss, lru_read_finish.
  destruct self as [c [cache|]]; simpl in *; [rewrite (Hmiss cache eq_refl)|];
    destruct (client_read_key key c) as [[value c']| |]; simpl; try done.
  by destruct (cache_insert key value cache).
Qed.

End concurrent.

Module CachingExamples.

Definition client : MemoryClient := {| client_map := ∅ |}.
Definition limited_client : TestMemoryClientInternal := {| test_client := client |}.


(** A write that fails stays in the cache.  The wrapped client refuses a value of 101 bytes, but
    it is read afterwards. *)
Theorem failed_write_cached :
  exists self' self'', lru_try_write [Put [1] (replicate 101 7)] [] (lru_new limited_client 10) =
      Ok (Err TooLargeValue, self') /\
    lru_client self' = limited_client /\
    lru_read_key [1] self' = Ok (Some (replicate 101 7), self'').
Proof. eexists _, _. split_and!; vm_compute; reflexivity. Qed.

(** A read that runs while the key is written.  The key is absent when it is read; then it is
    written; then the first task puts what it has read into the cache.  From then on the key is
    reported to be absent, although it is stored. *)
Theorem read_race_stale :
  exists value c1 c2 c3 c4, lru_read_miss [1] (lru_new client 10) = Ok (value, c1) /\
    lru_write_batch [Put [1] [7]] [] c1 = Ok c2 /\
    lru_read_finish [1] value c2 = Ok c3 /\
    lru_read_key [1] c3 = Ok (None, c4) /\
    client_map (lru_client c4) !! [1] = Some [7].
Proof. eexists _, _, _, _, _. split_and!; vm_compute; reflexivity. Qed.

End CachingExamples.
