(* ===== verification/Journal.v ===== *)
(** * Batches in DynamoDB

    The part of [linera-views/src/dynamo_db.rs] between the batches of the views and the
    database.  A batch is simplified, its prefix deletions are expanded, and it is written in one
    transaction when it is small enough.  Otherwise it is written to a journal, in blocks, then a
    header is written with the number of blocks, and the blocks are executed one by one;
    [clear_journal] does what is left of a journal before a view is loaded.

    The database is external code (class [DynamoDb]): what matters is that a transaction is
    executed as a whole or not at all, and it may fail at any time.  So the operations return the
    state of the client also when they fail, with the tables after each of the transactions: a
    crash leaves one of these.  [journal_atomic] shows that a batch is then written completely or
    not at all, and [journal_recovers] that the journal can always be cleared. *)

From S2P Require Import Prelude Types Batches KeyValueStore Views Clients Splitting.

Definition JOURNAL_TAG : Z := 0.
Definition MAX_KEY_BYTES : Z := 1024.
Definition RAW_MAX_VALUE_BYTES : Z := 409600.
Definition VISIBLE_MAX_VALUE_BYTES : Z := 408569.
Definition MAX_TRANSACT_WRITE_ITEM_BYTES : Z := 4194304.
Definition MAX_TRANSACT_WRITE_ITEM_SIZE : Z := 100.
Definition journal_tag : Z := 1.
Definition entry_tag : Z := 2.

(** [usize] products are taken to be exact. *)
Fixpoint uleb128_loop (fuel : nat) (len power expo : Z) : Z :=
  match fuel with
  | O => expo
  | S fuel => if power <=? len then uleb128_loop fuel len (power * 128) (expo + 1) else expo
  end.
Definition get_uleb128_size (len : Z) : Z := uleb128_loop 10 len 128 1.

Inductive TransactWriteItem :=
| TransactDelete (key : bytes)
| TransactPut (key value : bytes).

Record JournalHeader := { block_count : Z }.

(** The tables after the transactions that were submitted, for the proofs. *)
Record DynamoDbClientInternal := {
  table : Store;
  history : list (list TransactWriteItem * Store);
}.

(** The database: the pages of a query for the keys with a prefix, and transactions. *)
Class DynamoDb := {
  query_pages : bytes -> Store -> list (list (bytes * bytes));
  transact_write_items : list TransactWriteItem -> Store -> result ClientError Store;
}.
(** [bcs]. *)
Class JournalSerde := {
  batch_serde :: Serde SimpleUnorderedBatch;
  header_serde :: Serde JournalHeader;
  serialized_size : bytes -> Z;
}.

(** ** Operations that keep the state when they fail *)

Definition dynamo (A : Type) : Type :=
  DynamoDbClientInternal -> result ClientError A * DynamoDbClientInternal.
Definition dret {A} (a : A) : dynamo A := fun db => (Ok a, db).
Definition dlift {A} (r : result ClientError A) : dynamo A := fun db => (r, db).
Definition dbind {A B} (m : dynamo A) (f : A -> dynamo B) : dynamo B := fun db =>
  match m db with
  | (Ok a, db) => f a db
  | (Err e, db) => (Err e, db)
  | (Panic, db) => (Panic, db)
  end.
Declare Scope dynamo_scope.
Delimit Scope dynamo_scope with dynamo.
Notation "'let*' x := m 'in' k" := (dbind m (fun x => k))
  (at level 200, x pattern, m at level 100, k at level 200) : dynamo_scope.
Notation "m ';*' k" := (dbind m (fun _ => k)) (at level 100, right associativity) : dynamo_scope.
Open Scope dynamo_scope.

Fixpoint dfor_each {A S} (f : A -> S -> dynamo S) (l : list A) (s : S) : dynamo S :=
  match l with
  | [] => dret s
  | a :: l => let* s := f a s in dfor_each f l s
  end.

Definition check_key (key : bytes) : result ClientError unit :=
  ensure (negb (bool_decide (key = []))) ZeroLengthKey;;
  ensure (Z.of_nat (length key) <=? MAX_KEY_BYTES) KeyTooLong.
Definition build_delete_transact (key : bytes) : result ClientError TransactWriteItem :=
  check_key key;; Ok (TransactDelete key).
Definition build_put_transact (key value : bytes) : result ClientError TransactWriteItem :=
  check_key key;;
  ensure (Z.of_nat (length value) <=? RAW_MAX_VALUE_BYTES) ValueLengthTooLarge;;
  Ok (TransactPut key value).

(** [TransactionBuilder]. *)
Definition insert_delete_request (key : bytes) (transacts : list TransactWriteItem)
    : result ClientError (list TransactWriteItem) :=
  transact ← build_delete_transact key; Ok (transacts ++ [transact]).
Definition insert_put_request (key_value : bytes * bytes) (transacts : list TransactWriteItem)
    : result ClientError (list TransactWriteItem) :=
  transact ← build_put_transact key_value.1 key_value.2; Ok (transacts ++ [transact]).

Definition get_journaling_key (base_key : bytes) (tag pos : Z) : bytes :=
  base_key ++ [JOURNAL_TAG] ++ [tag] ++ le_bytes32 pos.

(** [DynamoDbKeyBlockIterator]: an empty page ends the iteration. *)
Fixpoint iterate_pages {A} (pages : list (list A)) : list A :=
  match pages with
  | [] => []
  | page :: pages =>
      page ++ match pages with
              | [] :: _ => []
              | _ => iterate_pages pages
              end
  end.

Section dynamo_db.
Context `{DynamoDb, JournalSerde}.

Definition submit_transactions (transacts : list TransactWriteItem) : dynamo unit := fun db =>
  if MAX_TRANSACT_WRITE_ITEM_SIZE <? Z.of_nat (length transacts) then (Err TransactUpperLimitSize, db)
  else if bool_decide (transacts = []) then (Ok (), db)
  else
    match transact_write_items transacts (table db) with
    | Ok table => (Ok (), {| table := table; history := history db ++ [(transacts, table)] |})
    | Err e => (Err e, db)
    | Panic => (Panic, db)
    end.

Definition write_single_key_value (key value : bytes) : dynamo unit :=
  let* transacts := dlift (insert_put_request (key, value) []) in
  submit_transactions transacts.

Definition get_list_responses (key_prefix : bytes) (db : DynamoDbClientInternal)
    : result ClientError (list (list (bytes * bytes))) :=
  ensure (negb (bool_decide (key_prefix = []))) ZeroLengthKeyPrefix;;
  ensure (Z.of_nat (length key_prefix) <=? MAX_KEY_BYTES) KeyPrefixTooLong;;
  Ok (query_pages key_prefix (table db)).

Definition dynamo_find_key_values (key_prefix : bytes) (db : DynamoDbClientInternal)
    : result ClientError (list (bytes * bytes)) :=
  responses ← get_list_responses key_prefix db;
  Ok ((fun kv => (drop (length key_prefix) kv.1, kv.2)) <$> iterate_pages responses).
Definition dynamo_find_keys (key_prefix : bytes) (db : DynamoDbClientInternal)
    : result ClientError (list bytes) :=
  responses ← get_list_responses key_prefix db;
  Ok ((fun kv => drop (length key_prefix) kv.1) <$> iterate_pages responses).

(** *** Resolving a journal *)

Definition add_journal_header_operations (header : JournalHeader) (base_key : bytes)
    (transacts : list TransactWriteItem) : result ClientError (list TransactWriteItem) :=
  let key := get_journaling_key base_key journal_tag 0 in
  if 0 <? block_count header then insert_put_request (key, to_bytes header) transacts
  else insert_delete_request key transacts.

(** The transaction for the block at [key], when [count] blocks are left after it. *)
Definition block_transacts (base_key key : bytes) (value : SimpleUnorderedBatch) (count : Z)
    : result ClientError (list TransactWriteItem) :=
  tb ← insert_delete_request key [];
  tb ← for_each insert_delete_request (deletions value) tb;
  tb ← for_each insert_put_request (insertions value) tb;
  add_journal_header_operations {| block_count := count |} base_key tb.

Fixpoint coherently_resolve_journal (count : nat) (base_key : bytes) : dynamo unit :=
  match count with
  | O => dret ()
  | S count =>
      let key := get_journaling_key base_key entry_tag (Z.of_nat count) in
      fun db =>
        match table db !! key with
        | Some value =>
            (let* value := dlift (ok_or (from_bytes value) ClientBcsError) in
             let* transacts := dlift (block_transacts base_key key value (Z.of_nat count)) in
             submit_transactions transacts ;*
             coherently_resolve_journal count base_key) db
        | None => (Err DatabaseRecoveryFailed, db)
        end
  end.

(** *** Writing a journal *)

(** What is left of the iterators over the deletions and the insertions. *)
Inductive JournalItem :=
| ItemDelete (key : bytes)
| ItemPut (key value : bytes).

Definition item_size (item : JournalItem) : Z :=
  match item with
  | ItemDelete key => serialized_size key
  | ItemPut key value => serialized_size key + serialized_size value
  end.

Record JournalProgress := {
  value_size : Z;
  transact_size : Z;
  pending_deletions : list bytes;
  pending_insertions : list (bytes * bytes);
  journal_blocks : Z;
  transacts : list TransactWriteItem;
}.

Definition add_item (item : JournalItem) (p : JournalProgress) : JournalProgress :=
  {| value_size := value_size p + item_size item; transact_size := transact_size p;
     pending_deletions :=
       match item with ItemDelete key => pending_deletions p ++ [key] | _ => pending_deletions p end;
     pending_insertions :=
       match item with
       | ItemPut key value => pending_insertions p ++ [(key, value)]
       | _ => pending_insertions p
       end;
     journal_blocks := journal_blocks p; transacts := transacts p |}.

Definition num_deletions (p : JournalProgress) : Z := Z.of_nat (length (pending_deletions p)).
Definition num_insertions (p : JournalProgress) : Z := Z.of_nat (length (pending_insertions p)).

(** [value_flush] and [transact_flush]. *)
Definition flushes (rest : list JournalItem) (p : JournalProgress) : bool * bool :=
  match rest with
  | [] => (true, true)
  | next :: _ =>
      if num_deletions p + num_insertions p =? MAX_TRANSACT_WRITE_ITEM_SIZE - 2 then (true, true)
      else
        let next_size := item_size next in
        let next_value_size := value_size p + next_size + get_uleb128_size (num_deletions p + 1)
          + get_uleb128_size (num_insertions p + 1) in
        let next_transact_size := transact_size p + next_value_size in
        let transact_flush := MAX_TRANSACT_WRITE_ITEM_BYTES <? next_transact_size in
        (transact_flush || (RAW_MAX_VALUE_BYTES <? next_value_size), transact_flush)
  end.

Definition flush_value (base_key : bytes) (p : JournalProgress) : result ClientError JournalProgress :=
  let value_size := value_size p + get_uleb128_size (num_deletions p)
    + get_uleb128_size (num_insertions p) in
  let entry := {| deletions := pending_deletions p; insertions := pending_insertions p |} in
  let value := to_bytes entry in
  assertion (Z.of_nat (length value) =? value_size);;
  let key := get_journaling_key base_key entry_tag (journal_blocks p) in
  transact ← build_put_transact key value;
  Ok {| value_size := 0; transact_size := transact_size p + value_size; pending_deletions := [];
        pending_insertions := []; journal_blocks := (journal_blocks p + 1) mod 2 ^ 32;
        transacts := transacts p ++ [transact] |}.

Definition flush_transact (p : JournalProgress) : dynamo JournalProgress :=
  submit_transactions (transacts p) ;*
  dret {| value_size := value_size p; transact_size := 0; pending_deletions := pending_deletions p;
          pending_insertions := pending_insertions p; journal_blocks := journal_blocks p;
          transacts := [] |}.

Fixpoint write_journal_loop (base_key : bytes) (items : list JournalItem) (p : JournalProgress)
    : dynamo JournalProgress :=
  match items with
  | [] => dret p
  | item :: rest =>
      let p := add_item item p in
      let '(value_flush, transact_flush) := flushes rest p in
      let* p := if value_flush then dlift (flush_value base_key p) else dret p in
      let* p := if transact_flush then flush_transact p else dret p in
      write_journal_loop base_key rest p
  end.

Definition journal_items (self : SimpleUnorderedBatch) : list JournalItem :=
  (ItemDelete <$> deletions self) ++ ((fun kv => ItemPut kv.1 kv.2) <$> insertions self).

Definition write_journal (self : SimpleUnorderedBatch) (base_key : bytes) : dynamo JournalHeader :=
  let* p := write_journal_loop base_key (journal_items self)
    {| value_size := 0; transact_size := 0; pending_deletions := []; pending_insertions := [];
       journal_blocks := 0; transacts := [] |} in
  let header := {| block_count := journal_blocks p |} in
  (if 0 <? journal_blocks p
   then write_single_key_value (get_journaling_key base_key journal_tag 0) (to_bytes header)
   else dret ()) ;*
  dret header.

(** *** Batches *)

Definition is_fastpath_feasible (self : SimpleUnorderedBatch) : bool :=
  if MAX_TRANSACT_WRITE_ITEM_SIZE <? Z.of_nat (length (deletions self) + length (insertions self))
  then false
  else
    let total_size :=
      foldl (fun total_size kv => total_size + Z.of_nat (length kv.1) + Z.of_nat (length kv.2)) 0
        (insertions self) in
    let total_size :=
      foldl (fun total_size key => total_size + Z.of_nat (length key)) total_size (deletions self) in
    total_size <=? MAX_TRANSACT_WRITE_ITEM_BYTES.

Definition write_fastpath_failsafe (self : SimpleUnorderedBatch) : dynamo unit :=
  let* tb := dlift (for_each insert_delete_request (deletions self) []) in
  let* tb := dlift (for_each insert_put_request (insertions self) tb) in
  submit_transactions tb.

(** [expand_delete_prefixes] with the keys that the database finds. *)
Definition dynamo_expand (self : UnorderedBatch) : dynamo SimpleUnorderedBatch := fun db =>
  let simple := simple_unordered_batch self in
  let insert_set : gset bytes := list_to_set (insertions simple).*1 in
  (let* deletions :=
     dfor_each (fun key_prefix deletions db =>
       (let* short_keys := dlift (dynamo_find_keys key_prefix db) in
        dret (deletions ++ filter (fun key => key ∉ insert_set)
                             ((fun short_key => key_prefix ++ short_key) <$> short_keys))) db)
       (key_prefix_deletions self) (deletions simple) in
   dret {| deletions := deletions; insertions := insertions simple |}) db.
Definition from_batch (batch : Batch) : dynamo SimpleUnorderedBatch := dynamo_expand (simplify batch).

Definition dynamo_write_batch (batch : Batch) (base_key : bytes) : dynamo unit :=
  let* block_operations := from_batch batch in
  if is_fastpath_feasible block_operations then write_fastpath_failsafe block_operations
  else
    let* header := write_journal block_operations base_key in
    coherently_resolve_journal (Z.to_nat (block_count header)) base_key.

Definition dynamo_clear_journal (base_key : bytes) : dynamo unit := fun db =>
  match table db !! get_journaling_key base_key journal_tag 0 with
  | Some value =>
      (let* header := dlift (ok_or (from_bytes value) ClientBcsError) in
       coherently_resolve_journal (Z.to_nat (block_count header)) base_key) db
  | None => (Ok (), db)
  end.

End dynamo_db.

(** ** What the code relies on *)

Definition item_operation (item : TransactWriteItem) : WriteOperation :=
  match item with
  | TransactDelete key => Delete key
  | TransactPut key value => Put key value
  end.
Definition item_key (item : TransactWriteItem) : bytes :=
  match item with TransactDelete key | TransactPut key _ => key end.

(** A query without a filter returns the items in order, and only its last page may be empty.  A
    transaction that succeeds was executed completely. *)
Class DynamoDbLaws `{DynamoDb} := {
  query_pages_concat p t :
    bytes_wf p -> store_wf t -> concat (query_pages p t) = range_entries (get_interval p) t;
  query_pages_nonempty p t i page :
    query_pages p t !! i = Some page -> (S i < length (query_pages p t))%nat -> page <> [];
  transact_atomic items t t' :
    transact_write_items items t = Ok t' -> t' = write_batch (item_operation <$> items) t;
}.

(** The limits of a transaction: at most 100 items of at most 4 MB in total, no two with the same
    key, and each within the limits on keys and values.  An available service executes these. *)
Definition item_ok (item : TransactWriteItem) : Prop :=
  (0 < length (item_key item))%nat /\ Z.of_nat (length (item_key item)) <= MAX_KEY_BYTES /\
  match item with
  | TransactPut _ value => Z.of_nat (length value) <= RAW_MAX_VALUE_BYTES
  | TransactDelete _ => True
  end.
Definition items_size (items : list TransactWriteItem) : Z :=
  foldr (fun item size => operation_size (item_operation item) + size) 0 items.
Definition transaction_ok (items : list TransactWriteItem) : Prop :=
  items <> [] /\ Z.of_nat (length items) <= MAX_TRANSACT_WRITE_ITEM_SIZE /\
  NoDup (item_key <$> items) /\ Forall item_ok items /\
  items_size items <= MAX_TRANSACT_WRITE_ITEM_BYTES.
Class DynamoDbAvailable `{DynamoDb} := {
  transact_available items t : transaction_ok items -> exists t', transact_write_items items t = Ok t';
}.

Definition simple_wf_values (b : SimpleUnorderedBatch) : Prop :=
  Forall bytes_wf (deletions b) /\ Forall (fun kv => bytes_wf kv.1 /\ bytes_wf kv.2) (insertions b).
Definition bytes_size (k : bytes) : Z := get_uleb128_size (Z.of_nat (length k)) + Z.of_nat (length k).
Definition simple_size (b : SimpleUnorderedBatch) : Z :=
  get_uleb128_size (Z.of_nat (length (deletions b)))
  + foldr (fun k size => bytes_size k + size) 0 (deletions b)
  + get_uleb128_size (Z.of_nat (length (insertions b)))
  + foldr (fun kv size => bytes_size kv.1 + bytes_size kv.2 + size) 0 (insertions b).
Class JournalSerdeLaws `{JournalSerde} := {
  batch_round_trip b : simple_wf_values b -> from_bytes (to_bytes b) = Some b;
  batch_length b : simple_wf_values b -> Z.of_nat (length (to_bytes b)) = simple_size b;
  header_round_trip h : 0 <= block_count h <= u32_MAX -> from_bytes (to_bytes h) = Some h;
  header_length h : length (to_bytes h) = 4%nat;
  serialized_size_bytes k : serialized_size k = bytes_size k;
}.

(** ** Specifications of operations that may fail *)

(** [spec P db m Q]: from [db], all transactions of [m] satisfy [P], whatever its result, and if
    it succeeds then its result and state satisfy [Q]. *)
Definition extends (P : list TransactWriteItem -> Store -> Prop) (db db' : DynamoDbClientInternal)
    : Prop :=
  exists steps, history db' = history db ++ steps /\ Forall (fun s => P s.1 s.2) steps /\
    table db' = default (table db) (snd <$> last steps).
Definition spec {A : Type} (P : list TransactWriteItem -> Store -> Prop) (db : DynamoDbClientInternal)
    (m : dynamo A) (Q : A -> DynamoDbClientInternal -> Prop) : Prop :=
  extends P db (m db).2 /\ forall a, (m db).1 = Ok a -> Q a (m db).2.

Lemma extends_refl P db : extends P db db.
Proof. exists []. by rewrite app_nil_r. Qed.
Lemma extends_trans P db1 db2 db3 : extends P db1 db2 -> extends P db2 db3 -> extends P db1 db3.
Proof.
  intros (l1 & H1 & F1 & T1) (l2 & H2 & F2 & T2). exists (l1 ++ l2).
  rewrite H2, H1, app_assoc, Forall_app, T2, T1. split_and!; [done..|].
  rewrite last_app. by destruct (last l2).
Qed.
Lemma spec_ret {A : Type} P db (a : A) Q : Q a db -> spec P db (dret a) Q.
Proof. intros HQ. split; [apply extends_refl|]. by intros ? [= <-]. Qed.
Lemma spec_lift {A : Type} P db (r : result ClientError A) Q :
  (forall a, r = Ok a -> Q a db) -> spec P db (dlift r) Q.
Proof. intros HQ. split; [apply extends_refl|done]. Qed.
Lemma spec_bind {A B : Type} P db (m : dynamo A) (f : A -> dynamo B) R Q :
  spec P db m R -> (forall a db', R a db' -> spec P db' (f a) Q) -> spec P db (dbind m f) Q.
Proof.
  unfold spec, dbind. destruct (m db) as [[a|e|] db'] eqn:Hm; simpl; intros [He HR] Hf; [|by split..].
  destruct (Hf a db') as [He' HQ]; [by apply HR|]. split; [by eapply extends_trans|done].
Qed.
Lemma spec_eq {A : Type} P db (m m' : dynamo A) Q : m db = m' db -> spec P db m' Q -> spec P db m Q.
Proof. unfold spec. by intros ->. Qed.
Lemma spec_weaken {A : Type} (P P' : list TransactWriteItem -> Store -> Prop) db (m : dynamo A) Q Q' :
  spec P db m Q -> (forall items t, P items t -> P' items t) ->
  (forall a db', Q a db' -> Q' a db') -> spec P' db m Q'.
Proof.
  intros [(l & Hh & HF & Ht) HQ] HP HQ'. split; [|naive_solver]. exists l. split_and!; [done| |done].
  eapply Forall_impl; [done|]. naive_solver.
Qed.

Lemma spec_submit `{DynamoDbLaws} P db items Q :
  let t := write_batch (item_operation <$> items) (table db) in
  (items = [] -> Q () db) ->
  (Z.of_nat (length items) <= MAX_TRANSACT_WRITE_ITEM_SIZE -> P items t /\
   Q () {| table := t; history := history db ++ [(items, t)] |}) ->
  spec P db (submit_transactions items) Q.
Proof.
  intros t Hnil Hitems. unfold spec, submit_transactions.
  case_match eqn:Hlen; [by split; [apply extends_refl|]|]. apply Z.ltb_ge in Hlen.
  case_bool_decide; [split; [apply extends_refl|]; by intros [] _; apply Hnil|].
  destruct (transact_write_items items (table db)) as [t'|e|] eqn:Htr;
    [|by split; [apply extends_refl|]..].
  apply transact_atomic in Htr. subst t'. destruct (Hitems Hlen) as [HP HQ].
  split; [|by intros [] _]. exists [(items, t)]. split_and!; [done|by constructor|done].
Qed.

(** ** The keys of a journal *)

Definition in_journal (base_key k : bytes) : Prop := (base_key ++ [JOURNAL_TAG]) `prefix_of` k.
Notation header_key b := (get_journaling_key b journal_tag 0).
Notation entry_key b i := (get_journaling_key b entry_tag (Z.of_nat i)).
(** Two tables agree outside of the journal. *)
Definition same_data (base_key : bytes) (t t' : Store) : Prop :=
  forall k, ~ in_journal base_key k -> t !! k = t' !! k.

#[export] Instance same_data_equivalence b : Equivalence (same_data b).
Proof.
  split; [done|by intros t t' Ht k Hk; rewrite Ht|].
  intros t1 t2 t3 H12 H23 k Hk. by rewrite H12, H23.
Qed.

Lemma journaling_key_in b tag pos : in_journal b (get_journaling_key b tag pos).
Proof. exists ([tag] ++ le_bytes32 pos). unfold get_journaling_key. by rewrite <- !app_assoc. Qed.

Lemma le_bytes32_inj x y :
  0 <= x <= u32_MAX -> 0 <= y <= u32_MAX -> le_bytes32 x = le_bytes32 y -> x = y.
Proof.
  intros Hx Hy Heq. apply be_bytes32_inj; [done..|]. unfold be_bytes32. by rewrite Heq.
Qed.

Lemma entry_key_inj b i j :
  Z.of_nat i <= u32_MAX -> Z.of_nat j <= u32_MAX -> entry_key b i = entry_key b j -> i = j.
Proof.
  unfold get_journaling_key. intros Hi Hj Heq. apply (inj (app b)) in Heq.
  injection Heq as Heq0 Heq1 Heq2 Heq3. apply Nat2Z.inj, le_bytes32_inj; [lia..|].
  unfold le_bytes32. congruence.
Qed.

Lemma header_entry_key b i : header_key b <> entry_key b i.
Proof. unfold get_journaling_key. intros Heq%(inj (app b)). discriminate Heq. Qed.

Lemma le_bytes32_wf x : bytes_wf (le_bytes32 x).
Proof.
  assert (forall y, in_range u8_MAX (y mod 256)) as Hb; [|by repeat constructor; apply Hb].
  intros y. pose proof (Z.mod_pos_bound y 256). unfold in_range, u8_MAX. lia.
Qed.
Lemma journaling_key_wf b tag pos :
  bytes_wf b -> in_range u8_MAX tag -> bytes_wf (get_journaling_key b tag pos).
Proof.
  intros Hb Htag. unfold get_journaling_key. apply Forall_app. split; [done|].
  apply Forall_cons. split; [by unfold in_range, JOURNAL_TAG, u8_MAX; lia|].
  apply Forall_cons. split; [done|apply le_bytes32_wf].
Qed.

(** Operations on the data of the views, and their effect on tables. *)
Definition data_operation (base_key : bytes) (operation : WriteOperation) : Prop :=
  match operation with
  | Delete key => bytes_wf key /\ ~ in_journal base_key key
  | Put key value => bytes_wf key /\ bytes_wf value /\ ~ in_journal base_key key
  | DeletePrefix _ => False
  end.
Lemma data_operation_wf b o : data_operation b o -> operation_wf o.
Proof. destruct o; simpl; naive_solver. Qed.
Lemma data_operations_wf b ops : Forall (data_operation b) ops -> Forall operation_wf ops.
Proof. intros Hops. eapply Forall_impl; [done|apply data_operation_wf]. Qed.

Lemma data_operation_effect b ops k :
  Forall (data_operation b) ops -> in_journal b k -> batch_effect ops k = None.
Proof.
  rewrite Forall_forall. intros Hops Hk. apply batch_effect_None. intros o Ho.
  specialize (Hops o Ho). destruct o; simpl in *; try done; case_decide; naive_solver.
Qed.

Lemma same_data_write (b : bytes) (ops : Batch) (t t' : Store) :
  Forall (data_operation b) ops -> store_wf t -> store_wf t' -> same_data b t t' ->
  same_data b (write_batch ops t) (write_batch ops t').
Proof.
  intros Hops%data_operations_wf Ht Ht' Hsame k Hk. rewrite !lookup_write_batch by done.
  destruct (batch_effect ops k); [done|]. by apply Hsame.
Qed.

(** Operations on the journal alone. *)
Definition journal_operation (base_key : bytes) (operation : WriteOperation) : Prop :=
  match operation with
  | Delete key | Put key _ => bytes_wf key /\ in_journal base_key key
  | DeletePrefix _ => False
  end.
Lemma journal_operations_wf b ops : Forall (journal_operation b) ops -> Forall operation_wf ops.
Proof. intros Hops. eapply Forall_impl; [done|]. intros []; simpl; naive_solver. Qed.
Lemma same_data_journal (b : bytes) (ops : Batch) (t : Store) :
  Forall (journal_operation b) ops -> store_wf t -> same_data b (write_batch ops t) t.
Proof.
  intros Hops Ht k Hk. rewrite lookup_write_batch by by try eapply journal_operations_wf.
  replace (batch_effect ops k) with (@None (option bytes)); [done|]. symmetry.
  apply batch_effect_None. rewrite Forall_forall in Hops. intros o Ho. specialize (Hops o Ho).
  destruct o; simpl in *; try done; case_decide; naive_solver.
Qed.

(** ** A journal that is being resolved *)

Section resolving.
Context `{DynamoDbLaws, JournalSerdeLaws} (b : bytes) (base_ok : bytes_wf b).
(** The batch that is cut into blocks, which has no operation on the journal. *)
Context (batch : SimpleUnorderedBatch).
Context (batch_ok : Forall (data_operation b) (simple_operations batch)).

Record block_of (block : SimpleUnorderedBatch) : Prop := {
  block_included : simple_operations block ⊆+ simple_operations batch;
  block_count_bound :
    Z.of_nat (length (simple_operations block)) <= MAX_TRANSACT_WRITE_ITEM_SIZE - 2;
  block_size_bound : Z.of_nat (length (to_bytes block)) <= RAW_MAX_VALUE_BYTES;
}.

Lemma block_data block : block_of block -> Forall (data_operation b) (simple_operations block).
Proof.
  intros [Hsub _ _]. rewrite Forall_forall in *. intros o Ho. apply batch_ok.
  by eapply elem_of_submseteq.
Qed.

Lemma simple_operations_wf_values block :
  Forall (data_operation b) (simple_operations block) -> simple_wf_values block.
Proof.
  unfold simple_operations. rewrite Forall_app, !Forall_fmap. intros [Hd Hi]. split.
  - eapply Forall_impl; [done|]. simpl. naive_solver.
  - eapply Forall_impl; [done|]. intros []. simpl. naive_solver.
Qed.

(** What is left to do: the blocks, the last one first. *)
Definition remaining (blocks : list SimpleUnorderedBatch) : Batch :=
  concat (simple_operations <$> reverse blocks).

(** The table has a journal with these blocks, which leads to the data of [final]. *)
Record pending (final : Store) (blocks : list SimpleUnorderedBatch) (t : Store) : Prop := {
  pending_wf : store_wf t;
  pending_blocks : Forall block_of blocks;
  pending_length : Z.of_nat (length blocks) <= u32_MAX;
  pending_header :
    t !! header_key b =
    if decide (blocks = []) then None
    else Some (to_bytes {| block_count := Z.of_nat (length blocks) |});
  pending_entries i block : blocks !! i = Some block -> t !! entry_key b i = Some (to_bytes block);
  pending_final : same_data b (write_batch (remaining blocks) t) final;
}.
Definition resumes (final t : Store) : Prop := exists blocks, pending final blocks t.

Lemma remaining_snoc blocks block :
  remaining (blocks ++ [block]) = simple_operations block ++ remaining blocks.
Proof. unfold remaining. by rewrite reverse_app. Qed.

Lemma remaining_data blocks : Forall block_of blocks -> Forall (data_operation b) (remaining blocks).
Proof.
  intros Hb. unfold remaining. apply Forall_concat. rewrite Forall_fmap.
  apply Forall_reverse. eapply Forall_impl; [done|apply block_data].
Qed.

Lemma pending_nil (t : Store) :
  store_wf t -> t !! header_key b = None -> pending t [] t.
Proof. intros Ht Hh. by split. Qed.

Lemma pending_nil_same (final t : Store) : pending final [] t -> same_data b t final.
Proof. by intros [_ _ _ _ _ Hf]. Qed.

(** The items of the transaction for a block. *)
Definition block_items (block : SimpleUnorderedBatch) (count : nat) : list TransactWriteItem :=
  TransactDelete (entry_key b count) ::
  (TransactDelete <$> deletions block) ++ (uncurry TransactPut <$> insertions block) ++
  [if decide (count = 0%nat) then TransactDelete (header_key b)
   else TransactPut (header_key b) (to_bytes {| block_count := Z.of_nat count |})].

Lemma insert_delete_Ok key tb tb' :
  insert_delete_request key tb = Ok tb' -> tb' = tb ++ [TransactDelete key].
Proof.
  unfold insert_delete_request, build_delete_transact. destruct (check_key key); simpl; congruence.
Qed.
Lemma insert_put_Ok key_value tb tb' :
  insert_put_request key_value tb = Ok tb' -> tb' = tb ++ [uncurry TransactPut key_value].
Proof.
  destruct key_value as [key value]. unfold insert_put_request, build_put_transact. simpl.
  destruct (check_key key); simpl; try done. destruct (ensure _ _); simpl; congruence.
Qed.

Lemma insert_deletes (keys : list bytes) tb tb' :
  for_each insert_delete_request keys tb = Ok tb' -> tb' = tb ++ (TransactDelete <$> keys).
Proof.
  revert tb. induction keys as [|key keys IH]; intros tb; cbn [for_each];
    [by intros [= <-]; rewrite app_nil_r|].
  destruct (insert_delete_request key tb) as [tb1|e|] eqn:Ht; cbn; try done.
  intros ->%IH. by rewrite (insert_delete_Ok _ _ _ Ht), <- app_assoc.
Qed.
Lemma insert_puts (kvs : list (bytes * bytes)) tb tb' :
  for_each insert_put_request kvs tb = Ok tb' -> tb' = tb ++ (uncurry TransactPut <$> kvs).
Proof.
  revert tb. induction kvs as [|kv kvs IH]; intros tb; cbn [for_each];
    [by intros [= <-]; rewrite app_nil_r|].
  destruct (insert_put_request kv tb) as [tb1|e|] eqn:Ht; cbn; try done.
  intros ->%IH. by rewrite (insert_put_Ok _ _ _ Ht), <- app_assoc.
Qed.

Lemma block_transacts_Ok block count items :
  block_transacts b (entry_key b count) block (Z.of_nat count) = Ok items ->
  items = block_items block count.
Proof.
  unfold block_transacts, block_items, add_journal_header_operations. cbn [block_count].
  destruct (insert_delete_request _ []) as [tb|e|] eqn:Ht1; cbn [mbind result_bind]; try done.
  destruct (for_each insert_delete_request _ tb) as [tb2|e|] eqn:Ht2; cbn [mbind result_bind]; try done.
  destruct (for_each insert_put_request _ tb2) as [tb3|e|] eqn:Ht3; cbn [mbind result_bind]; try done.
  apply insert_delete_Ok in Ht1. apply insert_deletes in Ht2. apply insert_puts in Ht3. subst tb tb2 tb3.
  case_match eqn:Hc; intros Hi; [apply insert_put_Ok in Hi|apply insert_delete_Ok in Hi];
    case_decide; first [lia|subst; cbn [app uncurry]; by rewrite <- !app_assoc].
Qed.

(** The operations of the transaction. *)
Lemma block_items_operations block count :
  item_operation <$> block_items block count =
  Delete (entry_key b count) :: simple_operations block ++
  [item_operation (if decide (count = 0%nat) then TransactDelete (header_key b)
   else TransactPut (header_key b) (to_bytes {| block_count := Z.of_nat count |}))].
Proof.
  unfold block_items, simple_operations. rewrite fmap_cons, !fmap_app, <- !list_fmap_compose.
  rewrite <- app_assoc. f_equal. f_equal. f_equal. apply list_fmap_ext. by intros ? [].
Qed.

Lemma lookup_block_items (block : SimpleUnorderedBatch) (count : nat) (t : Store) (k : bytes) :
  block_of block -> store_wf t ->
  write_batch (item_operation <$> block_items block count) t !! k =
  if decide (k = header_key b) then
    if decide (count = 0%nat) then None else Some (to_bytes {| block_count := Z.of_nat count |})
  else if decide (k = entry_key b count) then None
  else write_batch (simple_operations block) t !! k.
Proof.
  intros Hblock Ht. pose proof (block_data _ Hblock) as Hdata.
  pose proof (data_operations_wf _ _ Hdata) as Hwf.
  assert (in_range u8_MAX journal_tag /\ in_range u8_MAX entry_tag) as [? ?]
    by (unfold in_range, journal_tag, entry_tag, u8_MAX; lia).
  rewrite block_items_operations, !lookup_write_batch; [|done..| |done].
  2:{ apply Forall_cons. split; [by apply journaling_key_wf|]. apply Forall_app. split; [done|].
      apply Forall_singleton. case_decide; by apply journaling_key_wf. }
  cbn [batch_effect]. rewrite batch_effect_app. cbn [batch_effect].
  destruct (decide (k = header_key b)) as [->|Hk].
  - by destruct (decide (count = 0%nat)); simpl; rewrite decide_True.
  - assert (touch (item_operation (if decide (count = 0%nat) then TransactDelete (header_key b)
      else TransactPut (header_key b) (to_bytes {| block_count := Z.of_nat count |}))) k = None) as ->
      by (case_decide; simpl; by rewrite decide_False).
    simpl. destruct (decide (k = entry_key b count)) as [->|Hk'].
    + by rewrite (data_operation_effect b), decide_True by (done || apply journaling_key_in).
    + rewrite decide_False by done. by destruct (batch_effect _ k).
Qed.

(** Executing the last block leaves a journal with the others. *)
Lemma pending_step (final t : Store) (blocks : list SimpleUnorderedBatch)
    (block : SimpleUnorderedBatch) :
  pending final (blocks ++ [block]) t ->
  pending final blocks
    (write_batch (item_operation <$> block_items block (length blocks)) t).
Proof.
  intros [Hwf Hblocks Hlen Hh He Hf].
  apply Forall_app in Hblocks as [Hblocks [Hblock _]%Forall_cons].
  pose proof (block_data _ Hblock) as Hdata. pose proof (remaining_data _ Hblocks) as Hrest.
  rewrite length_app in Hlen. simpl in Hlen.
  pose proof (fun k => lookup_block_items block (length blocks) t k Hblock Hwf) as Hlook.
  assert (store_wf (write_batch (item_operation <$> block_items block (length blocks)) t)) as Hwf'.
  { apply write_batch_wf; [|done]. rewrite block_items_operations.
    apply Forall_cons. split; [by apply journaling_key_wf|]. apply Forall_app.
    split; [by eapply data_operations_wf|]. apply Forall_singleton.
    case_decide; by apply journaling_key_wf. }
  split; [done|done|lia| | |].
  - rewrite Hlook, decide_True by done. destruct blocks; simpl; [done|]. done.
  - intros i blk Hi. pose proof (lookup_lt_Some _ _ _ Hi). rewrite Hlook.
    rewrite decide_False by (apply not_eq_sym, header_entry_key).
    rewrite decide_False by (intros Heq%entry_key_inj; lia).
    rewrite lookup_write_batch, (data_operation_effect b)
      by (done || apply journaling_key_in || by eapply data_operations_wf).
    apply He. by apply lookup_app_l_Some.
  - etrans; [|exact Hf]. rewrite remaining_snoc. unfold write_batch at 3. rewrite foldl_app.
    apply same_data_write; [done|done|by apply write_batch_wf; [eapply data_operations_wf|]|].
    intros k Hk. rewrite Hlook.
    rewrite decide_False by (intros ->; by apply Hk, journaling_key_in).
    by rewrite decide_False by (intros ->; by apply Hk, journaling_key_in).
Qed.

(** [coherently_resolve_journal] only passes through such journals, and ends without one. *)
Lemma resolve_spec (final : Store) count : forall blocks db,
  length blocks = count -> pending final blocks (table db) ->
  spec (fun _ t => resumes final t) db (coherently_resolve_journal count b)
    (fun _ db' => pending final [] (table db')).
Proof.
  induction count as [|count IH]; intros blocks db Hlen Hp.
  { apply nil_length_inv in Hlen as ->. by apply spec_ret. }
  destruct blocks as [|block blocks _] using rev_ind; [done|].
  rewrite length_app, Nat.add_1_r in Hlen. injection Hlen as <-.
  pose proof (pending_step _ _ _ _ Hp) as Hstep. destruct Hp as [_ Hblocks _ _ He _].
  apply Forall_app in Hblocks as [_ [Hblock _]%Forall_cons].
  cbn [coherently_resolve_journal]. unfold spec at 1.
  rewrite (He (length blocks) block) by by apply list_lookup_middle.
  rewrite batch_round_trip by by apply simple_operations_wf_values, block_data.
  match goal with |- extends ?P db (?m db).2 /\ _ => change (spec P db m (fun _ db' => pending final [] (table db'))) end.
  eapply spec_bind; [by apply (spec_lift _ _ _ (fun v db' => v = block /\ db' = db)); intros ? [= <-]|].
  intros ? ? [-> ->].
  eapply spec_bind; [apply (spec_lift _ _ _ (fun v db' => v = block_items block (length blocks) /\ db' = db));
    intros ? ?%block_transacts_Ok; done|].
  intros ? ? [-> ->].
  eapply spec_bind; [apply (spec_submit _ _ _ (fun _ db' => pending final blocks (table db')))|].
  - done.
  - intros _. split; [by exists blocks|done].
  - intros [] db' Hp'. by apply (IH blocks).
Qed.

Lemma clear_spec (final : Store) blocks db :
  pending final blocks (table db) ->
  spec (fun _ t => resumes final t) db (dynamo_clear_journal b)
    (fun _ db' => pending final [] (table db')).
Proof.
  intros Hp. pose proof Hp as [_ _ Hlen Hh _ _]. unfold dynamo_clear_journal.
  unfold spec at 1. rewrite Hh. case_decide as Hnil.
  { subst blocks. split; [apply extends_refl|]. by intros [] _. }
  rewrite header_round_trip by (simpl; lia). simpl. unfold dbind. simpl. rewrite Nat2Z.id.
  by apply (resolve_spec final (length blocks) blocks).
Qed.

(** ** Writing the journal *)

Definition journal_item_operation (item : JournalItem) : WriteOperation :=
  match item with
  | ItemDelete key => Delete key
  | ItemPut key value => Put key value
  end.
Lemma journal_items_operations :
  simple_operations batch = journal_item_operation <$> journal_items batch.
Proof.
  unfold simple_operations, journal_items. rewrite fmap_app, <- !list_fmap_compose. f_equal.
  apply list_fmap_ext. by intros ? [].
Qed.

Definition pending_block (p : JournalProgress) : SimpleUnorderedBatch :=
  {| deletions := pending_deletions p; insertions := pending_insertions p |}.
Definition entry_put (item : TransactWriteItem) : Prop :=
  exists i value, item = TransactPut (entry_key b i) value.

(** The table does not change but for entries, which are those of the blocks once the pending
    transaction is executed; the blocks have all items that were taken, but for those of the next
    block. *)
Record writing (t0 : Store) (taken : list JournalItem) (blocks : list SimpleUnorderedBatch)
    (p : JournalProgress) (t : Store) : Prop := {
  writing_before : pending t0 [] t;
  writing_count : journal_blocks p = Z.of_nat (length blocks);
  writing_length : (length blocks <= length taken)%nat;
  writing_blocks : Forall block_of blocks;
  writing_puts : Forall entry_put (transacts p);
  writing_entries i block :
    blocks !! i = Some block ->
    write_batch (item_operation <$> transacts p) t !! entry_key b i = Some (to_bytes block);
  writing_items :
    concat (simple_operations <$> blocks) ++ simple_operations (pending_block p) ≡ₚ
    journal_item_operation <$> taken;
}.

Lemma entry_puts_operations items :
  Forall entry_put items -> Forall (journal_operation b) (item_operation <$> items).
Proof.
  intros Hi. apply Forall_fmap. eapply Forall_impl; [done|]. intros ? (i & value & ->). simpl.
  split; [by apply journaling_key_wf|apply journaling_key_in].
Qed.

Lemma entry_puts_header (items : list TransactWriteItem) (t : Store) :
  Forall entry_put items -> store_wf t ->
  write_batch (item_operation <$> items) t !! header_key b = t !! header_key b.
Proof.
  intros Hi Ht.
  rewrite lookup_write_batch by (done || by eapply journal_operations_wf, entry_puts_operations).
  replace (batch_effect _ _) with (@None (option bytes)); [done|]. symmetry.
  apply batch_effect_None. intros o (item & -> & Hin)%list_elem_of_fmap.
  rewrite Forall_forall in Hi. destruct (Hi item Hin) as (i & value & ->). simpl.
  by rewrite decide_False by (apply not_eq_sym, header_entry_key).
Qed.

(** Executing the pending transaction keeps the data. *)
Lemma entry_puts_before (t0 t : Store) (items : list TransactWriteItem) :
  Forall entry_put items -> pending t0 [] t ->
  pending t0 [] (write_batch (item_operation <$> items) t).
Proof.
  intros Hi Hp. pose proof Hp as [Hwf _ _ Hh _ _]. pose proof (entry_puts_operations _ Hi) as Hops.
  split; try done.
  - apply write_batch_wf; [by eapply journal_operations_wf|done].
  - by rewrite entry_puts_header.
  - simpl. etrans; [by apply (same_data_journal b)|]. by apply pending_nil_same.
Qed.

Lemma writing_add (t0 t : Store) (taken : list JournalItem)
    (blocks : list SimpleUnorderedBatch) (p : JournalProgress) (item : JournalItem) :
  writing t0 taken blocks p t -> writing t0 (taken ++ [item]) blocks (add_item item p) t.
Proof.
  intros [Hb Hc Hl Hbl Hp He Hi]. split; try done.
  - rewrite length_app. lia.
  - rewrite fmap_app, <- Hi. unfold simple_operations, pending_block. destruct item; simpl.
    + rewrite fmap_app. simpl. solve_Permutation.
    + rewrite fmap_app. simpl. by rewrite !app_assoc.
Qed.

Definition pending_count (p : JournalProgress) : nat :=
  (length (pending_deletions p) + length (pending_insertions p))%nat.

Lemma length_simple_operations block :
  length (simple_operations block) = (length (deletions block) + length (insertions block))%nat.
Proof. unfold simple_operations. by rewrite length_app, !length_fmap. Qed.

(** The items that were taken are some of the batch. *)
Definition taken_of (taken : list JournalItem) : Prop :=
  exists rest, journal_items batch = taken ++ rest.

Lemma pending_block_of (t0 t : Store) (taken : list JournalItem)
    (blocks : list SimpleUnorderedBatch) (p : JournalProgress) :
  writing t0 taken blocks p t -> taken_of taken ->
  Z.of_nat (pending_count p) <= MAX_TRANSACT_WRITE_ITEM_SIZE - 2 ->
  Z.of_nat (length (to_bytes (pending_block p))) <= RAW_MAX_VALUE_BYTES -> block_of (pending_block p).
Proof.
  intros [_ _ _ _ _ _ Hi] [rest Hrest] Hc Hs. split; [| |done].
  - rewrite journal_items_operations, Hrest, fmap_app, <- Hi.
    apply submseteq_inserts_r, submseteq_inserts_l. done.
  - rewrite length_simple_operations. exact Hc.
Qed.

Lemma flush_value_Ok p p' :
  flush_value b p = Ok p' ->
  Z.of_nat (length (to_bytes (pending_block p))) <= RAW_MAX_VALUE_BYTES /\
  pending_deletions p' = [] /\ pending_insertions p' = [] /\
  journal_blocks p' = (journal_blocks p + 1) mod 2 ^ 32 /\
  transacts p' = transacts p ++ [TransactPut (get_journaling_key b entry_tag (journal_blocks p))
                                   (to_bytes (pending_block p))].
Proof.
  unfold flush_value, build_put_transact. fold (pending_block p).
  destruct (assertion _); cbn; try done. destruct (check_key _); cbn; try done.
  destruct (ensure _ _) eqn:He; cbn; try done. intros [= <-]. apply ensure_Ok in He.
  split_and!; try done. lia.
Qed.

Lemma writing_flush_value (t0 t : Store) (taken : list JournalItem)
    (blocks : list SimpleUnorderedBatch) (p p' : JournalProgress) :
  writing t0 taken blocks p t -> taken_of taken -> (length blocks < length taken)%nat ->
  Z.of_nat (length taken) <= u32_MAX ->
  Z.of_nat (pending_count p) <= MAX_TRANSACT_WRITE_ITEM_SIZE - 2 -> flush_value b p = Ok p' ->
  writing t0 taken (blocks ++ [pending_block p]) p' t.
Proof.
  intros Hw Htaken Hlt Hmax Hcount (Hsize & Hd & Hins & Hj & Htr)%flush_value_Ok.
  pose proof (pending_block_of _ _ _ _ _ Hw Htaken Hcount Hsize) as Hblock.
  destruct Hw as [Hb Hc Hl Hbl Hp He Hi]. split; [done| | | | | |].
  - rewrite Hj, Hc, length_app. simpl. rewrite Z.mod_small; unfold u32_MAX in *; lia.
  - rewrite length_app. simpl. lia.
  - apply Forall_app. split; [done|]. by constructor.
  - rewrite Htr, Hc. apply Forall_app. split; [done|]. apply Forall_singleton. by eexists _, _.
  - intros i block Hlook. rewrite Htr, Hc, fmap_app. unfold write_batch. rewrite foldl_app. simpl.
    apply lookup_app_Some in Hlook as [Hlook|[Hi' Hlook]].
    + pose proof (lookup_lt_Some _ _ _ Hlook).
      rewrite lookup_insert_ne by (intros ?%entry_key_inj; unfold u32_MAX in *; lia). by apply He.
    + apply list_lookup_singleton_Some in Hlook as [Hz <-].
      replace i with (length blocks) by lia. apply lookup_insert_eq.
  - rewrite fmap_app, concat_app. simpl. unfold pending_block at 2. rewrite Hd, Hins.
    simpl. by rewrite !app_nil_r.
Qed.

Lemma flush_transact_spec (t0 : Store) (taken : list JournalItem)
    (blocks : list SimpleUnorderedBatch) (p : JournalProgress) db :
  writing t0 taken blocks p (table db) ->
  spec (fun _ t => pending t0 [] t) db (flush_transact p)
    (fun p' db' => writing t0 taken blocks p' (table db') /\ transacts p' = [] /\
       pending_block p' = pending_block p).
Proof.
  intros [Hb Hc Hl Hbl Hp He Hi]. pose proof (entry_puts_before _ _ _ Hp Hb) as Hafter.
  eapply spec_bind.
  - apply (spec_submit _ _ _
      (fun _ db' => table db' = write_batch (item_operation <$> transacts p) (table db))).
    + intros ->. done.
    + done.
  - intros [] db' Ht. apply spec_ret. split_and!; [|done..]. split; try done; [by rewrite Ht|].
    intros i block Hlook. simpl. rewrite Ht. by apply He.
Qed.

Lemma flushes_count rest p :
  (flushes rest p).1 = false -> Z.of_nat (pending_count p) <> MAX_TRANSACT_WRITE_ITEM_SIZE - 2.
Proof.
  unfold flushes, pending_count, num_deletions, num_insertions. destruct rest; [done|].
  case_match eqn:Hc; [done|]. intros _. apply Z.eqb_neq in Hc. lia.
Qed.
Lemma flushes_both rest p : (flushes rest p).1 = false -> (flushes rest p).2 = false.
Proof.
  unfold flushes. destruct rest; [done|]. case_match; [done|]. simpl. by intros [? _]%orb_false_iff.
Qed.
Lemma pending_count_add item p : pending_count (add_item item p) = S (pending_count p).
Proof. unfold pending_count. destruct item; simpl; rewrite length_app; simpl; lia. Qed.
Lemma pending_block_nil p :
  pending_block p = {| deletions := []; insertions := [] |} -> pending_count p = 0%nat.
Proof. unfold pending_block, pending_count. by intros [= -> ->]. Qed.

(** One round of the loop. *)
Definition write_round (item : JournalItem) (rest : list JournalItem) (p : JournalProgress)
    : dynamo JournalProgress :=
  let p := add_item item p in
  let '(value_flush, transact_flush) := flushes rest p in
  let* p := if value_flush then dlift (flush_value b p) else dret p in
  if transact_flush then flush_transact p else dret p.

(** All has been written when nothing is left. *)
Definition settled (rest : list JournalItem) (p : JournalProgress) : Prop :=
  rest = [] -> transacts p = [] /\ pending_block p = {| deletions := []; insertions := [] |}.

Lemma write_round_spec (t0 : Store) (taken rest : list JournalItem) (item : JournalItem)
    (blocks : list SimpleUnorderedBatch) (p : JournalProgress) db :
  writing t0 taken blocks p (table db) -> journal_items batch = taken ++ item :: rest ->
  Z.of_nat (length (journal_items batch)) <= u32_MAX ->
  Z.of_nat (pending_count p) < MAX_TRANSACT_WRITE_ITEM_SIZE - 2 ->
  spec (fun _ t => pending t0 [] t) db (write_round item rest p)
    (fun p' db' => (exists blocks', writing t0 (taken ++ [item]) blocks' p' (table db')) /\
       Z.of_nat (pending_count p') < MAX_TRANSACT_WRITE_ITEM_SIZE - 2 /\ settled rest p').
Proof.
  intros Hw Hitems Hmax Hcount. pose proof (writing_length _ _ _ _ _ Hw) as Hl.
  apply (writing_add _ _ _ _ _ item) in Hw. unfold write_round. cbv zeta.
  assert (taken_of (taken ++ [item])) as Htaken by (exists rest; by rewrite <- app_assoc).
  assert (Z.of_nat (length (taken ++ [item])) <= u32_MAX) as Hmax'.
  { rewrite Hitems, length_app in Hmax. rewrite length_app. simpl in *. lia. }
  pose proof (flushes_count rest (add_item item p)) as Hfc.
  pose proof (flushes_both rest (add_item item p)) as Hfb.
  assert (rest = [] -> flushes rest (add_item item p) = (true, true)) as Hrest by by intros ->.
  destruct (flushes rest (add_item item p)) as [vf tf]. simpl in Hfc, Hfb.
  pose proof (pending_count_add item p) as Hadd.
  eapply (spec_bind _ _ _ _ (fun p' db' =>
     (exists blocks', writing t0 (taken ++ [item]) blocks' p' (table db')) /\
     Z.of_nat (pending_count p') < MAX_TRANSACT_WRITE_ITEM_SIZE - 2 /\
     (rest = [] -> pending_block p' = {| deletions := []; insertions := [] |}))).
  - destruct vf.
    + apply spec_lift. intros p' Hf. pose proof (flush_value_Ok _ _ Hf) as (_ & Hd & Hi & _).
      assert (pending_block p' = {| deletions := []; insertions := [] |}) as Hnil
        by (unfold pending_block; by rewrite Hd, Hi).
      split_and!; [|rewrite (pending_block_nil _ Hnil); unfold MAX_TRANSACT_WRITE_ITEM_SIZE; lia|done].
      exists (blocks ++ [pending_block (add_item item p)]).
      apply writing_flush_value; try done; [rewrite length_app; simpl; lia|lia].
    + apply spec_ret. split_and!; [by exists blocks|specialize (Hfc eq_refl); lia|].
      intros Hr. by specialize (Hrest Hr).
  - intros p' db' ([blocks' Hw'] & Hc' & Hnil). destruct tf.
    + eapply spec_weaken; [by apply (flush_transact_spec _ _ _ _ _ Hw')|done|].
      intros p2 db2 (Hw2 & Htr & Hblk). split_and!; [by exists blocks'| |].
      * replace (pending_count p2) with (pending_count p'); [done|].
        unfold pending_block in Hblk. unfold pending_count. by injection Hblk as -> ->.
      * intros Hr. split; [done|]. rewrite Hblk. auto.
    + apply spec_ret. split_and!; [by exists blocks'|done|]. intros Hr. by specialize (Hrest Hr).
Qed.

Lemma write_journal_loop_spec (t0 : Store) (items : list JournalItem) : forall
    (taken : list JournalItem) (blocks : list SimpleUnorderedBatch) (p : JournalProgress) db,
  writing t0 taken blocks p (table db) -> journal_items batch = taken ++ items ->
  Z.of_nat (length (journal_items batch)) <= u32_MAX ->
  Z.of_nat (pending_count p) < MAX_TRANSACT_WRITE_ITEM_SIZE - 2 -> settled items p ->
  spec (fun _ t => pending t0 [] t) db (write_journal_loop b items p)
    (fun p' db' => exists blocks', writing t0 (journal_items batch) blocks' p' (table db') /\
       settled [] p').
Proof.
  induction items as [|item rest IH]; intros taken blocks p db Hw Hitems Hmax Hcount Hs.
  { apply spec_ret. exists blocks. rewrite app_nil_r in Hitems. by rewrite Hitems. }
  pose proof (write_round_spec _ _ _ _ _ _ _ Hw Hitems Hmax Hcount) as Hround.
  assert (forall db, write_journal_loop b (item :: rest) p db =
    dbind (write_round item rest p) (fun p => write_journal_loop b rest p) db) as Heq.
  { intros db0. simpl. unfold write_round. destruct (flushes rest (add_item item p)) as [vf tf].
    unfold dbind. by destruct (_ db0) as [[] ?]. }
  eapply spec_eq; [exact (Heq db)|]. eapply spec_bind; [exact Hround|].
  intros p' db' ([blocks' Hw'] & Hc' & Hs'). eapply IH; try done. by rewrite <- app_assoc.
Qed.

(** The data after the batch, whatever the order of its operations. *)
Context (t0 target : Store).
Context (target_ok : forall ops, ops ≡ₚ simple_operations batch -> write_batch ops t0 = target).
Context (batch_length_ok : Z.of_nat (length (simple_operations batch)) <= u32_MAX).

Definition before_or_after (t : Store) : Prop := resumes t0 t \/ resumes target t.

Lemma remaining_permutation blocks : remaining blocks ≡ₚ concat (simple_operations <$> blocks).
Proof. unfold remaining. by rewrite reverse_Permutation. Qed.

(** The header makes the journal count. *)
Lemma pending_commit (t : Store) (blocks : list SimpleUnorderedBatch) (p : JournalProgress) :
  writing t0 (journal_items batch) blocks p t -> settled [] p -> blocks <> [] ->
  store_wf t0 ->
  pending target blocks
    (<[header_key b := to_bytes {| block_count := Z.of_nat (length blocks) |}]> t).
Proof.
  intros [Hb Hc Hl Hbl Hp He Hi] [Htr Hnil]%(fun H => H eq_refl) Hne Hwf0.
  rewrite Hnil, Htr, <- journal_items_operations in *. simpl in *. rewrite app_nil_r in Hi.
  assert (Z.of_nat (length blocks) <= u32_MAX) as Hlen.
  { rewrite <- (length_fmap journal_item_operation), <- journal_items_operations in Hl. lia. }
  pose proof (pending_wf _ _ _ Hb) as Hwf.
  assert (store_wf (<[header_key b := to_bytes {| block_count := Z.of_nat (length blocks) |}]> t))
    as Hwf' by (apply map_Forall_insert_2; [by apply journaling_key_wf|done]).
  split; try done.
  - by rewrite lookup_insert_eq, decide_False.
  - intros i block Hlook. rewrite lookup_insert_ne by apply header_entry_key. by apply He.
  - rewrite <- (target_ok (remaining blocks)) by by rewrite remaining_permutation.
    apply same_data_write; [by apply remaining_data|done..|].
    intros k Hk. rewrite lookup_insert_ne by (intros <-; by apply Hk, journaling_key_in).
    by apply pending_nil_same.
Qed.

Lemma write_header_spec (blocks : list SimpleUnorderedBatch) (p : JournalProgress) db :
  writing t0 (journal_items batch) blocks p (table db) -> settled [] p -> blocks <> [] ->
  store_wf t0 ->
  spec (fun _ t => before_or_after t) db
    (write_single_key_value (header_key b) (to_bytes {| block_count := Z.of_nat (length blocks) |}))
    (fun _ db' => pending target blocks (table db')).
Proof.
  intros Hw Hs Hne Hwf. pose proof (pending_commit _ _ _ Hw Hs Hne Hwf) as Hp.
  eapply spec_bind.
  - apply (spec_lift _ _ _ (fun items db' => items = [TransactPut (header_key b)
      (to_bytes {| block_count := Z.of_nat (length blocks) |})] /\ db' = db)).
    by intros items ->%insert_put_Ok.
  - intros ? ? [-> ->]. apply spec_submit; [done|]. intros _. split; [right; by exists blocks|done].
Qed.

Lemma write_journal_spec db :
  table db = t0 -> store_wf t0 -> t0 !! header_key b = None ->
  spec (fun _ t => before_or_after t) db (write_journal batch b)
    (fun header db' => exists blocks, block_count header = Z.of_nat (length blocks) /\
       pending target blocks (table db')).
Proof.
  intros Ht Hwf Hh. unfold write_journal. eapply spec_bind.
  - eapply (spec_weaken (fun _ t => pending t0 [] t)); [| |done].
    + apply (write_journal_loop_spec t0 (journal_items batch) [] []); try done.
      * split; try done. rewrite Ht. by apply pending_nil.
      * by rewrite <- (length_fmap journal_item_operation), <- journal_items_operations.
    + intros _ t Hp. left. by exists [].
  - intros p db' (blocks & Hw & Hs). pose proof (writing_count _ _ _ _ _ Hw) as Hc. rewrite Hc.
    assert (0 <? Z.of_nat (length blocks) = negb (bool_decide (blocks = []))) as Hpos
      by by destruct blocks.
    rewrite Hpos. case_bool_decide as Hnil; simpl.
    + eapply spec_bind; [by apply (spec_ret _ _ _ (fun _ db2 => db2 = db'))|]. intros _ ? ->.
      apply spec_ret. exists blocks. split; [done|]. subst blocks.
      destruct Hw as [Hb _ _ _ _ _ Hi]. destruct (Hs eq_refl) as [_ Hnil]. rewrite Hnil in Hi.
      rewrite <- journal_items_operations in Hi. simpl in Hi.
      by rewrite <- (target_ok [] Hi).
    + eapply spec_bind; [by apply (write_header_spec blocks p)|]. intros [] db2 Hp. apply spec_ret.
      by exists blocks.
Qed.

(** The whole slow path. *)
Lemma slow_path_spec db :
  table db = t0 -> store_wf t0 -> t0 !! header_key b = None ->
  spec (fun _ t => before_or_after t) db
    (let* header := write_journal batch b in
     coherently_resolve_journal (Z.to_nat (block_count header)) b)
    (fun _ db' => pending target [] (table db')).
Proof.
  intros Ht Hwf Hh. eapply spec_bind; [by apply write_journal_spec|].
  intros header db' (blocks & Hc & Hp). rewrite Hc, Nat2Z.id.
  eapply spec_weaken; [by eapply resolve_spec| |done]. intros items t Hr. by right.
Qed.

(** The fast path. *)
Lemma fast_path_spec db :
  table db = t0 -> store_wf t0 -> t0 !! header_key b = None ->
  spec (fun _ t => before_or_after t) db (write_fastpath_failsafe batch)
    (fun _ db' => pending target [] (table db')).
Proof.
  intros Ht Hwf Hh. unfold write_fastpath_failsafe.
  assert (pending target [] target) as Hp.
  { rewrite <- (target_ok (simple_operations batch)) by done.
    pose proof (data_operations_wf _ _ batch_ok) as Hops. apply pending_nil.
    - by apply write_batch_wf.
    - by rewrite lookup_write_batch, (data_operation_effect b) by (done || apply journaling_key_in). }
  eapply spec_bind; [apply (spec_lift _ _ _ (fun tb db' => tb = TransactDelete <$> deletions batch /\ db' = db));
    by intros tb ->%insert_deletes|].
  intros ? ? [-> ->].
  eapply spec_bind; [apply (spec_lift _ _ _ (fun tb db' => tb = (TransactDelete <$> deletions batch) ++
    (uncurry TransactPut <$> insertions batch) /\ db' = db)); by intros tb ->%insert_puts|].
  intros ? ? [-> ->].
  assert (item_operation <$> (TransactDelete <$> deletions batch) ++
    (uncurry TransactPut <$> insertions batch) = simple_operations batch) as Hops.
  { unfold simple_operations. rewrite fmap_app, <- !list_fmap_compose. f_equal.
    apply list_fmap_ext. by intros ? []. }
  apply spec_submit.
  2:{ intros _. rewrite Hops, Ht, target_ok by done. split; [right; by exists []|done]. }
  intros Hnil. rewrite Ht, <- (target_ok (simple_operations batch)) by done.
  rewrite <- Hops, Hnil. by apply pending_nil.
Qed.

End resolving.

(** ** The operations of simplified batches *)

(** Where the elements of the collections of [simplify] come from; keys to delete are not under
    the prefixes to delete. *)
Record simplify_origin (batch : Batch) (state : SimplifyState) : Prop := {
  origin_delete k : state.1 !! k = Some None -> Delete k ∈ batch /\ ~ matched state.2 k;
  origin_put k v : state.1 !! k = Some (Some v) -> Put k v ∈ batch;
  origin_prefix p : p ∈ state.2 -> DeletePrefix p ∈ batch;
}.

Lemma simplify_state_origin batch :
  Forall operation_wf batch -> simplify_origin batch (foldl simplify_step (∅, ∅) batch).
Proof.
  induction batch as [|operation batch IH] using rev_ind; intros Hwf.
  { split; simpl; [done..|]. intros p Hp. by apply elem_of_empty in Hp. }
  apply Forall_app in Hwf as [Hwf [Hop _]%Forall_cons]. rewrite foldl_snoc.
  destruct (simplify_state_inv batch Hwf) as (Hfree & HD & HM & _). destruct (IH Hwf) as [Hd Hi Hp].
  assert (forall o, o ∈ batch -> o ∈ batch ++ [operation]) as Hold
    by (intros; apply elem_of_app; by left).
  assert (operation ∈ batch ++ [operation]) as Hnew by (apply elem_of_app; right; by left).
  destruct (foldl simplify_step (∅, ∅) batch) as [M D]. simpl in Hd, Hi, Hp, Hfree, HD, HM.
  destruct operation as [key|q|key value]; cbn [simplify_step].
  - pose proof (is_prefix_matched_spec D key Hfree) as Hspec.
    destruct (is_prefix_matched D key); simpl; split; simpl; auto.
    + intros k [_ Hk]%lookup_delete_Some. destruct (Hd k Hk). auto.
    + intros k v [_ Hk]%lookup_delete_Some. auto.
    + intros k [[<- _]|[_ Hk]]%lookup_insert_Some; [|destruct (Hd k Hk); auto].
      split; [done|]. by rewrite <- Hspec.
    + intros k v [[_ ?]|[_ Hk]]%lookup_insert_Some; [done|]. auto.
  - pose proof (fun k => lookup_delete_prefix q M k Hop HM) as Hlook.
    destruct (is_prefix_matched D q); cbn [negb]; split; cbn [fst snd]; auto.
    1,3: intros k; rewrite Hlook; case_decide; [done|]; intros Hk; destruct (Hd k Hk); split; auto.
    + rewrite matched_insert_prefix by done. tauto.
    + intros k v. rewrite Hlook. case_decide; [done|]. auto.
    + intros k v. rewrite Hlook. case_decide; [done|]. auto.
    + intros p. rewrite elem_of_union, elem_of_singleton, elem_of_remove_elements.
      intros [->|[? _]]; auto.
  - split; cbn [fst snd]; auto.
    + intros k [[_ ?]|[_ Hk]]%lookup_insert_Some; [done|]. destruct (Hd k Hk). auto.
    + intros k v [[<- [= <-]]|[_ Hk]]%lookup_insert_Some; auto.
Qed.

(** The operations of a batch that a journal at a base key can hold.  The keys that a prefix
    deletes do not include those of the journal. *)
Definition journaled (base_key : bytes) (t : Store) (operation : WriteOperation) : Prop :=
  match operation with
  | Delete key => bytes_wf key /\ ~ in_journal base_key key
  | Put key value => bytes_wf key /\ bytes_wf value /\ ~ in_journal base_key key
  | DeletePrefix p =>
      bytes_wf p /\ forall k, p `prefix_of` k -> is_Some (t !! k) -> ~ in_journal base_key k
  end.
Lemma journaled_wf (b : bytes) (t : Store) (ops : Batch) : Forall (journaled b t) ops -> Forall operation_wf ops.
Proof. intros Hops. eapply Forall_impl; [done|]. intros []; simpl; naive_solver. Qed.

Section expanding.
Context (batch : Batch) (t : Store).
Context (batch_ok : Forall operation_wf batch) (table_ok : store_wf t).

Notation expanded_batch := (expand_delete_prefixes t (simplify batch)).

(** Where the keys of the expanded batch come from. *)
Lemma expanded_deletions key :
  key ∈ deletions expanded_batch ->
  (Delete key ∈ batch /\ ~ matched (foldl simplify_step (∅, ∅) batch).2 key) \/
  exists p, DeletePrefix p ∈ batch /\ p `prefix_of` key /\ is_Some (t !! key).
Proof.
  pose proof (simplify_state_origin batch batch_ok) as [Hd _ Hp].
  cbn [expand_delete_prefixes deletions]. rewrite elem_of_all_expanded, elem_of_deletions by done.
  intros [Hk|(p & Hpin & Hk)]; [left; by apply Hd|].
  apply elem_of_prefixes in Hpin. right. exists p.
  destruct (simplify_state_inv batch batch_ok) as (_ & HD & _).
  apply elem_of_expanded in Hk as (Hpre & Hk & _); [|done|by apply HD]. auto.
Qed.
Lemma expanded_insertions key value :
  (key, value) ∈ insertions expanded_batch -> Put key value ∈ batch.
Proof.
  intros Hk. apply (simplify_state_origin batch batch_ok). by apply elem_of_insertions in Hk.
Qed.
Lemma omap_entries_NoDup {A : Type} (f : bytes * option bytes -> option A) (g : A -> bytes)
    (m : gmap bytes (option bytes)) :
  (forall kv a, f kv = Some a -> g a = kv.1) ->
  NoDup (g <$> omap f (range_entries (Unbounded, Unbounded) m)).
Proof.
  intros Hf. assert (NoDup (range_entries (Unbounded, Unbounded) m).*1) as Hnd.
  { rewrite <- range_keys_entries. unfold range_keys. rewrite sort_by_perm.
    apply NoDup_filter, NoDup_fst_map_to_list. }
  induction (range_entries (Unbounded, Unbounded) m) as [|kv l IH]; [constructor|].
  apply NoDup_cons in Hnd as [Hn Hnd]. simpl. destruct (f kv) as [a|] eqn:Ha; [|by apply IH].
  simpl. constructor; [|by apply IH]. rewrite (Hf _ _ Ha).
  intros (a' & Hk & Ha')%list_elem_of_fmap. apply list_elem_of_omap in Ha' as (kv' & Hin & Ha').
  apply Hn. rewrite Hk, (Hf _ _ Ha'). by apply list_elem_of_fmap_2.
Qed.

Lemma all_expanded_NoDup inserted (init prefixes : list bytes) :
  NoDup init -> NoDup prefixes -> Forall bytes_wf prefixes ->
  (forall p q, p ∈ prefixes -> q ∈ prefixes -> p `prefix_of` q -> p = q) ->
  (forall p k, p ∈ prefixes -> k ∈ init -> ~ p `prefix_of` k) ->
  NoDup (foldl (fun deletions p => deletions ++ expanded t inserted p) init prefixes).
Proof.
  revert init. induction prefixes as [|p prefixes IH]; intros init Hi Hp Hwf Hfree Hinit; [done|].
  apply NoDup_cons in Hp as [Hn Hp]. apply Forall_cons in Hwf as [Hpwf Hwf].
  assert (forall k, k ∈ expanded t inserted p -> p `prefix_of` k) as Hpre.
  { intros k. unfold expanded. rewrite list_elem_of_filter, list_elem_of_fmap.
    intros (_ & short & -> & _). by apply prefix_app_r. }
  simpl. apply IH; [|done|done| |].
  - apply NoDup_app. split_and!; [done| |].
    + intros k Hk He. eapply Hinit; [by left|done|by apply Hpre].
    + unfold expanded, expand_delete_prefix, find_keys_by_prefix. apply NoDup_filter.
      rewrite <- list_fmap_compose. apply NoDup_fmap_2_strong.
      * intros k k' Hk Hk' Heq. simpl in Heq.
        rewrite elem_of_range_keys in Hk, Hk'. destruct Hk as [Hk [v Hv]], Hk' as [Hk' [v' Hv']].
        apply interval_prefix in Hk; [|done|by eapply table_ok].
        apply interval_prefix in Hk'; [|done|by eapply table_ok].
        by rewrite !prefix_drop in Heq.
      * unfold range_keys. rewrite sort_by_perm. apply NoDup_filter, NoDup_fst_map_to_list.
  - intros q q' Hq Hq'. apply Hfree; by right.
  - intros q k Hq [Hk|Hk]%elem_of_app; [by apply Hinit; [right|]|]. intros Hqk. apply Hn.
    destruct (prefix_weak_total q p k) as [Hqp|Hqp]; [done|by apply Hpre|..].
    + assert (q = p) as <- by (apply Hfree; [by right|by left|done]). done.
    + assert (p = q) as -> by (apply Hfree; [by left|by right|done]). done.
Qed.

(** No key is written twice. *)
Lemma expanded_NoDup : NoDup (deletions expanded_batch ++ (insertions expanded_batch).*1).
Proof.
  pose proof (simplify_state_origin batch batch_ok) as [Hd _ _].
  destruct (simplify_state_inv batch batch_ok) as (Hfree & HD & _).
  apply NoDup_app. split_and!.
  - cbn [expand_delete_prefixes deletions]. apply all_expanded_NoDup.
    + unfold simplify. destruct (foldl _ _ _) as [M D]. simpl. rewrite <- (list_fmap_id (omap _ _)).
      apply omap_entries_NoDup. intros [k [v|]] a; simpl; congruence.
    + unfold simplify. destruct (foldl _ _ _) as [M D]. simpl. unfold range_set.
      rewrite sort_by_perm. apply NoDup_filter, NoDup_elements.
    + apply Forall_forall. intros p Hp%elem_of_prefixes. by apply HD.
    + intros p q Hp%elem_of_prefixes Hq%elem_of_prefixes. by apply Hfree.
    + intros p k Hp%elem_of_prefixes Hk%elem_of_deletions Hpre. destruct (Hd k Hk) as [_ Hm].
      apply Hm. by exists p.
  - intros k Hk ([k' v] & -> & Hv)%list_elem_of_fmap. simpl in Hk. apply elem_of_insertions in Hv.
    cbn [expand_delete_prefixes deletions] in Hk.
    apply elem_of_all_expanded in Hk; [|done..]. destruct Hk as [Hk|(p & Hp & Hk)].
    + apply elem_of_deletions in Hk. congruence.
    + apply elem_of_prefixes in Hp. apply elem_of_expanded in Hk as (_ & _ & Hn); [|done|by apply HD].
      apply Hn. by exists v.
  - cbn [expand_delete_prefixes insertions]. unfold simplify. destruct (foldl _ _ _) as [M D]. simpl.
    apply omap_entries_NoDup. intros [k [v|]] a; simpl; [by intros [= <-]|done].
Qed.
End expanding.

Lemma expanded_data (b : bytes) (batch : Batch) (t : Store) :
  Forall (journaled b t) batch -> store_wf t ->
  Forall (data_operation b) (simple_operations (expand_delete_prefixes t (simplify batch))).
Proof.
  intros Hops Ht. pose proof (journaled_wf _ _ _ Hops) as Hwf. rewrite Forall_forall in Hops.
  apply Forall_forall. intros o [(key & -> & Hk)|(key & value & -> & Hk)]%elem_of_simple_operations.
  - apply expanded_deletions in Hk as [[Hk _]|(p & Hp & Hpre & [v Hv])]; [| |done..].
    + exact (Hops _ Hk).
    + split; [by eapply Ht|]. destruct (Hops _ Hp) as [_ Hp']. apply Hp'; [done|by exists v].
  - apply expanded_insertions in Hk; [|done]. exact (Hops _ Hk).
Qed.

Lemma iterate_pages_concat {A : Type} (pages : list (list A)) :
  (forall i page, pages !! i = Some page -> (S i < length pages)%nat -> page <> []) ->
  iterate_pages pages = concat pages.
Proof.
  induction pages as [|page pages IH]; intros Hne; [done|]. cbn [iterate_pages concat]. f_equal.
  assert (iterate_pages pages = concat pages) as Heq.
  { apply IH. intros i p Hi Hlt. apply (Hne (S i)); [done|]. simpl. lia. }
  destruct pages as [|[|a p] pages]; try done. destruct pages as [|p pages]; [done|].
  by destruct (Hne 1%nat [] eq_refl); [simpl; lia|].
Qed.

Section client.
Context `{DynamoDbLaws, JournalSerdeLaws}.

Lemma dynamo_find_keys_Ok p db keys :
  bytes_wf p -> store_wf (table db) -> dynamo_find_keys p db = Ok keys ->
  keys = find_keys_by_prefix p (table db).
Proof.
  intros Hp Ht. unfold dynamo_find_keys, get_list_responses.
  destruct (ensure _ ZeroLengthKeyPrefix); cbn; try done.
  destruct (ensure _ KeyPrefixTooLong); cbn; try done. intros [= <-].
  rewrite iterate_pages_concat by apply query_pages_nonempty.
  rewrite query_pages_concat by done. unfold find_keys_by_prefix.
  rewrite range_keys_entries, <- list_fmap_compose. done.
Qed.

Lemma from_batch_spec (batch : Batch) db :
  Forall operation_wf batch -> store_wf (table db) ->
  spec (fun _ _ => False) db (from_batch batch)
    (fun simple db' => db' = db /\ simple = expand_delete_prefixes (table db) (simplify batch)).
Proof.
  intros Hwf Ht. unfold from_batch, dynamo_expand, expand_delete_prefixes.
  assert (Forall bytes_wf (key_prefix_deletions (simplify batch))) as Hp.
  { apply Forall_forall. intros p Hp. apply elem_of_prefixes in Hp.
    destruct (simplify_state_inv batch Hwf) as (_ & HD & _). by apply HD. }
  generalize (deletions (simple_unordered_batch (simplify batch))) as init.
  induction Hp as [|p prefixes Hp _ IH]; intros init; [by apply spec_ret|].
  cbn [dfor_each foldl].
  destruct (dynamo_find_keys p db) as [keys|e|] eqn:Hk.
  - apply dynamo_find_keys_Ok in Hk as Hk'; [|done..]. unfold spec, dbind, dlift, dret in *.
    rewrite Hk. subst keys. apply IH.
  - unfold spec, dbind, dlift. rewrite Hk. split; [apply extends_refl|done].
  - unfold spec, dbind, dlift. rewrite Hk. split; [apply extends_refl|done].
Qed.

Definition new_db (t : Store) : DynamoDbClientInternal := {| table := t; history := [] |}.
(** The tables that a crash can leave. *)
Definition crash_tables (t : Store) (db : DynamoDbClientInternal) : list Store :=
  t :: (history db).*2.

(** The journal is cleared, after any number of crashes while it is. *)
Inductive recovers (base_key : bytes) : Store -> Store -> Prop :=
  | recovers_done t db :
      dynamo_clear_journal base_key (new_db t) = (Ok (), db) -> recovers base_key t (table db)
  | recovers_crash t t1 t2 :
      t1 ∈ crash_tables t (dynamo_clear_journal base_key (new_db t)).2 ->
      recovers base_key t1 t2 -> recovers base_key t t2.

Lemma extends_crash_tables P t db t' :
  extends P (new_db t) db -> t' ∈ crash_tables t db -> t' = t \/ exists items, P items t'.
Proof.
  intros (steps & Hh & HP & _) Ht'. unfold crash_tables in Ht'. simpl in Hh. rewrite Hh in Ht'.
  apply elem_of_cons in Ht' as [->|Ht']; [by left|].
  apply list_elem_of_fmap in Ht' as ([items t''] & -> & Hin). right. exists items.
  rewrite Forall_forall in HP. exact (HP _ Hin).
Qed.

(** Clearing a journal leads to the data it was written for. *)
Lemma resumes_recovers (b : bytes) (simple : SimpleUnorderedBatch) (final t t' : Store) :
  bytes_wf b -> Forall (data_operation b) (simple_operations simple) ->
  recovers b t t' -> resumes b simple final t -> same_data b t' final /\ t' !! header_key b = None.
Proof.
  intros Hb Hs. induction 1 as [t db Hc|t t1 t2 Ht1 _ IH]; intros Hr.
  - destruct Hr as [blocks Hp].
    destruct (clear_spec b Hb simple Hs final blocks (new_db t) Hp) as [_ HQ]. rewrite Hc in HQ.
    specialize (HQ () eq_refl). split; [by eapply pending_nil_same|by destruct HQ].
  - apply IH. pose proof Hr as [blocks Hp].
    destruct (clear_spec b Hb simple Hs final blocks (new_db t) Hp) as [He _].
    destruct (extends_crash_tables _ _ _ _ He Ht1) as [->|[_ Ht]]; done.
Qed.

(** All states of [write_batch], and its result. *)
Lemma dynamo_write_batch_spec (b : bytes) (batch : Batch) (t : Store) :
  let simple := expand_delete_prefixes t (simplify batch) in
  bytes_wf b -> store_wf t -> t !! header_key b = None -> Forall (journaled b t) batch ->
  Z.of_nat (length (simple_operations simple)) <= u32_MAX ->
  spec (fun _ t' => before_or_after b simple t (write_batch batch t) t') (new_db t)
    (dynamo_write_batch batch b) (fun _ db => pending b simple (write_batch batch t) [] (table db)).
Proof.
  intros simple Hb Ht Hh Hops Hlen. pose proof (journaled_wf _ _ _ Hops) as Hwf.
  pose proof (expanded_data _ _ _ Hops Ht) as Hdata.
  assert (forall ops, ops ≡ₚ simple_operations simple -> write_batch ops t = write_batch batch t)
    as Htarget by (intros ops; by apply expand_delete_prefixes_equivalent).
  unfold dynamo_write_batch. eapply spec_bind.
  - eapply spec_weaken; [by apply (from_batch_spec batch (new_db t))|done|done].
  - intros ? ? [-> ->]. simpl table. fold simple. case_match.
    + by apply fast_path_spec.
    + by apply slow_path_spec.
Qed.

End client.


(** ** Journals can be cleared *)

Definition sized_key (k : bytes) : Prop :=
  (0 < length k)%nat /\ Z.of_nat (length k) <= MAX_KEY_BYTES.
Definition sized_operation (operation : WriteOperation) : Prop :=
  match operation with Delete key | Put key _ => sized_key key | DeletePrefix _ => True end.

Lemma check_key_sized k : sized_key k -> check_key k = Ok ().
Proof.
  intros [Hpos Hmax]. unfold check_key, ensure. destruct k; [simpl in Hpos; lia|].
  rewrite bool_decide_false by done. cbn [negb mbind result_bind].
  by rewrite (proj2 (Z.leb_le _ _) Hmax).
Qed.
Lemma insert_delete_sized key tb :
  sized_key key -> insert_delete_request key tb = Ok (tb ++ [TransactDelete key]).
Proof. intros Hk. unfold insert_delete_request, build_delete_transact. by rewrite check_key_sized. Qed.
Lemma insert_put_sized key value tb :
  sized_key key -> Z.of_nat (length value) <= RAW_MAX_VALUE_BYTES ->
  insert_put_request (key, value) tb = Ok (tb ++ [TransactPut key value]).
Proof.
  intros Hk Hv. unfold insert_put_request, build_put_transact. cbn [fst snd].
  rewrite check_key_sized by done. unfold ensure. by rewrite (proj2 (Z.leb_le _ _) Hv).
Qed.
Lemma insert_deletes_sized (keys : list bytes) : forall tb,
  Forall sized_key keys ->
  for_each insert_delete_request keys tb = Ok (tb ++ (TransactDelete <$> keys)).
Proof.
  induction keys as [|key keys IH]; intros tb Hk; cbn [for_each]; [by rewrite app_nil_r|].
  apply Forall_cons in Hk as [Hk Hkeys]. rewrite insert_delete_sized by done.
  cbn [mbind result_bind]. rewrite IH by done. by rewrite <- app_assoc.
Qed.
Lemma insert_puts_sized (kvs : list (bytes * bytes)) : forall tb,
  Forall (fun kv => sized_key kv.1 /\ Z.of_nat (length kv.2) <= RAW_MAX_VALUE_BYTES) kvs ->
  for_each insert_put_request kvs tb = Ok (tb ++ (uncurry TransactPut <$> kvs)).
Proof.
  induction kvs as [|[key value] kvs IH]; intros tb Hk; cbn [for_each]; [by rewrite app_nil_r|].
  apply Forall_cons in Hk as [[Hk Hv] Hkvs]. rewrite insert_put_sized by done.
  cbn [mbind result_bind]. rewrite IH by done. by rewrite <- app_assoc.
Qed.

Lemma uleb128_loop_pos fuel len power expo : 0 < expo -> 0 < uleb128_loop fuel len power expo.
Proof.
  revert power expo. induction fuel as [|fuel IH]; intros power expo He; simpl; [done|].
  case_match; [|done]. apply IH. lia.
Qed.
Lemma get_uleb128_size_pos len : 0 < get_uleb128_size len.
Proof. by apply uleb128_loop_pos. Qed.

Lemma items_size_app items1 items2 :
  items_size (items1 ++ items2) = items_size items1 + items_size items2.
Proof. unfold items_size. induction items1 as [|item items1 IH]; simpl; lia. Qed.
(** The serialization of a block has all its keys and values. *)
Lemma simple_size_items block :
  items_size ((TransactDelete <$> deletions block) ++ (uncurry TransactPut <$> insertions block))
  <= simple_size block.
Proof.
  unfold simple_size. pose proof (get_uleb128_size_pos (Z.of_nat (length (deletions block)))).
  pose proof (get_uleb128_size_pos (Z.of_nat (length (insertions block)))).
  assert (items_size (uncurry TransactPut <$> insertions block) <=
    foldr (fun kv size => bytes_size kv.1 + bytes_size kv.2 + size) 0 (insertions block)) as Hi.
  { clear. induction (insertions block) as [|[k v] l IH]; [done|].
    unfold items_size, bytes_size in *. csimpl in *. simpl.
    pose proof (get_uleb128_size_pos (Z.of_nat (length k))).
    pose proof (get_uleb128_size_pos (Z.of_nat (length v))). lia. }
  assert (items_size (TransactDelete <$> deletions block) <=
    foldr (fun k size => bytes_size k + size) 0 (deletions block)) as Hd.
  { clear. induction (deletions block) as [|k l IH]; [done|].
    unfold items_size, bytes_size in *. csimpl in *. simpl.
    pose proof (get_uleb128_size_pos (Z.of_nat (length k))). lia. }
  rewrite items_size_app. lia.
Qed.
Lemma simple_size_value block k v :
  (k, v) ∈ insertions block -> Z.of_nat (length v) <= simple_size block.
Proof.
  intros Hin. pose proof (simple_size_items block) as Hs.
  assert (forall items, TransactPut k v ∈ items -> Z.of_nat (length v) <= items_size items) as Hsum.
  { intros items. induction items as [|item items IH]; [by intros ?%not_elem_of_nil|].
    assert (0 <= items_size items) as Hpos.
    { clear. unfold items_size.
      induction items as [|item items IH]; simpl; [done|]. destruct item; simpl; lia. }
    unfold items_size in *. intros [<-|Hit]%elem_of_cons; simpl in *; [lia|].
    specialize (IH Hit). destruct item; simpl; lia. }
  etrans; [apply Hsum|exact Hs]. apply elem_of_app. right. apply list_elem_of_fmap.
  by exists (k, v).
Qed.

Section recovery.
Context `{Db : DynamoDb, !DynamoDbLaws, !DynamoDbAvailable, Js : JournalSerde, !JournalSerdeLaws}.
Context (b : bytes) (base_ok : bytes_wf b).
Context (base_length : Z.of_nat (length b) + 6 <= MAX_KEY_BYTES).
Context (batch : SimpleUnorderedBatch).
Context (batch_ok : Forall (data_operation b) (simple_operations batch)).
Context (batch_sized : Forall sized_operation (simple_operations batch)).
Context (batch_NoDup : NoDup (deletions batch ++ (insertions batch).*1)).

Definition operation_key (operation : WriteOperation) : bytes :=
  match operation with Delete key | Put key _ | DeletePrefix key => key end.
Lemma simple_operations_keys block :
  operation_key <$> simple_operations block = deletions block ++ (insertions block).*1.
Proof.
  unfold simple_operations. rewrite fmap_app, <- !list_fmap_compose. f_equal.
  - by rewrite (list_fmap_ext _ id), list_fmap_id.
  - apply list_fmap_ext. by intros ? [].
Qed.

Lemma journaling_key_sized tag pos : sized_key (get_journaling_key b tag pos).
Proof. unfold sized_key, get_journaling_key. rewrite length_app. simpl. lia. Qed.

Lemma block_sized block : block_of batch block -> Forall sized_operation (simple_operations block).
Proof.
  intros [Hsub _ _]. rewrite Forall_forall in *. intros o Ho. apply batch_sized.
  by eapply elem_of_submseteq.
Qed.
Lemma block_simple_size block : block_of batch block -> simple_size block <= RAW_MAX_VALUE_BYTES.
Proof.
  intros Hb. rewrite <- batch_length; [by destruct Hb|].
  by eapply simple_operations_wf_values, block_data.
Qed.
Lemma block_sized_deletions block : block_of batch block -> Forall sized_key (deletions block).
Proof.
  intros Hb%block_sized. unfold simple_operations in Hb. rewrite Forall_app, !Forall_fmap in Hb.
  by destruct Hb.
Qed.
Lemma block_sized_insertions block :
  block_of batch block ->
  Forall (fun kv => sized_key kv.1 /\ Z.of_nat (length kv.2) <= RAW_MAX_VALUE_BYTES) (insertions block).
Proof.
  intros Hb. pose proof (block_sized _ Hb) as Hs. unfold simple_operations in Hs.
  rewrite Forall_app, !Forall_fmap in Hs. destruct Hs as [_ Hs]. rewrite Forall_forall in *.
  intros [k v] Hin. split; [exact (Hs _ Hin)|]. simpl.
  pose proof (simple_size_value _ _ _ Hin). pose proof (block_simple_size _ Hb). lia.
Qed.

Lemma header_value_size count :
  Z.of_nat (length (to_bytes {| block_count := count |})) <= RAW_MAX_VALUE_BYTES.
Proof. rewrite header_length. unfold RAW_MAX_VALUE_BYTES. lia. Qed.

Lemma block_transacts_sized block count :
  block_of batch block ->
  block_transacts b (entry_key b count) block (Z.of_nat count) = Ok (block_items b block count).
Proof.
  intros Hb. unfold block_transacts, block_items, add_journal_header_operations.
  rewrite insert_delete_sized by apply journaling_key_sized. cbn [mbind result_bind].
  rewrite insert_deletes_sized by by apply block_sized_deletions. cbn [mbind result_bind].
  rewrite insert_puts_sized by by apply block_sized_insertions. cbn [mbind result_bind block_count].
  case_match eqn:Hc; case_decide; try lia.
  - rewrite insert_put_sized by (apply journaling_key_sized || apply header_value_size).
    by rewrite <- !app_assoc.
  - rewrite insert_delete_sized by apply journaling_key_sized. by rewrite <- !app_assoc.
Qed.

Definition header_item (count : nat) : TransactWriteItem :=
  if decide (count = 0%nat) then TransactDelete (header_key b)
  else TransactPut (header_key b) (to_bytes {| block_count := Z.of_nat count |}).
Definition block_item_list (block : SimpleUnorderedBatch) : list TransactWriteItem :=
  (TransactDelete <$> deletions block) ++ (uncurry TransactPut <$> insertions block).
Lemma block_items_eq block count :
  block_items b block count =
  TransactDelete (entry_key b count) :: block_item_list block ++ [header_item count].
Proof. unfold block_items, block_item_list. by rewrite <- app_assoc. Qed.
Lemma block_item_keys block :
  item_key <$> block_item_list block = operation_key <$> simple_operations block.
Proof.
  rewrite simple_operations_keys. unfold block_item_list. rewrite fmap_app, <- !list_fmap_compose.
  f_equal; [by rewrite (list_fmap_ext _ id), list_fmap_id|]. apply list_fmap_ext. by intros ? [].
Qed.
Lemma header_item_key count : item_key (header_item count) = header_key b.
Proof. unfold header_item. by case_decide. Qed.

Lemma block_keys_NoDup block count :
  block_of batch block -> NoDup (item_key <$> block_items b block count).
Proof.
  intros Hb. rewrite block_items_eq, fmap_cons, fmap_app, block_item_keys. simpl.
  rewrite header_item_key.
  assert (forall tag pos, get_journaling_key b tag pos ∉ operation_key <$> simple_operations block) as Hn.
  { intros tag pos (o & Hk & Ho)%list_elem_of_fmap.
    pose proof (block_data _ _ batch_ok _ Hb) as Hd. rewrite Forall_forall in Hd.
    specialize (Hd o Ho). pose proof (journaling_key_in b tag pos) as Hin. rewrite Hk in Hin.
    destruct o; simpl in *; naive_solver. }
  apply NoDup_cons. split.
  - intros [Hin|Hin]%elem_of_app; [by apply Hn in Hin|].
    apply list_elem_of_singleton in Hin. by apply (header_entry_key b count).
  - apply NoDup_app. split_and!; [| |by apply NoDup_singleton].
    2:{ intros k Hk ->%list_elem_of_singleton. by apply Hn in Hk. }
    destruct Hb as [Hsub _ _]. rewrite <- simple_operations_keys in batch_NoDup.
    apply submseteq_Permutation in Hsub as [rest Hrest].
    rewrite Hrest, fmap_app, NoDup_app in batch_NoDup. by destruct batch_NoDup.
Qed.

Lemma block_transaction_ok block count :
  block_of batch block -> transaction_ok (block_items b block count).
Proof.
  intros Hb. pose proof (block_keys_NoDup block count Hb) as Hnd.
  pose proof (block_sized_deletions _ Hb) as Hd. pose proof (block_sized_insertions _ Hb) as Hi.
  pose proof (block_simple_size _ Hb) as Hsize. pose proof (simple_size_items block) as Hitems.
  pose proof (header_value_size (Z.of_nat count)) as Hv.
  pose proof (journaling_key_sized entry_tag (Z.of_nat count)) as [? ?].
  pose proof (journaling_key_sized journal_tag 0) as [? ?].
  rewrite block_items_eq in *. split_and!; [done| |done| |].
  - destruct Hb as [_ Hc _]. rewrite length_simple_operations in Hc. simpl.
    unfold block_item_list. rewrite !length_app, !length_fmap. simpl. lia.
  - apply Forall_cons. split; [done|]. unfold block_item_list. rewrite !Forall_app, !Forall_fmap.
    split_and!.
    + eapply Forall_impl; [exact Hd|]. by intros k [? ?].
    + eapply Forall_impl; [exact Hi|]. by intros [k v] [[? ?] ?].
    + apply Forall_singleton. unfold header_item. by case_decide.
  - change (TransactDelete (entry_key b count) :: block_item_list block ++ [header_item count])
      with ([TransactDelete (entry_key b count)] ++ block_item_list block ++ [header_item count]).
    rewrite !items_size_app. fold (block_item_list block) in Hitems.
    assert (items_size [header_item count] <= MAX_KEY_BYTES + 4) as Hh.
    { unfold header_item. case_decide; simpl; [lia|]. rewrite header_length. lia. }
    simpl (items_size [TransactDelete _]).
    unfold MAX_TRANSACT_WRITE_ITEM_BYTES, RAW_MAX_VALUE_BYTES, MAX_KEY_BYTES in *. lia.
Qed.

Lemma submit_available items db :
  transaction_ok items ->
  submit_transactions items db =
  (Ok (), {| table := write_batch (item_operation <$> items) (table db);
             history := history db ++ [(items, write_batch (item_operation <$> items) (table db))] |}).
Proof.
  intros Hok. pose proof Hok as (Hne & Hlen & _). unfold submit_transactions.
  rewrite (proj2 (Z.ltb_ge _ _) Hlen), bool_decide_false by done.
  destruct (transact_available items (table db) Hok) as [t' Ht']. rewrite Ht'.
  by apply transact_atomic in Ht' as ->.
Qed.

Lemma resolve_available (final : Store) (blocks : list SimpleUnorderedBatch) : forall db,
  pending b batch final blocks (table db) ->
  exists db', coherently_resolve_journal (length blocks) b db = (Ok (), db').
Proof.
  induction blocks as [|block blocks IH] using rev_ind; intros db Hp; [by eexists|].
  pose proof (pending_step b base_ok batch batch_ok _ _ _ _ Hp) as Hstep.
  destruct Hp as [_ Hblocks _ _ He _]. apply Forall_app in Hblocks as [_ [Hblock _]%Forall_cons].
  rewrite length_app, Nat.add_1_r. cbn [coherently_resolve_journal].
  rewrite (He (length blocks) block) by by apply list_lookup_middle.
  rewrite batch_round_trip by by eapply simple_operations_wf_values, block_data.
  unfold dbind, dlift. cbn [ok_or]. rewrite block_transacts_sized by done.
  rewrite submit_available by by apply block_transaction_ok. by apply IH.
Qed.

Lemma clear_available (final t : Store) :
  resumes b batch final t -> exists db, dynamo_clear_journal b (new_db t) = (Ok (), db).
Proof.
  intros [blocks Hp]. pose proof Hp as [_ _ Hlen Hh _ _]. unfold dynamo_clear_journal. simpl table.
  rewrite Hh. case_decide; [by eexists|]. rewrite header_round_trip by (simpl; lia).
  unfold dbind, dlift. cbn [ok_or block_count]. rewrite Nat2Z.id. by eapply resolve_available.
Qed.

End recovery.

Lemma expanded_sized (batch : Batch) (t : Store) :
  Forall operation_wf batch -> store_wf t -> Forall sized_operation batch ->
  map_Forall (fun k _ => sized_key k) t ->
  Forall sized_operation (simple_operations (expand_delete_prefixes t (simplify batch))).
Proof.
  intros Hwf Ht Hs Hkeys. rewrite Forall_forall in Hs. apply Forall_forall.
  intros o [(key & -> & Hk)|(key & value & -> & Hk)]%elem_of_simple_operations.
  - apply expanded_deletions in Hk as [[Hk _]|(p & Hp & Hpre & [v Hv])]; [| |done..].
    + exact (Hs _ Hk).
    + by eapply Hkeys.
  - apply expanded_insertions in Hk; [|done]. exact (Hs _ Hk).
Qed.

