(* ===== verification/JournalExamples.v ===== *)
(** * Journals in a concrete database

    A database that executes the transactions within the limits and rejects the others, with the
    BCS encoding of journals: the laws of [Journal] hold for it.  On it, a batch of 102 operations
    is written through a journal, and a key that is too long leaves a journal that cannot be
    cleared. *)

From S2P Require Import Prelude Types Batches KeyValueStore Views Clients Splitting Journal.

Module JournalExamples.

(** ** BCS *)

Fixpoint uleb_encode (fuel : nat) (n : Z) : bytes :=
  match fuel with
  | O => [n]
  | S fuel => if n <? 128 then [n] else n mod 128 + 128 :: uleb_encode fuel (n / 128)
  end.
Fixpoint uleb_decode (fuel : nat) (input : bytes) : option (Z * bytes) :=
  match input with
  | [] => None
  | x :: input =>
      match fuel with
      | O => Some (x, input)
      | S fuel =>
          if x <? 128 then Some (x, input)
          else '(n, input) ← uleb_decode fuel input; Some (x - 128 + 128 * n, input)
      end
  end.

Lemma uleb_round_trip fuel : forall n rest,
  0 <= n -> uleb_decode fuel (uleb_encode fuel n ++ rest) = Some (n, rest).
Proof.
  induction fuel as [|fuel IH]; intros n rest Hn; [done|]. cbn [uleb_encode].
  destruct (n <? 128) eqn:Hlt; cbn [app uleb_decode]; [by rewrite Hlt|].
  pose proof (Z.mod_pos_bound n 128). rewrite (proj2 (Z.ltb_ge _ _)) by lia.
  rewrite IH by (apply Z.div_pos; lia). simpl. f_equal. f_equal. pose proof (Z.div_mod n 128). lia.
Qed.

Lemma uleb_length fuel : forall n power expo k,
  0 <= n -> power = 128 * k -> 0 < k ->
  uleb128_loop fuel n power expo = expo - 1 + Z.of_nat (length (uleb_encode fuel (n / k))).
Proof.
  induction fuel as [|fuel IH]; intros n power expo k Hn -> Hk; cbn [uleb128_loop uleb_encode].
  { simpl. lia. }
  assert ((128 * k <=? n) = negb (n / k <? 128)) as ->.
  { destruct (Z.ltb_spec (n / k) 128) as [Hlt|Hge]; simpl.
    - apply Z.leb_gt. pose proof (Z.mul_succ_div_gt n k Hk). nia.
    - apply Z.leb_le. pose proof (Z.mul_div_le n k Hk). nia. }
  destruct (n / k <? 128); cbn [negb length]; [lia|].
  rewrite (IH n _ (expo + 1) (128 * k)) by lia.
  rewrite Z.div_div by lia. replace (k * 128) with (128 * k) by lia. lia.
Qed.

Definition encode_length (n : nat) : bytes := uleb_encode 10 (Z.of_nat n).
Lemma length_encode_length n : Z.of_nat (length (encode_length n)) = get_uleb128_size (Z.of_nat n).
Proof.
  unfold get_uleb128_size, encode_length. rewrite (uleb_length 10 _ 128 1 1) by lia.
  rewrite Z.div_1_r. lia.
Qed.
Definition encode_bytes (k : bytes) : bytes := encode_length (length k) ++ k.
Definition decode_bytes (input : bytes) : option (bytes * bytes) :=
  '(n, input) ← uleb_decode 10 input; Some (take (Z.to_nat n) input, drop (Z.to_nat n) input).
Lemma bytes_round_trip k rest : decode_bytes (encode_bytes k ++ rest) = Some (k, rest).
Proof.
  unfold decode_bytes, encode_bytes, encode_length. rewrite <- app_assoc, uleb_round_trip by lia.
  simpl. by rewrite Nat2Z.id, take_app_length, drop_app_length.
Qed.
Lemma length_encode_bytes k : Z.of_nat (length (encode_bytes k)) = bytes_size k.
Proof. unfold encode_bytes, bytes_size. rewrite length_app, Nat2Z.inj_add, length_encode_length. lia. Qed.

(** Sequences of values. *)
Section sequences.
Context {A : Type} (encode : A -> bytes) (decode : bytes -> option (A * bytes)).
Context (round_trip : forall a rest, decode (encode a ++ rest) = Some (a, rest)).

Definition encode_list (l : list A) : bytes := encode_length (length l) ++ concat (encode <$> l).
Fixpoint decode_many (n : nat) (input : bytes) : option (list A * bytes) :=
  match n with
  | O => Some ([], input)
  | S n =>
      '(a, input) ← decode input;
      '(l, input) ← decode_many n input;
      Some (a :: l, input)
  end.
Definition decode_list (input : bytes) : option (list A * bytes) :=
  '(n, input) ← uleb_decode 10 input; decode_many (Z.to_nat n) input.

Lemma list_round_trip l rest : decode_list (encode_list l ++ rest) = Some (l, rest).
Proof.
  unfold decode_list, encode_list, encode_length. rewrite <- app_assoc, uleb_round_trip by lia.
  cbn [mbind option_bind]. rewrite Nat2Z.id. induction l as [|a l IH]; [done|].
  rewrite fmap_cons. cbn [length decode_many concat]. rewrite <- app_assoc, round_trip.
  cbn [mbind option_bind]. by rewrite IH.
Qed.
Lemma length_encode_list l :
  Z.of_nat (length (encode_list l)) =
  get_uleb128_size (Z.of_nat (length l))
  + foldr (fun a size => Z.of_nat (length (encode a)) + size) 0 l.
Proof.
  unfold encode_list. rewrite length_app, Nat2Z.inj_add, length_encode_length. f_equal.
  induction l as [|a l IH]; [done|]. rewrite fmap_cons. cbn [concat foldr].
  rewrite length_app, Nat2Z.inj_add. lia.
Qed.
End sequences.

Definition encode_pair (kv : bytes * bytes) : bytes := encode_bytes kv.1 ++ encode_bytes kv.2.
Definition decode_pair (input : bytes) : option ((bytes * bytes) * bytes) :=
  '(k, input) ← decode_bytes input; '(v, input) ← decode_bytes input; Some ((k, v), input).
Lemma pair_round_trip kv rest : decode_pair (encode_pair kv ++ rest) = Some (kv, rest).
Proof.
  unfold decode_pair, encode_pair. rewrite <- app_assoc, bytes_round_trip. simpl.
  rewrite bytes_round_trip. by destruct kv.
Qed.

Definition encode_batch (b : SimpleUnorderedBatch) : bytes :=
  encode_list encode_bytes (deletions b) ++ encode_list encode_pair (insertions b).
Definition decode_batch (input : bytes) : option SimpleUnorderedBatch :=
  '(deletions, input) ← decode_list decode_bytes input;
  '(insertions, input) ← decode_list decode_pair input;
  if bool_decide (input = []) then Some {| deletions := deletions; insertions := insertions |}
  else None.

#[export] Instance bcs_serde : JournalSerde := {|
  batch_serde := {| to_bytes := encode_batch; from_bytes := decode_batch |};
  header_serde :=
    {| to_bytes := fun header => le_bytes32 (block_count header);
       from_bytes := fun input =>
         count ← from_le_bytes32 input; Some {| block_count := count |} |};
  serialized_size := fun k => Z.of_nat (length (encode_bytes k));
|}.

#[export] Instance bcs_serde_laws : JournalSerdeLaws.
Proof.
  split; cbn [to_bytes from_bytes bcs_serde batch_serde header_serde serialized_size].
  - intros [ds ins] _. unfold decode_batch, encode_batch. simpl.
    rewrite (list_round_trip _ _ bytes_round_trip). simpl.
    rewrite <- (app_nil_r (encode_list encode_pair ins)), (list_round_trip _ _ pair_round_trip).
    simpl. done.
  - intros [ds ins] _. unfold encode_batch, simple_size. simpl.
    rewrite length_app, Nat2Z.inj_add, !length_encode_list.
    assert (forall l, foldr (fun a size => Z.of_nat (length (encode_bytes a)) + size) 0 l =
      foldr (fun k size => bytes_size k + size) 0 l) as ->.
    { intros l. induction l; simpl; [done|]. rewrite length_encode_bytes. lia. }
    assert (forall l, foldr (fun a size => Z.of_nat (length (encode_pair a)) + size) 0 l =
      foldr (fun kv size => bytes_size kv.1 + bytes_size kv.2 + size) 0 l) as ->; [|lia].
    intros l. induction l as [|kv l IH]; simpl; [done|]. unfold encode_pair at 1.
    rewrite length_app, Nat2Z.inj_add, !length_encode_bytes. lia.
  - intros [count] Hc. cbn [block_count] in *. pose proof (from_be_bytes32 count Hc) as Hr.
    unfold be_bytes32 in Hr. rewrite reverse_involutive in Hr. by rewrite Hr.
  - done.
  - intros k. apply length_encode_bytes.
Qed.

(** ** A database *)

#[export] Instance item_ok_dec item : Decision (item_ok item).
Proof. destruct item; unfold item_ok; apply _. Defined.
#[export] Instance transaction_ok_dec items : Decision (transaction_ok items).
Proof. unfold transaction_ok. apply _. Defined.

#[export] Instance available_db : DynamoDb := {|
  query_pages := fun p t => [range_entries (get_interval p) t];
  transact_write_items := fun items t =>
    if decide (transaction_ok items) then Ok (write_batch (item_operation <$> items) t)
    else Err ServiceError;
|}.
#[export] Instance available_db_laws : DynamoDbLaws.
Proof.
  split; simpl.
  - intros p t _ _. apply app_nil_r.
  - intros p t i page _ Hlt. lia.
  - intros items t t'. case_decide; congruence.
Qed.
#[export] Instance available_db_available : DynamoDbAvailable.
Proof. split. intros items t Hok. simpl. rewrite decide_True by done. by eexists. Qed.

(** A table with a key that is deleted by its prefix, with 101 insertions. *)
Definition base : bytes := [1].
Definition table0 : Store := {[ [9; 1] := [7] ]}.
Definition batch0 : Batch := DeletePrefix [9] :: ((fun i => Put [5; i] [i]) <$> seqZ 0 101).

Lemma base_wf : bytes_wf base.
Proof. by repeat constructor. Qed.
Lemma table0_wf : store_wf table0.
Proof. apply map_Forall_singleton. by repeat constructor. Qed.
Lemma batch0_journaled : Forall (journaled base table0) batch0.
Proof.
  apply Forall_cons. split.
  - split; [by repeat constructor|]. intros k _ [v Hv] [rest ->].
    unfold table0 in Hv. by apply lookup_singleton_Some in Hv as [? _].
  - apply Forall_fmap, Forall_forall. intros i Hi%elem_of_seqZ.
    assert (in_range u8_MAX i) as Hr by (unfold in_range, u8_MAX; lia).
    assert (bytes_wf [i]) as Hi' by by apply Forall_singleton.
    split; [by apply Forall_cons|]. split; [done|]. by intros [rest ?].
Qed.
Lemma batch0_length :
  Z.of_nat (length (simple_operations (expand_delete_prefixes table0 (simplify batch0)))) <= u32_MAX.
Proof. apply Z.leb_le. vm_compute. reflexivity. Qed.

(** The batch is written through a journal: two blocks in two transactions, the header, and a
    transaction for each of the blocks. *)
Example batch0_written :
  (dynamo_write_batch batch0 base (new_db table0)).1 = Ok () /\
  length (history (dynamo_write_batch batch0 base (new_db table0)).2) = 5%nat.
Proof. split; vm_compute; reflexivity. Qed.


(** The table that a crash before the last transaction leaves. *)
Definition crashed : Store :=
  default ∅ (crash_tables table0 (dynamo_write_batch batch0 base (new_db table0)).2 !! 4%nat).


(** The keys are only checked when the blocks are executed, after the header was written.  With a
    key of 1025 bytes, a batch that does not fit in a transaction leaves a journal that cannot be
    cleared, while a batch that fits is rejected. *)
Definition long_key : bytes := 5 :: repeat 0 1024.
Definition long_batch (n : Z) : Batch := Put long_key [1] :: ((fun i => Put [5; i] [i]) <$> seqZ 0 n).

Lemma long_key_blocks_journal :
  let '(r, db) := dynamo_write_batch (long_batch 101) base (new_db ∅) in
  r = Err KeyTooLong /\ is_Some (table db !! get_journaling_key base journal_tag 0) /\
  dynamo_clear_journal base (new_db (table db)) = (Err KeyTooLong, new_db (table db)) /\
  dynamo_write_batch (long_batch 50) base (new_db ∅) = (Err KeyTooLong, new_db ∅).
Proof. vm_compute. split_and!; try done. by eexists. Qed.

End JournalExamples.
