(* ===== verification/Runtime.v ===== *)
(** * The runtime of user applications

    [linera-execution/src/runtime.rs] and the interfaces of
    [linera-execution/src/lib.rs]: the host side of the calls that the code of
    a user application makes while it executes a transaction.

    User code is a parameter.  It is represented by the requests it makes to
    the runtime: a program is a tree that either returns or makes a request and
    continues with the answer, which may be an error.  The runtime state holds
    what the code keeps behind shared references, so it survives errors.
    Requests are handled one at a time.  Calls between applications recurse,
    and the model bounds their depth; running out of it is told apart from
    every outcome of the code. *)

From S2P Require Import Prelude Numbers Types Crypto Committees Policy Bcs Inbox Errors Registry.
From S2P Require Import System Batches KeyValueStore.

(** ** Data *)

Record SessionId := {
  session_application_id : UserApplicationId;
  session_index : Z;
}.

#[export] Instance SessionId_eq_dec : EqDecision SessionId.
Proof. solve_decision. Defined.
#[export] Instance SessionId_countable : Countable SessionId.
Proof.
  refine (inj_countable' (fun s => (session_application_id s, session_index s))
    (fun '(a, i) => {| session_application_id := a; session_index := i |}) _).
  by intros [].
Defined.

Record CalleeContext := {
  callee_chain_id : ChainId;
  callee_authenticated_signer : option Owner;
  callee_authenticated_caller_id : option UserApplicationId;
}.

Record ApplicationCallResult := {
  acr_value : bytes;
  acr_execution_result : RawExecutionResult bytes;
  acr_create_sessions : list bytes;
}.

Record SessionCallResult := {
  scr_inner : ApplicationCallResult;
  scr_close_session : bool;
}.

Record CallResult := {
  call_value : bytes;
  call_sessions : list SessionId;
}.

(** [RawExecutionResult::with_authenticated_signer]. *)
Definition with_authenticated_signer {M} (signer : option Owner) (r : RawExecutionResult M)
    : RawExecutionResult M :=
  {| res_authenticated_signer := signer; res_messages := res_messages r;
     res_subscribe := res_subscribe r; res_unsubscribe := res_unsubscribe r |}.

(** [ExecutionStateView]: the states of the applications that were accessed. *)
Record ExecutionState := {
  es_system : SystemState;
  es_simple_users : gmap UserApplicationId bytes;
  es_view_users : gmap UserApplicationId KeyValueStoreView;
}.

Record ApplicationStatus := {
  status_id : UserApplicationId;
  status_parameters : bytes;
  status_signer : option Owner;
}.

Record SessionState := {
  session_owner : UserApplicationId;
  session_data : bytes;
}.

Record SessionManager := {
  session_counters : gmap UserApplicationId Z;
  session_states : gmap SessionId SessionState;
}.

(** ** User code *)

(** [BaseRuntime]. *)
Inductive base_request : Type -> Type :=
| ReadChainId : base_request ChainId
| ReadApplicationId : base_request UserApplicationId
| ReadApplicationParameters : base_request bytes
| ReadSystemBalance : base_request Amount
| ReadSystemTimestamp : base_request Timestamp
| TryReadMyState : base_request bytes
| LockViewUserState : base_request unit
| UnlockViewUserState : base_request unit
| ReadKeyBytes (key : bytes) : base_request (option bytes)
| FindKeysByPrefix (key_prefix : bytes) : base_request (list bytes)
| FindKeyValuesByPrefix (key_prefix : bytes) : base_request (list (bytes * bytes)).

(** [ContractRuntime]. *)
Inductive contract_request : Type -> Type :=
| ContractBase {X} (request : base_request X) : contract_request X
| RemainingFuel : contract_request Z
| GetRuntimeCounts : contract_request RuntimeCounts
| SetRemainingFuel (remaining_fuel : Z) : contract_request unit
| TryReadAndLockMyState : contract_request bytes
| SaveAndUnlockMyState (state : bytes) : contract_request unit
| UnlockMyState : contract_request unit
| WriteBatchAndUnlock (batch : Batch) : contract_request unit
| TryCallApplication (authenticated : bool) (callee_id : UserApplicationId) (argument : bytes)
    (forwarded_sessions : list SessionId) : contract_request CallResult
| TryCallSession (authenticated : bool) (session_id : SessionId) (argument : bytes)
    (forwarded_sessions : list SessionId) : contract_request CallResult.

(** [ServiceRuntime]. *)
Inductive service_request : Type -> Type :=
| ServiceBase {X} (request : base_request X) : service_request X
| TryQueryApplication (queried_id : UserApplicationId) (argument : bytes) : service_request bytes.

Inductive prog (R : Type -> Type) (A : Type) : Type :=
| Return (r : result ExecutionError A)
| Ask {X} (request : R X) (k : result ExecutionError X -> prog R A).
Arguments Return {R A}.
Arguments Ask {R A X}.

(** [UserApplication]. *)
Record UserApplication := {
  ua_initialize : OperationContext -> bytes -> prog contract_request (RawExecutionResult bytes);
  ua_execute_operation :
    OperationContext -> bytes -> prog contract_request (RawExecutionResult bytes);
  ua_execute_message :
    MessageContext -> bytes -> prog contract_request (RawExecutionResult bytes);
  ua_handle_application_call :
    CalleeContext -> bytes -> list SessionId -> prog contract_request ApplicationCallResult;
  ua_handle_session_call :
    CalleeContext -> bytes -> bytes -> list SessionId ->
    prog contract_request (SessionCallResult * bytes);
  ua_handle_query : ChainId -> bytes -> prog service_request bytes;
}.

(** [ExecutionRuntimeContext] and the storage below the views: how the code of an
    application is loaded, the stored keys, and where the views of the
    applications are in the store. *)
Class UserCode := {
  get_user_application : UserApplicationDescription -> result ExecutionError UserApplication;
  user_store : Store;
  user_base_key : UserApplicationId -> bytes;
}.

(** ** State of the runtime *)

(** The head of [rt_applications] is the application at the top of the stack.
    The active states and sessions are those whose locks are held. *)
Record RuntimeState := {
  rt_remaining_fuel : Z;
  rt_num_reads : Z;
  rt_bytes_read : Z;
  rt_bytes_written : Z;
  rt_applications : list ApplicationStatus;
  rt_state : ExecutionState;
  rt_sessions : SessionManager;
  rt_active_simple : gset UserApplicationId;
  rt_active_view : gset UserApplicationId;
  rt_active_sessions : gset SessionId;
  rt_results : list ExecutionResult;
}.

(** The outcome of a computation: [None] is the depth bound of the model; the
    state is kept with errors. *)
Definition rt (A : Type) : Type :=
  RuntimeState -> option (result ExecutionError A * RuntimeState).

#[export] Instance rt_ret : MRet rt := fun A a s => Some (Ok a, s).
#[export] Instance rt_bind : MBind rt := fun A B k m s =>
  match m s with
  | Some (Ok a, s) => k a s
  | Some (Err e, s) => Some (Err e, s)
  | Some (Panic, s) => Some (Panic, s)
  | None => None
  end.

Definition lift {A} (r : result ExecutionError A) : rt A := fun s => Some (r, s).
Definition gets {A} (f : RuntimeState -> A) : rt A := fun s => Some (Ok (f s), s).
Definition modify (f : RuntimeState -> RuntimeState) : rt unit := fun s => Some (Ok (), f s).
Definition fail {A} (e : ExecutionError) : rt A := fun s => Some (Err e, s).
Definition rt_ensure (cond : bool) (e : ExecutionError) : rt unit := lift (ensure cond e).

(** The state with one field replaced. *)
Definition set_fuel (fuel : Z) (s : RuntimeState) : RuntimeState :=
  {| rt_remaining_fuel := fuel; rt_num_reads := rt_num_reads s;
     rt_bytes_read := rt_bytes_read s; rt_bytes_written := rt_bytes_written s;
     rt_applications := rt_applications s; rt_state := rt_state s; rt_sessions := rt_sessions s;
     rt_active_simple := rt_active_simple s; rt_active_view := rt_active_view s;
     rt_active_sessions := rt_active_sessions s; rt_results := rt_results s |}.
Definition set_counts (reads read written : Z) (s : RuntimeState) : RuntimeState :=
  {| rt_remaining_fuel := rt_remaining_fuel s; rt_num_reads := reads;
     rt_bytes_read := read; rt_bytes_written := written;
     rt_applications := rt_applications s; rt_state := rt_state s; rt_sessions := rt_sessions s;
     rt_active_simple := rt_active_simple s; rt_active_view := rt_active_view s;
     rt_active_sessions := rt_active_sessions s; rt_results := rt_results s |}.
Definition set_applications (applications : list ApplicationStatus) (s : RuntimeState)
    : RuntimeState :=
  {| rt_remaining_fuel := rt_remaining_fuel s; rt_num_reads := rt_num_reads s;
     rt_bytes_read := rt_bytes_read s; rt_bytes_written := rt_bytes_written s;
     rt_applications := applications; rt_state := rt_state s; rt_sessions := rt_sessions s;
     rt_active_simple := rt_active_simple s; rt_active_view := rt_active_view s;
     rt_active_sessions := rt_active_sessions s; rt_results := rt_results s |}.
Definition set_users (simple : gmap UserApplicationId bytes)
    (view : gmap UserApplicationId KeyValueStoreView)
    (active_simple active_view : gset UserApplicationId) (s : RuntimeState) : RuntimeState :=
  {| rt_remaining_fuel := rt_remaining_fuel s; rt_num_reads := rt_num_reads s;
     rt_bytes_read := rt_bytes_read s; rt_bytes_written := rt_bytes_written s;
     rt_applications := rt_applications s;
     rt_state := {| es_system := es_system (rt_state s); es_simple_users := simple;
                    es_view_users := view |};
     rt_sessions := rt_sessions s;
     rt_active_simple := active_simple; rt_active_view := active_view;
     rt_active_sessions := rt_active_sessions s; rt_results := rt_results s |}.
Definition set_sessions (sessions : SessionManager) (active : gset SessionId) (s : RuntimeState)
    : RuntimeState :=
  {| rt_remaining_fuel := rt_remaining_fuel s; rt_num_reads := rt_num_reads s;
     rt_bytes_read := rt_bytes_read s; rt_bytes_written := rt_bytes_written s;
     rt_applications := rt_applications s; rt_state := rt_state s; rt_sessions := sessions;
     rt_active_simple := rt_active_simple s; rt_active_view := rt_active_view s;
     rt_active_sessions := active; rt_results := rt_results s |}.
Definition push_result (r : ExecutionResult) (s : RuntimeState) : RuntimeState :=
  {| rt_remaining_fuel := rt_remaining_fuel s; rt_num_reads := rt_num_reads s;
     rt_bytes_read := rt_bytes_read s; rt_bytes_written := rt_bytes_written s;
     rt_applications := rt_applications s; rt_state := rt_state s; rt_sessions := rt_sessions s;
     rt_active_simple := rt_active_simple s; rt_active_view := rt_active_view s;
     rt_active_sessions := rt_active_sessions s; rt_results := rt_results s ++ [r] |}.

Section runtime.
Context `{UserCode}.
Context (chain_id : ChainId) (runtime_limits : RuntimeLimits).

(** ** Helpers of the runtime *)

Definition current_application : rt ApplicationStatus := fun s =>
  match rt_applications s with
  | status :: _ => Some (Ok status, s)
  | [] => Some (Panic, s)
  end.

Definition application_id : rt UserApplicationId :=
  status ← current_application; mret (status_id status).

Definition push_application (status : ApplicationStatus) : rt unit :=
  modify (fun s => set_applications (status :: rt_applications s) s).
Definition pop_application : rt unit :=
  modify (fun s => set_applications (tail (rt_applications s)) s).

Definition load_application (id : UserApplicationId)
    : rt (UserApplication * UserApplicationDescription) :=
  registry ← gets (fun s => sys_registry (es_system (rt_state s)));
  description ← lift (map_err ExecSystemError (describe_application registry id));
  code ← lift (get_user_application description);
  mret (code, description).

(** The body of the loop of [forward_sessions]. *)
Definition forward_session (from_id to_id : UserApplicationId) (id : SessionId) : rt unit :=
  s ← gets (fun s => s);
  let states := session_states (rt_sessions s) in
  state ← lift (ok_or (states !! id) InvalidSession);
  rt_ensure (bool_decide (id ∉ rt_active_sessions s)) SessionIsInUse ;;
  rt_ensure (bool_decide (session_owner state = from_id)) InvalidSessionOwner ;;
  modify (set_sessions
    {| session_counters := session_counters (rt_sessions s);
       session_states :=
         <[id := {| session_owner := to_id; session_data := session_data state |}]> states |}
    (rt_active_sessions s)).

Fixpoint forward_sessions (session_ids : list SessionId) (from_id to_id : UserApplicationId)
    : rt unit :=
  match session_ids with
  | [] => mret ()
  | id :: session_ids =>
      forward_session from_id to_id id ;; forward_sessions session_ids from_id to_id
  end.

(** The loop of [make_sessions]: the ids, the counter and the states. *)
Fixpoint make_sessions_loop (new_sessions : list bytes) (creator_id receiver_id : UserApplicationId)
    (counter : Z) (states : gmap SessionId SessionState)
    : list SessionId * Z * gmap SessionId SessionState :=
  match new_sessions with
  | [] => ([], counter, states)
  | data :: new_sessions =>
      let id := {| session_application_id := creator_id; session_index := counter |} in
      let state := {| session_owner := receiver_id; session_data := data |} in
      let '(ids, counter, states) :=
        make_sessions_loop new_sessions creator_id receiver_id (wrapping_add u64_MAX counter 1)
          (<[id := state]> states) in
      (id :: ids, counter, states)
  end.
Definition make_sessions (new_sessions : list bytes) (creator_id receiver_id : UserApplicationId)
    : rt (list SessionId) := fun s =>
  let manager := rt_sessions s in
  let counter := default 0 (session_counters manager !! creator_id) in
  let '(session_ids, counter, states) :=
    make_sessions_loop new_sessions creator_id receiver_id counter (session_states manager) in
  Some (Ok session_ids,
    set_sessions {| session_counters := <[creator_id := counter]> (session_counters manager);
                    session_states := states |} (rt_active_sessions s) s).

Definition try_load_session (session_id : SessionId) (application_id : UserApplicationId)
    : rt bytes :=
  s ← gets (fun s => s);
  state ← lift (ok_or (session_states (rt_sessions s) !! session_id) InvalidSession);
  rt_ensure (bool_decide (session_id ∉ rt_active_sessions s)) SessionIsInUse ;;
  rt_ensure (bool_decide (session_owner state = application_id)) InvalidSessionOwner ;;
  modify (set_sessions (rt_sessions s) ({[session_id]} ∪ rt_active_sessions s)) ;;
  mret (session_data state).

(** The owner of an active session, read through its lock. *)
Definition active_owner (session_id : SessionId) (s : RuntimeState) : option UserApplicationId :=
  if decide (session_id ∈ rt_active_sessions s)
  then session_owner <$> session_states (rt_sessions s) !! session_id else None.

Definition try_save_session (session_id : SessionId) (application_id : UserApplicationId)
    (state : bytes) : rt unit :=
  s ← gets (fun s => s);
  match active_owner session_id s with
  | None => mret ()
  | Some owner =>
      rt_ensure (bool_decide (owner = application_id)) InvalidSessionOwner ;;
      modify (set_sessions
        {| session_counters := session_counters (rt_sessions s);
           session_states :=
             <[session_id := {| session_owner := owner; session_data := state |}]>
               (session_states (rt_sessions s)) |}
        (rt_active_sessions s ∖ {[session_id]}))
  end.

Definition try_close_session (session_id : SessionId) (application_id : UserApplicationId)
    : rt unit :=
  s ← gets (fun s => s);
  match active_owner session_id s with
  | None => mret ()
  | Some owner =>
      rt_ensure (bool_decide (owner = application_id)) InvalidSessionOwner ;;
      modify (set_sessions (rt_sessions s) (rt_active_sessions s ∖ {[session_id]})) ;;
      lift (ok_or (session_states (rt_sessions s) !! session_id) InvalidSession) ;;
      modify (set_sessions
        {| session_counters := session_counters (rt_sessions s);
           session_states := delete session_id (session_states (rt_sessions s)) |}
        (rt_active_sessions s ∖ {[session_id]}))
  end.

(** ** Metering *)

Definition increment_num_reads : rt unit :=
  modify (fun s => set_counts (wrapping_add u64_MAX (rt_num_reads s) 1) (rt_bytes_read s)
                     (rt_bytes_written s) s) ;;
  num_reads ← gets rt_num_reads;
  if lim_max_budget_num_reads runtime_limits <=? num_reads
  then fail (ExecArithmeticError Overflow) else mret ().

Definition increment_bytes_read (increment : Z) : rt unit :=
  if u64_MAX / 2 <=? increment then fail ExcessiveRead else
  modify (fun s => set_counts (rt_num_reads s) (wrapping_add u64_MAX (rt_bytes_read s) increment)
                     (rt_bytes_written s) s) ;;
  bytes ← gets rt_bytes_read;
  if lim_max_budget_bytes_read runtime_limits <=? bytes
  then fail (ExecArithmeticError Overflow) else
  if lim_maximum_bytes_left_to_read runtime_limits <=? bytes
  then fail ExcessiveRead else mret ().

Definition increment_bytes_written (increment : Z) : rt unit :=
  if u64_MAX / 2 <=? increment then fail ExcessiveWrite else
  modify (fun s => set_counts (rt_num_reads s) (rt_bytes_read s)
                     (wrapping_add u64_MAX (rt_bytes_written s) increment) s) ;;
  bytes ← gets rt_bytes_written;
  if lim_max_budget_bytes_written runtime_limits <=? bytes
  then fail (ExecArithmeticError Overflow) else
  if lim_maximum_bytes_left_to_write runtime_limits <=? bytes
  then fail ExcessiveWrite else mret ().

(** ** States of the applications *)

(** [try_load_entry_mut] of [simple_users]: the entry is created if it is missing,
    and cannot be loaded while it is locked. *)
Definition load_simple (id : UserApplicationId) : rt bytes :=
  s ← gets (fun s => s);
  let state := default [] (es_simple_users (rt_state s) !! id) in
  modify (set_users (<[id := state]> (es_simple_users (rt_state s)))
            (es_view_users (rt_state s)) (rt_active_simple s) (rt_active_view s)) ;;
  rt_ensure (bool_decide (id ∉ rt_active_simple s)) ApplicationIsInUse ;;
  mret state.

(** [try_load_entry_mut] of [view_users]: a missing entry is loaded from storage. *)
Definition load_view (id : UserApplicationId) : rt KeyValueStoreView :=
  s ← gets (fun s => s);
  view ← lift
    match es_view_users (rt_state s) !! id with
    | Some view => Ok view
    | None => map_err execution_error_from_view (kv_load (user_base_key id) user_store)
    end;
  modify (set_users (es_simple_users (rt_state s))
            (<[id := view]> (es_view_users (rt_state s)))
            (rt_active_simple s) (rt_active_view s)) ;;
  rt_ensure (bool_decide (id ∉ rt_active_view s)) ApplicationIsInUse ;;
  mret view.

(** The locked view of the current application. *)
Definition active_view : rt (UserApplicationId * KeyValueStoreView) :=
  id ← application_id;
  s ← gets (fun s => s);
  rt_ensure (bool_decide (id ∈ rt_active_view s)) ApplicationStateNotLocked ;;
  view ← lift (ok_or (es_view_users (rt_state s) !! id) ApplicationStateNotLocked);
  mret (id, view).

Definition unlock_view (id : UserApplicationId) : rt unit :=
  modify (fun s => set_users (es_simple_users (rt_state s)) (es_view_users (rt_state s))
                     (rt_active_simple s) (rt_active_view s ∖ {[id]}) s).

(** ** Requests *)

Definition handle_base {X} (request : base_request X) : rt X :=
  match request with
  | ReadChainId => mret chain_id
  | ReadApplicationId => application_id
  | ReadApplicationParameters =>
      status ← current_application; mret (status_parameters status)
  | ReadSystemBalance => gets (fun s => sys_balance (es_system (rt_state s)))
  | ReadSystemTimestamp => gets (fun s => sys_timestamp (es_system (rt_state s)))
  | TryReadMyState => id ← application_id; load_simple id
  | LockViewUserState =>
      id ← application_id;
      load_view id ;;
      modify (fun s => set_users (es_simple_users (rt_state s)) (es_view_users (rt_state s))
                         (rt_active_simple s) ({[id]} ∪ rt_active_view s) s)
  | UnlockViewUserState =>
      id ← application_id;
      active ← gets rt_active_view;
      rt_ensure (bool_decide (id ∈ active)) ApplicationStateNotLocked ;;
      unlock_view id
  | ReadKeyBytes key =>
      '(_, view) ← active_view;
      let value := kv_get key view user_store in
      increment_num_reads ;;
      match value with
      | Some value => increment_bytes_read (Z.of_nat (length value))
      | None => mret ()
      end ;;
      mret value
  | FindKeysByPrefix key_prefix =>
      '(_, view) ← active_view;
      let keys := kv_find_keys_by_prefix key_prefix view user_store in
      increment_num_reads ;;
      increment_bytes_read (foldl (fun size key => size + Z.of_nat (length key)) 0 keys) ;;
      mret keys
  | FindKeyValuesByPrefix key_prefix =>
      '(_, view) ← active_view;
      let key_values := kv_find_key_values_by_prefix key_prefix view user_store in
      increment_num_reads ;;
      increment_bytes_read
        (foldl (fun size kv => size + (Z.of_nat (length kv.1) + Z.of_nat (length kv.2))) 0
           key_values) ;;
      mret key_values
  end.

Definition runtime_counts (s : RuntimeState) : RuntimeCounts :=
  {| count_remaining_fuel := rt_remaining_fuel s; count_num_reads := rt_num_reads s;
     count_bytes_read := rt_bytes_read s; count_bytes_written := rt_bytes_written s |}.

(** The signer passed on to a callee. *)
Definition callee_signer (authenticated : bool) (caller : ApplicationStatus) : option Owner :=
  match status_signer caller with
  | Some signer => if authenticated then Some signer else None
  | None => None
  end.

Definition callee_context (authenticated : bool) (caller : ApplicationStatus) : CalleeContext :=
  {| callee_chain_id := chain_id;
     callee_authenticated_signer := callee_signer authenticated caller;
     callee_authenticated_caller_id :=
       if authenticated then Some (status_id caller) else None |}.

Definition write_batch_and_unlock (batch : Batch) : rt unit :=
  increment_bytes_written (batch_size batch) ;;
  '(id, view) ← active_view;
  unlock_view id ;;
  modify (fun s => set_users (es_simple_users (rt_state s))
                     (<[id := kv_write_batch batch view]> (es_view_users (rt_state s)))
                     (rt_active_simple s) (rt_active_view s) s).

Section calls.
(** How the code of a callee is run. *)
Context (run : forall A, prog contract_request A -> rt A).

Definition try_call_application (authenticated : bool) (callee_id : UserApplicationId)
    (argument : bytes) (forwarded_sessions : list SessionId) : rt CallResult :=
  caller ← current_application;
  '(code, description) ← load_application callee_id;
  forward_sessions forwarded_sessions (status_id caller) callee_id ;;
  let authenticated_signer := callee_signer authenticated caller in
  push_application
    {| status_id := callee_id; status_parameters := desc_parameters description;
       status_signer := authenticated_signer |} ;;
  raw_result ← run _ (ua_handle_application_call code (callee_context authenticated caller)
                        argument forwarded_sessions);
  pop_application ;;
  modify (push_result (ResultUser callee_id
    (with_authenticated_signer authenticated_signer (acr_execution_result raw_result)))) ;;
  receiver_id ← application_id;
  sessions ← make_sessions (acr_create_sessions raw_result) callee_id receiver_id;
  mret {| call_value := acr_value raw_result; call_sessions := sessions |}.

Definition try_call_session (authenticated : bool) (session_id : SessionId) (argument : bytes)
    (forwarded_sessions : list SessionId) : rt CallResult :=
  let callee_id := session_application_id session_id in
  caller ← current_application;
  '(code, description) ← load_application callee_id;
  forward_sessions forwarded_sessions (status_id caller) callee_id ;;
  caller_id ← application_id;
  session_state ← try_load_session session_id caller_id;
  let authenticated_signer := callee_signer authenticated caller in
  push_application
    {| status_id := callee_id; status_parameters := desc_parameters description;
       status_signer := authenticated_signer |} ;;
  answer ←
    run _ (ua_handle_session_call code (callee_context authenticated caller) session_state
             argument forwarded_sessions);
  pop_application ;;
  let '(raw_result, session_state) := answer in
  caller_id ← application_id;
  (if scr_close_session raw_result
   then try_close_session session_id caller_id
   else try_save_session session_id caller_id session_state) ;;
  let inner_result := scr_inner raw_result in
  modify (push_result (ResultUser callee_id
    (with_authenticated_signer authenticated_signer (acr_execution_result inner_result)))) ;;
  receiver_id ← application_id;
  sessions ← make_sessions (acr_create_sessions inner_result) callee_id receiver_id;
  mret {| call_value := acr_value inner_result; call_sessions := sessions |}.

Definition handle_contract {X} (request : contract_request X) : rt X :=
  match request with
  | ContractBase request => handle_base request
  | RemainingFuel => gets rt_remaining_fuel
  | GetRuntimeCounts => gets runtime_counts
  | SetRemainingFuel remaining_fuel => modify (set_fuel remaining_fuel)
  | TryReadAndLockMyState =>
      id ← application_id;
      state ← load_simple id;
      modify (fun s => set_users (es_simple_users (rt_state s)) (es_view_users (rt_state s))
                         ({[id]} ∪ rt_active_simple s) (rt_active_view s) s) ;;
      mret state
  | SaveAndUnlockMyState state =>
      id ← application_id;
      active ← gets rt_active_simple;
      rt_ensure (bool_decide (id ∈ active)) ApplicationStateNotLocked ;;
      modify (fun s => set_users (<[id := state]> (es_simple_users (rt_state s)))
                         (es_view_users (rt_state s)) (rt_active_simple s ∖ {[id]})
                         (rt_active_view s) s)
  | UnlockMyState =>
      id ← application_id;
      modify (fun s => set_users (es_simple_users (rt_state s)) (es_view_users (rt_state s))
                         (rt_active_simple s ∖ {[id]}) (rt_active_view s) s)
  | WriteBatchAndUnlock batch => write_batch_and_unlock batch
  | TryCallApplication authenticated callee_id argument forwarded_sessions =>
      try_call_application authenticated callee_id argument forwarded_sessions
  | TryCallSession authenticated session_id argument forwarded_sessions =>
      try_call_session authenticated session_id argument forwarded_sessions
  end.

End calls.

(** Running a program: an error answered to a request is seen by the code, a
    panic unwinds through it. *)
Fixpoint run_prog {R} (handle : forall X, R X -> rt X) {A} (p : prog R A) : rt A := fun s =>
  match p with
  | Return r => Some (r, s)
  | Ask request k =>
      match handle _ request s with
      | Some (Panic, s) => Some (Panic, s)
      | Some (answer, s) => run_prog handle (k answer) s
      | None => None
      end
  end.

(** The code of a contract, with calls to other applications up to a depth. *)
Fixpoint run_contract (depth : nat) (A : Type) (p : prog contract_request A) : rt A :=
  match depth with
  | O => fun _ => None
  | S depth => run_prog (@handle_contract (run_contract depth)) p
  end.

(** [try_query_application] and the code of a service. *)
Definition try_query_application (run : forall A, prog service_request A -> rt A)
    (queried_id : UserApplicationId) (argument : bytes) : rt bytes :=
  '(code, description) ← load_application queried_id;
  push_application {| status_id := queried_id; status_parameters := desc_parameters description;
                      status_signer := None |} ;;
  value ← run _ (ua_handle_query code chain_id argument);
  pop_application ;;
  mret value.

Definition handle_service (run : forall A, prog service_request A -> rt A) {X}
    (request : service_request X) : rt X :=
  match request with
  | ServiceBase request => handle_base request
  | TryQueryApplication queried_id argument => try_query_application run queried_id argument
  end.

Fixpoint run_service (depth : nat) (A : Type) (p : prog service_request A) : rt A :=
  match depth with
  | O => fun _ => None
  | S depth => run_prog (@handle_service (run_service depth)) p
  end.

End runtime.

(** ** What user code cannot do *)

Section safety.
Context `{UserCode}.
Context (chain_id : ChainId) (runtime_limits : RuntimeLimits).

(** Code that does not panic by itself. *)
Fixpoint panic_free {R A} (p : prog R A) : Prop :=
  match p with
  | Return r => r <> Panic
  | Ask _ k => forall answer, answer <> Panic -> panic_free (k answer)
  end.

Definition application_panic_free (code : UserApplication) : Prop :=
  (forall context argument, panic_free (ua_initialize code context argument)) /\
  (forall context operation, panic_free (ua_execute_operation code context operation)) /\
  (forall context message, panic_free (ua_execute_message code context message)) /\
  (forall context argument sessions,
     panic_free (ua_handle_application_call code context argument sessions)) /\
  (forall context state argument sessions,
     panic_free (ua_handle_session_call code context state argument sessions)) /\
  (forall context argument, panic_free (ua_handle_query code context argument)).

Definition code_panic_free : Prop :=
  forall description,
    match get_user_application description with
    | Ok code => application_panic_free code
    | Err _ => True
    | Panic => False
    end.

(** The transaction is authenticated by [signer]: no application acts for anyone
    else. *)
Context (signer : option Owner).

(** Whether panics are considered. *)
Context (no_panic : Prop) (no_panic_code : no_panic -> code_panic_free).

Definition signer_ok (s : option Owner) : Prop := s = None \/ s = signer.

Definition result_ok (r : ExecutionResult) : Prop :=
  exists id raw, r = ResultUser id raw /\ signer_ok (res_authenticated_signer raw).

Definition counts_nonneg (s : RuntimeState) : Prop :=
  0 <= rt_num_reads s /\ 0 <= rt_bytes_read s /\ 0 <= rt_bytes_written s.

Record runtime_inv (s : RuntimeState) : Prop := {
  inv_stack : rt_applications s <> [];
  inv_signers : Forall (fun status => signer_ok (status_signer status)) (rt_applications s);
  inv_sessions : forall id, id ∈ rt_active_sessions s ->
    is_Some (session_states (rt_sessions s) !! id);
  inv_counts : counts_nonneg s;
}.

(** What the execution of user code does to the rest of the state. *)
Record runtime_le (s s' : RuntimeState) : Prop := {
  le_system : es_system (rt_state s') = es_system (rt_state s);
  le_stack : rt_applications s `suffix_of` rt_applications s';
  le_results : exists new, rt_results s' = rt_results s ++ new /\ Forall result_ok new;
}.

(** A computation that keeps the invariant, only adds to the state, does not
    panic (if user code does not), and returns values with a property. *)
Definition safe {A} (m : rt A) (Q : A -> Prop) : Prop :=
  forall s r s', runtime_inv s -> m s = Some (r, s') ->
    runtime_inv s' /\ runtime_le s s' /\ (no_panic -> r <> Panic) /\
    (forall a, r = Ok a -> Q a).

Lemma runtime_le_refl s : runtime_le s s.
Proof. split; [done..|]. exists []. by rewrite app_nil_r. Qed.

Lemma runtime_le_trans s1 s2 s3 : runtime_le s1 s2 -> runtime_le s2 s3 -> runtime_le s1 s3.
Proof.
  intros [Hs1 Hst1 (n1 & Hr1 & Hf1)] [Hs2 Hst2 (n2 & Hr2 & Hf2)]. split.
  - congruence.
  - by etrans.
  - exists (n1 ++ n2). rewrite Hr2, Hr1, (assoc_L (++)). split; [done|by apply Forall_app_2].
Qed.

Lemma safe_ret {A} (a : A) (Q : A -> Prop) : Q a -> safe (mret a) Q.
Proof.
  intros HQ s r s' Hs [= <- <-]. split_and!; [done|apply runtime_le_refl|done|by intros ? [= <-]].
Qed.

Lemma safe_bind {A B} (m : rt A) (k : A -> rt B) Q Q' :
  safe m Q -> (forall a, Q a -> safe (k a) Q') -> safe (m ≫= k) Q'.
Proof.
  intros Hm Hk s r s' Hs. unfold mbind, rt_bind.
  destruct (m s) as [[[a|e|] s1]|] eqn:He; [..|done];
    destruct (Hm _ _ _ Hs He) as (Hs1 & Hle & Hp & HQ).
  - intros Hr. destruct (Hk a (HQ a eq_refl) _ _ _ Hs1 Hr) as (Hs' & Hle' & Hp' & HQ').
    split_and!; [done|by eapply runtime_le_trans|done..].
  - intros [= <- <-]. by split_and!.
  - intros [= <- <-]. split_and!; [done..| |done]. intros Hc. by destruct (Hp Hc).
Qed.

Lemma safe_weaken {A} (m : rt A) (Q Q' : A -> Prop) :
  safe m Q -> (forall a, Q a -> Q' a) -> safe m Q'.
Proof. intros Hm HQ s r s' Hs He. destruct (Hm _ _ _ Hs He) as (? & ? & ? & ?). eauto 8. Qed.

Lemma safe_lift {A} (r : result ExecutionError A) (Q : A -> Prop) :
  (no_panic -> r <> Panic) -> (forall a, r = Ok a -> Q a) -> safe (lift r) Q.
Proof. intros Hp HQ s r' s' Hs [= <- <-]. split_and!; [done|apply runtime_le_refl|done..]. Qed.

Lemma safe_fail {A} e (Q : A -> Prop) : safe (fail e) Q.
Proof. intros s r s' Hs [= <- <-]. split_and!; [done|apply runtime_le_refl|done..]. Qed.

Lemma safe_ensure cond e : safe (rt_ensure cond e) (fun _ => True).
Proof. apply safe_lift; [|done]. by destruct cond. Qed.

Lemma safe_gets {A} (f : RuntimeState -> A) : safe (gets f) (fun _ => True).
Proof. intros s r s' Hs [= <- <-]. split_and!; [done|apply runtime_le_refl|done..]. Qed.

(** Changes of the fields that the invariant does not mention. *)
Lemma safe_modify (f : RuntimeState -> RuntimeState) :
  (forall s, es_system (rt_state (f s)) = es_system (rt_state s) /\
     rt_applications (f s) = rt_applications s /\ rt_results (f s) = rt_results s /\
     rt_sessions (f s) = rt_sessions s /\ rt_active_sessions (f s) = rt_active_sessions s /\
     (counts_nonneg s -> counts_nonneg (f s))) ->
  safe (modify f) (fun _ => True).
Proof.
  intros Hf s r s' [Hst Hsg Hse Hcs] [= <- <-]. destruct (Hf s) as (H1 & H2 & H3 & H4 & H5 & H6).
  split_and!; [|..|done|done].
  - split; rewrite ?H2, ?H4, ?H5; auto.
  - split; [done|by rewrite H2|]. exists []. rewrite app_nil_r. done.
Qed.

(** Changes of the sessions only. *)
Lemma sessions_changed s sessions active :
  runtime_inv s ->
  (forall id, id ∈ active -> is_Some (session_states sessions !! id)) ->
  runtime_inv (set_sessions sessions active s) /\ runtime_le s (set_sessions sessions active s).
Proof.
  intros [Hst Hsg Hse Hcs] Hactive. split; [by split|]. split; [done..|].
  exists []. by rewrite app_nil_r.
Qed.

Lemma unchanged s : runtime_inv s -> runtime_inv s /\ runtime_le s s.
Proof. intros Hs. split; [done|apply runtime_le_refl]. Qed.

(** Unfolds a computation on a known state, for those that read and write the
    sessions. *)
Ltac run_sessions :=
  let s := fresh "s" in let Hs := fresh "Hs" in
  intros s r s' Hs;
  unfold rt_ensure, lift, gets, modify, mret, rt_ret, mbind, rt_bind, ensure, ok_or.

Lemma safe_forward_session from_id to_id id :
  safe (forward_session from_id to_id id) (fun _ => True).
Proof.
  unfold forward_session. run_sessions.
  destruct (session_states (rt_sessions s) !! id) as [state|] eqn:Hid.
  2: { intros [= <- <-]. destruct (unchanged s Hs). by split_and!. }
  case_bool_decide; [|intros [= <- <-]; destruct (unchanged s Hs); by split_and!].
  case_bool_decide; [|intros [= <- <-]; destruct (unchanged s Hs); by split_and!].
  intros [= <- <-]. edestruct (sessions_changed s) as [Hinv Hle]; [done| |by split_and!; eauto].
  simpl. intros id' Hid'. destruct (decide (id' = id)) as [->|]; [by rewrite lookup_insert_eq|].
  rewrite lookup_insert_ne by done. by apply (inv_sessions s Hs).
Qed.

Lemma safe_forward_sessions ids from_id to_id :
  safe (forward_sessions ids from_id to_id) (fun _ => True).
Proof.
  induction ids as [|id ids IH]; simpl; [by apply safe_ret|].
  eapply safe_bind; [apply safe_forward_session|]. by intros.
Qed.

Lemma safe_try_load_session session_id id : safe (try_load_session session_id id) (fun _ => True).
Proof.
  unfold try_load_session. run_sessions.
  destruct (session_states (rt_sessions s) !! session_id) as [state|] eqn:Hid.
  2: { intros [= <- <-]. destruct (unchanged s Hs). by split_and!. }
  case_bool_decide; [|intros [= <- <-]; destruct (unchanged s Hs); by split_and!].
  case_bool_decide; [|intros [= <- <-]; destruct (unchanged s Hs); by split_and!].
  intros [= <- <-]. edestruct (sessions_changed s) as [Hinv Hle]; [done| |by split_and!; eauto].
  intros id'. rewrite elem_of_union, elem_of_singleton. intros [->|Hin]; [by rewrite Hid|].
  by apply (inv_sessions s Hs).
Qed.

Lemma safe_try_save_session session_id id state :
  safe (try_save_session session_id id state) (fun _ => True).
Proof.
  unfold try_save_session. run_sessions. unfold active_owner.
  destruct (decide _) as [Hin|]; [|intros [= <- <-]; destruct (unchanged s Hs); by split_and!].
  destruct (inv_sessions s Hs _ Hin) as [st Hst]. rewrite Hst. simpl.
  case_bool_decide; [|intros [= <- <-]; destruct (unchanged s Hs); by split_and!].
  intros [= <- <-]. edestruct (sessions_changed s) as [Hinv Hle]; [done| |by split_and!; eauto].
  simpl. intros id'. rewrite elem_of_difference, elem_of_singleton. intros [Hid' Hne].
  rewrite lookup_insert_ne by done. by apply (inv_sessions s Hs).
Qed.

Lemma safe_try_close_session session_id id :
  safe (try_close_session session_id id) (fun _ => True).
Proof.
  unfold try_close_session. run_sessions. unfold active_owner.
  destruct (decide _) as [Hin|]; [|intros [= <- <-]; destruct (unchanged s Hs); by split_and!].
  destruct (inv_sessions s Hs _ Hin) as [st Hst]. rewrite Hst. simpl.
  case_bool_decide; [|intros [= <- <-]; destruct (unchanged s Hs); by split_and!].
  intros [= <- <-]. edestruct (sessions_changed s) as [Hinv Hle]; [done| |by split_and!; eauto].
  simpl. intros id'. rewrite elem_of_difference, elem_of_singleton. intros [Hid' Hne].
  rewrite lookup_delete_ne by done. by apply (inv_sessions s Hs).
Qed.

Lemma make_sessions_loop_keeps new creator receiver counter states id :
  is_Some (states !! id) ->
  is_Some ((make_sessions_loop new creator receiver counter states).2 !! id).
Proof.
  revert counter states. induction new as [|data new IH]; intros counter states Hid; simpl; [done|].
  set (new_id := {| session_application_id := creator; session_index := counter |}).
  specialize (IH (wrapping_add u64_MAX counter 1)
    (<[new_id := {| session_owner := receiver; session_data := data |}]> states)).
  destruct (make_sessions_loop _ _ _ _ _) as [[ids c] st]. apply IH.
  destruct (decide (id = new_id)) as [->|]; [by rewrite lookup_insert_eq|].
  by rewrite lookup_insert_ne.
Qed.

Lemma safe_make_sessions new creator receiver :
  safe (make_sessions new creator receiver) (fun _ => True).
Proof.
  intros s r s' Hs. unfold make_sessions.
  pose proof (make_sessions_loop_keeps new creator receiver
    (default 0 (session_counters (rt_sessions s) !! creator)) (session_states (rt_sessions s)))
    as Hkeep.
  destruct (make_sessions_loop _ _ _ _ _) as [[ids c] st]. intros [= <- <-].
  edestruct (sessions_changed s) as [Hinv Hle]; [done| |by split_and!; eauto].
  intros id Hid. apply Hkeep. by apply (inv_sessions s Hs).
Qed.


Lemma safe_current_application :
  safe current_application (fun status => signer_ok (status_signer status)).
Proof.
  intros s r s' Hs. pose proof Hs as [Hst Hsg _ _]. unfold current_application.
  destruct (rt_applications s) as [|status stack] eqn:Ha; [done|]. intros [= <- <-].
  apply Forall_cons in Hsg as [Hsg _]. destruct (unchanged s Hs).
  split_and!; [done..|]. by intros ? [= <-].
Qed.

Lemma safe_application_id : safe application_id (fun _ => True).
Proof. eapply safe_bind; [apply safe_current_application|]. intros. by apply safe_ret. Qed.

Lemma safe_load_application id :
  safe (load_application id)
    (fun '(code, _) => no_panic -> application_panic_free code).
Proof.
  unfold load_application. eapply safe_bind; [apply safe_gets|]. intros registry _.
  eapply safe_bind.
  { apply (safe_lift _ (fun _ => True)); [|done]. intros _. unfold describe_application.
    by destruct (known_applications registry !! id). }
  intros description _. eapply safe_bind.
  { apply (safe_lift _ (fun code => no_panic -> application_panic_free code)).
    - intros Hfree%no_panic_code. specialize (Hfree description).
      by destruct (get_user_application description).
    - intros code Hcode Hfree%no_panic_code. specialize (Hfree description).
      by rewrite Hcode in Hfree. }
  intros code Hcode. by apply safe_ret.
Qed.

Lemma wrapping_u64_nonneg x y : 0 <= wrapping_add u64_MAX x y.
Proof. unfold wrapping_add, u64_MAX. apply Z.mod_pos_bound. lia. Qed.

Ltac keep_counts :=
  intros ?; split_and!; [done..|]; intros (? & ? & ?); split_and!;
  simpl; (done || apply wrapping_u64_nonneg).

(** Composes the lemmas on the helpers. *)
Ltac safe_step :=
  lazymatch goal with
  | |- safe (mbind _ _) _ => eapply safe_bind; [|intros ? ?]
  | |- safe (mret _) _ => by apply safe_ret
  | |- safe (fail _) _ => apply safe_fail
  | |- safe (if ?b then _ else _) _ => destruct b
  | |- safe (match ?o with Some _ => _ | None => _ end) _ => destruct o
  | |- safe (let '(_, _) := ?p in _) _ => destruct p
  | |- safe (modify _) _ => apply safe_modify; (done || keep_counts)
  | |- safe (rt_ensure _ _) _ => apply safe_ensure
  | |- safe (gets _) _ => apply safe_gets
  | |- safe application_id _ => apply safe_application_id
  | |- safe current_application _ => apply safe_current_application
  end.
Ltac solve_safe := repeat safe_step.

Lemma safe_increment_num_reads : safe (increment_num_reads runtime_limits) (fun _ => True).
Proof. unfold increment_num_reads. solve_safe. Qed.
Lemma safe_increment_bytes_read n : safe (increment_bytes_read runtime_limits n) (fun _ => True).
Proof. unfold increment_bytes_read. solve_safe. Qed.
Lemma safe_increment_bytes_written n :
  safe (increment_bytes_written runtime_limits n) (fun _ => True).
Proof. unfold increment_bytes_written. solve_safe. Qed.

Lemma safe_load_simple id : safe (load_simple id) (fun _ => True).
Proof. unfold load_simple. solve_safe. Qed.

Lemma safe_load_view id : safe (load_view id) (fun _ => True).
Proof.
  unfold load_view. safe_step; [solve_safe|]. eapply safe_bind.
  - apply (safe_lift _ (fun _ => True)); [|done]. intros _.
    destruct (es_view_users _ !! id); [done|]. unfold kv_load, read_hash.
    destruct (read_key_bytes _ _); [|done]. by destruct (_ =? _)%nat.
  - intros. solve_safe.
Qed.

Lemma safe_active_view : safe active_view (fun _ => True).
Proof.
  unfold active_view. solve_safe. apply (safe_lift _ (fun _ => True)); [|done].
  intros _. by destruct (es_view_users _ !! _).
Qed.

Lemma safe_unlock_view id : safe (unlock_view id) (fun _ => True).
Proof. unfold unlock_view. solve_safe. Qed.

Lemma safe_handle_base {X} (request : base_request X) :
  safe (handle_base chain_id runtime_limits request) (fun _ => True).
Proof.
  destruct request; simpl; solve_safe; eauto using safe_load_simple, safe_load_view,
    safe_unlock_view, safe_active_view, safe_increment_num_reads, safe_increment_bytes_read.
  by apply safe_ret.
Qed.

Lemma safe_write_batch_and_unlock batch :
  safe (write_batch_and_unlock runtime_limits batch) (fun _ => True).
Proof.
  unfold write_batch_and_unlock. solve_safe; eauto using safe_increment_bytes_written,
    safe_active_view, safe_unlock_view.
Qed.


(** Running a callee on top of the stack. *)
Lemma call_unfold {A B} status (m : rt A) (k : A -> rt B) s :
  (push_application status ;; a ← m; pop_application ;; k a) s =
  match m (set_applications (status :: rt_applications s) s) with
  | Some (Ok a, s2) => k a (set_applications (tail (rt_applications s2)) s2)
  | Some (Err e, s2) => Some (Err e, s2)
  | Some (Panic, s2) => Some (Panic, s2)
  | None => None
  end.
Proof. done. Qed.

Lemma safe_call {A B} status (m : rt A) (k : A -> rt B) Q :
  signer_ok (status_signer status) -> safe m (fun _ => True) -> (forall a, safe (k a) Q) ->
  safe (push_application status ;; a ← m; pop_application ;; k a) Q.
Proof.
  intros Hstatus Hm Hk s r s' Hs. pose proof Hs as [Hst Hsg Hse Hcs]. rewrite call_unfold.
  set (s1 := set_applications (status :: rt_applications s) s).
  assert (runtime_inv s1) as Hs1 by (split; simpl; [done|by constructor|done..]).
  destruct (m s1) as [[a s2]|] eqn:He; [|done].
  destruct (Hm s1 a s2 Hs1 He) as (Hs2 & [Hsys Hstack Hres] & Hp & _).
  assert (runtime_le s s2) as Hle.
  { split; [done| |done]. etrans; [|exact Hstack]. simpl. by apply suffix_cons_r. }
  destruct a as [a|e|].
  - intros Hr. set (s3 := set_applications (tail (rt_applications s2)) s2) in Hr.
    assert (rt_applications s `suffix_of` tail (rt_applications s2)) as Htail.
    { destruct Hstack as [extra Hextra]. simpl in Hextra. rewrite Hextra.
      destruct extra as [|x extra]; simpl; [done|]. by do 2 apply suffix_app_r || apply suffix_cons_r. }
    assert (runtime_inv s3) as Hs3.
    { destruct Hs2 as [_ Hsg2 Hse2 Hcs2]. split; simpl; [|by apply Forall_tail|done..].
      intros Hnil. rewrite Hnil in Htail. by apply suffix_nil_inv in Htail. }
    assert (runtime_le s s3) as Hle3 by (split; [apply Hle|done|apply Hle]).
    destruct (Hk a s3 r s' Hs3 Hr) as (Hs' & Hle' & Hp' & HQ').
    split_and!; [done|by eapply runtime_le_trans|done..].
  - intros [= <- <-]. by split_and!.
  - intros [= <- <-]. split_and!; [done..| |done]. intros Hc. by destruct (Hp Hc).
Qed.

Lemma safe_push_result id raw :
  signer_ok (res_authenticated_signer raw) ->
  safe (modify (push_result (ResultUser id raw))) (fun _ => True).
Proof.
  intros Hraw s r s' [Hst Hsg Hse Hcs] [= <- <-]. split_and!; [by split| |done..].
  split; [done..|]. exists [ResultUser id raw]. split; [done|]. constructor; [|done].
  by exists id, raw.
Qed.

Lemma callee_signer_ok authenticated caller :
  signer_ok (status_signer caller) -> signer_ok (callee_signer authenticated caller).
Proof.
  unfold callee_signer. intros Hc. destruct (status_signer caller); [|by left].
  destruct authenticated; [done|by left].
Qed.

Section code.
Context (run : forall A, prog contract_request A -> rt A).
Context (run_safe : forall A (p : prog contract_request A),
  (no_panic -> panic_free p) -> safe (run A p) (fun _ => True)).

Lemma safe_try_call_application authenticated callee_id argument sessions :
  safe (try_call_application chain_id run authenticated callee_id argument sessions)
    (fun _ => True).
Proof.
  unfold try_call_application. eapply safe_bind; [apply safe_current_application|].
  intros caller Hcaller. eapply safe_bind; [apply safe_load_application|].
  intros [code description] Hcode. eapply safe_bind; [apply safe_forward_sessions|]. intros _ _.
  apply safe_call; [by apply callee_signer_ok|apply run_safe; intros Hc; by apply Hcode|].
  intros raw. eapply safe_bind; [by apply safe_push_result, callee_signer_ok|]. intros _ _.
  eapply safe_bind; [apply safe_application_id|]. intros receiver _.
  eapply safe_bind; [apply safe_make_sessions|]. intros ids _. by apply safe_ret.
Qed.

Lemma safe_try_call_session authenticated session_id argument sessions :
  safe (try_call_session chain_id run authenticated session_id argument sessions)
    (fun _ => True).
Proof.
  unfold try_call_session. eapply safe_bind; [apply safe_current_application|].
  intros caller Hcaller. eapply safe_bind; [apply safe_load_application|].
  intros [code description] Hcode. eapply safe_bind; [apply safe_forward_sessions|]. intros _ _.
  eapply safe_bind; [apply safe_application_id|]. intros caller_id _.
  eapply safe_bind; [apply safe_try_load_session|]. intros state _.
  apply safe_call; [by apply callee_signer_ok|apply run_safe; intros Hc; by apply Hcode|].
  intros [raw state']. eapply safe_bind; [apply safe_application_id|]. intros caller_id' _.
  eapply safe_bind.
  { destruct (scr_close_session raw); [apply safe_try_close_session|apply safe_try_save_session]. }
  intros _ _. eapply safe_bind; [by apply safe_push_result, callee_signer_ok|]. intros _ _.
  eapply safe_bind; [apply safe_application_id|]. intros receiver _.
  eapply safe_bind; [apply safe_make_sessions|]. intros ids _. by apply safe_ret.
Qed.

Lemma safe_handle_contract {X} (request : contract_request X) :
  safe (handle_contract chain_id runtime_limits run request) (fun _ => True).
Proof.
  destruct request; simpl; solve_safe; eauto using safe_handle_base, safe_load_simple,
    safe_write_batch_and_unlock, safe_try_call_application, safe_try_call_session.
Qed.

End code.

Lemma safe_run_prog {R} (handle : forall X, R X -> rt X) {A} (p : prog R A) :
  (forall X (request : R X), safe (handle X request) (fun _ => True)) ->
  (no_panic -> panic_free p) -> safe (run_prog handle p) (fun _ => True).
Proof.
  intros Hhandle. induction p as [r|X request k IH]; intros Hp s r' s' Hs; simpl.
  - intros [= <- <-]. destruct (unchanged s Hs). split_and!; [done..| |done].
    intros Hc. exact (Hp Hc).
  - destruct (handle X request s) as [[answer s1]|] eqn:He; [|done].
    destruct (Hhandle _ _ _ _ _ Hs He) as (Hs1 & Hle & Hpanic & _). intros Hr.
    assert (answer = Panic /\ Some (Panic, s1) = Some (r', s') \/
            answer <> Panic /\ run_prog handle (k answer) s1 = Some (r', s')) as [[-> Hr']|[Hne Hr']].
    { destruct answer; auto. }
    + injection Hr' as <- <-. split_and!; [done..| |done]. intros Hc. by destruct (Hpanic Hc).
    + destruct (IH answer) with (s := s1) (r := r') (s' := s') as (Hs' & Hle' & Hp' & _); try done.
      { intros Hc. by apply (Hp Hc). }
      split_and!; [done|by eapply runtime_le_trans|done..].
Qed.

Lemma safe_run_contract depth A (p : prog contract_request A) :
  (no_panic -> panic_free p) ->
  safe (run_contract chain_id runtime_limits depth A p) (fun _ => True).
Proof.
  revert A p. induction depth as [|depth IH]; intros A p Hp; simpl; [by intros s r s'|].
  apply safe_run_prog; [|done]. intros X request. by apply safe_handle_contract.
Qed.

End safety.


(** The runtime does not panic.  If the code of the applications does not
    panic by itself, no sequence of requests makes the runtime panic, whatever
    the answers and errors the code goes on with: there is always a current
    application, and a locked session always exists. *)
Theorem runtime_never_panics `{UserCode} chain_id limits signer depth A
    (p : prog contract_request A) s r s' :
  code_panic_free -> panic_free p -> runtime_inv signer s ->
  run_contract chain_id limits depth A p s = Some (r, s') -> r <> Panic.
Proof.
  intros Hcode Hp Hs Hrun.
  destruct (safe_run_contract chain_id limits signer True (fun _ => Hcode) depth A p) with
    (s := s) (r := r) (s' := s') as (_ & _ & Hpanic & _); [done..|]. by apply Hpanic.
Qed.

(** ** The stack of applications *)

Section stack.
Context `{UserCode}.
Context (chain_id : ChainId) (runtime_limits : RuntimeLimits).

(** Code that gives up on the first error, as code compiled to Wasm does. *)
Fixpoint strict {R A} (p : prog R A) : Prop :=
  match p with
  | Return _ => True
  | Ask _ k => (forall e, k (Err e) = Return (Err e)) /\ forall a, strict (k (Ok a))
  end.

Definition code_strict : Prop :=
  forall description code, get_user_application description = Ok code ->
    (forall context argument sessions,
       strict (ua_handle_application_call code context argument sessions)) /\
    (forall context state argument sessions,
       strict (ua_handle_session_call code context state argument sessions)).

(** What successful computations do: the stack is as before, and the counters
    that moved are below their limits. *)
Definition within (limit x x' : Z) : Prop := x' = x \/ x' < limit.

Record tidy (s s' : RuntimeState) : Prop := {
  tidy_stack : rt_applications s' = rt_applications s;
  tidy_reads : within (lim_max_budget_num_reads runtime_limits) (rt_num_reads s) (rt_num_reads s');
  tidy_bytes_read : within
    (lim_max_budget_bytes_read runtime_limits `min` lim_maximum_bytes_left_to_read runtime_limits)
    (rt_bytes_read s) (rt_bytes_read s');
  tidy_bytes_written : within
    (lim_max_budget_bytes_written runtime_limits `min`
     lim_maximum_bytes_left_to_write runtime_limits)
    (rt_bytes_written s) (rt_bytes_written s');
}.

Definition balanced {A} (m : rt A) : Prop :=
  forall s a s', m s = Some (Ok a, s') -> tidy s s'.

Lemma tidy_same s s' :
  rt_applications s' = rt_applications s -> rt_num_reads s' = rt_num_reads s ->
  rt_bytes_read s' = rt_bytes_read s -> rt_bytes_written s' = rt_bytes_written s -> tidy s s'.
Proof. intros. split; [done|by left..]. Qed.

Lemma within_trans limit x y z : within limit x y -> within limit y z -> within limit x z.
Proof. unfold within. lia. Qed.

Lemma tidy_trans s1 s2 s3 : tidy s1 s2 -> tidy s2 s3 -> tidy s1 s3.
Proof. intros [] []. split; [congruence|by eapply within_trans..]. Qed.

Lemma balanced_bind {A B} (m : rt A) (k : A -> rt B) :
  balanced m -> (forall a, balanced (k a)) -> balanced (m ≫= k).
Proof.
  intros Hm Hk s b s'. unfold mbind, rt_bind.
  destruct (m s) as [[[a|e|] s1]|] eqn:He; try done. intros Hr.
  eapply tidy_trans; [by eapply Hm|by eapply Hk].
Qed.

Lemma balanced_lift {A} (r : result ExecutionError A) : balanced (lift r).
Proof. intros s a s' [= _ <-]. by apply tidy_same. Qed.

Lemma balanced_modify f : (forall s, tidy s (f s)) -> balanced (modify f).
Proof. by intros Hf s a s' [= _ <-]. Qed.

Lemma balanced_increment_num_reads : balanced (increment_num_reads runtime_limits).
Proof.
  intros s a s'. unfold increment_num_reads, mbind, rt_bind, modify, gets. simpl.
  case_match; [done|]. intros [= _ <-]. split; [done|right; simpl; lia|by left..].
Qed.
Lemma balanced_increment_bytes_read n : balanced (increment_bytes_read runtime_limits n).
Proof.
  intros s a s'. unfold increment_bytes_read, mbind, rt_bind, modify, gets. simpl.
  repeat (case_match; [done|]). intros [= _ <-]. split; [done|by left|right; simpl; lia|by left].
Qed.
Lemma balanced_increment_bytes_written n : balanced (increment_bytes_written runtime_limits n).
Proof.
  intros s a s'. unfold increment_bytes_written, mbind, rt_bind, modify, gets. simpl.
  repeat (case_match; [done|]). intros [= _ <-]. split; [done|by left..|right; simpl; lia].
Qed.

Ltac balanced_step :=
  lazymatch goal with
  | |- balanced (mbind _ _) => apply balanced_bind; [|intros ?]
  | |- balanced (mret _) => intros ? ? ? [= _ <-]; by apply tidy_same
  | |- balanced (gets _) => intros ? ? ? [= _ <-]; by apply tidy_same
  | |- balanced (fail _) => by intros ? ? ?
  | |- balanced (lift _) => apply balanced_lift
  | |- balanced (rt_ensure _ _) => apply balanced_lift
  | |- balanced (modify _) => apply balanced_modify; intros ?; by apply tidy_same
  | |- balanced (if ?b then _ else _) => destruct b
  | |- balanced (match ?o with Some _ => _ | None => _ end) => destruct o
  | |- balanced (let '(_, _) := ?p in _) => destruct p
  | |- balanced current_application =>
      intros ? ? ?; unfold current_application; case_match; intros [= _ <-]; by apply tidy_same
  end.
Ltac solve_balanced := repeat balanced_step.

Lemma balanced_application_id : balanced application_id.
Proof. unfold application_id. solve_balanced. Qed.
Lemma balanced_load_application id : balanced (load_application id).
Proof. unfold load_application. solve_balanced. Qed.
Lemma balanced_forward_sessions ids from_id to_id : balanced (forward_sessions ids from_id to_id).
Proof. induction ids; simpl; unfold forward_session; solve_balanced. done. Qed.
Lemma balanced_make_sessions new creator receiver : balanced (make_sessions new creator receiver).
Proof.
  intros s a s'. unfold make_sessions. destruct (make_sessions_loop _ _ _ _ _) as [[ids c] st].
  intros [= _ <-]. by apply tidy_same.
Qed.
Lemma balanced_load_simple id : balanced (load_simple id).
Proof. unfold load_simple. solve_balanced. Qed.
Lemma balanced_load_view id : balanced (load_view id).
Proof. unfold load_view. solve_balanced. Qed.
Lemma balanced_active_view : balanced active_view.
Proof. unfold active_view. solve_balanced. apply balanced_application_id. Qed.

Lemma balanced_handle_base {X} (request : base_request X) :
  balanced (handle_base chain_id runtime_limits request).
Proof.
  destruct request; simpl; unfold unlock_view; solve_balanced;
    eauto using balanced_application_id, balanced_load_simple, balanced_load_view,
      balanced_active_view, balanced_increment_num_reads, balanced_increment_bytes_read.
Qed.

Section code.
Context (run : forall A, prog contract_request A -> rt A).
Context (run_balanced : forall A (p : prog contract_request A), strict p -> balanced (run A p)).
Context (code_ok : code_strict).

Lemma balanced_call {A B} status (m : rt A) (k : A -> rt B) :
  balanced m -> (forall a, balanced (k a)) ->
  balanced (push_application status ;; a ← m; pop_application ;; k a).
Proof.
  intros Hm Hk s b s'. rewrite call_unfold.
  destruct (m _) as [[[a|e|] s2]|] eqn:He; try done. intros Hr.
  eapply tidy_trans; [|by eapply Hk]. destruct (Hm _ _ _ He) as [Hst Hr1 Hr2 Hr3].
  split; simpl in *; [by rewrite Hst|done..].
Qed.

(** The code loaded for an application is strict. *)
Lemma balanced_load_code {B} id (k : UserApplication * UserApplicationDescription -> rt B) :
  (forall description code, get_user_application description = Ok code ->
     balanced (k (code, description))) ->
  balanced (load_application id ≫= k).
Proof.
  intros Hk s b s'. unfold load_application, mbind, rt_bind, gets, lift, mret, rt_ret.
  destruct (map_err _ _) as [description|e|]; try done.
  destruct (get_user_application description) as [code|e|] eqn:Hcode; try done.
  by apply Hk.
Qed.

Lemma balanced_try_call_application authenticated callee_id argument sessions :
  balanced (try_call_application chain_id run authenticated callee_id argument sessions).
Proof.
  unfold try_call_application. balanced_step; [solve_balanced|]. apply balanced_load_code.
  intros description code Hcode. apply balanced_bind; [apply balanced_forward_sessions|]. intros _.
  apply balanced_call.
  - apply run_balanced. by apply (code_ok description).
  - intros raw. solve_balanced; [apply balanced_application_id|apply balanced_make_sessions].
Qed.

Lemma balanced_try_call_session authenticated session_id argument sessions :
  balanced (try_call_session chain_id run authenticated session_id argument sessions).
Proof.
  unfold try_call_session. balanced_step; [solve_balanced|]. apply balanced_load_code.
  intros description code Hcode. apply balanced_bind; [apply balanced_forward_sessions|]. intros _.
  apply balanced_bind; [apply balanced_application_id|]. intros caller_id.
  apply balanced_bind; [unfold try_load_session; solve_balanced|]. intros state.
  apply balanced_call.
  - apply run_balanced. by apply (code_ok description).
  - intros [raw state']. unfold try_close_session, try_save_session.
    solve_balanced; auto using balanced_application_id, balanced_make_sessions.
Qed.

Lemma balanced_handle_contract {X} (request : contract_request X) :
  balanced (handle_contract chain_id runtime_limits run request).
Proof.
  destruct request; simpl; unfold write_batch_and_unlock, unlock_view;
    solve_balanced; eauto using balanced_handle_base, balanced_increment_bytes_written, balanced_application_id,
      balanced_load_simple, balanced_active_view, balanced_try_call_application,
      balanced_try_call_session.
Qed.

End code.

Lemma balanced_run_prog {R} (handle : forall X, R X -> rt X) {A} (p : prog R A) :
  (forall X (request : R X), balanced (handle X request)) -> strict p ->
  balanced (run_prog handle p).
Proof.
  intros Hhandle. induction p as [r|X request k IH]; intros Hp s a s'; simpl.
  - intros [= _ <-]. by apply tidy_same.
  - destruct Hp as [Herr Hok].
    destruct (handle X request s) as [[[x|e|] s1]|] eqn:He; try done.
    + intros Hr. eapply tidy_trans; [by eapply Hhandle|by eapply (IH (Ok x) (Hok x))].
    + by rewrite Herr.
Qed.

Lemma balanced_run_contract depth A (p : prog contract_request A) :
  code_strict -> strict p -> balanced (run_contract chain_id runtime_limits depth A p).
Proof.
  intros Hcode. revert A p. induction depth as [|depth IH]; intros A p Hp; simpl;
    [by intros s a s'|].
  apply balanced_run_prog; [|done]. intros X request. by apply balanced_handle_contract.
Qed.

End stack.

(** Code that stops at its first error, as Wasm code does, leaves the runtime
    tidy.  When it succeeds, the stack of applications is the one it started
    with, and the reads and writes that were counted are below the limits of
    the transaction. *)
Theorem strict_code_tidy `{UserCode} chain_id limits depth A (p : prog contract_request A) s a s' :
  code_strict -> strict p -> run_contract chain_id limits depth A p s = Some (Ok a, s') ->
  rt_applications s' = rt_applications s /\
  within (lim_max_budget_num_reads limits) (rt_num_reads s) (rt_num_reads s') /\
  within (lim_max_budget_bytes_read limits `min` lim_maximum_bytes_left_to_read limits)
    (rt_bytes_read s) (rt_bytes_read s') /\
  within (lim_max_budget_bytes_written limits `min` lim_maximum_bytes_left_to_write limits)
    (rt_bytes_written s) (rt_bytes_written s').
Proof.
  intros Hcode Hp Hrun.
  by destruct (balanced_run_contract chain_id limits depth A p Hcode Hp s a s' Hrun).
Qed.

(** ** Isolation of the applications *)

(** The requests that do not call another application. *)
Definition is_call {X} (request : contract_request X) : bool :=
  match request with TryCallApplication _ _ _ _ | TryCallSession _ _ _ _ => true | _ => false end.

Section isolation.
Context `{UserCode}.
Context (chain_id : ChainId) (runtime_limits : RuntimeLimits).
Context (run : forall A, prog contract_request A -> rt A).

(** An application other than the current one. *)
Context (other : UserApplicationId).

Definition not_current (s : RuntimeState) : Prop :=
  forall status, head (rt_applications s) = Some status -> status_id status <> other.

(** The state and the locks of the application are the same. *)
Record untouched (s s' : RuntimeState) : Prop := {
  same_stack : rt_applications s' = rt_applications s;
  same_simple : es_simple_users (rt_state s') !! other = es_simple_users (rt_state s) !! other;
  same_view : es_view_users (rt_state s') !! other = es_view_users (rt_state s) !! other;
  same_active_simple : other ∈ rt_active_simple s' <-> other ∈ rt_active_simple s;
  same_active_view : other ∈ rt_active_view s' <-> other ∈ rt_active_view s;
}.

Definition framed {A} (m : rt A) (Q : A -> Prop) : Prop :=
  forall s r s', not_current s -> m s = Some (r, s') ->
    untouched s s' /\ (forall a, r = Ok a -> Q a).

Lemma untouched_refl s : untouched s s.
Proof. by split. Qed.
Lemma untouched_trans s1 s2 s3 : untouched s1 s2 -> untouched s2 s3 -> untouched s1 s3.
Proof. intros [] []. split; etrans; eauto. Qed.

Lemma framed_bind {A B} (m : rt A) (k : A -> rt B) Q Q' :
  framed m Q -> (forall a, Q a -> framed (k a) Q') -> framed (m ≫= k) Q'.
Proof.
  intros Hm Hk s r s' Hs. unfold mbind, rt_bind.
  destruct (m s) as [[[a|e|] s1]|] eqn:He; try done; destruct (Hm _ _ _ Hs He) as [Hu HQ].
  - intros Hr. assert (not_current s1) as Hs1 by (unfold not_current; by rewrite (same_stack _ _ Hu)).
    destruct (Hk a (HQ a eq_refl) _ _ _ Hs1 Hr) as [Hu' HQ'].
    split; [by eapply untouched_trans|done].
  - by intros [= <- <-].
  - by intros [= <- <-].
Qed.

Lemma framed_lift {A} (r : result ExecutionError A) : framed (lift r) (fun _ => True).
Proof. intros s r' s' Hs [= <- <-]. split; [apply untouched_refl|done]. Qed.

Lemma framed_application_id : framed application_id (fun id => id <> other).
Proof.
  intros s r s' Hs. unfold application_id, current_application, mbind, rt_bind, mret, rt_ret.
  destruct (rt_applications s) as [|status stack] eqn:Ha; intros [= <- <-];
    (split; [apply untouched_refl|]); [done|]. intros a [= <-]. apply Hs. by rewrite Ha.
Qed.

Lemma framed_modify f : (forall s, untouched s (f s)) -> framed (modify f) (fun _ => True).
Proof. intros Hf s r s' Hs [= <- <-]. by split. Qed.

(** Changes of the entry of another application. *)
Lemma framed_set_users f g h k :
  (forall s, f s !! other = es_simple_users (rt_state s) !! other) ->
  (forall s, g s !! other = es_view_users (rt_state s) !! other) ->
  (forall s, other ∈ h s <-> other ∈ rt_active_simple s) ->
  (forall s, other ∈ k s <-> other ∈ rt_active_view s) ->
  framed (modify (fun s => set_users (f s) (g s) (h s) (k s) s)) (fun _ => True).
Proof. intros Hf Hg Hh Hk. apply framed_modify. intros s. split; simpl; auto. Qed.

Lemma framed_load_simple id : id <> other -> framed (load_simple id) (fun _ => True).
Proof.
  intros Hid s r s' Hs. unfold load_simple, rt_ensure, lift, gets, modify, mret, rt_ret, mbind,
    rt_bind, ensure. simpl. intros Hr.
  assert (untouched s (set_users (<[id:=default [] (es_simple_users (rt_state s) !! id)]>
    (es_simple_users (rt_state s))) (es_view_users (rt_state s)) (rt_active_simple s)
    (rt_active_view s) s)) as Hu by (split; simpl; [done|by rewrite lookup_insert_ne|done..]).
  case_bool_decide; by injection Hr as <- <-.
Qed.

Lemma framed_load_view id : id <> other -> framed (load_view id) (fun _ => True).
Proof.
  intros Hid s r s' Hs. unfold load_view, rt_ensure, lift, gets, modify, mret, rt_ret, mbind,
    rt_bind, ensure. simpl. intros Hr.
  destruct (match es_view_users (rt_state s) !! id with Some _ => _ | None => _ end)
    as [view|e|]; [|injection Hr as <- <-; split; [apply untouched_refl|done]..].
  assert (untouched s (set_users (es_simple_users (rt_state s))
    (<[id:=view]> (es_view_users (rt_state s))) (rt_active_simple s) (rt_active_view s) s))
    as Hu by (split; simpl; [done|done|by rewrite lookup_insert_ne|done..]).
  case_bool_decide; by injection Hr as <- <-.
Qed.

Lemma framed_current_application : framed current_application (fun _ => True).
Proof.
  intros s r s' Hs. unfold current_application.
  destruct (rt_applications s); intros [= <- <-]; (split; [apply untouched_refl|done]).
Qed.
Lemma framed_ret {A} (a : A) (Q : A -> Prop) : Q a -> framed (mret a) Q.
Proof. intros HQ s r s' Hs [= <- <-]. split; [apply untouched_refl|]. by intros ? [= <-]. Qed.
Lemma framed_gets {A} (f : RuntimeState -> A) : framed (gets f) (fun _ => True).
Proof. intros s r s' Hs [= <- <-]. split; [apply untouched_refl|done]. Qed.
Lemma framed_fail {A} e (Q : A -> Prop) : framed (fail e) Q.
Proof. intros s r s' Hs [= <- <-]. split; [apply untouched_refl|done]. Qed.

Ltac framed_step :=
  lazymatch goal with
  | |- framed (mbind _ _) _ => eapply framed_bind; [|intros ? ?]
  | |- framed (mret _) _ => first [by apply (framed_ret _ (fun _ => True))|by apply framed_ret]
  | |- framed (gets _) _ => apply framed_gets
  | |- framed (fail _) _ => apply framed_fail
  | |- framed (lift _) _ => apply framed_lift
  | |- framed (rt_ensure _ _) _ => apply framed_lift
  | |- framed application_id _ => apply framed_application_id
  | |- framed current_application _ => apply framed_current_application
  | |- framed (if ?b then _ else _) _ => destruct b
  | |- framed (match ?o with Some _ => _ | None => _ end) _ => destruct o
  | |- framed (let '(_, _) := ?p in _) _ => destruct p
  | |- framed (modify (fun s => set_users _ _ _ _ s)) _ =>
      apply framed_set_users; intros ?; rewrite ?lookup_insert_ne by done; set_solver
  | |- framed (modify _) _ => apply framed_modify; intros ?; by split
  end.
Ltac solve_framed := repeat framed_step.

Lemma framed_active_view : framed active_view (fun p => p.1 <> other).
Proof.
  unfold active_view. do 2 (framed_step; [solve_framed|]).
  framed_step; [solve_framed|]. framed_step; [solve_framed|]. by apply framed_ret.
Qed.

Lemma framed_counts :
  framed (increment_num_reads runtime_limits) (fun _ => True) /\
  (forall n, framed (increment_bytes_read runtime_limits n) (fun _ => True)) /\
  (forall n, framed (increment_bytes_written runtime_limits n) (fun _ => True)).
Proof.
  unfold increment_num_reads, increment_bytes_read, increment_bytes_written.
  split_and!; [|intros n..]; solve_framed.
Qed.

Lemma framed_handle_base {X} (request : base_request X) :
  framed (handle_base chain_id runtime_limits request) (fun _ => True).
Proof.
  destruct framed_counts as (Hn & Hr & _).
  destruct request; simpl; unfold unlock_view; solve_framed; eauto using framed_load_simple,
    framed_load_view, framed_active_view.
  intros s r s' Hs Hid. by destruct (framed_application_id s r s' Hs Hid).
Qed.

Lemma framed_write_batch_and_unlock batch :
  framed (write_batch_and_unlock runtime_limits batch) (fun _ => True).
Proof.
  destruct framed_counts as (_ & _ & Hw). unfold write_batch_and_unlock.
  eapply framed_bind; [apply Hw|]. intros _ _. eapply framed_bind; [apply framed_active_view|].
  intros [id view] Hid. simpl in Hid. unfold unlock_view. solve_framed.
Qed.

Lemma framed_handle_contract {X} (request : contract_request X) :
  is_call request = false ->
  framed (handle_contract chain_id runtime_limits run request) (fun _ => True).
Proof.
  intros Hcall. destruct request; simpl; try done; solve_framed; eauto using framed_handle_base,
    framed_load_simple, framed_write_batch_and_unlock.
Qed.

End isolation.

(** Applications are isolated from each other.  A request other than a call,
    whether it succeeds or fails, leaves the states of all the applications but
    the current one as they are, and does not take or release their locks. *)
Theorem applications_isolated `{UserCode} chain_id limits run X (request : contract_request X)
    s r s' other :
  is_call request = false ->
  (forall status, head (rt_applications s) = Some status -> status_id status <> other) ->
  handle_contract chain_id limits run request s = Some (r, s') ->
  es_simple_users (rt_state s') !! other = es_simple_users (rt_state s) !! other /\
  es_view_users (rt_state s') !! other = es_view_users (rt_state s) !! other /\
  (other ∈ rt_active_simple s' <-> other ∈ rt_active_simple s) /\
  (other ∈ rt_active_view s' <-> other ∈ rt_active_view s).
Proof.
  intros Hcall Hother Hr.
  by destruct (framed_handle_contract chain_id limits run other request Hcall s r s' Hother Hr)
    as [[] _].
Qed.

(** ** Examples *)

Module RuntimeExamples.
Import RegistryExamples SystemExamples.

(** Code that makes one request and stops if it fails. *)
Definition ask {X A} (request : contract_request X) (k : X -> prog contract_request A)
    : prog contract_request A :=
  Ask request (fun answer =>
    match answer with Ok x => k x | Err e => Return (Err e) | Panic => Return Panic end).

(** An application that calls application 1 for every operation. *)
Definition caller : UserApplication :=
  {| ua_initialize _ _ := Return (Ok default_result);
     ua_execute_operation _ operation :=
       ask (TryCallApplication true (app 1) operation []) (fun _ => Return (Ok default_result));
     ua_execute_message _ _ := Return (Ok default_result);
     ua_handle_application_call _ _ _ := Return (Err UserError);
     ua_handle_session_call _ _ _ _ := Return (Err UserError);
     ua_handle_query _ _ := Return (Ok []) |}.

(** An application that stores the argument of a call, and fails without one. *)
Definition callee : UserApplication :=
  {| ua_initialize _ _ := Return (Ok default_result);
     ua_execute_operation _ _ := Return (Ok default_result);
     ua_execute_message _ _ := Return (Ok default_result);
     ua_handle_application_call _ argument _ :=
       match argument with
       | [] => Return (Err UserError)
       | _ =>
           ask (ContractBase LockViewUserState) (fun _ =>
           ask (WriteBatchAndUnlock [Put [1] argument]) (fun _ =>
           Return (Ok {| acr_value := [7]; acr_execution_result := default_result;
                         acr_create_sessions := [] |})))
       end;
     ua_handle_session_call _ _ _ _ := Return (Err UserError);
     ua_handle_query _ _ := Return (Ok []) |}.

#[export] Instance example_code : UserCode :=
  {| get_user_application description :=
       Ok (if mid_index (desc_creation description) =? 1 then callee else caller);
     user_store := ∅;
     user_base_key _ := [] |}.

Definition example_limits : RuntimeLimits :=
  {| lim_max_budget_num_reads := 10; lim_max_budget_bytes_read := 10;
     lim_max_budget_bytes_written := 10; lim_maximum_bytes_left_to_read := 10;
     lim_maximum_bytes_left_to_write := 10 |}.

(** Application 2 runs for owner 5. *)
Definition started : RuntimeState :=
  {| rt_remaining_fuel := 100; rt_num_reads := 0; rt_bytes_read := 0; rt_bytes_written := 0;
     rt_applications :=
       [{| status_id := app 2; status_parameters := []; status_signer := Some 5 |}];
     rt_state := {| es_system := set_registry registry state; es_simple_users := ∅;
                    es_view_users := ∅ |};
     rt_sessions := {| session_counters := ∅; session_states := ∅ |};
     rt_active_simple := ∅; rt_active_view := ∅; rt_active_sessions := ∅; rt_results := [] |}.

Definition code (argument : bytes) : prog contract_request (RawExecutionResult bytes) :=
  ua_execute_operation caller by_owner argument.

Definition outcome (argument : bytes)
    : option (result ExecutionError (RawExecutionResult bytes) * RuntimeState) :=
  run_contract 1 example_limits 2 _ (code argument) started.

Definition final (argument : bytes) : RuntimeState :=
  match outcome argument with Some (_, s) => s | None => started end.

Lemma started_inv : runtime_inv (Some 5) started.
Proof.
  split; [done| | |by vm_compute].
  - constructor; [by right|constructor].
  - intros id Hid. by apply elem_of_empty in Hid.
Qed.

Lemma code_ok argument : panic_free (code argument) /\ strict (code argument).
Proof. split; [by intros [| |]|by split]. Qed.

Lemma example_panic_free : code_panic_free.
Proof.
  intros description. simpl. destruct (_ =? 1).
  - split_and!; try done. intros context [|b argument] sessions; simpl; [done|].
    intros [| |] Ha; try done. intros [| |] Hb; done.
  - split_and!; try done. intros context operation. by intros [| |].
Qed.

Lemma example_strict : code_strict.
Proof.
  intros description c. simpl. intros [= <-]. destruct (_ =? 1); split; try done.
  intros context [|b argument] sessions; simpl; done.
Qed.


Lemma runtime_never_panics_witness :
  Err UserError <> (Panic : result ExecutionError (RawExecutionResult bytes)).
Proof.
  apply (runtime_never_panics 1 example_limits (Some 5) 2 _ (code []) started (Err UserError) (final [])
    example_panic_free (proj1 (code_ok [])) started_inv).
  by vm_compute.
Defined.

Lemma strict_code_tidy_witness :
  rt_applications (final [3]) = rt_applications started /\
  rt_bytes_written (final [3]) = 2 /\ within 10 0 2.
Proof.
  destruct (strict_code_tidy 1 example_limits 2 _ (code [3]) started default_result (final [3])
    example_strict (proj2 (code_ok [3]))) as (Hst & _ & _ & Hw); [by vm_compute|].
  split_and!; [done|by vm_compute|exact Hw].
Defined.

(** Application 2 locks its own state; application 1 is not affected. *)
Definition locked : RuntimeState :=
  match handle_contract 1 example_limits (run_contract 1 example_limits 2) TryReadAndLockMyState started with
  | Some (_, s) => s
  | None => started
  end.

Lemma applications_isolated_witness :
  es_simple_users (rt_state locked) !! app 2 = Some [] /\
  es_simple_users (rt_state locked) !! app 1 = es_simple_users (rt_state started) !! app 1.
Proof.
  split; [by vm_compute|].
  destruct (applications_isolated 1 example_limits (run_contract 1 example_limits 2) bytes
    TryReadAndLockMyState started (Ok []) locked (app 1))
    as (Hs & _); [done| |by vm_compute|exact Hs].
  by intros status [= <-].
Defined.

End RuntimeExamples.
