(* ===== verification/Execution.v ===== *)
(** * Execution of operations and messages

    [linera-execution/src/execution.rs]: the execution state of a chain runs
    system operations itself and hands the others to user applications, charges
    for what they use, and announces an application to the recipients of its
    messages.

    An action that fails returns the error only: the callers drop the state. *)

From S2P Require Import Prelude Numbers Types Crypto Committees Policy Bcs Inbox Errors Registry.
From S2P Require Import System Batches KeyValueStore Runtime.

(** ** Operations *)

Inductive UserAction :=
| ActionInitialize (context : OperationContext) (argument : bytes)
| ActionOperation (context : OperationContext) (operation : bytes)
| ActionMessage (context : MessageContext) (message : bytes).

Definition action_signer (self : UserAction) : option Owner :=
  match self with
  | ActionInitialize context _ => opctx_authenticated_signer context
  | ActionOperation context _ => opctx_authenticated_signer context
  | ActionMessage context _ => msgctx_authenticated_signer context
  end.

Definition action_code (code : UserApplication) (action : UserAction)
    : prog contract_request (RawExecutionResult bytes) :=
  match action with
  | ActionInitialize context argument => ua_initialize code context argument
  | ActionOperation context operation => ua_execute_operation code context operation
  | ActionMessage context message => ua_execute_message code context message
  end.

(** [ExecutionRuntime::new]. *)
Definition runtime_new (applications : list ApplicationStatus) (state : ExecutionState) (fuel : Z)
    : RuntimeState :=
  {| rt_remaining_fuel := fuel; rt_num_reads := 0; rt_bytes_read := 0; rt_bytes_written := 0;
     rt_applications := applications; rt_state := state;
     rt_sessions := {| session_counters := ∅; session_states := ∅ |};
     rt_active_simple := ∅; rt_active_view := ∅; rt_active_sessions := ∅; rt_results := [] |}.

Definition set_system (system : SystemState) (state : ExecutionState) : ExecutionState :=
  {| es_system := system; es_simple_users := es_simple_users state;
     es_view_users := es_view_users state |}.

(** The messages that register an application with the recipients of others. *)
Definition register_messages (applications : list UserApplicationDescription)
    (messages : list (RawOutgoingMessage bytes)) : list (RawOutgoingMessage SystemMessage) :=
  (fun message =>
     {| raw_destination := raw_destination message; raw_authenticated := false;
        raw_is_skippable := true; raw_message := MsgRegisterApplications applications |}) <$>
    messages.

(** [RuntimeLimits::default], for queries. *)
Definition default_limits : RuntimeLimits :=
  {| lim_max_budget_num_reads := u64_MAX / 2; lim_max_budget_bytes_read := u64_MAX / 2;
     lim_max_budget_bytes_written := u64_MAX / 2; lim_maximum_bytes_left_to_read := u64_MAX / 2;
     lim_maximum_bytes_left_to_write := u64_MAX / 2 |}.

Inductive Query :=
| QuerySystem
| QueryUser (application_id : UserApplicationId) (bytes : bytes).
Inductive Response :=
| ResponseSystem (chain_id : ChainId) (balance : Amount)
| ResponseUser (bytes : bytes).

Section execution.
Context `{Crypto, Bcs, UserCode}.

(** The chain of the state, and the depth of the calls between applications. *)
Context (this_chain : ChainId) (depth : nat).

(** The state after an action, the tracker and the results. *)
Notation executed := (ExecutionState * ResourceTracker * list ExecutionResult)%type.

(** What [run_user_action] does once the code of the application has returned. *)
Definition finish_user_action (application_id : UserApplicationId) (signer : option Owner)
    (policy : ResourceControlPolicy) (tracker : ResourceTracker)
    (call_result : result ExecutionError (RawExecutionResult bytes)) (s : RuntimeState)
    : result ExecutionError executed :=
  result ← match call_result with
           | Err UserError => Ok default_result
           | call_result => call_result
           end;
  let result := with_authenticated_signer signer result in
  let system := es_system (rt_state s) in
  '(balance, tracker) ←
    map_err ExecPricingError
      (update_limits (sys_balance system) policy (runtime_counts s) tracker);
  let state := set_system (set_balance balance system) (rt_state s) in
  assertion (bool_decide (length (rt_applications s) = 1%nat)) ;;
  assertion (bool_decide (status_id <$> last (rt_applications s) = Some application_id)) ;;
  applications ← map_err ExecSystemError
    (describe_applications_with_dependencies (sys_registry (es_system state))
       [application_id] ∅);
  let system_messages := register_messages applications (res_messages result) in
  let results := rt_results s ++
    match system_messages with
    | [] => []
    | _ => [ResultSystem {| res_authenticated_signer := None; res_messages := system_messages;
                            res_subscribe := []; res_unsubscribe := [] |}]
    end ++ [ResultUser application_id result] in
  ensure (bool_decide (session_states (rt_sessions s) = ∅)) SessionWasNotClosed ;;
  Ok (state, tracker, results).

Definition run_user_action (application_id : UserApplicationId) (chain_id : ChainId)
    (action : UserAction) (policy : ResourceControlPolicy) (tracker : ResourceTracker)
    (self : ExecutionState) : result ExecutionError executed :=
  let balance := sys_balance (es_system self) in
  let runtime_limits := limits policy balance tracker in
  let initial_remaining_fuel := remaining_fuel policy balance in
  description ← map_err ExecSystemError
    (describe_application (sys_registry (es_system self)) application_id);
  application ← get_user_application description;
  let signer := action_signer action in
  let applications :=
    [{| status_id := application_id; status_parameters := desc_parameters description;
        status_signer := signer |}] in
  assertion (chain_id =? this_chain) ;;
  match run_contract chain_id runtime_limits depth _ (action_code application action)
          (runtime_new applications self initial_remaining_fuel) with
  | Some (call_result, s) =>
      finish_user_action application_id signer policy tracker call_result s
  | None => Panic
  end.

Definition execute_operation (context : OperationContext) (operation : Operation)
    (policy : ResourceControlPolicy) (tracker : ResourceTracker) (self : ExecutionState)
    : result ExecutionError executed :=
  assertion (opctx_chain_id context =? this_chain) ;;
  match operation with
  | SystemOp op =>
      '(system, result, new_application) ←
        map_err ExecSystemError (system_execute_operation context op (es_system self));
      let self := set_system system self in
      let result := with_authenticated_signer (opctx_authenticated_signer context) result in
      let results := [ResultSystem result] in
      match new_application with
      | Some (application_id, argument) =>
          '(self, tracker, more) ←
            run_user_action application_id (opctx_chain_id context)
              (ActionInitialize context argument) policy tracker self;
          Ok (self, tracker, results ++ more)
      | None => Ok (self, tracker, results)
      end
  | UserOp application_id bytes =>
      run_user_action application_id (opctx_chain_id context) (ActionOperation context bytes)
        policy tracker self
  end.

Definition execute_message (context : MessageContext) (message : Message)
    (policy : ResourceControlPolicy) (tracker : ResourceTracker) (self : ExecutionState)
    : result ExecutionError executed :=
  assertion (msgctx_chain_id context =? this_chain) ;;
  match message with
  | SystemMsg message =>
      '(system, result) ←
        map_err ExecSystemError (system_execute_message context message (es_system self));
      Ok (set_system system self, tracker, [ResultSystem result])
  | UserMsg application_id bytes =>
      run_user_action application_id (msgctx_chain_id context) (ActionMessage context bytes)
        policy tracker self
  end.

Definition query_application (chain_id : ChainId) (query : Query) (self : ExecutionState)
    : result ExecutionError (ExecutionState * Response) :=
  assertion (chain_id =? this_chain) ;;
  match query with
  | QuerySystem =>
      let '(chain_id, balance) := system_handle_query chain_id (es_system self) in
      Ok (self, ResponseSystem chain_id balance)
  | QueryUser application_id bytes =>
      description ← map_err ExecSystemError
        (describe_application (sys_registry (es_system self)) application_id);
      application ← get_user_application description;
      let applications :=
        [{| status_id := application_id; status_parameters := desc_parameters description;
            status_signer := None |}] in
      match run_service chain_id default_limits depth _
              (ua_handle_query application chain_id bytes) (runtime_new applications self 0) with
      | Some (response, s) =>
          response ← response;
          assertion (bool_decide (length (rt_applications s) = 1%nat)) ;;
          assertion (bool_decide (status_id <$> last (rt_applications s) = Some application_id)) ;;
          Ok (rt_state s, ResponseUser response)
      | None => Panic
      end
  end.

End execution.

(** ** Theorems *)

(** The prices of what was used are charged without a panic. *)
Lemma update_limits_no_panic balance policy counts tracker :
  update_limits balance policy counts tracker <> Panic.
Proof.
  unfold update_limits, sub_assign_fees, fuel_price, storage_num_reads_price,
    storage_bytes_read_price, storage_bytes_written_price, try_mul, try_sub_assign.
  repeat (apply bind_no_panic; [apply map_err_no_panic, ok_or_no_panic|intros ? _]). done.
Qed.

Lemma describe_with_dependencies_no_panic r ids extra :
  describe_applications_with_dependencies r ids extra <> Panic.
Proof.
  unfold describe_applications_with_dependencies.
  pose proof (find_dependencies_no_panic r extra ids) as Hp.
  destruct (find_dependencies r extra ids) as [sorted|e|]; simpl; [|done..]. clear.
  induction sorted as [|id sorted IH]; simpl; [done|].
  pose proof (find_description_not_panic r extra id) as Hp.
  destruct (find_description r extra id); simpl; [|done..]. by destruct (describe_all _ _ _).
Qed.

Section theorems.
Context `{Crypto, Bcs, UserCode}.
Context (this_chain : ChainId) (depth : nat).

(** A result that only announces applications, without authentication. *)
Definition announcement (r : ExecutionResult) : Prop :=
  exists raw, r = ResultSystem raw /\ res_authenticated_signer raw = None /\
    Forall (fun m => raw_authenticated m = false /\ raw_is_skippable m = true /\
              exists applications, raw_message m = MsgRegisterApplications applications)
      (res_messages raw).

Lemma runtime_new_inv status state fuel :
  runtime_inv (status_signer status) (runtime_new [status] state fuel).
Proof.
  split; simpl; [done| | |by vm_compute].
  - constructor; [by right|constructor].
  - intros id Hid. by apply elem_of_empty in Hid.
Qed.

Lemma register_messages_announcement applications messages :
  announcement (ResultSystem {| res_authenticated_signer := None;
    res_messages := register_messages applications messages;
    res_subscribe := []; res_unsubscribe := [] |}).
Proof.
  eexists. split_and!; [done..|]. simpl. apply Forall_fmap, Forall_true. intros m. simpl. eauto.
Qed.

(** What a user action does to the chain. *)
Lemma run_user_action_inv application_id chain_id action policy tracker self
    self' tracker' results :
  run_user_action this_chain depth application_id chain_id action policy tracker self =
    Ok (self', tracker', results) ->
  (exists counts balance,
     0 <= count_num_reads counts /\ 0 <= count_bytes_read counts /\
     0 <= count_bytes_written counts /\
     update_limits (sys_balance (es_system self)) policy counts tracker = Ok (balance, tracker') /\
     es_system self' = set_balance balance (es_system self)) /\
  Forall (fun r => result_ok (action_signer action) r \/ announcement r) results.
Proof.
  unfold run_user_action. intros Hrun.
  apply bind_Ok in Hrun as (description & _ & Hrun). apply bind_Ok in Hrun as (code & _ & Hrun).
  apply bind_Ok in Hrun as ([] & _ & Hrun).
  set (status := {| status_id := application_id; status_parameters := desc_parameters description;
                    status_signer := action_signer action |}) in Hrun.
  destruct (run_contract _ _ _ _ _ _) as [[call_result s]|] eqn:Hcode; [|done].
  destruct (safe_run_contract chain_id _ (action_signer action) False (False_ind _) depth _ _
    ltac:(done) _ _ _ (runtime_new_inv status self _) Hcode)
    as ([_ _ _ (Hr1 & Hr2 & Hr3)] & [Hsys _ (new & Hres & Hnew)] & _).
  simpl in Hsys, Hres. unfold finish_user_action in Hrun.
  apply bind_Ok in Hrun as (raw & _ & Hrun). apply bind_Ok in Hrun as ([balance t] & Hlim & Hrun).
  apply map_err_Ok in Hlim. rewrite Hsys in *.
  apply bind_Ok in Hrun as ([] & _ & Hrun). apply bind_Ok in Hrun as ([] & _ & Hrun).
  apply bind_Ok in Hrun as (applications & _ & Hrun).
  apply bind_Ok in Hrun as ([] & _ & [= <- <- <-]). split.
  - eexists _, balance. split_and!; [..|exact Hlim|done]; done.
  - rewrite Hres. apply Forall_app_2; [|apply Forall_app_2].
    + eapply Forall_impl; [exact Hnew|]. by left.
    + pose proof (register_messages_announcement applications (res_messages raw)) as Ha.
      simpl. destruct (register_messages _ _); constructor; [|constructor]. by right.
    + constructor; [|constructor]. left. eexists _, _. split; [done|]. by right.
Qed.

(** A user action only charges the chain.  After an operation, a message or
    an initialization by a user application, the system state differs from the
    one before by the fee alone, which is the price of the resources counted by
    the runtime and is not negative; every result is either one of an
    application, authenticated by the signer of the action or by nobody, or an
    unauthenticated announcement of applications. *)
Theorem user_action_only_charges application_id chain_id action policy tracker self
    self' tracker' results :
  policy_wf policy ->
  run_user_action this_chain depth application_id chain_id action policy tracker self =
    Ok (self', tracker', results) ->
  (exists counts balance,
     update_limits (sys_balance (es_system self)) policy counts tracker = Ok (balance, tracker') /\
     es_system self' = set_balance balance (es_system self) /\
     balance <= sys_balance (es_system self)) /\
  Forall (fun r => result_ok (action_signer action) r \/ announcement r) results.
Proof.
  intros Hpolicy Hrun.
  destruct (run_user_action_inv _ _ _ _ _ _ _ _ _ Hrun)
    as ((counts & balance & Hc1 & Hc2 & Hc3 & Hlim & Hsys) & Hres).
  split; [|done]. exists counts, balance. split_and!; [done..|].
  by apply (update_limits_le _ _ _ _ _ _ Hpolicy Hc1 Hc2 Hc3 Hlim).
Qed.

Lemma action_code_panic_free code action :
  application_panic_free code -> panic_free (action_code code action).
Proof. intros (Hi & Ho & Hm & _). destruct action; simpl; auto. Qed.

(** With the stack as it was, the end of an action does not panic. *)
Lemma finish_no_panic application_id signer policy tracker call_result s status :
  rt_applications s = [status] -> status_id status = application_id -> call_result <> Panic ->
  finish_user_action application_id signer policy tracker call_result s <> Panic.
Proof.
  intros Hst Hid Hnp. unfold finish_user_action. apply bind_no_panic; [by repeat case_match|].
  intros raw _. apply bind_no_panic; [apply map_err_no_panic, update_limits_no_panic|].
  intros [balance t] _. rewrite Hst.
  rewrite (bool_decide_eq_true_2 (length [status] = 1%nat)) by done.
  rewrite (bool_decide_eq_true_2 (status_id <$> last [status] = _)) by (simpl; congruence).
  simpl. apply bind_no_panic; [apply map_err_no_panic, describe_with_dependencies_no_panic|].
  intros applications _. unfold ensure. by destruct (bool_decide _).
Qed.

(** When user actions panic.  With code that does not panic and stops at its
    first error, an action panics only if its calls nest deeper than the bound of
    the model, or if it ended in a user error with another application still on
    the stack. *)
Theorem user_action_panics_only application_id action policy tracker self :
  code_panic_free -> code_strict ->
  (forall description code, get_user_application description = Ok code ->
     strict (action_code code action)) ->
  run_user_action this_chain depth application_id this_chain action policy tracker self = Panic ->
  exists description code,
    describe_application (sys_registry (es_system self)) application_id = Ok description /\
    get_user_application description = Ok code /\
    let status := {| status_id := application_id;
                     status_parameters := desc_parameters description;
                     status_signer := action_signer action |} in
    let balance := sys_balance (es_system self) in
    match run_contract this_chain (limits policy balance tracker) depth _
            (action_code code action)
            (runtime_new [status] self (remaining_fuel policy balance)) with
    | None => True
    | Some (call_result, s) => call_result = Err UserError /\ rt_applications s <> [status]
    end.
Proof.
  intros Hfree Hstrict Haction. unfold run_user_action. rewrite Z.eqb_refl.
  unfold describe_application. destruct (known_applications _ !! _) as [description|]; [|done].
  simpl. pose proof (Hfree description) as Hcode.
  destruct (get_user_application description) as [code| |] eqn:Hget; [|done..]. simpl.
  intros Hpanic. exists description, code. split_and!; [done..|]. cbv zeta.
  set (status := {| status_id := application_id; status_parameters := desc_parameters description;
                    status_signer := action_signer action |}) in *.
  destruct (run_contract _ _ _ _ _ _) as [[call_result s]|] eqn:Hrun; [|done].
  destruct (safe_run_contract this_chain _ (action_signer action) True (fun _ => Hfree) depth _ _
    ltac:(intros _; by apply action_code_panic_free) _ _ _ (runtime_new_inv status self _) Hrun)
    as (_ & _ & Hnp & _). specialize (Hnp I).
  assert (rt_applications s = [status] ->
    finish_user_action application_id (action_signer action) policy tracker call_result s <> Panic)
    as Hfinish by (intros; by eapply finish_no_panic).
  destruct call_result as [raw|e|]; [|destruct e|]; try done.
  - destruct Hfinish; [|done].
    by destruct (balanced_run_contract _ _ _ _ _ Hstrict (Haction _ _ Hget) _ _ _ Hrun).
  - split; [done|]. intros Hst. by destruct (Hfinish Hst).
Qed.

End theorems.

(** ** Examples *)

Module ExecutionExamples.
Import SymbolicCrypto SymbolicBcs RegistryExamples SystemExamples RuntimeExamples.

Definition prices : ResourceControlPolicy :=
  {| policy_certificate := 0; policy_fuel := 0; policy_storage_num_reads := 0;
     policy_storage_bytes_read := 1; policy_storage_bytes_written := 1;
     policy_maximum_bytes_read_per_block := u64_MAX;
     policy_maximum_bytes_written_per_block := u64_MAX; policy_messages := 0 |}.
Definition unused : ResourceTracker :=
  {| used_fuel := 0; num_reads := 0; bytes_read := 0; bytes_written := 0;
     maximum_bytes_left_to_read := 100; maximum_bytes_left_to_write := 100 |}.

(** The chain of the examples on the runtime: application 2 calls application 1. *)
Definition start : ExecutionState := rt_state started.

Definition call (argument : bytes) : UserAction := ActionOperation by_owner argument.

Definition run (argument : bytes)
    : result ExecutionError (ExecutionState * ResourceTracker * list ExecutionResult) :=
  run_user_action 1 2 (app 2) 1 (call argument) prices unused start.

Definition ran (argument : bytes) : ExecutionState * ResourceTracker * list ExecutionResult :=
  match run argument with Ok r => r | _ => (start, unused, []) end.

(** A call that stores two bytes costs two tokens. *)
Lemma user_action_only_charges_witness :
  sys_balance (es_system (ran [3]).1.1) = 1 /\
  exists balance, es_system (ran [3]).1.1 = set_balance balance (es_system start).
Proof.
  split; [by vm_compute|].
  destruct (user_action_only_charges 1 2 (app 2) 1 (call [3]) prices unused start
    (ran [3]).1.1 (ran [3]).1.2 (ran [3]).2) as ((counts & balance & _ & Hsys & _) & _);
    [decide_now|by vm_compute|].
  by exists balance.
Defined.

(** The called application fails, and stays on the stack. *)
Lemma user_action_panics_only_witness :
  exists description code,
    get_user_application description = Ok code /\
    match run_contract 1 (limits prices 3 unused) 2 _ (action_code code (call []))
            (runtime_new [{| status_id := app 2; status_parameters := desc_parameters description;
                             status_signer := Some 5 |}] start (remaining_fuel prices 3)) with
    | None => True
    | Some (call_result, s) => call_result = Err UserError
    end.
Proof.
  destruct (user_action_panics_only 1 2 (app 2) (call []) prices unused start
    example_panic_free example_strict) as (description & code & _ & Hget & Hrun).
  - intros description code [= <-]. simpl. destruct (_ =? 1); simpl; [done|by split].
  - by vm_compute.
  - exists description, code. split; [exact Hget|]. cbv zeta in Hrun.
    change (sys_balance (es_system start)) with 3 in Hrun. simpl action_signer in Hrun.
    destruct (run_contract 1 (limits prices 3 unused) 2 _ _ _) as [[]|]; [|exact I].
    exact (proj1 Hrun).
Defined.

(** A user error in a called application makes the validator panic.  The error
    leaves the called application on the stack, and the end of the action, which
    ignores user errors, asserts that the stack holds one application. *)
Theorem nested_user_error_panics :
  run_user_action 1 2 (app 2) 1 (call []) prices unused start = Panic /\
  exists s, run_contract 1 (limits prices 3 unused) 2 _ (action_code caller (call []))
      (runtime_new [{| status_id := app 2; status_parameters := []; status_signer := Some 5 |}]
         start (remaining_fuel prices 3)) = Some (Err UserError, s) /\
    status_id <$> rt_applications s = [app 1; app 2].
Proof. split; [by vm_compute|]. eexists. split; by vm_compute. Qed.

End ExecutionExamples.
