(* ===== verification/ChainState.v ===== *)
(** * The state of a chain

    [linera-chain/src/chain.rs]: the execution state of a chain with its tip,
    its consensus state and its mailboxes.  Blocks are executed here: incoming
    messages first, then operations, each followed by the scheduling of the
    messages it caused.

    The collections of mailboxes and channels are maps in which an entry that is
    loaded exists from then on; loading the same entry twice for writing fails
    with [TryLockError].  The sets the code iterates over in the order of their
    hashes ([HashSet]) are iterated here in the order of [elements]: the targets
    are distinct, so the order has no effect.  The hash of the execution state is
    computed by generated code and is a parameter. *)

From S2P Require Import Prelude Numbers Types Crypto Committees Policy Bcs Inbox Outbox Errors.
From S2P Require Import Certificates Managers Registry System Batches KeyValueStore Runtime.
From S2P Require Import Execution.

(** ** Data *)

Record ChainTipState := {
  tip_block_hash : option CryptoHash;
  next_block_height : BlockHeight;
}.

Record ChannelState := {
  subscribers : gset ChainId;
  channel_block_height : option BlockHeight;
}.
Definition channel_default : ChannelState :=
  {| subscribers := ∅; channel_block_height := None |}.

Record ChainState := {
  ch_execution : ExecutionState;
  ch_execution_hash : option CryptoHash;
  ch_tip : ChainTipState;
  ch_manager : ChainManager;
  ch_confirmed_log : list CryptoHash;
  ch_received_log : list ChainAndHeight;
  ch_inboxes : gmap Origin InboxState;
  ch_outboxes : gmap Target OutboxState;
  ch_outbox_counters : gmap BlockHeight Z;
  ch_channels : gmap ChannelFullName ChannelState;
}.

Definition set_execution (execution : ExecutionState) (s : ChainState) : ChainState :=
  {| ch_execution := execution; ch_execution_hash := ch_execution_hash s; ch_tip := ch_tip s;
     ch_manager := ch_manager s; ch_confirmed_log := ch_confirmed_log s;
     ch_received_log := ch_received_log s; ch_inboxes := ch_inboxes s;
     ch_outboxes := ch_outboxes s; ch_outbox_counters := ch_outbox_counters s;
     ch_channels := ch_channels s |}.

(** The hash of the execution state and the consensus state, set together. *)
Definition set_consensus (hash : option CryptoHash) (manager : ChainManager) (s : ChainState)
    : ChainState :=
  {| ch_execution := ch_execution s; ch_execution_hash := hash; ch_tip := ch_tip s;
     ch_manager := manager; ch_confirmed_log := ch_confirmed_log s;
     ch_received_log := ch_received_log s; ch_inboxes := ch_inboxes s;
     ch_outboxes := ch_outboxes s; ch_outbox_counters := ch_outbox_counters s;
     ch_channels := ch_channels s |}.

Definition set_inboxes (inboxes : gmap Origin InboxState) (s : ChainState) : ChainState :=
  {| ch_execution := ch_execution s; ch_execution_hash := ch_execution_hash s;
     ch_tip := ch_tip s; ch_manager := ch_manager s; ch_confirmed_log := ch_confirmed_log s;
     ch_received_log := ch_received_log s; ch_inboxes := inboxes;
     ch_outboxes := ch_outboxes s; ch_outbox_counters := ch_outbox_counters s;
     ch_channels := ch_channels s |}.

Definition set_outboxes (outboxes : gmap Target OutboxState) (counters : gmap BlockHeight Z)
    (s : ChainState) : ChainState :=
  {| ch_execution := ch_execution s; ch_execution_hash := ch_execution_hash s;
     ch_tip := ch_tip s; ch_manager := ch_manager s; ch_confirmed_log := ch_confirmed_log s;
     ch_received_log := ch_received_log s; ch_inboxes := ch_inboxes s;
     ch_outboxes := outboxes; ch_outbox_counters := counters;
     ch_channels := ch_channels s |}.

Definition set_channels (channels : gmap ChannelFullName ChannelState) (s : ChainState)
    : ChainState :=
  {| ch_execution := ch_execution s; ch_execution_hash := ch_execution_hash s;
     ch_tip := ch_tip s; ch_manager := ch_manager s; ch_confirmed_log := ch_confirmed_log s;
     ch_received_log := ch_received_log s; ch_inboxes := ch_inboxes s;
     ch_outboxes := ch_outboxes s; ch_outbox_counters := ch_outbox_counters s;
     ch_channels := channels |}.

Definition push_received (entry : ChainAndHeight) (s : ChainState) : ChainState :=
  {| ch_execution := ch_execution s; ch_execution_hash := ch_execution_hash s;
     ch_tip := ch_tip s; ch_manager := ch_manager s; ch_confirmed_log := ch_confirmed_log s;
     ch_received_log := ch_received_log s ++ [entry]; ch_inboxes := ch_inboxes s;
     ch_outboxes := ch_outboxes s; ch_outbox_counters := ch_outbox_counters s;
     ch_channels := ch_channels s |}.

(** ** Block chaining *)

Definition verify_block_chaining (new_block : Block) (self : ChainTipState)
    : result ChainError unit :=
  ensure (block_height new_block =? next_block_height self)
    (UnexpectedBlockHeight (next_block_height self) (block_height new_block)) ;;
  ensure (bool_decide (block_previous_block_hash new_block = tip_block_hash self))
    UnexpectedPreviousBlockHash.

Definition already_validated_block (height : BlockHeight) (self : ChainTipState)
    : result ChainError bool :=
  ensure (height <=? next_block_height self) (MissingEarlierBlocks (next_block_height self)) ;;
  Ok (height <? next_block_height self).

(** ** Entries of collections *)

Section collections.
Context {K V : Type} `{Countable K} (d : V).

(** The entry of a collection, and the collection once it is loaded. *)
Definition entry (k : K) (m : gmap K V) : V := default d (m !! k).
Definition load_entry (k : K) (m : gmap K V) : gmap K V := <[k := entry k m]> m.

Definition try_load_entries_mut (keys : list K) (m : gmap K V) : result ViewError (gmap K V) :=
  ensure (bool_decide (NoDup keys)) ViewTryLockError ;;
  Ok (foldl (fun m k => load_entry k m) m keys).

End collections.

(** ** Outboxes *)

(** The body of the loops that schedule a height for a target. *)
Definition schedule (message : Target * BlockHeight)
    (boxes : gmap Target OutboxState * gmap BlockHeight Z)
    : result ChainError (gmap Target OutboxState * gmap BlockHeight Z) :=
  let '(target, height) := message in
  let '(outboxes, counters) := boxes in
  '(scheduled, outbox) ← map_err ChainArithmeticError
    (schedule_message height (entry outbox_default target outboxes));
  Ok (<[target := outbox]> outboxes,
      if scheduled : bool
      then <[height := wrapping_add u32_MAX (default 0 (counters !! height)) 1]> counters
      else counters).

(** Loads the outboxes of the targets and schedules the heights. *)
Definition schedule_all (messages : list (Target * BlockHeight)) (self : ChainState)
    : result ChainError ChainState :=
  outboxes ← map_err ChainViewError
    (try_load_entries_mut outbox_default messages.*1 (ch_outboxes self));
  '(outboxes, counters) ← for_each schedule messages (outboxes, ch_outbox_counters self);
  Ok (set_outboxes outboxes counters self).

(** The body of the loop of [mark_messages_as_received]. *)
Definition decrement_counter (update : BlockHeight) (counters : gmap BlockHeight Z)
    : result ChainError (gmap BlockHeight Z) :=
  counter ← expect (counters !! update);
  counter ← expect (checked_sub counter 1);
  Ok (if counter =? 0 then delete update counters else <[update := counter]> counters).

Definition chain_mark_messages_as_received (target : Target) (height : BlockHeight)
    (self : ChainState) : result ChainError (bool * ChainState) :=
  let outboxes := load_entry outbox_default target (ch_outboxes self) in
  let '(updates, outbox) :=
    mark_messages_as_received height (entry outbox_default target outboxes) in
  let outboxes := <[target := outbox]> outboxes in
  match updates with
  | [] => Ok (false, set_outboxes outboxes (ch_outbox_counters self) self)
  | _ =>
      counters ← for_each decrement_counter updates (ch_outbox_counters self);
      let outboxes :=
        if bool_decide (outbox_queue outbox = []) then delete target outboxes else outboxes in
      Ok (true, set_outboxes outboxes counters self)
  end.

Definition all_messages_delivered_up_to (height : BlockHeight) (self : ChainState) : bool :=
  match btree_first (ch_outbox_counters self) with
  | Some (key, _) => height <? key
  | None => true
  end.

(** ** Receiving and executing blocks *)

(** The hash of the execution state ([CryptoHashView::crypto_hash]). *)
Class StateHash := { crypto_hash : ExecutionState -> CryptoHash }.

(** [usize] to [u32], for indices and counts. *)
Definition try_u32 (n : nat) : result ChainError Z :=
  ok_or (try_from u32_MAX (Z.of_nat n)) (ChainArithmeticError Overflow).

(** The orders derived for [Medium] and [Origin]. *)
Definition message_id_key (id : MessageId) : list Z :=
  [mid_chain_id id; mid_height id; mid_index id].
Definition medium_key (medium : Medium) : list Z :=
  match medium with
  | Direct => [0]
  | Channel name =>
      1 :: match channel_application_id name with
           | AppSystem => [0]
           | AppUser id =>
               1 :: message_id_key (bytecode_message_id (app_bytecode_id id)) ++
                    message_id_key (app_creation id)
           end ++ channel_name name
  end.
Definition origin_key (origin : Origin) : list Z :=
  sender origin :: medium_key (origin_medium origin).

(** Whether a message of a block goes to this chain through this origin. *)
Definition belongs_to (chain_id : ChainId) (origin : Origin) (message : OutgoingMessage) : bool :=
  match out_destination message with
  | Recipient id => bool_decide (origin_medium origin = Direct) && (id =? chain_id)
  | Subscribers name =>
      bool_decide (origin_medium origin =
        Channel {| channel_application_id := message_application_id (out_message message);
                   channel_name := name |})
  end.

Definition outgoing_event (origin : Origin) (height : BlockHeight) (timestamp : Timestamp)
    (certificate_hash : CryptoHash) (index : Z) (message : OutgoingMessage) : Event :=
  {| ev_certificate_hash := certificate_hash; ev_height := height; ev_index := index;
     ev_authenticated_signer := out_authenticated_signer message;
     ev_is_skippable := out_is_skippable message; ev_timestamp := timestamp;
     ev_message := out_message message |}.

(** The credit of an incoming message to the account of the chain. *)
Definition is_chain_credit (chain_id : ChainId) (message : IncomingMessage) : option Amount :=
  match ev_message (in_event message) with
  | SystemMsg (MsgCredit account amount) =>
      if bool_decide (account = account_of_chain chain_id) then Some amount else None
  | _ => None
  end.

(** The events of the incoming messages, by origin. *)
Definition events_by_origin (messages : list IncomingMessage) : gmap Origin (list Event) :=
  foldl (fun m message =>
    <[in_origin message := default [] (m !! in_origin message) ++ [in_event message]]> m)
    ∅ messages.

(** The results of an application as messages of the block. *)
Definition outgoing_message {M} (lift : M -> Message) (signer : option Owner)
    (message : RawOutgoingMessage M) : OutgoingMessage :=
  {| out_destination := raw_destination message;
     out_authenticated_signer := if raw_authenticated message then signer else None;
     out_is_skippable := raw_is_skippable message;
     out_message := lift (raw_message message) |}.

Definition recipient_of {M} (message : RawOutgoingMessage M) : option ChainId :=
  match raw_destination message with Recipient id => Some id | Subscribers _ => None end.
Definition broadcast_of {M} (message : RawOutgoingMessage M) : option ChannelName :=
  match raw_destination message with Recipient _ => None | Subscribers name => Some name end.

Definition remove_subscriber (id : ChainId) (channel : ChannelState) : ChannelState :=
  {| subscribers := subscribers channel ∖ {[id]};
     channel_block_height := channel_block_height channel |}.
Definition add_subscriber (id : ChainId) (channel : ChannelState) : ChannelState :=
  {| subscribers := {[id]} ∪ subscribers channel;
     channel_block_height := channel_block_height channel |}.
Definition set_channel_height (height : BlockHeight) (channel : ChannelState) : ChannelState :=
  {| subscribers := subscribers channel; channel_block_height := Some height |}.

(** A new subscriber is sent the latest message of the channel. *)
Definition subscribe_info (full_name : ChannelFullName) (id : ChainId) (channel : ChannelState)
    : option (Target * BlockHeight) :=
  if bool_decide (id ∈ subscribers channel) then None
  else height ← channel_block_height channel; Some (target_channel id full_name, height).

Section process.
Context {M : Type} (application_id : GenericApplicationId) (lift : M -> Message).
Context (height : BlockHeight).

Definition full_name (name : ChannelName) : ChannelFullName :=
  {| channel_application_id := application_id; channel_name := name |}.

Definition load_channels (names : list ChannelName) (self : ChainState)
    : result ChainError ChainState :=
  channels ← map_err ChainViewError
    (try_load_entries_mut channel_default (full_name <$> names) (ch_channels self));
  Ok (set_channels channels self).

Definition update_channel (f : ChannelState -> ChannelState) (name : ChannelName)
    (self : ChainState) : ChainState :=
  set_channels
    (<[full_name name := f (entry channel_default (full_name name) (ch_channels self))]>
       (ch_channels self)) self.

(** The three updates of the channels. *)
Definition process_unsubscribe (requests : list (ChannelName * ChainId)) (self : ChainState)
    : result ChainError ChainState :=
  self ← load_channels requests.*1 self;
  Ok (foldl (fun self request => update_channel (remove_subscriber request.2) request.1 self)
        self requests).

Definition process_broadcasts (names : list ChannelName) (self : ChainState)
    : result ChainError ChainState :=
  self ← load_channels names self;
  let targets := name ← names;
    (fun id => target_channel id (full_name name)) <$>
      elements (subscribers (entry channel_default (full_name name) (ch_channels self))) in
  let self := foldl (fun self name => update_channel (set_channel_height height) name self)
    self names in
  schedule_all ((fun target => (target, height)) <$> targets) self.

Definition process_subscribe (requests : list (ChannelName * ChainId)) (self : ChainState)
    : result ChainError ChainState :=
  self ← load_channels requests.*1 self;
  let infos := omap (fun request =>
    subscribe_info (full_name request.1) request.2
      (entry channel_default (full_name request.1) (ch_channels self))) requests in
  let self := foldl (fun self request => update_channel (add_subscriber request.2) request.1 self)
    self requests in
  schedule_all infos self.

Definition process_raw_execution_result (raw_result : RawExecutionResult M)
    (progress : list OutgoingMessage * ChainState)
    : result ChainError (list OutgoingMessage * ChainState) :=
  let '(messages, self) := progress in
  let recipients : gset ChainId := list_to_set (omap recipient_of (res_messages raw_result)) in
  let channel_broadcasts : gset ChannelName :=
    list_to_set (omap broadcast_of (res_messages raw_result)) in
  let messages := messages ++
    (outgoing_message lift (res_authenticated_signer raw_result) <$> res_messages raw_result) in
  self ← schedule_all ((fun id => (target_chain id, height)) <$> elements recipients) self;
  self ← process_unsubscribe (res_unsubscribe raw_result) self;
  self ← process_broadcasts (elements channel_broadcasts) self;
  self ← process_subscribe (res_subscribe raw_result) self;
  Ok (messages, self).

End process.

Definition process_execution_result (height : BlockHeight) (result : ExecutionResult)
    (progress : list OutgoingMessage * ChainState)
    : Prelude.result ChainError (list OutgoingMessage * ChainState) :=
  match result with
  | ResultSystem result => process_raw_execution_result AppSystem SystemMsg height result progress
  | ResultUser application_id result =>
      process_raw_execution_result (AppUser application_id) (UserMsg application_id) height
        result progress
  end.

Definition process_execution_results (height : BlockHeight) (results : list ExecutionResult)
    (progress : list OutgoingMessage * ChainState)
    : result ChainError (list OutgoingMessage * ChainState) :=
  for_each (process_execution_result height) results progress.

Section chain.
Context `{Crypto, Bcs, LeaderSampling, UserCode, StateHash}.

(** The identifier of the chain, and the depth of calls between applications. *)
Context (chain_id : ChainId) (depth : nat).

Definition chain_query_application (query : Query) (self : ChainState)
    : result ChainError (ChainState * Response) :=
  '(execution, response) ← map_err (fun e => ChainExecutionError e ContextQuery)
    (query_application chain_id depth chain_id query (ch_execution self));
  Ok (set_execution execution self, response).

Definition chain_describe_application (application_id : UserApplicationId) (self : ChainState)
    : result ChainError UserApplicationDescription :=
  map_err (fun e => ChainExecutionError (ExecSystemError e) ContextDescribeApplication)
    (describe_application (sys_registry (es_system (ch_execution self))) application_id).

Definition chain_is_active (self : ChainState) : bool :=
  system_is_active (es_system (ch_execution self)).

Definition ensure_is_active (self : ChainState) : result ChainError unit :=
  if chain_is_active self then Ok () else Err (InactiveChain chain_id).

(** The origins are listed in the order of their serialization. *)
Definition validate_incoming_messages (self : ChainState) : result ChainError unit :=
  for_each (fun '(origin, inbox) _ =>
    match removed_events inbox with
    | event :: _ => Err (MissingCrossChainUpdate chain_id origin (ev_height event))
    | [] => Ok ()
    end) (sort_by (fun p => bcs_origin p.1) (map_to_list (ch_inboxes self))) ().

Definition chain_next_block_height_to_receive (origin : Origin) (self : ChainState)
    : result ChainError (ChainState * BlockHeight) :=
  let inboxes := load_entry inbox_default origin (ch_inboxes self) in
  height ← map_err ChainArithmeticError
    (next_block_height_to_receive (entry inbox_default origin inboxes));
  Ok (set_inboxes inboxes self, height).

Definition last_anticipated_block_height (origin : Origin) (self : ChainState)
    : ChainState * option BlockHeight :=
  let inboxes := load_entry inbox_default origin (ch_inboxes self) in
  (set_inboxes inboxes self, ev_height <$> last (removed_events (entry inbox_default origin inboxes))).

Definition execute_immediate_message (message_id : MessageId) (message : Message)
    (timestamp now : Timestamp) (self : ChainState) : result ChainError ChainState :=
  match message with
  | SystemMsg (MsgOpenChain ownership admin_id epoch committees) =>
      let execution := ch_execution self in
      system ← open_chain message_id ownership epoch committees admin_id timestamp
        (es_system execution);
      let execution := set_system system execution in
      let hash := crypto_hash execution in
      manager ← manager_reset (sys_ownership system) 0 now;
      Ok (set_consensus (Some hash) manager (set_execution execution self))
  | _ => Ok self
  end.

(** The body of the first loop of [receive_block]. *)
Definition receive_message (origin : Origin) (height : BlockHeight) (timestamp : Timestamp)
    (certificate_hash : CryptoHash) (now : Timestamp) (indexed : nat * OutgoingMessage)
    (progress : ChainState * list Event) : result ChainError (ChainState * list Event) :=
  let '(index, message) := indexed in
  let '(self, events) := progress in
  index ← try_u32 index;
  if belongs_to chain_id origin message then
    self ←
      match out_message message with
      | SystemMsg _ =>
          let message_id :=
            {| mid_chain_id := sender origin; mid_height := height; mid_index := index |} in
          execute_immediate_message message_id (out_message message) timestamp now self
      | UserMsg _ _ => Ok self
      end;
    Ok (self, events ++ [outgoing_event origin height timestamp certificate_hash index message])
  else Ok (self, events).

Definition receive_block (origin : Origin) (height : BlockHeight) (timestamp : Timestamp)
    (messages : list OutgoingMessage) (certificate_hash : CryptoHash) (now : Timestamp)
    (self : ChainState) : result ChainError ChainState :=
  '(self, next_height) ← chain_next_block_height_to_receive origin self;
  ensure (next_height <=? height) InternalError ;;
  '(self, events) ←
    for_each (receive_message origin height timestamp certificate_hash now) (imap pair messages)
      (self, []);
  ensure (negb (bool_decide (events = []))) InternalError ;;
  let inboxes := load_entry inbox_default origin (ch_inboxes self) in
  inbox ← map_err (fun _ => InternalError)
    (for_each add_event events (entry inbox_default origin inboxes));
  let self := set_inboxes (<[origin := inbox]> inboxes) self in
  Ok (push_received {| cah_chain_id := sender origin; cah_height := height |} self).

(** The events of one origin are removed from its inbox. *)
Definition remove_events (group : Origin * list Event) (inboxes : gmap Origin InboxState)
    : result ChainError (gmap Origin InboxState) :=
  let '(origin, events) := group in
  inbox ← map_err (chain_error_from_inbox chain_id origin)
    (for_each remove_event events (entry inbox_default origin inboxes));
  Ok (<[origin := inbox]> inboxes).

Definition remove_events_from_inboxes (block : Block) (self : ChainState)
    : result ChainError ChainState :=
  for_each (fun message _ =>
    ensure (ev_timestamp (in_event message) <=? block_timestamp block)
      (IncorrectEventTimestamp chain_id (ev_timestamp (in_event message)) (block_timestamp block)))
    (block_incoming_messages block) () ;;
  let groups := sort_by (fun group => origin_key group.1)
    (map_to_list (events_by_origin (block_incoming_messages block))) in
  inboxes ← map_err ChainViewError
    (try_load_entries_mut inbox_default groups.*1 (ch_inboxes self));
  inboxes ← for_each remove_events groups inboxes;
  Ok (set_inboxes inboxes self).

(** What [execute_block] has done so far. *)
Record BlockProgress := {
  pg_chain : ChainState;
  pg_messages : list OutgoingMessage;
  pg_message_counts : list Z;
  pg_tracker : ResourceTracker;
}.

(** The end of the body of both loops of [execute_block]. *)
Definition record_results (height : BlockHeight)
    (executed : ExecutionState * ResourceTracker * list ExecutionResult) (progress : BlockProgress)
    : result ChainError BlockProgress :=
  let '(execution, tracker, results) := executed in
  '(messages, self) ← process_execution_results height results
    (pg_messages progress, set_execution execution (pg_chain progress));
  count ← try_u32 (length messages);
  Ok {| pg_chain := self; pg_messages := messages;
        pg_message_counts := pg_message_counts progress ++ [count]; pg_tracker := tracker |}.

Definition execute_incoming_message (policy : ResourceControlPolicy) (height : BlockHeight)
    (indexed : nat * IncomingMessage) (progress : BlockProgress)
    : result ChainError BlockProgress :=
  let '(index, message) := indexed in
  index ← try_u32 index;
  let event := in_event message in
  let context :=
    {| msgctx_chain_id := chain_id; msgctx_authenticated_signer := ev_authenticated_signer event;
       msgctx_height := height; msgctx_certificate_hash := ev_certificate_hash event;
       msgctx_message_id :=
         {| mid_chain_id := sender (in_origin message); mid_height := ev_height event;
            mid_index := ev_index event |} |} in
  executed ← map_err (fun e => ChainExecutionError e (ContextIncomingMessage index))
    (execute_message chain_id depth context (ev_message event) policy (pg_tracker progress)
       (ch_execution (pg_chain progress)));
  record_results height executed progress.

Definition execute_block_operation (policy : ResourceControlPolicy) (height : BlockHeight)
    (signer : option Owner) (indexed : nat * Operation) (progress : BlockProgress)
    : result ChainError BlockProgress :=
  let '(index, operation) := indexed in
  index ← try_u32 index;
  next_message_index ← try_u32 (length (pg_messages progress));
  let context :=
    {| opctx_chain_id := chain_id; opctx_authenticated_signer := signer; opctx_height := height;
       opctx_index := index; opctx_next_message_index := next_message_index |} in
  executed ← map_err (fun e => ChainExecutionError e (ContextOperation index))
    (execute_operation chain_id depth context operation policy (pg_tracker progress)
       (ch_execution (pg_chain progress)));
  record_results height executed progress.

(** The fees paid before a block is executed, from a balance that already has
    the credits of its messages. *)
Definition charge_block (policy : ResourceControlPolicy) (block : Block) (credit balance : Amount)
    : result ChainError Amount :=
  balance ← map_err ChainArithmeticError (try_add_assign u128_MAX balance credit);
  balance ← map_err ChainPricingError (sub_assign_fees balance (certificate_price policy));
  fees ← map_err ChainPricingError
    (storage_bytes_written_price_raw policy (bcs_size_incoming (block_incoming_messages block)));
  balance ← map_err ChainPricingError (sub_assign_fees balance fees);
  fees ← map_err ChainPricingError
    (storage_bytes_written_price_raw policy (bcs_size_operations (block_operations block)));
  map_err ChainPricingError (sub_assign_fees balance fees).

Definition update_system (f : SystemState -> SystemState) (self : ChainState) : ChainState :=
  set_execution (set_system (f (es_system (ch_execution self))) (ch_execution self)) self.

Definition execute_block (block : Block) (now : Timestamp) (self : ChainState)
    : result ChainError (ChainState * BlockExecutionOutcome) :=
  assertion (block_chain_id block =? chain_id) ;;
  let system := es_system (ch_execution self) in
  ensure (sys_timestamp system <=? block_timestamp block) InvalidBlockTimestamp ;;
  let system := set_timestamp (block_timestamp block) system in
  '(_, committee) ← ok_or (current_committee system) (InactiveChain chain_id);
  let policy := committee_policy committee in
  let credit := amount_sum (omap (is_chain_credit chain_id) (block_incoming_messages block)) in
  balance ← charge_block policy block credit (sys_balance system);
  let tracker :=
    {| used_fuel := 0; num_reads := 0; bytes_read := 0; bytes_written := 0;
       maximum_bytes_left_to_read := policy_maximum_bytes_read_per_block policy;
       maximum_bytes_left_to_write := policy_maximum_bytes_written_per_block policy |} in
  let self := set_execution (set_system (set_balance balance system) (ch_execution self)) self in
  let progress :=
    {| pg_chain := self; pg_messages := []; pg_message_counts := []; pg_tracker := tracker |} in
  progress ← for_each (execute_incoming_message policy (block_height block))
    (imap pair (block_incoming_messages block)) progress;
  progress ← for_each
    (execute_block_operation policy (block_height block) (block_authenticated_signer block))
    (imap pair (block_operations block)) progress;
  let self := pg_chain progress in
  balance ← map_err ChainPricingError
    (sub_assign_fees (sys_balance (es_system (ch_execution self))) credit);
  let self := update_system (set_balance balance) self in
  let state_hash := crypto_hash (ch_execution self) in
  next_height ← map_err ChainArithmeticError (try_add_one u64_MAX (block_height block));
  manager ← manager_reset (sys_ownership (es_system (ch_execution self))) next_height now;
  Ok (set_consensus (Some state_hash) manager self,
      {| outcome_messages := pg_messages progress;
         outcome_message_counts := pg_message_counts progress;
         outcome_state_hash := state_hash |}).

End chain.

(** ** Outboxes and their counters *)

(** The number of outboxes in which a height waits. *)
Definition waiting (height : BlockHeight) (outbox : OutboxState) : Z :=
  if bool_decide (height ∈ outbox_queue outbox) then 1 else 0.
Definition in_flight (outboxes : gmap Target OutboxState) (height : BlockHeight) : Z :=
  map_sum (waiting height <$> outboxes).

(** The outboxes are well formed and the counters are exact; a counter that
    reaches zero is removed. *)
Record boxes_ok (outboxes : gmap Target OutboxState) (counters : gmap BlockHeight Z) : Prop := {
  boxes_wf : map_Forall (fun _ => outbox_wf) outboxes;
  boxes_counters height :
    counters !! height =
      if in_flight outboxes height =? 0 then None else Some (in_flight outboxes height);
}.
Notation chain_boxes_ok s := (boxes_ok (ch_outboxes s) (ch_outbox_counters s)).

Lemma in_flight_insert outboxes target outbox height :
  in_flight (<[target := outbox]> outboxes) height =
  waiting height outbox + in_flight outboxes height -
    waiting height (entry outbox_default target outboxes).
Proof.
  unfold in_flight, entry. rewrite fmap_insert, map_sum_insert, lookup_fmap.
  by destruct (outboxes !! target).
Qed.

Lemma in_flight_delete outboxes target height :
  in_flight (delete target outboxes) height =
  in_flight outboxes height - waiting height (entry outbox_default target outboxes).
Proof.
  unfold in_flight, entry. rewrite fmap_delete.
  destruct (outboxes !! target) as [outbox|] eqn:Ht; simpl.
  - rewrite (map_sum_delete (waiting height <$> outboxes) target (waiting height outbox)).
    + unfold id. lia.
    + by rewrite lookup_fmap, Ht.
  - rewrite delete_id by by rewrite lookup_fmap, Ht.
    change (waiting height outbox_default) with 0. lia.
Qed.

Lemma waiting_range height outbox : 0 <= waiting height outbox <= 1.
Proof. unfold waiting. case_bool_decide; lia. Qed.

Lemma in_flight_nonneg outboxes height : 0 <= in_flight outboxes height.
Proof.
  apply map_sum_nonneg. intros target x. rewrite lookup_fmap_Some.
  intros (outbox & <- & _). apply waiting_range.
Qed.

Lemma in_flight_le_size outboxes height :
  in_flight outboxes height <= Z.of_nat (size outboxes).
Proof.
  induction outboxes as [|target outbox outboxes Ht IH] using map_ind.
  - unfold in_flight. by rewrite fmap_empty, map_sum_empty, map_size_empty.
  - rewrite in_flight_insert, map_size_insert_None by done.
    pose proof (waiting_range height outbox).
    pose proof (waiting_range height (entry outbox_default target outboxes)). lia.
Qed.

Lemma in_flight_zero outboxes height :
  in_flight outboxes height = 0 <->
  forall target outbox, outboxes !! target = Some outbox -> height ∉ outbox_queue outbox.
Proof.
  induction outboxes as [|target outbox outboxes Ht IH] using map_ind.
  - unfold in_flight. rewrite fmap_empty, map_sum_empty. split; [|done].
    intros _ target outbox. by rewrite lookup_empty.
  - rewrite in_flight_insert. unfold entry. rewrite Ht. simpl.
    change (waiting height outbox_default) with 0.
    pose proof (in_flight_nonneg outboxes height) as Hn. unfold waiting. split.
    + case_bool_decide as Hw; intros Hz; [lia|]. intros t o.
      assert (in_flight outboxes height = 0) as Hz' by lia.
      rewrite lookup_insert_Some. intros [[<- <-]|[_ Ho]]; [done|].
      by apply (proj1 IH Hz' t).
    + intros Hall. rewrite bool_decide_eq_false_2.
      * assert (in_flight outboxes height = 0) as ->; [|lia]. apply IH. intros t o Ho.
        apply (Hall t). rewrite lookup_insert_ne; [done|]. intros ->. by rewrite Ht in Ho.
      * apply (Hall target). by rewrite lookup_insert_eq.
Qed.

Lemma in_flight_pos outboxes height :
  in_flight outboxes height <> 0 ->
  exists target outbox, outboxes !! target = Some outbox /\ height ∈ outbox_queue outbox.
Proof.
  intros Hn. destruct (decide (map_Forall (fun _ o => height ∉ outbox_queue o) outboxes)) as [Hall|Hall].
  - destruct Hn. by apply in_flight_zero.
  - apply map_not_Forall in Hall as (target & outbox & Ho & Hin); [|apply _].
    exists target, outbox. split; [done|]. by apply dec_stable.
Qed.

Lemma entry_wf (outboxes : gmap Target OutboxState) target :
  map_Forall (fun _ => outbox_wf) outboxes -> outbox_wf (entry outbox_default target outboxes).
Proof.
  intros Hwf. unfold entry. destruct (outboxes !! target) eqn:Ht; simpl.
  - by apply (Hwf target).
  - apply outbox_default_wf.
Qed.

(** Changes of the mailboxes that keep the counters exact, as long as there are
    fewer outboxes than a counter can count. *)
Definition boxes_step (boxes boxes' : gmap Target OutboxState * gmap BlockHeight Z) : Prop :=
  (size boxes.1 <= size boxes'.1)%nat /\
  (Z.of_nat (size boxes'.1) <= u32_MAX -> boxes_ok boxes.1 boxes.2 -> boxes_ok boxes'.1 boxes'.2).

#[export] Instance boxes_step_preorder : PreOrder boxes_step.
Proof.
  split; [by intros boxes|]. intros b1 b2 b3 [Hs1 Hok1] [Hs2 Hok2].
  split; [lia|]. intros Hmax Hok. apply Hok2; [done|]. apply Hok1; [lia|done].
Qed.

Lemma schedule_message_cases height outbox scheduled outbox' :
  outbox_wf outbox -> schedule_message height outbox = Ok (scheduled, outbox') ->
  (scheduled = false /\ outbox' = outbox /\ height < next_height_to_schedule outbox) \/
  (scheduled = true /\ outbox_queue outbox' = outbox_queue outbox ++ [height] /\
   height ∉ outbox_queue outbox /\ next_height_to_schedule outbox' = height + 1).
Proof.
  intros (_ & Hlt & _). unfold schedule_message.
  destruct (Z.ltb_spec height (next_height_to_schedule outbox)); [intros [= <- <-]; auto|].
  intros (next & Hnext & [= <- <-])%bind_Ok. right. apply try_add_one_Ok in Hnext as [-> _].
  split_and!; [done..| |done]. intros Hin. rewrite Forall_forall in Hlt.
  specialize (Hlt _ Hin). simpl in Hlt. lia.
Qed.

Lemma insert_size_ge {K V} `{Countable K} (m : gmap K V) k v : (size m <= size (<[k := v]> m))%nat.
Proof. rewrite map_size_insert. unfold id. destruct (m !! k); lia. Qed.

Lemma schedule_boxes message boxes boxes' :
  schedule message boxes = Ok boxes' -> boxes_step boxes boxes'.
Proof.
  destruct message as [target height], boxes as [outboxes counters]. simpl.
  intros ([scheduled outbox] & Hs & [= <-])%bind_Ok. apply map_err_Ok in Hs.
  split; simpl; [apply insert_size_ge|]. intros Hmax [Hwf Hc].
  pose proof (entry_wf outboxes target Hwf) as Hw. split.
  { apply map_Forall_insert_2; [|done]. by eapply schedule_message_wf. }
  intros h. rewrite in_flight_insert.
  destruct (schedule_message_cases _ _ _ _ Hw Hs) as [(-> & -> & _)|(-> & Hq & Hnin & _)].
  { rewrite Hc. by replace (_ + _ - _) with (in_flight outboxes h) by lia. }
  unfold waiting at 1 2 3 4. rewrite Hq.
  pose proof (in_flight_nonneg outboxes h). destruct (decide (h = height)) as [->|Hne].
  - rewrite lookup_insert_eq, Hc.
    rewrite (bool_decide_eq_true_2 (height ∈ _ ++ _)), bool_decide_eq_false_2 by set_solver.
    pose proof (in_flight_le_size (<[target := outbox]> outboxes) height) as Hle.
    rewrite in_flight_insert in Hle. unfold waiting in Hle. rewrite Hq in Hle.
    rewrite (bool_decide_eq_true_2 (height ∈ _ ++ _)), bool_decide_eq_false_2 in Hle by set_solver.
    replace (default 0 _) with (in_flight outboxes height)
      by (destruct (Z.eqb_spec (in_flight outboxes height) 0); simpl; unfold id; lia).
    rewrite wrapping_add_small by lia.
    destruct (Z.eqb_spec (1 + in_flight outboxes height - 0) 0); [lia|]. f_equal. lia.
  - rewrite lookup_insert_ne by done. rewrite Hc.
    replace (bool_decide (h ∈ outbox_queue (entry outbox_default target outboxes) ++ [height]))
      with (bool_decide (h ∈ outbox_queue (entry outbox_default target outboxes)))
      by (apply bool_decide_ext; set_solver).
    by replace (_ + in_flight outboxes h - _) with (in_flight outboxes h) by lia.
Qed.

(** ** What processing the results of an execution changes *)

Definition outbox_of (s : ChainState) (target : Target) : OutboxState :=
  entry outbox_default target (ch_outboxes s).
Definition channel_of (s : ChainState) (name : ChannelFullName) : ChannelState :=
  entry channel_default name (ch_channels s).
Definition queued (s : ChainState) (target : Target) (height : BlockHeight) : Prop :=
  height ∈ outbox_queue (outbox_of s target).

#[export] Instance queued_dec s target height : Decision (queued s target height).
Proof. unfold queued. apply _. Defined.

(** While the block at [height] is executed, outboxes know heights up to it, and
    know it only if it waits in their queue. *)
Definition outbox_before (height : BlockHeight) (outbox : OutboxState) : Prop :=
  outbox_wf outbox /\
  (next_height_to_schedule outbox <= height \/
   next_height_to_schedule outbox = height + 1 /\ height ∈ outbox_queue outbox).
Record heights_ok (height : BlockHeight) (s : ChainState) : Prop := {
  heights_outboxes target : outbox_before height (outbox_of s target);
  heights_channels name h : channel_block_height (channel_of s name) = Some h -> h <= height;
}.

Record mail_step (height : BlockHeight) (s s' : ChainState) : Prop := {
  mail_execution : ch_execution s' = ch_execution s;
  mail_hash : ch_execution_hash s' = ch_execution_hash s;
  mail_tip : ch_tip s' = ch_tip s;
  mail_manager : ch_manager s' = ch_manager s;
  mail_confirmed : ch_confirmed_log s' = ch_confirmed_log s;
  mail_received : ch_received_log s' = ch_received_log s;
  mail_inboxes : ch_inboxes s' = ch_inboxes s;
  mail_boxes :
    boxes_step (ch_outboxes s, ch_outbox_counters s) (ch_outboxes s', ch_outbox_counters s');
  mail_heights : heights_ok height s -> heights_ok height s';
  mail_queued target h : queued s target h -> queued s' target h;
}.

#[export] Instance mail_step_preorder height : PreOrder (mail_step height).
Proof.
  split; [by split|]. intros s1 s2 s3 [] []. split; try congruence; [by etrans|auto..].
Qed.

Lemma entry_insert {K V} `{Countable K} (d : V) (m : gmap K V) k v k' :
  entry d k' (<[k := v]> m) = if decide (k = k') then v else entry d k' m.
Proof. unfold entry. rewrite lookup_insert. by case_decide. Qed.

Lemma entry_load {K V} `{Countable K} (d : V) (m : gmap K V) k k' :
  entry d k' (load_entry d k m) = entry d k' m.
Proof. unfold load_entry. rewrite entry_insert. by case_decide; subst. Qed.

Lemma entry_load_all {K V} `{Countable K} (d : V) keys (m : gmap K V) k' :
  entry d k' (foldl (fun m k => load_entry d k m) m keys) = entry d k' m.
Proof.
  revert m. induction keys as [|k keys IH]; intros m; simpl; [done|].
  by rewrite IH, entry_load.
Qed.

Lemma try_load_Ok {K V} `{Countable K} (d : V) keys (m m' : gmap K V) :
  try_load_entries_mut d keys m = Ok m' ->
  NoDup keys /\ m' = foldl (fun m k => load_entry d k m) m keys.
Proof.
  unfold try_load_entries_mut. intros ([] & Hn & [= <-])%bind_Ok.
  by apply ensure_Ok, bool_decide_eq_true in Hn.
Qed.

Lemma load_boxes target outboxes counters :
  boxes_step (outboxes, counters) (load_entry outbox_default target outboxes, counters).
Proof.
  split; simpl; [apply insert_size_ge|]. intros _ [Hwf Hc]. split.
  - apply map_Forall_insert_2; [|done]. by apply entry_wf.
  - intros h. rewrite Hc. unfold load_entry. rewrite in_flight_insert.
    by replace (_ + _ - _) with (in_flight outboxes h) by lia.
Qed.

Lemma load_all_boxes targets outboxes counters :
  boxes_step (outboxes, counters)
    (foldl (fun m k => load_entry outbox_default k m) outboxes targets, counters).
Proof.
  revert outboxes. induction targets as [|target targets IH]; intros outboxes; simpl; [done|].
  etrans; [apply load_boxes|apply IH].
Qed.

(** One scheduling, and the others. *)
Lemma schedule_entry target h boxes boxes' t :
  schedule (target, h) boxes = Ok boxes' ->
  if decide (target = t) then
    exists scheduled, schedule_message h (entry outbox_default t boxes.1) =
      Ok (scheduled, entry outbox_default t boxes'.1)
  else entry outbox_default t boxes'.1 = entry outbox_default t boxes.1.
Proof.
  destruct boxes as [outboxes counters]. simpl.
  intros ([scheduled outbox] & Hs & [= <-])%bind_Ok. apply map_err_Ok in Hs. simpl.
  rewrite entry_insert. case_decide; subst; [by exists scheduled|done].
Qed.

Lemma schedule_before height h outbox scheduled outbox' :
  h <= height -> outbox_before height outbox ->
  schedule_message h outbox = Ok (scheduled, outbox') ->
  outbox_before height outbox' /\ (h = height -> height ∈ outbox_queue outbox') /\
  (forall h', h' ∈ outbox_queue outbox -> h' ∈ outbox_queue outbox').
Proof.
  intros Hle [Hwf Hb] Hs. pose proof (schedule_message_wf _ _ _ _ Hwf Hs) as Hwf'.
  destruct (schedule_message_cases _ _ _ _ Hwf Hs) as [(-> & -> & Hlt)|(-> & Hq & Hnin & Hn)].
  - split_and!; [by split| |done]. intros ->. destruct Hb as [|[_ ?]]; [lia|done].
  - rewrite Hq. split_and!; [|set_solver|set_solver]. split; [done|]. rewrite Hn, Hq.
    destruct (decide (h = height)) as [->|]; [right; set_solver|left; lia].
Qed.

Lemma schedule_queue h outbox scheduled outbox' h' :
  schedule_message h outbox = Ok (scheduled, outbox') ->
  h' ∈ outbox_queue outbox -> h' ∈ outbox_queue outbox'.
Proof.
  unfold schedule_message. destruct (h <? _); [by intros [= _ <-]|].
  intros (next & _ & [= _ <-])%bind_Ok Hin. simpl. set_solver.
Qed.

Section scheduling.
Context (height : BlockHeight).

Lemma at_height {A} (target : A -> Target) (l : list A) :
  Forall (fun m : Target * BlockHeight => m.2 <= height) ((fun a => (target a, height)) <$> l).
Proof. apply Forall_fmap, Forall_true. intros a. simpl. lia. Qed.

Notation box := (entry outbox_default).

Lemma schedule_loop messages boxes boxes' :
  for_each schedule messages boxes = Ok boxes' ->
  boxes_step boxes boxes' /\
  (forall target h, h ∈ outbox_queue (box target boxes.1) ->
     h ∈ outbox_queue (box target boxes'.1)) /\
  (Forall (fun m => m.2 <= height) messages ->
   (forall target, outbox_before height (box target boxes.1)) ->
   (forall target, outbox_before height (box target boxes'.1)) /\
   (forall target, (target, height) ∈ messages -> height ∈ outbox_queue (box target boxes'.1))).
Proof.
  revert boxes. induction messages as [|[target h] messages IH]; intros boxes.
  { intros [= <-]. split_and!; [done..|]. intros _ Hb. split; [done|]. set_solver. }
  cbn [for_each]. intros (boxes1 & Hs & Hl)%bind_Ok.
  destruct (IH _ Hl) as (Hstep & Hmono & Hheights).
  pose proof (fun t => schedule_entry _ _ _ _ t Hs) as He. split_and!.
  - etrans; [by eapply schedule_boxes|done].
  - intros t h' Hin. apply Hmono. specialize (He t). case_decide; [|by rewrite He].
    destruct He as [scheduled He]. by eapply schedule_queue.
  - intros [Hle Hall]%Forall_cons Hb.
    assert (forall t, outbox_before height (box t boxes1.1) /\
      ((t, height) = (target, h) -> height ∈ outbox_queue (box t boxes1.1))) as Hb1.
    { intros t. specialize (He t). case_decide as Ht.
      - destruct He as [scheduled He]. destruct (schedule_before height h _ _ _ Hle (Hb t) He)
          as (? & Hin & _). split; [done|]. intros [= _ ->]. by apply Hin.
      - rewrite He. split; [done|]. intros [= -> _]. done. }
    destruct (Hheights Hall (fun t => proj1 (Hb1 t))) as [Hb2 Hin]. split; [done|].
    intros t [Heq|Hm]%elem_of_cons; [|by apply Hin]. apply Hmono. by apply Hb1.
Qed.

Lemma schedule_all_Ok messages s s' :
  schedule_all messages s = Ok s' ->
  exists outboxes counters,
    for_each schedule messages
      (foldl (fun m k => load_entry outbox_default k m) (ch_outboxes s) messages.*1,
       ch_outbox_counters s) = Ok (outboxes, counters) /\
    s' = set_outboxes outboxes counters s.
Proof.
  unfold schedule_all. intros (m & Hm & Hs)%bind_Ok. apply map_err_Ok, try_load_Ok in Hm as [_ ->].
  apply bind_Ok in Hs as ([outboxes counters] & Hl & [= <-]). by exists outboxes, counters.
Qed.

Lemma schedule_all_mail messages s s' :
  (heights_ok height s -> Forall (fun m => m.2 <= height) messages) ->
  schedule_all messages s = Ok s' -> mail_step height s s'.
Proof.
  intros Hle (outboxes & counters & Hl & ->)%schedule_all_Ok.
  destruct (schedule_loop _ _ _ Hl) as (Hstep & Hmono & Hheights). simpl in *.
  split; try done; simpl.
  - etrans; [apply load_all_boxes|done].
  - intros Hok. pose proof (Hle Hok) as Hall. destruct Hok as [Ho Hc].
    split; [|done]. intros t. apply Hheights; [done|].
    intros t'. rewrite entry_load_all. apply Ho.
  - intros t h Hin. apply Hmono. rewrite entry_load_all. apply Hin.
Qed.

Lemma schedule_all_queued messages s s' target :
  heights_ok height s -> Forall (fun m => m.2 <= height) messages ->
  schedule_all messages s = Ok s' -> (target, height) ∈ messages -> queued s' target height.
Proof.
  intros [Ho _] Hle (outboxes & counters & Hl & ->)%schedule_all_Ok Hin.
  destruct (schedule_loop _ _ _ Hl) as (_ & _ & Hheights). simpl in *.
  destruct (Hheights Hle) as [_ Hq]; [|by apply Hq].
  intros t. rewrite entry_load_all. apply Ho.
Qed.

(** Updates of the channels. *)
Lemma set_channels_mail channels s :
  (heights_ok height s -> forall name h,
     channel_block_height (entry channel_default name channels) = Some h -> h <= height) ->
  mail_step height s (set_channels channels s).
Proof.
  intros Hh. split; try done. intros Hok. pose proof (Hh Hok). destruct Hok. by split.
Qed.

End scheduling.

Section process_lemmas.
Context {M : Type} (application_id : GenericApplicationId) (lift : M -> Message).
Context (height : BlockHeight).

Notation full := (full_name application_id).

Lemma load_channels_mail names s s' :
  load_channels application_id names s = Ok s' ->
  mail_step height s s' /\ (forall name, channel_of s' name = channel_of s name) /\
  NoDup (full <$> names).
Proof.
  unfold load_channels. intros (channels & Hl & [= <-])%bind_Ok.
  apply map_err_Ok, try_load_Ok in Hl as [Hn ->]. split_and!; [|by intros; apply entry_load_all|done].
  apply set_channels_mail. intros Hok name h. rewrite entry_load_all. apply Hok.
Qed.

Lemma update_channel_mail f name s :
  (forall channel, channel_block_height (f channel) = channel_block_height channel \/
     channel_block_height (f channel) = Some height) ->
  mail_step height s (update_channel application_id f name s).
Proof.
  intros Hf. apply set_channels_mail. intros Hok name' h. rewrite entry_insert. case_decide.
  - destruct (Hf (entry channel_default (full name) (ch_channels s))) as [-> | ->].
    + apply Hok.
    + by intros [= ->].
  - apply Hok.
Qed.

Lemma update_channels_mail {A} (f : A -> ChannelState -> ChannelState) (name : A -> ChannelName)
    l s :
  (forall a channel, channel_block_height (f a channel) = channel_block_height channel \/
     channel_block_height (f a channel) = Some height) ->
  mail_step height s (foldl (fun s a => update_channel application_id (f a) (name a) s) s l).
Proof.
  intros Hf. revert s. induction l as [|a l IH]; intros s; simpl; [done|].
  etrans; [by apply (update_channel_mail (f a) (name a))|apply IH].
Qed.

Lemma process_unsubscribe_mail requests s s' :
  process_unsubscribe application_id requests s = Ok s' -> mail_step height s s'.
Proof.
  unfold process_unsubscribe. intros (s1 & Hl & [= <-])%bind_Ok.
  apply load_channels_mail in Hl as (Hl & _). etrans; [done|].
  apply (update_channels_mail (fun request => remove_subscriber request.2) fst). by left.
Qed.

Lemma process_broadcasts_mail names s s' :
  process_broadcasts application_id height names s = Ok s' -> mail_step height s s'.
Proof.
  unfold process_broadcasts. intros (s1 & Hl & Hs)%bind_Ok.
  apply load_channels_mail in Hl as (Hl & _). etrans; [done|].
  etrans; [|eapply schedule_all_mail, Hs].
  - apply (update_channels_mail (fun _ => set_channel_height height) (fun name => name)). by right.
  - intros _. apply (at_height _ (fun target => target)).
Qed.

Lemma add_subscribers_height requests s name :
  channel_block_height (channel_of
    (foldl (fun s request => update_channel application_id (add_subscriber request.2) request.1 s)
       s requests) name) = channel_block_height (channel_of s name).
Proof.
  revert s. induction requests as [|request requests IH]; intros s; simpl; [done|].
  rewrite IH. unfold channel_of, update_channel. simpl. rewrite entry_insert. by case_decide; subst.
Qed.

Lemma process_subscribe_mail requests s s' :
  process_subscribe application_id requests s = Ok s' -> mail_step height s s'.
Proof.
  unfold process_subscribe. intros (s1 & Hl & Hs)%bind_Ok.
  apply load_channels_mail in Hl as (Hl & _). etrans; [done|].
  etrans; [|eapply schedule_all_mail, Hs].
  - apply (update_channels_mail (fun request => add_subscriber request.2) fst requests). by left.
  - intros Hok. apply Forall_forall. intros [target h] Hin. simpl.
    apply list_elem_of_omap in Hin as (request & _ & Hinfo). unfold subscribe_info in Hinfo.
    case_bool_decide; [done|]. apply bind_Some in Hinfo as (h' & Hh & [= _ ->]).
    apply (heights_channels _ _ Hok (full request.1)). by rewrite add_subscribers_height.
Qed.

Lemma process_raw_mail raw messages s messages' s' :
  process_raw_execution_result application_id lift height raw (messages, s) = Ok (messages', s') ->
  mail_step height s s' /\
  messages' = messages ++
    (outgoing_message lift (res_authenticated_signer raw) <$> res_messages raw).
Proof.
  unfold process_raw_execution_result. intros (s1 & H1 & Hr)%bind_Ok.
  apply bind_Ok in Hr as (s2 & H2 & Hr). apply bind_Ok in Hr as (s3 & H3 & Hr).
  apply bind_Ok in Hr as (s4 & H4 & [= <- <-]). split; [|done].
  etrans; [|etrans; [|etrans]];
    [|by eapply process_unsubscribe_mail|by eapply process_broadcasts_mail
     |by eapply process_subscribe_mail].
  eapply schedule_all_mail; [|done]. intros _. apply (at_height _ target_chain).
Qed.

End process_lemmas.

(** The messages of a result, and where they must be waiting afterwards. *)
Definition result_messages (result : ExecutionResult) : list OutgoingMessage :=
  match result with
  | ResultSystem raw =>
      outgoing_message SystemMsg (res_authenticated_signer raw) <$> res_messages raw
  | ResultUser application_id raw =>
      outgoing_message (UserMsg application_id) (res_authenticated_signer raw) <$> res_messages raw
  end.

Definition direct_queued (s : ChainState) (height : BlockHeight) (message : OutgoingMessage)
    : Prop :=
  match out_destination message with
  | Recipient id => queued s (target_chain id) height
  | Subscribers _ => True
  end.

Section process_queued.
Context {M : Type} (application_id : GenericApplicationId) (lift : M -> Message).
Context (height : BlockHeight).

Lemma unsubscribe_keeps requests s s' name id :
  process_unsubscribe application_id requests s = Ok s' ->
  id ∈ subscribers (channel_of s (full_name application_id name)) -> (name, id) ∉ requests ->
  id ∈ subscribers (channel_of s' (full_name application_id name)).
Proof.
  unfold process_unsubscribe. intros (s1 & Hl & [= <-])%bind_Ok Hin Hnin.
  apply (load_channels_mail _ height) in Hl as (_ & Heq & _). rewrite <- Heq in Hin. clear Heq.
  revert s1 Hin. induction requests as [|[n i] requests IH]; intros s1 Hin; simpl; [done|].
  apply not_elem_of_cons in Hnin as [Hne Hnin]. apply IH; [done|].
  unfold channel_of, update_channel. simpl. rewrite entry_insert. case_decide as Heq; [|done].
  injection Heq as ->. simpl. apply elem_of_difference. split; [done|].
  rewrite elem_of_singleton. intros ->. done.
Qed.

Lemma broadcasts_queued names s s' name id :
  heights_ok height s -> process_broadcasts application_id height names s = Ok s' ->
  name ∈ names -> id ∈ subscribers (channel_of s (full_name application_id name)) ->
  queued s' (target_channel id (full_name application_id name)) height.
Proof.
  unfold process_broadcasts. intros Hok (s1 & Hl & Hs)%bind_Ok Hname Hid.
  apply (load_channels_mail _ height) in Hl as (Hl & Heq & _).
  eapply schedule_all_queued; [| |exact Hs|]; [|apply (at_height _ (fun target => target))|].
  - eapply mail_heights; [|by eapply mail_heights].
    apply (update_channels_mail _ _ (fun _ => set_channel_height height) (fun name => name)).
    by right.
  - apply list_elem_of_fmap. eexists. split; [done|]. apply list_elem_of_bind.
    exists name. split; [|done]. apply list_elem_of_fmap. exists id. split; [done|].
    apply elem_of_elements. by rewrite <- Heq in Hid.
Qed.

Lemma process_raw_queued raw messages s messages' s' message :
  heights_ok height s ->
  process_raw_execution_result application_id lift height raw (messages, s) = Ok (messages', s') ->
  message ∈ res_messages raw ->
  match raw_destination message with
  | Recipient id => queued s' (target_chain id) height
  | Subscribers name => forall id,
      id ∈ subscribers (channel_of s (full_name application_id name)) ->
      (name, id) ∉ res_unsubscribe raw ->
      queued s' (target_channel id (full_name application_id name)) height
  end.
Proof.
  unfold process_raw_execution_result. intros Hok (s1 & H1 & Hr)%bind_Ok Hin.
  apply bind_Ok in Hr as (s2 & H2 & Hr). apply bind_Ok in Hr as (s3 & H3 & Hr).
  apply bind_Ok in Hr as (s4 & H4 & [= _ <-]).
  assert (mail_step height s s1) as Hm1.
  { eapply schedule_all_mail; [|done]. intros _. apply (at_height _ target_chain). }
  pose proof (process_unsubscribe_mail _ height _ _ _ H2) as Hm2.
  pose proof (process_broadcasts_mail _ height _ _ _ H3) as Hm3.
  pose proof (process_subscribe_mail _ height _ _ _ H4) as Hm4.
  destruct (raw_destination message) as [id|name] eqn:Hd.
  - eapply mail_queued, mail_queued, mail_queued; [done..|].
    eapply schedule_all_queued; [done| |exact H1|].
    + apply (at_height _ target_chain).
    + apply list_elem_of_fmap. exists id. split; [done|]. apply elem_of_elements.
      rewrite elem_of_list_to_set, list_elem_of_omap. exists message. split; [done|].
      unfold recipient_of. by rewrite Hd.
  - intros id Hid Hnu. eapply mail_queued; [done|].
    eapply broadcasts_queued; [|exact H3| |].
    + by eapply mail_heights, mail_heights.
    + apply elem_of_elements. rewrite elem_of_list_to_set, list_elem_of_omap. exists message.
      split; [done|]. unfold broadcast_of. by rewrite Hd.
    + eapply unsubscribe_keeps; [exact H2| |done].
      apply schedule_all_Ok in H1 as (outboxes & counters & _ & ->). exact Hid.
Qed.

End process_queued.

(** ** Executing blocks *)

(** Steps that also replace the execution state. *)
Definition block_step (height : BlockHeight) (s s' : ChainState) : Prop :=
  mail_step height (set_execution (ch_execution s') s) s'.

Lemma heights_execution height execution s :
  heights_ok height (set_execution execution s) <-> heights_ok height s.
Proof. split; intros []; by split. Qed.

#[export] Instance block_step_preorder height : PreOrder (block_step height).
Proof.
  split.
  - intros []. unfold block_step. reflexivity.
  - intros s1 s2 s3 [] []. unfold block_step. rewrite !heights_execution in *.
    split; simpl in *; try congruence; [by etrans|rewrite !heights_execution in *; auto|].
    intros target h Hq. by apply mail_queued1, mail_queued0.
Qed.

Lemma mail_block_step height s s' : mail_step height s s' -> block_step height s s'.
Proof.
  intros Hm. unfold block_step. rewrite (mail_execution _ _ _ Hm). by destruct s.
Qed.

Lemma process_results_step height results messages s messages' s' :
  process_execution_results height results (messages, s) = Ok (messages', s') ->
  mail_step height s s' /\ messages' = messages ++ (results ≫= result_messages) /\
  (heights_ok height s -> Forall (direct_queued s height) messages ->
   Forall (direct_queued s' height) messages').
Proof.
  unfold process_execution_results. revert messages s.
  induction results as [|r results IH]; intros messages s; cbn [for_each].
  { intros [= <- <-]. split_and!; [done| |done]. by rewrite app_nil_r. }
  intros ([messages1 s1] & Hr & Hl)%bind_Ok. destruct (IH _ _ Hl) as (Hm & -> & Hq).
  assert (mail_step height s s1 /\ messages1 = messages ++ result_messages r /\
    (heights_ok height s -> Forall (direct_queued s1 height) (result_messages r)))
    as (Hm1 & -> & Hq1).
  { destruct r as [raw|id raw]; simpl in *; pose proof Hr as Hr';
      apply process_raw_mail in Hr as [Hm1 ->]; split_and!; [done..| |done|done|];
      intros Hok; apply Forall_fmap, Forall_forall; intros m Hin;
      pose proof (process_raw_queued _ _ _ _ _ _ _ _ _ Hok Hr' Hin) as Hd;
      unfold direct_queued; simpl; by destruct (raw_destination m). }
  split_and!; [by etrans|by rewrite <- app_assoc|]. intros Hok Hall.
  apply Hq; [by eapply mail_heights|].
  apply Forall_app. split; [|by apply Hq1].
  eapply Forall_impl; [exact Hall|]. intros m. unfold direct_queued.
  destruct (out_destination m); [|done]. by apply (mail_queued _ _ _ Hm1).
Qed.

(** ** Acknowledging messages *)

Definition with_queue (outbox : OutboxState) (queue : list BlockHeight) : OutboxState :=
  {| next_height_to_schedule := next_height_to_schedule outbox; outbox_queue := queue |}.

Definition counters_exact (outboxes : gmap Target OutboxState) (counters : gmap BlockHeight Z)
    : Prop :=
  forall height, counters !! height =
    if in_flight outboxes height =? 0 then None else Some (in_flight outboxes height).

Lemma decrement_exact outboxes counters target outbox update queue :
  update ∉ queue ->
  counters_exact (<[target := with_queue outbox (update :: queue)]> outboxes) counters ->
  exists counters', decrement_counter update counters = Ok counters' /\
    counters_exact (<[target := with_queue outbox queue]> outboxes) counters'.
Proof.
  intros Hnin Hc. pose proof (Hc update) as Hu.
  assert (in_flight (<[target := with_queue outbox (update :: queue)]> outboxes) update =
    in_flight (<[target := with_queue outbox queue]> outboxes) update + 1) as Hup.
  { rewrite !in_flight_insert. unfold waiting at 1 3. simpl.
    rewrite bool_decide_eq_true_2, bool_decide_eq_false_2 by set_solver. lia. }
  set (n := in_flight (<[target := with_queue outbox queue]> outboxes) update) in *.
  assert (0 <= n) by apply in_flight_nonneg.
  rewrite Hup in Hu. destruct (Z.eqb_spec (n + 1) 0); [lia|].
  unfold decrement_counter. rewrite Hu. simpl. unfold checked_sub.
  destruct (Z.leb_spec 1 (n + 1)); [|lia]. simpl. eexists. split; [done|].
  intros h. destruct (decide (h = update)) as [->|Hne].
  - fold n. replace (n + 1 - 1) with n by lia.
    destruct (n =? 0); by rewrite ?lookup_delete_eq, ?lookup_insert_eq.
  - replace ((if n + 1 - 1 =? 0 then _ else _) !! h) with (counters !! h)
      by (destruct (_ =? 0); by rewrite ?lookup_delete_ne, ?lookup_insert_ne by done).
    rewrite (Hc h), !in_flight_insert. unfold waiting at 1 3 5 7. simpl.
    by rewrite (bool_decide_ext (h ∈ update :: queue) (h ∈ queue)) by set_solver.
Qed.

Lemma decrements_exact outboxes counters target outbox updates queue :
  NoDup (updates ++ queue) ->
  counters_exact (<[target := with_queue outbox (updates ++ queue)]> outboxes) counters ->
  exists counters', for_each decrement_counter updates counters = Ok counters' /\
    counters_exact (<[target := with_queue outbox queue]> outboxes) counters'.
Proof.
  revert counters. induction updates as [|u updates IH]; intros counters Hn Hc; [by exists counters|].
  apply NoDup_cons in Hn as [Hnin Hn].
  destruct (decrement_exact _ _ _ _ _ _ Hnin Hc) as (c1 & Hd & Hc1).
  destruct (IH c1 Hn Hc1) as (c2 & Hl & Hc2). exists c2. cbn [for_each]. by rewrite Hd.
Qed.

Section acknowledge.
Context (s : ChainState) (target : Target) (height : BlockHeight).
Context (updates : list BlockHeight) (outbox' : OutboxState).
Context (ok : chain_boxes_ok s).
Context (marked : mark_messages_as_received height (outbox_of s target) = (updates, outbox')).

Lemma marked_outbox :
  outbox' = with_queue (outbox_of s target) (outbox_queue outbox') /\ outbox_wf outbox' /\
  outbox_queue (outbox_of s target) = updates ++ outbox_queue outbox' /\
  (forall h, h ∈ outbox_queue outbox' <-> queued s target h /\ height < h) /\
  (forall h, h ∈ updates <-> queued s target h /\ h <= height).
Proof.
  pose proof (entry_wf _ target (boxes_wf _ _ ok)) as Hw.
  destruct (mark_messages_wf _ _ _ _ Hw marked) as (Hw' & Hq & Hle & Hgt).
  rewrite Forall_forall in Hle, Hgt. simpl in *. unfold queued. change (entry _ _ _) with
    (outbox_of s target) in Hq. rewrite Hq. split_and!; [|done|done| |].
  - unfold mark_messages_as_received in marked. destruct (take_received _ _).
    injection marked as <- <-. done.
  - intros h. specialize (Hle h). specialize (Hgt h). rewrite elem_of_app. naive_solver lia.
  - intros h. specialize (Hle h). specialize (Hgt h). rewrite elem_of_app. naive_solver lia.
Qed.

Lemma marked_counters :
  exists counters, for_each decrement_counter updates (ch_outbox_counters s) = Ok counters /\
    counters_exact (<[target := outbox']> (ch_outboxes s)) counters.
Proof.
  destruct marked_outbox as (Heq & _ & Hq & _). rewrite Heq.
  apply decrements_exact.
  - rewrite <- Hq. apply sorted_NoDup, (entry_wf _ target (boxes_wf _ _ ok)).
  - rewrite <- Hq. intros h. rewrite in_flight_insert. fold (outbox_of s target).
    replace (with_queue _ _) with (outbox_of s target) by by destruct (outbox_of s target).
    replace (_ + _ - _) with (in_flight (ch_outboxes s) h) by lia. apply ok.
Qed.

(** The outboxes afterwards, whether an empty outbox is removed or not. *)
Lemma marked_boxes outboxes counters :
  counters_exact (<[target := outbox']> (ch_outboxes s)) counters ->
  outboxes = <[target := outbox']> (ch_outboxes s) \/
  outbox_queue outbox' = [] /\ outboxes = delete target (<[target := outbox']> (ch_outboxes s)) ->
  boxes_ok outboxes counters /\
  forall t h, queued (set_outboxes outboxes counters s) t h <->
    queued s t h /\ (t = target -> height < h).
Proof.
  intros Hc Hcases. destruct marked_outbox as (_ & Hw & _ & Hq & _).
  assert (map_Forall (fun _ => outbox_wf) (<[target := outbox']> (ch_outboxes s))) as Hwf
    by by apply map_Forall_insert_2, ok.
  assert (forall t h, h ∈ outbox_queue (entry outbox_default t
    (<[target := outbox']> (ch_outboxes s))) <-> queued s t h /\ (t = target -> height < h)) as Hqs.
  { intros t h. rewrite entry_insert. case_decide; subst; [rewrite Hq|]; naive_solver. }
  destruct Hcases as [->|[Hempty ->]]; [by split; [split|]|]. split.
  - split; [by apply map_Forall_delete|]. intros h. rewrite Hc, in_flight_delete, entry_insert.
    rewrite decide_True by done. unfold waiting at 1 2. rewrite Hempty. cbn [bool_decide].
    by replace (_ - _) with (in_flight (<[target := outbox']> (ch_outboxes s)) h) by (simpl; lia).
  - intros t h. rewrite <- Hqs. unfold queued, outbox_of, entry. simpl.
    destruct (decide (t = target)) as [->|]; [|by rewrite lookup_delete_ne].
    rewrite lookup_delete_eq, lookup_insert_eq. simpl. unfold id. by rewrite Hempty.
Qed.

End acknowledge.

Lemma acknowledge_effect target height s :
  chain_boxes_ok s ->
  exists changed s',
    chain_mark_messages_as_received target height s = Ok (changed, s') /\ chain_boxes_ok s' /\
    (forall t h, queued s' t h <-> queued s t h /\ (t = target -> height < h)) /\
    (changed = true <-> exists h, queued s target h /\ h <= height).
Proof.
  intros Hok. unfold chain_mark_messages_as_received. cbv zeta. rewrite entry_load.
  unfold load_entry. fold (outbox_of s target).
  destruct (mark_messages_as_received height (outbox_of s target)) as [updates outbox'] eqn:Hm.
  rewrite insert_insert_eq.
  destruct (marked_outbox _ _ _ _ _ Hok Hm) as (_ & _ & _ & _ & Hup).
  destruct (marked_counters _ _ _ _ _ Hok Hm) as (counters & Hl & Hc).
  destruct updates as [|u updates].
  - injection Hl as <-. eexists false, _. split; [done|].
    destruct (marked_boxes _ _ _ _ _ Hok Hm _ _ Hc (or_introl eq_refl)) as [Hb Hq].
    split_and!; [done|done|]. split; [done|]. intros (h & Hh). apply Hup in Hh. set_solver.
  - rewrite Hl. simpl. eexists true, _. split; [done|].
    match goal with |- boxes_ok (ch_outboxes (set_outboxes ?o _ _)) _ /\ _ =>
      destruct (marked_boxes _ _ _ _ _ Hok Hm o _ Hc) as [Hb Hq] end.
    + case_bool_decide; auto.
    + split_and!; [exact Hb|exact Hq|]. split; [|done]. intros _. exists u. apply Hup. left.
Qed.

(** Acknowledgements.  With exact counters, marking the messages of a target
    as received up to a height never panics and keeps the counters exact.  It
    removes exactly the heights up to this one from the outbox of the target,
    leaves the other outboxes alone, and returns whether anything was removed. *)
Theorem acknowledgements_exact target height s :
  chain_boxes_ok s ->
  exists changed s',
    chain_mark_messages_as_received target height s = Ok (changed, s') /\ chain_boxes_ok s' /\
    (forall t h, queued s' t h <-> queued s t h /\ (t = target -> height < h)) /\
    (changed = true <-> exists h, queued s target h /\ h <= height).
Proof. apply acknowledge_effect. Qed.

Lemma delivered_iff height s :
  chain_boxes_ok s ->
  all_messages_delivered_up_to height s = true <->
  forall target h, queued s target h -> height < h.
Proof.
  intros [_ Hc]. unfold all_messages_delivered_up_to.
  assert (forall h, is_Some (ch_outbox_counters s !! h) <-> exists target, queued s target h) as Hkey.
  { intros h. rewrite Hc. pose proof (in_flight_zero (ch_outboxes s) h) as Hz.
    destruct (Z.eqb_spec (in_flight (ch_outboxes s) h) 0) as [H0|H0].
    - split; [by intros []|]. intros (target & Hq). unfold queued, outbox_of, entry in Hq.
      destruct (ch_outboxes s !! target) as [o|] eqn:Ho; [|by apply elem_of_nil in Hq].
      by destruct (proj1 Hz H0 _ _ Ho).
    - split; [|done]. intros _. destruct (in_flight_pos _ _ H0) as (target & o & Ho & Hin).
      exists target. unfold queued, outbox_of, entry. by rewrite Ho. }
  destruct (btree_first (ch_outbox_counters s)) as [[k n]|] eqn:Hf.
  - apply btree_first_min in Hf as [Hk Hmin]. rewrite Z.ltb_lt. split.
    + intros Hlt target h Hq. specialize (Hmin h (proj2 (Hkey h) (ex_intro (fun t => queued s t h) target Hq))). lia.
    + intros Hall. destruct (proj1 (Hkey k) (mk_is_Some _ _ Hk)) as [target Hq]. by eapply Hall.
  - apply btree_first_None in Hf. split; [|done]. intros _ target h Hq.
    destruct (proj2 (Hkey h) (ex_intro (fun t => queued s t h) target Hq)) as [n Hn]. by rewrite Hf, lookup_empty in Hn.
Qed.

(** [all_messages_delivered_up_to] is exact: it says that no outbox has a
    message waiting at or below the height. *)
Theorem delivered_exact height s :
  chain_boxes_ok s ->
  all_messages_delivered_up_to height s = true <->
  forall target h, queued s target h -> height < h.
Proof. apply delivered_iff. Qed.

(** A result that subscribes two chains to the same channel cannot be
    processed: the channel is loaded twice for writing, and the block fails with
    [TryLockError]. *)
Theorem duplicate_subscription_fails {M} application_id (lift : M -> Message) height name id1 id2
    messages s :
  process_raw_execution_result application_id lift height
    {| res_authenticated_signer := None; res_messages := [];
       res_subscribe := [(name, id1); (name, id2)]; res_unsubscribe := [] |} (messages, s) =
  Err (ChainViewError ViewTryLockError).
Proof.
  unfold process_raw_execution_result. simpl. rewrite elements_empty. simpl.
  unfold process_subscribe, load_channels, try_load_entries_mut. simpl.
  rewrite bool_decide_eq_false_2; [done|]. rewrite NoDup_cons. set_solver.
Qed.

(** ** Examples *)

Module ChainExamples.

(** Blocks 3 and 5 wait for chain 2, block 5 waits for chain 4. *)
Definition boxes : gmap Target OutboxState :=
  {[ target_chain 2 := {| next_height_to_schedule := 6; outbox_queue := [3; 5] |};
     target_chain 4 := {| next_height_to_schedule := 6; outbox_queue := [5] |} ]}.
Definition counters : gmap BlockHeight Z := {[ 3 := 1; 5 := 2 ]}.

Lemma boxes_exact : boxes_ok boxes counters.
Proof.
  split.
  - apply map_Forall_insert_2; [|apply map_Forall_singleton];
      split; repeat constructor; simpl; lia.
  - intros h. unfold boxes. rewrite in_flight_insert. unfold in_flight.
    rewrite map_fmap_singleton, <- insert_empty, map_sum_insert, map_sum_empty, lookup_empty.
    change (entry _ _ _) with outbox_default. unfold waiting. simpl.
    destruct (decide (h = 3)) as [->|H3]; [done|]. destruct (decide (h = 5)) as [->|H5]; [done|].
    rewrite !bool_decide_eq_false_2 by set_solver. unfold counters.
    by rewrite lookup_insert_ne, lookup_singleton_ne by done.
Qed.

Import SystemExamples.

(** Chain 1 of the examples on system operations, with these mailboxes. *)
Definition chain : ChainState :=
  {| ch_execution := {| es_system := state; es_simple_users := ∅; es_view_users := ∅ |};
     ch_execution_hash := None; ch_tip := {| tip_block_hash := None; next_block_height := 6 |};
     ch_manager := ManagerNone; ch_confirmed_log := []; ch_received_log := [];
     ch_inboxes := ∅; ch_outboxes := boxes; ch_outbox_counters := counters; ch_channels := ∅ |}.

Lemma acknowledgements_exact_witness :
  exists s', chain_mark_messages_as_received (target_chain 2) 4 chain = Ok (true, s') /\
    chain_boxes_ok s' /\ ~ queued s' (target_chain 2) 3 /\ queued s' (target_chain 2) 5.
Proof.
  destruct (acknowledgements_exact (target_chain 2) 4 chain boxes_exact)
    as (changed & s' & Hr & Hok & Hq & Hc).
  assert (changed = true) as -> by (apply Hc; exists 3; split; [decide_now|lia]).
  exists s'. split_and!; [exact Hr|exact Hok| |].
  - rewrite Hq. intros [_ Hlt]. specialize (Hlt eq_refl). lia.
  - apply Hq. split; [decide_now|lia].
Defined.

Lemma delivered_exact_witness :
  all_messages_delivered_up_to 2 chain = true /\
  forall target h, queued chain target h -> 2 < h.
Proof.
  split; [by vm_compute|]. apply (delivered_exact 2 chain boxes_exact). by vm_compute.
Defined.

End ChainExamples.
