(* ===== verification/Blocks.v ===== *)
(** * Execution of blocks

    Theorems on [execute_block], [receive_block] and
    [remove_events_from_inboxes] of [linera-chain/src/chain.rs]: blocks create
    no tokens, authenticate messages only with the signers they were given,
    deliver every message to an outbox, and keep the mailboxes consistent. *)

From S2P Require Import Prelude Numbers Types Crypto Committees Policy Bcs Inbox Outbox Errors.
From S2P Require Import Certificates Managers Registry System Batches KeyValueStore Runtime.
From S2P Require Import Execution ChainState.

(** ** Tokens in messages *)

Definition message_credit (message : Message) : Z :=
  match message with SystemMsg (MsgCredit _ amount) => amount | _ => 0 end.
Definition messages_credit (messages : list OutgoingMessage) : Z :=
  foldr (fun m acc => message_credit (out_message m) + acc) 0 messages.

(** The credits of a block to the accounts of its chain. *)
Definition incoming_credit (chain_id : ChainId) (message : IncomingMessage) : Z :=
  match ev_message (in_event message) with
  | SystemMsg (MsgCredit account amount) =>
      if chain_id =? account_chain_id account then amount else 0
  | _ => 0
  end.
Definition block_credit (chain_id : ChainId) (block : Block) : Z :=
  foldr (fun m acc => incoming_credit chain_id m + acc) 0 (block_incoming_messages block).

(** The amounts of the messages fit in 128 bits, as their type says. *)
Definition amounts_ok (message : IncomingMessage) : Prop :=
  match ev_message (in_event message) with
  | SystemMsg m => in_range u128_MAX (message_amount m)
  | UserMsg _ _ => True
  end.

#[export] Instance amounts_ok_dec message : Decision (amounts_ok message).
Proof. unfold amounts_ok. destruct (ev_message _); apply _. Defined.

Definition results_credit (results : list ExecutionResult) : Z :=
  foldr (fun r acc => match r with ResultSystem raw => credited raw + acc | _ => acc end) 0 results.

Lemma messages_credit_app l1 l2 :
  messages_credit (l1 ++ l2) = messages_credit l1 + messages_credit l2.
Proof. induction l1 as [|m l1 IH]; simpl; [done|]. rewrite IH. lia. Qed.

Lemma result_messages_credit r :
  messages_credit (result_messages r) =
  match r with ResultSystem raw => credited raw | ResultUser _ _ => 0 end.
Proof.
  destruct r as [raw|id raw]; unfold credited, messages_credit; simpl;
    induction (res_messages raw) as [|m l IH]; csimpl; [done| |done|].
  - rewrite IH. by destruct (raw_message m).
  - by rewrite IH.
Qed.

Lemma results_messages_credit results :
  messages_credit (results ≫= result_messages) = results_credit results.
Proof.
  induction results as [|r results IH]; csimpl; [done|].
  rewrite messages_credit_app, IH, result_messages_credit. destruct r; simpl; lia.
Qed.

Lemma results_credit_app l1 l2 : results_credit (l1 ++ l2) = results_credit l1 + results_credit l2.
Proof. induction l1 as [|[] l1 IH]; simpl; rewrite ?IH; lia. Qed.

Lemma announcements_credit signer results :
  Forall (fun r => result_ok signer r \/ announcement r) results -> results_credit results = 0.
Proof.
  induction 1 as [|r results Hr _ IH]; simpl; [done|]. rewrite IH.
  destruct Hr as [(id & raw & -> & _)|(raw & -> & _ & Hall)]; [done|].
  unfold credited. rewrite Z.add_0_r.
  induction Hall as [|m l (_ & _ & apps & Hm) _ IHl]; simpl; [done|]. by rewrite Hm.
Qed.

(** ** Executing one message or operation *)

Section block.
Context `{Crypto} {B : Bcs} `{LeaderSampling, UserCode, StateHash}.
Context (chain_id : ChainId) (depth : nat).

Section transaction.
Context (policy : ResourceControlPolicy) (policy_ok : policy_wf policy).

Lemma user_action_tokens id chain action tracker e e' tracker' results :
  run_user_action chain_id depth id chain action policy tracker e = Ok (e', tracker', results) ->
  balances_wf (es_system e) ->
  balances_wf (es_system e') /\
  total_tokens (es_system e') + results_credit results <= total_tokens (es_system e).
Proof.
  intros Hrun [[Hb1 Hb2] Hall].
  destruct (run_user_action_inv _ _ _ _ _ _ _ _ _ _ _ Hrun)
    as ((counts & balance & Hc1 & Hc2 & Hc3 & Hlim & Hsys) & Hres).
  destruct (update_limits_le _ _ _ _ _ _ policy_ok Hc1 Hc2 Hc3 Hlim) as [Hle Hnn].
  rewrite Hsys, (announcements_credit _ _ Hres), total_set_balance. split; [|lia].
  split; [|done]. simpl. unfold in_range. lia.
Qed.

Lemma run_operation_tokens context operation tracker e e' tracker' results :
  execute_operation chain_id depth context operation policy tracker e =
    Ok (e', tracker', results) ->
  balances_wf (es_system e) ->
  balances_wf (es_system e') /\
  total_tokens (es_system e') + results_credit results <= total_tokens (es_system e).
Proof.
  unfold execute_operation. intros ([] & _ & Hop)%bind_Ok Hwf.
  destruct operation as [op|id bytes]; [|by eapply user_action_tokens].
  apply bind_Ok in Hop as ([[system r] new] & Hs & Hop). apply map_err_Ok in Hs.
  destruct (execute_operation_tokens _ _ _ _ _ _ Hwf Hs) as [Htotal Hwf1].
  assert (0 <= burned_by op) as Hburn.
  { destruct (execute_operation_cases _ _ _ _ _ _ Hs)
      as [(_ & _ & ->)|(owner & recipient & amount & data & messages & -> & _ & Ht)]; [lia|].
    apply exec_transfer_Ok in Ht as (_ & Hpos & _). destruct recipient; simpl; lia. }
  assert (credited (with_authenticated_signer (opctx_authenticated_signer context) r) =
    credited r) as Hcr by done.
  destruct new as [[id argument]|].
  - apply bind_Ok in Hop as ([[e1 t1] more] & Hrun & [= <- <- <-]).
    destruct (user_action_tokens _ _ _ _ _ _ _ _ Hrun Hwf1) as [Hwf2 Hle].
    cbn [results_credit foldr app]. fold (results_credit more). simpl in Hle. rewrite Hcr.
    split; [done|]. lia.
  - injection Hop as <- <- <-. simpl. split; [done|]. rewrite Hcr. lia.
Qed.

Lemma run_message_tokens context message tracker e e' tracker' results :
  execute_message chain_id depth context message policy tracker e = Ok (e', tracker', results) ->
  balances_wf (es_system e) ->
  (forall m, message = SystemMsg m -> in_range u128_MAX (message_amount m)) ->
  balances_wf (es_system e') /\
  total_tokens (es_system e') + results_credit results <= total_tokens (es_system e) +
    match message with SystemMsg m => received context m | UserMsg _ _ => 0 end.
Proof.
  unfold execute_message. intros ([] & _ & Hm)%bind_Ok Hwf Ham.
  destruct message as [m|id bytes].
  - apply bind_Ok in Hm as ([system r] & Hs & [= <- <- <-]). apply map_err_Ok in Hs.
    destruct (execute_message_tokens _ _ _ _ _ Hwf (Ham m eq_refl) Hs) as (Hwf1 & Hle & _).
    simpl. split; [done|]. lia.
  - rewrite Z.add_0_r. by eapply user_action_tokens.
Qed.

End transaction.

(** The signers of the messages of a result. *)
Definition signed_by (signer : option Owner) (message : OutgoingMessage) : Prop :=
  out_authenticated_signer message = None \/ out_authenticated_signer message = signer.

Lemma raw_signed {M} (lift : M -> Message) signer raw_signer (l : list (RawOutgoingMessage M)) :
  raw_signer = None \/ raw_signer = signer ->
  Forall (signed_by signer) (outgoing_message lift raw_signer <$> l).
Proof.
  intros Hs. apply Forall_fmap, Forall_true. intros m. unfold signed_by. simpl.
  destruct (raw_authenticated m); auto.
Qed.

Lemma action_signed signer results :
  Forall (fun r => result_ok signer r \/ announcement r) results ->
  Forall (signed_by signer) (results ≫= result_messages).
Proof.
  induction 1 as [|r results Hr _ IH]; csimpl; [done|]. apply Forall_app. split; [|done].
  destruct Hr as [(id & raw & -> & Hs)|(raw & -> & Hs & _)]; apply raw_signed; auto.
Qed.

Lemma run_operation_signed context operation policy tracker e e' tracker' results :
  execute_operation chain_id depth context operation policy tracker e =
    Ok (e', tracker', results) ->
  Forall (signed_by (opctx_authenticated_signer context)) (results ≫= result_messages).
Proof.
  unfold execute_operation. intros ([] & _ & Hop)%bind_Ok.
  destruct operation as [op|id bytes].
  2: { apply run_user_action_inv in Hop as (_ & Hres). by apply action_signed. }
  apply bind_Ok in Hop as ([[system r] new] & _ & Hop). destruct new as [[id argument]|].
  - apply bind_Ok in Hop as ([[e1 t1] more] & Hrun & [= _ _ <-]). csimpl.
    apply Forall_app. split; [apply raw_signed; auto|].
    apply run_user_action_inv in Hrun as (_ & Hres). by apply action_signed.
  - injection Hop as _ _ <-. csimpl. rewrite app_nil_r. apply raw_signed; auto.
Qed.

Lemma run_message_signed context message policy tracker e e' tracker' results :
  execute_message chain_id depth context message policy tracker e = Ok (e', tracker', results) ->
  Forall (signed_by (msgctx_authenticated_signer context)) (results ≫= result_messages).
Proof.
  unfold execute_message. intros ([] & _ & Hm)%bind_Ok. destruct message as [m|id bytes].
  - apply bind_Ok in Hm as ([system r] & Hs & [= _ _ <-]). apply map_err_Ok in Hs.
    csimpl. rewrite app_nil_r. apply raw_signed. left. by eapply system_message_unsigned.
  - apply run_user_action_inv in Hm as (_ & Hres). by apply action_signed.
Qed.

(** ** Progress through a block *)

Notation system_of p := (es_system (ch_execution (pg_chain p))).

(** What recording the results of a transaction does. *)
Lemma record_results_inv height e tracker results p p' :
  record_results height (e, tracker, results) p = Ok p' ->
  block_step height (pg_chain p) (pg_chain p') /\ ch_execution (pg_chain p') = e /\
  pg_tracker p' = tracker /\ pg_messages p' = pg_messages p ++ (results ≫= result_messages) /\
  pg_message_counts p' = pg_message_counts p ++ [Z.of_nat (length (pg_messages p'))] /\
  Z.of_nat (length (pg_messages p')) <= u32_MAX /\
  (heights_ok height (pg_chain p) -> Forall (direct_queued (pg_chain p) height) (pg_messages p) ->
   Forall (direct_queued (pg_chain p') height) (pg_messages p')).
Proof.
  unfold record_results. intros ([messages s] & Hp & Hr)%bind_Ok.
  apply bind_Ok in Hr as (count & Hcount & [= <-]). simpl.
  destruct (process_results_step _ _ _ _ _ _ Hp) as (Hm & Hmsgs & Hq).
  unfold try_u32, try_from in Hcount. apply ok_or_Ok in Hcount.
  destruct (Z.leb_spec (Z.of_nat (length messages)) u32_MAX); [|done]. injection Hcount as <-.
  pose proof (mail_execution _ _ _ Hm) as He. simpl in He.
  split_and!; [|done..|].
  - unfold block_step. by rewrite He.
  - intros Hok Hall. apply Hq; [by apply heights_execution|]. done.
Qed.

(** The two loops of [execute_block], as one sequence of steps. *)
Inductive transaction_step (policy : ResourceControlPolicy) (block : Block)
    (p p' : BlockProgress) : Prop :=
| step_message message context e tracker results :
    message ∈ block_incoming_messages block ->
    msgctx_chain_id context = chain_id ->
    msgctx_authenticated_signer context = ev_authenticated_signer (in_event message) ->
    execute_message chain_id depth context (ev_message (in_event message)) policy
      (pg_tracker p) (ch_execution (pg_chain p)) = Ok (e, tracker, results) ->
    record_results (block_height block) (e, tracker, results) p = Ok p' ->
    transaction_step policy block p p'
| step_operation operation context e tracker results :
    operation ∈ block_operations block ->
    opctx_authenticated_signer context = block_authenticated_signer block ->
    execute_operation chain_id depth context operation policy
      (pg_tracker p) (ch_execution (pg_chain p)) = Ok (e, tracker, results) ->
    record_results (block_height block) (e, tracker, results) p = Ok p' ->
    transaction_step policy block p p'.

Lemma elem_of_imap_pair {A} (l : list A) i a : (i, a) ∈ imap pair l -> a ∈ l.
Proof.
  intros Hin. apply list_elem_of_lookup in Hin as [j Hj]. rewrite list_lookup_imap in Hj.
  apply fmap_Some in Hj as (a' & Ha & [= _ ->]). by eapply list_elem_of_lookup_2.
Qed.

Lemma imap_pair_snd {A} (l : list A) : (imap pair l).*2 = l.
Proof.
  apply list_eq. intros i. rewrite list_lookup_fmap, list_lookup_imap. by destruct (l !! i).
Qed.

Lemma message_step policy block i message p p' :
  (i, message) ∈ imap pair (block_incoming_messages block) ->
  execute_incoming_message chain_id depth policy (block_height block) (i, message) p = Ok p' ->
  transaction_step policy block p p'.
Proof.
  intros Hin%elem_of_imap_pair Hm. unfold execute_incoming_message in Hm.
  apply bind_Ok in Hm as (index & _ & Hm). apply bind_Ok in Hm as ([[e t] results] & He & Hr).
  apply map_err_Ok in He.
  eapply step_message; [exact Hin| | |exact He|exact Hr]; done.
Qed.

Lemma operation_step policy block i operation p p' :
  (i, operation) ∈ imap pair (block_operations block) ->
  execute_block_operation chain_id depth policy (block_height block)
    (block_authenticated_signer block) (i, operation) p = Ok p' ->
  transaction_step policy block p p'.
Proof.
  intros Hin%elem_of_imap_pair Hm. unfold execute_block_operation in Hm.
  apply bind_Ok in Hm as (index & _ & Hm). apply bind_Ok in Hm as (next & _ & Hm).
  apply bind_Ok in Hm as ([[e t] results] & He & Hr).
  apply map_err_Ok in He. eapply step_operation; [exact Hin| |exact He|exact Hr]; done.
Qed.

(** The block between its fees and the return of the credits. *)
Lemma execute_block_inv block now s s' outcome :
  execute_block chain_id depth block now s = Ok (s', outcome) ->
  exists epoch committee balance p0 p1 p2,
    let system := es_system (ch_execution s) in
    let policy := committee_policy committee in
    let credit := amount_sum (omap (is_chain_credit chain_id) (block_incoming_messages block)) in
    block_chain_id block = chain_id /\
    current_committee system = Some (epoch, committee) /\
    charge_block policy block credit (sys_balance system) = Ok balance /\
    pg_chain p0 = set_execution (set_system (set_balance balance
      (set_timestamp (block_timestamp block) system)) (ch_execution s)) s /\
    pg_messages p0 = [] /\ pg_message_counts p0 = [] /\
    for_each (execute_incoming_message chain_id depth policy (block_height block))
      (imap pair (block_incoming_messages block)) p0 = Ok p1 /\
    for_each (execute_block_operation chain_id depth policy (block_height block)
      (block_authenticated_signer block)) (imap pair (block_operations block)) p1 = Ok p2 /\
    credit <= sys_balance (system_of p2) /\
    (let chain := update_system (set_balance (sys_balance (system_of p2) - credit)) (pg_chain p2) in
     exists manager, s' = set_consensus (Some (crypto_hash (ch_execution chain))) manager chain) /\
    outcome_messages outcome = pg_messages p2 /\
    outcome_message_counts outcome = pg_message_counts p2 /\
    Some (outcome_state_hash outcome) = ch_execution_hash s'.
Proof.
  unfold execute_block. intros ([] & Hid & Hb)%bind_Ok. apply assertion_Ok, Z.eqb_eq in Hid.
  apply bind_Ok in Hb as ([] & Htime & Hb).
  apply bind_Ok in Hb as ([epoch committee] & Hc & Hb). apply ok_or_Ok in Hc.
  apply bind_Ok in Hb as (balance & Hbalance & Hb).
  apply bind_Ok in Hb as (p1 & H1' & Hb). apply bind_Ok in Hb as (p2 & H2' & Hb).
  apply bind_Ok in Hb as (balance' & Hsub & Hb). apply map_err_Ok in Hsub.
  unfold sub_assign_fees in Hsub. apply map_err_Ok, try_sub_assign_Ok in Hsub as [-> Hle].
  apply bind_Ok in Hb as (next & _ & Hb). apply bind_Ok in Hb as (manager & _ & [= <- <-]).
  match type of H1' with for_each _ _ ?p0 = _ => exists epoch, committee, balance, p0, p1, p2 end.
  cbv zeta. split_and!; [done|exact Hc|exact Hbalance|done|done|done|exact H1'|exact H2'|exact Hle
    |by exists manager|done|done|done].
Qed.

(** The manager is reset for the next height. *)
Lemma execute_block_manager block now s s' outcome :
  execute_block chain_id depth block now s = Ok (s', outcome) ->
  manager_reset (sys_ownership (es_system (ch_execution s'))) (block_height block + 1) now =
    Ok (ch_manager s').
Proof.
  unfold execute_block. intros ([] & _ & Hb)%bind_Ok. apply bind_Ok in Hb as ([] & _ & Hb).
  apply bind_Ok in Hb as ([epoch committee] & _ & Hb). apply bind_Ok in Hb as (balance & _ & Hb).
  apply bind_Ok in Hb as (p1 & _ & Hb). apply bind_Ok in Hb as (p2 & _ & Hb).
  apply bind_Ok in Hb as (balance' & _ & Hb). apply bind_Ok in Hb as (next & Hn & Hb).
  apply map_err_Ok, try_add_one_Ok in Hn as [-> _].
  apply bind_Ok in Hb as (manager & Hm & [= <- _]). exact Hm.
Qed.

Lemma loops_invariant (P : BlockProgress -> Prop) policy block p0 p1 p2 :
  (forall p p', transaction_step policy block p p' -> P p -> P p') -> P p0 ->
  for_each (execute_incoming_message chain_id depth policy (block_height block))
    (imap pair (block_incoming_messages block)) p0 = Ok p1 ->
  for_each (execute_block_operation chain_id depth policy (block_height block)
    (block_authenticated_signer block)) (imap pair (block_operations block)) p1 = Ok p2 ->
  P p2.
Proof.
  intros Hstep Hp0 Hl1 Hl2. assert (P p1) as Hp1.
  { eapply (for_each_invariant P); [|done|exact Hl1].
    intros [i m] p p' Hin Hp Hm. eapply Hstep; [by eapply message_step|done]. }
  eapply (for_each_invariant P); [|done|exact Hl2].
  intros [i m] p p' Hin Hp Hm. eapply Hstep; [by eapply operation_step|done].
Qed.

(** Blocks authenticate messages only with the signers they were given.  A
    message of a block carries an authenticated signer only if it is the signer
    of the block or the signer of one of its incoming messages. *)
Theorem block_authentication block now s s' outcome :
  execute_block chain_id depth block now s = Ok (s', outcome) ->
  Forall (fun message => forall owner, out_authenticated_signer message = Some owner ->
    block_authenticated_signer block = Some owner \/
    exists incoming, incoming ∈ block_incoming_messages block /\
      ev_authenticated_signer (in_event incoming) = Some owner) (outcome_messages outcome).
Proof.
  intros Hb. destruct (execute_block_inv _ _ _ _ _ Hb)
    as (epoch & committee & balance & p0 & p1 & p2 & _ & _ & _ & _ & Hnil & _ & Hl1 & Hl2 & _ & _ &
        -> & _).
  refine (loops_invariant (fun p => Forall _ (pg_messages p)) _ block p0 p1 p2 _ _ Hl1 Hl2);
    [|by rewrite Hnil].
  intros p p' [message context e t results Hin _ Hs He Hr|op context e t results Hin Hs He Hr] Hp;
    apply record_results_inv in Hr as (_ & _ & _ & -> & _); apply Forall_app; (split; [done|]).
  - apply run_message_signed in He. eapply Forall_impl; [exact He|].
    intros m [->| ->] owner Ho; [done|]. rewrite Hs in Ho. right. by exists message.
  - apply run_operation_signed in He. eapply Forall_impl; [exact He|].
    intros m [->| ->] owner Ho; [done|]. rewrite Hs in Ho. by left.
Qed.

Lemma for_each_length {E A S} (g : S -> nat) (f : A -> S -> result E S) l s s' :
  (forall a s1 s2, a ∈ l -> f a s1 = Ok s2 -> g s2 = (g s1 + 1)%nat) ->
  for_each f l s = Ok s' -> g s' = (g s + length l)%nat.
Proof.
  revert s. induction l as [|a l IH]; intros s Hf; simpl; [by intros [= <-]|].
  intros (s1 & Ha & Hl)%bind_Ok. rewrite (IH s1), (Hf a s s1); [lia|left|done| |done].
  intros b s2 s3 Hb. apply Hf. by right.
Qed.

(** Every transaction records one count and adds its messages at the end. *)
Lemma transaction_counts policy block p p' :
  transaction_step policy block p p' ->
  (exists new, pg_messages p' = pg_messages p ++ new) /\
  pg_message_counts p' = pg_message_counts p ++ [Z.of_nat (length (pg_messages p'))] /\
  Z.of_nat (length (pg_messages p')) <= u32_MAX.
Proof.
  intros [? ? ? ? ? _ _ _ _ Hr|? ? ? ? ? _ _ _ Hr]; apply record_results_inv in Hr as
    (_ & _ & _ & Hm & Hc & Hmax & _); split_and!; eauto.
Qed.

Definition counts_ok (p : BlockProgress) : Prop :=
  StronglySorted Z.le (pg_message_counts p) /\ Forall (in_range u32_MAX) (pg_message_counts p) /\
  Forall (fun c => c <= Z.of_nat (length (pg_messages p))) (pg_message_counts p) /\
  default 0 (last (pg_message_counts p)) = Z.of_nat (length (pg_messages p)).

Lemma counts_step policy block p p' : transaction_step policy block p p' -> counts_ok p -> counts_ok p'.
Proof.
  intros Hs (Hsort & Hrange & Hle & _).
  destruct (transaction_counts _ _ _ _ Hs) as ((new & Hm) & Hc & Hmax).
  assert (Forall (fun c => c <= Z.of_nat (length (pg_messages p'))) (pg_message_counts p)) as Hle'.
  { eapply Forall_impl; [exact Hle|]. simpl. intros c. rewrite Hm, length_app. lia. }
  unfold counts_ok. rewrite Hc, last_snoc. split_and!; [..|done].
  - clear -Hsort Hle'. induction Hsort as [|c counts Hs IH Hc]; simpl; [repeat constructor|].
    apply Forall_cons in Hle' as [? Hle']. constructor; [by apply IH|].
    apply Forall_app. split; [done|]. by constructor.
  - apply Forall_app. split; [done|]. constructor; [|done]. unfold in_range. lia.
  - apply Forall_app. split; [done|]. constructor; [lia|done].
Qed.

(** The message counts of a block.  There is one count for each incoming
    message and each operation, in this order; the counts do not decrease, fit
    in 32 bits, and the last one is the number of messages of the block. *)
Theorem block_message_counts block now s s' outcome :
  execute_block chain_id depth block now s = Ok (s', outcome) ->
  let counts := outcome_message_counts outcome in
  length counts =
    (length (block_incoming_messages block) + length (block_operations block))%nat /\
  StronglySorted Z.le counts /\ Forall (in_range u32_MAX) counts /\
  default 0 (last counts) = Z.of_nat (length (outcome_messages outcome)).
Proof.
  intros Hb. destruct (execute_block_inv _ _ _ _ _ Hb)
    as (epoch & committee & balance & p0 & p1 & p2 & _ & _ & _ & _ & Hm0 & Hc0 & Hl1 & Hl2 & _ & _ &
        -> & -> & _). simpl. split.
  - assert (forall p p', transaction_step (committee_policy committee) block p p' ->
      length (pg_message_counts p') = (length (pg_message_counts p) + 1)%nat) as Hone.
    { intros p p' Hs. destruct (transaction_counts _ _ _ _ Hs) as (_ & -> & _).
      by rewrite length_app. }
    apply (for_each_length (fun p => length (pg_message_counts p))) in Hl1;
      [|intros [i m] p p' Hin Hm; eapply Hone, message_step; done].
    apply (for_each_length (fun p => length (pg_message_counts p))) in Hl2;
      [|intros [i m] p p' Hin Hm; eapply Hone, operation_step; done].
    rewrite Hl2, Hl1, Hc0, !length_imap. simpl. lia.
  - assert (counts_ok p2) as (? & ? & _ & ?); [|done].
    refine (loops_invariant counts_ok _ block p0 p1 p2 _ _ Hl1 Hl2); [apply counts_step|].
    unfold counts_ok. rewrite Hc0, Hm0. split_and!; [constructor..|done].
Qed.

(** ** Tokens *)

Definition tokens (p : BlockProgress) : Z :=
  total_tokens (system_of p) + messages_credit (pg_messages p).

Lemma record_tokens height e tracker results p p' :
  record_results height (e, tracker, results) p = Ok p' ->
  system_of p' = es_system e /\
  tokens p' = total_tokens (es_system e) + results_credit results + messages_credit (pg_messages p).
Proof.
  intros (_ & He & _ & Hm & _)%record_results_inv. unfold tokens.
  rewrite He, Hm, messages_credit_app, results_messages_credit. split; [done|lia].
Qed.

Section tokens.
Context (policy : ResourceControlPolicy) (policy_ok : policy_wf policy).

Lemma messages_tokens height l p p' :
  for_each (execute_incoming_message chain_id depth policy height) l p = Ok p' ->
  Forall amounts_ok l.*2 -> balances_wf (system_of p) ->
  balances_wf (system_of p') /\
  tokens p' <= tokens p + foldr (fun m acc => incoming_credit chain_id m + acc) 0 l.*2.
Proof.
  revert p. induction l as [|[i m] l IH]; intros p; csimpl; [intros [= <-]; split; [done|lia]|].
  intros (p1 & Hm & Hl)%bind_Ok [Ham Hall]%Forall_cons Hwf. unfold execute_incoming_message in Hm.
  apply bind_Ok in Hm as (index & _ & Hm). apply bind_Ok in Hm as ([[e t] results] & He & Hr).
  apply map_err_Ok in He. apply record_tokens in Hr as [Hsys Htok].
  apply (run_message_tokens policy policy_ok) in He as [Hwf1 Hle]; [|done|].
  - rewrite <- Hsys in Hwf1. destruct (IH p1 Hl Hall Hwf1) as [Hwf' Hle'].
    split; [done|]. unfold tokens in *. rewrite Hsys in *. unfold incoming_credit at 1.
    simpl in Hle. destruct (ev_message (in_event m)) as [[]|]; simpl in *; lia.
  - intros msg Hmsg. unfold amounts_ok in Ham. by rewrite Hmsg in Ham.
Qed.

Lemma operations_tokens height signer l p p' :
  for_each (execute_block_operation chain_id depth policy height signer) l p = Ok p' ->
  balances_wf (system_of p) -> balances_wf (system_of p') /\ tokens p' <= tokens p.
Proof.
  intros Hl Hwf.
  eapply (for_each_invariant (fun q => balances_wf (system_of q) /\ tokens q <= tokens p));
    [|split; [exact Hwf|lia]|exact Hl].
  intros [i op] q q' _ [Hwf1 Hle] Hop. unfold execute_block_operation in Hop.
  apply bind_Ok in Hop as (index & _ & Hop). apply bind_Ok in Hop as (next & _ & Hop).
  apply bind_Ok in Hop as ([[e t] results] & He & Hr). apply map_err_Ok in He.
  apply record_tokens in Hr as [Hsys Htok].
  apply (run_operation_tokens policy policy_ok) in He as [Hwf2 Hle2]; [|done].
  rewrite Hsys. split; [done|]. unfold tokens in *. rewrite Htok. lia.
Qed.

Lemma amount_sum_nonneg l : Forall (fun x => 0 <= x) l -> 0 <= amount_sum l.
Proof.
  unfold amount_sum. intros Hall. assert (forall acc, 0 <= acc ->
    0 <= foldl (fun a b => num_saturating_add u128_MAX a b) acc l) as Hfold; [|by apply Hfold].
  induction Hall as [|x l Hx _ IH]; intros acc Hacc; simpl; [done|]. apply IH.
  unfold num_saturating_add, saturating_add, u128_MAX. lia.
Qed.

Lemma chain_credits_nonneg messages :
  Forall amounts_ok messages -> Forall (fun x => 0 <= x) (omap (is_chain_credit chain_id) messages).
Proof.
  intros Hall. rewrite Forall_forall in Hall. apply Forall_forall. intros x Hx.
  apply list_elem_of_omap in Hx as (m & Hin & Hm). specialize (Hall _ Hin).
  unfold amounts_ok in Hall. unfold is_chain_credit in Hm.
  destruct (ev_message (in_event m)) as [[]|]; try done. case_bool_decide; [|done].
  injection Hm as <-. apply Hall.
Qed.

Lemma price_raw_nonneg size fees :
  (forall n, size = Ok n -> 0 <= n) -> storage_bytes_written_price_raw policy size = Ok fees ->
  0 <= fees.
Proof.
  unfold storage_bytes_written_price_raw. intros Hsize (n & Hn & Hf)%bind_Ok.
  apply map_err_Ok in Hn. apply bind_Ok in Hf as (n' & Hn' & Hf). apply map_err_Ok in Hf.
  apply try_mul_Ok in Hf as [-> _]. apply ok_or_Ok in Hn'. unfold try_from in Hn'.
  destruct (n <=? u128_MAX); [|done]. injection Hn' as <-. specialize (Hsize n Hn).
  unfold policy_wf, in_range in policy_ok. nia.
Qed.

Lemma charge_block_le `{!BcsLaws B} block credit balance balance' :
  charge_block policy block credit balance = Ok balance' ->
  0 <= balance' <= balance + credit /\ balance + credit <= u128_MAX.
Proof.
  unfold charge_block, sub_assign_fees. intros (b1 & Hb1 & Hb)%bind_Ok.
  apply map_err_Ok in Hb1. apply ok_or_Ok, checked_add_Some in Hb1 as [-> Hmax].
  apply bind_Ok in Hb as (b2 & Hb2 & Hb). apply map_err_Ok, map_err_Ok, try_sub_assign_Ok in Hb2 as [-> ?].
  apply bind_Ok in Hb as (f1 & Hf1 & Hb). apply map_err_Ok, price_raw_nonneg in Hf1;
    [|apply bcs_size_incoming_nonneg].
  apply bind_Ok in Hb as (b3 & Hb3 & Hb). apply map_err_Ok, map_err_Ok, try_sub_assign_Ok in Hb3 as [-> ?].
  apply bind_Ok in Hb as (f2 & Hf2 & Hb). apply map_err_Ok, price_raw_nonneg in Hf2;
    [|apply bcs_size_operations_nonneg].
  apply map_err_Ok, map_err_Ok, try_sub_assign_Ok in Hb as [-> ?].
  assert (0 <= certificate_price policy) by apply policy_ok. lia.
Qed.

End tokens.

(** C15: Blocks create no tokens.  After a block, what the chain holds and what the
    messages of the block will credit is at most what it held before and what
    the messages it received credit to its accounts.  The balances stay within
    128 bits.  In particular the credits the block is lent while it is executed
    are taken back. *)
Theorem block_creates_no_tokens `{!BcsLaws B} block now s s' outcome :
  balances_wf (es_system (ch_execution s)) ->
  (forall epoch committee, current_committee (es_system (ch_execution s)) = Some (epoch, committee) ->
     policy_wf (committee_policy committee)) ->
  Forall amounts_ok (block_incoming_messages block) ->
  execute_block chain_id depth block now s = Ok (s', outcome) ->
  balances_wf (es_system (ch_execution s')) /\
  total_tokens (es_system (ch_execution s')) + messages_credit (outcome_messages outcome) <=
    total_tokens (es_system (ch_execution s)) + block_credit chain_id block.
Proof.
  intros Hwf Hpolicy Ham Hb. destruct (execute_block_inv _ _ _ _ _ Hb)
    as (epoch & committee & balance & p0 & p1 & p2 & _ & Hcur & Hcharge & Hp0 & Hm0 & _ &
        Hl1 & Hl2 & Hcredit & (manager & ->) & -> & _).
  specialize (Hpolicy _ _ Hcur).
  pose proof (amount_sum_nonneg _ (chain_credits_nonneg _ Ham)) as Hnn.
  set (credit := amount_sum _) in *.
  destruct (charge_block_le _ Hpolicy _ _ _ _ Hcharge) as [[Hge Hle] Hmax].
  destruct Hwf as [Hbal Hbals].
  assert (balances_wf (system_of p0)) as Hwf0.
  { rewrite Hp0. split; [|done]. simpl. unfold in_range. lia. }
  destruct (messages_tokens _ Hpolicy _ _ _ _ Hl1) as [Hwf1 Ht1]; [|done|].
  { by rewrite imap_pair_snd. }
  destruct (operations_tokens _ Hpolicy _ _ _ _ _ Hl2 Hwf1) as [Hwf2 Ht2].
  assert (tokens p0 = total_tokens (es_system (ch_execution s)) + balance -
    sys_balance (es_system (ch_execution s))) as Ht0.
  { unfold tokens, total_tokens. rewrite Hp0, Hm0. simpl. lia. }
  rewrite imap_pair_snd in Ht1. fold (block_credit chain_id block) in Ht1.
  unfold tokens in Ht0, Ht1, Ht2. unfold tokens in Ht0.
  change (es_system (ch_execution (set_consensus _ _ _))) with
    (set_balance (sys_balance (system_of p2) - credit) (system_of p2)).
  rewrite total_set_balance. split; [|lia]. destruct Hwf2 as [[Hb1 Hb2] Hbals2].
  split; [|done]. simpl. unfold in_range. lia.
Qed.

(** ** Mailboxes *)

Lemma transaction_mail policy block p p' :
  transaction_step policy block p p' ->
  block_step (block_height block) (pg_chain p) (pg_chain p') /\
  (heights_ok (block_height block) (pg_chain p) ->
   Forall (direct_queued (pg_chain p) (block_height block)) (pg_messages p) ->
   Forall (direct_queued (pg_chain p') (block_height block)) (pg_messages p')).
Proof.
  by intros [? ? ? ? ? _ _ _ _ Hr|? ? ? ? ? _ _ _ Hr]; apply record_results_inv in Hr as
    (Hstep & _ & _ & _ & _ & _ & Hq).
Qed.

Lemma execute_block_mail block now s s' outcome :
  execute_block chain_id depth block now s = Ok (s', outcome) ->
  boxes_step (ch_outboxes s, ch_outbox_counters s) (ch_outboxes s', ch_outbox_counters s') /\
  ch_tip s' = ch_tip s /\ ch_inboxes s' = ch_inboxes s /\
  ch_confirmed_log s' = ch_confirmed_log s /\ ch_received_log s' = ch_received_log s /\
  (heights_ok (block_height block) s -> heights_ok (block_height block) s' /\
   Forall (direct_queued s' (block_height block)) (outcome_messages outcome)).
Proof.
  intros Hb. destruct (execute_block_inv _ _ _ _ _ Hb)
    as (epoch & committee & balance & p0 & p1 & p2 & _ & _ & _ & Hp0 & Hm0 & _ &
        Hl1 & Hl2 & _ & (manager & ->) & -> & _).
  assert (block_step (block_height block) (pg_chain p0) (pg_chain p2) /\
    (heights_ok (block_height block) (pg_chain p0) -> Forall (direct_queued (pg_chain p2)
       (block_height block)) (pg_messages p2))) as [Hstep Hq].
  { refine (loops_invariant (fun p => block_step _ (pg_chain p0) (pg_chain p) /\
      (heights_ok _ (pg_chain p0) -> Forall (direct_queued (pg_chain p) _) (pg_messages p)))
      _ block p0 p1 p2 _ _ Hl1 Hl2); [|split; [done|by rewrite Hm0]].
    intros p p' [Hs Hd]%transaction_mail [Hs0 Hq0]. split; [by etrans|].
    intros Hok. apply Hd; [|by apply Hq0].
    apply (mail_heights _ _ _ Hs0). by apply heights_execution. }
  destruct Hstep as [_ _ Htip _ Hconf Hrec Hin Hboxes Hheights _].
  rewrite Hp0 in *. simpl in *. split_and!; [done..|]. intros Hok.
  rewrite !heights_execution in *. split; [|by apply Hq].
  destruct (Hheights Hok) as [Ho Hc]. by split.
Qed.

(** C31: Messages reach an outbox.  While a block is executed, every message with a
    direct recipient is put in the outbox of the recipient at the height of the
    block; the counters stay exact as long as there are at most [u32::MAX]
    outboxes; and the mailboxes are ready for the next height. *)
Theorem block_messages_scheduled block now s s' outcome :
  execute_block chain_id depth block now s = Ok (s', outcome) ->
  heights_ok (block_height block) s -> chain_boxes_ok s ->
  Z.of_nat (size (ch_outboxes s')) <= u32_MAX ->
  Forall (direct_queued s' (block_height block)) (outcome_messages outcome) /\
  chain_boxes_ok s' /\ heights_ok (block_height block + 1) s'.
Proof.
  intros (Hboxes & _ & _ & _ & _ & Hh)%execute_block_mail Hok Hbox Hmax.
  destruct (Hh Hok) as [Hok' Hq]. split_and!; [done|by apply Hboxes|].
  destruct Hok' as [Ho Hc]. split.
  - intros target. destruct (Ho target) as [Hwf Hn]. split; [done|]. left. lia.
  - intros name h Hch. specialize (Hc name h Hch). lia.
Qed.

(** ** Receiving blocks *)

Definition inbox_of (s : ChainState) (origin : Origin) : InboxState :=
  entry inbox_default origin (ch_inboxes s).

Section receive.
Context (origin : Origin) (height : BlockHeight) (timestamp : Timestamp).
Context (certificate_hash : CryptoHash) (now : Timestamp).

(** The events a block has for this chain and origin. *)
Definition block_events (messages : list OutgoingMessage) : list Event :=
  omap (fun '(index, message) =>
    if belongs_to chain_id origin message
    then Some (outgoing_event origin height timestamp certificate_hash (Z.of_nat index) message)
    else None) (imap pair messages).

(** What receiving leaves alone. *)
Record same_mail (s s' : ChainState) : Prop := {
  same_inboxes : ch_inboxes s' = ch_inboxes s;
  same_outboxes : ch_outboxes s' = ch_outboxes s;
  same_counters : ch_outbox_counters s' = ch_outbox_counters s;
  same_channels : ch_channels s' = ch_channels s;
  same_tip : ch_tip s' = ch_tip s;
  same_received : ch_received_log s' = ch_received_log s;
  same_confirmed : ch_confirmed_log s' = ch_confirmed_log s;
  same_active : chain_is_active s = true ->
    ch_execution s' = ch_execution s /\ ch_execution_hash s' = ch_execution_hash s /\
    ch_manager s' = ch_manager s;
  same_manager : ch_manager s' = ch_manager s \/
    exists ownership, manager_reset ownership 0 now = Ok (ch_manager s');
}.

#[local] Instance same_mail_preorder : PreOrder same_mail.
Proof.
  split; [split; auto|]. intros s1 s2 s3 [] []. split; try congruence.
  - intros Ha. destruct (same_active0 Ha) as (He & ? & ?).
    destruct same_active1 as (? & ? & ?); [unfold chain_is_active in *; congruence|].
    split_and!; congruence.
  - destruct same_manager1 as [->|]; auto.
Qed.

Lemma immediate_same message_id message s s' :
  execute_immediate_message message_id message timestamp now s = Ok s' -> same_mail s s'.
Proof.
  unfold execute_immediate_message. destruct message as [[]|]; try by intros [= <-].
  intros (system & Ho & Hs)%bind_Ok. apply bind_Ok in Hs as (manager & Hm & [= <-]).
  split; try done; [|right; by eexists]. intros Ha. exfalso.
  unfold open_chain in Ho. apply bind_Ok in Ho as ([] & Hd & _).
  apply assertion_Ok, bool_decide_eq_true in Hd.
  unfold chain_is_active, system_is_active in Ha. by rewrite Hd in Ha.
Qed.

Lemma receive_loop l s events s' events' :
  for_each (receive_message chain_id origin height timestamp certificate_hash now) l (s, events) =
    Ok (s', events') ->
  same_mail s s' /\ events' = events ++ omap (fun '(index, message) =>
    if belongs_to chain_id origin message
    then Some (outgoing_event origin height timestamp certificate_hash (Z.of_nat index) message)
    else None) l.
Proof.
  revert s events. induction l as [|[i m] l IH]; intros s events; csimpl.
  { intros [= <- <-]. split; [done|]. by rewrite app_nil_r. }
  intros ([s1 events1] & Hm & Hl)%bind_Ok. apply IH in Hl as [Hs ->].
  apply bind_Ok in Hm as (index & Hi & Hm). unfold try_u32, try_from in Hi. apply ok_or_Ok in Hi.
  destruct (_ <=? _); [|done]. injection Hi as <-. destruct (belongs_to chain_id origin m).
  - apply bind_Ok in Hm as (s2 & Him & [= <- <-]). rewrite <- app_assoc. split; [|done].
    etrans; [|done]. destruct (out_message m); [by eapply immediate_same|by injection Him as <-].
  - injection Hm as <- <-. split; [done|done].
Qed.

Lemma receive_block_inv messages s s' :
  receive_block chain_id origin height timestamp messages certificate_hash now s = Ok s' ->
  (exists next, next_block_height_to_receive (inbox_of s origin) = Ok next /\ next <= height) /\
  block_events messages <> [] /\
  for_each add_event (block_events messages) (inbox_of s origin) = Ok (inbox_of s' origin) /\
  (forall other, other <> origin -> inbox_of s' other = inbox_of s other) /\
  ch_received_log s' =
    ch_received_log s ++ [{| cah_chain_id := sender origin; cah_height := height |}] /\
  ch_outboxes s' = ch_outboxes s /\ ch_outbox_counters s' = ch_outbox_counters s /\
  ch_channels s' = ch_channels s /\ ch_tip s' = ch_tip s /\
  ch_confirmed_log s' = ch_confirmed_log s /\
  (chain_is_active s = true ->
   ch_execution s' = ch_execution s /\ ch_execution_hash s' = ch_execution_hash s /\
   ch_manager s' = ch_manager s) /\
  (ch_manager s' = ch_manager s \/
   exists ownership, manager_reset ownership 0 now = Ok (ch_manager s')).
Proof.
  unfold receive_block, chain_next_block_height_to_receive.
  intros ([s0 next] & Hn & Hr)%bind_Ok. apply bind_Ok in Hn as (next' & Hn & [= <- <-]).
  apply map_err_Ok in Hn. rewrite entry_load in Hn.
  apply bind_Ok in Hr as ([] & Hle & Hr). apply ensure_Ok, Z.leb_le in Hle.
  apply bind_Ok in Hr as ([s1 events] & Hl & Hr). apply receive_loop in Hl as [[] ->].
  fold (block_events messages) in Hr. simpl in *.
  apply bind_Ok in Hr as ([] & Hne & Hr). apply ensure_Ok, negb_true_iff, bool_decide_eq_false in Hne.
  apply bind_Ok in Hr as (inbox & Hi & [= <-]). apply map_err_Ok in Hi.
  rewrite entry_load, same_inboxes0, entry_load in Hi. simpl. split_and!; try congruence.
  - by exists next'.
  - unfold inbox_of at 2. simpl. by rewrite entry_insert, decide_True.
  - intros other Ho. unfold inbox_of. simpl.
    by rewrite entry_insert, decide_False, entry_load, same_inboxes0, entry_load.
  - exact same_active0.
Qed.

Lemma block_events_at messages :
  Forall (fun e => ev_height e = height /\ 0 <= ev_index e) (block_events messages).
Proof.
  apply Forall_forall. intros e He. apply list_elem_of_omap in He as ([i m] & _ & Hm).
  destruct (belongs_to chain_id origin m); [|done]. injection Hm as <-. simpl. lia.
Qed.

Lemma add_events_cursor events s s' :
  Forall (fun e => ev_height e = height /\ 0 <= ev_index e) events -> events <> [] ->
  for_each add_event events s = Ok s' ->
  cursor_height (next_cursor_to_add s') = height /\ 0 < cursor_index (next_cursor_to_add s').
Proof.
  intros Hall Hne. destruct events as [|e events _] using rev_ind; [done|]. clear Hne.
  apply Forall_app in Hall as [_ [[Hh Hi] _]%Forall_cons].
  rewrite for_each_app. intros (s1 & _ & Hs)%bind_Ok. cbn [for_each] in Hs.
  apply bind_Ok in Hs as (s2 & Hs & [= <-]). unfold add_event in Hs.
  apply bind_Ok in Hs as ([] & _ & Hs). apply bind_Ok in Hs as ([added removed] & _ & Hs).
  apply bind_Ok in Hs as (next & Hn & [= <-]). unfold cursor_try_add_one in Hn.
  apply bind_Ok in Hn as (i & Hn & [= <-]). apply ok_or_Ok, checked_add_Some in Hn as [-> _].
  simpl in *. lia.
Qed.

End receive.

(** Blocks are received exactly, and once.  Receiving a block adds to the inbox
    of the origin exactly the events that the block has for this chain through
    this origin, at least one, in order; it leaves the other inboxes, the
    outboxes and the channels alone and records the block in the log.
    Afterwards no block of this origin at this or a lower height is received. *)
Theorem receive_block_once origin height timestamp messages certificate_hash now s s' :
  receive_block chain_id origin height timestamp messages certificate_hash now s = Ok s' ->
  let events := block_events origin height timestamp certificate_hash messages in
  events <> [] /\
  for_each add_event events (inbox_of s origin) = Ok (inbox_of s' origin) /\
  (forall other, other <> origin -> inbox_of s' other = inbox_of s other) /\
  ch_received_log s' =
    ch_received_log s ++ [{| cah_chain_id := sender origin; cah_height := height |}] /\
  ch_outboxes s' = ch_outboxes s /\ ch_channels s' = ch_channels s /\
  forall height' timestamp' messages' hash' now', height' <= height ->
    is_ok (receive_block chain_id origin height' timestamp' messages' hash' now' s') = false.
Proof.
  intros (_ & Hne & Hadd & Hother & Hlog & Ho & _ & Hc & _)%receive_block_inv.
  split_and!; [done..|]. intros height' t' m' h' now' Hle. apply not_true_iff_false.
  intros (s2 & Hr)%is_ok_true. apply receive_block_inv in Hr as ((next & Hn & Hle') & _).
  destruct (add_events_cursor height _ _ _ (block_events_at _ _ _ _ _) Hne Hadd) as [Hh Hi].
  unfold next_block_height_to_receive in Hn.
  destruct (Z.eqb_spec (cursor_index (next_cursor_to_add (inbox_of s' origin))) 0); [lia|].
  apply try_add_one_Ok in Hn as [-> _]. lia.
Qed.

(** ** Consuming events *)

(** The events a block consumes from one origin, in order. *)
Definition events_from (origin : Origin) (messages : list IncomingMessage) : list Event :=
  in_event <$> filter (fun m => in_origin m = origin) messages.

Lemma events_by_origin_lookup messages origin :
  events_by_origin messages !! origin =
  match events_from origin messages with [] => None | events => Some events end.
Proof.
  unfold events_by_origin, events_from. induction messages as [|m messages IH] using rev_ind; [done|].
  rewrite foldl_app, filter_app, fmap_app. simpl.
  rewrite filter_cons. case_decide as Hm; simpl.
  - rewrite <- Hm, lookup_insert_eq, Hm, IH.
    destruct (in_event <$> filter _ messages); done.
  - rewrite lookup_insert_ne, IH, app_nil_r by done. done.
Qed.

Lemma remove_groups groups inboxes inboxes' :
  NoDup groups.*1 -> for_each (remove_events chain_id) groups inboxes = Ok inboxes' ->
  forall origin,
    (forall events, (origin, events) ∈ groups ->
       for_each remove_event events (entry inbox_default origin inboxes) =
         Ok (entry inbox_default origin inboxes')) /\
    (origin ∉ groups.*1 -> entry inbox_default origin inboxes' = entry inbox_default origin inboxes).
Proof.
  revert inboxes. induction groups as [|[o events] groups IH]; intros inboxes; csimpl.
  { intros _ [= <-] origin. split; [set_solver|done]. }
  intros [Hnin Hn]%NoDup_cons (inboxes1 & Hg & Hl)%bind_Ok origin.
  apply bind_Ok in Hg as (inbox & Hg & [= <-]). apply map_err_Ok in Hg.
  destruct (IH _ Hn Hl origin) as [Hin Hout]. rewrite entry_insert in *. split.
  - intros es [[= -> ->]|He]%elem_of_cons.
    + rewrite decide_True in Hout by done. by rewrite (Hout Hnin).
    + assert (o <> origin) as Hne.
      { intros ->. apply Hnin, list_elem_of_fmap. by exists (origin, es). }
      rewrite decide_False in Hin by done. by apply Hin.
  - intros [Hne Hnin']%not_elem_of_cons. rewrite decide_False in Hout by done. by apply Hout.
Qed.

Lemma remove_events_same block s s' :
  remove_events_from_inboxes chain_id block s = Ok s' -> s' = set_inboxes (ch_inboxes s') s.
Proof.
  unfold remove_events_from_inboxes. intros ([] & _ & Hr)%bind_Ok.
  apply bind_Ok in Hr as (inboxes & _ & Hr). by apply bind_Ok in Hr as (inboxes' & _ & [= <-]).
Qed.

Lemma remove_events_inv block s s' :
  remove_events_from_inboxes chain_id block s = Ok s' ->
  (forall origin, for_each remove_event (events_from origin (block_incoming_messages block))
     (inbox_of s origin) = Ok (inbox_of s' origin)) /\
  ch_outboxes s' = ch_outboxes s /\ ch_outbox_counters s' = ch_outbox_counters s.
Proof.
  unfold remove_events_from_inboxes. intros ([] & _ & Hr)%bind_Ok.
  set (groups := sort_by _ _) in Hr. apply bind_Ok in Hr as (inboxes & Hload & Hr).
  apply map_err_Ok, try_load_Ok in Hload as [Hn ->].
  apply bind_Ok in Hr as (inboxes' & Hl & [= <-]). split; [|done]. intros origin.
  destruct (remove_groups _ _ _ Hn Hl origin) as [Hin Hout]. rewrite entry_load_all in *.
  assert (forall es, (origin, es) ∈ groups <->
    events_by_origin (block_incoming_messages block) !! origin = Some es) as Hgroups.
  { intros es. unfold groups. rewrite sort_by_perm. apply elem_of_map_to_list. }
  setoid_rewrite events_by_origin_lookup in Hgroups. unfold inbox_of at 2. simpl.
  destruct (events_from origin (block_incoming_messages block)) as [|e es].
  - simpl. f_equal. symmetry. apply Hout. intros ([o es] & -> & Hin')%list_elem_of_fmap.
    by apply Hgroups in Hin'.
  - by apply Hin, Hgroups.
Qed.

(** ** Histories of a chain *)

Inductive ChainOp :=
| ReceiveBlock (origin : Origin) (height : BlockHeight) (timestamp : Timestamp)
    (messages : list OutgoingMessage) (certificate_hash : CryptoHash) (now : Timestamp)
| ConsumeEvents (block : Block)
| ExecuteBlock (block : Block) (now : Timestamp)
| Acknowledge (target : Target) (height : BlockHeight).

Definition chain_op (op : ChainOp) (s : ChainState) : result ChainError ChainState :=
  match op with
  | ReceiveBlock origin height timestamp messages hash now =>
      receive_block chain_id origin height timestamp messages hash now s
  | ConsumeEvents block => remove_events_from_inboxes chain_id block s
  | ExecuteBlock block now => fst <$> execute_block chain_id depth block now s
  | Acknowledge target height => snd <$> chain_mark_messages_as_received target height s
  end.

(** What an operation does to the inbox of an origin. *)
Definition inbox_ops (origin : Origin) (op : ChainOp) : list InboxOp :=
  match op with
  | ReceiveBlock o height timestamp messages hash _ =>
      if bool_decide (o = origin)
      then AddEvent <$> block_events o height timestamp hash messages else []
  | ConsumeEvents block => RemoveEvent <$> events_from origin (block_incoming_messages block)
  | ExecuteBlock _ _ | Acknowledge _ _ => []
  end.

Lemma acknowledge_inboxes target height s changed s' :
  chain_mark_messages_as_received target height s = Ok (changed, s') -> ch_inboxes s' = ch_inboxes s.
Proof.
  unfold chain_mark_messages_as_received. destruct (mark_messages_as_received _ _) as [[|u us] o].
  - by intros [= _ <-].
  - by intros (counters & _ & [= _ <-])%bind_Ok.
Qed.

Lemma for_each_fmap {E A A' S} (g : A' -> A) (f : A -> S -> result E S) l s :
  for_each f (g <$> l) s = for_each (fun a => f (g a)) l s.
Proof.
  revert s. induction l as [|a l IH]; intros s; csimpl; [done|].
  destruct (f (g a) s); simpl; auto.
Qed.

Lemma inbox_run_for_each ops s : inbox_run ops s = for_each inbox_step ops s.
Proof.
  revert s. induction ops as [|op ops IH]; intros s; simpl; [done|].
  destruct (inbox_step op s); simpl; auto.
Qed.

Lemma chain_op_inbox origin op s s' :
  chain_op op s = Ok s' ->
  inbox_run (inbox_ops origin op) (inbox_of s origin) = Ok (inbox_of s' origin).
Proof.
  rewrite inbox_run_for_each. destruct op as [o height timestamp messages hash now|block|block now|target height];
    cbn [chain_op inbox_ops].
  - intros (_ & _ & Hadd & Hother & _)%receive_block_inv. case_bool_decide as Ho; subst.
    + by rewrite for_each_fmap.
    + simpl. by rewrite Hother.
  - intros [Hr _]%remove_events_inv. rewrite for_each_fmap. apply Hr.
  - intros ([s1 outcome] & Hb & ->)%fmap_Ok. apply execute_block_mail in Hb as (_ & _ & Hin & _).
    unfold inbox_of. simpl. by rewrite Hin.
  - intros ([changed s1] & Ha & ->)%fmap_Ok. apply acknowledge_inboxes in Ha.
    unfold inbox_of. simpl. by rewrite Ha.
Qed.

(** The inboxes of a chain follow their origins.  In any history of a chain,
    blocks received, consumed, executed and acknowledged in any order, the inbox
    of an origin is the inbox that received the events of the blocks of this
    origin and consumed the events of the executed blocks from this origin, and
    nothing else. *)
Theorem chain_inbox_history ops s s' origin :
  ch_inboxes s = ∅ -> for_each chain_op ops s = Ok s' ->
  inbox_run (ops ≫= inbox_ops origin) inbox_default = Ok (inbox_of s' origin).
Proof.
  intros Hempty Hrun. assert (inbox_of s origin = inbox_default) as <- by (unfold inbox_of; by rewrite Hempty).
  clear Hempty. revert s Hrun. induction ops as [|op ops IH]; intros s; csimpl; [by intros [= <-]|].
  intros (s1 & Hop & Hrun)%bind_Ok. apply (chain_op_inbox origin) in Hop. specialize (IH _ Hrun).
  rewrite inbox_run_for_each in *. by rewrite for_each_app, Hop.
Qed.

End block.

(** ** Examples *)

Module BlockExamples.
Import SymbolicCrypto SymbolicBcs RegistryExamples SystemExamples RuntimeExamples.
Import ExecutionExamples.

#[export] Instance first_owner : LeaderSampling :=
  {| weights_accepted l := negb (bool_decide (l = [])); sample_index _ _ := 0%nat |}.
#[export] Instance constant_hash : StateHash := {| crypto_hash _ := 77 |}.

(** Chain 1 at height 6: it has 10 tokens, of which owner 5 holds 7. *)
Definition system : SystemState :=
  set_committees (Some 0) {[0 := committee_new ∅ prices]} (set_registry registry state).
Definition chain : ChainState :=
  {| ch_execution := {| es_system := system; es_simple_users := ∅; es_view_users := ∅ |};
     ch_execution_hash := None; ch_tip := {| tip_block_hash := None; next_block_height := 6 |};
     ch_manager := ManagerNone; ch_confirmed_log := []; ch_received_log := [];
     ch_inboxes := ∅; ch_outboxes := ∅; ch_outbox_counters := ∅; ch_channels := ∅ |}.

(** Chain 2 credits 5 tokens to the chain. *)
Definition example_credit : OutgoingMessage :=
  {| out_destination := Recipient 1; out_authenticated_signer := None; out_is_skippable := false;
     out_message := SystemMsg (MsgCredit (account_of_chain 1) 5) |}.
Definition credit_event : Event := outgoing_event (origin_chain 2) 4 8 99 0 example_credit.

(** The block executes the credit, a transfer of owner 5 and a user operation. *)
Definition block : Block :=
  {| block_chain_id := 1; block_epoch := 0;
     block_incoming_messages := [{| in_origin := origin_chain 2; in_event := credit_event |}];
     block_operations := [SystemOp transfer; UserOp (app 2) [3]];
     block_height := 6; block_timestamp := 10; block_authenticated_signer := Some 5;
     block_previous_block_hash := None |}.

Definition executed : ChainState * BlockExecutionOutcome :=
  match execute_block 1 2 block 10 chain with
  | Ok r => r
  | _ => (chain, {| outcome_messages := []; outcome_message_counts := [];
                    outcome_state_hash := 0 |})
  end.

Lemma executed_ok : execute_block 1 2 block 10 chain = Ok (executed.1, executed.2).
Proof. by vm_compute. Qed.

Lemma block_creates_no_tokens_witness :
  total_tokens (es_system (ch_execution executed.1)) = 6 /\
  messages_credit (outcome_messages executed.2) = 4 /\
  6 + 4 <= total_tokens (es_system (ch_execution chain)) + block_credit 1 block.
Proof.
  split; [by vm_compute|]. split; [by vm_compute|].
  apply (block_creates_no_tokens 1 2 block 10 chain executed.1 executed.2 state_balances).
  - intros epoch committee [= <- <-]. decide_now.
  - decide_now.
  - exact executed_ok.
Defined.

Lemma block_authentication_witness :
  Forall (fun message => forall owner, out_authenticated_signer message = Some owner ->
    Some 5 = Some owner \/
    exists incoming, incoming ∈ block_incoming_messages block /\
      ev_authenticated_signer (in_event incoming) = Some owner) (outcome_messages executed.2).
Proof.
  apply (block_authentication 1 2 block 10 chain executed.1 executed.2). exact executed_ok.
Defined.

Lemma block_message_counts_witness :
  outcome_message_counts executed.2 = [0; 1; 1] /\
  default 0 (last (outcome_message_counts executed.2)) =
    Z.of_nat (length (outcome_messages executed.2)).
Proof.
  split; [by vm_compute|].
  apply (block_message_counts 1 2 block 10 chain executed.1 executed.2). exact executed_ok.
Defined.

Lemma block_messages_scheduled_witness :
  queued executed.1 (target_chain 2) 6 /\ chain_boxes_ok executed.1.
Proof.
  split; [decide_now|].
  apply (block_messages_scheduled 1 2 block 10 chain executed.1 executed.2).
  - exact executed_ok.
  - split; [|by intros name h].
    intros target. change (outbox_of chain target) with outbox_default.
    split; [apply outbox_default_wf|]. left. simpl. lia.
  - split; [done|]. intros h. by vm_compute.
  - by vm_compute.
Defined.

Definition received : ChainState :=
  match receive_block 1 (origin_chain 2) 4 8 [example_credit] 99 9 chain with
  | Ok s => s
  | _ => chain
  end.

Lemma receive_block_once_witness :
  added_events (inbox_of received (origin_chain 2)) = [credit_event] /\
  is_ok (receive_block 1 (origin_chain 2) 4 8 [example_credit] 99 9 received) = false.
Proof.
  split; [by vm_compute|].
  destruct (receive_block_once 1 (origin_chain 2) 4 8 [example_credit] 99 9 chain received)
    as (_ & _ & _ & _ & _ & _ & Honce); [by vm_compute|]. apply Honce. lia.
Defined.

(** The block is executed before the credit arrives. *)
Definition history : list ChainOp :=
  [ConsumeEvents block; ExecuteBlock block 10; Acknowledge (target_chain 2) 6;
   ReceiveBlock (origin_chain 2) 4 8 [example_credit] 99 11].
Definition after_history : ChainState :=
  match for_each (chain_op 1 2) history chain with Ok s => s | _ => chain end.

Lemma chain_inbox_history_witness :
  removed_events (inbox_of after_history (origin_chain 2)) = [] /\
  inbox_run [RemoveEvent credit_event; AddEvent credit_event] inbox_default =
    Ok (inbox_of after_history (origin_chain 2)).
Proof.
  split; [by vm_compute|].
  apply (chain_inbox_history 1 2 history chain after_history (origin_chain 2)); [done|].
  by vm_compute.
Defined.

End BlockExamples.
