(* ===== verification/Storage.v ===== *)
(** * Storage

    The store of a validator ([linera-storage/src/lib.rs]): the states of the
    chains, the certificates and their values, and the keys below the views of
    the applications.  The three kinds of [BaseKey] are three maps; the
    databases themselves do not fail here.

    - [load_chain] gives the saved state of a chain, or a new one;
    - [save_chain] is [RootView::save]: the views of the applications are
      flushed into the store, so a loaded chain has none of them in memory.  The
      hashes that the views cache are not recomputed when a chain is saved;
    - [load_application] finds the bytecode of an application in the block that
      published it.  The cache of loaded applications is left out.

    The theorem: certificates are read back as they were written, for every
    order of later writes.  [WorkerSafety] shows what [read_values_downward] reads
    from the store of a worker. *)

From S2P Require Import Prelude Numbers Types Crypto Committees Policy Bcs Inbox Outbox Errors.
From S2P Require Import Certificates Managers Registry System Batches KeyValueStore Runtime.
From S2P Require Import Execution ChainState.

(** ** Default states *)

Definition system_default : SystemState :=
  {| sys_description := None; sys_epoch := None; sys_admin_id := None; sys_subscriptions := ∅;
     sys_committees := ∅; sys_ownership := OwnershipNone; sys_balance := 0; sys_balances := ∅;
     sys_timestamp := 0; sys_registry := registry_default |}.

Definition execution_default : ExecutionState :=
  {| es_system := system_default; es_simple_users := ∅; es_view_users := ∅ |}.

Definition chain_default : ChainState :=
  {| ch_execution := execution_default; ch_execution_hash := None;
     ch_tip := {| tip_block_hash := None; next_block_height := 0 |};
     ch_manager := ManagerNone; ch_confirmed_log := []; ch_received_log := [];
     ch_inboxes := ∅; ch_outboxes := ∅; ch_outbox_counters := ∅; ch_channels := ∅ |}.

(** ** The store *)

Record DbStore := {
  st_chains : gmap ChainId ChainState;
  st_certificates : gmap CryptoHash LiteCertificate;
  st_values : gmap CryptoHash CertificateValue;
  st_users : Store;
}.

Definition set_chains (chains : gmap ChainId ChainState) (users : Store) (s : DbStore) : DbStore :=
  {| st_chains := chains; st_certificates := st_certificates s; st_values := st_values s;
     st_users := users |}.

(** *** Values and certificates *)

Definition add_value_to_batch (s : DbStore) (value : HashedValue) : DbStore :=
  {| st_chains := st_chains s; st_certificates := st_certificates s;
     st_values := <[hv_hash value := hv_value value]> (st_values s); st_users := st_users s |}.

Definition add_certificate_to_batch (s : DbStore) (certificate : Certificate) : DbStore :=
  let hash := hv_hash (cert_value certificate) in
  {| st_chains := st_chains s;
     st_certificates := <[hash := lite_certificate certificate]> (st_certificates s);
     st_values := <[hash := hv_value (cert_value certificate)]> (st_values s);
     st_users := st_users s |}.

Definition write_value (value : HashedValue) (s : DbStore) : DbStore := add_value_to_batch s value.
Definition write_values (values : list HashedValue) (s : DbStore) : DbStore :=
  foldl add_value_to_batch s values.
Definition write_certificate (certificate : Certificate) (s : DbStore) : DbStore :=
  add_certificate_to_batch s certificate.
Definition write_certificates (certificates : list Certificate) (s : DbStore) : DbStore :=
  foldl add_certificate_to_batch s certificates.

Definition read_value (hash : CryptoHash) (s : DbStore) : result ViewError HashedValue :=
  value ← ok_or (st_values s !! hash) ViewNotFound;
  Ok (with_hash_unchecked value hash).

Definition read_certificate (hash : CryptoHash) (s : DbStore) : result ViewError Certificate :=
  value ← ok_or (st_values s !! hash) ViewNotFound;
  cert ← ok_or (st_certificates s !! hash) ViewNotFound;
  ok_or (lite_with_value cert (with_hash_unchecked value hash)) ViewInconsistentEntries.

Fixpoint read_certificates (keys : list CryptoHash) (s : DbStore)
    : result ViewError (list Certificate) :=
  match keys with
  | [] => Ok []
  | key :: keys =>
      certificate ← read_certificate key s;
      certificates ← read_certificates keys s;
      Ok (certificate :: certificates)
  end.

(** [read_values_downward]: [limit] is the number of rounds left, [from] the next
    hash if any. *)
Fixpoint read_values_downward (from : option CryptoHash) (limit : nat) (s : DbStore)
    : result ViewError (list HashedValue) :=
  match limit, from with
  | S limit, Some next_hash =>
      value ← read_value next_hash s;
      match value_executed_block (hv_value value) with
      | Some executed_block =>
          values ← read_values_downward
            (block_previous_block_hash (eb_block executed_block)) limit s;
          Ok (value :: values)
      | None => Ok []
      end
  | _, _ => Ok []
  end.

(** ** Chains *)

(** What the store is given: the engine that runs bytecode, if any, where the
    state of an application of a chain is in the database, and the hash of the
    execution state of a chain over the database. *)
Class StorageEnv := {
  wasm_runtime : option (bytes -> bytes -> result ExecutionError UserApplication);
  view_base_key : ChainId -> UserApplicationId -> bytes;
  execution_hash : Store -> ChainId -> ExecutionState -> CryptoHash;
}.

Section storage.
Context `{Crypto, Bcs, LeaderSampling, StorageEnv}.

Definition load_bytecode (description : UserApplicationDescription) (s : DbStore)
    : result ExecutionError UserApplication :=
  wasm_application ← expect wasm_runtime;
  let location := desc_bytecode_location description in
  value ← map_err (fun e =>
      match e with
      | ViewNotFound => ApplicationBytecodeNotFound description
      | e => execution_error_from_view e
      end) (read_value (loc_certificate_hash location) s);
  match hv_value value with
  | ConfirmedBlock executed_block =>
      match block_operations (eb_block executed_block)
              !! Z.to_nat (loc_operation_index location) with
      | Some (SystemOp (OpPublishBytecode contract service)) => wasm_application contract service
      | _ => Err (InvalidBytecodeId (desc_bytecode_id description))
      end
  | _ => Err (InvalidBytecodeId (desc_bytecode_id description))
  end.

(** [ChainRuntimeContext] of a chain. *)
Definition chain_code (s : DbStore) (chain_id : ChainId) : UserCode :=
  {| get_user_application description := load_bytecode description s;
     user_store := st_users s; user_base_key := view_base_key chain_id |}.
Definition chain_hash (s : DbStore) (chain_id : ChainId) : StateHash :=
  {| crypto_hash := execution_hash (st_users s) chain_id |}.

Definition load_chain (id : ChainId) (s : DbStore) : ChainState :=
  default chain_default (st_chains s !! id).

Definition load_active_chain (id : ChainId) (s : DbStore) : result ChainError ChainState :=
  let chain := load_chain id s in
  ensure_is_active id chain ;; Ok chain.

(** The views of the applications, written in the order of their keys. *)
Definition flush_users (views : gmap UserApplicationId KeyValueStoreView) : Batch :=
  foldl (fun batch view => (kv_flush batch view).1) []
    (sort_by kv_base_key (map_to_list views).*2).

Definition saved (chain : ChainState) : ChainState :=
  let execution := ch_execution chain in
  set_execution {| es_system := es_system execution;
                   es_simple_users := es_simple_users execution; es_view_users := ∅ |} chain.

Definition save_chain (id : ChainId) (chain : ChainState) (s : DbStore) : DbStore :=
  set_chains (<[id := saved chain]> (st_chains s))
    (write_batch (flush_users (es_view_users (ch_execution chain))) (st_users s)) s.

Definition create_chain (committee : Committee) (admin_id : ChainId)
    (description : ChainDescription) (public_key : PublicKey) (balance : Amount)
    (timestamp now : Timestamp) (s : DbStore) : result ChainError DbStore :=
  let id := chain_id_from description in
  let chain := load_chain id s in
  assertion (negb (chain_is_active chain)) ;;
  let system := es_system (ch_execution chain) in
  let system :=
    {| sys_description := Some description; sys_epoch := Some 0; sys_admin_id := Some admin_id;
       sys_subscriptions := sys_subscriptions system;
       sys_committees := <[0 := committee]> (sys_committees system);
       sys_ownership := ownership_single public_key; sys_balance := balance;
       sys_balances := sys_balances system; sys_timestamp := timestamp;
       sys_registry := sys_registry system |} in
  let execution := set_system system (ch_execution chain) in
  let state_hash := execution_hash (st_users s) id execution in
  manager ← manager_reset (ownership_single public_key) 0 now;
  Ok (save_chain id (set_consensus (Some state_hash) manager (set_execution execution chain)) s).

End storage.

(** ** What is stored stays stored *)

Section stored.
Context {C : Crypto} {CL : CryptoLaws C}.

(** A value with its own hash: [HashedValue]s are made this way when they are
    created and when they are deserialized. *)
Definition value_ok (v : HashedValue) : Prop := hv_hash v = hash_value (hv_value v).

#[export] Instance value_ok_dec v : Decision (value_ok v).
Proof. unfold value_ok. apply _. Defined.

Record store_ok (s : DbStore) : Prop := {
  store_values hash value : st_values s !! hash = Some value -> hash = hash_value value;
  store_certificates hash cert : st_certificates s !! hash = Some cert ->
    lv_value_hash (lcert_value cert) = hash /\
    exists value, st_values s !! hash = Some value /\
      value_chain_id value = lv_chain_id (lcert_value cert);
}.

Definition stored (s : DbStore) (hash : CryptoHash) (value : CertificateValue) : Prop :=
  st_values s !! hash = Some value /\ is_Some (st_certificates s !! hash).

(** Writing values and certificates. *)
Record store_step (s s' : DbStore) : Prop := {
  step_ok : store_ok s -> store_ok s';
  step_stored hash value : store_ok s -> stored s hash value -> stored s' hash value;
  step_chains : st_chains s' = st_chains s;
  step_users : st_users s' = st_users s;
}.

#[export] Instance store_step_preorder : PreOrder store_step.
Proof.
  split; [by split|]. intros s1 s2 s3 [] []. split; try congruence; auto.
Qed.

Lemma insert_value_keeps (values : gmap CryptoHash CertificateValue) v hash value :
  (forall hash value, values !! hash = Some value -> hash = hash_value value) -> value_ok v ->
  values !! hash = Some value -> <[hv_hash v := hv_value v]> values !! hash = Some value.
Proof.
  intros Hok Hv Hl. rewrite lookup_insert. case_decide as Heq; [|done].
  apply Hok in Hl. rewrite <- Heq, Hv in Hl. by apply hash_value_inj in Hl as ->.
Qed.

Lemma add_value_step s v : value_ok v -> store_step s (add_value_to_batch s v).
Proof.
  intros Hv. split; try done.
  - intros [Hvals Hcerts]. split; simpl.
    + intros hash value. rewrite lookup_insert_Some. intros [[<- <-]|[_ Hl]]; auto.
    + intros hash cert Hl. destruct (Hcerts _ _ Hl) as (Hh & value & Hl' & Hid). split; [done|].
      exists value. split; [|done]. by apply insert_value_keeps.
  - intros hash value [Hvals _] [Hl Hc]. split; [|done]. by apply insert_value_keeps.
Qed.

Lemma add_certificate_step s c :
  value_ok (cert_value c) -> store_step s (add_certificate_to_batch s c).
Proof.
  intros Hv. split; try done.
  - intros [Hvals Hcerts]. split; simpl.
    + intros hash value. rewrite lookup_insert_Some. intros [[<- <-]|[_ Hl]]; auto.
    + intros hash cert. rewrite lookup_insert_Some. intros [[<- <-]|[Hne Hl]].
      * split; [done|]. exists (hv_value (cert_value c)). by rewrite lookup_insert_eq.
      * destruct (Hcerts _ _ Hl) as (Hh & value & Hl' & Hid). split; [done|].
        exists value. split; [|done]. by apply insert_value_keeps.
  - intros hash value [Hvals _] [Hl Hc]. split; simpl; [by apply insert_value_keeps|].
    rewrite lookup_insert. case_decide; [by eexists|done].
Qed.

Lemma write_values_step s values : Forall value_ok values -> store_step s (write_values values s).
Proof.
  unfold write_values. intros Hall. revert s.
  induction Hall as [|v values Hv _ IH]; intros s; simpl; [done|].
  etrans; [by apply add_value_step|apply IH].
Qed.

Lemma write_certificates_step s certificates :
  Forall (fun c => value_ok (cert_value c)) certificates ->
  store_step s (write_certificates certificates s).
Proof.
  unfold write_certificates. intros Hall. revert s.
  induction Hall as [|c certificates Hc _ IH]; intros s; simpl; [done|].
  etrans; [by apply add_certificate_step|apply IH].
Qed.

Lemma write_stored s c :
  stored (write_certificate c s) (hv_hash (cert_value c)) (hv_value (cert_value c)).
Proof. split; simpl; by rewrite lookup_insert_eq. Qed.

Lemma read_stored s hash value :
  store_ok s -> stored s hash value ->
  exists cert, read_certificate hash s = Ok cert /\
    cert_value cert = {| hv_value := value; hv_hash := hash |}.
Proof.
  intros Hok [Hv [cert Hc]]. destruct (store_certificates _ Hok _ _ Hc) as (Hh & value' & Hv' & Hid).
  assert (value' = value) as -> by congruence.
  unfold read_certificate. rewrite Hv, Hc. simpl. unfold lite_with_value. simpl.
  rewrite Hid, Hh, !Z.eqb_refl. simpl. by eexists.
Qed.

Lemma read_certificates_stored s hashes values :
  store_ok s -> Forall2 (stored s) hashes values ->
  exists certs, read_certificates hashes s = Ok certs /\
    cert_value <$> certs = zip_with (fun value hash => {| hv_value := value; hv_hash := hash |})
      values hashes.
Proof.
  intros Hok. induction 1 as [|hash value hashes values Hs _ (certs & IH & Heq)]; [by exists []|].
  destruct (read_stored _ _ _ Hok Hs) as (cert & Hr & Hc). exists (cert :: certs). simpl.
  rewrite Hr. simpl. rewrite IH. csimpl. by rewrite Hc, Heq.
Qed.

(** C37: What is stored is read back.  A certificate is read exactly as it was last
    written under its hash; and in a consistent store no later write of values
    and certificates, with their own hashes, makes the value unreadable or
    changes it. *)
Theorem stored_certificate_roundtrip s c values certificates :
  read_certificate (hv_hash (cert_value c)) (write_certificate c s) = Ok c /\
  (store_ok s -> value_ok (cert_value c) -> Forall value_ok values ->
   Forall (fun c => value_ok (cert_value c)) certificates ->
   exists c', read_certificate (hv_hash (cert_value c))
       (write_certificates certificates (write_values values (write_certificate c s))) = Ok c' /\
     cert_value c' = cert_value c).
Proof.
  split.
  - unfold read_certificate. simpl. rewrite !lookup_insert_eq. simpl. unfold lite_with_value. simpl.
    rewrite !Z.eqb_refl. simpl. by destruct c as [[]].
  - intros Hok Hc Hvs Hcs.
    pose proof (step_ok _ _ (add_certificate_step s c Hc) Hok) as Hok1.
    assert (store_step (write_certificate c s)
      (write_certificates certificates (write_values values (write_certificate c s)))) as Hstep.
    { etrans; [by apply write_values_step|by apply write_certificates_step]. }
    destruct (read_stored _ _ _ (step_ok _ _ Hstep Hok1)
      (step_stored _ _ Hstep _ _ Hok1 (write_stored s c))) as (c' & Hr & Hv).
    exists c'. split; [done|]. rewrite Hv. by destruct (cert_value c).
Qed.

End stored.

(** ** A certificate and a later value *)

Module StorageExamples.
Import SymbolicCrypto.

Definition empty : DbStore :=
  {| st_chains := ∅; st_certificates := ∅; st_values := ∅; st_users := ∅ |}.
Definition timeout (height : BlockHeight) : HashedValue := hashed_from (LeaderTimeout 1 height 0).
Definition timeout_certificate : Certificate := certificate_new (timeout 4) 2 [].

Lemma stored_certificate_roundtrip_witness :
  exists c', read_certificate (hv_hash (timeout 4))
      (write_certificates [] (write_values [timeout 5] (write_certificate timeout_certificate empty)))
    = Ok c' /\ cert_value c' = timeout 4.
Proof.
  destruct (stored_certificate_roundtrip empty timeout_certificate [timeout 5] []) as [_ Hread].
  apply Hread.
  - by split.
  - done.
  - by constructor.
  - constructor.
Defined.

End StorageExamples.
