(* ===== verification/Worker.v ===== *)
(** * Workers

    The worker of a validator or of a local node ([linera-core/src/worker.rs])
    and its data ([linera-core/src/data_types.rs]): every handler of
    [ValidatorWorker], on a store of chains.

    A handler loads one chain, changes it in memory and saves it, or fails
    before it is saved; what was written to the store before a failure stays
    there.  So a handler is a function from the state of the worker to a result
    and a new state (the monad [worker]).  [ChainGuard]s keep other handlers away
    from the chain while it is loaded.

    - the clock is a sequence of readings;
    - [lru::LruCache] is a parameter (class [ValueCache]) with its documented
      behaviour;
    - the senders of [oneshot] channels are numbers, and [ws_notified] lists those
      that were used;
    - a number of the type [usize] is one of 64 bits. *)

From S2P Require Import Prelude Numbers Types Crypto Committees Policy Bcs Inbox Outbox Errors.
From S2P Require Import Certificates Managers Registry System Batches KeyValueStore Runtime.
From S2P Require Import Execution ChainState Storage.

(** ** Data *)

Record BlockHeightRange := {
  range_start : BlockHeight;
  range_limit : option Z;
}.

Record ChainInfoQuery := {
  query_chain_id : ChainId;
  test_next_block_height : option BlockHeight;
  request_committees : bool;
  request_pending_messages : bool;
  request_sent_certificates_in_range : option BlockHeightRange;
  request_received_log_excluding_first_nth : option Z;
  request_manager_values : bool;
  request_leader_timeout : bool;
  request_blob : option CryptoHash;
}.

Definition query_new (chain_id : ChainId) : ChainInfoQuery :=
  {| query_chain_id := chain_id; test_next_block_height := None; request_committees := false;
     request_pending_messages := false; request_sent_certificates_in_range := None;
     request_received_log_excluding_first_nth := None; request_manager_values := false;
     request_leader_timeout := false; request_blob := None |}.

Record ChainInfo := {
  info_chain_id : ChainId;
  info_epoch : option Epoch;
  info_description : option ChainDescription;
  info_manager : ChainManagerInfo;
  info_system_balance : Amount;
  info_block_hash : option CryptoHash;
  info_timestamp : Timestamp;
  info_next_block_height : BlockHeight;
  info_state_hash : option CryptoHash;
  requested_committees : option (gmap Epoch Committee);
  requested_pending_messages : list IncomingMessage;
  requested_sent_certificates : list Certificate;
  count_received_log : Z;
  requested_received_log : list ChainAndHeight;
  requested_blob : option HashedValue;
}.

Record ChainInfoResponse := {
  response_info : ChainInfo;
  response_signature : option Signature;
}.

Inductive CrossChainRequest :=
| UpdateRecipient (height_map : list (Medium * list BlockHeight)) (sender recipient : ChainId)
    (certificates : list Certificate)
| ConfirmUpdatedRecipient (sender recipient : ChainId)
    (latest_heights : list (Medium * BlockHeight)).

Definition target_chain_id (self : CrossChainRequest) : ChainId :=
  match self with
  | UpdateRecipient _ _ recipient _ => recipient
  | ConfirmUpdatedRecipient sender _ _ => sender
  end.

Definition has_messages_lower_or_equal_than (height : BlockHeight) (self : CrossChainRequest)
    : bool :=
  match self with
  | UpdateRecipient height_map _ _ _ =>
      existsb (fun '(_, heights) =>
        match heights with h :: _ => h <=? height | [] => false end) height_map
  | ConfirmUpdatedRecipient _ _ _ => false
  end.

Inductive Reason :=
| NewBlock (height : BlockHeight) (hash : CryptoHash)
| NewIncomingMessage (origin : Origin) (height : BlockHeight)
| NewRound (height : BlockHeight) (round : RoundNumber).

Record Notification := {
  notification_chain_id : ChainId;
  notification_reason : Reason;
}.

Record NetworkActions := {
  cross_chain_requests : list CrossChainRequest;
  notifications : list Notification;
}.
Definition no_actions : NetworkActions := {| cross_chain_requests := []; notifications := [] |}.

Inductive WorkerError :=
| WorkerCryptoError (e : CryptoError)
| WorkerArithmeticError (e : ArithmeticError)
| WorkerViewError (e : ViewError)
| WorkerChainError (e : ChainError)
| InvalidOwner
| WorkerInvalidSigner (owner : Owner)
| WorkerUnexpectedBlockHeight (expected_block_height found_block_height : BlockHeight)
| WorkerMissingEarlierBlocks (current_block_height : BlockHeight)
| WorkerInvalidEpoch (chain_id : ChainId) (epoch : Epoch)
| InvalidCrossChainRequest
| InvalidBlockChaining
| IncorrectStateHash
| IncorrectMessages
| IncorrectMessageCounts
| InvalidTimestamp
| MissingCertificateValue
| InvalidLiteCertificate
| UnneededValue (value_hash : CryptoHash)
| ApplicationBytecodesNotFound (locations : list BytecodeLocation).

(** ** Parameters *)

(** [LruCache<CryptoHash, HashedValue>]: a bounded map. *)
Class ValueCache := {
  value_cache : Type;
  cache_get : CryptoHash -> value_cache -> option HashedValue * value_cache;
  cache_contains : CryptoHash -> value_cache -> bool;
  cache_push : CryptoHash -> HashedValue -> value_cache -> value_cache;
  cache_contents : value_cache -> gmap CryptoHash HashedValue;
}.
Class ValueCacheLaws (VC : ValueCache) := {
  cache_get_contents hash c :
    (cache_get hash c).1 = cache_contents c !! hash /\
    cache_contents (cache_get hash c).2 = cache_contents c;
  cache_contains_contents hash c :
    cache_contains hash c = bool_decide (is_Some (cache_contents c !! hash));
  cache_push_contents hash value c :
    cache_contents (cache_push hash value c) ⊆ <[hash := value]> (cache_contents c) /\
    cache_contents (cache_push hash value c) !! hash = Some value;
}.

(** [Signature::new] of a [ChainInfo]. *)
Class InfoSigning := { sign_info : KeyPair -> ChainInfo -> Signature }.

(** ** State *)

Notation Notifier := Z (only parsing).
Notation DeliveryNotifiers := (gmap ChainId (gmap BlockHeight (list Notifier))).

Record WorkerState `{ValueCache} := {
  ws_key_pair : option KeyPair;
  ws_storage : DbStore;
  ws_allow_inactive_chains : bool;
  ws_allow_messages_from_deprecated_epochs : bool;
  ws_grace_period_micros : Z;
  ws_recent_values : value_cache;
  ws_delivery_notifiers : DeliveryNotifiers;
  ws_notified : list Notifier;
  ws_clock : nat;
}.

Section state.
Context `{ValueCache}.

Definition set_storage (storage : DbStore) (w : WorkerState) : WorkerState :=
  {| ws_key_pair := ws_key_pair w; ws_storage := storage;
     ws_allow_inactive_chains := ws_allow_inactive_chains w;
     ws_allow_messages_from_deprecated_epochs := ws_allow_messages_from_deprecated_epochs w;
     ws_grace_period_micros := ws_grace_period_micros w; ws_recent_values := ws_recent_values w;
     ws_delivery_notifiers := ws_delivery_notifiers w; ws_notified := ws_notified w;
     ws_clock := ws_clock w |}.
Definition set_recent_values (values : value_cache) (w : WorkerState) : WorkerState :=
  {| ws_key_pair := ws_key_pair w; ws_storage := ws_storage w;
     ws_allow_inactive_chains := ws_allow_inactive_chains w;
     ws_allow_messages_from_deprecated_epochs := ws_allow_messages_from_deprecated_epochs w;
     ws_grace_period_micros := ws_grace_period_micros w; ws_recent_values := values;
     ws_delivery_notifiers := ws_delivery_notifiers w; ws_notified := ws_notified w;
     ws_clock := ws_clock w |}.
Definition set_notifiers (notifiers : DeliveryNotifiers) (notified : list Notifier)
    (w : WorkerState) : WorkerState :=
  {| ws_key_pair := ws_key_pair w; ws_storage := ws_storage w;
     ws_allow_inactive_chains := ws_allow_inactive_chains w;
     ws_allow_messages_from_deprecated_epochs := ws_allow_messages_from_deprecated_epochs w;
     ws_grace_period_micros := ws_grace_period_micros w; ws_recent_values := ws_recent_values w;
     ws_delivery_notifiers := notifiers; ws_notified := notified; ws_clock := ws_clock w |}.
Definition set_clock (n : nat) (w : WorkerState) : WorkerState :=
  {| ws_key_pair := ws_key_pair w; ws_storage := ws_storage w;
     ws_allow_inactive_chains := ws_allow_inactive_chains w;
     ws_allow_messages_from_deprecated_epochs := ws_allow_messages_from_deprecated_epochs w;
     ws_grace_period_micros := ws_grace_period_micros w; ws_recent_values := ws_recent_values w;
     ws_delivery_notifiers := ws_delivery_notifiers w; ws_notified := ws_notified w;
     ws_clock := n |}.

(** The handlers: the state is kept with errors. *)
Definition worker (A : Type) : Type := WorkerState -> result WorkerError A * WorkerState.

#[export] Instance worker_ret : MRet worker := fun A a w => (Ok a, w).
#[export] Instance worker_bind : MBind worker := fun A B k m w =>
  match m w with
  | (Ok a, w) => k a w
  | (Err e, w) => (Err e, w)
  | (Panic, w) => (Panic, w)
  end.

Definition w_lift {A} (r : result WorkerError A) : worker A := fun w => (r, w).
Definition w_gets {A} (f : WorkerState -> A) : worker A := fun w => (Ok (f w), w).
Definition w_modify (f : WorkerState -> WorkerState) : worker unit := fun w => (Ok (), f w).
Definition w_ensure (cond : bool) (e : WorkerError) : worker unit := w_lift (ensure cond e).
Definition w_chain {A} (r : result ChainError A) : worker A := w_lift (map_err WorkerChainError r).
Definition w_view {A} (r : result ViewError A) : worker A := w_lift (map_err WorkerViewError r).

Fixpoint w_for_each {A S} (f : A -> S -> worker S) (l : list A) (s : S) : worker S :=
  match l with
  | [] => mret s
  | a :: l => s ← f a s; w_for_each f l s
  end.

End state.

(** ** Reading chains *)

(** [From<&ChainStateView> for ChainInfo]. *)
Definition chain_info `{LeaderSampling} (chain_id : ChainId) (view : ChainState) : ChainInfo :=
  let system_state := es_system (ch_execution view) in
  let tip_state := ch_tip view in
  {| info_chain_id := chain_id;
     info_epoch := sys_epoch system_state;
     info_description := sys_description system_state;
     info_manager := manager_info (ch_manager view);
     info_system_balance := sys_balance system_state;
     info_block_hash := tip_block_hash tip_state;
     info_next_block_height := next_block_height tip_state;
     info_timestamp := sys_timestamp system_state;
     info_state_hash := ch_execution_hash view;
     requested_committees := None;
     requested_pending_messages := [];
     requested_sent_certificates := [];
     count_received_log := Z.of_nat (length (ch_received_log view));
     requested_received_log := [];
     requested_blob := None |}.

(** [LogView::read] of a range with a start and an optional end. *)
Definition log_read {A} (log : list A) (start : Z) (stop : option Z) : list A :=
  let count := Z.of_nat (length log) in
  let stop := Z.min (default count stop) count in
  if stop <=? start then [] else take (Z.to_nat (stop - start)) (drop (Z.to_nat start) log).

(** The queues of the outboxes by recipient, then by medium. *)
Definition heights_by_recipient (outboxes : list (Target * OutboxState))
    : gmap ChainId (gmap Medium (list BlockHeight)) :=
  foldl (fun m '(target, outbox) =>
    <[recipient target :=
        <[target_medium target := outbox_queue outbox]> (default ∅ (m !! recipient target))]> m)
    ∅ outboxes.

(** The heights of a request, without repetitions and in order. *)
Definition request_heights (height_map : list (Medium * list BlockHeight)) : list BlockHeight :=
  merge_sort Z.le (elements (list_to_set (mjoin height_map.*2) : gset BlockHeight)).

(** The notifiers up to a height, from a sorted list of the entries of the map. *)
Fixpoint take_notifiers (height : BlockHeight) (entries : list (BlockHeight * list Notifier))
    (notifiers : gmap BlockHeight (list Notifier))
    : list Notifier * gmap BlockHeight (list Notifier) :=
  match entries with
  | [] => ([], notifiers)
  | (key, senders) :: entries =>
      if height <? key then ([], notifiers)
      else
        let '(rest, notifiers) := take_notifiers height entries (delete key notifiers) in
        (senders ++ rest, notifiers)
  end.

(** *** Selecting certificates *)

(** The progress of the loop of [select_certificates]. *)
Record Selection := {
  latest_height : option BlockHeight;
  skipped_len : nat;
  trusted_len : nat;
}.

(** The order of [Option]: [None] is the least. *)
Definition option_ltb (x y : option Z) : bool :=
  match x, y with
  | _, None => false
  | None, Some _ => true
  | Some x, Some y => x <? y
  end.
Definition option_leb (x y : option Z) : bool := negb (option_ltb y x).

(** [CrossChainUpdateHelper]. *)
Section select.
Context (allow_messages_from_deprecated_epochs : bool) (current_epoch : option Epoch).
Context (committees : gmap Epoch Committee).
Context (origin : Origin) (next_height_to_receive : BlockHeight).
Context (last_anticipated_block_height : option BlockHeight).

Definition is_trusted (value : CertificateValue) : bool :=
  allow_messages_from_deprecated_epochs ||
  option_leb (Some (value_height value)) last_anticipated_block_height ||
  option_leb current_epoch (Some (value_epoch value)) ||
  bool_decide (is_Some (committees !! value_epoch value)).

Definition select_certificate (indexed : nat * Certificate) (progress : Selection)
    : result WorkerError Selection :=
  let '(i, certificate) := indexed in
  let value := hv_value (cert_value certificate) in
  ensure (is_confirmed value) InvalidCrossChainRequest ;;
  ensure (sender origin =? value_chain_id value) InvalidCrossChainRequest ;;
  ensure (option_ltb (latest_height progress) (Some (value_height value)))
    InvalidCrossChainRequest ;;
  Ok {| latest_height := Some (value_height value);
        skipped_len :=
          if value_height value <? next_height_to_receive then S i else skipped_len progress;
        trusted_len := if is_trusted value then S i else trusted_len progress |}.

Definition select_certificates (certificates : list Certificate)
    : result WorkerError (list Certificate) :=
  progress ← for_each select_certificate (imap pair certificates)
    {| latest_height := None; skipped_len := 0; trusted_len := 0 |};
  Ok (if (skipped_len progress <? trusted_len progress)%nat
      then take (trusted_len progress - skipped_len progress)
             (drop (skipped_len progress) certificates)
      else []).

End select.

(** ** Handlers *)

Section handlers.
Context `{Crypto, Bcs, LeaderSampling, StorageEnv, ValueCache, InfoSigning}.

(** The readings of the clock, and the depth of calls between applications. *)
Context (clock : nat -> Timestamp) (depth : nat).

Definition current_time : worker Timestamp := fun w =>
  (Ok (clock (ws_clock w)), set_clock (S (ws_clock w)) w).

Definition w_load_active_chain (chain_id : ChainId) : worker ChainState :=
  storage ← w_gets ws_storage;
  w_chain (load_active_chain chain_id storage).
Definition w_load_chain (chain_id : ChainId) : worker ChainState :=
  w_gets (fun w => load_chain chain_id (ws_storage w)).
Definition w_save_chain (chain_id : ChainId) (chain : ChainState) : worker unit :=
  w_modify (fun w => set_storage (save_chain chain_id chain (ws_storage w)) w).
Definition w_execute_block (block : Block) (now : Timestamp) (chain : ChainState)
    : worker (ChainState * BlockExecutionOutcome) :=
  let chain_id := block_chain_id block in
  storage ← w_gets ws_storage;
  let code := chain_code storage chain_id in
  let hash := chain_hash storage chain_id in
  w_chain (execute_block chain_id depth block now chain).

(** [ChainInfoResponse::new]. *)
Definition info_response (info : ChainInfo) : worker ChainInfoResponse :=
  w_gets (fun w =>
    {| response_info := info;
       response_signature := (fun key_pair => sign_info key_pair info) <$> ws_key_pair w |}).

(** *** Recent values *)

Definition cache_recent_value (value : HashedValue) : worker bool := fun w =>
  let hash := hv_hash value in
  if cache_contains hash (ws_recent_values w) then (Ok false, w)
  else (Ok true, set_recent_values (cache_push hash value (ws_recent_values w)) w).

Definition cache_recent_values (values : list HashedValue) : worker unit :=
  w_for_each (fun value _ => cache_recent_value value ;; mret ()) values ().

Definition cache_validated (value : HashedValue) : worker unit :=
  cached ← cache_recent_value value;
  if (cached : bool) then
    match into_confirmed value with
    | Some value => cache_recent_value value ;; mret ()
    | None => mret ()
    end
  else mret ().

Definition recent_value (hash : CryptoHash) : worker (option HashedValue) := fun w =>
  let '(value, cache) := cache_get hash (ws_recent_values w) in
  (Ok value, set_recent_values cache w).

Definition full_certificate (certificate : LiteCertificate) : worker Certificate :=
  value ← recent_value (lv_value_hash (lcert_value certificate));
  value ← w_lift (ok_or value MissingCertificateValue);
  w_lift (ok_or (lite_with_value certificate value) InvalidLiteCertificate).

(** *** Cross-chain requests *)

Definition create_cross_chain_request (confirmed_log : list CryptoHash)
    (height_map : list (Medium * list BlockHeight)) (sender recipient : ChainId)
    : worker CrossChainRequest :=
  let keys := omap (fun height => confirmed_log !! Z.to_nat height) (request_heights height_map) in
  storage ← w_gets ws_storage;
  certificates ← w_view (read_certificates keys storage);
  mret (UpdateRecipient height_map sender recipient certificates).

Definition create_network_actions (chain_id : ChainId) (chain : ChainState)
    : worker NetworkActions :=
  let outboxes := sort_by (fun p => bcs_target p.1) (map_to_list (ch_outboxes chain)) in
  requests ← w_for_each (fun '(recipient, height_map) requests =>
      request ← create_cross_chain_request (ch_confirmed_log chain)
        (sort_by (fun p => medium_key p.1) (map_to_list height_map)) chain_id recipient;
      mret (requests ++ [request]))
    (btree_iter (heights_by_recipient outboxes)) [];
  mret {| cross_chain_requests := requests; notifications := [] |}.

Definition register_delivery_notifier (chain_id : ChainId) (height : BlockHeight)
    (actions : NetworkActions) (notifier : option Notifier) : worker unit :=
  match notifier with
  | None => mret ()
  | Some notifier =>
      if existsb (has_messages_lower_or_equal_than height) (cross_chain_requests actions) then
        w_modify (fun w =>
          let by_height := default ∅ (ws_delivery_notifiers w !! chain_id) in
          let senders := default [] (by_height !! height) ++ [notifier] in
          set_notifiers (<[chain_id := <[height := senders]> by_height]> (ws_delivery_notifiers w))
            (ws_notified w) w)
      else
        w_modify (fun w =>
          set_notifiers (ws_delivery_notifiers w) (ws_notified w ++ [notifier]) w)
  end.

(** Messages are delivered up to a height: the callers are notified. *)
Definition notify_delivery (chain_id : ChainId) (height : BlockHeight) : worker unit :=
  w_modify (fun w =>
    match ws_delivery_notifiers w !! chain_id with
    | None => w
    | Some by_height =>
        let '(senders, by_height) := take_notifiers height (btree_iter by_height) by_height in
        set_notifiers
          (if bool_decide (by_height = ∅) then delete chain_id (ws_delivery_notifiers w)
           else <[chain_id := by_height]> (ws_delivery_notifiers w))
          (ws_notified w ++ senders) w
    end).

(** *** Certificates *)

Definition check_no_missing_bytecode (block : Block) (blobs : list HashedValue) : worker unit :=
  let required_locations := remove_dups (block_bytecode_locations block).*1 in
  let required_hashes : gset CryptoHash :=
    list_to_set (loc_certificate_hash <$> required_locations) in
  w_lift (for_each (fun value hashes =>
    ensure (bool_decide (hv_hash value ∈ hashes)) (UnneededValue (hv_hash value)) ;;
    Ok (hashes ∖ {[hv_hash value]})) blobs required_hashes) ;;
  recent_values ← w_gets ws_recent_values;
  let tasks := filter (fun location =>
    cache_contains (loc_certificate_hash location) recent_values = false /\
    loc_certificate_hash location ∉ hv_hash <$> blobs) required_locations in
  storage ← w_gets ws_storage;
  locations ← w_lift (for_each (fun location locations =>
    match read_value (loc_certificate_hash location) storage with
    | Ok _ => Ok locations
    | Err ViewNotFound => Ok (locations ++ [location])
    | Err e => Err (WorkerViewError e)
    | Panic => Panic
    end) tasks []);
  w_ensure (bool_decide (locations = [])) (ApplicationBytecodesNotFound locations).

(** The check of the certificate in the current committee of its chain. *)
Definition check_current (chain_id : ChainId) (epoch : Epoch) (certificate : Certificate)
    (chain : ChainState) : worker unit :=
  '(current_epoch, committee) ← w_lift (expect (current_committee (es_system (ch_execution chain))));
  w_ensure (epoch =? current_epoch) (WorkerInvalidEpoch chain_id epoch) ;;
  w_chain (certificate_check certificate committee) ;;
  mret ().

(** The last part of [process_confirmed_block]: the tip and the log advance. *)
Definition advance_tip (hash : CryptoHash) (chain : ChainState)
    : result WorkerError ChainState :=
  height ← map_err WorkerArithmeticError
    (try_add_assign_one u64_MAX (next_block_height (ch_tip chain)));
  Ok {| ch_execution := ch_execution chain; ch_execution_hash := ch_execution_hash chain;
        ch_tip := {| tip_block_hash := Some hash; next_block_height := height |};
        ch_manager := ch_manager chain;
        ch_confirmed_log := ch_confirmed_log chain ++ [hash];
        ch_received_log := ch_received_log chain; ch_inboxes := ch_inboxes chain;
        ch_outboxes := ch_outboxes chain; ch_outbox_counters := ch_outbox_counters chain;
        ch_channels := ch_channels chain |}.

Definition process_confirmed_block (certificate : Certificate) (blobs : list HashedValue)
    (notifier : option Notifier) : worker (ChainInfoResponse * NetworkActions) :=
  match hv_value (cert_value certificate) with
  | ConfirmedBlock executed_block =>
      let block := eb_block executed_block in
      let chain_id := block_chain_id block in
      let hash := hv_hash (cert_value certificate) in
      chain ← w_load_active_chain chain_id;
      let tip := ch_tip chain in
      w_ensure (block_height block <=? next_block_height tip)
        (WorkerMissingEarlierBlocks (next_block_height tip)) ;;
      if block_height block <? next_block_height tip then
        info ← info_response (chain_info chain_id chain);
        actions ← create_network_actions chain_id chain;
        register_delivery_notifier chain_id (block_height block) actions notifier ;;
        mret (info, actions)
      else
        check_current chain_id (block_epoch block) certificate chain ;;
        w_ensure (bool_decide (tip_block_hash tip = block_previous_block_hash block))
          InvalidBlockChaining ;;
        check_no_missing_bytecode block blobs ;;
        cache_recent_values blobs ;;
        w_modify (fun w =>
          set_storage (write_certificate certificate (write_values blobs (ws_storage w))) w) ;;
        chain ← w_chain (remove_events_from_inboxes chain_id block chain);
        now ← current_time;
        '(chain, verified_outcome) ← w_execute_block block now chain;
        w_ensure (bool_decide (eb_messages executed_block = outcome_messages verified_outcome))
          IncorrectMessages ;;
        w_ensure (bool_decide
            (eb_message_counts executed_block = outcome_message_counts verified_outcome))
          IncorrectMessageCounts ;;
        w_ensure (eb_state_hash executed_block =? outcome_state_hash verified_outcome)
          IncorrectStateHash ;;
        chain ← w_lift (advance_tip hash chain);
        info ← info_response (chain_info chain_id chain);
        actions ← create_network_actions chain_id chain;
        let actions :=
          {| cross_chain_requests := cross_chain_requests actions;
             notifications := notifications actions ++
               [{| notification_chain_id := chain_id;
                   notification_reason := NewBlock (block_height block) hash |}] |} in
        w_save_chain chain_id chain ;;
        register_delivery_notifier chain_id (block_height block) actions notifier ;;
        cache_recent_value (cert_value certificate) ;;
        mret (info, actions)
  | _ => w_lift Panic
  end.

(** The notification of a new round, if there is one. *)
Definition round_notification (chain_id : ChainId) (height : BlockHeight)
    (current_round : RoundNumber) (chain : ChainState) : NetworkActions :=
  let round := manager_current_round (ch_manager chain) in
  {| cross_chain_requests := [];
     notifications :=
       if current_round <? round
       then [{| notification_chain_id := chain_id; notification_reason := NewRound height round |}]
       else [] |}.

Definition set_manager (manager : ChainManager) (chain : ChainState) : ChainState :=
  set_consensus (ch_execution_hash chain) manager chain.

Definition process_validated_block (certificate : Certificate)
    : worker (ChainInfoResponse * NetworkActions * bool) :=
  match hv_value (cert_value certificate) with
  | ValidatedBlock executed_block =>
      let block := eb_block executed_block in
      let chain_id := block_chain_id block in
      chain ← w_load_active_chain chain_id;
      check_current chain_id (block_epoch block) certificate chain ;;
      already ← w_chain (already_validated_block (block_height block) (ch_tip chain));
      skip ←
        (if already : bool then mret true
         else
           outcome ← w_chain (manager_check_validated_block (ch_manager chain) certificate);
           mret match outcome with Skip => true | Accept => false end);
      if skip : bool then
        info ← info_response (chain_info chain_id chain);
        mret (info, no_actions, true)
      else
        cache_validated (cert_value certificate) ;;
        let current_round := manager_current_round (ch_manager chain) in
        key_pair ← w_gets ws_key_pair;
        now ← current_time;
        manager ← w_chain (manager_create_final_vote certificate key_pair now (ch_manager chain));
        let chain := set_manager manager chain in
        info ← info_response (chain_info chain_id chain);
        w_save_chain chain_id chain ;;
        let actions := round_notification chain_id (block_height block) current_round chain in
        cache_validated (cert_value certificate) ;;
        mret (info, actions, false)
  | _ => w_lift Panic
  end.

Definition process_leader_timeout (certificate : Certificate)
    : worker (ChainInfoResponse * NetworkActions) :=
  match hv_value (cert_value certificate) with
  | LeaderTimeout chain_id height epoch =>
      chain ← w_load_active_chain chain_id;
      check_current chain_id epoch certificate chain ;;
      already ← w_chain (already_validated_block height (ch_tip chain));
      if already : bool then
        info ← info_response (chain_info chain_id chain);
        mret (info, no_actions)
      else
        let current_round := manager_current_round (ch_manager chain) in
        now ← current_time;
        manager ← w_chain (manager_handle_timeout_certificate certificate now (ch_manager chain));
        let chain := set_manager manager chain in
        let actions := round_notification chain_id height current_round chain in
        info ← info_response (chain_info chain_id chain);
        w_save_chain chain_id chain ;;
        mret (info, actions)
  | _ => w_lift Panic
  end.

Definition handle_certificate (certificate : Certificate) (blobs : list HashedValue)
    (notifier : option Notifier) : worker (ChainInfoResponse * NetworkActions) :=
  let value := hv_value (cert_value certificate) in
  w_lift (if is_confirmed value || bool_decide (blobs = []) then Ok ()
          else match blobs with
               | blob :: _ => Err (UnneededValue (hv_hash blob))
               | [] => Panic
               end) ;;
  match value with
  | ValidatedBlock _ =>
      '(info, actions, _) ← process_validated_block certificate;
      mret (info, actions)
  | ConfirmedBlock _ => process_confirmed_block certificate blobs notifier
  | LeaderTimeout _ _ _ => process_leader_timeout certificate
  end.

Definition handle_lite_certificate (certificate : LiteCertificate) (notifier : option Notifier)
    : worker (ChainInfoResponse * NetworkActions) :=
  full_cert ← full_certificate certificate;
  handle_certificate full_cert [] notifier.

(** *** Proposals *)

Definition handle_block_proposal (proposal : BlockProposal)
    : worker (ChainInfoResponse * NetworkActions) :=
  let block := bar_block (prop_content proposal) in
  let chain_id := block_chain_id block in
  chain ← w_load_active_chain chain_id;
  '(epoch, committee) ← w_lift (expect (current_committee (es_system (ch_execution chain))));
  w_ensure (block_epoch block =? epoch) (WorkerInvalidEpoch chain_id epoch) ;;
  match prop_validated proposal with
  | Some validated => w_chain (certificate_check validated committee) ;; mret ()
  | None => mret ()
  end ;;
  public_key ← w_lift (ok_or (manager_verify_owner (ch_manager chain) proposal) InvalidOwner);
  w_lift (map_err WorkerCryptoError
    (signature_check (prop_signature proposal) (SignedBlockAndRound (prop_content proposal))
       public_key)) ;;
  match block_authenticated_signer block with
  | Some signer => w_ensure (signer =? prop_owner proposal) (WorkerInvalidSigner signer)
  | None => mret ()
  end ;;
  w_chain (verify_block_chaining block (ch_tip chain)) ;;
  outcome ← w_chain (manager_check_proposed_block (ch_manager chain) proposal);
  match outcome with
  | Skip =>
      info ← info_response (chain_info chain_id chain);
      mret (info, no_actions)
  | Accept =>
      staged ← w_chain (remove_events_from_inboxes chain_id block chain);
      check_no_missing_bytecode block (prop_blobs proposal) ;;
      w_modify (fun w => set_storage (write_values (prop_blobs proposal) (ws_storage w)) w) ;;
      now ← current_time;
      grace_period_micros ← w_gets ws_grace_period_micros;
      w_ensure (saturating_diff_micros (block_timestamp block) now <=? grace_period_micros)
        InvalidTimestamp ;;
      now ← current_time;
      '(staged, outcome) ← w_execute_block block now staged;
      w_chain (validate_incoming_messages chain_id staged) ;;
      (* The staged changes are dropped: only the manager of [chain] changes. *)
      key_pair ← w_gets ws_key_pair;
      manager ← w_chain (manager_create_vote proposal outcome key_pair now (ch_manager chain));
      match manager_pending manager with
      | Some vote => cache_recent_value (vote_value vote) ;; mret ()
      | None => mret ()
      end ;;
      let chain := set_manager manager chain in
      info ← info_response (chain_info chain_id chain);
      w_save_chain chain_id chain ;;
      actions ← create_network_actions chain_id chain;
      mret (info, actions)
  end.

(** [stage_block_execution]: nothing is saved. *)
Definition stage_block_execution (block : Block) : worker (ExecutedBlock * ChainInfoResponse) :=
  let chain_id := block_chain_id block in
  chain ← w_load_active_chain chain_id;
  now ← current_time;
  '(chain, outcome) ← w_execute_block block now chain;
  mret (outcome_with outcome block,
        {| response_info := chain_info chain_id chain; response_signature := None |}).

(** *** Queries *)

Definition w_query_application (chain_id : ChainId) (query : Query) : worker Response :=
  chain ← w_load_active_chain chain_id;
  storage ← w_gets ws_storage;
  let code := chain_code storage chain_id in
  '(_, response) ← w_chain (chain_query_application chain_id depth query chain);
  mret response.

Definition w_describe_application (chain_id : ChainId) (application_id : UserApplicationId)
    : worker UserApplicationDescription :=
  chain ← w_load_active_chain chain_id;
  w_chain (chain_describe_application application_id chain).

Definition vote_for_timeout (query : ChainInfoQuery) (chain : ChainState) : worker ChainState :=
  if request_leader_timeout query then
    match sys_epoch (es_system (ch_execution chain)) with
    | Some epoch =>
        key_pair ← w_gets ws_key_pair;
        now ← current_time;
        let '(changed, manager) :=
          manager_vote_leader_timeout (query_chain_id query) (next_block_height (ch_tip chain))
            epoch key_pair now (ch_manager chain) in
        let chain := set_manager manager chain in
        if changed : bool then w_save_chain (query_chain_id query) chain ;; mret chain
        else mret chain
    | None => mret chain
    end
  else mret chain.

(** The messages waiting in the inboxes, in the order of the serialized origins. *)
Definition pending_messages (chain : ChainState) : list IncomingMessage :=
  '(origin, inbox) ← sort_by (fun p => bcs_origin p.1) (map_to_list (ch_inboxes chain));
  (fun event => {| in_origin := origin; in_event := event |}) <$> added_events inbox.

Definition range_end (range : BlockHeightRange) (count : Z) : result WorkerError Z :=
  match range_limit range with
  | None => Ok count
  | Some limit =>
      stop ← ok_or (checked_add u64_MAX (range_start range) limit) (WorkerArithmeticError Overflow);
      Ok (Z.min stop count)
  end.

Definition handle_chain_info_query (query : ChainInfoQuery)
    : worker (ChainInfoResponse * NetworkActions) :=
  let chain_id := query_chain_id query in
  chain ← w_load_chain chain_id;
  chain ← vote_for_timeout query chain;
  let info := chain_info chain_id chain in
  match test_next_block_height query with
  | Some height =>
      w_ensure (next_block_height (ch_tip chain) =? height)
        (WorkerUnexpectedBlockHeight height (next_block_height (ch_tip chain)))
  | None => mret ()
  end ;;
  certificates ←
    match request_sent_certificates_in_range query with
    | Some range =>
        stop ← w_lift (range_end range (Z.of_nat (length (ch_confirmed_log chain))));
        storage ← w_gets ws_storage;
        w_view (read_certificates (log_read (ch_confirmed_log chain) (range_start range) (Some stop))
                  storage)
    | None => mret []
    end;
  blob ←
    match request_blob query with
    | Some hash =>
        storage ← w_gets ws_storage;
        value ← w_view (read_value hash storage);
        mret (Some value)
    | None => mret None
    end;
  response ← info_response
    {| info_chain_id := info_chain_id info; info_epoch := info_epoch info;
       info_description := info_description info;
       info_manager :=
         if request_manager_values query
         then info_add_values (ch_manager chain) (info_manager info) else info_manager info;
       info_system_balance := info_system_balance info; info_block_hash := info_block_hash info;
       info_timestamp := info_timestamp info; info_next_block_height := info_next_block_height info;
       info_state_hash := info_state_hash info;
       requested_committees :=
         if request_committees query
         then Some (sys_committees (es_system (ch_execution chain))) else None;
       requested_pending_messages :=
         if request_pending_messages query then pending_messages chain else [];
       requested_sent_certificates := certificates;
       count_received_log := count_received_log info;
       requested_received_log :=
         match request_received_log_excluding_first_nth query with
         | Some start => log_read (ch_received_log chain) start None
         | None => []
         end;
       requested_blob := blob |};
  actions ← create_network_actions chain_id chain;
  mret (response, actions).

(** *** Cross-chain requests *)

(** The body of the loop of [process_cross_chain_update]. *)
Definition receive_certificate (origin : Origin) (recipient : ChainId) (certificate : Certificate)
    (chain : ChainState) : worker ChainState :=
  match hv_value (cert_value certificate) with
  | ConfirmedBlock executed_block =>
      let block := eb_block executed_block in
      now ← current_time;
      storage ← w_gets ws_storage;
      let hash := chain_hash storage recipient in
      w_chain (receive_block recipient origin (block_height block) (block_timestamp block)
        (eb_messages executed_block) (hv_hash (cert_value certificate)) now chain)
  | _ => mret chain
  end.

Definition process_cross_chain_update (origin : Origin) (recipient : ChainId)
    (certificates : list Certificate) : worker (option BlockHeight) :=
  chain ← w_load_chain recipient;
  '(chain, next_height_to_receive) ← w_chain (chain_next_block_height_to_receive origin chain);
  let '(chain, last_anticipated_block_height) := last_anticipated_block_height origin chain in
  allow_deprecated ← w_gets ws_allow_messages_from_deprecated_epochs;
  let system := es_system (ch_execution chain) in
  certificates ← w_lift (select_certificates allow_deprecated (sys_epoch system)
    (sys_committees system) origin next_height_to_receive last_anticipated_block_height
    certificates);
  match last certificates with
  | None => mret None
  | Some certificate =>
      let last_updated_height := value_height (hv_value (cert_value certificate)) in
      w_modify (fun w => set_storage (write_certificates certificates (ws_storage w)) w) ;;
      chain ← w_for_each (receive_certificate origin recipient) certificates chain;
      allow_inactive ← w_gets ws_allow_inactive_chains;
      if negb allow_inactive && negb (chain_is_active chain) then mret None
      else w_save_chain recipient chain ;; mret (Some last_updated_height)
  end.

(** The body of the loop over the media of [UpdateRecipient]. *)
Definition update_medium (sender recipient : ChainId) (certificates : list Certificate)
    (entry : Medium * list BlockHeight) (height_by_origin : list (Origin * BlockHeight))
    : worker (list (Origin * BlockHeight)) :=
  let '(medium, heights) := entry in
  let origin := {| sender := sender; origin_medium := medium |} in
  let app_certificates := filter (fun cert =>
    is_ok (binary_search_by
      (fun height => height ?= value_height (hv_value (cert_value cert))) heights) = true)
    certificates in
  updated ← process_cross_chain_update origin recipient app_certificates;
  mret match updated with
       | Some height => height_by_origin ++ [(origin, height)]
       | None => height_by_origin
       end.

(** The body of the loop over the media of [ConfirmUpdatedRecipient]. *)
Definition confirm_medium (sender recipient : ChainId) (entry : Medium * BlockHeight)
    (progress : bool * ChainState) : worker (bool * ChainState) :=
  let '(medium, height) := entry in
  let '(chain_state_changed, chain) := progress in
  let target := {| recipient := recipient; target_medium := medium |} in
  '(marked, chain) ← w_chain (chain_mark_messages_as_received target height chain);
  if negb marked then mret (chain_state_changed, chain)
  else
    (if all_messages_delivered_up_to height chain then notify_delivery sender height else mret ()) ;;
    mret (true, chain).

Definition handle_cross_chain_request (request : CrossChainRequest) : worker NetworkActions :=
  match request with
  | UpdateRecipient height_map sender recipient certificates =>
      height_by_origin ←
        w_for_each (update_medium sender recipient certificates) height_map [];
      match height_by_origin with
      | [] => mret no_actions
      | _ =>
          mret {| cross_chain_requests :=
                    [ConfirmUpdatedRecipient sender recipient
                       ((fun p => (origin_medium p.1, p.2)) <$> height_by_origin)];
                  notifications :=
                    (fun p => {| notification_chain_id := recipient;
                                 notification_reason := NewIncomingMessage p.1 p.2 |})
                      <$> height_by_origin |}
      end
  | ConfirmUpdatedRecipient sender recipient latest_heights =>
      chain ← w_load_chain sender;
      '(chain_state_changed, chain) ←
        w_for_each (confirm_medium sender recipient) latest_heights (false, chain);
      (if chain_state_changed : bool then w_save_chain sender chain else mret ()) ;;
      mret no_actions
  end.

(** *** A worker that has all the chains *)

(** The loop of [fully_handle_certificate_with_notifications], with a bound on
    the number of requests it handles; [None] is the bound. *)
Fixpoint handle_requests (fuel : nat) (requests : list CrossChainRequest)
    (log : list Notification) : worker (option (list Notification)) :=
  match requests, fuel with
  | [], _ => mret (Some log)
  | _, O => mret None
  | request :: requests, S fuel =>
      actions ← handle_cross_chain_request request;
      handle_requests fuel (requests ++ cross_chain_requests actions)
        (log ++ notifications actions)
  end.

(** A request to update a recipient is followed by at most one confirmation,
    which is followed by none. *)
Definition requests_fuel (requests : list CrossChainRequest) : nat :=
  sum_list_with (fun request =>
    match request with UpdateRecipient _ _ _ _ => 2 | ConfirmUpdatedRecipient _ _ _ => 1 end%nat)
    requests.

Definition fully_handle_certificate_with_notifications (certificate : Certificate)
    (blobs : list HashedValue)
    : worker (ChainInfoResponse * option (list Notification)) :=
  '(response, actions) ← handle_certificate certificate blobs None;
  log ← handle_requests (requests_fuel (cross_chain_requests actions))
    (cross_chain_requests actions) (notifications actions);
  mret (response, log).

End handlers.

(** ** Certificates selected for a recipient *)

Section selection.
Context (deprecated : bool) (epoch : option Epoch) (committees : gmap Epoch Committee).
Context (origin : Origin) (next : BlockHeight) (anticipated : option BlockHeight).

Notation trusted c :=
  (is_trusted deprecated epoch committees anticipated (hv_value (cert_value c)) = true).
Notation select := (select_certificate deprecated epoch committees origin next anticipated).

Definition cert_height (c : Certificate) : BlockHeight := value_height (hv_value (cert_value c)).
Definition cert_lt (c1 c2 : Certificate) : Prop := cert_height c1 < cert_height c2.

(** A confirmed block of the sender. *)
Definition from_sender (c : Certificate) : Prop :=
  is_confirmed (hv_value (cert_value c)) = true /\
  value_chain_id (hv_value (cert_value c)) = sender origin.

(** The loop, after the certificates [l]. *)
Record selection_ok (l : list Certificate) (p : Selection) : Prop := {
  sel_valid : Forall from_sender l;
  sel_sorted : StronglySorted cert_lt l;
  sel_latest : latest_height p = cert_height <$> last l;
  sel_skipped_le : (skipped_len p <= length l)%nat;
  sel_skipped : Forall (fun c => cert_height c < next) (take (skipped_len p) l);
  sel_kept : Forall (fun c => next <= cert_height c) (drop (skipped_len p) l);
  sel_trusted_le : (trusted_len p <= length l)%nat;
  sel_trusted i : trusted_len p = S i -> exists c, l !! i = Some c /\ trusted c;
  sel_untrusted : Forall (fun c => ~ trusted c) (drop (trusted_len p) l);
}.

Lemma sorted_snoc l c :
  StronglySorted cert_lt l -> (forall c', last l = Some c' -> cert_lt c' c) ->
  StronglySorted cert_lt (l ++ [c]).
Proof.
  induction 1 as [|c1 l Hl IH Hall]; intros Hc; simpl; [repeat constructor|].
  assert (cert_lt c1 c) as Hlt.
  { destruct (last l) as [c'|] eqn:Hlast.
    - assert (cert_lt c' c) by (apply Hc; by rewrite last_cons, Hlast).
      rewrite Forall_forall in Hall. apply last_Some_elem_of, Hall in Hlast.
      unfold cert_lt in *. lia.
    - apply Hc. by rewrite last_cons, Hlast. }
  constructor.
  - apply IH. intros c' Hc'. apply Hc. by rewrite last_cons, Hc'.
  - apply Forall_app. split; [done|]. by constructor.
Qed.

Lemma sorted_last_lt l c height :
  StronglySorted cert_lt (l ++ [c]) -> cert_height c <= height ->
  Forall (fun c => cert_height c <= height) l.
Proof.
  intros Hs Hle. apply Forall_forall. intros c' Hin. induction l as [|c1 l IH]; [by apply elem_of_nil in Hin|].
  simpl in Hs. apply StronglySorted_inv in Hs as [Hs Hall]. apply elem_of_cons in Hin as [->|Hin].
  - rewrite Forall_forall in Hall. assert (cert_lt c1 c) by (apply Hall; set_solver).
    unfold cert_lt in *. lia.
  - by apply IH.
Qed.

Lemma select_step l c p p' :
  selection_ok l p -> select (length l, c) p = Ok p' -> selection_ok (l ++ [c]) p'.
Proof.
  intros Hok. unfold select_certificate. intros ([] & Hconf%ensure_Ok & Hs)%bind_Ok.
  apply bind_Ok in Hs as ([] & Hid%ensure_Ok%Z.eqb_eq & Hs).
  apply bind_Ok in Hs as ([] & Hlt%ensure_Ok & [= <-]). fold (cert_height c) in *.
  assert (StronglySorted cert_lt (l ++ [c])) as Hsorted.
  { apply sorted_snoc; [apply Hok|]. intros c' Hlast. rewrite (sel_latest _ _ Hok), Hlast in Hlt.
    by apply Z.ltb_lt in Hlt. }
  destruct Hok as [Hv Hso Hla Hsl Hsk Hke Htl Htr Hun]. split; simpl.
  - apply Forall_app. split; [done|]. by constructor.
  - done.
  - by rewrite last_snoc.
  - rewrite length_app. simpl. case_match; lia.
  - destruct (Z.ltb_spec (cert_height c) next).
    + rewrite take_ge by (rewrite length_app; simpl; lia). apply Forall_app. split; [|by constructor].
      eapply Forall_impl; [by apply (sorted_last_lt l c (cert_height c))|]. simpl. lia.
    + by rewrite take_app_le.
  - destruct (Z.ltb_spec (cert_height c) next).
    + by rewrite drop_ge by (rewrite length_app; simpl; lia).
    + rewrite drop_app_le by done. apply Forall_app. split; [done|]. by constructor.
  - rewrite length_app. simpl. case_match; lia.
  - intros i. destruct (is_trusted _ _ _ _ _) eqn:Ht.
    + intros [= <-]. exists c. split; [by apply list_lookup_middle|done].
    + intros Hi. destruct (Htr i Hi) as (c' & Hl & Hc'). exists c'. split; [|done].
      by apply lookup_app_l_Some.
  - destruct (is_trusted _ _ _ _ _) eqn:Ht.
    + by rewrite drop_ge by (rewrite length_app; simpl; lia).
    + rewrite drop_app_le by done. apply Forall_app. split; [done|]. constructor; [|done].
      by rewrite Ht.
Qed.

Lemma select_loop l1 l2 p p' :
  selection_ok l1 p -> for_each select (imap (fun i c => (length l1 + i, c)%nat) l2) p = Ok p' ->
  selection_ok (l1 ++ l2) p'.
Proof.
  revert l1 p. induction l2 as [|c l2 IH]; intros l1 p Hok; cbn [imap for_each].
  { intros [= <-]. by rewrite app_nil_r. }
  rewrite Nat.add_0_r. intros (p1 & Hs & Hl)%bind_Ok. apply (select_step _ _ _ _ Hok) in Hs.
  rewrite (cons_middle c l1 l2), (assoc_L (++)). apply (IH (l1 ++ [c]) p1 Hs).
  rewrite <- Hl. f_equal. apply imap_ext. intros i x _. simpl. f_equal. rewrite length_app. simpl. lia.
Qed.

(** The loop accepts every sorted list of blocks of the sender. *)
Lemma select_accepts l p k :
  Forall from_sender l -> StronglySorted cert_lt l ->
  (forall c, head l = Some c -> option_ltb (latest_height p) (Some (cert_height c)) = true) ->
  exists p', for_each select (imap (fun i c => (k + i, c)%nat) l) p = Ok p'.
Proof.
  intros Hv Hs. revert p k. induction Hs as [|c l Hl IH Hall]; intros p k Hp; [by exists p|].
  apply Forall_cons in Hv as [[Hc Hid] Hv]. cbn [imap for_each]. rewrite Nat.add_0_r.
  unfold select_certificate at 2. cbv beta iota zeta. rewrite Hc, Hid, Z.eqb_refl. fold (cert_height c).
  rewrite (Hp c eq_refl). simpl.
  match goal with |- exists p', for_each _ _ ?p1 = _ => destruct (IH Hv p1 (S k)) as [p' Hp'] end.
  - intros c' Hc'. simpl. destruct l as [|c1 l]; [done|]. injection Hc' as <-.
    apply Forall_cons in Hall as [Hlt _]. by apply Z.ltb_lt.
  - exists p'. rewrite <- Hp'. f_equal. apply imap_ext. intros i x _. simpl. f_equal. lia.
Qed.

(** Blocks that are new and not above the last trusted one. *)
Definition selected (certificates : list Certificate) (c : Certificate) : Prop :=
  next <= cert_height c /\
  Exists (fun c' => cert_height c <= cert_height c' /\ trusted c') certificates.

#[export] Instance selected_dec certificates c : Decision (selected certificates c).
Proof. unfold selected. apply _. Defined.

Lemma filter_none {A} (P : A -> Prop) `{!forall x, Decision (P x)} l :
  Forall (fun x => ~ P x) l -> filter P l = [].
Proof. induction 1 as [|x l Hx _ IH]; [done|]. by rewrite filter_cons_False. Qed.

Lemma filter_all {A} (P : A -> Prop) `{!forall x, Decision (P x)} l :
  Forall P l -> filter P l = l.
Proof. induction 1 as [|x l Hx _ IH]; [done|]. by rewrite filter_cons_True, IH. Qed.

Lemma sorted_app_lt l1 l2 c1 c2 :
  StronglySorted cert_lt (l1 ++ l2) -> c1 ∈ l1 -> c2 ∈ l2 -> cert_lt c1 c2.
Proof.
  induction l1 as [|c l1 IH]; simpl; intros Hs H1 H2; [by apply elem_of_nil in H1|].
  apply StronglySorted_inv in Hs as [Hs Hall]. apply elem_of_cons in H1 as [->|H1]; [|by apply IH].
  rewrite Forall_forall in Hall. apply Hall. set_solver.
Qed.

Lemma sorted_lookup_le l i j c1 c2 :
  StronglySorted cert_lt l -> l !! i = Some c1 -> l !! j = Some c2 -> (i <= j)%nat ->
  cert_height c1 <= cert_height c2.
Proof.
  intros Hs H1 H2 Hle. destruct (decide (i = j)) as [->|Hne]; [by simplify_eq|].
  rewrite <- (take_drop j l) in Hs. apply Z.lt_le_incl, (sorted_app_lt _ _ _ _ Hs).
  - apply (list_elem_of_lookup_2 _ i). by rewrite lookup_take_lt by lia.
  - apply (list_elem_of_lookup_2 _ 0). by rewrite lookup_drop, Nat.add_0_r.
Qed.

(** Above the last trusted block, nothing is selected. *)
Lemma untrusted_not_selected l p c :
  selection_ok l p -> c ∈ drop (trusted_len p) l -> ~ selected l c.
Proof.
  intros Hok Hin [_ (c' & Hc' & Hle & Ht)%Exists_exists].
  pose proof (sel_untrusted _ _ Hok) as Hun. rewrite Forall_forall in Hun.
  rewrite <- (take_drop (trusted_len p) l) in Hc'. apply elem_of_app in Hc' as [Hc'|Hc'].
  - pose proof (sel_sorted _ _ Hok) as Hs. rewrite <- (take_drop (trusted_len p) l) in Hs.
    pose proof (sorted_app_lt _ _ _ _ Hs Hc' Hin). unfold cert_lt in *. lia.
  - by apply (Hun c').
Qed.

Lemma selection_result l p :
  selection_ok l p ->
  (if (skipped_len p <? trusted_len p)%nat
   then take (trusted_len p - skipped_len p) (drop (skipped_len p) l) else []) =
  filter (selected l) l.
Proof.
  intros Hok. pose proof (fun c => untrusted_not_selected l p c Hok) as Hun.
  destruct (Nat.ltb_spec (skipped_len p) (trusted_len p)) as [Hlt|Hge].
  - rewrite <- (take_drop (skipped_len p) l) at 4.
    rewrite <- (take_drop (trusted_len p - skipped_len p) (drop (skipped_len p) l)) at 2.
    rewrite drop_drop, !filter_app. replace (skipped_len p + _)%nat with (trusted_len p) by lia.
    rewrite (filter_none _ (take (skipped_len p) l)); [|].
    2:{ eapply Forall_impl; [apply (sel_skipped _ _ Hok)|]. simpl. intros c Hc [Hn _]. lia. }
    rewrite (filter_none _ (drop (trusted_len p) l)).
    2:{ apply Forall_forall. auto. }
    rewrite app_nil_r. simpl. symmetry. apply filter_all, Forall_forall. intros c Hin.
    pose proof (sel_kept _ _ Hok) as Hk. rewrite Forall_forall in Hk. split.
    + apply Hk, (subseteq_take _ _ _ Hin).
    + destruct (trusted_len p) as [|i] eqn:Ht; [lia|].
      destruct (sel_trusted _ _ Hok i Ht) as (c' & Hl & Hc'). apply Exists_exists. exists c'.
      split; [by eapply list_elem_of_lookup_2|]. split; [|done].
      apply list_elem_of_lookup in Hin as (j & Hj). apply lookup_take_Some in Hj as [Hj Hji].
      rewrite lookup_drop in Hj.
      apply (sorted_lookup_le l _ _ _ _ (sel_sorted _ _ Hok) Hj Hl). lia.
  - symmetry. apply filter_none, Forall_forall. intros c Hin Hsel.
    rewrite <- (take_drop (skipped_len p) l) in Hin. apply elem_of_app in Hin as [Hin|Hin].
    + pose proof (sel_skipped _ _ Hok) as Hs. rewrite Forall_forall in Hs. apply Hs in Hin.
      destruct Hsel. simpl in *. lia.
    + apply (Hun c); [|done].
      replace (skipped_len p) with (trusted_len p + (skipped_len p - trusted_len p))%nat in Hin by lia.
      rewrite <- drop_drop in Hin.
      rewrite <- (take_drop (skipped_len p - trusted_len p) (drop (trusted_len p) l)). set_solver.
Qed.

Notation select_all certificates :=
  (select_certificates deprecated epoch committees origin next anticipated certificates).

Lemma selection_start :
  selection_ok [] {| latest_height := None; skipped_len := 0; trusted_len := 0 |}.
Proof. split; simpl; try done; constructor. Qed.

Lemma select_certificates_Ok certificates result :
  select_all certificates = Ok result <->
  Forall from_sender certificates /\ StronglySorted cert_lt certificates /\
  result = filter (selected certificates) certificates.
Proof.
  unfold select_certificates. set (p0 := {| latest_height := None |}).
  change (imap pair certificates) with (imap (fun i c => (length (@nil Certificate) + i, c)%nat) certificates).
  split.
  - intros (p & Hl & [= <-])%bind_Ok. apply (select_loop [] _ _ _ selection_start) in Hl.
    simpl in Hl. split_and!; [apply Hl..|]. by apply selection_result.
  - intros (Hv & Hs & ->). destruct (select_accepts certificates p0 0 Hv Hs) as [p Hp]; [done|].
    simpl in *. rewrite Hp. simpl. f_equal. apply selection_result.
    by apply (select_loop [] _ _ _ selection_start) in Hp.
Qed.

(** Which certificates a recipient accepts.  A list is accepted exactly when it
    has confirmed blocks of the sender at increasing heights.  The blocks taken
    from it are those that are new to the recipient and not above the highest
    block that is trusted (by its epoch, or because its messages were already
    anticipated); they are one segment of the list. *)
Theorem select_certificates_exact certificates :
  (forall result, select_all certificates = Ok result <->
     Forall from_sender certificates /\ StronglySorted cert_lt certificates /\
     result = filter (selected certificates) certificates) /\
  (forall result, select_all certificates = Ok result ->
     exists before after, certificates = before ++ result ++ after).
Proof.
  split; [intros result; apply select_certificates_Ok|].
  intros result (p & _ & [= <-])%bind_Ok. destruct (_ <? _)%nat.
  - exists (take (skipped_len p) certificates).
    exists (drop (trusted_len p - skipped_len p) (drop (skipped_len p) certificates)).
    by rewrite !take_drop.
  - by exists [], certificates.
Qed.

End selection.
