(* ===== verification/WorkerExamples.v ===== *)
(** * An example of workers

    A validator with two chains, in the symbolic cryptography of [Crypto], and a
    cache of recent values as a bounded list.  The first chain sends three tokens to
    the second one. *)

From S2P Require Import Prelude Numbers Types Crypto Committees Policy Bcs Inbox Outbox Errors.
From S2P Require Import Certificates Managers Registry System Batches KeyValueStore Runtime.
From S2P Require Import Execution ChainState Blocks Storage Worker.

(** ** Recent values as a list, the last used one first *)

Module ListCache.

Notation entries := (list (CryptoHash * HashedValue)).

(** [DEFAULT_VALUE_CACHE_SIZE]. *)
Definition capacity : nat := 1000.

Definition without (hash : CryptoHash) (c : entries) : entries := filter (fun p => p.1 <> hash) c.
Definition contents (c : entries) : gmap CryptoHash HashedValue := list_to_map c.

#[export] Instance list_cache : ValueCache := {
  value_cache := entries;
  cache_get hash c :=
    match contents c !! hash with
    | Some value => (Some value, (hash, value) :: without hash c)
    | None => (None, c)
    end;
  cache_contains hash c := bool_decide (is_Some (contents c !! hash));
  cache_push hash value c := take capacity ((hash, value) :: without hash c);
  cache_contents := contents;
}.

Lemma without_lookup hash c k :
  contents (without hash c) !! k = if decide (k = hash) then None else contents c !! k.
Proof.
  unfold contents, without. induction c as [|[h v] c IH]; [by case_decide|].
  destruct (decide (h = hash)) as [->|Hne].
  - rewrite filter_cons_False by naive_solver. rewrite IH. csimpl. case_decide; [done|].
    by rewrite lookup_insert_ne.
  - rewrite filter_cons_True by done. csimpl. rewrite !lookup_insert, IH.
    repeat case_decide; naive_solver.
Qed.

Lemma contents_put hash value c :
  contents ((hash, value) :: without hash c) = <[hash := value]> (contents c).
Proof.
  apply map_eq. intros k. unfold contents at 1. csimpl. rewrite !lookup_insert.
  fold (contents (without hash c)). rewrite without_lookup. repeat case_decide; naive_solver.
Qed.

#[export] Instance list_cache_laws : ValueCacheLaws list_cache.
Proof.
  split.
  - intros hash c. unfold cache_get, cache_contents, list_cache.
    destruct (contents c !! hash) as [value|] eqn:Hl; [|done]. split; [done|].
    cbn [snd]. rewrite contents_put. by apply insert_id.
  - done.
  - intros hash value c. unfold cache_push, cache_contents, list_cache. split.
    + rewrite <- contents_put. unfold contents.
      rewrite <- (take_drop capacity ((hash, value) :: without hash c)) at 2.
      rewrite list_to_map_app. apply map_union_subseteq_l.
    + unfold contents. change capacity with (S 999). cbn [take]. csimpl. apply lookup_insert_eq.
Qed.

End ListCache.

(** ** Two chains *)

Module TwoChains.
Import SymbolicCrypto SymbolicBcs ListCache CommitteeExamples BlockExamples.

#[export] Instance no_bytecode : StorageEnv :=
  {| wasm_runtime := None; view_base_key _ _ := []; execution_hash _ _ _ := 77 |}.
#[export] Instance named_signing : InfoSigning := {| sign_info key_pair _ := key_pair |}.

Definition clock (n : nat) : Timestamp := Z.of_nat n.
Definition depth : nat := 2.

Definition members : Committee := committee_new four free.
Definition chain_a : ChainId := chain_id_from (Root 0).
Definition chain_b : ChainId := chain_id_from (Root 1).

Definition no_chains : DbStore :=
  {| st_chains := ∅; st_certificates := ∅; st_values := ∅; st_users := ∅ |}.
Definition store_or {E} (s : DbStore) (r : result E DbStore) : DbStore :=
  match r with Ok s' => s' | _ => s end.
Definition genesis : DbStore :=
  let s := store_or no_chains (create_chain members chain_a (Root 0) 11 10 0 0 no_chains) in
  store_or s (create_chain members chain_a (Root 1) 12 0 0 0 s).

(** The worker of validator 1. *)
Definition start : WorkerState :=
  {| ws_key_pair := Some 1; ws_storage := genesis; ws_allow_inactive_chains := false;
     ws_allow_messages_from_deprecated_epochs := false; ws_grace_period_micros := 0;
     ws_recent_values := ([] : value_cache); ws_delivery_notifiers := ∅; ws_notified := [];
     ws_clock := 0 |}.

(** A transfer of three tokens by the owner of the first chain. *)
Definition transfer_block (to : ChainId) (height : BlockHeight) (previous : option CryptoHash)
    : Block :=
  {| block_chain_id := chain_a; block_epoch := 0; block_incoming_messages := [];
     block_operations := [SystemOp (OpTransfer None (ToAccount (account_of_chain to)) 3 None)];
     block_height := height; block_timestamp := 0;
     block_authenticated_signer := Some (owner_from 11); block_previous_block_hash := previous |}.

Definition propose (block : Block) : BlockProposal :=
  proposal_new {| bar_block := block; bar_round := 0 |} 11 [] None.

(** The block as the validators execute it, and its certificate. *)
Definition confirmed_value (block : Block) (w : WorkerState) : CertificateValue :=
  match stage_block_execution clock depth block w with
  | (Ok (executed_block, _), _) => ConfirmedBlock executed_block
  | _ => LeaderTimeout 0 0 0
  end.
Definition certify (value : CertificateValue) : Certificate :=
  certificate_new (hashed_from value) 0
    ((fun v => (v, signature_new (ValueHashAndRound (hash_value value) 0) v)) <$> [1; 2; 3]).

Definition block0 : Block := transfer_block chain_b 0 None.
Definition cert0 : Certificate := certify (confirmed_value block0 start).

(** The certificate is handled for the caller 500. *)
Definition after0 : WorkerState := (handle_certificate clock depth cert0 [] (Some 500) start).2.
Definition requests_of (r : result WorkerError (ChainInfoResponse * NetworkActions) * WorkerState)
    : list CrossChainRequest :=
  match r with (Ok (_, actions), _) => cross_chain_requests actions | _ => [] end.
Definition requests0 : list CrossChainRequest :=
  requests_of (handle_certificate clock depth cert0 [] (Some 500) start).

(** A second block, to a third chain, for the caller 501. *)
Definition chain_c : ChainId := chain_id_from (Root 2).
Definition block1 : Block := transfer_block chain_c 1 (Some (hv_hash (cert_value cert0))).
Definition cert1 : Certificate := certify (confirmed_value block1 after0).
Definition after1 : WorkerState := (handle_certificate clock depth cert1 [] (Some 501) after0).2.

End TwoChains.
