(* ===== verification/WorkerSteps.v ===== *)
(** * What the handlers of a worker do

    The abstract behaviour of a worker: a handler reads and writes values and
    certificates ([quiet] steps), and replaces the state of a chain by one of
    seven [chain_step]s.  The lemmas of this file show it for each handler of
    [Worker]; so a property of all handlers is a property of the seven steps, as
    [WorkerSafety] uses it:

    - the log of a chain is a chain of stored certificates, the outboxes and the
      channels only know its blocks, and the cached values have their own hashes
      ([worker_ok_preserved]); with this, no handler fails to read a
      certificate for a cross-chain request ([network_actions_complete]);
    - the managers follow the protocol of [Consensus] ([managers_follow_protocol]);
    - a certificate that is refused changes no chain ([refused_certificate_harmless]),
      and one that was accepted is accepted again ([confirmed_idempotent]). *)

From S2P Require Import Prelude Numbers Types Crypto Committees Policy Bcs Inbox Outbox Errors.
From S2P Require Import Certificates Managers Consensus Registry System Batches KeyValueStore.
From S2P Require Import Runtime Execution ChainState Blocks Storage Worker.

Section steps.
Context {C : Crypto} {CL : CryptoLaws C} {B : Bcs} {LS : LeaderSampling} {SE : StorageEnv}.
Context {VC : ValueCache} {VCL : ValueCacheLaws VC} {IS : InfoSigning}.
Context (clock : nat -> Timestamp) (depth : nat).

(** ** The steps *)

Definition cache_ok (cache : value_cache) : Prop :=
  map_Forall (fun hash value => hv_hash value = hash /\ value_ok value) (cache_contents cache).

(** Changes that save no chain. *)
Record quiet (w w' : WorkerState) : Prop := {
  quiet_store : store_step (ws_storage w) (ws_storage w');
  quiet_key : ws_key_pair w' = ws_key_pair w;
  quiet_inactive : ws_allow_inactive_chains w' = ws_allow_inactive_chains w;
  quiet_deprecated : ws_allow_messages_from_deprecated_epochs w' =
    ws_allow_messages_from_deprecated_epochs w;
  quiet_grace : ws_grace_period_micros w' = ws_grace_period_micros w;
  quiet_cache : cache_ok (ws_recent_values w) -> cache_ok (ws_recent_values w');
}.

(** Blocks received from an origin, one after the other. *)
Inductive receives (st : DbStore) (id : ChainId) (origin : Origin)
    : list Certificate -> ChainState -> ChainState -> Prop :=
| receives_nil s : receives st id origin [] s s
| receives_cons cert executed_block now certs s s1 s2 :
    hv_value (cert_value cert) = ConfirmedBlock executed_block ->
    receive_block (H3 := chain_hash st id) id origin
      (block_height (eb_block executed_block)) (block_timestamp (eb_block executed_block))
      (eb_messages executed_block) (hv_hash (cert_value cert)) now s = Ok s1 ->
    receives st id origin certs s1 s2 ->
    receives st id origin (cert :: certs) s s2.

(** Acknowledgements of a recipient. *)
Definition acknowledge (recipient : ChainId) (entry : Medium * BlockHeight) (s : ChainState)
    : result ChainError ChainState :=
  '(_, s) ← chain_mark_messages_as_received
    {| recipient := recipient; target_medium := entry.1 |} entry.2 s;
  Ok s.

(** The certificate is one of the current committee of the chain. *)
Definition checked (s : ChainState) (epoch : Epoch) (cert : Certificate) : Prop :=
  value_ok (cert_value cert) /\
  exists committee, current_committee (es_system (ch_execution s)) = Some (epoch, committee) /\
    certificate_check cert committee = Ok (cert_value cert).

(** The steps of a chain, with the certificates they rely on. *)
Inductive chain_step (w : WorkerState) (id : ChainId) (s : ChainState)
    : list Certificate -> ChainState -> Prop :=
| step_proposal proposal outcome now manager :
    let block := bar_block (prop_content proposal) in
    block_chain_id block = id -> chain_is_active s = true ->
    (forall cert, prop_validated proposal = Some cert -> checked s (block_epoch block) cert) ->
    verify_block_chaining block (ch_tip s) = Ok () ->
    manager_check_proposed_block (ch_manager s) proposal = Ok Accept ->
    manager_create_vote proposal outcome (ws_key_pair w) now (ch_manager s) = Ok manager ->
    chain_step w id s (option_list (prop_validated proposal)) (set_manager manager s)
| step_validated cert executed_block now manager :
    let block := eb_block executed_block in
    hv_value (cert_value cert) = ValidatedBlock executed_block ->
    block_chain_id block = id -> chain_is_active s = true ->
    checked s (block_epoch block) cert ->
    block_height block = next_block_height (ch_tip s) ->
    manager_check_validated_block (ch_manager s) cert = Ok Accept ->
    manager_create_final_vote cert (ws_key_pair w) now (ch_manager s) = Ok manager ->
    chain_step w id s [cert] (set_manager manager s)
| step_timeout_certificate cert epoch now manager :
    hv_value (cert_value cert) = LeaderTimeout id (next_block_height (ch_tip s)) epoch ->
    chain_is_active s = true -> checked s epoch cert ->
    manager_handle_timeout_certificate cert now (ch_manager s) = Ok manager ->
    chain_step w id s [cert] (set_manager manager s)
| step_timeout_vote epoch now manager :
    sys_epoch (es_system (ch_execution s)) = Some epoch ->
    manager_vote_leader_timeout id (next_block_height (ch_tip s)) epoch (ws_key_pair w) now
      (ch_manager s) = (true, manager) ->
    chain_step w id s [] (set_manager manager s)
| step_confirmed cert executed_block now s1 s2 s3 outcome :
    let block := eb_block executed_block in
    hv_value (cert_value cert) = ConfirmedBlock executed_block ->
    block_chain_id block = id -> chain_is_active s = true ->
    checked s (block_epoch block) cert ->
    block_height block = next_block_height (ch_tip s) ->
    tip_block_hash (ch_tip s) = block_previous_block_hash block ->
    remove_events_from_inboxes id block s = Ok s1 ->
    execute_block (H2 := chain_code (ws_storage w) id) (H3 := chain_hash (ws_storage w) id)
      id depth block now s1 = Ok (s2, outcome) ->
    outcome_with outcome block = executed_block ->
    advance_tip (hv_hash (cert_value cert)) s2 = Ok s3 ->
    stored (ws_storage w) (hv_hash (cert_value cert)) (ConfirmedBlock executed_block) ->
    chain_step w id s [cert] s3
| step_received origin sent certificates next anticipated s1 s2 s3 :
    chain_next_block_height_to_receive origin s = Ok (s1, next) ->
    last_anticipated_block_height origin s1 = (s2, anticipated) ->
    select_certificates (ws_allow_messages_from_deprecated_epochs w)
      (sys_epoch (es_system (ch_execution s))) (sys_committees (es_system (ch_execution s)))
      origin next anticipated sent = Ok certificates ->
    receives (ws_storage w) id origin certificates s2 s3 ->
    ws_allow_inactive_chains w = true \/ chain_is_active s3 = true ->
    chain_step w id s [] s3
| step_acknowledged recipient latest_heights s1 :
    for_each (acknowledge recipient) latest_heights s = Ok s1 ->
    chain_step w id s [] s1.

Inductive worker_step (w : WorkerState) : WorkerState -> Prop :=
| worker_quiet w' : quiet w w' -> worker_step w w'
| worker_saves id certs s :
    chain_step w id (load_chain id (ws_storage w)) certs s ->
    worker_step w (set_storage (save_chain id s (ws_storage w)) w).

Definition steps : relation WorkerState := rtc worker_step.

(** ** Reasoning about handlers *)

(** Weakest preconditions: [Q] for results, [E] for errors and panics. *)
Definition wp {A} (m : worker A) (Q : A -> WorkerState -> Prop) (E : WorkerState -> Prop)
    (w : WorkerState) : Prop :=
  match m w with
  | (Ok a, w') => Q a w'
  | (_, w') => E w'
  end.

Section wp.
Context {A : Type}.
Implicit Types (Q : A -> WorkerState -> Prop) (E : WorkerState -> Prop).

Lemma wp_run (m : worker A) Q E w r w' :
  wp m Q E w -> m w = (r, w') -> match r with Ok a => Q a w' | _ => E w' end.
Proof. unfold wp. intros Hwp Hm. rewrite Hm in Hwp. by destruct r. Qed.

Lemma wp_bind {A'} (m : worker A') (k : A' -> worker A) Q E w :
  wp m (fun a => wp (k a) Q E) E w -> wp (m ≫= k) Q E w.
Proof. unfold wp, mbind, worker_bind. by destruct (m w) as [[] w']. Qed.

Lemma wp_mono (m : worker A) Q Q' E E' w :
  wp m Q E w -> (forall a w', Q a w' -> Q' a w') -> (forall w', E w' -> E' w') -> wp m Q' E' w.
Proof. unfold wp. destruct (m w) as [[] w']; auto. Qed.

Lemma wp_ret (a : A) Q E w : Q a w -> wp (mret a) Q E w.
Proof. done. Qed.

Lemma wp_lift (r : result WorkerError A) Q E w :
  (forall a, r = Ok a -> Q a w) -> E w -> wp (w_lift r) Q E w.
Proof. unfold wp, w_lift. destruct r; auto. Qed.

Lemma wp_gets (f : WorkerState -> A) Q E w : Q (f w) w -> wp (w_gets f) Q E w.
Proof. done. Qed.

Lemma wp_modify (f : WorkerState -> WorkerState) (Q : unit -> WorkerState -> Prop) E w :
  Q () (f w) -> wp (w_modify f) Q E w.
Proof. done. Qed.

Lemma wp_ensure cond e (Q : unit -> WorkerState -> Prop) E w :
  (cond = true -> Q () w) -> E w -> wp (w_ensure cond e) Q E w.
Proof. unfold wp, w_ensure, w_lift, ensure. destruct cond; auto. Qed.

Lemma wp_chain (r : result ChainError A) Q E w :
  (forall a, r = Ok a -> Q a w) -> E w -> wp (w_chain r) Q E w.
Proof. unfold wp, w_chain, w_lift. destruct r; simpl; auto. Qed.

Lemma wp_chain_Ok (r : result ChainError A) a Q E w : r = Ok a -> Q a w -> wp (w_chain r) Q E w.
Proof. by intros ->. Qed.

End wp.

Lemma wp_for_each {A S} (f : A -> S -> worker S) (I : S -> WorkerState -> Prop)
    (E : WorkerState -> Prop) l s w :
  (forall a s w, a ∈ l -> I s w -> wp (f a s) I E w) -> I s w -> wp (w_for_each f l s) I E w.
Proof.
  revert s w. induction l as [|a l IH]; intros s w Hf Hi; [done|]. cbn [w_for_each].
  apply wp_bind. eapply wp_mono; [by apply Hf; [left|]| |done].
  intros s1 w1 Hi1. apply IH; [|done]. intros a' s' w' Hin. apply Hf. by right.
Qed.

Lemma run_bind {A A'} (m : worker A') (k : A' -> worker A) w a w1 :
  m w = (Ok a, w1) -> (m ≫= k) w = k a w1.
Proof. intros Hm. unfold mbind, worker_bind. by rewrite Hm. Qed.

(** Computations that leave the state alone. *)
Definition pure {A} (m : worker A) : Prop := forall w, (m w).2 = w.

Lemma wp_pure {A} (m : worker A) Q (E : WorkerState -> Prop) w :
  pure m -> (forall a, m w = (Ok a, w) -> Q a w) -> E w -> wp m Q E w.
Proof.
  intros Hp. specialize (Hp w). unfold wp. destruct (m w) as [r w']. simpl in Hp. subst w'.
  destruct r; auto.
Qed.

Lemma pure_bind {A A'} (m : worker A') (k : A' -> worker A) :
  pure m -> (forall a, pure (k a)) -> pure (m ≫= k).
Proof.
  intros Hm Hk w. specialize (Hm w). unfold mbind, worker_bind.
  destruct (m w) as [[a|e|] w1]; simpl in *; subst; [apply Hk|done|done].
Qed.

Lemma pure_for_each {A S} (f : A -> S -> worker S) l s :
  (forall a s, pure (f a s)) -> pure (w_for_each f l s).
Proof.
  intros Hf. revert s. induction l as [|a l IH]; intros s; [done|].
  apply pure_bind; auto.
Qed.

Lemma pure_ret {A} (a : A) : pure (mret a).
Proof. done. Qed.
Lemma pure_lift {A} (r : result WorkerError A) : pure (w_lift r).
Proof. done. Qed.
Lemma pure_gets {A} (f : WorkerState -> A) : pure (w_gets f).
Proof. done. Qed.

Ltac pure_tac :=
  repeat first
    [ progress intros | apply pure_ret | apply pure_gets | apply pure_lift
    | apply pure_for_each | apply pure_bind | case_match ].

Lemma create_network_actions_pure id chain : pure (create_network_actions id chain).
Proof. unfold create_network_actions, create_cross_chain_request. pure_tac. Qed.

Lemma check_no_missing_bytecode_pure block blobs : pure (check_no_missing_bytecode block blobs).
Proof. unfold check_no_missing_bytecode. pure_tac. Qed.

(** *** Quiet computations *)

#[export] Instance quiet_preorder : PreOrder quiet.
Proof.
  split; [by split|]. intros w1 w2 w3 [] []. split; try congruence; [by etrans|auto].
Qed.

Definition is_quiet {A} (m : worker A) : Prop := forall w, quiet w (m w).2.

Lemma wp_quiet {A} (m : worker A) Q (E : WorkerState -> Prop) w :
  is_quiet m -> (forall a w1, quiet w w1 -> Q a w1) -> (forall w1, quiet w w1 -> E w1) ->
  wp m Q E w.
Proof.
  intros Hq HQ HE. specialize (Hq w). unfold wp. destruct (m w) as [[] w']; simpl in *; auto.
Qed.

Lemma quiet_bind {A A'} (m : worker A') (k : A' -> worker A) :
  is_quiet m -> (forall a, is_quiet (k a)) -> is_quiet (m ≫= k).
Proof.
  intros Hm Hk w. specialize (Hm w). unfold mbind, worker_bind.
  destruct (m w) as [[a|e|] w1]; simpl in *; [|done|done]. etrans; [done|apply Hk].
Qed.

Lemma quiet_pure {A} (m : worker A) : pure m -> is_quiet m.
Proof. intros Hp w. by rewrite Hp. Qed.

Lemma quiet_modify f : (forall w, quiet w (f w)) -> is_quiet (w_modify f).
Proof. intros Hf w. apply Hf. Qed.

Lemma current_time_quiet : is_quiet (current_time clock).
Proof. intros w. by split. Qed.

Lemma cache_recent_value_quiet value : value_ok value -> is_quiet (cache_recent_value value).
Proof.
  intros Hv w. unfold cache_recent_value. destruct (cache_contains _ _); [done|]. split; try done.
  simpl. intros Hok hash v Hl.
  destruct (cache_push_contents (hv_hash value) value (ws_recent_values w)) as [Hsub _].
  apply (lookup_weaken _ _ _ _ Hl) in Hsub. apply lookup_insert_Some in Hsub as [[<- <-]|[_ Hl']].
  - done.
  - by apply Hok.
Qed.

Lemma cache_recent_values_quiet values : Forall value_ok values ->
  is_quiet (cache_recent_values values).
Proof.
  intros Hall. unfold cache_recent_values. induction Hall as [|v values Hv _ IH]; [done|].
  cbn [w_for_each]. apply quiet_bind; [|by intros []].
  apply quiet_bind; [by apply cache_recent_value_quiet|done].
Qed.

Lemma into_confirmed_ok value value' :
  value_ok value -> into_confirmed value = Some value' -> value_ok value'.
Proof.
  unfold into_confirmed, value_ok. intros ->. by destruct (hv_value value) eqn:Hv; intros [= <-].
Qed.

Lemma cache_validated_quiet value : value_ok value -> is_quiet (cache_validated value).
Proof.
  intros Hv. apply quiet_bind; [by apply cache_recent_value_quiet|]. intros [].
  - destruct (into_confirmed value) as [value'|] eqn:Hc; [|done].
    apply quiet_bind; [|done]. by eapply cache_recent_value_quiet, into_confirmed_ok.
  - done.
Qed.

Lemma register_quiet id height actions notifier :
  is_quiet (register_delivery_notifier id height actions notifier).
Proof.
  unfold register_delivery_notifier. destruct notifier; [|done].
  destruct (existsb _ _); apply quiet_modify; by split.
Qed.

Lemma notify_quiet id height : is_quiet (notify_delivery id height).
Proof.
  apply quiet_modify. intros w. destruct (_ !! id); [|done]. destruct (take_notifiers _ _ _). by split.
Qed.

Lemma recent_value_quiet hash : is_quiet (recent_value hash).
Proof.
  intros w. unfold recent_value. destruct (cache_get hash (ws_recent_values w)) as [v c] eqn:Hg.
  destruct (cache_get_contents hash (ws_recent_values w)) as [_ Hc]. rewrite Hg in Hc. simpl in Hc.
  split; try done. simpl. unfold cache_ok. by rewrite Hc.
Qed.

(** ** The handlers refine the steps *)

Lemma quiet_steps w w' : quiet w w' -> steps w w'.
Proof. intros Hq. by apply rtc_once, worker_quiet. Qed.

Lemma quiet_chain w w' id : quiet w w' -> load_chain id (ws_storage w') = load_chain id (ws_storage w).
Proof. intros [Hs _ _ _ _ _]. unfold load_chain. by rewrite (step_chains _ _ Hs). Qed.

(** The chain that a handler loads. *)
Lemma wp_load_active id Q (E : WorkerState -> Prop) w :
  (chain_is_active (load_chain id (ws_storage w)) = true -> Q (load_chain id (ws_storage w)) w) ->
  E w -> wp (w_load_active_chain id) Q E w.
Proof.
  intros HQ HE. unfold w_load_active_chain. apply wp_bind, wp_gets, wp_chain; [|done].
  intros chain Hl. unfold load_active_chain, ensure_is_active in Hl.
  apply bind_Ok in Hl as ([] & Ha & [= <-]).
  destruct (chain_is_active _); [by apply HQ|done].
Qed.

Lemma wp_current id epoch cert chain Q (E : WorkerState -> Prop) w :
  value_ok (cert_value cert) ->
  (checked chain epoch cert -> Q () w) -> E w -> wp (check_current id epoch cert chain) Q E w.
Proof.
  intros Hok HQ HE. unfold check_current. apply wp_bind, wp_lift; [|done].
  intros [current committee] Hc%expect_Ok. apply wp_bind, wp_ensure; [|done].
  intros ->%Z.eqb_eq. apply wp_bind, wp_chain; [|done]. intros v Hv. apply wp_ret, HQ.
  split; [done|]. exists committee. split; [done|]. rewrite Hv. f_equal. unfold certificate_check in Hv.
  by apply bind_Ok in Hv as ([] & _ & [= <-]).
Qed.

(** Saving a chain, then quiet work. *)
Lemma wp_save {A} id chain (k : worker A) Q (E : WorkerState -> Prop) w :
  (exists certs, chain_step w id (load_chain id (ws_storage w)) certs chain) -> is_quiet k ->
  (forall a w', steps w w' -> Q a w') -> (forall w', steps w w' -> E w') ->
  wp (w_save_chain id chain ;; k) Q E w.
Proof.
  intros [certs Hstep] Hk HQ HE. apply wp_bind, wp_modify.
  assert (forall w', quiet (set_storage (save_chain id chain (ws_storage w)) w) w' -> steps w w')
    as Hs.
  { intros w' Hq. eapply rtc_l; [by eapply worker_saves|by apply quiet_steps]. }
  apply wp_quiet; [done| |]; auto.
Qed.

(** Computations that neither fail nor panic. *)
Definition total {A} (m : worker A) : Prop := forall w, is_ok (m w).1 = true.

Lemma total_bind {A A'} (m : worker A') (k : A' -> worker A) :
  total m -> (forall a, total (k a)) -> total (m ≫= k).
Proof.
  intros Hm Hk w. specialize (Hm w). unfold mbind, worker_bind.
  destruct (m w) as [[] w1]; [apply Hk|done|done].
Qed.

Lemma register_total id height actions notifier :
  total (register_delivery_notifier id height actions notifier).
Proof. intros w. destruct notifier; [|done]. simpl. by destruct (existsb _ _). Qed.

Lemma cache_total value : total (cache_recent_value value).
Proof. intros w. unfold cache_recent_value. by destruct (cache_contains _ _). Qed.

Lemma cache_validated_total value : total (cache_validated value).
Proof.
  apply total_bind; [apply cache_total|]. intros []; [|done].
  destruct (into_confirmed value); [|done]. apply total_bind; [apply cache_total|done].
Qed.

(** Saving a chain, then quiet work that cannot fail. *)
Lemma wp_save_total {A} w0 id chain (k : worker A) (E : WorkerState -> Prop) w :
  (exists certs, chain_step w id (load_chain id (ws_storage w)) certs chain) ->
  quiet w0 w -> is_quiet k -> total k ->
  wp (w_save_chain id chain ;; k) (fun _ => steps w0) E w.
Proof.
  intros [certs Hstep] Hq Hk Ht. apply wp_bind, wp_modify. unfold wp.
  set (w1 := set_storage _ w). specialize (Hk w1). specialize (Ht w1).
  destruct (k w1) as [[] w']; [|done|done]. simpl in Hk.
  eapply rtc_l; [by apply worker_quiet|]. eapply rtc_l; [by eapply worker_saves|].
  by apply quiet_steps.
Qed.

Lemma wp_time Q (E : WorkerState -> Prop) w :
  (forall now w', quiet w w' -> ws_storage w' = ws_storage w -> Q now w') ->
  wp (current_time clock) Q E w.
Proof. intros HQ. apply HQ; [by split|done]. Qed.

Lemma info_response_pure info : pure (info_response info).
Proof. done. Qed.

Lemma execute_pure block now chain : pure (w_execute_block depth block now chain).
Proof. done. Qed.

Lemma process_confirmed_steps cert blobs notifier w :
  value_ok (cert_value cert) -> Forall value_ok blobs ->
  wp (process_confirmed_block clock depth cert blobs notifier) (fun _ => steps w) (quiet w) w.
Proof.
  intros Hv Hblobs. unfold process_confirmed_block.
  destruct (hv_value (cert_value cert)) as [|eb|] eqn:Hval; [by apply wp_lift| |by apply wp_lift].
  apply wp_bind, wp_load_active; [intros Ha|done]. apply wp_bind, wp_ensure; [intros Hle|done].
  destruct (Z.ltb_spec (block_height (eb_block eb)) (next_block_height
    (ch_tip (load_chain (block_chain_id (eb_block eb)) (ws_storage w))))) as [Hlt|Hge].
  { apply wp_quiet; [|intros; by apply quiet_steps|done].
    apply quiet_bind; [done|]. intros info.
    apply quiet_bind; [apply quiet_pure, create_network_actions_pure|]. intros actions.
    apply quiet_bind; [apply register_quiet|done]. }
  apply Z.leb_le in Hle.
  apply wp_bind, wp_current; [done|intros Hchecked|done].
  apply wp_bind, wp_ensure; [intros Hprev%bool_decide_eq_true|done].
  apply wp_bind, wp_pure; [apply check_no_missing_bytecode_pure|intros _ _|done].
  apply wp_bind, wp_quiet; [by apply cache_recent_values_quiet|intros _ w1 Hq1|done].
  apply wp_bind, wp_modify.
  set (w2 := set_storage _ w1). assert (quiet w1 w2) as Hq2.
  { split; try done. simpl. etrans; [by apply write_values_step|by apply add_certificate_step]. }
  assert (stored (ws_storage w2) (hv_hash (cert_value cert)) (ConfirmedBlock eb)) as Hst.
  { rewrite <- Hval. apply write_stored. }
  assert (quiet w w2) as Hq by by etrans. clear Hq1 Hq2. clearbody w2.
  apply wp_bind, wp_chain; [intros s1 Hs1|done].
  apply wp_bind, wp_time. intros now w3 Hq3 Hst3.
  assert (quiet w w3) as Hq' by by etrans. clear Hq3.
  apply wp_bind, wp_pure; [apply execute_pure|intros [s2 outcome] Hs2|done].
  apply wp_bind, wp_ensure; [intros Hm%bool_decide_eq_true|done].
  apply wp_bind, wp_ensure; [intros Hc%bool_decide_eq_true|done].
  apply wp_bind, wp_ensure; [intros Hh%Z.eqb_eq|done].
  apply wp_bind, wp_lift; [intros s3 Hs3|done].
  apply wp_bind, wp_pure; [done|intros info _|done].
  apply wp_bind, wp_pure; [apply create_network_actions_pure|intros actions _|done].
  apply wp_save_total; [|done| |].
  - rewrite (quiet_chain w) by done. eexists. rewrite <- Hst3 in Hst.
    eapply step_confirmed with (executed_block := eb) (now := now); try done.
    + lia.
    + unfold w_execute_block, w_chain in Hs2. simpl in Hs2. injection Hs2 as Hs2.
      apply map_err_Ok in Hs2. exact Hs2.
    + destruct eb. simpl in *. unfold outcome_with. congruence.
  - apply quiet_bind; [apply register_quiet|]. intros _.
    apply quiet_bind; [by apply cache_recent_value_quiet|done].
  - apply total_bind; [apply register_total|]. intros _.
    by apply total_bind; [apply cache_total|].
Qed.

Lemma already_validated_Ok height tip b :
  already_validated_block height tip = Ok b ->
  height <= next_block_height tip /\ b = (height <? next_block_height tip).
Proof.
  unfold already_validated_block. intros ([] & Hle & [= <-])%bind_Ok.
  apply ensure_Ok, Z.leb_le in Hle. done.
Qed.

Lemma process_validated_steps cert w :
  value_ok (cert_value cert) ->
  wp (process_validated_block clock cert) (fun _ => steps w) (quiet w) w.
Proof.
  intros Hv. unfold process_validated_block.
  destruct (hv_value (cert_value cert)) as [eb| |] eqn:Hval; [|by apply wp_lift..].
  apply wp_bind, wp_load_active; [intros Ha|done].
  apply wp_bind, wp_current; [done|intros Hchecked|done].
  apply wp_bind, wp_chain; [intros already [Hle Hb]%already_validated_Ok|done].
  set (chain := load_chain _ _) in *.
  apply (wp_bind (A' := bool)).
  assert (forall Q, (Q true w) ->
    (already = false -> manager_check_validated_block (ch_manager chain) cert = Ok Accept ->
     Q false w) -> wp (if already then mret true else
      outcome ← w_chain (manager_check_validated_block (ch_manager chain) cert);
      mret match outcome with Skip => true | Accept => false end) Q (quiet w) w) as Hskip.
  { intros Q Ht Hf. destruct already; [done|].
    apply wp_bind, wp_chain; [|done]. intros [] Ho; apply wp_ret; auto. }
  apply Hskip; clear Hskip; [by apply wp_bind, wp_gets, wp_ret|]. intros -> Hcheck.
  apply wp_bind, wp_quiet; [by apply cache_validated_quiet|intros _ w1 Hq1|done].
  apply wp_bind, wp_gets, wp_bind, wp_time. intros now w2 Hq2 _.
  assert (quiet w w2) as Hq by by etrans.
  apply wp_bind, wp_chain; [intros manager Hm|done].
  apply wp_bind, wp_pure; [done|intros info _|done].
  apply wp_save_total; [|done| |].
  - rewrite (quiet_chain w) by done. eexists. symmetry in Hb. apply Z.ltb_ge in Hb.
    eapply step_validated with (executed_block := eb); try done; [lia|].
    by rewrite (quiet_key _ _ Hq2).
  - apply quiet_bind; [by apply cache_validated_quiet|done].
  - apply total_bind; [by apply cache_validated_total|done].
Qed.

Lemma process_timeout_steps cert w :
  value_ok (cert_value cert) ->
  wp (process_leader_timeout clock cert) (fun _ => steps w) (quiet w) w.
Proof.
  intros Hv. unfold process_leader_timeout.
  destruct (hv_value (cert_value cert)) as [| |id height epoch] eqn:Hval; [by apply wp_lift..|].
  apply wp_bind, wp_load_active; [intros Ha|done].
  apply wp_bind, wp_current; [done|intros Hchecked|done].
  apply wp_bind, wp_chain; [intros already [Hle Hb]%already_validated_Ok|done].
  destruct already; [by apply wp_bind, wp_gets, wp_ret|].
  apply wp_bind, wp_time. intros now w1 Hq _.
  apply wp_bind, wp_chain; [intros manager Hm|done].
  apply wp_bind, wp_pure; [done|intros info _|done].
  apply wp_save_total; [|done..]. rewrite (quiet_chain w) by done. eexists.
  symmetry in Hb. apply Z.ltb_ge in Hb. eapply step_timeout_certificate; try done.
  rewrite Hval. repeat f_equal. lia.
Qed.

Lemma handle_certificate_steps cert blobs notifier w :
  value_ok (cert_value cert) -> Forall value_ok blobs ->
  wp (handle_certificate clock depth cert blobs notifier) (fun _ => steps w) (quiet w) w.
Proof.
  intros Hv Hblobs. unfold handle_certificate. apply wp_bind, wp_lift; [intros [] _|done].
  destruct (hv_value (cert_value cert)).
  - apply wp_bind. eapply wp_mono; [by apply process_validated_steps| |done].
    intros [[info actions] d] w' Hs. by apply wp_ret.
  - by apply process_confirmed_steps.
  - by apply process_timeout_steps.
Qed.

(** A certificate with a value of the cache. *)
Lemma full_certificate_ok cert w :
  cache_ok (ws_recent_values w) ->
  wp (full_certificate cert) (fun c w' => quiet w w' /\ value_ok (cert_value c)) (quiet w) w.
Proof.
  intros Hok. unfold full_certificate.
  pose proof (recent_value_quiet (lv_value_hash (lcert_value cert)) w) as Hq.
  apply wp_bind. unfold wp. unfold recent_value in *.
  destruct (cache_get_contents (lv_value_hash (lcert_value cert)) (ws_recent_values w)) as [Hget _].
  destruct (cache_get _ _) as [value cache]. simpl in *.
  apply wp_bind, wp_lift; [|done]. intros v Hvalue%ok_or_Ok.
  apply wp_lift; [|done]. intros c Hc%ok_or_Ok. split; [done|].
  rewrite Hvalue in Hget. destruct (Hok _ _ (eq_sym Hget)) as [_ Hv].
  unfold lite_with_value in Hc. destruct (_ || _); [done|]. by injection Hc as <-.
Qed.

Lemma handle_lite_steps cert notifier w :
  cache_ok (ws_recent_values w) ->
  wp (handle_lite_certificate clock depth cert notifier) (fun _ => steps w) (quiet w) w.
Proof.
  intros Hok. apply wp_bind. eapply wp_mono; [by apply full_certificate_ok| |done].
  intros c w1 [Hq Hv]. eapply wp_mono; [by apply handle_certificate_steps| |].
  - intros a w' Hs. eapply rtc_l; [by apply worker_quiet|done].
  - intros w' Hs. by etrans.
Qed.

(** *** Votes *)

(** The certificates of validated blocks that a manager keeps. *)
Definition manager_certificates (m : ChainManager) : list Certificate :=
  match m with
  | ManagerMulti multi =>
      option_list (locked multi) ++ option_list (proposal ← proposed multi; prop_validated proposal)
  | _ => []
  end.

(** The values of the pending vote and of the certificates have their own hashes. *)
Record vote_ok (m : ChainManager) : Prop := {
  pending_ok vote : manager_pending m = Some vote -> value_ok (vote_value vote);
  kept_ok cert : cert ∈ manager_certificates m -> value_ok (cert_value cert);
}.

Lemma elem_of_option {A} (x : A) o : x ∈ option_list o <-> o = Some x.
Proof. clear clock depth. destruct o; simpl; [rewrite list_elem_of_singleton|rewrite elem_of_nil];
  naive_solver. Qed.
Lemma elem_of_kept multi cert :
  cert ∈ manager_certificates (ManagerMulti multi) <->
  locked multi = Some cert \/
  exists proposal, proposed multi = Some proposal /\ prop_validated proposal = Some cert.
Proof.
  clear clock depth. cbn [manager_certificates]. rewrite elem_of_app, !elem_of_option.
  destruct (proposed multi); simpl; naive_solver.
Qed.

Lemma none_ok : vote_ok ManagerNone.
Proof. clear clock depth. split; [done|]. intros cert Hin. by apply elem_of_nil in Hin. Qed.

Lemma create_vote_ok proposal outcome key now m m' :
  (forall cert, prop_validated proposal = Some cert -> value_ok (cert_value cert)) ->
  vote_ok m -> manager_create_vote proposal outcome key now m = Ok m' -> vote_ok m'.
Proof.
  clear clock depth. destruct m as [|single|multi]; simpl; intros Hv [Hp Hk] [= <-]; split.
  - simpl in *. unfold single_create_vote. destruct key as [key|]; [|done]. case_match; [done|].
    by intros vote [= <-].
  - intros cert Hin. by apply elem_of_nil in Hin.
  - simpl in *. unfold multi_create_vote, multi_update. simpl. destruct key as [key|]; [|done].
    by intros vote [= <-].
  - intros cert. rewrite elem_of_kept. unfold multi_create_vote, multi_update. simpl.
    assert (forall cert, locked multi = Some cert -> value_ok (cert_value cert)) as Hl.
    { intros c Hc. apply Hk, elem_of_kept. by left. }
    intros [Hin|(p & [= <-] & Hin)]; [|auto].
    destruct (prop_validated proposal) as [v|]; [|auto]. case_match; simplify_eq; auto.
Qed.

Lemma create_final_vote_ok cert eb key now m m' :
  value_ok (cert_value cert) -> hv_value (cert_value cert) = ValidatedBlock eb ->
  vote_ok m -> manager_create_final_vote cert key now m = Ok m' -> vote_ok m'.
Proof.
  clear clock depth. destruct m as [|single|multi]; simpl; intros Hc Hv Hok [= <-].
  unfold multi_create_final_vote, multi_update, into_confirmed. rewrite Hv. case_match; [done|].
  destruct Hok as [Hp Hk]. split.
  - simpl in *. destruct key as [key|]; [|done]. by intros vote [= <-].
  - intros c. rewrite elem_of_kept. simpl. intros [[= <-]|Hin]; [done|]. apply Hk, elem_of_kept.
    by right.
Qed.

Lemma handle_timeout_ok cert now m m' :
  vote_ok m -> manager_handle_timeout_certificate cert now m = Ok m' -> vote_ok m'.
Proof.
  clear clock depth. destruct m as [|single|multi]; simpl; intros Hok [= <-]; simpl in *.
  unfold multi_handle_timeout_certificate, multi_update. by repeat case_match; destruct Hok; split.
Qed.

Lemma vote_timeout_ok id height epoch key now m m' changed :
  vote_ok m -> manager_vote_leader_timeout id height epoch key now m = (changed, m') -> vote_ok m'.
Proof.
  clear clock depth. destruct m as [|single|multi]; simpl; [by intros ? [= <- <-]..|].
  unfold multi_vote_leader_timeout. intros Hok.
  repeat case_match; intros; simplify_eq/=; destruct Hok; by split.
Qed.

Lemma reset_ok ownership height now m : manager_reset ownership height now = Ok m -> vote_ok m.
Proof.
  clear clock depth. destruct ownership; simpl; [intros [= <-]; split; [done|]; intros c Hin;
    by apply elem_of_nil in Hin..|].
  intros (multi & Hm & ->)%fmap_Ok. unfold multi_new in Hm.
  apply bind_Ok in Hm as ([] & _ & [= <-]). split; [done|].
  intros c [|(? & ? & _)]%elem_of_kept; done.
Qed.

(** *** Proposals and queries *)

Lemma handle_proposal_steps proposal w :
  Forall value_ok (prop_blobs proposal) ->
  (forall cert, prop_validated proposal = Some cert -> value_ok (cert_value cert)) ->
  (forall id, vote_ok (ch_manager (load_chain id (ws_storage w)))) ->
  wp (handle_block_proposal clock depth proposal) (fun _ => steps w) (steps w) w.
Proof.
  intros Hblobs Hcert Hvotes. assert (steps w w) as Hrefl by apply rtc_refl.
  unfold handle_block_proposal. set (block := bar_block (prop_content proposal)).
  apply wp_bind, wp_load_active; [intros Ha|done]. set (chain := load_chain _ _) in *.
  apply wp_bind, wp_lift; [|done]. intros [epoch committee] Hc%expect_Ok.
  apply wp_bind, wp_ensure; [|done]. intros <-%Z.eqb_eq.
  apply wp_bind.
  assert (forall Q, ((forall cert, prop_validated proposal = Some cert ->
      checked chain (block_epoch block) cert) -> Q () w) ->
    wp match prop_validated proposal with
       | Some validated => w_chain (certificate_check validated committee) ;; mret ()
       | None => mret ()
       end Q (steps w) w) as Hvalidated.
  { intros Q HQ. destruct (prop_validated proposal) as [cert|]; [|by apply HQ].
    apply wp_bind, wp_chain; [|done]. intros v Hv. apply wp_ret, HQ. intros ? [= <-].
    split; [by apply Hcert|]. exists committee. split; [done|]. rewrite Hv. f_equal.
    by apply bind_Ok in Hv as ([] & _ & [= <-]). }
  apply Hvalidated. clear Hvalidated. intros Hvalidated.
  apply wp_bind, wp_lift; [intros public_key _|done]. apply wp_bind, wp_lift; [intros [] _|done].
  apply wp_bind, wp_pure; [by destruct (block_authenticated_signer block)|intros [] _|done].
  apply wp_bind, wp_chain; [intros [] Hchain|done].
  apply wp_bind, wp_chain; [intros [] Hcheck|done]; [|by apply wp_bind, wp_gets, wp_ret].
  apply wp_bind, wp_chain; [intros staged _|done].
  apply wp_bind, wp_pure; [apply check_no_missing_bytecode_pure|intros _ _|done].
  apply wp_bind, wp_modify. set (w1 := set_storage _ w).
  assert (quiet w w1) as Hq1 by (split; try done; by apply write_values_step). clearbody w1.
  apply wp_bind, wp_time. intros now1 w2 Hq2 _. assert (quiet w w2) as Hq by by etrans.
  clear Hq1 Hq2. apply wp_bind, wp_gets, wp_bind, wp_ensure; [intros _|by apply quiet_steps].
  apply wp_bind, wp_time. intros now w3 Hq3 _. assert (quiet w w3) as Hq' by by etrans.
  clear Hq Hq3. pose proof (quiet_steps _ _ Hq') as Hsteps.
  apply wp_bind, wp_pure; [apply execute_pure|intros [staged2 outcome] _|done].
  apply wp_bind, wp_chain; [intros [] _|done]. apply wp_bind, wp_gets.
  apply wp_bind, wp_chain; [intros manager Hm|done].
  apply wp_bind. apply wp_quiet; [|intros [] w4 Hq4|].
  { destruct (manager_pending manager) as [vote|] eqn:Hp; [|done].
    apply quiet_bind; [|done]. apply cache_recent_value_quiet.
    by eapply create_vote_ok; [done|apply (Hvotes (block_chain_id block))|done|]. }
  - assert (quiet w w4) as Hq by by etrans.
    apply wp_bind, wp_pure; [done|intros info _|by apply quiet_steps].
    apply wp_save.
    + rewrite (quiet_chain w) by done. eexists. eapply step_proposal; try done.
      by rewrite (quiet_key _ _ Hq4).
    + apply quiet_bind; [apply quiet_pure, create_network_actions_pure|done].
    + intros a w' Hs. eapply rtc_l; [by apply worker_quiet|done].
    + intros w' Hs. eapply rtc_l; [by apply worker_quiet|done].
  - intros w4 Hq4. apply quiet_steps. by etrans.
Qed.

Lemma vote_for_timeout_steps query w :
  wp (vote_for_timeout clock query (load_chain (query_chain_id query) (ws_storage w)))
    (fun _ => steps w) (steps w) w.
Proof.
  assert (steps w w) as Hrefl by apply rtc_refl. unfold vote_for_timeout.
  destruct (request_leader_timeout query); [|done]. set (chain := load_chain _ _).
  destruct (sys_epoch (es_system (ch_execution chain))) as [epoch|] eqn:He; [|done].
  apply wp_bind, wp_gets, wp_bind, wp_time. intros now w1 Hq _.
  destruct (manager_vote_leader_timeout _ _ _ _ _ _) as [[] manager] eqn:Hv;
    [|by apply wp_ret, quiet_steps].
  apply wp_save; [|done| |].
  - rewrite (quiet_chain w) by done. eexists. eapply step_timeout_vote; [done|].
    by rewrite (quiet_key _ _ Hq).
  - intros a w' Hs. eapply rtc_l; [by apply worker_quiet|done].
  - intros w' Hs. eapply rtc_l; [by apply worker_quiet|done].
Qed.

Lemma handle_query_steps query w :
  wp (handle_chain_info_query clock query) (fun _ => steps w) (steps w) w.
Proof.
  unfold handle_chain_info_query. apply wp_bind, wp_gets, wp_bind.
  eapply wp_mono; [apply vote_for_timeout_steps| |done]. intros chain w1 Hs.
  apply wp_pure; [|done|done].
  apply pure_bind; [by case_match|intros []].
  apply pure_bind; [case_match; [pure_tac|done]|intros certificates].
  apply pure_bind; [case_match; [pure_tac|done]|intros blob].
  apply pure_bind; [done|intros response].
  apply pure_bind; [apply create_network_actions_pure|done].
Qed.

(** *** Cross-chain requests *)

Lemma receive_all id origin certs chain Q (E : WorkerState -> Prop) w :
  Forall (fun c => is_confirmed (hv_value (cert_value c)) = true) certs ->
  (forall chain' w', quiet w w' -> ws_storage w' = ws_storage w ->
     receives (ws_storage w) id origin certs chain chain' -> Q chain' w') ->
  (forall w', quiet w w' -> E w') ->
  wp (w_for_each (receive_certificate clock origin id) certs chain) Q E w.
Proof.
  intros Hall. revert chain w Q. induction Hall as [|c certs Hc Hcs IH]; intros chain w Q HQ HE.
  { apply wp_ret, HQ; [done..|constructor]. }
  cbn [w_for_each]. apply wp_bind. unfold receive_certificate at 1.
  destruct (hv_value (cert_value c)) as [|eb|] eqn:Hv; [done| |done].
  apply wp_bind, wp_time. intros now w1 Hq1 Hst1. apply wp_bind, wp_gets.
  apply wp_chain; [|by apply HE]. intros chain1 Hr. apply IH.
  - intros chain' w' Hq' Hst' Hrs. apply HQ; [by etrans|congruence|].
    rewrite Hst1 in Hr, Hrs. by eapply receives_cons.
  - intros w' Hq'. apply HE. by etrans.
Qed.

Lemma selected_confirmed deprecated epoch committees origin next anticipated sent certs :
  select_certificates deprecated epoch committees origin next anticipated sent = Ok certs ->
  Forall (fun c => is_confirmed (hv_value (cert_value c)) = true) certs /\ certs ⊆ sent.
Proof.
  intros (Hv & _ & ->)%select_certificates_Ok. split.
  - apply Forall_forall. intros c [_ Hin]%list_elem_of_filter. rewrite Forall_forall in Hv.
    by apply Hv.
  - intros c [_ Hin]%list_elem_of_filter. done.
Qed.

Lemma process_update_steps origin id sent w :
  Forall (fun c => value_ok (cert_value c)) sent ->
  wp (process_cross_chain_update clock origin id sent) (fun _ => steps w) (steps w) w.
Proof.
  intros Hok. assert (steps w w) as Hrefl by apply rtc_refl.
  unfold process_cross_chain_update. apply wp_bind, wp_gets.
  apply wp_bind, wp_chain; [intros [s1 next] Hs1|done].
  destruct (last_anticipated_block_height origin s1) as [s2 anticipated] eqn:Hs2.
  assert (ch_execution s2 = ch_execution (load_chain id (ws_storage w))) as Hexec.
  { apply bind_Ok in Hs1 as (? & _ & [= <- _]). by injection Hs2 as <- _. }
  apply wp_bind, wp_gets, wp_bind, wp_lift; [|done]. rewrite Hexec. intros certs Hsel.
  destruct (selected_confirmed _ _ _ _ _ _ _ _ Hsel) as [Hconf Hsub].
  destruct (last certs) as [c|]; [|done].
  apply wp_bind, wp_modify. set (w1 := set_storage _ w). assert (quiet w w1) as Hq1.
  { split; try done. apply write_certificates_step. rewrite Forall_forall in *. auto. }
  clearbody w1. apply wp_bind, receive_all; [done| |].
  2:{ intros w' Hq'. apply quiet_steps. by etrans. }
  intros s3 w2 Hq2 Hst2 Hrs. assert (quiet w w2) as Hq by by etrans.
  apply wp_bind, wp_gets.
  destruct (negb _ && negb _) eqn:Hact; [by apply wp_ret, quiet_steps|].
  apply wp_save; [|done| |].
  - rewrite (quiet_chain w) by done. eexists. rewrite <- Hst2 in Hrs.
    rewrite <- (quiet_deprecated _ _ Hq) in Hsel.
    eapply step_received; [done..|]. apply andb_false_iff in Hact.
    rewrite !negb_false_iff in Hact. done.
  - intros a w' Hs. eapply rtc_l; [by apply worker_quiet|done].
  - intros w' Hs. eapply rtc_l; [by apply worker_quiet|done].
Qed.

Lemma confirm_steps sender recipient latest_heights progress w s :
  wp (w_for_each (confirm_medium sender recipient) latest_heights (progress, s))
    (fun '(_, s') w' => quiet w w' /\ for_each (acknowledge recipient) latest_heights s = Ok s')
    (quiet w) w.
Proof.
  revert progress s w. induction latest_heights as [|[medium height] l IH]; intros progress s w;
    [done|].
  cbn [w_for_each]. apply wp_bind. unfold confirm_medium at 1.
  apply wp_bind, wp_chain; [|done]. intros [marked s1] Hm.
  assert (forall s', for_each (acknowledge recipient) l s1 = Ok s' ->
    for_each (acknowledge recipient) ((medium, height) :: l) s = Ok s') as Hcons.
  { intros s' Hl. cbn [for_each]. unfold acknowledge at 2. cbn [fst snd]. by rewrite Hm. }
  destruct marked; simpl.
  2:{ apply wp_ret. eapply wp_mono; [apply IH| |done]. intros [b s'] w' [Hq' Hf]. auto. }
  apply wp_bind, wp_quiet; [|intros [] w1 Hq|done].
  { destruct (all_messages_delivered_up_to height s1); [apply notify_quiet|done]. }
  apply wp_ret. eapply wp_mono; [apply IH| |].
  - intros [b s'] w' [Hq' Hf]. split; [by etrans|auto].
  - intros w' Hq'. by etrans.
Qed.

Definition request_ok (request : CrossChainRequest) : Prop :=
  match request with
  | UpdateRecipient _ _ _ certificates =>
      Forall (fun c => value_ok (cert_value c)) certificates
  | ConfirmUpdatedRecipient _ _ _ => True
  end.

#[export] Instance request_ok_dec request : Decision (request_ok request).
Proof. destruct request; apply _. Defined.

Lemma handle_request_steps request w :
  request_ok request ->
  wp (handle_cross_chain_request clock request) (fun _ => steps w) (steps w) w.
Proof.
  destruct request as [height_map sender recipient certs|sender recipient heights]; simpl; intros Hok.
  - apply wp_bind. eapply wp_mono.
    + apply (wp_for_each _ (fun _ => steps w) (steps w)); [|apply rtc_refl].
      intros [medium heights] done w1 _ Hs. apply wp_bind.
      eapply wp_mono; [apply process_update_steps| |].
      * apply Forall_forall. intros c [_ Hin]%list_elem_of_filter.
        rewrite Forall_forall in Hok. by apply Hok.
      * intros a w' Hs'. apply wp_ret. by etrans.
      * intros w' Hs'. by etrans.
    + intros [] w' Hs; by apply wp_ret.
    + done.
  - apply wp_bind, wp_gets, wp_bind. eapply wp_mono; [apply confirm_steps| |by apply quiet_steps].
    intros [changed s] w1 [Hq Ha]. destruct changed.
    + apply wp_save; [|done| |].
      * rewrite (quiet_chain w) by done. eexists. by eapply step_acknowledged.
      * intros a w' Hs. eapply rtc_l; [by apply worker_quiet|done].
      * intros w' Hs. eapply rtc_l; [by apply worker_quiet|done].
    + by apply wp_bind, wp_ret, wp_ret, quiet_steps.
Qed.

End steps.
