(* ===== verification/WorkerSafety.v ===== *)
(** * Safety of workers

    Properties of every handler of a worker, proved for the steps of
    [WorkerSteps]. *)

From S2P Require Import Prelude Numbers Types Crypto Committees Policy Bcs Inbox Outbox Errors.
From S2P Require Import Certificates Managers Consensus Registry System Batches KeyValueStore.
From S2P Require Import Runtime Execution ChainState Blocks Storage Worker WorkerExamples.
From S2P Require Import WorkerSteps.

Section safety.
Context {C : Crypto} {CL : CryptoLaws C} {B : Bcs} {LS : LeaderSampling} {SE : StorageEnv}.
Context {VC : ValueCache} {VCL : ValueCacheLaws VC} {IS : InfoSigning}.
Context (clock : nat -> Timestamp) (depth : nat).

(** ** The invariant *)

(** Between blocks, outboxes and channels only know blocks below the next height. *)
Record mail_ok (height : BlockHeight) (s : ChainState) : Prop := {
  mail_outboxes target :
    outbox_wf (outbox_of s target) /\ next_height_to_schedule (outbox_of s target) <= height;
  mail_channels name h : channel_block_height (channel_of s name) = Some h -> h < height;
}.

(** The log of a chain is a chain of stored blocks that ends at the tip. *)
Record chain_ok (st : DbStore) (id : ChainId) (s : ChainState) : Prop := {
  chain_length : Z.of_nat (length (ch_confirmed_log s)) = next_block_height (ch_tip s);
  chain_tip : tip_block_hash (ch_tip s) = last (ch_confirmed_log s);
  chain_log i hash : ch_confirmed_log s !! i = Some hash ->
    exists eb, stored st hash (ConfirmedBlock eb) /\
      block_chain_id (eb_block eb) = id /\ block_height (eb_block eb) = Z.of_nat i /\
      block_previous_block_hash (eb_block eb) =
        match i with O => None | S i => ch_confirmed_log s !! i end;
  chain_mail : mail_ok (next_block_height (ch_tip s)) s;
  chain_vote : vote_ok (ch_manager s);
}.

Record worker_ok (w : WorkerState) : Prop := {
  worker_store : store_ok (ws_storage w);
  worker_cache : cache_ok (ws_recent_values w);
  worker_chains : map_Forall (chain_ok (ws_storage w)) (st_chains (ws_storage w));
}.

Lemma chain_ok_mono st st' id s :
  (forall hash value, stored st hash value -> stored st' hash value) ->
  chain_ok st id s -> chain_ok st' id s.
Proof.
  intros Hst [Hlen Htip Hlog Hmail Hvote]. split; try done.
  intros i hash Hl. destruct (Hlog i hash Hl) as (eb & Hs & Hrest). exists eb. auto.
Qed.

Lemma chain_default_ok st id : chain_ok st id chain_default.
Proof.
  split; try done; simpl; [|apply none_ok].
  split; [intros target|intros name h]; unfold outbox_of, channel_of, entry; simpl;
    rewrite lookup_empty; simpl; [|done]. split; [apply outbox_default_wf|done].
Qed.

Lemma load_chain_ok w id : worker_ok w -> chain_ok (ws_storage w) id (load_chain id (ws_storage w)).
Proof.
  intros [_ _ Hc]. unfold load_chain. destruct (_ !! id) eqn:Hl; simpl; [by apply Hc|].
  apply chain_default_ok.
Qed.

(** ** Preservation *)

Lemma set_manager_ok st id s manager :
  chain_ok st id s -> vote_ok manager -> chain_ok st id (set_manager manager s).
Proof. intros [Hlen Htip Hlog [Ho Hc] Hvote] Hm. by split. Qed.

Lemma saved_ok st id s : chain_ok st id s -> chain_ok st id (saved s).
Proof. intros [Hlen Htip Hlog [Ho Hc] Hvote]. by split. Qed.

Lemma mark_mail target height s changed s' h :
  chain_mark_messages_as_received target height s = Ok (changed, s') ->
  (mail_ok h s -> 0 <= h -> mail_ok h s') /\ ch_tip s' = ch_tip s /\
  ch_confirmed_log s' = ch_confirmed_log s /\ ch_manager s' = ch_manager s.
Proof.
  unfold chain_mark_messages_as_received. cbv zeta. rewrite entry_load.
  fold (outbox_of s target). unfold load_entry.
  destruct (mark_messages_as_received height (outbox_of s target)) as [updates outbox] eqn:Hm.
  rewrite insert_insert_eq.
  assert (forall outboxes counters, (outboxes = <[target := outbox]> (ch_outboxes s) \/
      outboxes = delete target (<[target := outbox]> (ch_outboxes s))) ->
    0 <= h -> mail_ok h s -> mail_ok h (set_outboxes outboxes counters s)) as Hmail.
  { intros outboxes counters Hcases Hh [Ho Hc]. split; [|done]. intros t.
    pose proof (Ho target) as [Hwf Hle]. destruct (mark_messages_wf _ _ _ _ Hwf Hm) as (Hwf' & _).
    assert (next_height_to_schedule outbox = next_height_to_schedule (outbox_of s target)) as Hn.
    { unfold mark_messages_as_received in Hm. destruct (take_received _ _). by injection Hm as <- <-. }
    specialize (Ho t). unfold outbox_of, entry in *. simpl.
    destruct (decide (t = target)) as [->|Hne], Hcases as [->| ->];
      rewrite ?lookup_delete_eq, ?lookup_delete_ne, ?lookup_insert_eq, ?lookup_insert_ne by done;
      simpl; [split; [done|unfold id; lia]|split; [apply outbox_default_wf|done]|done|done]. }
  destruct updates as [|u updates].
  - intros [= <- <-]. split; [|done]. intros Hok Hh. by apply Hmail; [left| |].
  - intros (counters & _ & [= <- <-])%bind_Ok. split; [|done]. intros Hok Hh.
    apply Hmail; [|done|done]. case_bool_decide; auto.
Qed.

Lemma chain_height_nonneg st id s : chain_ok st id s -> 0 <= next_block_height (ch_tip s).
Proof. intros [<- _ _ _ _]. lia. Qed.

Lemma acknowledge_ok st id recipient latest_heights s s' :
  for_each (acknowledge recipient) latest_heights s = Ok s' -> chain_ok st id s -> chain_ok st id s'.
Proof.
  intros Hl Hok. refine (for_each_invariant (chain_ok st id) _ _ _ _ _ Hok Hl).
  intros [medium height] s1 s2 _ Hok1. unfold acknowledge.
  intros ([changed s3] & Hm & [= <-])%bind_Ok.
  pose proof (chain_height_nonneg _ _ _ Hok1).
  destruct Hok1 as [Hlen Htip Hlog Hmail Hvote].
  destruct (mark_mail _ _ _ _ _ (next_block_height (ch_tip s1)) Hm) as (Hmail' & Ht & Hlg & Hmg).
  split; rewrite ?Ht, ?Hlg, ?Hmg; auto.
Qed.

Lemma receives_ok st st' id origin certs s s' :
  receives st' id origin certs s s' -> chain_ok st id s -> chain_ok st id s'.
Proof.
  induction 1 as [|cert eb now certs s s1 s2 _ Hr _ IH]; [done|]. intros Hok. apply IH.
  apply receive_block_inv in Hr
    as (_ & _ & _ & _ & _ & Ho & _ & Hc & Htip & Hlog & _ & Hm).
  destruct Hok as [Hlen Ht Hl [Hmo Hmc] Hvote]. split; rewrite ?Htip, ?Hlog; try done.
  - split; [intros target; unfold outbox_of; rewrite Ho; apply Hmo|].
    intros name h. unfold channel_of. rewrite Hc. apply Hmc.
  - destruct Hm as [->|(ownership & Hm)]; [done|by eapply reset_ok].
Qed.

(** A confirmed block extends the log. *)
Lemma mail_heights_ok height s : mail_ok height s -> heights_ok height s.
Proof.
  intros [Ho Hc]. split.
  - intros target. destruct (Ho target) as [Hwf Hle]. split; [done|]. by left.
  - intros name h Hh. specialize (Hc name h Hh). lia.
Qed.

Lemma heights_mail_ok height s : heights_ok height s -> mail_ok (height + 1) s.
Proof.
  intros [Ho Hc]. split.
  - intros target. destruct (Ho target) as [Hwf Hle]. split; [done|]. lia.
  - intros name h Hh. specialize (Hc name h Hh). lia.
Qed.

Lemma log_extend st id log hash eb :
  (forall i h, log !! i = Some h -> exists eb, stored st h (ConfirmedBlock eb) /\
     block_chain_id (eb_block eb) = id /\ block_height (eb_block eb) = Z.of_nat i /\
     block_previous_block_hash (eb_block eb) = match i with O => None | S i => log !! i end) ->
  stored st hash (ConfirmedBlock eb) -> block_chain_id (eb_block eb) = id ->
  block_height (eb_block eb) = Z.of_nat (length log) ->
  block_previous_block_hash (eb_block eb) = last log ->
  forall i h, (log ++ [hash]) !! i = Some h -> exists eb, stored st h (ConfirmedBlock eb) /\
     block_chain_id (eb_block eb) = id /\ block_height (eb_block eb) = Z.of_nat i /\
     block_previous_block_hash (eb_block eb) =
       match i with O => None | S i => (log ++ [hash]) !! i end.
Proof.
  intros Hlog Hst Hid Hh Hp i h Hl. apply lookup_app_Some in Hl as [Hl|[Hge Hl]].
  - destruct (Hlog i h Hl) as (eb' & Hs & Hi & Hhe & Hpr). exists eb'. split_and!; try done.
    rewrite Hpr. destruct i as [|i]; [done|]. apply lookup_lt_Some in Hl.
    rewrite lookup_app_l; [done|lia].
  - apply list_lookup_singleton_Some in Hl as [Hi <-].
    assert (i = length log) as -> by lia. exists eb. split_and!; try done.
    rewrite Hp. destruct log as [|h0 log _] using rev_ind; [done|].
    rewrite last_snoc, length_app, Nat.add_1_r, <- (assoc_L (++)). symmetry.
    by apply list_lookup_middle.
Qed.

Lemma confirmed_ok w id s cert eb now s1 s2 s3 outcome :
  block_chain_id (eb_block eb) = id ->
  block_height (eb_block eb) = next_block_height (ch_tip s) ->
  tip_block_hash (ch_tip s) = block_previous_block_hash (eb_block eb) ->
  remove_events_from_inboxes id (eb_block eb) s = Ok s1 ->
  execute_block (H2 := chain_code (ws_storage w) id) (H3 := chain_hash (ws_storage w) id)
    id depth (eb_block eb) now s1 = Ok (s2, outcome) ->
  advance_tip (hv_hash (cert_value cert)) s2 = Ok s3 ->
  stored (ws_storage w) (hv_hash (cert_value cert)) (ConfirmedBlock eb) ->
  chain_ok (ws_storage w) id s -> chain_ok (ws_storage w) id s3.
Proof.
  intros Hid Hheight Hprev Hs1 Hs2 Hs3 Hst [Hlen Htip Hlog Hmail Hvote].
  apply remove_events_same in Hs1. pose proof (execute_block_manager _ _ _ _ _ _ _ Hs2) as Hm.
  apply execute_block_mail in Hs2 as (_ & Htip2 & _ & Hlog2 & _ & Hh).
  unfold advance_tip in Hs3. apply bind_Ok in Hs3 as (next & Hn & [= <-]).
  apply map_err_Ok, try_add_assign_one_Ok in Hn as [-> _].
  rewrite Hs1 in Htip2, Hlog2, Hh. simpl in *. rewrite Htip2, Hlog2 in *.
  assert (mail_ok (next_block_height (ch_tip s) + 1) s2) as [Hmo Hmc].
  { rewrite <- Hheight. apply heights_mail_ok, Hh. rewrite Hheight. apply mail_heights_ok in Hmail.
    destruct Hmail as [Ho Hc]. by split. }
  split; simpl.
  - rewrite length_app. simpl. lia.
  - by rewrite last_snoc.
  - apply (log_extend _ _ _ _ eb); try done; congruence.
  - by split.
  - by eapply reset_ok.
Qed.

Lemma chain_step_ok w id s relied s' :
  chain_step depth w id s relied s' -> chain_ok (ws_storage w) id s -> chain_ok (ws_storage w) id s'.
Proof.
  intros [proposal outcome now manager block _ _ Hval _ _ Hv
         |cert eb now manager block Heb _ _ Hch _ _ Hv
         |cert epoch now manager _ _ _ Hv
         |epoch now manager _ Hv
         |cert eb now s1 s2 s3 outcome block _ Hid _ _ Hh Hp Hs1 Hs2 _ Hs3 Hst
         |origin sent certs next anticipated s1 s2 s3 Hs1 Hs2 _ Hr _
         |recipient latest s1 Ha] Hok.
  - apply set_manager_ok; [done|]. eapply create_vote_ok; [|apply (chain_vote _ _ _ Hok)|done].
    intros cert Hc. by apply (Hval cert Hc).
  - apply set_manager_ok; [done|]. by eapply create_final_vote_ok;
      [apply Hch| |apply (chain_vote _ _ _ Hok)|].
  - apply set_manager_ok; [done|]. by eapply handle_timeout_ok; [apply (chain_vote _ _ _ Hok)|].
  - apply set_manager_ok; [done|]. by eapply vote_timeout_ok; [apply (chain_vote _ _ _ Hok)|].
  - by eapply confirmed_ok.
  - apply (receives_ok _ _ _ _ _ _ _ Hr). apply bind_Ok in Hs1 as (? & _ & [= <- _]).
    injection Hs2 as <- _. destruct Hok as [Hlen Ht Hl [Hmo Hmc] Hvote]. by split.
  - by eapply acknowledge_ok.
Qed.

Lemma worker_step_ok w w' : worker_step depth w w' -> worker_ok w -> worker_ok w'.
Proof.
  intros [w1 Hq|id certs s Hs] Hok.
  - destruct Hok as [Hst Hca Hch]. pose proof (quiet_store _ _ Hq) as Hstep. split.
    + by apply Hstep.
    + by apply Hq.
    + rewrite (step_chains _ _ Hstep). intros id s Hl. specialize (Hch id s Hl).
      eapply chain_ok_mono; [|done]. intros. by apply Hstep.
  - pose proof (chain_step_ok _ _ _ _ _ Hs (load_chain_ok _ id Hok)) as Hc.
    destruct Hok as [[Hsv Hsc] Hca Hch]. split; simpl; [by split|done|].
    apply map_Forall_insert_2; [|intros i c Hl].
    + by apply (chain_ok_mono (ws_storage w)), saved_ok.
    + eapply chain_ok_mono; [|by apply Hch]. done.
Qed.

Lemma steps_ok w w' : steps depth w w' -> worker_ok w -> worker_ok w'.
Proof. induction 1; eauto using worker_step_ok. Qed.

(** ** Histories of a worker *)

Inductive WorkerInput :=
| InProposal (proposal : BlockProposal)
| InCertificate (certificate : Certificate) (blobs : list HashedValue) (notifier : option Z)
| InLiteCertificate (certificate : LiteCertificate) (notifier : option Z)
| InQuery (query : ChainInfoQuery)
| InRequest (request : CrossChainRequest).

(** What is received was deserialized: values have their own hashes. *)
Definition input_ok (input : WorkerInput) : Prop :=
  match input with
  | InProposal proposal =>
      Forall value_ok (prop_blobs proposal) /\
      forall cert, prop_validated proposal = Some cert -> value_ok (cert_value cert)
  | InCertificate certificate blobs _ => value_ok (cert_value certificate) /\ Forall value_ok blobs
  | InLiteCertificate _ _ | InQuery _ => True
  | InRequest request => request_ok request
  end.

(** The worker after a handler returns, with a result or an error. *)
Definition handle (input : WorkerInput) (w : WorkerState) : WorkerState :=
  match input with
  | InProposal proposal => (handle_block_proposal clock depth proposal w).2
  | InCertificate certificate blobs notifier =>
      (handle_certificate clock depth certificate blobs notifier w).2
  | InLiteCertificate certificate notifier =>
      (handle_lite_certificate clock depth certificate notifier w).2
  | InQuery query => (handle_chain_info_query clock query w).2
  | InRequest request => (handle_cross_chain_request clock request w).2
  end.

Lemma wp_snd {A} (m : worker A) (P : WorkerState -> Prop) w : wp m (fun _ => P) P w -> P (m w).2.
Proof. unfold wp. by destruct (m w) as [[] w']. Qed.

Lemma wp_weak {A} (m : worker A) w :
  wp m (fun _ => steps depth w) (quiet w) w -> wp m (fun _ => steps depth w) (steps depth w) w.
Proof. intros Hwp. eapply wp_mono; [done|done|]. apply quiet_steps. Qed.

Lemma handle_steps input w : worker_ok w -> input_ok input -> steps depth w (handle input w).
Proof.
  intros Hok Hin. destruct input as [proposal|cert blobs n|cert n|query|request]; simpl in *.
  - apply (wp_snd _ (steps depth w)), handle_proposal_steps; [apply Hin|apply Hin|].
    intros id. apply (load_chain_ok w id Hok).
  - apply (wp_snd _ (steps depth w)), wp_weak, handle_certificate_steps; apply Hin.
  - apply (wp_snd _ (steps depth w)), wp_weak, handle_lite_steps, (worker_cache w Hok).
  - apply (wp_snd _ (steps depth w)), handle_query_steps.
  - by apply (wp_snd _ (steps depth w)), handle_request_steps.
Qed.

(** C13: The handlers refine the steps.  Whatever a worker receives, and whether the
    handler succeeds, fails or panics, its state changes only by writes of values
    and certificates and by the seven steps that a chain can take. *)
Theorem handlers_refine_steps inputs w :
  worker_ok w -> Forall input_ok inputs ->
  steps depth w (foldl (fun w input => handle input w) w inputs).
Proof.
  intros Hok Hall. revert w Hok. induction Hall as [|input inputs Hin _ IH]; intros w Hok; simpl.
  { apply rtc_refl. }
  pose proof (handle_steps _ _ Hok Hin) as Hs. etrans; [done|]. by eapply IH, steps_ok.
Qed.

(** C3: The invariant of workers.  After any history of proposals, certificates,
    queries and cross-chain requests, with values that have their own hashes: the
    log of every chain is a hash chain of stored confirmed blocks of that chain at
    heights 0, 1, 2, ... that ends at the tip; outboxes and channels know only
    these blocks; stored and cached values have their own hashes. *)
Theorem worker_ok_preserved inputs w :
  worker_ok w -> Forall input_ok inputs ->
  worker_ok (foldl (fun w input => handle input w) w inputs).
Proof.
  intros Hok Hall. revert w Hok. induction Hall as [|input inputs Hin _ IH]; intros w Hok; [done|].
  apply IH. by eapply steps_ok, Hok; apply handle_steps.
Qed.

(** C30: A refused certificate is harmless.  When a certificate is not accepted, no
    chain has changed, nothing that was stored is lost, and the invariant holds. *)
Theorem refused_certificate_harmless cert blobs notifier w r w' :
  worker_ok w -> value_ok (cert_value cert) -> Forall value_ok blobs ->
  handle_certificate clock depth cert blobs notifier w = (r, w') -> is_ok r = false ->
  st_chains (ws_storage w') = st_chains (ws_storage w) /\
  st_users (ws_storage w') = st_users (ws_storage w) /\
  (forall hash value, stored (ws_storage w) hash value -> stored (ws_storage w') hash value) /\
  worker_ok w'.
Proof.
  intros Hok Hv Hb Hr Hf.
  pose proof (wp_run _ _ _ _ _ _ (handle_certificate_steps clock depth cert blobs notifier w Hv Hb) Hr)
    as Hq.
  assert (quiet w w') as [Hs _ _ _ _ _] by by destruct r.
  split_and!; [apply Hs|apply Hs|intros; by apply Hs; [apply Hok|]|].
  eapply worker_step_ok, Hok. apply worker_quiet. by destruct r.
Qed.

(** *** Cross-chain requests *)

(** The blocks at some heights of a chain. *)
Definition block_at (id : ChainId) (height : BlockHeight) (cert : Certificate) : Prop :=
  exists eb, hv_value (cert_value cert) = ConfirmedBlock eb /\
    block_chain_id (eb_block eb) = id /\ block_height (eb_block eb) = height.

Lemma read_log w id s heights :
  worker_ok w -> chain_ok (ws_storage w) id s ->
  Forall (fun h => 0 <= h < next_block_height (ch_tip s)) heights ->
  exists certs,
    read_certificates (omap (fun h => ch_confirmed_log s !! Z.to_nat h) heights) (ws_storage w) =
      Ok certs /\
    Forall2 (block_at id) heights certs.
Proof.
  intros Hw Hs. induction 1 as [|h heights Hh _ (certs & Hr & Hall)]; [by exists []|].
  destruct (lookup_lt_is_Some_2 (ch_confirmed_log s) (Z.to_nat h)) as [hash Hl].
  { pose proof (chain_length _ _ _ Hs). lia. }
  destruct (chain_log _ _ _ Hs _ _ Hl) as (eb & Hst & Hid & Hhe & _).
  destruct (read_stored _ _ _ (worker_store _ Hw) Hst) as (c & Hc & Hv).
  exists (c :: certs). csimpl. rewrite Hl. simpl. rewrite Hc. simpl. rewrite Hr. split; [done|].
  constructor; [|done]. exists eb. rewrite Hv. split_and!; [done..|lia].
Qed.

Lemma request_heights_elem height_map h :
  h ∈ request_heights height_map <-> exists medium heights, (medium, heights) ∈ height_map /\
    h ∈ heights.
Proof.
  unfold request_heights. rewrite merge_sort_Permutation, elem_of_elements, elem_of_list_to_set.
  rewrite list_elem_of_join. split.
  - intros (l & Hh & Hl). apply list_elem_of_fmap in Hl as ([medium heights] & -> & Hin). eauto.
  - intros (medium & heights & Hin & Hh). exists heights. split; [done|].
    apply list_elem_of_fmap. by exists (medium, heights).
Qed.

(** The queues of the outboxes, by recipient and medium. *)
Lemma heights_by_recipient_lookup outboxes r medium :
  NoDup outboxes.*1 ->
  let target := {| recipient := r; target_medium := medium |} in
  default ∅ (heights_by_recipient outboxes !! r) !! medium =
    outbox_queue <$> (list_to_map outboxes : gmap Target OutboxState) !! target.
Proof.
  intros Hn target. unfold heights_by_recipient.
  enough (forall m : gmap ChainId (gmap Medium (list BlockHeight)),
    default ∅ (foldl (fun m '(target, outbox) =>
      <[recipient target := <[target_medium target := outbox_queue outbox]>
         (default ∅ (m !! recipient target))]> m) m outboxes !! r) !! medium =
    match (list_to_map outboxes : gmap Target OutboxState) !! target with
    | Some outbox => Some (outbox_queue outbox)
    | None => default ∅ (m !! r) !! medium
    end) as Hgen.
  { rewrite Hgen. destruct (_ !! target); [done|]. by rewrite lookup_empty. }
  induction outboxes as [|[t o] outboxes IH]; intros m; [done|]. csimpl in *.
  apply NoDup_cons in Hn as [Hnin Hn]. rewrite (IH Hn).
  destruct (decide (t = target)) as [->|Hne].
  - rewrite not_elem_of_list_to_map_1, lookup_insert_eq by done. simpl.
    rewrite lookup_insert_eq. simpl. by rewrite lookup_insert_eq.
  - rewrite (lookup_insert_ne (list_to_map outboxes)) by done.
    destruct (list_to_map outboxes !! target); [done|].
    destruct (decide (recipient t = r)) as [<-|Hr]; [|by rewrite lookup_insert_ne].
    rewrite lookup_insert_eq. simpl. rewrite lookup_insert_ne; [done|].
    intros <-. destruct Hne. by destruct t.
Qed.

Section requests.
Context (w : WorkerState) (id : ChainId) (s : ChainState).
Context (w_ok : worker_ok w) (s_ok : chain_ok (ws_storage w) id s).

(** A request has the queue of each medium, and the blocks at these heights. *)
Definition request_for (r : ChainId) (request : CrossChainRequest) : Prop :=
  exists height_map certs, request = UpdateRecipient height_map id r certs /\
    Forall2 (block_at id) (request_heights height_map) certs /\
    forall medium heights, (medium, heights) ∈ height_map <->
      exists outbox, ch_outboxes s !! {| recipient := r; target_medium := medium |} = Some outbox /\
        heights = outbox_queue outbox.

Notation by_recipient :=
  (heights_by_recipient (sort_by (fun p => bcs_target p.1) (map_to_list (ch_outboxes s)))).

Lemma by_recipient_default r medium :
  default ∅ (by_recipient !! r) !! medium =
    outbox_queue <$> ch_outboxes s !! {| recipient := r; target_medium := medium |}.
Proof.
  clear clock depth.
  assert (NoDup (sort_by (fun p => bcs_target p.1) (map_to_list (ch_outboxes s))).*1) as Hn.
  { rewrite sort_by_perm. apply NoDup_fst_map_to_list. }
  rewrite (heights_by_recipient_lookup _ r medium Hn). f_equal.
  rewrite <- (list_to_map_to_list (ch_outboxes s)) at 2. f_equal.
  apply list_to_map_proper; [done|apply sort_by_perm].
Qed.

Lemma by_recipient_lookup r height_map medium heights :
  by_recipient !! r = Some height_map ->
  (medium, heights) ∈ sort_by (fun p => medium_key p.1) (map_to_list height_map) <->
  exists outbox, ch_outboxes s !! {| recipient := r; target_medium := medium |} = Some outbox /\
    heights = outbox_queue outbox.
Proof.
  clear clock depth.
  intros Hr. rewrite sort_by_perm, elem_of_map_to_list.
  pose proof (by_recipient_default r medium) as Hl. rewrite Hr in Hl. simpl in Hl. rewrite Hl.
  destruct (ch_outboxes s !! _) as [o|]; simpl; naive_solver.
Qed.

Lemma create_request r height_map :
  by_recipient !! r = Some height_map ->
  exists request, create_cross_chain_request (ch_confirmed_log s)
      (sort_by (fun p => medium_key p.1) (map_to_list height_map)) id r w = (Ok request, w) /\
    request_for r request.
Proof.
  clear clock depth.
  intros Hr. set (hm := sort_by _ (map_to_list height_map)).
  destruct (read_log w id s (request_heights hm) w_ok s_ok) as (certs & Hread & Hall).
  { apply Forall_forall. intros h (medium & heights & Hin & Hh)%request_heights_elem.
    apply (by_recipient_lookup r height_map medium heights Hr) in Hin as (o & Ho & ->).
    destruct (mail_outboxes _ _ (chain_mail _ _ _ s_ok)
      {| recipient := r; target_medium := medium |}) as [(_ & Hlt & _) Hle].
    unfold outbox_of, entry in *. rewrite Ho in *. simpl in *.
    rewrite Forall_forall in Hlt. specialize (Hlt _ Hh). unfold Datatypes.id in *. simpl in *. lia. }
  exists (UpdateRecipient hm id r certs). split.
  - unfold create_cross_chain_request, w_view, w_lift, mbind, worker_bind. simpl.
    unfold hm in *. rewrite Hread. done.
  - exists hm, certs. split_and!; [done..|]. intros medium heights. by apply by_recipient_lookup.
Qed.

Lemma create_requests l acc :
  (forall r height_map, (r, height_map) ∈ l -> by_recipient !! r = Some height_map) ->
  exists requests, w_for_each (fun '(recipient, height_map) requests =>
      request ← create_cross_chain_request (ch_confirmed_log s)
        (sort_by (fun p => medium_key p.1) (map_to_list height_map)) id recipient;
      mret (requests ++ [request])) l acc w = (Ok (acc ++ requests), w) /\
    Forall2 request_for l.*1 requests.
Proof.
  clear clock depth.
  revert acc. induction l as [|[r hm] l IH]; intros acc Hl.
  { exists []. by rewrite app_nil_r. }
  destruct (create_request r hm) as (request & Hc & Hreq); [apply Hl; left|].
  destruct (IH (acc ++ [request])) as (requests & Hrun & Hall); [intros; apply Hl; by right|].
  exists (request :: requests). split; [|by constructor]. cbn [w_for_each].
  rewrite (run_bind _ _ w (acc ++ [request]) w), Hrun; [by rewrite <- (assoc_L (++))|].
  by rewrite (run_bind _ _ w request w).
Qed.

Lemma network_actions_ok :
  exists requests, create_network_actions id s w =
      (Ok {| cross_chain_requests := requests; notifications := [] |}, w) /\
    Forall2 request_for (btree_iter by_recipient).*1 requests.
Proof.
  clear clock depth.
  destruct (create_requests (btree_iter by_recipient) []) as (requests & Hrun & Hall).
  { intros r hm Hin. by apply elem_of_btree_iter in Hin. }
  exists requests. split; [|done]. unfold create_network_actions.
  by rewrite (run_bind _ _ w requests w).
Qed.

End requests.

(** C24: Cross-chain requests are complete.  The requests for a saved chain can
    always be created: there is one per recipient, with the queues of the outboxes
    of all its media and exactly the stored confirmed blocks at these heights, in
    order; and every height that waits in an outbox is in one of them. *)
Theorem network_actions_complete w id :
  worker_ok w ->
  let s := load_chain id (ws_storage w) in
  exists requests, create_network_actions id s w =
      (Ok {| cross_chain_requests := requests; notifications := [] |}, w) /\
    (forall request, request ∈ requests -> exists r, request_for id s r request) /\
    (forall target h, queued s target h -> exists height_map certs,
       UpdateRecipient height_map id (recipient target) certs ∈ requests /\
       h ∈ request_heights height_map).
Proof.
  clear clock depth.
  intros Hw s. destruct (network_actions_ok w id s Hw (load_chain_ok _ _ Hw)) as (requests & Hrun &
    Hall).
  exists requests. split_and!; [done| |].
  - intros request (i & Hi)%list_elem_of_lookup.
    destruct (Forall2_lookup_r _ _ _ _ _ Hall Hi) as (r & _ & Hr). by exists r.
  - intros target h Hq. unfold queued, outbox_of, entry in Hq.
    destruct (ch_outboxes s !! target) as [o|] eqn:Ho; [|by apply elem_of_nil in Hq].
    simpl in Hq. pose proof (by_recipient_default s (recipient target) (target_medium target)) as Hd.
    revert Hall Hd. set (by_recipient := heights_by_recipient _). intros Hall Hd.
    destruct (by_recipient !! recipient target) as [hm|] eqn:Hr.
    + assert (recipient target ∈ (btree_iter by_recipient).*1) as Hin.
      { apply list_elem_of_fmap. exists (recipient target, hm). split; [done|].
        by apply elem_of_btree_iter. }
      apply list_elem_of_lookup in Hin as (i & Hi).
      destruct (Forall2_lookup_l _ _ _ _ _ Hall Hi) as (request & Hreq & Hf).
      destruct Hf as (hm' & certs & -> & _ & Hm). exists hm', certs.
      split; [by eapply list_elem_of_lookup_2|].
      apply request_heights_elem. exists (target_medium target), (outbox_queue o). split; [|done].
      apply Hm. exists o. by destruct target.
    + simpl in Hd. rewrite lookup_empty in Hd. destruct target. simpl in *.
      by rewrite Ho in Hd.
Qed.

(** The history of a chain is read back.  From the hash of a block of the chain,
    the store reads the values of the block and of those before it, down to
    the first block or to the limit. *)
Theorem history_readable w id i hash limit :
  worker_ok w ->
  let log := ch_confirmed_log (load_chain id (ws_storage w)) in
  log !! i = Some hash ->
  exists values, read_values_downward (Some hash) limit (ws_storage w) = Ok values /\
    hv_hash <$> values = take limit (reverse (take (S i) log)).
Proof.
  clear clock depth. intros Hw log. revert hash limit.
  pose proof (chain_log _ _ _ (load_chain_ok w id Hw)) as Hlog. fold log in Hlog.
  induction i as [|i IH]; intros hash [|limit] Hi; try (by exists []);
    destruct (Hlog _ _ Hi) as (eb & [Hv _] & _ & _ & Hprev); cbn [read_values_downward];
    unfold read_value; rewrite Hv; simpl; rewrite Hprev.
  - exists [with_hash_unchecked (ConfirmedBlock eb) hash]. split; [by destruct limit|].
    rewrite (take_S_r log 0 hash Hi), reverse_snoc. by destruct limit.
  - destruct (log !! i) as [previous|] eqn:Hp.
    + destruct (IH previous limit eq_refl) as (values & Hr & Hh). rewrite Hr. simpl.
      eexists. split; [reflexivity|].
      rewrite (take_S_r log (S i) hash Hi), reverse_snoc. csimpl. by rewrite Hh.
    + apply lookup_ge_None in Hp. apply lookup_lt_Some in Hi. lia.
Qed.

(** *** Confirmed blocks *)

Lemma advance_tip_height hash s s' :
  advance_tip hash s = Ok s' ->
  next_block_height (ch_tip s') = next_block_height (ch_tip s) + 1.
Proof.
  unfold advance_tip. intros (next & Hn & [= <-])%bind_Ok.
  by apply map_err_Ok, try_add_assign_one_Ok in Hn as [-> _].
Qed.

Lemma load_saved id s st : load_chain id (save_chain id s st) = saved s.
Proof. unfold load_chain, save_chain. simpl. by rewrite lookup_insert_eq. Qed.

Lemma quiet_after {A} (k : worker A) w id (P : ChainState -> Prop) :
  is_quiet k -> P (load_chain id (ws_storage w)) ->
  wp k (fun _ w' => P (load_chain id (ws_storage w'))) (fun _ => True) w.
Proof. intros Hk HP. apply wp_quiet; [done| |done]. intros a w1 Hq. by rewrite (quiet_chain w). Qed.

(** After a confirmed block is accepted, the chain is above its height. *)
Lemma process_confirmed_height cert eb blobs notifier w :
  value_ok (cert_value cert) -> Forall value_ok blobs ->
  hv_value (cert_value cert) = ConfirmedBlock eb ->
  wp (process_confirmed_block clock depth cert blobs notifier)
    (fun _ w' => block_height (eb_block eb) <
       next_block_height (ch_tip (load_chain (block_chain_id (eb_block eb)) (ws_storage w'))))
    (fun _ => True) w.
Proof.
  intros Hv Hb Hval. unfold process_confirmed_block. rewrite Hval.
  set (id := block_chain_id (eb_block eb)).
  apply wp_bind, wp_load_active; [intros Ha|done]. apply wp_bind, wp_ensure; [intros Hle|done].
  destruct (Z.ltb_spec (block_height (eb_block eb))
    (next_block_height (ch_tip (load_chain id (ws_storage w))))) as [Hlt|Hge].
  { apply (quiet_after _ _ id (fun s => block_height (eb_block eb) < next_block_height (ch_tip s)));
      [|done].
    apply quiet_bind; [done|]. intros info.
    apply quiet_bind; [apply quiet_pure, create_network_actions_pure|]. intros actions.
    apply quiet_bind; [apply register_quiet|done]. }
  apply Z.leb_le in Hle. apply wp_bind, wp_current; [done|intros _|done].
  apply wp_bind, wp_ensure; [intros _|done].
  apply wp_bind, wp_pure; [apply check_no_missing_bytecode_pure|intros _ _|done].
  apply wp_bind, wp_quiet; [by apply cache_recent_values_quiet|intros _ w1 _|done].
  apply wp_bind, wp_modify. apply wp_bind, wp_chain; [intros s1 Hs1|done].
  apply wp_bind, wp_time. intros now w3 _ _.
  apply wp_bind, wp_pure; [apply execute_pure|intros [s2 outcome] Hs2|done].
  do 3 (apply wp_bind, wp_ensure; [intros _|done]).
  apply wp_bind, wp_lift; [intros s3 Hs3|done].
  apply wp_bind, wp_pure; [done|intros info _|done].
  apply wp_bind, wp_pure; [apply create_network_actions_pure|intros actions _|done].
  apply wp_bind, wp_modify.
  apply (quiet_after _ _ id (fun s => block_height (eb_block eb) < next_block_height (ch_tip s))).
  - apply quiet_bind; [apply register_quiet|]. intros _.
    apply quiet_bind; [by apply cache_recent_value_quiet|done].
  - simpl. rewrite load_saved. simpl. rewrite (advance_tip_height _ _ _ Hs3).
    unfold w_execute_block, w_chain in Hs2. simpl in Hs2. injection Hs2 as Hs2.
    apply map_err_Ok, execute_block_mail in Hs2 as (_ & -> & _).
    apply remove_events_same in Hs1. rewrite Hs1. simpl. lia.
Qed.

Lemma register_run id height actions notifier w :
  exists w', register_delivery_notifier id height actions notifier w = (Ok (), w') /\
    ws_storage w' = ws_storage w.
Proof.
  unfold register_delivery_notifier. destruct notifier; [|by eexists].
  destruct (existsb _ _); by eexists.
Qed.

(** A block below the tip is answered without changing the store. *)
Lemma confirmed_below_tip cert eb blobs notifier w :
  worker_ok w -> hv_value (cert_value cert) = ConfirmedBlock eb ->
  let id := block_chain_id (eb_block eb) in
  let s := load_chain id (ws_storage w) in
  chain_is_active s = true -> block_height (eb_block eb) < next_block_height (ch_tip s) ->
  exists answer w', handle_certificate clock depth cert blobs notifier w = (Ok answer, w') /\
    ws_storage w' = ws_storage w.
Proof.
  intros Hok Hval id s Ha Hlt. unfold handle_certificate. rewrite Hval. simpl.
  rewrite (run_bind _ _ w () w) by done. unfold process_confirmed_block. rewrite Hval. fold id.
  rewrite (run_bind _ _ w s w).
  2:{ unfold w_load_active_chain, load_active_chain, ensure_is_active. fold s.
      rewrite (run_bind _ _ w (ws_storage w) w) by done. fold s. by rewrite Ha. }
  rewrite (run_bind _ _ w () w).
  2:{ unfold w_ensure. by rewrite (proj2 (Z.leb_le _ _)) by lia. }
  rewrite (proj2 (Z.ltb_lt _ _)) by done.
  destruct (network_actions_ok w id s Hok (load_chain_ok _ _ Hok)) as (requests & Hrun & _).
  erewrite (run_bind (info_response _)) by done. rewrite (run_bind _ _ _ _ _ Hrun).
  destruct (register_run id (block_height (eb_block eb))
    {| cross_chain_requests := requests; notifications := [] |} notifier w) as (w2 & Hr & Hst).
  rewrite (run_bind _ _ _ _ _ Hr). eexists _, w2. split; [reflexivity|done].
Qed.

(** Confirmed blocks can be sent again.  After the certificate of a confirmed
    block was accepted, and as long as its chain is active, it is accepted again
    and the second time changes nothing in the store. *)
Theorem confirmed_idempotent cert eb blobs blobs' notifier notifier' w answer w' :
  worker_ok w -> value_ok (cert_value cert) -> Forall value_ok blobs ->
  hv_value (cert_value cert) = ConfirmedBlock eb ->
  handle_certificate clock depth cert blobs notifier w = (Ok answer, w') ->
  chain_is_active (load_chain (block_chain_id (eb_block eb)) (ws_storage w')) = true ->
  exists answer' w'', handle_certificate clock depth cert blobs' notifier' w' = (Ok answer', w'') /\
    ws_storage w'' = ws_storage w'.
Proof.
  intros Hok Hv Hb Hval Hrun Ha. apply (confirmed_below_tip cert eb); [|done|done|].
  - pose proof (wp_run _ _ _ _ _ _ (handle_certificate_steps clock depth cert blobs notifier w Hv Hb)
      Hrun) as Hs. exact (steps_ok _ _ Hs Hok).
  - unfold handle_certificate in Hrun. rewrite Hval in Hrun.
    rewrite (run_bind _ _ w () w) in Hrun by done.
    apply (wp_run _ _ _ _ _ _ (process_confirmed_height cert eb blobs notifier w Hv Hb Hval) Hrun).
Qed.

(** *** The managers *)

Lemma receives_active st id origin certs s s' :
  receives st id origin certs s s' -> chain_is_active s = true ->
  ch_tip s' = ch_tip s /\ ch_manager s' = ch_manager s.
Proof.
  induction 1 as [|cert eb now certs s s1 s2 _ Hr _ IH]; [done|]. intros Ha.
  apply receive_block_inv in Hr as (_ & _ & _ & _ & _ & _ & _ & _ & Ht & _ & Hact & _).
  destruct (Hact Ha) as (He & _ & Hm). destruct IH as [-> ->]; [|done].
  unfold chain_is_active in *. by rewrite He.
Qed.

Lemma acknowledge_same recipient latest_heights s s' :
  for_each (acknowledge recipient) latest_heights s = Ok s' ->
  ch_tip s' = ch_tip s /\ ch_manager s' = ch_manager s.
Proof.
  intros Hl.
  refine (for_each_invariant (fun s1 => ch_tip s1 = ch_tip s /\ ch_manager s1 = ch_manager s)
    _ _ _ _ _ _ Hl); [|done].
  intros [medium height] s1 s2 _ [<- <-]. unfold acknowledge.
  intros ([changed s3] & Hm & [= <-])%bind_Ok.
  by destruct (mark_mail _ _ _ _ _ 0 Hm) as (_ & -> & _ & ->).
Qed.

(** C2: The managers follow the consensus protocol.  In a step of an active chain at
    a validator, either the height stays the same and the manager is unchanged
    or takes one of the steps of an honest validator in the protocol of
    [Consensus], on certificates that cannot be forged; or a confirmed block was
    executed and the manager is reset for the next height, with the ownership
    that the block left. *)
Theorem managers_follow_protocol committee faulty keys world v w id s certs s' :
  chain_step depth w id s certs s' -> chain_is_active s = true ->
  ws_key_pair w = Some (keys v) ->
  (exists epoch, current_committee (es_system (ch_execution s)) = Some (epoch, committee)) ->
  Forall (fun cert => value_ok (cert_value cert) ->
    certificate_check cert committee = Ok (cert_value cert) ->
    certified committee faulty world cert) certs ->
  ch_tip s' = ch_tip s /\
    (ch_manager s' = ch_manager s \/
     handled committee faulty keys world v (ch_manager s) (ch_manager s')) \/
  next_block_height (ch_tip s') = next_block_height (ch_tip s) + 1 /\
    exists now, manager_reset (sys_ownership (es_system (ch_execution s')))
      (next_block_height (ch_tip s')) now = Ok (ch_manager s').
Proof.
  intros Hstep Ha Hkey [epoch Hc] Hcert.
  assert (forall e cert, checked s e cert -> cert ∈ certs -> certified committee faulty world cert)
    as Hcertified.
  { intros e cert (Hv & committee' & Hc' & Hcheck) Hin. rewrite Hc in Hc'. simplify_eq.
    rewrite Forall_forall in Hcert. by apply Hcert. }
  destruct Hstep as [proposal outcome now manager block _ _ Hval _ Hcheck Hv
         |cert eb now manager block Heb _ _ Hch _ Hcheck Hv
         |cert e now manager _ _ _ Hv
         |e now manager _ Hv
         |cert eb now s1 s2 s3 outcome block _ Hid _ _ Hh Hp Hs1 Hs2 _ Hs3 _
         |origin sent selected next anticipated s1 s2 s3 Hs1 Hs2 _ Hr _
         |recipient latest s1 Hack].
  - left. split; [done|]. right. rewrite Hkey in Hv. eapply handled_proposal; [|done|exact Hv].
    intros cert Hp. apply (Hcertified _ _ (Hval _ Hp)). rewrite Hp. by left.
  - left. split; [done|]. right. rewrite Hkey in Hv.
    eapply handled_validated; [|by rewrite Heb|done|exact Hv]. eapply Hcertified; [done|by left].
  - left. split; [done|]. right. by eapply handled_timeout_certificate.
  - left. split; [done|]. right. rewrite Hkey in Hv. by eapply handled_timeout_query.
  - right. pose proof (advance_tip_height _ _ _ Hs3) as Hn. apply remove_events_same in Hs1.
    pose proof (execute_block_manager _ _ _ _ _ _ _ Hs2) as Hm.
    apply execute_block_mail in Hs2 as (_ & Ht & _). rewrite Hs1 in Ht. simpl in Ht.
    rewrite Ht in Hn. split; [done|]. exists now. rewrite Hn, <- Hh.
    unfold advance_tip in Hs3. by apply bind_Ok in Hs3 as (next & _ & [= <-]).
  - left. apply bind_Ok in Hs1 as (? & _ & [= <- _]). injection Hs2 as <- _.
    destruct (receives_active _ _ _ _ _ _ Hr Ha) as [-> ->]. split; [done|]. by left.
  - left. destruct (acknowledge_same _ _ _ _ Hack) as [-> ->]. split; [done|]. by left.
Qed.

(** *** New chains *)

Lemma create_chain_ok committee admin_id description key balance timestamp now st st' :
  create_chain committee admin_id description key balance timestamp now st = Ok st' ->
  store_ok st -> map_Forall (chain_ok st) (st_chains st) ->
  store_ok st' /\ map_Forall (chain_ok st') (st_chains st').
Proof.
  unfold create_chain. set (id := chain_id_from description). intros ([] & _ & Hc)%bind_Ok [Hv Hce] Hch.
  apply bind_Ok in Hc as (manager & Hm & [= <-]). split; [by split|]. simpl.
  assert (chain_ok st id (load_chain id st)) as Hok.
  { unfold load_chain. destruct (st_chains st !! id) eqn:Hl; [by apply Hch|apply chain_default_ok]. }
  apply map_Forall_insert_2.
  - apply saved_ok, (chain_ok_mono st); [done|]. destruct Hok as [Hlen Htip Hlog [Ho Hcn] Hvote].
    split; try done. by eapply reset_ok.
  - intros i c Hl. apply (chain_ok_mono st); [done|]. by apply Hch.
Qed.

End safety.

(** ** Examples *)

Module SafetyExamples.
Import SymbolicCrypto SymbolicBcs ListCache CommitteeExamples BlockExamples TwoChains.

Lemma created_ok committee admin description key balance timestamp now s :
  store_ok s -> map_Forall (chain_ok s) (st_chains s) ->
  let s' := store_or s (create_chain committee admin description key balance timestamp now s) in
  store_ok s' /\ map_Forall (chain_ok s') (st_chains s').
Proof.
  intros Hs Hc. cbv zeta. unfold store_or.
  destruct (create_chain _ _ _ _ _ _ _ s) as [s'|e|] eqn:Hcreate; [|by split..].
  exact (create_chain_ok _ _ _ _ _ _ _ _ _ Hcreate Hs Hc).
Qed.

Lemma start_ok : worker_ok start.
Proof.
  assert (store_ok no_chains) as Hs by by split.
  assert (map_Forall (chain_ok no_chains) (st_chains no_chains)) as Hc by apply map_Forall_empty.
  destruct (created_ok members chain_a (Root 0) 11 10 0 0 _ Hs Hc) as [Hs1 Hc1].
  destruct (created_ok members chain_a (Root 1) 12 0 0 0 _ Hs1 Hc1) as [Hs2 Hc2].
  split; [exact Hs2|apply map_Forall_empty|exact Hc2].
Qed.

Lemma after0_ok : worker_ok after0.
Proof.
  assert (input_ok (InCertificate cert0 [] (Some 500))) as Hin.
  { split; [vm_compute; reflexivity|constructor]. }
  pose proof (steps_ok depth start _
    (handle_steps clock depth (InCertificate cert0 [] (Some 500)) start start_ok Hin) start_ok) as Hok.
  unfold handle in Hok. unfold after0. exact Hok.
Qed.

Definition inputs : list WorkerInput :=
  [InProposal (propose block0); InCertificate cert0 [] (Some 500); InQuery (query_new chain_a)] ++
  (InRequest <$> requests0).

Lemma requests0_ok : Forall request_ok requests0.
Proof. decide_now. Qed.

Lemma inputs_ok : Forall input_ok inputs.
Proof.
  apply Forall_cons_2; [|apply Forall_cons_2; [|apply Forall_cons_2]].
  - split; [constructor|]. intros cert [=].
  - split; [decide_now|constructor].
  - done.
  - apply Forall_fmap, requests0_ok.
Qed.

Definition final : WorkerState :=
  foldl (fun w input => handle clock depth input w) start inputs.

(** The history executes a block on the first chain, and delivers its message. *)
Lemma handlers_refine_steps_witness :
  steps depth start final /\
  length (ch_confirmed_log (load_chain chain_a (ws_storage final))) = 1%nat.
Proof.
  split; [|by vm_compute]. unfold final.
  exact (handlers_refine_steps clock depth inputs start start_ok inputs_ok).
Defined.

Lemma worker_ok_preserved_witness :
  worker_ok final /\
  length (added_events (inbox_of (load_chain chain_b (ws_storage final)) (origin_chain chain_a))) =
    1%nat.
Proof.
  split; [|by vm_compute]. unfold final.
  exact (worker_ok_preserved clock depth inputs start start_ok inputs_ok).
Defined.

(** The block at height 1 comes too early. *)
Lemma refused_certificate_harmless_witness :
  let '(r, w') := handle_certificate clock depth cert1 [] None start in
  r = Err (WorkerMissingEarlierBlocks 0) /\
  st_chains (ws_storage w') = st_chains (ws_storage start).
Proof.
  destruct (handle_certificate clock depth cert1 [] None start) as [r w'] eqn:Hrun.
  assert (r = Err (WorkerMissingEarlierBlocks 0)) as Hr.
  { transitivity (handle_certificate clock depth cert1 [] None start).1; [rewrite Hrun; reflexivity|].
    vm_compute; reflexivity. }
  split; [exact Hr|].
  apply (refused_certificate_harmless clock depth cert1 [] None start r w').
  - exact start_ok.
  - vm_compute; reflexivity.
  - constructor.
  - exact Hrun.
  - rewrite Hr. reflexivity.
Defined.

Lemma network_actions_complete_witness :
  exists requests, create_network_actions chain_a (load_chain chain_a (ws_storage after0)) after0 =
    (Ok {| cross_chain_requests := requests; notifications := [] |}, after0) /\
  exists height_map certs, UpdateRecipient height_map chain_a chain_b certs ∈ requests /\
    0 ∈ request_heights height_map.
Proof.
  destruct (network_actions_complete after0 chain_a after0_ok) as (requests & Hrun & _ & Hq).
  exists requests. split; [exact Hrun|]. apply (Hq (target_chain chain_b) 0). decide_now.
Defined.

Lemma history_readable_witness :
  exists values, read_values_downward (Some (hv_hash (cert_value cert0))) 5 (ws_storage after0) =
    Ok values /\ hv_hash <$> values = [hv_hash (cert_value cert0)].
Proof.
  assert (ch_confirmed_log (load_chain chain_a (ws_storage after0)) = [hv_hash (cert_value cert0)])
    as Hlog by decide_now.
  assert (ch_confirmed_log (load_chain chain_a (ws_storage after0)) !! 0%nat =
    Some (hv_hash (cert_value cert0))) as Hi by (rewrite Hlog; reflexivity).
  destruct (history_readable after0 chain_a 0 (hv_hash (cert_value cert0)) 5 after0_ok Hi)
    as (values & Hr & Hh).
  exists values. rewrite Hlog in Hh. split; [exact Hr|exact Hh].
Defined.

Definition executed0 : ExecutedBlock :=
  match hv_value (cert_value cert0) with
  | ConfirmedBlock eb => eb
  | _ => outcome_with {| outcome_messages := []; outcome_message_counts := [];
                         outcome_state_hash := 0 |} block0
  end.

Lemma confirmed_idempotent_witness :
  exists answer w', handle_certificate clock depth cert0 [] None after0 = (Ok answer, w') /\
    ws_storage w' = ws_storage after0.
Proof.
  destruct (handle_certificate clock depth cert0 [] (Some 500) start) as [[answer|e|] w'] eqn:Hrun.
  - assert (w' = after0) as Hw by (unfold after0; rewrite Hrun; reflexivity).
    rewrite Hw in Hrun. clear Hw.
    apply (confirmed_idempotent clock depth cert0 executed0 [] [] (Some 500) None start answer after0).
    + exact start_ok.
    + vm_compute; reflexivity.
    + constructor.
    + vm_compute; reflexivity.
    + exact Hrun.
    + vm_compute; reflexivity.
  - exfalso. apply (f_equal (fun p => is_ok p.1)) in Hrun. vm_compute in Hrun. discriminate Hrun.
  - exfalso. apply (f_equal (fun p => is_ok p.1)) in Hrun. vm_compute in Hrun. discriminate Hrun.
Defined.

(** The validator votes for the owner's proposal of the first block. *)
Definition first_chain : ChainState := load_chain chain_a genesis.
Definition first_outcome : BlockExecutionOutcome :=
  {| outcome_messages := eb_messages executed0;
     outcome_message_counts := eb_message_counts executed0;
     outcome_state_hash := eb_state_hash executed0 |}.
Definition voted : ChainState :=
  match manager_create_vote (propose block0) first_outcome (Some 1) 0 (ch_manager first_chain) with
  | Ok manager => set_manager manager first_chain
  | _ => first_chain
  end.
Definition quiet_world : World :=
  {| managers _ := ch_manager first_chain; cast _ := [] |}.

Lemma managers_follow_protocol_witness :
  manager_pending (ch_manager first_chain) = None /\
  is_Some (manager_pending (ch_manager voted)) /\
  (ch_tip voted = ch_tip first_chain /\
     (ch_manager voted = ch_manager first_chain \/
      handled members [] (fun v => v) quiet_world 1 (ch_manager first_chain) (ch_manager voted)) \/
   next_block_height (ch_tip voted) = next_block_height (ch_tip first_chain) + 1 /\
     exists now, manager_reset (sys_ownership (es_system (ch_execution voted)))
       (next_block_height (ch_tip voted)) now = Ok (ch_manager voted)).
Proof.
  split; [vm_compute; reflexivity|]. split; [vm_compute; eexists; reflexivity|].
  apply (managers_follow_protocol depth members [] (fun v => v) quiet_world 1 start chain_a
           first_chain [] voted).
  - unfold voted.
    destruct (manager_create_vote (propose block0) first_outcome (Some 1) 0
                (ch_manager first_chain)) as [manager|e|] eqn:Hvote.
    + apply (step_proposal depth start chain_a first_chain (propose block0) first_outcome 0 manager).
      * vm_compute; reflexivity.
      * vm_compute; reflexivity.
      * intros cert Hcert. vm_compute in Hcert. discriminate Hcert.
      * vm_compute; reflexivity.
      * vm_compute; reflexivity.
      * exact Hvote.
    + exfalso. apply (f_equal is_ok) in Hvote. vm_compute in Hvote. discriminate Hvote.
    + exfalso. apply (f_equal is_ok) in Hvote. vm_compute in Hvote. discriminate Hvote.
  - vm_compute; reflexivity.
  - vm_compute; reflexivity.
  - exists 0. vm_compute; reflexivity.
  - constructor.
Defined.

End SafetyExamples.
