(* ===== verification/Delivery.v ===== *)
(** * Delivery of messages between chains

    How messages travel from the outboxes of a sender to the inboxes of its
    recipients and back, in the workers of a validator: [UpdateRecipient] requests,
    [ConfirmUpdatedRecipient] requests and the callers that wait for delivery. *)

From S2P Require Import Prelude Numbers Types Crypto Committees Policy Bcs Inbox Outbox Errors.
From S2P Require Import Certificates Managers Consensus Registry System Batches KeyValueStore.
From S2P Require Import Runtime Execution ChainState Blocks Storage Worker WorkerExamples.
From S2P Require Import WorkerSteps WorkerSafety.

Section delivery.
Context {C : Crypto} {CL : CryptoLaws C} {B : Bcs} {LS : LeaderSampling} {SE : StorageEnv}.
Context {VC : ValueCache} {VCL : ValueCacheLaws VC} {IS : InfoSigning}.
Context (clock : nat -> Timestamp).

(** ** Updates of a recipient *)

(** The events of a certificate for a chain and an origin. *)
Definition certificate_events (id : ChainId) (origin : Origin) (cert : Certificate) : list Event :=
  match hv_value (cert_value cert) with
  | ConfirmedBlock eb =>
      block_events id origin (block_height (eb_block eb)) (block_timestamp (eb_block eb))
        (hv_hash (cert_value cert)) (eb_messages eb)
  | _ => []
  end.

(** The inbox is past a height: it does not accept blocks up to this height. *)
Definition received_up_to (height : BlockHeight) (inbox : InboxState) : Prop :=
  let cursor := next_cursor_to_add inbox in
  height < cursor_height cursor \/ cursor_height cursor = height /\ 0 < cursor_index cursor.

Lemma receives_inboxes st id origin certs s s' :
  receives st id origin certs s s' ->
  for_each add_event (certs ≫= certificate_events id origin) (inbox_of s origin) =
    Ok (inbox_of s' origin) /\
  (forall other, other <> origin -> inbox_of s' other = inbox_of s other) /\
  ch_received_log s' = ch_received_log s ++
    ((fun cert => {| cah_chain_id := sender origin; cah_height := cert_height cert |}) <$> certs) /\
  ch_outboxes s' = ch_outboxes s /\ ch_outbox_counters s' = ch_outbox_counters s /\
  ch_tip s' = ch_tip s /\ ch_confirmed_log s' = ch_confirmed_log s /\
  (forall h, received_up_to h (inbox_of s origin) -> received_up_to h (inbox_of s' origin)) /\
  (forall cert, last certs = Some cert -> received_up_to (cert_height cert) (inbox_of s' origin)).
Proof.
  induction 1 as [s|cert eb now certs s s1 s2 Hv Hr _ IH]; csimpl.
  { split_and!; try done. by rewrite app_nil_r. }
  destruct IH as (IHa & IHo & IHr & IHb & IHc & IHt & IHl & IHm & IHlast).
  apply receive_block_inv in Hr
    as ((next & Hnext & Hle) & Hne & Hadd & Hother & Hlog & Ho & Hc & _ & Ht & Hcl & _).
  destruct (add_events_cursor (block_height (eb_block eb)) _ _ _ (block_events_at _ _ _ _ _ _) Hne
    Hadd) as [Hh Hi].
  assert (cert_height cert = block_height (eb_block eb)) as Hch by (unfold cert_height; by rewrite Hv).
  assert (forall h, received_up_to h (inbox_of s origin) -> received_up_to h (inbox_of s1 origin))
    as Hmono.
  { intros h Hup. unfold next_block_height_to_receive in Hnext. unfold received_up_to in *.
    rewrite Hh. destruct (Z.eqb_spec (cursor_index (next_cursor_to_add (inbox_of s origin))) 0).
    - injection Hnext as <-. lia.
    - apply try_add_one_Ok in Hnext as [-> _]. lia. }
  split_and!.
  - unfold certificate_events at 1. rewrite Hv, for_each_app, Hadd. exact IHa.
  - intros other Hne'. by rewrite IHo, Hother.
  - rewrite IHr, Hlog, <- (assoc_L (++)), Hch. done.
  - congruence.
  - congruence.
  - congruence.
  - congruence.
  - auto.
  - intros c Hlast. rewrite last_cons in Hlast.
    destruct (last certs) as [c'|]; [by apply IHlast|]. injection Hlast as <-.
    apply IHm. unfold received_up_to. rewrite Hch, Hh. auto.
Qed.

(** What an update of a recipient through an origin does. *)
Definition update_effect (origin : Origin) (id : ChainId) (sent : list Certificate)
    (w : WorkerState) (result : option BlockHeight) (w' : WorkerState) : Prop :=
  let s := load_chain id (ws_storage w) in
  match result with
  | None => st_chains (ws_storage w') = st_chains (ws_storage w)
  | Some height =>
      exists next anticipated certs s',
        next_block_height_to_receive (inbox_of s origin) = Ok next /\
        anticipated = ev_height <$> last (removed_events (inbox_of s origin)) /\
        certs = filter (selected (ws_allow_messages_from_deprecated_epochs w)
          (sys_epoch (es_system (ch_execution s))) (sys_committees (es_system (ch_execution s)))
          next anticipated sent) sent /\
        cert_height <$> last certs = Some height /\
        st_chains (ws_storage w') = <[id := s']> (st_chains (ws_storage w)) /\
        for_each add_event (certs ≫= certificate_events id origin) (inbox_of s origin) =
          Ok (inbox_of s' origin) /\
        (forall other, other <> origin -> inbox_of s' other = inbox_of s other) /\
        ch_outboxes s' = ch_outboxes s /\ ch_outbox_counters s' = ch_outbox_counters s /\
        ch_tip s' = ch_tip s /\ ch_confirmed_log s' = ch_confirmed_log s /\
        (forall h, received_up_to h (inbox_of s origin) -> received_up_to h (inbox_of s' origin)) /\
        received_up_to height (inbox_of s' origin)
  end.

Lemma update_effect_wp origin id sent w :
  Forall (fun c => value_ok (cert_value c)) sent ->
  wp (process_cross_chain_update clock origin id sent) (update_effect origin id sent w)
    (fun w' => st_chains (ws_storage w') = st_chains (ws_storage w)) w.
Proof.
  intros Hok. unfold process_cross_chain_update. apply wp_bind, wp_gets.
  apply wp_bind, wp_chain; [intros [s1 next] Hs1|done]. unfold last_anticipated_block_height.
  apply bind_Ok in Hs1 as (next' & Hnext & [= <- <-]). apply map_err_Ok in Hnext.
  rewrite entry_load in Hnext. set (s := load_chain id (ws_storage w)) in *.
  apply wp_bind, wp_gets, wp_bind, wp_lift; [|done]. rewrite !entry_load. simpl. intros certs Hsel.
  destruct (selected_confirmed _ _ _ _ _ _ _ _ Hsel) as [Hconf Hsub].
  apply select_certificates_Ok in Hsel as (_ & _ & Hcerts).
  destruct (last certs) as [c|] eqn:Hlast; [|done].
  apply wp_bind, wp_modify. set (w1 := set_storage _ w).
  assert (st_chains (ws_storage w1) = st_chains (ws_storage w)) as Hst1.
  { apply (step_chains _ _ (write_certificates_step (ws_storage w) certs ltac:(rewrite Forall_forall in *; auto))). }
  clearbody w1. apply wp_bind, receive_all; [done| |].
  2:{ intros w' [Hq _ _ _ _ _]. by rewrite (step_chains _ _ Hq). }
  intros s3 w2 [Hq _ _ _ _ _] _ Hrs. apply wp_bind, wp_gets.
  destruct (negb _ && negb _); [apply wp_ret; simpl; by rewrite (step_chains _ _ Hq)|].
  apply wp_bind, wp_modify, wp_ret. apply receives_inboxes in Hrs
    as (Ha & Ho & _ & Hb & Hc & Ht & Hl & Hm & Hup).
  match type of Ha with for_each _ _ (inbox_of ?s2 _) = _ =>
    assert (forall o, inbox_of s2 o = inbox_of s o) as Hin
      by (intros o; unfold inbox_of; simpl; by rewrite !entry_load) end.
  rewrite Hin in Ha, Hm. setoid_rewrite Hin in Ho.
  exists next', (ev_height <$> last (removed_events (inbox_of s origin))), certs, (saved s3).
  split_and!; try done.
  - rewrite !entry_load in Hcerts. exact Hcerts.
  - by rewrite Hlast.
  - simpl. by rewrite (step_chains _ _ Hq), Hst1.
  - by apply Hup.
Qed.


(** ** Confirmations *)

Lemma load_insert id s w w' :
  st_chains (ws_storage w') = <[id := s]> (st_chains (ws_storage w)) ->
  load_chain id (ws_storage w') = s.
Proof. intros Hst. unfold load_chain. by rewrite Hst, lookup_insert_eq. Qed.

Lemma load_same id w w' :
  st_chains (ws_storage w') = st_chains (ws_storage w) ->
  load_chain id (ws_storage w') = load_chain id (ws_storage w).
Proof. intros Hst. unfold load_chain. by rewrite Hst. Qed.

(** Confirmations are honest.  A request to update a recipient is answered by at
    most one confirmation, for the same sender and recipient; and for every
    height that it confirms, the saved inbox of the recipient is past this
    height. *)
Theorem confirmation_means_received height_map from id certs w actions w' :
  Forall (fun c => value_ok (cert_value c)) certs ->
  handle_cross_chain_request clock (UpdateRecipient height_map from id certs) w =
    (Ok actions, w') ->
  cross_chain_requests actions = [] \/
  exists latest, cross_chain_requests actions = [ConfirmUpdatedRecipient from id latest] /\
    forall medium height, (medium, height) ∈ latest ->
      received_up_to height (inbox_of (load_chain id (ws_storage w'))
        {| sender := from; origin_medium := medium |}).
Proof.
  intros Hok Hrun.
  set (Inv := fun (received : list (Origin * BlockHeight)) w' => forall origin height,
    (origin, height) ∈ received -> sender origin = from /\
    received_up_to height (inbox_of (load_chain id (ws_storage w')) origin)).
  assert (wp (w_for_each (update_medium clock from id certs) height_map []) Inv (fun _ => True) w)
    as Hwp.
  { apply wp_for_each; [|by intros origin height Hin%elem_of_nil].
    intros [medium heights] received w1 _ Hinv. apply wp_bind.
    eapply wp_mono; [apply update_effect_wp| |done].
    { apply Forall_forall. intros c [_ Hin]%list_elem_of_filter. rewrite Forall_forall in Hok. auto. }
    intros [h|] w2 Heff; apply wp_ret; simpl in Heff.
    - destruct Heff as (next & ant & sel & s' & _ & _ & _ & _ & Hst & _ & Ho & _ & _ & _ & _ & Hm & Hup).
      intros origin height. rewrite elem_of_app, list_elem_of_singleton, (load_insert _ _ _ _ Hst).
      intros [Hin|[= -> ->]]; [|done]. destruct (Hinv _ _ Hin) as [Hs Hr]. split; [done|].
      destruct (decide (origin = {| sender := from; origin_medium := medium |})) as [->|Hne];
        [by apply Hm|by rewrite Ho].
    - intros origin height Hin. rewrite (load_same _ _ _ Heff). by apply Hinv. }
  unfold handle_cross_chain_request in Hrun. unfold wp in Hwp. unfold mbind, worker_bind in Hrun.
  destruct (w_for_each _ _ _ w) as [[received|e|] w1]; [|done|done].
  destruct received as [|p received]; [injection Hrun as <- <-; by left|].
  injection Hrun as <- <-. right. eexists. split; [reflexivity|].
  intros medium height Hin. change (_ :: _) with
    ((fun p : Origin * BlockHeight => (origin_medium p.1, p.2)) <$> p :: received) in Hin.
  apply list_elem_of_fmap in Hin as ([origin h] & [= -> ->] & Hin).
  destruct (Hwp _ _ Hin) as [<- Hr]. by destruct origin.
Qed.

(** ** Acknowledgements *)

Lemma take_notifiers_spec height entries notifiers senders notifiers' :
  take_notifiers height entries notifiers = (senders, notifiers') ->
  notifiers' ⊆ notifiers /\
  forall n, n ∈ senders -> exists key ns, (key, ns) ∈ entries /\ key <= height /\ n ∈ ns.
Proof.
  revert notifiers senders notifiers'.
  induction entries as [|[key ns] entries IH]; intros notifiers senders notifiers'; simpl.
  { intros [= <- <-]. split; [done|]. by intros n Hn%elem_of_nil. }
  destruct (Z.ltb_spec height key).
  { intros [= <- <-]. split; [done|]. by intros n Hn%elem_of_nil. }
  destruct (take_notifiers height entries (delete key notifiers)) as [rest m] eqn:Ht.
  intros [= <- <-]. apply IH in Ht as [Hsub Hin]. split.
  - etrans; [done|]. apply delete_subseteq.
  - intros n [Hn|Hn]%elem_of_app; [exists key, ns; set_solver|].
    destruct (Hin n Hn) as (key' & ns' & Hk & Hrest). exists key', ns'. set_solver.
Qed.

(** The callers of a chain that wait at a height. *)
Definition waiting_at (w : WorkerState) (id : ChainId) (height : BlockHeight) (n : Z) : Prop :=
  exists senders, default ∅ (ws_delivery_notifiers w !! id) !! height = Some senders /\ n ∈ senders.

Lemma notify_effect id height w :
  wp (notify_delivery id height) (fun _ w' => ws_storage w' = ws_storage w /\
    (forall h n, waiting_at w' id h n -> waiting_at w id h n) /\
    exists fired, ws_notified w' = ws_notified w ++ fired /\
      forall n, n ∈ fired -> exists h, waiting_at w id h n /\ h <= height) (fun _ => False) w.
Proof.
  apply wp_modify. destruct (ws_delivery_notifiers w !! id) as [by_height|] eqn:Hn.
  2:{ split_and!; [done|done|]. exists []. rewrite app_nil_r. split; [done|].
      by intros n Hin%elem_of_nil. }
  destruct (take_notifiers _ _ _) as [senders by_height'] eqn:Ht.
  apply take_notifiers_spec in Ht as [Hsub Hin]. simpl. split_and!; [done| |].
  - intros h n (ns & Hl & Hns). exists ns. split; [|done]. rewrite Hn. simpl in *.
    apply (lookup_weaken by_height'); [|done]. case_bool_decide as He.
    + rewrite lookup_delete_eq in Hl. simpl in Hl. by rewrite lookup_empty in Hl.
    + by rewrite lookup_insert_eq in Hl.
  - exists senders. split; [done|]. intros n Hs. destruct (Hin n Hs) as (key & ns & Hk & Hle & Hns).
    exists key. split; [|done]. exists ns. rewrite Hn. simpl. by apply elem_of_btree_iter in Hk.
Qed.

Section acknowledge.
Context (w0 : WorkerState) (from id : ChainId).
Notation s0 := (load_chain from (ws_storage w0)).

(** The loop over the media, after the entries [acked]. *)
Record acked_ok (acked : list (Medium * BlockHeight)) (progress : bool * ChainState)
    (w : WorkerState) : Prop := {
  acked_storage : ws_storage w = ws_storage w0;
  acked_boxes : chain_boxes_ok progress.2;
  acked_queued t h : queued progress.2 t h <-> queued s0 t h /\
    forall medium height, (medium, height) ∈ acked ->
      t = {| recipient := id; target_medium := medium |} -> height < h;
  acked_changed : progress.1 = false -> ws_notified w = ws_notified w0 /\
    forall t h, queued progress.2 t h <-> queued s0 t h;
  acked_waiting h n : waiting_at w from h n -> waiting_at w0 from h n;
  acked_fired : exists fired, ws_notified w = ws_notified w0 ++ fired /\
    forall n, n ∈ fired -> exists height, waiting_at w0 from height n /\
      forall t h, queued progress.2 t h -> height < h;
}.

Lemma confirm_medium_ok acked medium height progress w :
  acked_ok acked progress w ->
  wp (confirm_medium from id (medium, height) progress)
    (acked_ok (acked ++ [(medium, height)])) (fun _ => False) w.
Proof.
  intros [Hst Hboxes Hq Hch Hwait (fired & Hfired & Hf)]. destruct progress as [changed s]. simpl in *.
  set (target := {| recipient := id; target_medium := medium |}).
  destruct (acknowledge_effect target height s Hboxes) as (marked & s' & Hm & Hboxes' & Hq' & Hmark).
  unfold confirm_medium. fold target.
  assert (forall t h, queued s' t h <-> queued s0 t h /\
    forall m k, (m, k) ∈ acked ++ [(medium, height)] ->
      t = {| recipient := id; target_medium := m |} -> k < h) as Hqs.
  { intros t h. rewrite Hq', Hq. setoid_rewrite elem_of_app. setoid_rewrite list_elem_of_singleton.
    unfold target. naive_solver. }
  assert (forall n, n ∈ fired -> exists k, waiting_at w0 from k n /\
    forall t h, queued s' t h -> k < h) as Hf'.
  { intros n Hn. destruct (Hf n Hn) as (k & Hk & Hall). exists k. split; [done|].
    intros t h [Hqt _]%Hq'. by eapply Hall. }
  apply wp_bind, (wp_chain_Ok _ _ _ _ _ Hm). destruct marked; simpl.
  - apply wp_bind. eapply (wp_mono _ (fun _ w' => ws_storage w' = ws_storage w /\
      (forall h n, waiting_at w' from h n -> waiting_at w from h n) /\
      exists new, ws_notified w' = ws_notified w ++ new /\
        forall n, n ∈ new -> exists h, waiting_at w from h n /\
          forall t k, queued s' t k -> h < k) _ (fun _ => False)); [| |done].
    + destruct (all_messages_delivered_up_to height s') eqn:Hd.
      * pose proof (proj1 (delivered_iff height s' Hboxes') Hd) as Hall.
        eapply wp_mono; [apply notify_effect| |done]. intros [] w' (Hst' & Hw' & new & Hnew & Hin).
        split_and!; [done|done|]. exists new. split; [done|]. intros n Hn.
        destruct (Hin n Hn) as (h & Hh & Hle). exists h. split; [done|]. intros t k Hk.
        specialize (Hall t k Hk). lia.
      * apply wp_ret. split_and!; [done|done|]. exists []. rewrite app_nil_r. split; [done|].
        by intros n Hn%elem_of_nil.
    + intros [] w' (Hst' & Hw' & new & Hnew & Hin). apply wp_ret. split; simpl; try done.
      * congruence.
      * auto.
      * exists (fired ++ new). rewrite Hnew, Hfired, (assoc_L (++)). split; [done|].
        intros n [Hn|Hn]%elem_of_app; [by apply Hf'|]. destruct (Hin n Hn) as (h & Hh & Hall). eauto.
  - apply wp_ret. split; simpl; try done; [|by exists fired].
    intros ->. destruct (Hch eq_refl) as [Hno Hsame]. split; [done|]. intros t h.
    rewrite Hq', <- Hsame. split; [by intros []|]. intros Hqt. split; [done|]. intros ->.
    apply Z.nle_gt. intros Hle. assert (false = true); [|done]. apply Hmark. by exists h.
Qed.

Lemma confirm_media_ok latest acked progress w :
  acked_ok acked progress w ->
  wp (w_for_each (confirm_medium from id) latest progress) (acked_ok (acked ++ latest))
    (fun _ => False) w.
Proof.
  revert acked progress w. induction latest as [|[medium height] latest IH]; intros acked progress w Hok.
  { rewrite app_nil_r. by apply wp_ret. }
  cbn [w_for_each]. apply wp_bind. eapply wp_mono; [by apply confirm_medium_ok| |done].
  intros progress' w' Hok'. rewrite cons_middle, (assoc_L (++)). by apply IH.
Qed.

(** The whole handler. *)
Lemma confirmation_effect latest :
  chain_boxes_ok s0 ->
  exists w' s1, handle_cross_chain_request clock (ConfirmUpdatedRecipient from id latest) w0 =
      (Ok no_actions, w') /\
    load_chain from (ws_storage w') = s1 /\ chain_boxes_ok s1 /\
    (forall t h, queued s1 t h <-> queued s0 t h /\
      forall medium height, (medium, height) ∈ latest ->
        t = {| recipient := id; target_medium := medium |} -> height < h) /\
    exists fired, ws_notified w' = ws_notified w0 ++ fired /\
      forall n, n ∈ fired -> exists height, waiting_at w0 from height n /\
        forall t h, queued s1 t h -> height < h.
Proof.
  intros Hboxes.
  assert (acked_ok [] (false, s0) w0) as Hstart.
  { split; simpl; try done.
    - intros t h. split; [|by intros []]. intros Hq. split; [done|]. by intros m k Hin%elem_of_nil.
    - exists []. rewrite app_nil_r. split; [done|]. by intros n Hn%elem_of_nil. }
  pose proof (confirm_media_ok latest [] (false, s0) w0 Hstart) as Hwp. unfold wp in Hwp.
  destruct (w_for_each _ _ _ w0) as [[[changed s]| |] w1] eqn:Hrun; [|done|done].
  destruct Hwp as [Hst Hb Hq Hch Hwait (fired & Hfired & Hf)]. simpl in *.
  unfold handle_cross_chain_request. rewrite (run_bind _ _ w0 s0 w0) by done.
  rewrite (run_bind _ _ _ _ _ Hrun). destruct changed.
  - eexists _, (saved s). split; [reflexivity|]. simpl. rewrite load_saved.
    split_and!; [done|exact Hb|exact Hq|]. exists fired. split; [done|exact Hf].
  - eexists w1, s0. split; [reflexivity|]. rewrite Hst. split_and!; [done|done| |].
    + intros t h. destruct (Hch eq_refl) as [_ Hsame]. specialize (Hq t h). specialize (Hsame t h). tauto.
    + exists []. destruct (Hch eq_refl) as [-> _]. rewrite app_nil_r. split; [done|].
      by intros n Hn%elem_of_nil.
Qed.

End acknowledge.

(** C14: Confirmations are processed exactly.  With exact counters, a confirmation
    never fails, keeps the counters exact, and removes from the outboxes of the
    sender exactly the confirmed heights: those of the recipient, through one of
    the media, up to the height confirmed for it. *)
Theorem confirmation_clears_outboxes w from id latest :
  let s := load_chain from (ws_storage w) in
  chain_boxes_ok s ->
  exists w', handle_cross_chain_request clock (ConfirmUpdatedRecipient from id latest) w =
      (Ok no_actions, w') /\
    let s' := load_chain from (ws_storage w') in
    chain_boxes_ok s' /\
    forall t h, queued s' t h <-> queued s t h /\
      forall medium height, (medium, height) ∈ latest ->
        t = {| recipient := id; target_medium := medium |} -> height < h.
Proof.
  intros s Hb. destruct (confirmation_effect w from id latest Hb) as (w' & s1 & Hrun & <- & Hb' & Hq & _).
  by exists w'.
Qed.

(** Callers are notified only after delivery.  A caller that is notified when a
    confirmation is processed was waiting at a height of the sender such that no
    outbox has anything left at or below this height. *)
Theorem notified_after_delivery w from id latest actions w' :
  chain_boxes_ok (load_chain from (ws_storage w)) ->
  handle_cross_chain_request clock (ConfirmUpdatedRecipient from id latest) w = (Ok actions, w') ->
  exists fired, ws_notified w' = ws_notified w ++ fired /\
    forall n, n ∈ fired -> exists height, waiting_at w from height n /\
      forall t h, queued (load_chain from (ws_storage w')) t h -> height < h.
Proof.
  intros Hb Hrun. destruct (confirmation_effect w from id latest Hb) as (w1 & s1 & Hrun' & <- & _ & _ & Hf).
  rewrite Hrun in Hrun'. by injection Hrun' as _ ->.
Qed.

(** ** Workers that have all the chains *)

Lemma request_answer request w actions w' :
  handle_cross_chain_request clock request w = (Ok actions, w') ->
  (requests_fuel (cross_chain_requests actions) < requests_fuel [request])%nat.
Proof.
  destruct request as [hm from id certs|from id latest]; simpl; unfold mbind, worker_bind.
  - destruct (w_for_each _ _ _ w) as [[[|p l]| |] w1]; intros [= <- <-]; simpl; lia.
  - unfold w_load_chain, w_gets. destruct (w_for_each _ _ _ w) as [[[[] s]| |] w1]; simpl;
      intros [= <- <-]; simpl; lia.
Qed.

Lemma requests_fuel_app l1 l2 : requests_fuel (l1 ++ l2) = (requests_fuel l1 + requests_fuel l2)%nat.
Proof. unfold requests_fuel. apply sum_list_with_app. Qed.

(** The cross-chain requests of a certificate run out.  The loop that handles
    the requests of a certificate, and those that they cause, never exceeds the
    bound of two rounds per request to update and one per confirmation. *)
Theorem requests_run_out requests log w fuel :
  (requests_fuel requests <= fuel)%nat ->
  (handle_requests clock fuel requests log w).1 <> Ok None.
Proof.
  revert requests log w. induction fuel as [|fuel IH]; intros requests log w Hle.
  - destruct requests as [|[] requests]; simpl in *; [done|lia|lia].
  - destruct requests as [|request requests]; [done|]. cbn [handle_requests].
    unfold mbind, worker_bind.
    destruct (handle_cross_chain_request clock request w) as [[actions|e|] w'] eqn:Hr; [|done|done].
    apply IH. apply request_answer in Hr. rewrite requests_fuel_app.
    change (request :: requests) with ([request] ++ requests) in Hle.
    rewrite requests_fuel_app in Hle. lia.
Qed.

End delivery.

(** ** A transfer between two chains *)

Module DeliveryExamples.
Import SymbolicCrypto SymbolicBcs ListCache CommitteeExamples BlockExamples TwoChains SafetyExamples.

Lemma exact_counters w id :
  worker_ok w -> let s := load_chain id (ws_storage w) in
  map_Forall (fun h n => n = in_flight (ch_outboxes s) h /\ n <> 0) (ch_outbox_counters s) ->
  map_Forall (fun _ outbox => Forall (fun h => is_Some (ch_outbox_counters s !! h))
    (outbox_queue outbox)) (ch_outboxes s) ->
  chain_boxes_ok s.
Proof.
  intros Hok s Hc Ho. destruct (load_chain_ok w id Hok) as [_ _ _ [Hwf _] _]. split.
  - intros t outbox Ht. destruct (Hwf t) as [Hw _]. unfold outbox_of, entry in Hw.
    fold s in Hw. by rewrite Ht in Hw.
  - intros h. destruct (ch_outbox_counters s !! h) as [n|] eqn:Hn.
    + destruct (Hc _ _ Hn) as [<- Hz]. by rewrite (proj2 (Z.eqb_neq n 0)).
    + rewrite (proj2 (in_flight_zero (ch_outboxes s) h)); [done|]. intros t outbox Ht Hin.
      specialize (Ho _ _ Ht). rewrite Forall_forall in Ho. destruct (Ho h Hin) as [n Hs].
      by rewrite Hn in Hs.
Qed.

Lemma boxes0_ok : chain_boxes_ok (load_chain chain_a (ws_storage after0)).
Proof. apply (exact_counters after0 chain_a after0_ok); decide_now. Qed.

Definition update_origin : Origin := origin_chain chain_a.
Definition received0 : WorkerState :=
  (process_cross_chain_update clock update_origin chain_b [cert0] after0).2.

Lemma sent_ok : Forall (fun c => value_ok (cert_value c)) [cert0].
Proof. decide_now. Qed.


(** The request of the sender, and the confirmation of the recipient. *)
Definition update0 : CrossChainRequest :=
  UpdateRecipient [(Direct, [0])] chain_a chain_b [cert0].
Definition updated0 : result WorkerError NetworkActions * WorkerState :=
  handle_cross_chain_request clock update0 after0.
Definition confirmation0 : CrossChainRequest :=
  ConfirmUpdatedRecipient chain_a chain_b [(Direct, 0)].

Lemma confirmation_means_received_witness :
  requests0 = [update0] /\ cross_chain_requests <$> updated0.1 = Ok [confirmation0] /\
  received_up_to 0 (inbox_of (load_chain chain_b (ws_storage updated0.2)) update_origin).
Proof.
  split; [vm_compute; reflexivity|].
  assert (cross_chain_requests <$> updated0.1 = Ok [confirmation0]) as Hr
    by (vm_compute; reflexivity).
  split; [exact Hr|]. unfold updated0 in *.
  destruct (handle_cross_chain_request clock update0 after0) as [[actions|e|] w'] eqn:Hrun;
    [|discriminate Hr|discriminate Hr]. cbn [fst snd] in Hr |- *. injection Hr as Hr.
  destruct (confirmation_means_received clock _ _ _ _ _ _ _ sent_ok Hrun)
    as [He|(latest & He & Hup)].
  - rewrite Hr in He. discriminate He.
  - rewrite Hr in He. injection He as <-. apply (Hup Direct 0). by left.
Defined.

Lemma confirmation_clears_outboxes_witness :
  queued (load_chain chain_a (ws_storage after0)) (target_chain chain_b) 0 /\
  exists w', handle_cross_chain_request clock confirmation0 after0 = (Ok no_actions, w') /\
    ~ queued (load_chain chain_a (ws_storage w')) (target_chain chain_b) 0.
Proof.
  split; [decide_now|]. unfold confirmation0.
  destruct (confirmation_clears_outboxes clock after0 chain_a chain_b [(Direct, 0)] boxes0_ok)
    as (w' & Hrun & _ & Hq).
  exists w'. split; [exact Hrun|]. intros [_ Hlt]%Hq.
  assert (0 < 0); [|lia]. apply (Hlt Direct 0); [by left|reflexivity].
Defined.

Lemma notified_after_delivery_witness :
  exists w', handle_cross_chain_request clock confirmation0 after0 = (Ok no_actions, w') /\
  ws_notified w' = [500] /\
  exists fired, ws_notified w' = ws_notified after0 ++ fired /\
    forall n, n ∈ fired -> exists height, waiting_at after0 chain_a height n /\
      forall t h, queued (load_chain chain_a (ws_storage w')) t h -> height < h.
Proof.
  unfold confirmation0.
  assert ((handle_cross_chain_request clock confirmation0 after0).1 = Ok no_actions) as Hr
    by (vm_compute; reflexivity).
  assert (ws_notified (handle_cross_chain_request clock confirmation0 after0).2 = [500]) as Hn
    by (vm_compute; reflexivity).
  unfold confirmation0 in *.
  destruct (handle_cross_chain_request clock (ConfirmUpdatedRecipient chain_a chain_b [(Direct, 0)])
              after0) as [r w'] eqn:Hrun.
  cbn [fst snd] in Hr, Hn. rewrite Hr in Hrun |- *. exists w'.
  split; [reflexivity|]. split; [exact Hn|].
  exact (notified_after_delivery clock after0 chain_a chain_b [(Direct, 0)] no_actions w'
           boxes0_ok Hrun).
Defined.

(** The request of the block and the confirmation that it causes take the two
    rounds of the bound. *)
Lemma requests_run_out_witness :
  requests_fuel requests0 = 2%nat /\ (handle_requests clock 2 requests0 [] after0).1 <> Ok None.
Proof.
  split; [vm_compute; reflexivity|].
  apply (requests_run_out clock requests0 [] after0 2). vm_compute. reflexivity.
Defined.

(** The confirmations of two blocks to two chains, the later block first. *)
Definition confirmed_c : WorkerState :=
  (handle_cross_chain_request clock (ConfirmUpdatedRecipient chain_a chain_c [(Direct, 1)])
     after1).2.
Definition confirmed_b : WorkerState :=
  (handle_cross_chain_request clock (ConfirmUpdatedRecipient chain_a chain_b [(Direct, 0)])
     confirmed_c).2.

Lemma no_outboxes s : size (ch_outboxes s) = 0%nat -> forall t h, ~ queued s t h.
Proof.
  intros He%map_size_empty_iff t h Hq. unfold queued, outbox_of, entry in Hq.
  rewrite He, lookup_empty in Hq. by apply elem_of_nil in Hq.
Qed.

(** A caller that waits for delivery can be left waiting.  Block 0 has a message
    for a second chain and block 1 one for a third; the third chain confirms
    first.  After both confirmations nothing is left in the outboxes, but
    only the caller of block 0 was notified: the notifications run up to the height
    of the last confirmation, not up to the first height still in an outbox,
    and the caller of block 1 waits for a confirmation that will not come. *)
Theorem later_notification_lost :
  (forall t h, ~ queued (load_chain chain_a (ws_storage confirmed_b)) t h) /\
  ws_notified confirmed_b = [500] /\ waiting_at confirmed_b chain_a 1 501.
Proof.
  split; [|split].
  - apply no_outboxes. decide_now.
  - decide_now.
  - exists [501]. split; decide_now.
Qed.

(** A lost confirmation is not sent again.  When the confirmation of a recipient
    does not reach the sender, the sender asks again for the same update; the
    recipient has received the block, answers without a confirmation, and the
    height stays in the outbox of the sender. *)
Theorem lost_confirmation_not_resent :
  requests_of (handle_chain_info_query clock (query_new chain_a) updated0.2) = [update0] /\
  (handle_cross_chain_request clock update0 updated0.2).1 = Ok no_actions /\
  queued (load_chain chain_a (ws_storage
    (handle_cross_chain_request clock update0 updated0.2).2)) (target_chain chain_b) 0.
Proof. split; [|split]; [vm_compute; reflexivity..|decide_now]. Qed.

End DeliveryExamples.
