(* ===== verification/Fungible.v ===== *)
(** * Fungible tokens

    The example application [examples/fungible]: the contract ([src/contract.rs]), its state
    ([src/state.rs]) and its interface ([src/lib.rs]).  Every chain has accounts of its own; tokens
    move between chains in messages, and between applications in sessions.

    [supply_conserved] is the property that makes it a token: whatever the chains execute, in any
    order, the accounts of all chains, the messages that are on their way and the open sessions
    have the same total.  [only_owner_debits] says who can lower the balance of an account. *)

From S2P Require Import Prelude Numbers Types Runtime.

(** ** Data *)

Inductive AccountOwner :=
| User (owner : Owner)
| Application (id : UserApplicationId).

Record Account := {
  account_chain : ChainId;
  owner_of : AccountOwner;
}.

#[export] Instance AccountOwner_eq_dec : EqDecision AccountOwner.
Proof. solve_decision. Defined.
#[export] Instance Account_eq_dec : EqDecision Account.
Proof. solve_decision. Defined.
#[export] Instance AccountOwner_countable : Countable AccountOwner.
Proof.
  refine (inj_countable'
    (fun o => match o with User o => inl o | Application id => inr id end)
    (fun x => match x with inl o => User o | inr id => Application id end) _).
  by intros [].
Defined.

Inductive Operation :=
| OpTransfer (owner : AccountOwner) (amount : Amount) (target_account : Account)
| OpClaim (source_account : Account) (amount : Amount) (target_account : Account).

Inductive Message :=
| Credit (owner : AccountOwner) (amount : Amount)
| Withdraw (owner : AccountOwner) (amount : Amount) (target_account : Account).

Inductive Destination :=
| ToAccount (account : Account)
| NewSession.

Inductive ApplicationCall :=
| Balance (owner : AccountOwner)
| Transfer (owner : AccountOwner) (amount : Amount) (destination : Destination)
| Claim (source_account : Account) (amount : Amount) (target_account : Account).

Inductive SessionCall :=
| SessionBalance
| SessionTransfer (amount : Amount) (destination : Destination).

Inductive Error :=
| InsufficientBalance
| InsufficientSessionBalance
| IncorrectAuthentication.

(** The results of the contract: it subscribes to nothing. *)
Notation ExecutionResult := (list (RawOutgoingMessage Message)).
Record ApplicationCallResult := {
  call_value : Amount;
  call_result : ExecutionResult;
  create_sessions : list Amount;
}.
Record SessionCallResult := {
  session_inner : ApplicationCallResult;
  session_state : option Amount;
}.

Record FungibleToken := { accounts : gmap AccountOwner Amount }.

(** ** The state *)

Definition initialize_accounts (state : gmap AccountOwner Amount) (self : FungibleToken)
    : FungibleToken :=
  {| accounts := foldl (fun m kv => <[kv.1 := kv.2]> m) (accounts self) (map_to_list state) |}.

Definition balance (account : AccountOwner) (self : FungibleToken) : Amount :=
  default 0 (accounts self !! account).

Definition credit (account : AccountOwner) (amount : Amount) (self : FungibleToken)
    : FungibleToken :=
  let balance := saturating_add_assign u128_MAX (balance account self) amount in
  {| accounts := <[account := balance]> (accounts self) |}.

Definition debit (account : AccountOwner) (amount : Amount) (self : FungibleToken)
    : result Error FungibleToken :=
  balance ← map_err (fun _ => InsufficientBalance) (try_sub_assign (balance account self) amount);
  Ok {| accounts := <[account := balance]> (accounts self) |}.

(** ** The contract *)

(** [ExecutionResult::with_message] and [with_authenticated_message]. *)
Definition with_message (authenticated : bool) (chain : ChainId) (message : Message)
    : ExecutionResult :=
  [{| raw_destination := Recipient chain; raw_authenticated := authenticated;
      raw_is_skippable := false; raw_message := message |}].

Definition check_account_authentication (authenticated_application_id : option UserApplicationId)
    (authenticated_signer : option Owner) (owner : AccountOwner) : result Error unit :=
  match owner with
  | User address => ensure (bool_decide (authenticated_signer = Some address)) IncorrectAuthentication
  | Application id =>
      ensure (bool_decide (authenticated_application_id = Some id)) IncorrectAuthentication
  end.

Section contract.
Context (current_chain_id : ChainId).

Definition finish_transfer_to_account (amount : Amount) (account : Account) (self : FungibleToken)
    : ExecutionResult * FungibleToken :=
  if account_chain account =? current_chain_id then ([], credit (owner_of account) amount self)
  else (with_message false (account_chain account) (Credit (owner_of account) amount), self).

Definition finish_transfer_to_destination (amount : Amount) (destination : Destination)
    (self : FungibleToken) : ApplicationCallResult * FungibleToken :=
  match destination with
  | ToAccount account =>
      let '(execution_result, self) := finish_transfer_to_account amount account self in
      ({| call_value := 0; call_result := execution_result; create_sessions := [] |}, self)
  | NewSession =>
      ({| call_value := 0; call_result := []; create_sessions := [amount] |}, self)
  end.

Definition claim (source_account : Account) (amount : Amount) (target_account : Account)
    (self : FungibleToken) : result Error (ExecutionResult * FungibleToken) :=
  if account_chain source_account =? current_chain_id then
    self ← debit (owner_of source_account) amount self;
    Ok (finish_transfer_to_account amount target_account self)
  else
    let message := Withdraw (owner_of source_account) amount target_account in
    Ok (with_message true (account_chain source_account) message, self).

Definition initialize (context : OperationContext) (state : gmap AccountOwner Amount)
    (self : FungibleToken) : result Error FungibleToken :=
  state ←
    (if bool_decide (state = ∅) then
       match opctx_authenticated_signer context with
       | Some owner =>
           match amount_from_str [49; 48; 48; 48; 48; 48; 48] with
           | Ok amount => Ok (<[User owner := amount]> state)
           | _ => Panic
           end
       | None => Ok state
       end
     else Ok state);
  Ok (initialize_accounts state self).

Definition execute_operation (context : OperationContext) (operation : Operation)
    (self : FungibleToken) : result Error (ExecutionResult * FungibleToken) :=
  match operation with
  | OpTransfer owner amount target_account =>
      check_account_authentication None (opctx_authenticated_signer context) owner;;
      self ← debit owner amount self;
      Ok (finish_transfer_to_account amount target_account self)
  | OpClaim source_account amount target_account =>
      check_account_authentication None (opctx_authenticated_signer context)
        (owner_of source_account);;
      claim source_account amount target_account self
  end.

Definition execute_message (context : MessageContext) (message : Message) (self : FungibleToken)
    : result Error (ExecutionResult * FungibleToken) :=
  match message with
  | Credit owner amount => Ok ([], credit owner amount self)
  | Withdraw owner amount target_account =>
      check_account_authentication None (msgctx_authenticated_signer context) owner;;
      self ← debit owner amount self;
      Ok (finish_transfer_to_account amount target_account self)
  end.

Definition handle_application_call (context : CalleeContext) (call : ApplicationCall)
    (self : FungibleToken) : result Error (ApplicationCallResult * FungibleToken) :=
  match call with
  | Balance owner =>
      Ok ({| call_value := balance owner self; call_result := []; create_sessions := [] |}, self)
  | Transfer owner amount destination =>
      check_account_authentication (callee_authenticated_caller_id context)
        (callee_authenticated_signer context) owner;;
      self ← debit owner amount self;
      Ok (finish_transfer_to_destination amount destination self)
  | Claim source_account amount target_account =>
      check_account_authentication None (callee_authenticated_signer context)
        (owner_of source_account);;
      '(execution_result, self) ← claim source_account amount target_account self;
      Ok ({| call_value := 0; call_result := execution_result; create_sessions := [] |}, self)
  end.

Definition handle_session_balance (balance : Amount) : SessionCallResult :=
  {| session_inner := {| call_value := balance; call_result := []; create_sessions := [] |};
     session_state := Some balance |}.

Definition handle_session_transfer (balance amount : Amount) (destination : Destination)
    (self : FungibleToken) : result Error (SessionCallResult * FungibleToken) :=
  balance ← map_err (fun _ => InsufficientSessionBalance) (try_sub_assign balance amount);
  let updated_session := if 0 <? balance then Some balance else None in
  let '(inner, self) := finish_transfer_to_destination amount destination self in
  Ok ({| session_inner := inner; session_state := updated_session |}, self).

Definition handle_session_call (state : Amount) (request : SessionCall) (self : FungibleToken)
    : result Error (SessionCallResult * FungibleToken) :=
  match request with
  | SessionBalance => Ok (handle_session_balance state, self)
  | SessionTransfer amount destination => handle_session_transfer state amount destination self
  end.

(** ** Actions *)

(** What a chain does with the contract, and what comes of it: messages and open sessions. *)
Inductive Action :=
| Execute (context : OperationContext) (operation : Operation)
| Receive (context : MessageContext) (message : Message)
| Call (context : CalleeContext) (call : ApplicationCall)
| CallSession (state : Amount) (request : SessionCall).

Definition apply_action (action : Action) (self : FungibleToken)
    : result Error ((ExecutionResult * list Amount) * FungibleToken) :=
  match action with
  | Execute context operation =>
      '(result, self) ← execute_operation context operation self; Ok ((result, []), self)
  | Receive context message =>
      '(result, self) ← execute_message context message self; Ok ((result, []), self)
  | Call context call =>
      '(result, self) ← handle_application_call context call self;
      Ok ((call_result result, create_sessions result), self)
  | CallSession state request =>
      '(result, self) ← handle_session_call state request self;
      Ok ((call_result (session_inner result),
           option_list (session_state result) ++ create_sessions (session_inner result)), self)
  end.

End contract.

(** ** Conservation *)

Definition holdings (self : FungibleToken) : Z := map_sum (accounts self).
Definition message_value (message : Message) : Z :=
  match message with Credit _ amount => amount | Withdraw _ _ _ => 0 end.
Definition messages_value (messages : ExecutionResult) : Z :=
  foldr (fun m value => message_value (raw_message m) + value) 0 messages.
Definition sessions_value (sessions : list Amount) : Z := foldr Z.add 0 sessions.
Definition input_value (action : Action) : Z :=
  match action with
  | Receive _ message => message_value message
  | CallSession state _ => state
  | _ => 0
  end.

(** Amounts are within 128 bits. *)
Definition message_wf (message : Message) : Prop :=
  match message with Credit _ amount | Withdraw _ amount _ => in_range u128_MAX amount end.
Definition messages_wf (messages : ExecutionResult) : Prop :=
  Forall (fun m => message_wf (raw_message m) /\ exists chain, raw_destination m = Recipient chain)
    messages.
Definition action_wf (action : Action) : Prop :=
  match action with
  | Execute _ (OpTransfer _ amount _ | OpClaim _ amount _) => in_range u128_MAX amount
  | Receive _ message => message_wf message
  | Call _ (Transfer _ amount _ | Claim _ amount _) => in_range u128_MAX amount
  | Call _ (Balance _) => True
  | CallSession state (SessionTransfer amount _) =>
      in_range u128_MAX state /\ in_range u128_MAX amount
  | CallSession state SessionBalance => in_range u128_MAX state
  end.
Definition token_wf (self : FungibleToken) : Prop :=
  map_Forall (fun _ amount => in_range u128_MAX amount) (accounts self).

Lemma balance_range account self : token_wf self -> in_range u128_MAX (balance account self).
Proof.
  intros Hwf. unfold balance. destruct (accounts self !! account) as [a|] eqn:Ha; simpl.
  - exact (Hwf _ _ Ha).
  - unfold in_range, u128_MAX. lia.
Qed.
Lemma token_wf_nonneg self : token_wf self -> map_Forall (fun _ x => 0 <= x) (accounts self).
Proof. intros Hwf k x Hx. by destruct (Hwf k x Hx). Qed.
Lemma balance_le_holdings account self : token_wf self -> balance account self <= holdings self.
Proof.
  intros Hwf%token_wf_nonneg. unfold balance, holdings.
  destruct (accounts self !! account) as [a|] eqn:Ha; simpl.
  - by eapply map_sum_ge.
  - by apply map_sum_nonneg.
Qed.
Lemma holdings_nonneg self : token_wf self -> 0 <= holdings self.
Proof. intros Hwf%token_wf_nonneg. by apply map_sum_nonneg. Qed.

Lemma debit_Ok account amount self self' :
  debit account amount self = Ok self' ->
  amount <= balance account self /\
  accounts self' = <[account := balance account self - amount]> (accounts self).
Proof.
  unfold debit. intros Hd. inv_result.
  match goal with H : try_sub_assign _ _ = Ok _ |- _ => apply try_sub_assign_Ok in H as [-> ?] end.
  by subst.
Qed.

Lemma debit_conserves account amount self self' :
  token_wf self -> in_range u128_MAX amount -> debit account amount self = Ok self' ->
  token_wf self' /\ holdings self' + amount = holdings self.
Proof.
  intros Hwf Ha [Hle Heq]%debit_Ok. pose proof (balance_range account self Hwf) as Hb.
  unfold token_wf, holdings. rewrite Heq. unfold in_range in *. split.
  - apply map_Forall_insert_2; [lia|done].
  - rewrite map_sum_insert. unfold balance in *. lia.
Qed.
Lemma credit_conserves account amount self :
  token_wf self -> in_range u128_MAX amount -> holdings self + amount <= u128_MAX ->
  token_wf (credit account amount self) /\
  holdings (credit account amount self) = holdings self + amount.
Proof.
  intros Hwf Ha Hmax. pose proof (balance_range account self Hwf) as Hb.
  pose proof (balance_le_holdings account self Hwf) as Hle.
  unfold credit, saturating_add_assign, saturating_add, token_wf, holdings in *. simpl.
  rewrite Z.min_r by lia. unfold in_range in *. split.
  - apply map_Forall_insert_2; [lia|done].
  - rewrite map_sum_insert. unfold balance. lia.
Qed.

(** What a part of the contract may do: with [input] more than before. *)
Definition conserves (self : FungibleToken) (input : Z) (messages : ExecutionResult)
    (sessions : list Amount) (self' : FungibleToken) : Prop :=
  token_wf self' /\ messages_wf messages /\ Forall (in_range u128_MAX) sessions /\
  holdings self' + messages_value messages + sessions_value sessions = holdings self + input.

Ltac solve_wf := first [apply Forall_nil_2|by apply Forall_singleton|
  by apply Forall_singleton; split; [|eexists]].

Lemma finish_transfer_conserves chain amount account self :
  token_wf self -> in_range u128_MAX amount -> holdings self + amount <= u128_MAX ->
  conserves self amount (finish_transfer_to_account chain amount account self).1 []
    (finish_transfer_to_account chain amount account self).2.
Proof.
  intros Hwf Ha Hmax. unfold finish_transfer_to_account, conserves.
  destruct (credit_conserves (owner_of account) amount self Hwf Ha Hmax) as [Hwf' Hh].
  case_match; simpl; split_and!; try done; try lia; solve_wf.
Qed.
Lemma finish_destination_conserves chain amount destination self :
  token_wf self -> in_range u128_MAX amount -> holdings self + amount <= u128_MAX ->
  let '(result, self') := finish_transfer_to_destination chain amount destination self in
  conserves self amount (call_result result) (create_sessions result) self'.
Proof.
  intros Hwf Ha Hmax. unfold finish_transfer_to_destination. destruct destination as [account|].
  - pose proof (finish_transfer_conserves chain amount account self Hwf Ha Hmax) as Hc.
    by destruct (finish_transfer_to_account chain amount account self).
  - unfold conserves. simpl. split_and!; try done; try solve_wf; simpl; lia.
Qed.

(** A transfer out of an account. *)
Lemma transfer_conserves chain owner amount account self self1 :
  token_wf self -> in_range u128_MAX amount -> holdings self <= u128_MAX ->
  debit owner amount self = Ok self1 ->
  conserves self 0 (finish_transfer_to_account chain amount account self1).1 []
    (finish_transfer_to_account chain amount account self1).2.
Proof.
  intros Hwf Ha Hmax [Hwf1 Hh]%debit_conserves; [|done..].
  destruct (finish_transfer_conserves chain amount account self1) as (? & ? & ? & ?);
    [done|done|lia|]. split_and!; try done. lia.
Qed.
Lemma claim_conserves chain source amount target self messages self' :
  token_wf self -> in_range u128_MAX amount -> holdings self <= u128_MAX ->
  claim chain source amount target self = Ok (messages, self') ->
  conserves self 0 messages [] self'.
Proof.
  intros Hwf Ha Hmax. unfold claim. case_match.
  - intros (self1 & Hd & [= Heq])%bind_Ok.
    pose proof (transfer_conserves chain _ _ target _ _ Hwf Ha Hmax Hd) as Hc.
    by rewrite Heq in Hc.
  - intros [= <- <-]. split_and!; try done; try solve_wf; simpl; lia.
Qed.

Lemma action_conserves chain action self messages sessions self' :
  token_wf self -> action_wf action -> holdings self + input_value action <= u128_MAX ->
  apply_action chain action self = Ok ((messages, sessions), self') ->
  conserves self (input_value action) messages sessions self'.
Proof.
  intros Hwf Ha Hmax Hr. destruct action as [ctx op|ctx msg|ctx call|state request]; simpl in *.
  - apply bind_Ok in Hr as ([res self1] & Hop & [= <- <- <-]). rewrite Z.add_0_r in Hmax.
    destruct op as [owner amount target|source amount target]; simpl in Hop; inv_result.
    + match goal with H : debit _ _ _ = Ok _ |- _ =>
        pose proof (transfer_conserves chain _ _ target _ _ Hwf Ha Hmax H) as Hc end.
      by destruct (finish_transfer_to_account _ _ _ _); simplify_eq.
    + by eapply claim_conserves.
  - apply bind_Ok in Hr as ([res self1] & Hmsg & [= <- <- <-]).
    destruct msg as [owner amount|owner amount target]; simpl in *; inv_result.
    + simplify_eq. destruct (credit_conserves owner amount self) as [? Hh]; [done..|].
      split_and!; try done; try solve_wf; simpl; lia.
    + match goal with H : debit _ _ _ = Ok _ |- _ =>
        pose proof (transfer_conserves chain _ _ target _ _ Hwf Ha ltac:(lia) H) as Hc end.
      by destruct (finish_transfer_to_account _ _ _ _); simplify_eq.
  - apply bind_Ok in Hr as ([res self1] & Hcall & [= <- <- <-]). rewrite Z.add_0_r in Hmax.
    destruct call as [owner|owner amount destination|source amount target]; simpl in Hcall; inv_result.
    + simplify_eq. split_and!; try done; try solve_wf; simpl; lia.
    + match goal with H : debit _ _ _ = Ok _ |- _ =>
        destruct (debit_conserves _ _ _ _ Hwf Ha H) as [Hwf1 Hh] end.
      match type of Hcall with finish_transfer_to_destination _ _ _ ?s = _ =>
        pose proof (finish_destination_conserves chain amount destination s Hwf1 Ha ltac:(lia)) as Hc
          end.
      rewrite Hcall in Hc. destruct Hc as (? & ? & ? & ?). split_and!; try done. lia.
    + match goal with x : (_ * _)%type |- _ => destruct x as [m s] end. simplify_eq.
      by eapply claim_conserves.
  - apply bind_Ok in Hr as ([res self1] & Hcall & [= <- <- <-]).
    destruct request as [|amount destination]; simpl in *.
    + simplify_eq. simpl. split_and!; try done; try solve_wf; simpl; lia.
    + unfold handle_session_transfer in Hcall. inv_result.
      match goal with H : try_sub_assign _ _ = Ok _ |- _ => apply try_sub_assign_Ok in H as [-> ?] end.
      destruct Ha as [Hs Ha]. unfold in_range in Hs.
      pose proof (finish_destination_conserves chain amount destination self Hwf Ha) as Hc.
      destruct (finish_transfer_to_destination chain amount destination self) as [inner self2].
      simplify_eq. destruct Hc as (? & ? & ? & ?); [unfold in_range in Ha; lia|]. simpl.
      split_and!; try done.
      * apply Forall_app. split; [|done]. case_match; [|apply Forall_nil_2].
        apply Forall_singleton. unfold in_range in *. lia.
      * case_match; simpl; lia.
Qed.

(** ** Networks of chains *)

(** Messages are on their way with their recipient and the signer they were authenticated by. *)
Record TokenNetwork := {
  chains : gmap ChainId FungibleToken;
  flying : list (ChainId * option Owner * Message);
  open_sessions : list Amount;
}.
Definition token_on (n : TokenNetwork) (chain : ChainId) : FungibleToken :=
  default {| accounts := ∅ |} (chains n !! chain).
Definition deliver (signer : option Owner) (messages : ExecutionResult)
    : list (ChainId * option Owner * Message) :=
  omap (fun m =>
    match raw_destination m with
    | Recipient chain =>
        Some (chain, if raw_authenticated m then signer else None, raw_message m)
    | Subscribers _ => None
    end) messages.

(** A chain does something; a message is received once, and a session is replaced by those that a
    call to it leaves open. *)
Inductive token_step (n : TokenNetwork) : TokenNetwork -> Prop :=
  | step_execute chain ctx op messages sessions self :
      action_wf (Execute ctx op) ->
      apply_action chain (Execute ctx op) (token_on n chain) = Ok ((messages, sessions), self) ->
      token_step n
        {| chains := <[chain := self]> (chains n);
           flying := flying n ++ deliver (opctx_authenticated_signer ctx) messages;
           open_sessions := open_sessions n ++ sessions |}
  | step_receive chain ctx msg l1 l2 messages sessions self :
      flying n = l1 ++ (chain, msgctx_authenticated_signer ctx, msg) :: l2 ->
      apply_action chain (Receive ctx msg) (token_on n chain) = Ok ((messages, sessions), self) ->
      token_step n
        {| chains := <[chain := self]> (chains n);
           flying := l1 ++ l2 ++ deliver (msgctx_authenticated_signer ctx) messages;
           open_sessions := open_sessions n ++ sessions |}
  | step_call chain ctx call messages sessions self :
      action_wf (Call ctx call) ->
      apply_action chain (Call ctx call) (token_on n chain) = Ok ((messages, sessions), self) ->
      token_step n
        {| chains := <[chain := self]> (chains n);
           flying := flying n ++ deliver (callee_authenticated_signer ctx) messages;
           open_sessions := open_sessions n ++ sessions |}
  | step_session chain signer state request l1 l2 messages sessions self :
      open_sessions n = l1 ++ state :: l2 -> action_wf (CallSession state request) ->
      apply_action chain (CallSession state request) (token_on n chain) =
        Ok ((messages, sessions), self) ->
      token_step n
        {| chains := <[chain := self]> (chains n);
           flying := flying n ++ deliver signer messages;
           open_sessions := l1 ++ sessions ++ l2 |}.

Definition flying_value (l : list (ChainId * option Owner * Message)) : Z :=
  foldr (fun m value => message_value m.2 + value) 0 l.
Definition supply (n : TokenNetwork) : Z :=
  map_sum (holdings <$> chains n) + flying_value (flying n) + sessions_value (open_sessions n).
Record network_wf (n : TokenNetwork) : Prop := {
  chains_wf : map_Forall (fun _ => token_wf) (chains n);
  flying_wf : Forall (fun m => message_wf m.2) (flying n);
  sessions_wf : Forall (in_range u128_MAX) (open_sessions n);
}.

Lemma flying_value_app l1 l2 : flying_value (l1 ++ l2) = flying_value l1 + flying_value l2.
Proof. induction l1 as [|m l1 IH]; simpl; [done|]. rewrite IH. lia. Qed.
Lemma sessions_value_app l1 l2 : sessions_value (l1 ++ l2) = sessions_value l1 + sessions_value l2.
Proof. induction l1 as [|m l1 IH]; simpl; [done|]. rewrite IH. lia. Qed.
Lemma deliver_value signer messages :
  messages_wf messages ->
  flying_value (deliver signer messages) = messages_value messages /\
  Forall (fun m => message_wf m.2) (deliver signer messages).
Proof.
  induction 1 as [|m messages [Hwf [chain Hc]] _ [IHv IHw]]; simpl; [by split; [|constructor]|].
  rewrite Hc. simpl. split; [lia|]. by constructor.
Qed.
Lemma message_value_nonneg msg : message_wf msg -> 0 <= message_value msg.
Proof. destruct msg; simpl; unfold in_range; lia. Qed.
Lemma flying_value_nonneg l : Forall (fun m => message_wf m.2) l -> 0 <= flying_value l.
Proof. induction 1 as [|m l Hm _ IH]; simpl; [done|]. apply message_value_nonneg in Hm. lia. Qed.
Lemma sessions_value_nonneg l : Forall (in_range u128_MAX) l -> 0 <= sessions_value l.
Proof. induction 1 as [|m l Hm _ IH]; simpl; [done|]. unfold in_range in Hm. lia. Qed.

Lemma token_on_wf n chain : network_wf n -> token_wf (token_on n chain).
Proof.
  intros [Hc _ _]. unfold token_on. destruct (chains n !! chain) as [t|] eqn:Ht; simpl; [|done].
  exact (Hc _ _ Ht).
Qed.
Lemma chains_value_insert n chain self :
  map_sum (holdings <$> <[chain := self]> (chains n)) =
  map_sum (holdings <$> chains n) + holdings self - holdings (token_on n chain).
Proof.
  rewrite fmap_insert, map_sum_insert, lookup_fmap. unfold token_on.
  destruct (chains n !! chain); simpl; [lia|]. change (holdings {| accounts := ∅ |}) with 0. lia.
Qed.
Lemma holdings_le_chains n chain :
  network_wf n -> holdings (token_on n chain) <= map_sum (holdings <$> chains n).
Proof.
  intros [Hc _ _]. unfold token_on.
  assert (map_Forall (fun _ x => 0 <= x) (holdings <$> chains n)) as Hnn.
  { intros k x. rewrite lookup_fmap_Some. intros (t & <- & Ht). by apply holdings_nonneg, (Hc k). }
  destruct (chains n !! chain) as [t|] eqn:Ht; simpl.
  - eapply (map_sum_ge _ chain); [done|]. by rewrite lookup_fmap, Ht.
  - by apply map_sum_nonneg.
Qed.

(** A step of one chain, with the rest of the network. *)
Lemma network_action n n' chain action signer messages sessions self fl ss :
  network_wf n -> supply n <= u128_MAX -> action_wf action ->
  apply_action chain action (token_on n chain) = Ok ((messages, sessions), self) ->
  flying n' ≡ₚ fl ++ deliver signer messages -> open_sessions n' ≡ₚ ss ++ sessions ->
  chains n' = <[chain := self]> (chains n) ->
  Forall (fun m => message_wf m.2) fl -> Forall (in_range u128_MAX) ss ->
  flying_value fl + sessions_value ss + input_value action =
    flying_value (flying n) + sessions_value (open_sessions n) ->
  network_wf n' /\ supply n' = supply n.
Proof.
  intros Hn Hmax Ha Happ Hfl Hss Hch Hfw Hsw Hval. pose proof (token_on_wf n chain Hn) as Hwf.
  pose proof (holdings_le_chains n chain Hn) as Hle. unfold supply in *.
  pose proof (flying_value_nonneg _ Hfw). pose proof (sessions_value_nonneg _ Hsw).
  destruct (action_conserves _ _ _ _ _ _ Hwf Ha ltac:(lia) Happ) as (Hself & Hmw & Hsessions & Hcons).
  destruct (deliver_value signer messages Hmw) as [Hdv Hdw].
  assert (forall l1 l2, l1 ≡ₚ l2 -> flying_value l1 = flying_value l2) as Hfp
    by (unfold flying_value; induction 1; simpl in *; lia).
  assert (forall l1 l2, l1 ≡ₚ l2 -> sessions_value l1 = sessions_value l2) as Hsp
    by (unfold sessions_value; induction 1; simpl in *; lia).
  split.
  - destruct Hn as [Hc _ _]. split.
    + rewrite Hch. by apply map_Forall_insert_2.
    + rewrite Hfl. by apply Forall_app.
    + rewrite Hss. by apply Forall_app.
  - rewrite Hch, chains_value_insert, (Hfp _ _ Hfl), (Hsp _ _ Hss), flying_value_app,
      sessions_value_app. lia.
Qed.

Lemma token_step_conserves n n' :
  network_wf n -> supply n <= u128_MAX -> token_step n n' ->
  network_wf n' /\ supply n' = supply n.
Proof.
  intros Hn Hmax Hstep. pose proof Hn as [_ Hfw Hsw].
  destruct Hstep as [chain ctx op messages sessions self Ha Happ
    |chain ctx msg l1 l2 messages sessions self Hf Happ
    |chain ctx call messages sessions self Ha Happ
    |chain signer state request l1 l2 messages sessions self Ho Ha Happ].
  - apply (network_action n _ chain (Execute ctx op)
      (opctx_authenticated_signer ctx) messages sessions self (flying n) (open_sessions n)); try done.
    simpl. lia.
  - rewrite Hf in Hfw. apply Forall_app in Hfw as [H1 [Hm H2]%Forall_cons].
    apply (network_action n _ chain (Receive ctx msg) (msgctx_authenticated_signer ctx) messages
      sessions self (l1 ++ l2) (open_sessions n)); try done.
    + simpl. by rewrite app_assoc.
    + by apply Forall_app.
    + rewrite Hf, !flying_value_app. simpl. lia.
  - apply (network_action n _ chain (Call ctx call)
      (callee_authenticated_signer ctx) messages sessions self (flying n) (open_sessions n)); try done.
    simpl. lia.
  - rewrite Ho in Hsw. apply Forall_app in Hsw as [H1 [Hm H2]%Forall_cons].
    apply (network_action n _ chain (CallSession state request) signer messages sessions self
      (flying n) (l1 ++ l2)); try done.
    + simpl. by rewrite <- app_assoc, (Permutation_app_comm sessions l2).
    + by apply Forall_app.
    + rewrite Ho, !sessions_value_app. simpl. lia.
Qed.

(** C16: Tokens are neither created nor lost.  Through any history of operations, messages, and calls
    of applications, on any number of chains, the accounts, the messages on their way and the open
    sessions together keep the initial supply, as long as it is within 128 bits; no account ever
    holds more than that. *)
Theorem supply_conserved n n' :
  network_wf n -> supply n <= u128_MAX -> rtc token_step n n' ->
  supply n' = supply n /\ network_wf n' /\
  forall chain owner, 0 <= balance owner (token_on n' chain) <= supply n.
Proof.
  intros Hn Hmax Hsteps.
  assert (network_wf n' /\ supply n' = supply n) as [Hn' Hs].
  { induction Hsteps as [n|n n1 n2 Hstep _ IH]; [done|].
    destruct (token_step_conserves _ _ Hn Hmax Hstep) as [Hn1 Hs1].
    destruct IH as [? ?]; [done|lia|]. split; [done|lia]. }
  split_and!; try done. intros chain owner. pose proof (token_on_wf n' chain Hn') as Hwf.
  pose proof (balance_range owner _ Hwf) as [? _]. pose proof (balance_le_holdings owner _ Hwf).
  pose proof (holdings_le_chains n' chain Hn'). destruct Hn' as [_ Hf Hss].
  pose proof (flying_value_nonneg _ Hf). pose proof (sessions_value_nonneg _ Hss).
  unfold supply in *. lia.
Qed.

(** ** Authentication *)

Definition authenticates (action : Action) (owner : AccountOwner) : Prop :=
  match action, owner with
  | Execute ctx _, User address => opctx_authenticated_signer ctx = Some address
  | Receive ctx _, User address => msgctx_authenticated_signer ctx = Some address
  | Call ctx _, User address => callee_authenticated_signer ctx = Some address
  | Call ctx _, Application id => callee_authenticated_caller_id ctx = Some id
  | _, _ => False
  end.

Lemma check_authentication_Ok app signer owner u :
  check_account_authentication app signer owner = Ok u ->
  match owner with User address => signer = Some address | Application id => app = Some id end.
Proof. destruct owner; simpl; by intros ?%ensure_Ok%bool_decide_eq_true. Qed.

Lemma balance_debit account amount self self' owner :
  debit account amount self = Ok self' -> owner <> account -> balance owner self' = balance owner self.
Proof.
  intros [_ Heq]%debit_Ok Hne. unfold balance. rewrite Heq. by rewrite lookup_insert_ne.
Qed.
Lemma balance_credit account amount self owner :
  token_wf self -> in_range u128_MAX amount ->
  balance owner self <= balance owner (credit account amount self).
Proof.
  intros Hwf Ha. pose proof (balance_range account self Hwf) as Hb. unfold in_range in *.
  unfold credit, saturating_add_assign, saturating_add. unfold balance at 2. simpl.
  destruct (decide (account = owner)) as [->|Hne].
  - rewrite lookup_insert_eq. simpl. lia.
  - by rewrite lookup_insert_ne.
Qed.
Lemma balance_finish_account chain amount account self owner :
  token_wf self -> in_range u128_MAX amount ->
  balance owner self <= balance owner (finish_transfer_to_account chain amount account self).2.
Proof.
  intros Hwf Ha. unfold finish_transfer_to_account. case_match; simpl; [|done].
  by apply balance_credit.
Qed.
Lemma balance_finish_destination chain amount destination self owner :
  token_wf self -> in_range u128_MAX amount ->
  balance owner self <=
  balance owner (finish_transfer_to_destination chain amount destination self).2.
Proof.
  intros Hwf Ha. unfold finish_transfer_to_destination. destruct destination as [account|]; [|done].
  pose proof (balance_finish_account chain amount account self owner Hwf Ha) as Hb.
  by destruct (finish_transfer_to_account chain amount account self).
Qed.

(** A debit that lowers a balance is one of this account. *)
Lemma debit_lowers account amount self self1 self' owner :
  token_wf self -> in_range u128_MAX amount -> debit account amount self = Ok self1 ->
  balance owner self1 <= balance owner self' -> balance owner self' < balance owner self ->
  owner = account.
Proof.
  intros Hwf Ha Hd Hle Hlt. destruct (decide (owner = account)) as [|Hne]; [done|].
  pose proof (balance_debit _ _ _ _ _ Hd Hne). lia.
Qed.
Lemma claim_lowers chain source amount target self messages self' owner :
  token_wf self -> in_range u128_MAX amount ->
  claim chain source amount target self = Ok (messages, self') ->
  balance owner self' < balance owner self -> owner = owner_of source.
Proof.
  intros Hwf Ha. unfold claim. case_match; [|intros [= <- <-]; lia].
  intros (self1 & Hd & [= Heq])%bind_Ok. destruct (debit_conserves _ _ _ _ Hwf Ha Hd) as [Hwf1 _].
  pose proof (balance_finish_account chain amount target self1 owner Hwf1 Ha) as Hle.
  rewrite Heq in Hle. by eapply debit_lowers.
Qed.

Lemma debits_authenticated chain action self messages sessions self' owner :
  token_wf self -> action_wf action ->
  apply_action chain action self = Ok ((messages, sessions), self') ->
  balance owner self' < balance owner self -> authenticates action owner.
Proof.
  intros Hwf Ha Hr Hlt.
  assert (forall app signer acc amount self1, in_range u128_MAX amount ->
    check_account_authentication app signer acc = Ok () -> debit acc amount self = Ok self1 ->
    balance owner self1 <= balance owner self' ->
    match owner with User a => signer = Some a | Application id => app = Some id end) as Hcase.
  { intros app signer acc amount self1 Hin Hc Hd Hle. apply check_authentication_Ok in Hc.
    by rewrite (debit_lowers _ _ _ _ _ owner Hwf Hin Hd Hle Hlt). }
  destruct action as [ctx op|ctx msg|ctx call|state request]; simpl in *.
  - apply bind_Ok in Hr as ([res self1] & Hop & [= <- <- <-]).
    destruct op as [acc amount target|source amount target]; simpl in Hop; inv_result.
    + match goal with H : debit _ _ _ = Ok ?s |- _ =>
        destruct (debit_conserves _ _ _ _ Hwf Ha H) as [Hwf1 _];
        pose proof (balance_finish_account chain amount target s owner Hwf1 Ha) as Hle end.
      rewrite Hop in Hle. pose proof (Hcase _ _ _ _ _ Ha H H0 Hle). by destruct owner.
    + apply (claim_lowers _ _ _ _ _ _ _ owner) in Hop; [|done..]. apply check_authentication_Ok in H.
      subst. by destruct (owner_of source).
  - apply bind_Ok in Hr as ([res self1] & Hmsg & [= <- <- <-]).
    destruct msg as [acc amount|acc amount target]; simpl in *; inv_result.
    + simplify_eq. pose proof (balance_credit acc amount self owner Hwf Ha). lia.
    + match goal with H : debit _ _ _ = Ok ?s |- _ =>
        destruct (debit_conserves _ _ _ _ Hwf Ha H) as [Hwf1 _];
        pose proof (balance_finish_account chain amount target s owner Hwf1 Ha) as Hle end.
      rewrite Hmsg in Hle. pose proof (Hcase _ _ _ _ _ Ha H H0 Hle). by destruct owner.
  - apply bind_Ok in Hr as ([res self1] & Hcall & [= <- <- <-]).
    destruct call as [acc|acc amount destination|source amount target]; simpl in *; inv_result.
    + simplify_eq. lia.
    + match goal with H : debit _ _ _ = Ok ?s |- _ =>
        destruct (debit_conserves _ _ _ _ Hwf Ha H) as [Hwf1 _];
        pose proof (balance_finish_destination chain amount destination s owner Hwf1 Ha) as Hle end.
      rewrite Hcall in Hle. pose proof (Hcase _ _ _ _ _ Ha H H0 Hle). by destruct owner.
    + match goal with x : (_ * _)%type |- _ => destruct x as [m s] end. simplify_eq.
      apply (claim_lowers _ _ _ _ _ _ _ owner) in H0; [|done..]. apply check_authentication_Ok in H.
      subst. by destruct (owner_of source).
  - apply bind_Ok in Hr as ([res self1] & Hcall & [= <- <- <-]).
    destruct request as [|amount destination]; simpl in *; [simplify_eq; lia|].
    unfold handle_session_transfer in Hcall. inv_result. destruct Ha as [_ Ha].
    pose proof (balance_finish_destination chain amount destination self owner Hwf Ha) as Hle.
    destruct (finish_transfer_to_destination chain amount destination self). simplify_eq.
    simpl in Hle. lia.
Qed.

(** Only the owner spends.  When a step of the network lowers the balance of an account on a chain,
    then this chain executed an action that is authenticated by its owner: for a user, a transaction
    or message with their signature, or a call in one; for an application, a call that this
    application made.  Spending a session lowers no balance. *)
Theorem only_owner_debits n n' chain owner :
  network_wf n -> token_step n n' ->
  balance owner (token_on n' chain) < balance owner (token_on n chain) ->
  exists action messages sessions,
    apply_action chain action (token_on n chain) = Ok ((messages, sessions), token_on n' chain) /\
    authenticates action owner.
Proof.
  intros Hn Hstep Hlt. pose proof (token_on_wf n chain Hn) as Hwf.
  assert (forall chain' action messages sessions self fl ss, action_wf action ->
    apply_action chain' action (token_on n chain') = Ok ((messages, sessions), self) ->
    n' = {| chains := <[chain' := self]> (chains n); flying := fl; open_sessions := ss |} ->
    exists action messages sessions,
    apply_action chain action (token_on n chain) = Ok ((messages, sessions), token_on n' chain) /\
    authenticates action owner) as Hcase.
  { intros chain' action messages sessions self fl ss Ha Happ ->. unfold token_on in Hlt at 1.
    simpl in Hlt.
    destruct (decide (chain' = chain)) as [->|Hne].
    - rewrite lookup_insert_eq in Hlt. exists action, messages, sessions. unfold token_on at 2. simpl.
      rewrite lookup_insert_eq. split; [done|]. by eapply debits_authenticated.
    - rewrite lookup_insert_ne in Hlt by done. unfold token_on in Hlt. lia. }
  destruct Hstep as [chain' ctx op messages sessions self Ha Happ
    |chain' ctx msg l1 l2 messages sessions self Hf Happ
    |chain' ctx call messages sessions self Ha Happ
    |chain' signer state request l1 l2 messages sessions self Ho Ha Happ]; try by eapply Hcase.
  eapply Hcase; [|done..]. destruct Hn as [_ Hfw _]. rewrite Hf in Hfw.
  by apply Forall_app in Hfw as [_ [Hm _]%Forall_cons].
Qed.

Module FungibleExamples.

Definition token0 : FungibleToken := {| accounts := {[ User 1 := 100 ]} |}.
Definition network0 : TokenNetwork :=
  {| chains := {[ 0 := token0 ]}; flying := []; open_sessions := [] |}.
Definition signed_by_1 : OperationContext :=
  {| opctx_chain_id := 0; opctx_authenticated_signer := Some 1; opctx_height := 0;
     opctx_index := 0; opctx_next_message_index := 0 |}.
Definition sent : TokenNetwork :=
  {| chains := <[0 := {| accounts := {[ User 1 := 70 ]} |}]> {[ 0 := token0 ]};
     flying := [] ++ [(1, None, Credit (User 2) 30)]; open_sessions := [] ++ [] |}.
Definition to_2 : Account := {| account_chain := 1; owner_of := User 2 |}.

Lemma network0_wf : network_wf network0.
Proof.
  split; [|constructor..]. apply map_Forall_singleton, map_Forall_singleton. by split; vm_compute.
Qed.
Lemma transfer_step : token_step network0 sent.
Proof.
  apply (step_execute network0 0 signed_by_1 (OpTransfer (User 1) 30 to_2)
    (with_message false 1 (Credit (User 2) 30)) [] {| accounts := {[ User 1 := 70 ]} |}).
  - by split; vm_compute.
  - vm_compute. reflexivity.
Qed.

Lemma supply_conserved_witness : supply sent = supply network0 /\ supply network0 = 100.
Proof.
  split; [|by vm_compute].
  destruct (supply_conserved network0 sent network0_wf) as [Hs _];
    [by apply Z.leb_le; vm_compute|exact (rtc_once _ _ transfer_step)|exact Hs].
Defined.

Lemma only_owner_debits_witness :
  exists action messages sessions,
    apply_action 0 action (token_on network0 0) = Ok ((messages, sessions), token_on sent 0) /\
    authenticates action (User 1).
Proof.
  apply (only_owner_debits network0 sent 0 (User 1) network0_wf transfer_step).
  apply Z.ltb_lt. vm_compute. reflexivity.
Defined.

End FungibleExamples.
