(* ===== verification/TokenCalls.v ===== *)
(** * Calls to token applications

    How the example applications use tokens: on the chain and in the transaction that they run in,
    an application calls token applications ([call_application] of [linera-sdk]) with itself as the
    authenticated caller, and the transaction fails if a call fails.  The lemmas say when a transfer
    within the chain succeeds and what it does to the balances of all accounts. *)

From S2P Require Import Prelude Numbers Types Runtime Fungible.

(** Where an application runs: the system API and the context of the transaction. *)
Record Env := {
  current_chain_id : ChainId;
  current_application_id : UserApplicationId;
  authenticated_signer : option Owner;
  current_system_time : Timestamp;
}.
(** The chain that the application was created on. *)
Definition creation_chain (env : Env) : ChainId :=
  mid_chain_id (app_creation (current_application_id env)).
Definition application_account (env : Env) : AccountOwner := Application (current_application_id env).

(** The states of the token applications on the chain, and the messages they sent. *)
Record Tokens := {
  token_states : gmap UserApplicationId FungibleToken;
  token_messages : list (UserApplicationId * RawOutgoingMessage Message);
}.
Definition token_state (tokens : Tokens) (id : UserApplicationId) : FungibleToken :=
  default {| accounts := ∅ |} (token_states tokens !! id).

Definition callee (env : Env) : CalleeContext :=
  {| callee_chain_id := current_chain_id env;
     callee_authenticated_signer := authenticated_signer env;
     callee_authenticated_caller_id := Some (current_application_id env) |}.

(** [call_application(true, token, call, vec![])]: no sessions are forwarded, and the sessions that
    a call creates are returned. *)
Definition call_application (env : Env) (token : UserApplicationId) (call : ApplicationCall)
    (tokens : Tokens) : result Error (Amount * list Amount * Tokens) :=
  '(result, self) ← handle_application_call (current_chain_id env) (callee env) call
    (token_state tokens token);
  Ok (call_value result, create_sessions result,
      {| token_states := <[token := self]> (token_states tokens);
         token_messages := token_messages tokens ++ ((fun m => (token, m)) <$> call_result result) |}).

(** The balance of an account. *)
Definition balance_of (tokens : Tokens) (token : UserApplicationId) (owner : AccountOwner) : Amount :=
  balance owner (token_state tokens token).

(** A transfer within the chain, as the applications make them. *)
Definition local_transfer (env : Env) (token : UserApplicationId) (source target : AccountOwner)
    (amount : Amount) (tokens : Tokens) : result Error Tokens :=
  '(_, _, tokens) ← call_application env token
    (Transfer source amount
       (ToAccount {| account_chain := current_chain_id env; owner_of := target |})) tokens;
  Ok tokens.

(** The account may be debited in this environment. *)
Definition may_spend (env : Env) (owner : AccountOwner) : Prop :=
  match owner with
  | User address => authenticated_signer env = Some address
  | Application id => id = current_application_id env
  end.

(** Amounts and supplies are within 128 bits. *)
Definition tokens_wf (tokens : Tokens) : Prop :=
  forall token, token_wf (token_state tokens token) /\
    holdings (token_state tokens token) <= u128_MAX.

(** What moving [amount] from one account to another does to balances. *)
Definition moved (token : UserApplicationId) (source target : AccountOwner) (amount : Amount)
    (tokens tokens' : Tokens) : Prop :=
  forall token' owner,
    balance_of tokens' token' owner =
    balance_of tokens token' owner
    + (if decide (token' = token /\ owner = target) then amount else 0)
    - (if decide (token' = token /\ owner = source) then amount else 0).

Lemma token_state_insert id self messages tokens id' :
  token_state {| token_states := <[id := self]> (token_states tokens); token_messages :=
    messages |} id' =
  if decide (id' = id) then self else token_state tokens id'.
Proof.
  unfold token_state. simpl. case_decide; subst; [by rewrite lookup_insert_eq|].
  by rewrite lookup_insert_ne.
Qed.

Lemma balance_debit_credit source target amount self self1 owner :
  token_wf self -> in_range u128_MAX amount -> holdings self <= u128_MAX ->
  debit source amount self = Ok self1 ->
  balance owner (credit target amount self1) =
  balance owner self + (if decide (owner = target) then amount else 0)
  - (if decide (owner = source) then amount else 0).
Proof.
  intros Hwf Ha Hmax Hd. pose proof (debit_conserves _ _ _ _ Hwf Ha Hd) as [Hwf1 Hh].
  apply debit_Ok in Hd as [Hle Heq].
  pose proof (balance_le_holdings target self1 Hwf1).
  pose proof (balance_range target self1 Hwf1) as [? _].
  unfold credit, saturating_add_assign, saturating_add. rewrite Z.min_r by (unfold in_range in Ha; lia).
  assert (forall o, balance o self1 = balance o self - (if decide (o =
    source) then amount else 0)) as Hb1.
  { intros o. unfold balance. rewrite Heq. case_decide; subst.
    - by rewrite lookup_insert_eq.
    - rewrite lookup_insert_ne by done. lia. }
  unfold balance at 1. simpl. destruct (decide (owner = target)) as [->|Hne].
  - rewrite lookup_insert_eq. simpl. rewrite Hb1. lia.
  - rewrite lookup_insert_ne by done. fold (balance owner self1). rewrite Hb1. lia.
Qed.

Section transfers.
Context (env : Env) (token : UserApplicationId) (source target : AccountOwner) (amount : Amount).
Context (amount_ok : in_range u128_MAX amount).

Lemma local_transfer_eq tokens :
  local_transfer env token source target amount tokens =
  (check_account_authentication (Some (current_application_id env)) (authenticated_signer env)
     source;;
   self ← debit source amount (token_state tokens token);
   Ok {| token_states := <[token := credit target amount self]> (token_states tokens);
         token_messages := token_messages tokens |}).
Proof.
  unfold local_transfer, call_application. simpl.
  destruct (check_account_authentication _ _ _); simpl; [|done..].
  destruct (debit source amount (token_state tokens token)); simpl; [|done..].
  unfold finish_transfer_to_account. simpl. rewrite Z.eqb_refl. simpl. by rewrite app_nil_r.
Qed.

Lemma local_transfer_Ok tokens tokens' :
  tokens_wf tokens -> local_transfer env token source target amount tokens = Ok tokens' ->
  tokens_wf tokens' /\ moved token source target amount tokens tokens' /\
  amount <= balance_of tokens token source /\ may_spend env source /\
  token_messages tokens' = token_messages tokens.
Proof.
  intros Hwf. rewrite local_transfer_eq. intros Ht. inv_result. subst tokens'.
  destruct (Hwf token) as [Ht Hh].
  match goal with H : debit _ _ _ = Ok ?s |- _ =>
    pose proof (debit_conserves _ _ _ _ Ht amount_ok H) as [Hwf1 Hh1];
    pose proof (fun o => balance_debit_credit source target amount _ _ o Ht amount_ok Hh H) as Hb;
    pose proof (debit_Ok _ _ _ _ H) as [Hle _];
    destruct (credit_conserves target amount s Hwf1 amount_ok ltac:(lia)) as [Hwf2 Hh2] end.
  split_and!; [| |done| |done].
  - intros id. rewrite token_state_insert. case_decide; [|apply Hwf]. split; [done|lia].
  - intros id owner. unfold balance_of. rewrite token_state_insert. case_decide as Hid.
    + subst id. rewrite Hb. do 2 (case_decide; case_decide; try tauto); lia.
    + rewrite !decide_False by tauto. lia.
  - match goal with H : check_account_authentication _ _ _ = Ok _ |- _ =>
      apply check_authentication_Ok in H end.
    destruct source; simpl in *; congruence.
Qed.

Lemma local_transfer_holdings tokens tokens' :
  tokens_wf tokens -> local_transfer env token source target amount tokens = Ok tokens' ->
  forall id, holdings (token_state tokens' id) = holdings (token_state tokens id).
Proof.
  intros Hwf. rewrite local_transfer_eq. intros Ht id. inv_result. subst tokens'.
  destruct (Hwf token) as [Ht Hh].
  match goal with H : debit _ _ _ = Ok ?s |- _ =>
    pose proof (debit_conserves _ _ _ _ Ht amount_ok H) as [Hwf1 Hh1];
    destruct (credit_conserves target amount s Hwf1 amount_ok ltac:(lia)) as [Hwf2 Hh2] end.
  rewrite token_state_insert. case_decide; subst; [lia|done].
Qed.

Lemma local_transfer_succeeds tokens :
  may_spend env source -> amount <= balance_of tokens token source ->
  exists tokens', local_transfer env token source target amount tokens = Ok tokens'.
Proof.
  intros Hspend Hle. rewrite local_transfer_eq.
  assert (check_account_authentication (Some (current_application_id env))
    (authenticated_signer env) source = Ok ()) as ->.
  { destruct source; simpl in *; subst; by rewrite bool_decide_true. }
  cbn [mbind result_bind]. unfold debit. unfold balance_of in Hle.
  rewrite (proj2 (try_sub_assign_Ok _ _ _) (conj eq_refl Hle)). cbn. by eexists.
Qed.
End transfers.

(** Balances after a transfer, in the cases that clients meet. *)
Lemma moved_other token source target amount tokens tokens' token' owner :
  moved token source target amount tokens tokens' ->
  token' <> token \/ (owner <> source /\ owner <> target) ->
  balance_of tokens' token' owner = balance_of tokens token' owner.
Proof. intros Hm Hne. rewrite Hm, !decide_False by naive_solver. lia. Qed.
Lemma moved_source token source target amount tokens tokens' :
  moved token source target amount tokens tokens' -> source <> target ->
  balance_of tokens' token source = balance_of tokens token source - amount.
Proof. intros Hm Hne. rewrite Hm, decide_False, decide_True by naive_solver. lia. Qed.
Lemma moved_target token source target amount tokens tokens' :
  moved token source target amount tokens tokens' -> source <> target ->
  balance_of tokens' token target = balance_of tokens token target + amount.
Proof. intros Hm Hne. rewrite Hm, decide_True, decide_False by naive_solver. lia. Qed.
Lemma moved_self token source amount tokens tokens' token' owner :
  moved token source source amount tokens tokens' ->
  balance_of tokens' token' owner = balance_of tokens token' owner.
Proof. intros Hm. rewrite Hm. lia. Qed.

(** ** Queries *)

(** The state of a token that was called and did not change. *)
Definition touched (token : UserApplicationId) (tokens : Tokens) : Tokens :=
  {| token_states := <[token := token_state tokens token]> (token_states tokens);
     token_messages := token_messages tokens |}.
Lemma balance_call env token owner tokens :
  call_application env token (Balance owner) tokens =
  Ok (balance_of tokens token owner, [], touched token tokens).
Proof. unfold call_application. simpl. by rewrite app_nil_r. Qed.
Lemma token_state_touched token tokens id : token_state (touched token tokens) id =
  token_state tokens id.
Proof. unfold touched. rewrite token_state_insert. by case_decide; subst. Qed.
Lemma balance_touched token tokens id owner :
  balance_of (touched token tokens) id owner = balance_of tokens id owner.
Proof. unfold balance_of. by rewrite token_state_touched. Qed.
Lemma touched_wf token tokens : tokens_wf tokens -> tokens_wf (touched token tokens).
Proof. intros Hwf id. rewrite token_state_touched. apply Hwf. Qed.

(** ** What others do *)

(** Anything that happens with the tokens and that the owner of an account [me] did not authenticate,
    within the supplies. *)
Inductive foreign (me : AccountOwner) (tokens : Tokens) : Tokens -> Prop :=
  | foreign_action token chain action result sessions self' messages :
      apply_action chain action (token_state tokens token) = Ok ((result, sessions), self') ->
      action_wf action -> ~ authenticates action me ->
      holdings (token_state tokens token) + input_value action <= u128_MAX ->
      foreign me tokens {| token_states := <[token := self']> (token_states tokens);
                           token_messages := messages |}.

(** It takes nothing from the account. *)
Lemma foreign_keeps me tokens tokens' :
  tokens_wf tokens -> foreign me tokens tokens' ->
  tokens_wf tokens' /\ forall token, balance_of tokens token me <= balance_of tokens' token me.
Proof.
  intros Hwf. destruct 1 as [token chain action result sessions self' messages Happ Ha Hauth Hmax].
  destruct (Hwf token) as [Ht Hh].
  destruct (action_conserves _ _ _ _ _ _ Ht Ha Hmax Happ) as (Ht' & Hmw & Hsw & Hc).
  pose proof (proj1 (deliver_value None result Hmw)) as Hd.
  pose proof (flying_value_nonneg _ (proj2 (deliver_value None result Hmw))).
  pose proof (sessions_value_nonneg _ Hsw). split.
  - intros id. rewrite token_state_insert. case_decide; [|apply Hwf]. split; [done|lia].
  - intros id. unfold balance_of. rewrite token_state_insert. case_decide as Hid; [subst id|done].
    destruct (Z.lt_ge_cases (balance me self') (balance me (token_state tokens token))) as [Hlt|Hge];
      [|lia].
    destruct Hauth. exact (debits_authenticated _ _ _ _ _ _ _ Ht Ha Happ Hlt).
Qed.

(** ** Applications for examples *)

Module TokenExamples.

Definition app_id (i : Z) : UserApplicationId :=
  {| app_bytecode_id :=
       {| bytecode_message_id := {| mid_chain_id := 0; mid_height := 0; mid_index := 0 |} |};
     app_creation := {| mid_chain_id := 0; mid_height := 0; mid_index := i |} |}.
Definition app : UserApplicationId := app_id 0.
Definition apples : UserApplicationId := app_id 1.
Definition coins : UserApplicationId := app_id 2.
Definition signed_at (signer : option Owner) (time : Timestamp) : Env :=
  {| current_chain_id := 0; current_application_id := app; authenticated_signer := signer;
     current_system_time := time |}.
Definition signed (signer : option Owner) : Env := signed_at signer 0.
Definition owning (coin_accounts apple_accounts : gmap AccountOwner Amount) : Tokens :=
  {| token_states := {[ coins := {| accounts := coin_accounts |};
                        apples := {| accounts := apple_accounts |} ]};
     token_messages := [] |}.

Lemma tokens_differ : coins <> apples.
Proof. discriminate. Qed.

Definition accounts_ok (m : gmap AccountOwner Amount) : bool :=
  bool_decide (map_Forall (fun _ amount => 0 <= amount <= u128_MAX) m) && (map_sum m <=? u128_MAX).
Lemma accounts_ok_spec m :
  accounts_ok m = true -> token_wf {| accounts := m |} /\ holdings {| accounts := m |} <= u128_MAX.
Proof. unfold accounts_ok. by intros [?%bool_decide_eq_true ?%Z.leb_le]%andb_true_iff. Qed.
Lemma owning_wf m1 m2 : accounts_ok m1 = true -> accounts_ok m2 = true -> tokens_wf (owning m1 m2).
Proof.
  intros H1%accounts_ok_spec H2%accounts_ok_spec token. unfold token_state. cbn [owning token_states].
  destruct (decide (token = coins)) as [->|Hc]; [by rewrite lookup_insert_eq|].
  rewrite lookup_insert_ne by done.
  destruct (decide (token = apples)) as [->|Ha]; [by rewrite lookup_singleton_eq|].
  rewrite lookup_singleton_ne by done. split; [by apply map_Forall_empty|done].
Qed.

End TokenExamples.
