(* ===== verification/MatchingEngine.v ===== *)
(** * A matching engine

    The example application [examples/matching-engine]: an order book for two tokens.  Bids buy
    token 1 and are paid in token 0, asks sell token 1.  The tokens of an order are moved to the
    account of the engine when it is inserted ([execute_order_local]); it is matched with the
    orders of the other side, best price first and oldest first, and what is left waits in the
    book ([insert_and_uncross_market]).  Orders can be cancelled in whole or in part.

    The theorems are on the custody of the engine: it has what its book promises, exactly
    ([engine_solvent]); the book is never crossed ([book_uncrossed]); and every order that waits
    can be cancelled and is paid back ([cancel_pays_back]).  At the end are states in which the
    engine does what it should not. *)

From S2P Require Import Prelude Numbers Types Runtime Fungible TokenCalls.

(** ** Data *)

Notation Price := Z (only parsing).
Notation OrderId := Z (only parsing).

Inductive OrderNature := Bid | Ask.
#[export] Instance OrderNature_eq_dec : EqDecision OrderNature.
Proof. solve_decision. Defined.

Inductive Order :=
| Insert (owner : AccountOwner) (amount : Amount) (nature : OrderNature) (price : Price)
| Cancel (owner : AccountOwner) (order_id : OrderId)
| Modify (owner : AccountOwner) (order_id : OrderId) (cancel_amount : Amount).

Record OrderEntry := {
  order_amount : Amount;
  order_owner : AccountOwner;
  order_id : OrderId;
}.
Record EngineTransfer := {
  transfer_owner : AccountOwner;
  transfer_amount : Amount;
  token_idx : nat;
}.
Record KeyBook := {
  kb_price : Price;
  kb_nature : OrderNature;
  kb_owner : AccountOwner;
}.

(** The bids are stored by the complement of the price, so that the best price comes first. *)
Record MatchingEngine := {
  next_order_number : OrderId;
  bids : gmap Z (list OrderEntry);
  asks : gmap Z (list OrderEntry);
  orders : gmap OrderId KeyBook;
  account_info : gmap AccountOwner (gset OrderId);
}.

Inductive MatchingEngineError :=
| MatchingEngineChainOnly
| TooLargeModifyOrder
| OrderNotPresent
| WrongOwnerOfOrder
| SessionsNotSupported
| CallFailed (e : Error).

Inductive ModifyAmount :=
| All
| Partial (amount : Amount).

Definition revert (price : Price) : Price := u64_MAX - price.

Definition product_price_amount (price : Price) (count : Amount) : result MatchingEngineError Amount :=
  match try_mul u128_MAX count price with Ok amount => Ok amount | _ => Panic end.

(** [Iterator::take_while]. *)
Fixpoint take_while {A} (f : A -> bool) (l : list A) : list A :=
  match l with
  | [] => []
  | a :: l => if f a then a :: take_while f l else []
  end.

(** ** Levels *)

(** The orders of size zero at the front are removed. *)
Definition remove_zero_orders_from_level (queue : list OrderEntry) : list OrderEntry :=
  let n_remove := length (take_while (fun order => order_amount order =? 0) queue) in
  drop n_remove queue.

Definition set_amount (order : OrderEntry) (amount : Amount) : OrderEntry :=
  {| order_amount := amount; order_owner := order_owner order; order_id := order_id order |}.

Definition modify_order_level (queue : list OrderEntry) (id : OrderId) (cancel_amount : ModifyAmount)
    : result MatchingEngineError ((Amount * bool) * list OrderEntry) :=
  '(i, state_order) ← ok_or (list_find (fun order => order_id order = id) queue) OrderNotPresent;
  new_amount ←
    match cancel_amount with
    | All => Ok 0
    | Partial cancel_amount =>
        if order_amount state_order <? cancel_amount then Err TooLargeModifyOrder
        else expect (checked_sub (order_amount state_order) cancel_amount)
    end;
  corr_cancel_amount ← expect (checked_sub (order_amount state_order) new_amount);
  let queue := <[i := set_amount state_order new_amount]> queue in
  Ok ((corr_cancel_amount, new_amount =? 0), remove_zero_orders_from_level queue).

Definition get_transfers (nature : OrderNature) (fill : Amount) (owner : AccountOwner)
    (order_level : OrderEntry) (price_level price_insert : Price)
    : result MatchingEngineError (list EngineTransfer) :=
  match nature with
  | Bid =>
      assertion (price_level <=? price_insert);;
      fill0 ← product_price_amount price_insert fill;
      Ok [{| transfer_owner := owner; transfer_amount := fill; token_idx := 1 |};
          {| transfer_owner := order_owner order_level; transfer_amount := fill0; token_idx := 0 |}]
  | Ask =>
      assertion (price_insert <=? price_level);;
      fill0 ← product_price_amount price_insert fill;
      let transfers :=
        [{| transfer_owner := order_owner order_level; transfer_amount := fill; token_idx := 1 |};
         {| transfer_owner := owner; transfer_amount := fill0; token_idx := 0 |}] in
      if negb (price_level =? price_insert) then
        fill0 ← product_price_amount (price_level - price_insert) fill;
        Ok (transfers ++ [{| transfer_owner := order_owner order_level; transfer_amount := fill0;
                             token_idx := 0 |}])
      else Ok transfers
  end.

(** What the loops of a match change: the amount left, the transfers and the filled orders. *)
Record Progress := {
  left_amount : Amount;
  transfers : list EngineTransfer;
  filled : list (AccountOwner * OrderId);
}.

Fixpoint level_loop (nature : OrderNature) (owner : AccountOwner) (price_level price_insert : Price)
    (queue : list OrderEntry) (p : Progress)
    : result MatchingEngineError (list OrderEntry * Progress) :=
  match queue with
  | [] => Ok ([], p)
  | order :: rest =>
      let fill := Z.min (order_amount order) (left_amount p) in
      amount ← expect (checked_sub (left_amount p) fill);
      order_left ← expect (checked_sub (order_amount order) fill);
      let order := set_amount order order_left in
      new ← (if 0 <? fill then get_transfers nature fill owner order price_level price_insert
             else Ok []);
      let p :=
        {| left_amount := amount; transfers := transfers p ++ new;
           filled := if order_left =? 0 then filled p ++ [(order_owner order, order_id order)]
                     else filled p |} in
      if amount =? 0 then Ok (order :: rest, p)
      else
        '(rest, p) ← level_loop nature owner price_level price_insert rest p;
        Ok (order :: rest, p)
  end.

Definition level_clearing (nature : OrderNature) (owner : AccountOwner)
    (price_level price_insert : Price) (queue : list OrderEntry) (p : Progress)
    : result MatchingEngineError (list OrderEntry * Progress) :=
  '(queue, p) ← level_loop nature owner price_level price_insert queue p;
  Ok (remove_zero_orders_from_level queue, p).

(** ** The book *)

Definition insert_order (owner : AccountOwner) (nature : OrderNature) (id : OrderId) (price : Price)
    (self : MatchingEngine) : MatchingEngine :=
  {| next_order_number := next_order_number self; bids := bids self; asks := asks self;
     orders := <[id := {| kb_price := price; kb_nature := nature; kb_owner := owner |}]> (orders self);
     account_info :=
       <[owner := {[id]} ∪ default ∅ (account_info self !! owner)]> (account_info self) |}.

Definition remove_order_id (entry : AccountOwner * OrderId) (info : gmap AccountOwner (gset OrderId))
    : result MatchingEngineError (gmap AccountOwner (gset OrderId)) :=
  ids ← expect (info !! entry.1);
  Ok (<[entry.1 := ids ∖ {[entry.2]}]> info).
Definition remove_order_ids (entries : list (AccountOwner * OrderId))
    (info : gmap AccountOwner (gset OrderId))
    : result MatchingEngineError (gmap AccountOwner (gset OrderId)) :=
  for_each remove_order_id entries info.

Definition get_new_order_id (self : MatchingEngine) : OrderId * MatchingEngine :=
  (next_order_number self,
   {| next_order_number := (next_order_number self + 1) mod 2 ^ 64; bids := bids self;
      asks := asks self; orders := orders self; account_info := account_info self |}).

Definition set_book (nature : OrderNature) (book : gmap Z (list OrderEntry)) (self : MatchingEngine)
    : MatchingEngine :=
  {| next_order_number := next_order_number self;
     bids := match nature with Bid => book | Ask => bids self end;
     asks := match nature with Bid => asks self | Ask => book end;
     orders := orders self; account_info := account_info self |}.
Definition set_info (info : gmap AccountOwner (gset OrderId)) (self : MatchingEngine)
    : MatchingEngine :=
  {| next_order_number := next_order_number self; bids := bids self; asks := asks self;
     orders := orders self; account_info := info |}.

(** The side of the book with the orders of a nature, and where a price is in it. *)
Definition book_of (nature : OrderNature) (self : MatchingEngine) : gmap Z (list OrderEntry) :=
  match nature with Bid => bids self | Ask => asks self end.
Definition level_key (nature : OrderNature) (price : Price) : Z :=
  match nature with Bid => revert price | Ask => price end.
Definition opposite (nature : OrderNature) : OrderNature :=
  match nature with Bid => Ask | Ask => Bid end.

(** [for_each_index_while]: the levels of the other side that match, from the best one. *)
Definition matching_prices (nature : OrderNature) (price : Price) (self : MatchingEngine)
    : list Price :=
  level_key (opposite nature) <$>
    take_while (fun key => key <=? level_key (opposite nature) price)
      (btree_iter (book_of (opposite nature) self)).*1.

Fixpoint clear_levels (nature : OrderNature) (owner : AccountOwner) (price_insert : Price)
    (prices : list Price) (amount : Amount) (ts : list EngineTransfer) (self : MatchingEngine)
    : result MatchingEngineError ((Amount * list EngineTransfer) * MatchingEngine) :=
  match prices with
  | [] => Ok ((amount, ts), self)
  | price_level :: prices =>
      let side := opposite nature in
      let key := level_key side price_level in
      '(queue, p) ← level_clearing nature owner price_level price_insert
        (default [] (book_of side self !! key))
        {| left_amount := amount; transfers := ts; filled := [] |};
      let book := <[key := queue]> (book_of side self) in
      let book := if (length queue =? 0)%nat then delete key book else book in
      info ← remove_order_ids (filled p) (account_info self);
      let self := set_info info (set_book side book self) in
      if left_amount p =? 0 then Ok ((left_amount p, transfers p), self)
      else
        clear_levels nature owner price_insert prices (left_amount p) (transfers p) self
  end.

Definition insert_and_uncross_market (owner : AccountOwner) (amount : Amount) (nature : OrderNature)
    (price : Price) (self : MatchingEngine)
    : result MatchingEngineError (list EngineTransfer * MatchingEngine) :=
  let '(id, self) := get_new_order_id self in
  '(final_amount, transfers, self) ←
    clear_levels nature owner price (matching_prices nature price self) amount [] self;
  if negb (final_amount =? 0) then
    let key := level_key nature price in
    let order := {| order_amount := final_amount; order_owner := owner; order_id := id |} in
    let queue := default [] (book_of nature self !! key) ++ [order] in
    let self := set_book nature (<[key := queue]> (book_of nature self)) self in
    Ok (transfers, insert_order owner nature id price self)
  else Ok (transfers, self).

Definition modify_order (id : OrderId) (cancel_amount : ModifyAmount) (self : MatchingEngine)
    : result MatchingEngineError (EngineTransfer * MatchingEngine) :=
  key_book ← ok_or (orders self !! id) OrderNotPresent;
  let nature := kb_nature key_book in
  let key := level_key nature (kb_price key_book) in
  '(cancel_amount, remove, queue) ←
    modify_order_level (default [] (book_of nature self !! key)) id cancel_amount;
  let self := set_book nature (<[key := queue]> (book_of nature self)) self in
  info ← (if remove : bool then remove_order_id (kb_owner key_book, id) (account_info self)
          else Ok (account_info self));
  let self := set_info info self in
  match nature with
  | Bid =>
      cancel_amount0 ← product_price_amount (kb_price key_book) cancel_amount;
      Ok ({| transfer_owner := kb_owner key_book; transfer_amount := cancel_amount0; token_idx := 0 |},
          self)
  | Ask =>
      Ok ({| transfer_owner := kb_owner key_book; transfer_amount := cancel_amount; token_idx := 1 |},
          self)
  end.

Definition check_order_id (id : OrderId) (owner : AccountOwner) (self : MatchingEngine)
    : result MatchingEngineError unit :=
  value ← ok_or (orders self !! id) OrderNotPresent;
  ensure (bool_decide (kb_owner value = owner)) WrongOwnerOfOrder.

Definition get_amount_idx (nature : OrderNature) (price : Price) (amount : Amount)
    : result MatchingEngineError (Amount * nat) :=
  match nature with
  | Bid => size0 ← product_price_amount price amount; Ok (size0, 0%nat)
  | Ask => Ok (amount, 1%nat)
  end.

(** ** The contract *)

Inductive EngineMessage := ExecuteOrder (order : Order).

(** The engine and the tokens of the chain it runs on. *)
Record World := {
  engine : MatchingEngine;
  tokens : Tokens;
}.
Definition set_tokens (w : World) (ts : Tokens) : World := {| engine := engine w; tokens := ts |}.

Section contract.
Context (env : Env) (token0 token1 : UserApplicationId).

Definition fungible_id (idx : nat) : result MatchingEngineError UserApplicationId :=
  match idx with 0%nat => Ok token0 | 1%nat => Ok token1 | _ => Panic end.

Definition transfer (owner : AccountOwner) (amount : Amount) (destination : Destination) (idx : nat)
    (w : World) : result MatchingEngineError World :=
  token ← fungible_id idx;
  '(_, _, ts) ← map_err CallFailed
    (call_application env token (Transfer owner amount destination) (tokens w));
  Ok (set_tokens w ts).

Definition local_account (owner : AccountOwner) : Destination :=
  ToAccount {| account_chain := current_chain_id env; owner_of := owner |}.

Definition receive_from_account (owner : AccountOwner) (amount : Amount) (nature : OrderNature)
    (price : Price) (w : World) : result MatchingEngineError World :=
  '(amount, idx) ← get_amount_idx nature price amount;
  transfer owner amount (local_account (application_account env)) idx w.

Definition send_to (t : EngineTransfer) (w : World) : result MatchingEngineError World :=
  transfer (application_account env) (transfer_amount t) (local_account (transfer_owner t))
    (token_idx t) w.

Definition modify_order_check (id : OrderId) (cancel_amount : ModifyAmount) (owner : AccountOwner)
    (w : World) : result MatchingEngineError World :=
  check_order_id id owner (engine w);;
  '(t, self) ← modify_order id cancel_amount (engine w);
  send_to t {| engine := self; tokens := tokens w |}.

Definition execute_order_local (order : Order) (w : World) : result MatchingEngineError World :=
  match order with
  | Insert owner amount nature price =>
      w ← receive_from_account owner amount nature price w;
      '(ts, self) ← insert_and_uncross_market owner amount nature price (engine w);
      for_each send_to ts {| engine := self; tokens := tokens w |}
  | Cancel owner id => modify_order_check id All owner w
  | Modify owner id cancel_amount => modify_order_check id (Partial cancel_amount) owner w
  end.

Definition execute_order_remote (order : Order) (w : World)
    : result MatchingEngineError (list (RawOutgoingMessage EngineMessage) * World) :=
  let chain_id := creation_chain env in
  w ←
    match order with
    | Insert owner amount nature price =>
        let destination := ToAccount {| account_chain := chain_id; owner_of := owner |} in
        '(amount, idx) ← get_amount_idx nature price amount;
        transfer owner amount destination idx w
    | _ => Ok w
    end;
  Ok ([{| raw_destination := Recipient chain_id; raw_authenticated := true;
          raw_is_skippable := false; raw_message := ExecuteOrder order |}], w).

(** The operation and the application call [ExecuteOrder]; the context has the chain. *)
Definition execute_order (order : Order) (w : World)
    : result MatchingEngineError (list (RawOutgoingMessage EngineMessage) * World) :=
  if current_chain_id env =? creation_chain env then
    w ← execute_order_local order w; Ok ([], w)
  else execute_order_remote order w.

Definition engine_execute_message (message : EngineMessage) (w : World)
    : result MatchingEngineError World :=
  ensure (current_chain_id env =? creation_chain env) MatchingEngineChainOnly;;
  match message with ExecuteOrder order => execute_order_local order w end.

Definition engine_session_call : result MatchingEngineError World := Err SessionsNotSupported.

End contract.

(** ** The value of the book *)

Definition queue_amount (queue : list OrderEntry) : Z :=
  foldr (fun order sum => order_amount order + sum) 0 queue.
(** What the orders of a side were paid: a bid its price for each unit of token 1, in token 0; an
    ask in token 1. *)
Definition unit_value (nature : OrderNature) (price : Price) : Z :=
  match nature with Bid => price | Ask => 1 end.
Definition side_token (nature : OrderNature) : nat := match nature with Bid => 0 | Ask => 1 end.
Definition book_value (nature : OrderNature) (book : gmap Z (list OrderEntry)) : Z :=
  map_sum (map_imap (fun key queue =>
    Some (unit_value nature (level_key nature key) * queue_amount queue)) book).

(** What the matching of an order pays out, by token. *)
Definition paid (idx : nat) (ts : list EngineTransfer) : Z :=
  foldr (fun t sum => (if decide (token_idx t = idx) then transfer_amount t else 0) + sum) 0 ts.

Lemma paid_app idx ts1 ts2 : paid idx (ts1 ++ ts2) = paid idx ts1 + paid idx ts2.
Proof. unfold paid. induction ts1 as [|t ts1 IH]; simpl; [done|]. rewrite IH. lia. Qed.
Lemma queue_amount_app q1 q2 : queue_amount (q1 ++ q2) = queue_amount q1 + queue_amount q2.
Proof. unfold queue_amount. induction q1 as [|o q1 IH]; simpl; [done|]. rewrite IH. lia. Qed.

Definition queue_wf (queue : list OrderEntry) : Prop :=
  Forall (fun order => in_range u128_MAX (order_amount order)) queue.

Lemma remove_zero_amount queue : queue_amount (remove_zero_orders_from_level queue) =
  queue_amount queue.
Proof.
  unfold remove_zero_orders_from_level. induction queue as [|o queue IH]; simpl; [done|].
  case_match eqn:Ho; simpl; [|done]. apply Z.eqb_eq in Ho. rewrite IH. unfold queue_amount. simpl. lia.
Qed.
Lemma remove_zero_suffix queue :
  exists removed, queue = removed ++ remove_zero_orders_from_level queue /\
    Forall (fun order => order_amount order = 0) removed.
Proof.
  unfold remove_zero_orders_from_level. induction queue as [|o queue IH]; simpl; [by exists []|].
  case_match eqn:Ho; simpl; [|by exists []]. apply Z.eqb_eq in Ho.
  destruct IH as (removed & Heq & Hz). exists (o :: removed). simpl. rewrite <- Heq.
  split; [done|]. by constructor.
Qed.

(** ** Matching with a level *)

Definition transfer_wf (t : EngineTransfer) : Prop :=
  in_range u128_MAX (transfer_amount t) /\ (token_idx t <= 1)%nat.
(** The same order, filled in part. *)
Definition reduced (order order' : OrderEntry) : Prop :=
  order_owner order' = order_owner order /\ order_id order' = order_id order /\
  0 <= order_amount order' <= order_amount order.
(** What is paid in token 0 per unit of a match: the new bid pays its own price, and a bid that
    waited its own. *)
Definition match_price (nature : OrderNature) (price_level price_insert : Price) : Price :=
  match nature with Bid => price_insert | Ask => price_level end.

Lemma product_Ok price count amount :
  product_price_amount price count = Ok amount -> amount = price * count /\ amount <= u128_MAX.
Proof.
  unfold product_price_amount, try_mul. destruct (checked_mul u128_MAX count price) eqn:Hm; simpl;
    [|done].
  apply checked_mul_Some in Hm as [-> ?]. intros [= <-]. lia.
Qed.

Lemma get_transfers_spec nature fill owner order pl pi ts :
  in_range u128_MAX fill -> 0 <= pi -> get_transfers nature fill owner order pl pi = Ok ts ->
  Forall transfer_wf ts /\ paid 1 ts = fill /\ paid 0 ts = match_price nature pl pi * fill /\
  Forall (fun t => transfer_owner t = owner \/ transfer_owner t = order_owner order) ts.
Proof.
  intros Hf Hpi. unfold transfer_wf, in_range in *. destruct nature; simpl; intros Hg; inv_result.
  - match goal with H : product_price_amount _ _ = Ok _ |- _ => apply product_Ok in H as [-> ?] end.
    subst ts. simpl. split_and!; [|lia..|].
    + rewrite !Forall_cons, Forall_nil. simpl. split_and!; try done; nia.
    + rewrite !Forall_cons, Forall_nil. simpl. auto 10.
  - match goal with H : product_price_amount _ _ = Ok _ |- _ => apply product_Ok in H as [-> ?] end.
    case_match eqn:Hne; inv_result; subst ts.
    + match goal with H : product_price_amount _ _ = Ok _ |- _ => apply product_Ok in H as [-> ?] end.
      simpl. split_and!; [|lia..|].
      * rewrite !Forall_cons, Forall_nil. simpl. split_and!; try done; nia.
      * rewrite !Forall_cons, Forall_nil. simpl. auto 10.
    + apply negb_false_iff, Z.eqb_eq in Hne. subst pl. simpl. split_and!; [|lia..|].
      * rewrite !Forall_cons, Forall_nil. simpl. split_and!; try done; nia.
      * rewrite !Forall_cons, Forall_nil. simpl. auto 10.
Qed.

(** The effect of a match with a list of orders. *)
Record matches (nature : OrderNature) (owner : AccountOwner) (pl pi : Price)
    (q : list OrderEntry) (p : Progress) (q' : list OrderEntry) (p' : Progress) : Prop := {
  match_range : 0 <= left_amount p' <= left_amount p;
  match_amount : queue_amount q' = queue_amount q - (left_amount p - left_amount p');
  match_orders : Forall2 reduced q q';
  match_done : left_amount p' = 0 \/ Forall (fun order => order_amount order = 0) q';
  match_transfers : exists new, transfers p' = transfers p ++ new /\ Forall transfer_wf new /\
    paid 1 new = left_amount p - left_amount p' /\
    paid 0 new = match_price nature pl pi * (left_amount p - left_amount p') /\
    Forall (fun t => transfer_owner t = owner \/
      exists order, order ∈ q /\ transfer_owner t = order_owner order) new;
  match_filled : exists new, filled p' = filled p ++ new /\
    Forall (fun e => exists order, order ∈ q /\ e = (order_owner order, order_id order)) new;
}.

Lemma reduced_refl queue : queue_wf queue -> Forall2 reduced queue queue.
Proof.
  induction 1 as [|o q Ho _ IH]; constructor; [|done]. unfold reduced, in_range in *.
  split_and!; try done; lia.
Qed.

Lemma level_loop_spec nature owner pl pi q : forall p q' p',
  queue_wf q -> in_range u128_MAX (left_amount p) -> 0 <= pi ->
  level_loop nature owner pl pi q p = Ok (q', p') -> matches nature owner pl pi q p q' p'.
Proof.
  induction q as [|o q IH]; intros p q' p' Hq Hp Hpi; cbn [level_loop].
  { intros [= <- <-]. unfold in_range in Hp. split; try done; try lia; try (by right).
    - exists []. rewrite app_nil_r. simpl. split_and!; try done; lia.
    - exists []. by rewrite app_nil_r. }
  apply Forall_cons in Hq as [Ho Hq]. unfold in_range in *.
  set (fill := Z.min (order_amount o) (left_amount p)).
  intros (amount & Ha & Hr)%bind_Ok. apply expect_Ok, checked_sub_Some in Ha as [-> _].
  apply bind_Ok in Hr as (oleft & Hol & Hr). apply expect_Ok, checked_sub_Some in Hol as [-> _].
  apply bind_Ok in Hr as (new & Hnew & Hr).
  assert (Forall transfer_wf new /\ paid 1 new = fill /\ paid 0 new = match_price nature pl pi * fill /\
    Forall (fun t => transfer_owner t = owner \/ transfer_owner t =
      order_owner o) new) as (Hw & H1 & H0 & Hown).
  { destruct (0 <? fill) eqn:Hfill.
    - apply get_transfers_spec in Hnew; [done|unfold in_range; lia|done].
    - injection Hnew as <-. apply Z.ltb_ge in Hfill. assert (fill = 0) as -> by lia.
      split_and!; [apply Forall_nil_2|done|simpl; lia|apply Forall_nil_2]. }
  cbv zeta in Hr. cbn [set_amount order_owner order_id] in Hr.
  set (p1 := {| left_amount := left_amount p - fill; transfers := transfers p ++ new;
    filled := if order_amount o - fill =? 0 then filled p ++ [(order_owner o,
      order_id o)] else filled p |}) in Hr.
  assert (exists new, filled p1 = filled p ++ new /\
    Forall (fun e => e = (order_owner o, order_id o)) new) as (nf & Hnf & Hnfo).
  { unfold p1. simpl. destruct (order_amount o - fill =? 0).
    - exists [(order_owner o, order_id o)]. split; [done|]. by apply Forall_singleton.
    - exists []. rewrite app_nil_r. split; [done|apply Forall_nil_2]. }
  assert (reduced o (set_amount o (order_amount o - fill))) as Hred by (split_and!; simpl; try done;
    lia).
  destruct (left_amount p - fill =? 0) eqn:Hz.
  - injection Hr as <- <-. apply Z.eqb_eq in Hz. split.
    + simpl. lia.
    + unfold queue_amount. simpl. lia.
    + constructor; [done|by apply reduced_refl].
    + by left.
    + exists new. simpl. split_and!; [done|done|lia|rewrite H0; f_equal; lia|].
      eapply Forall_impl; [exact Hown|]. intros t [?|?]; [by left|right]. exists o. by split; [left|].
    + exists nf. split; [done|]. eapply Forall_impl; [exact Hnfo|]. intros e ->. exists o.
      by split; [left|].
  - apply bind_Ok in Hr as ([q1 p2] & Hl & [= <- <-]).
    destruct (IH p1 q1 p2) as [Hr1 Ha1 Ho1 Hd1 (new1 & Ht1 & Hw1 & H11 & H01 & Hown1) (nf1 & Hf1 &
      Hfo1)];
      [done|unfold p1; simpl; lia|done|done|].
    simpl in Hr1, Ha1, H11, H01. split.
    + lia.
    + unfold queue_amount in *. simpl. lia.
    + by constructor.
    + destruct Hd1 as [?|?]; [by left|right]. constructor; [simpl; lia|done].
    + exists (new ++ new1). rewrite Ht1. unfold p1. simpl. rewrite !paid_app, <- app_assoc.
      split_and!; [done|by apply Forall_app|lia|rewrite H0, H01, <- Z.mul_add_distr_l; f_equal; lia|].
      apply Forall_app. split.
      * eapply Forall_impl; [exact Hown|]. intros t [?|?]; [by left|right]. exists o. by split; [left|].
      * eapply Forall_impl; [exact Hown1|]. intros t [?|(o' & ? & ?)]; [by left|right].
        exists o'. by split; [right|].
    + exists (nf ++ nf1). rewrite Hf1, Hnf, <- app_assoc. split; [done|]. apply Forall_app. split.
      * eapply Forall_impl; [exact Hnfo|]. intros e ->. exists o. by split; [left|].
      * eapply Forall_impl; [exact Hfo1|]. intros e (o' & ? & ->). exists o'. by split; [right|].
Qed.

(** ** The state of the book *)

Definition live (queue : list OrderEntry) : Prop := exists order, order ∈ queue /\
  0 < order_amount order.

(** Every order of the book is known by its id, with the level that it is in; [me] is the account
    of the engine. *)
Record engine_ok (me : AccountOwner) (self : MatchingEngine) : Prop := {
  ok_level nature key queue :
    book_of nature self !! key = Some queue ->
    in_range u64_MAX key /\ queue_wf queue /\ NoDup (order_id <$> queue);
  ok_order nature key queue order :
    book_of nature self !! key = Some queue -> order ∈ queue ->
    order_owner order <> me /\
    orders self !! order_id order =
      Some {| kb_price := level_key nature key; kb_nature := nature; kb_owner := order_owner order |} /\
    is_Some (account_info self !! order_owner order);
  ok_fresh id : is_Some (orders self !! id) -> 0 <= id < next_order_number self;
  ok_next : 0 <= next_order_number self;
}.

Lemma revert_involutive price : revert (revert price) = price.
Proof. unfold revert. lia. Qed.
Lemma level_key_involutive nature price : level_key nature (level_key nature price) = price.
Proof. destruct nature; simpl; [apply revert_involutive|done]. Qed.

Lemma book_value_insert nature key queue book :
  book_value nature (<[key := queue]> book) =
  book_value nature book + unit_value nature (level_key nature key) *
    (queue_amount queue - queue_amount (default [] (book !! key))).
Proof.
  unfold book_value. rewrite map_imap_insert, map_sum_insert, map_lookup_imap.
  destruct (book !! key) as [q|]; simpl; lia.
Qed.
Lemma book_value_delete nature key queue book :
  book !! key = Some queue -> queue_amount queue = 0 ->
  book_value nature (delete key book) = book_value nature book.
Proof.
  intros Hk Hq. unfold book_value. rewrite map_imap_delete. symmetry.
  erewrite map_sum_delete; [|by rewrite map_lookup_imap, Hk; simpl]. rewrite Hq. lia.
Qed.

(** Changing a level to what is left of it. *)
Definition put_level (key : Z) (queue : list OrderEntry) (book : gmap Z (list OrderEntry))
    : gmap Z (list OrderEntry) :=
  if (length queue =? 0)%nat then delete key (<[key := queue]> book) else <[key := queue]> book.

Lemma put_level_value nature key queue book :
  book_value nature (put_level key queue book) =
  book_value nature book + unit_value nature (level_key nature key) *
    (queue_amount queue - queue_amount (default [] (book !! key))).
Proof.
  unfold put_level. destruct queue as [|o queue]; simpl length; simpl Nat.eqb; cbv iota.
  - rewrite (book_value_delete _ _ []); [apply book_value_insert|apply lookup_insert_eq|done].
  - apply book_value_insert.
Qed.
Lemma put_level_lookup key queue book key' q :
  put_level key queue book !! key' = Some q ->
  (key' = key /\ q = queue) \/ (key' <> key /\ book !! key' = Some q).
Proof.
  unfold put_level. case_match.
  - intros [Hne Hk]%lookup_delete_Some. rewrite lookup_insert_ne in Hk by done. by right.
  - intros [[<- <-]|[Hne Hk]]%lookup_insert_Some; [by left|by right].
Qed.

(** What is left of a level has some of its orders, smaller. *)
Definition left_of (queue queue' : list OrderEntry) : Prop :=
  queue_wf queue' /\ NoDup (order_id <$> queue') /\
  forall order', order' ∈ queue' -> exists order, order ∈ queue /\ reduced order order'.

Lemma reduced_ids q q' : Forall2 reduced q q' -> order_id <$> q' = order_id <$> q.
Proof. induction 1 as [|o o' q q' (_ & Hid & _) _ IH]; [done|]. csimpl. by rewrite Hid, IH. Qed.

Lemma left_of_reduced q q' :
  queue_wf q -> NoDup (order_id <$> q) -> Forall2 reduced q q' ->
  left_of q (remove_zero_orders_from_level q').
Proof.
  intros Hq Hnd Hr. destruct (remove_zero_suffix q') as (removed & Heq & _).
  assert (queue_wf q' /\ forall o', o' ∈ q' -> exists o, o ∈ q /\ reduced o o') as [Hwf Hin].
  { clear Hnd Heq. induction Hr as [|o o' q q' Ho _ IH]; [split; [done|by intros ? ?%not_elem_of_nil]|].
    apply Forall_cons in Hq as [Hqo Hq]. destruct (IH Hq) as [IHw IHi]. split.
    - apply Forall_cons. split; [|done]. destruct Ho as (_ & _ & ?). unfold in_range in *. lia.
    - intros x [->|Hx]%elem_of_cons; [exists o; by split; [left|]|].
      destruct (IHi x Hx) as (y & ? & ?). exists y. by split; [right|]. }
  rewrite <- (reduced_ids _ _ Hr) in Hnd. rewrite Heq in Hwf, Hnd, Hin.
  apply Forall_app in Hwf as [_ Hwf]. rewrite fmap_app, NoDup_app in Hnd. destruct Hnd as (_ & _ & Hnd).
  split_and!; try done. intros o' Ho'. apply Hin, elem_of_app. by right.
Qed.

Lemma book_of_set nature nature' book self :
  book_of nature (set_book nature' book self) =
  if decide (nature = nature') then book else book_of nature self.
Proof. by destruct nature, nature'. Qed.

(** A book in which a level was replaced by what is left of it, or removed. *)
Definition replaces (key : Z) (queue' : list OrderEntry) (book book' : gmap Z (list OrderEntry)) :
  Prop :=
  forall key' q, book' !! key' = Some q ->
    (key' = key /\ q = queue') \/ (key' <> key /\ book !! key' = Some q).

Lemma engine_ok_replace me side key queue' book' info self :
  engine_ok me self -> left_of (default [] (book_of side self !! key)) queue' ->
  in_range u64_MAX key -> replaces key queue' (book_of side self) book' ->
  (forall o, is_Some (account_info self !! o) -> is_Some (info !! o)) ->
  engine_ok me (set_info info (set_book side book' self)).
Proof.
  intros [Hl Ho Hf Hn0] (Hwf & Hnd & Hin) Hkey Hrep Hinfo. split; [| |done|done].
  - intros n k q. change (book_of n (set_info info ?s)) with (book_of n s). rewrite book_of_set.
    case_decide as Hn; [subst n|apply Hl]. intros [[-> ->]|[_ Hk]]%Hrep; [done|by apply Hl in Hk].
  - intros n k q o. change (book_of n (set_info info ?s)) with (book_of n s). rewrite book_of_set.
    case_decide as Hn; [subst n|].
    + intros [[-> ->]|[_ Hk]]%Hrep Hoq.
      * destruct (Hin o Hoq) as (o0 & Ho0 & (Hown & Hid & _)).
        destruct (book_of side self !! key) as [q0|] eqn:Hq0; simpl in Ho0;
          [|by apply not_elem_of_nil in Ho0].
        destruct (Ho _ _ _ _ Hq0 Ho0) as (? & Hb & ?). rewrite Hown, Hid.
        split_and!; [done|done|by apply Hinfo].
      * destruct (Ho _ _ _ _ Hk Hoq) as (? & ? & ?). split_and!; [done|done|by apply Hinfo].
    + intros Hk Hoq. destruct (Ho _ _ _ _ Hk Hoq) as (? & ? & ?).
      split_and!; [done|done|by apply Hinfo].
Qed.

Lemma remove_order_id_dom entry info info' o :
  remove_order_id entry info = Ok info' -> is_Some (info !! o) -> is_Some (info' !! o).
Proof.
  unfold remove_order_id. intros Hr Ho. inv_result. subst info'.
  destruct (decide (entry.1 = o)) as [<-|Hne]; [rewrite lookup_insert_eq; by eexists|].
  by rewrite lookup_insert_ne.
Qed.
Lemma remove_order_ids_dom entries : forall info info' o,
  remove_order_ids entries info = Ok info' -> is_Some (info !! o) -> is_Some (info' !! o).
Proof.
  unfold remove_order_ids. induction entries as [|e entries IH]; intros info info' o; cbn [for_each].
  - by intros [= <-].
  - intros (info1 & He & Hr)%bind_Ok Ho. eapply IH; [done|]. by eapply remove_order_id_dom.
Qed.

(** The effect of the levels that a new order is matched with. *)
Record cleared (me : AccountOwner) (nature : OrderNature) (owner : AccountOwner) (pi : Price)
    (prices : list Price) (amount : Amount) (ts : list EngineTransfer) (self : MatchingEngine)
    (amount' : Amount) (ts' : list EngineTransfer) (self' : MatchingEngine) : Prop := {
  cleared_ok : engine_ok me self';
  cleared_range : 0 <= amount' <= amount;
  cleared_transfers : exists new, ts' = ts ++ new /\ Forall transfer_wf new /\
    paid 1 new = amount - amount' /\
    paid 0 new = (match nature with
      | Bid => pi * (amount - amount')
      | Ask => book_value Bid (bids self) - book_value Bid (bids self') end) /\
    Forall (fun t => transfer_owner t = owner \/ transfer_owner t <> me) new;
  cleared_asks : nature = Bid -> book_value Ask (asks self') =
    book_value Ask (asks self) - (amount - amount');
  cleared_other : book_of nature self' = book_of nature self;
  cleared_orders : orders self' = orders self /\ next_order_number self' = next_order_number self;
  cleared_levels : amount' = 0 \/ forall price queue, price ∈ prices ->
    book_of (opposite nature) self' !! level_key (opposite nature) price = Some queue -> ~ live queue;
  cleared_live key queue' : book_of (opposite nature) self' !! key = Some queue' -> live queue' ->
    exists queue, book_of (opposite nature) self !! key = Some queue /\ live queue;
}.

Lemma cleared_nil me nature owner pi amount ts self :
  engine_ok me self -> 0 <= amount -> cleared me nature owner pi [] amount ts self amount ts self.
Proof.
  intros Hok Ha. split; try done.
  - exists []. rewrite app_nil_r. split_and!; [done|apply Forall_nil_2|simpl; lia| |apply Forall_nil_2].
    simpl. destruct nature; lia.
  - intros _. lia.
  - right. by intros price queue ?%not_elem_of_nil.
  - intros key queue Hk Hl. by exists queue.
Qed.

Lemma cleared_trans me nature owner pi prices1 prices2 a ts s a1 ts1 s1 a2 ts2 s2 :
  cleared me nature owner pi prices1 a ts s a1 ts1 s1 -> a1 <> 0 ->
  cleared me nature owner pi prices2 a1 ts1 s1 a2 ts2 s2 ->
  cleared me nature owner pi (prices1 ++ prices2) a ts s a2 ts2 s2.
Proof.
  intros [Hok1 Hr1 (n1 & -> & Hw1 & Hp1 & H01 & Ho1) Hv1 Hb1 [Hor1 Hx1] Hl1 Hlive1] Hne
    [Hok2 Hr2 (n2 & -> & Hw2 & Hp2 & H02 & Ho2) Hv2 Hb2 [Hor2 Hx2] Hl2 Hlive2].
  split; try done.
  - lia.
  - exists (n1 ++ n2). rewrite !paid_app, app_assoc.
    split_and!; try done; [by apply Forall_app|lia| |by apply Forall_app].
    rewrite H01, H02. destruct nature; lia.
  - intros Hn. specialize (Hv1 Hn). specialize (Hv2 Hn). lia.
  - congruence.
  - split; congruence.
  - destruct Hl2 as [?|Hl2]; [by left|right]. destruct Hl1 as [?|Hl1]; [done|].
    intros price queue [Hp|Hp]%elem_of_app Hq; [|by eapply Hl2].
    intros Hlive. destruct (Hlive2 _ _ Hq Hlive) as (q1 & Hq1 & Hlq1). by eapply (Hl1 price q1).
  - intros key queue' Hk Hlive. destruct (Hlive2 _ _ Hk Hlive) as (q1 & Hq1 & Hlq1). by eapply Hlive1.
Qed.

Lemma zero_not_live queue : Forall (fun order => order_amount order = 0) queue -> ~ live queue.
Proof. rewrite Forall_forall. intros Hz (o & Ho & Hpos). specialize (Hz o Ho). lia. Qed.
Lemma left_of_live queue queue' : left_of queue queue' -> live queue' -> live queue.
Proof.
  intros (_ & _ & Hin) (o' & Ho' & Hpos). destruct (Hin o' Ho') as (o & Ho & (_ & _ & ?)).
  exists o. split; [done|lia].
Qed.
Lemma remove_zero_subset queue order : order ∈ remove_zero_orders_from_level queue -> order ∈ queue.
Proof.
  destruct (remove_zero_suffix queue) as (removed & Heq & _). intros Ho. rewrite Heq.
  apply elem_of_app. by right.
Qed.

(** One level. *)
Lemma cleared_level me nature owner pi price amount ts self queue p info :
  let side := opposite nature in
  let key := level_key side price in
  engine_ok me self -> in_range u128_MAX amount -> 0 <= pi -> in_range u64_MAX key ->
  level_clearing nature owner price pi (default [] (book_of side self !! key))
    {| left_amount := amount; transfers := ts; filled := [] |} = Ok (queue, p) ->
  remove_order_ids (filled p) (account_info self) = Ok info ->
  cleared me nature owner pi [price] amount ts self (left_amount p) (transfers p)
    (set_info info (set_book side (put_level key queue (book_of side self)) self)).
Proof.
  intros side key Hok Ha Hpi Hkey Hlc Hinfo. set (q0 := default [] (book_of side self !! key)) in *.
  assert (queue_wf q0 /\ NoDup (order_id <$> q0)) as [Hq0 Hnd].
  { unfold q0. destruct (book_of side self !! key) as [q|] eqn:Hq; simpl;
      [by destruct (ok_level _ _ Hok _ _ _ Hq) as (_ & ? & ?)|by split; constructor]. }
  apply bind_Ok in Hlc as ([q1 p1] & Hloop & [= <- <-]).
  apply level_loop_spec in Hloop as [Hr Hamt Hred Hdone (new & Ht & Hw & H1 & H0 & Hown) _]; [|done..].
  simpl in *. pose proof (left_of_reduced _ _ Hq0 Hnd Hred) as Hleft.
  assert (forall n, book_of n (set_info info (set_book side (put_level key
    (remove_zero_orders_from_level q1)
    (book_of side self)) self)) = if decide (n = side) then put_level key
      (remove_zero_orders_from_level q1)
    (book_of side self) else book_of n self) as Hbook by (intros n; apply book_of_set).
  pose proof (put_level_value side key (remove_zero_orders_from_level q1) (book_of side self)) as Hval.
  fold q0 in Hval. rewrite remove_zero_amount, Hamt in Hval.
  split.
  - eapply engine_ok_replace; [done|exact Hleft|done|by intros ? ?; apply put_level_lookup|].
    intros o. by eapply remove_order_ids_dom.
  - lia.
  - exists new. split_and!; try done.
    + rewrite H0. destruct nature; simpl; [done|]. unfold side, key in *. simpl in Hval.
      rewrite revert_involutive in Hval. simpl. rewrite Hval. ring.
    + eapply Forall_impl; [exact Hown|]. intros t [?|(o & Ho & Hto)]; [by left|right]. rewrite Hto.
      unfold q0 in Ho. destruct (book_of side self !! key) as [q|] eqn:Hq; simpl in Ho;
        [|by apply not_elem_of_nil in Ho]. by destruct (ok_order _ _ Hok _ _ _ _ Hq Ho).
  - intros ->. unfold side in *. simpl in *. lia.
  - rewrite Hbook. by rewrite decide_False by by destruct nature.
  - done.
  - destruct Hdone as [?|Hz]; [by left|right]. intros price' queue ->%list_elem_of_singleton.
    fold side. rewrite Hbook, decide_True by done. fold key.
    intros [[_ ->]|[? _]]%put_level_lookup; [|done]. apply zero_not_live. rewrite Forall_forall in *.
    intros o Ho. by apply Hz, remove_zero_subset.
  - intros k q'. fold side. rewrite Hbook, decide_True by done.
    intros [[-> ->]|[_ Hk]]%put_level_lookup Hlive; [|by exists q'].
    apply (left_of_live _ _ Hleft) in Hlive as Hlive0. unfold q0 in Hlive0.
    destruct (book_of side self !! key) as [q|]; simpl in Hlive0; [by exists q|].
    destruct Hlive0 as (o & ?%not_elem_of_nil & _). done.
Qed.

Lemma clear_levels_spec me nature owner pi prices : forall amount ts self amount' ts' self',
  engine_ok me self -> in_range u128_MAX amount -> 0 <= pi ->
  Forall (fun price => in_range u64_MAX (level_key (opposite nature) price)) prices ->
  clear_levels nature owner pi prices amount ts self = Ok ((amount', ts'), self') ->
  cleared me nature owner pi prices amount ts self amount' ts' self'.
Proof.
  induction prices as [|price prices IH]; intros amount ts self amount' ts' self' Hok Ha Hpi Hp;
    cbn [clear_levels].
  { intros [= <- <- <-]. apply cleared_nil; [done|]. unfold in_range in Ha. lia. }
  apply Forall_cons in Hp as [Hp Hps]. intros ([queue p] & Hlc & Hr)%bind_Ok. cbv zeta in Hr.
  apply bind_Ok in Hr as (info & Hinfo & Hr).
  pose proof (cleared_level me _ _ _ _ _ _ _ _ _ _ Hok Ha Hpi Hp Hlc Hinfo) as Hc.
  unfold put_level in Hc. destruct (left_amount p =? 0) eqn:Hz.
  - injection Hr as <- <- <-. apply Z.eqb_eq in Hz.
    destruct Hc as [? ? ? ? ? ? _ ?]. split; try done. by left.
  - apply Z.eqb_neq in Hz. change (price :: prices) with ([price] ++ prices).
    eapply cleared_trans; [exact Hc|done|]. eapply IH; try done; [by destruct Hc|].
    destruct Hc as [_ Hrange _ _ _ _ _ _]. unfold in_range in *. lia.
Qed.

(** ** Inserting an order *)

Definition uncrossed (self : MatchingEngine) : Prop :=
  forall kb qb ka qa, bids self !! kb = Some qb -> asks self !! ka = Some qa ->
    live qb -> live qa -> revert kb < ka.
(** The same, for the prices that an order of some nature could match. *)
Lemma uncrossed_side nature self :
  uncrossed self <->
  forall k q k' q', book_of nature self !! k = Some q -> live q ->
    book_of (opposite nature) self !! k' = Some q' -> live q' ->
    level_key (opposite nature) (level_key nature k) < k'.
Proof.
  unfold uncrossed. destruct nature; simpl; split; intros Hu.
  - intros k q k' q' ? ? ? ?. by eapply Hu.
  - intros kb qb ka qa ? ? ? ?. by eapply Hu.
  - intros k q k' q' ? ? ? ?. assert (revert k' < k) by by eapply Hu. unfold revert in *. lia.
  - intros kb qb ka qa ? ? ? ?. assert (revert ka < kb) by by eapply Hu. unfold revert in *. lia.
Qed.

Lemma take_while_Forall {A : Type} (f : A -> bool) l : Forall (fun a => f a = true) (take_while f l).
Proof. induction l as [|a l IH]; simpl; [constructor|]. case_match; by constructor. Qed.
Lemma take_while_subset {A : Type} (f : A -> bool) l a : a ∈ take_while f l -> a ∈ l.
Proof.
  induction l as [|b l IH]; simpl; [done|]. case_match; [|by intros ?%not_elem_of_nil].
  rewrite !elem_of_cons. naive_solver.
Qed.
(** In a sorted list [take_while] finds all elements below a bound. *)
Lemma take_while_sorted (l : list Z) bound k :
  StronglySorted Z.le l -> k ∈ l -> k <= bound -> k ∈ take_while (fun key => key <=? bound) l.
Proof.
  induction 1 as [|a l Hs IH Ha]; intros Hk Hle; [by apply not_elem_of_nil in Hk|]. simpl.
  rewrite Forall_forall in Ha. assert (a <= k) as Hak.
  { apply elem_of_cons in Hk as [->|Hk]; [lia|by apply Ha]. }
  rewrite (proj2 (Z.leb_le _ _)) by lia. apply elem_of_cons in Hk as [->|Hk]; [by left|right]. auto.
Qed.
Lemma btree_keys_sorted {V : Type} (m : gmap Z V) : StronglySorted Z.le (btree_iter m).*1.
Proof.
  assert (StronglySorted (@key_le V) (btree_iter m)) as Hs
    by (apply StronglySorted_merge_sort; apply _).
  induction Hs as [|[k v] l Hs IH Ha]; csimpl; constructor; [done|]. rewrite Forall_fmap.
  eapply Forall_impl; [exact Ha|]. by intros [].
Qed.

Lemma matching_prices_range nature price me self :
  engine_ok me self ->
  Forall (fun p => in_range u64_MAX (level_key (opposite nature) p)) (matching_prices nature price
    self).
Proof.
  intros Hok. unfold matching_prices. rewrite Forall_fmap, Forall_forall. intros key Hk. simpl.
  rewrite level_key_involutive. apply take_while_subset, list_elem_of_fmap in Hk as ([k q] & -> & Hk).
  apply elem_of_btree_iter in Hk. by destruct (ok_level _ _ Hok _ _ _ Hk).
Qed.
Lemma matching_prices_complete nature price self key queue :
  book_of (opposite nature) self !! key = Some queue -> key <= level_key (opposite nature) price ->
  level_key (opposite nature) key ∈ matching_prices nature price self.
Proof.
  intros Hk Hle. unfold matching_prices. apply list_elem_of_fmap_2.
  apply take_while_sorted; [apply btree_keys_sorted| |done].
  apply list_elem_of_fmap. exists (key, queue). split; [done|]. by apply elem_of_btree_iter.
Qed.

(** The rest of an order joins its level. *)
Definition join_book (nature : OrderNature) (owner : AccountOwner) (id : OrderId) (price : Price)
    (amount : Amount) (self : MatchingEngine) : MatchingEngine :=
  let key := level_key nature price in
  insert_order owner nature id price
    (set_book nature
       (<[key := default [] (book_of nature self !! key) ++
                 [{| order_amount := amount; order_owner := owner; order_id := id |}]]>
          (book_of nature self)) self).

Lemma join_book_ok me nature owner id price amount self :
  engine_ok me self -> owner <> me -> in_range u64_MAX price -> in_range u128_MAX amount ->
  orders self !! id = None -> 0 <= id < next_order_number self ->
  engine_ok me (join_book nature owner id price amount self).
Proof.
  intros [Hl Ho Hf Hn0] Hown Hp Ha Hid Hlt.
  set (key := level_key nature price). set (q0 := default [] (book_of nature self !! key)).
  set (order := {| order_amount := amount; order_owner := owner; order_id := id |}).
  assert (forall n, book_of n (join_book nature owner id price amount self) =
    if decide (n = nature) then <[key := q0 ++ [order]]> (book_of nature self) else book_of n self) as
      Hb
    by (intros n; apply (book_of_set n nature)).
  assert (forall n k q o, book_of n self !! k = Some q -> o ∈ q -> order_id o <> id) as Hne.
  { intros n k q o Hk Hoq Heq. destruct (Ho _ _ _ _ Hk Hoq) as (_ & Hoi & _). congruence. }
  assert (queue_wf q0 /\ NoDup (order_id <$> q0) /\ forall o, o ∈ q0 -> book_of nature self !! key =
    Some q0)
    as (Hq0 & Hnd & Hin).
  { unfold q0. destruct (book_of nature self !! key) as [q|] eqn:Hq; simpl.
    - destruct (Hl _ _ _ Hq) as (_ & ? & ?). by split_and!.
    - split_and!; [constructor|constructor|by intros ? ?%not_elem_of_nil]. }
  split.
  - intros n k q. rewrite Hb. case_decide; [subst n|apply Hl].
    intros [[<- <-]|[_ Hk]]%lookup_insert_Some; [|by apply Hl in Hk]. split_and!.
    + unfold key. destruct nature; simpl; [|done]. unfold revert, in_range in *. lia.
    + apply Forall_app. split; [done|]. by apply Forall_singleton.
    + rewrite fmap_app, NoDup_app. split_and!; [done| |apply NoDup_singleton].
      intros x (o & -> & Hoq)%list_elem_of_fmap Hx%list_elem_of_singleton. simpl in Hx.
      by eapply (Hne nature key q0 o); [eapply Hin|..].
  - intros n k q o. rewrite Hb. intros Hk Hoq.
    assert (orders (join_book nature owner id price amount self) = <[id :=
      {| kb_price := price; kb_nature := nature; kb_owner := owner |}]> (orders self)) as -> by done.
    assert (account_info (join_book nature owner id price amount self) =
      <[owner := {[id]} ∪ default ∅ (account_info self !! owner)]> (account_info self)) as -> by done.
    assert (forall n k q, book_of n self !! k = Some q -> o ∈ q -> order_owner o <> me /\
      <[id := {| kb_price := price; kb_nature := nature; kb_owner :=
        owner |}]> (orders self) !! order_id o =
      Some {| kb_price := level_key n k; kb_nature := n; kb_owner := order_owner o |} /\
      is_Some (<[owner := {[id]} ∪ default ∅ (account_info self !! owner)]> (account_info self) !!
        order_owner o))
      as Hold.
    { intros n' k' q' Hk' Hoq'. destruct (Ho _ _ _ _ Hk' Hoq') as (? & ? & ?).
      split_and!; [done|rewrite lookup_insert_ne by (apply not_eq_sym; by eapply Hne); done|].
      apply lookup_insert_is_Some'. by right. }
    case_decide; [subst n|by eapply Hold].
    apply lookup_insert_Some in Hk as [[<- <-]|[_ Hk]]; [|by eapply Hold].
    apply elem_of_app in Hoq as [Hoq| ->%list_elem_of_singleton]; [by eapply Hold; [eapply Hin|]|].
    simpl. rewrite !lookup_insert_eq. unfold key. rewrite level_key_involutive.
    split_and!; [done|done|by eexists].
  - intros id' Hid'. change (next_order_number (join_book nature owner id price amount self))
      with (next_order_number self).
    cbn [join_book insert_order set_book orders] in Hid'.
    apply lookup_insert_is_Some' in Hid' as [<-|Hid']; [done|by apply Hf].
  - exact Hn0.
Qed.

(** What an order is paid with. *)
Definition deposit (idx : nat) (nature : OrderNature) (price : Price) (amount : Amount) : Z :=
  if decide (side_token nature = idx) then unit_value nature price * amount else 0.

(** The effect of a change of the book together with what the engine pays. *)
Record exchange (me : AccountOwner) (self : MatchingEngine) (in0 in1 : Z)
    (ts : list EngineTransfer) (self' : MatchingEngine) : Prop := {
  exchange_ok : engine_ok me self';
  exchange_wf : Forall transfer_wf ts;
  exchange_owners : Forall (fun t => transfer_owner t <> me) ts;
  exchange_bids : book_value Bid (bids self') + paid 0 ts = book_value Bid (bids self) + in0;
  exchange_asks : book_value Ask (asks self') + paid 1 ts = book_value Ask (asks self) + in1;
  exchange_uncrossed : uncrossed self -> uncrossed self';
}.

Definition with_next (self : MatchingEngine) : MatchingEngine := (get_new_order_id self).2.
Lemma with_next_ok me self :
  engine_ok me self -> 0 <= next_order_number self < u64_MAX ->
  engine_ok me (with_next self) /\ next_order_number (with_next self) = next_order_number self + 1.
Proof.
  intros [Hl Ho Hf _] Hn.
  assert (next_order_number (with_next self) = next_order_number self + 1) as Heq.
  { unfold with_next, get_new_order_id. simpl. apply Z.mod_small. unfold u64_MAX in Hn. lia. }
  split; [|done]. split.
  - intros n. apply Hl.
  - intros n. apply Ho.
  - intros id Hid. rewrite Heq. specialize (Hf id Hid). lia.
  - lia.
Qed.

(** The book stays uncrossed: what could be matched was. *)
Lemma cleared_uncrossed me nature owner price amount self amount' ts self' :
  uncrossed self -> cleared me nature owner price (matching_prices nature price self) amount [] self
    amount' ts self' ->
  uncrossed self' /\ (amount' <> 0 -> forall key queue,
    book_of (opposite nature) self' !! key = Some queue -> live queue ->
    level_key (opposite nature) price < key).
Proof.
  intros Hu [_ _ _ _ Hother _ Hlevels Hlive]. split.
  - rewrite (uncrossed_side nature) in *. intros k q k' q' Hk Hl Hk' Hl'. rewrite Hother in Hk.
    destruct (Hlive _ _ Hk' Hl') as (q0 & Hq0 & Hlq0). by eapply Hu.
  - intros Hne key queue Hk Hl. destruct Hlevels as [?|Hlevels]; [done|].
    destruct (Hlive _ _ Hk Hl) as (q0 & Hq0 & _).
    destruct (Z.lt_ge_cases (level_key (opposite nature) price) key) as [|Hge]; [done|].
    pose proof (matching_prices_complete _ _ _ _ _ Hq0 Hge) as Hin.
    exfalso. eapply (Hlevels _ queue Hin); [|done]. by rewrite level_key_involutive.
Qed.

Lemma join_uncrossed nature owner id price amount self :
  uncrossed self ->
  (forall key queue, book_of (opposite nature) self !! key = Some queue -> live queue ->
    level_key (opposite nature) price < key) ->
  uncrossed (join_book nature owner id price amount self).
Proof.
  rewrite !(uncrossed_side nature). intros Hu Hnew k q k' q'.
  assert (forall n, book_of n (join_book nature owner id price amount self) =
    book_of n (set_book nature (<[level_key nature price :=
      default [] (book_of nature self !! level_key nature price) ++
      [{| order_amount := amount; order_owner := owner; order_id :=
        id |}]]> (book_of nature self)) self)) as ->
    by by intros [].
  assert (book_of (opposite nature) (join_book nature owner id price amount self) =
    book_of (opposite nature) self) as -> by by destruct nature.
  rewrite book_of_set, decide_True by done.
  intros [[<- _]|[_ Hk]]%lookup_insert_Some Hl Hk' Hl'; [|by eapply Hu].
  rewrite level_key_involutive. by eapply Hnew.
Qed.

Lemma join_value nature owner id price amount self n :
  book_value n (book_of n (join_book nature owner id price amount self)) =
  book_value n (book_of n self) + (if decide (n = nature) then unit_value nature price * amount else 0).
Proof.
  assert (book_of n (join_book nature owner id price amount self) =
    if decide (n = nature) then <[level_key nature price :=
      default [] (book_of nature self !! level_key nature price) ++
      [{| order_amount := amount; order_owner := owner; order_id := id |}]]> (book_of nature self)
    else book_of n self) as -> by apply (book_of_set n nature).
  case_decide; [subst n|lia]. rewrite book_value_insert, queue_amount_app, level_key_involutive.
  simpl. lia.
Qed.

Lemma insert_and_uncross_spec me owner amount nature price self ts self' :
  engine_ok me self -> owner <> me -> in_range u128_MAX amount -> in_range u64_MAX price ->
  0 <= next_order_number self < u64_MAX ->
  insert_and_uncross_market owner amount nature price self = Ok (ts, self') ->
  exchange me self (deposit 0 nature price amount) (deposit 1 nature price amount) ts self'.
Proof.
  intros Hok Hown Ha Hp Hn. unfold insert_and_uncross_market.
  destruct (with_next_ok me self Hok Hn) as [Hok1 Hnext]. unfold with_next in *.
  cbn [get_new_order_id snd] in *.
  set (self1 := {| next_order_number := _ |}) in *.
  intros ([[amount' ts'] self2] & Hcl & Hr)%bind_Ok.
  pose proof (matching_prices_range nature price me self1 Hok1) as Hrange.
  assert (0 <= price) as Hpi by (unfold in_range in Hp; lia).
  pose proof (clear_levels_spec me _ _ _ _ _ _ _ _ _ _ Hok1 Ha Hpi Hrange Hcl) as Hc.
  pose proof (fun Hu : uncrossed self => cleared_uncrossed me _ _ _ _ self1 _ _ _ Hu Hc) as Hun.
  destruct Hc as [Hok2 Hr2 (new & -> & Hw & H1 & H0 & Ho) Hv Hother [Hord Hnx] Hlev Hlive]. simpl in Hr.
  assert (Forall (fun t => transfer_owner t <> me) new) as Hno.
  { eapply Forall_impl; [exact Ho|]. intros t [->|?]; done. }
  assert (book_value Bid (bids self2) + paid 0 new =
    book_value Bid (bids self) + deposit 0 nature price (amount - amount') /\
    book_value Ask (asks self2) + paid 1 new =
    book_value Ask (asks self) + deposit 1 nature price (amount - amount')) as [Hb Hak].
  { unfold deposit. destruct nature; simpl in *.
    - rewrite Hother, H0, H1, Hv by done. simpl. lia.
    - rewrite Hother, H0, H1. simpl. lia. }
  destruct (amount' =? 0) eqn:Hz; simpl in Hr; injection Hr as <- <-.
  - apply Z.eqb_eq in Hz. subst amount'. rewrite Z.sub_0_r in *. split; try done.
    intros Hu. by destruct (Hun Hu).
  - apply Z.eqb_neq in Hz. fold (join_book nature owner (next_order_number self) price amount' self2).
    assert (orders self2 !! next_order_number self = None) as Hfresh.
    { rewrite Hord. destruct (orders self !! next_order_number self) eqn:Hx; [|done].
      destruct (ok_fresh _ _ Hok (next_order_number self)) as [_ ?]; [by eexists|lia]. }
    split; try done.
    + apply join_book_ok; try done; [unfold in_range in *; lia|]. rewrite Hnx, Hnext. lia.
    + pose proof (join_value nature owner (next_order_number self) price amount' self2 Bid) as Hj.
      cbn [book_of] in Hj. rewrite Hj. unfold deposit in *. destruct nature; simpl in *; lia.
    + pose proof (join_value nature owner (next_order_number self) price amount' self2 Ask) as Hj.
      cbn [book_of] in Hj. rewrite Hj. unfold deposit in *. destruct nature; simpl in *; lia.
    + intros Hu. destruct (Hun Hu) as [Hu2 Hnew]. apply join_uncrossed; [done|by apply Hnew].
Qed.

(** ** Changing an order *)

Lemma modify_level_spec queue id cancel amount remove queue' :
  queue_wf queue -> NoDup (order_id <$> queue) ->
  match cancel with All => True | Partial c => 0 <= c end ->
  modify_order_level queue id cancel = Ok ((amount, remove), queue') ->
  exists order, order ∈ queue /\ order_id order = id /\ 0 <= amount <= order_amount order /\
    (cancel = All -> amount = order_amount order) /\
    left_of queue queue' /\ queue_amount queue' = queue_amount queue - amount.
Proof.
  intros Hq Hnd Hc. unfold modify_order_level.
  intros ([i order] & Hfind%ok_or_Ok & Hr)%bind_Ok. apply list_find_Some in Hfind as (Hi & Hid & _).
  apply bind_Ok in Hr as (new & Hnew & Hr). apply bind_Ok in Hr as (corr & Hcorr & [= <- _ <-]).
  apply expect_Ok, checked_sub_Some in Hcorr as [-> Hle].
  assert (order ∈ queue) as Hin by by eapply list_elem_of_lookup_2.
  pose proof Hq as Hq'. unfold queue_wf in Hq'. rewrite Forall_forall in Hq'.
  assert (0 <= new /\ (cancel = All -> new = 0)) as [Hnn Hall].
  { destruct cancel as [|c]; [injection Hnew as <-; done|].
    case_match; [done|]. by apply expect_Ok, checked_sub_Some in Hnew as [-> ?]; split; [lia|]. }
  exists order. split_and!; [done|done|lia|lia|intros Ha; rewrite Hall by done; lia| |].
  - apply left_of_reduced; [done|done|]. revert i Hi. induction Hq as [|o q Ho Hq IH];
      intros [|i] Hi; simpl in *; try done.
    + injection Hi as ->. constructor; [split_and!; simpl; try done; lia|by apply reduced_refl].
    + constructor; [split_and!; try done; unfold in_range in Ho; lia|]. apply IH; try done.
      * by apply NoDup_cons in Hnd as [_ ?].
      * by eapply list_elem_of_lookup_2.
      * intros x Hx. apply Hq'. by right.
  - rewrite remove_zero_amount. clear - Hi. revert i Hi. induction queue as [|o q IH]; intros [|i] Hi;
      simpl in *; try done.
    + injection Hi as ->. unfold queue_amount. simpl. lia.
    + specialize (IH i Hi). unfold queue_amount in *. simpl in *. lia.
Qed.

Lemma modify_order_spec me id cancel self t self' :
  engine_ok me self -> match cancel with All => True | Partial c => 0 <= c end ->
  modify_order id cancel self = Ok (t, self') ->
  exchange me self 0 0 [t] self' /\ orders self' = orders self /\
  next_order_number self' = next_order_number self.
Proof.
  intros Hok Hcancel Hm. unfold modify_order in Hm.
  apply bind_Ok in Hm as (kb & Hkb%ok_or_Ok & Hm). destruct kb as [price nature owner]. simpl in Hm.
  apply bind_Ok in Hm as ([[amount remove] queue'] & Hl & Hm).
  apply bind_Ok in Hm as (info & Hinfo & Hm). set (key := level_key nature price) in *.
  destruct (book_of nature self !! key) as [queue|] eqn:Hqueue; simpl in Hl;
    [|by unfold modify_order_level in Hl; simpl in Hl].
  destruct (ok_level _ _ Hok _ _ _ Hqueue) as (Hkey & Hwf & Hnd).
  destruct (modify_level_spec _ _ _ _ _ _ Hwf Hnd Hcancel Hl) as (o & Hoq & Hid & Ham & _ & Hleft &
    Hamt).
  destruct (ok_order _ _ Hok _ _ _ _ Hqueue Hoq) as (Hne & Hoo & Hsome).
  rewrite Hid, Hkb in Hoo. injection Hoo as Hprice Howner.
  assert (queue_wf queue) as Hqw by done. unfold queue_wf in Hqw. rewrite Forall_forall in Hqw.
  pose proof (Hqw o Hoq) as Hor. unfold in_range in Hor.
  assert (forall o, is_Some (account_info self !! o) -> is_Some (info !! o)) as Hdom.
  { destruct remove; [intros o'; by eapply remove_order_id_dom|by injection Hinfo as <-]. }
  set (self1 := set_info info (set_book nature (<[key := queue']> (book_of nature self)) self)) in *.
  assert (replaces key queue' (book_of nature self) (<[key := queue']> (book_of nature self))) as Hrep.
  { intros k q [[<- <-]|[? ?]]%lookup_insert_Some; [by left|by right]. }
  assert (engine_ok me self1) as Hok1.
  { eapply engine_ok_replace; [done| |done|exact Hrep|done]. by rewrite Hqueue. }
  assert (forall n, book_of n self1 = if decide (n = nature) then <[key :=
    queue']> (book_of nature self)
    else book_of n self) as Hbook by (intros n; apply book_of_set).
  assert (uncrossed self -> uncrossed self1) as Hun.
  { rewrite !(uncrossed_side nature). intros Hu k q k' q'. rewrite !Hbook, decide_True by done.
    rewrite decide_False by by destruct nature.
    intros [[-> ->]|[_ Hk]]%Hrep Hlq; [|by eapply Hu]. eapply Hu; [done|by eapply left_of_live]. }
  pose proof (book_value_insert nature key queue' (book_of nature self)) as Hval.
  rewrite Hqueue in Hval. simpl in Hval. rewrite Hamt in Hval. unfold key in Hval.
  rewrite level_key_involutive in Hval. fold key in Hval.
  destruct nature; inv_result; simplify_eq.
  - match goal with H : product_price_amount _ _ = Ok _ |- _ => apply product_Ok in H as [-> ?] end.
    split; [|done]. assert (0 <= price) by (unfold key, in_range, level_key, revert in Hkey; lia).
    split; try done.
    + apply Forall_singleton. split; [|simpl; lia]. unfold in_range. simpl. nia.
    + by apply Forall_singleton.
    + simpl in *. rewrite Hval. ring.
  - split; [|done]. split; try done.
    + apply Forall_singleton. split; [|simpl; lia]. unfold in_range. simpl. lia.
    + by apply Forall_singleton.
    + simpl in *. rewrite Hval. ring.
Qed.

(** ** Custody *)

Section custody.
Context (app token0 token1 : UserApplicationId) (tokens_differ : token0 <> token1).
Notation me := (Application app).

Definition token_at (idx : nat) : UserApplicationId := if decide (idx = 0%nat) then token0 else token1.
Definition custody (idx : nat) (w : World) : Z := balance_of (tokens w) (token_at idx) me.
(** What the engine has beyond the orders of its book. *)
Definition surplus (nature : OrderNature) (w : World) : Z :=
  custody (side_token nature) w - book_value nature (book_of nature (engine w)).
Record world_ok (w : World) : Prop := {
  world_engine : engine_ok me (engine w);
  world_tokens : tokens_wf (tokens w);
}.
Definition order_ok (order : Order) : Prop :=
  match order with
  | Insert owner amount _ price => owner <> me /\ in_range u128_MAX amount /\ in_range u64_MAX price
  | Cancel _ _ => True
  | Modify _ _ cancel_amount => 0 <= cancel_amount
  end.

Lemma token_at_inj idx idx' :
  (idx <= 1)%nat -> (idx' <= 1)%nat -> token_at idx = token_at idx' -> idx = idx'.
Proof. unfold token_at. intros ? ?. do 2 case_decide; intros; subst; try done; lia. Qed.
Lemma fungible_id_at idx : (idx <= 1)%nat -> fungible_id token0 token1 idx = Ok (token_at idx).
Proof. unfold token_at. destruct idx as [|[|idx]]; intros ?; [done|done|lia]. Qed.

(** A transfer of the contract is one of the token. *)
Lemma transfer_local env idx owner target amount w :
  (idx <= 1)%nat ->
  transfer env token0 token1 owner amount (local_account env target) idx w =
  (ts ← map_err CallFailed (local_transfer env (token_at idx) owner target amount (tokens w));
   Ok (set_tokens w ts)).
Proof.
  intros Hi. unfold transfer, local_transfer, local_account. rewrite fungible_id_at by done. simpl.
  by destruct (call_application _ _ _ _) as [[[? ?] ?]| |].
Qed.

Lemma send_to_Ok env t w w' :
  current_application_id env = app -> tokens_wf (tokens w) -> transfer_wf t -> transfer_owner t <> me ->
  send_to env token0 token1 t w = Ok w' ->
  engine w' = engine w /\ tokens_wf (tokens w') /\
  forall idx, (idx <= 1)%nat -> custody idx w' = custody idx w - paid idx [t].
Proof.
  intros Henv Hwf [Ha Hidx] Hne. unfold send_to. rewrite transfer_local by done. intros Ht. inv_result.
  subst w'. match goal with H : local_transfer _ _ _ _ _ _ = Ok _ |- _ =>
    apply local_transfer_Ok in H as (Hwf' & Hm & _); [|done..] end.
  split_and!; [done|done|]. intros idx Hi. unfold custody, application_account in *.
  rewrite Henv in Hm. simpl.
  case_decide as Hidx'.
  - rewrite <- Hidx'. rewrite (moved_source _ _ _ _ _ _ Hm) by done. lia.
  - rewrite (moved_other _ _ _ _ _ _ _ _ Hm); [lia|]. left. intros Heq%token_at_inj; done.
Qed.

Lemma send_all_Ok env ts : forall w w',
  current_application_id env = app -> tokens_wf (tokens w) -> Forall transfer_wf ts ->
  Forall (fun t => transfer_owner t <> me) ts ->
  for_each (send_to env token0 token1) ts w = Ok w' ->
  engine w' = engine w /\ tokens_wf (tokens w') /\
  forall idx, (idx <= 1)%nat -> custody idx w' = custody idx w - paid idx ts.
Proof.
  induction ts as [|t ts IH]; intros w w' Henv Hwf Hts Hown; cbn [for_each].
  { intros [= <-]. split_and!; [done|done|]. intros idx _. simpl. lia. }
  apply Forall_cons in Hts as [Ht Hts]. apply Forall_cons in Hown as [Ho Hown].
  intros (w1 & Hs & Hr)%bind_Ok.
  destruct (send_to_Ok env t w w1) as (He1 & Hwf1 & Hc1); [done..|].
  destruct (IH w1 w') as (He & Hwf' & Hc); [done..|]. split_and!; [congruence|done|].
  intros idx Hi. rewrite Hc, Hc1 by done. simpl. lia.
Qed.

Lemma receive_Ok env owner amount nature price w w' :
  current_application_id env = app -> tokens_wf (tokens w) -> owner <> me ->
  in_range u128_MAX amount -> in_range u64_MAX price ->
  receive_from_account env token0 token1 owner amount nature price w = Ok w' ->
  engine w' = engine w /\ tokens_wf (tokens w') /\
  forall idx, (idx <= 1)%nat -> custody idx w' = custody idx w + deposit idx nature price amount.
Proof.
  intros Henv Hwf Hne Ha Hp. unfold receive_from_account. intros ([a i] & Hg & Ht)%bind_Ok.
  assert (a = unit_value nature price * amount /\ i = side_token nature /\ in_range u128_MAX a)
    as (-> & -> & Har).
  { unfold in_range in *. destruct nature; simpl in Hg; inv_result; simplify_eq; simpl.
    - match goal with H : product_price_amount _ _ = Ok _ |- _ => apply product_Ok in H as [-> ?] end.
      split_and!; [done|done|nia|done].
    - split_and!; [lia|done|lia|lia]. }
  assert (side_token nature <= 1)%nat as Hi by (destruct nature; simpl; lia).
  rewrite transfer_local in Ht by done. inv_result. subst w'.
  match goal with H : local_transfer _ _ _ _ _ _ = Ok _ |- _ =>
    apply local_transfer_Ok in H as (Hwf' & Hm & _); [|done..] end.
  split_and!; [done|done|]. intros idx Hidx. unfold custody, deposit, application_account in *.
  rewrite Henv in Hm. simpl. case_decide as Heq.
  - rewrite <- Heq. by rewrite (moved_target _ _ _ _ _ _ Hm).
  - rewrite (moved_other _ _ _ _ _ _ _ _ Hm); [lia|]. left. intros He%token_at_inj; done.
Qed.

(** Orders change custody as they change the book. *)
Lemma execute_order_exact env order w w' :
  current_application_id env = app -> world_ok w -> order_ok order ->
  next_order_number (engine w) < u64_MAX ->
  execute_order_local env token0 token1 order w = Ok w' ->
  world_ok w' /\ (forall nature, surplus nature w' = surplus nature w) /\
  (uncrossed (engine w) -> uncrossed (engine w')).
Proof.
  intros Henv [Hok Hwf] Hord Hlt. pose proof (ok_next _ _ Hok) as Hn.
  assert (forall id cancel owner, match cancel with All => True | Partial c => 0 <= c end ->
    modify_order_check env token0 token1 id cancel owner w = Ok w' ->
    world_ok w' /\ (forall nature, surplus nature w' = surplus nature w) /\
    (uncrossed (engine w) -> uncrossed (engine w'))) as Hmodify.
  { intros id cancel owner Hcancel Hm. unfold modify_order_check in Hm. inv_result.
    match goal with H : modify_order _ _ _ = Ok ?x |- _ => destruct x as [t self];
      apply (modify_order_spec me) in H as ([Hok' Hw Ho Hb Ha Hu] & _ & Hnx); [|done..] end.
    apply Forall_cons in Hw as [Hw _]. apply Forall_cons in Ho as [Ho _].
    apply send_to_Ok in Hm as (He & Hwf' & Hc); [|done..]. simpl in He. rewrite He in *.
    split_and!; [|intros []; unfold surplus; rewrite He, Hc by (simpl; lia)|done].
    - split; by rewrite ?He.
    - unfold custody in *. simpl in *. lia.
    - unfold custody in *. simpl in *. lia. }
  destruct order as [owner amount nature price|owner id|owner id c]; simpl in Hord |- *;
    [|by apply Hmodify|by apply Hmodify].
  destruct Hord as (Hne & Ha & Hp). intros (w1 & Hrec & Hr)%bind_Ok.
  destruct (receive_Ok env owner amount nature price w w1) as (He1 & Hwf1 & Hc1); [done..|].
  rewrite He1 in Hr. apply bind_Ok in Hr as ([ts self] & Hins & Hr).
  pose proof (insert_and_uncross_spec me _ _ _ _ _ _ _ Hok Hne Ha Hp (conj Hn Hlt) Hins) as
    [Hok' Hw Ho Hb Hak Hu].
  apply send_all_Ok in Hr as (He & Hwf' & Hc); [|done..]. simpl in He. split_and!.
  - split; [by rewrite He|done].
  - intros n. unfold surplus. rewrite He, Hc by (destruct n; simpl; lia).
    change (custody (side_token n) {| engine := self; tokens :=
      tokens w1 |}) with (custody (side_token n) w1).
    rewrite Hc1 by (destruct n; simpl; lia). destruct n; simpl in *; lia.
  - by rewrite He.
Qed.

(** *** Histories *)

(** The engine executes orders, for any signer; and the tokens do anything but what only the engine
    may do with its accounts, within their supplies.  There are fewer than 2^64 orders. *)
Inductive engine_step (w : World) : World -> Prop :=
  | step_order env order w' :
      current_application_id env = app -> order_ok order ->
      next_order_number (engine w) < u64_MAX ->
      execute_order_local env token0 token1 order w = Ok w' -> engine_step w w'
  | step_token ts : foreign me (tokens w) ts -> engine_step w (set_tokens w ts).

Lemma engine_step_ok w w' :
  world_ok w -> engine_step w w' ->
  world_ok w' /\ (forall nature, surplus nature w <= surplus nature w') /\
  (uncrossed (engine w) -> uncrossed (engine w')).
Proof.
  intros Hw. destruct 1 as [env order w' Henv Hord Hn Hex|ts Hts].
  - destruct (execute_order_exact _ _ _ _ Henv Hw Hord Hn Hex) as (? & Hs & ?).
    split_and!; try done. intros nature. by rewrite Hs.
  - destruct Hw as [Hok Hwf]. destruct (foreign_keeps _ _ _ Hwf Hts) as [Hwf' Hb].
    split_and!; [done| |done]. intros nature. unfold surplus, custody. simpl.
    specialize (Hb (token_at (side_token nature))). lia.
Qed.

Lemma engine_history w w' :
  world_ok w -> rtc engine_step w w' ->
  world_ok w' /\ (forall nature, surplus nature w <= surplus nature w') /\
  (uncrossed (engine w) -> uncrossed (engine w')).
Proof.
  intros Hw. induction 1 as [w|w w1 w2 Hstep _ IH]; [done|].
  destruct (engine_step_ok _ _ Hw Hstep) as (Hw1 & Hs1 & Hu1). destruct (IH Hw1) as (? & Hs2 & ?).
  split_and!; [done| |auto]. intros nature. specialize (Hs1 nature). specialize (Hs2 nature). lia.
Qed.


(** The market is uncrossed.  Through any history, every bid of the book with something left is
    lower than every ask with something left. *)
Theorem book_uncrossed w w' kb qb ka qa :
  world_ok w -> uncrossed (engine w) -> rtc engine_step w w' ->
  bids (engine w') !! kb = Some qb -> asks (engine w') !! ka = Some qa -> live qb -> live qa ->
  revert kb < ka.
Proof.
  intros Hw Hu Hsteps. destruct (engine_history _ _ Hw Hsteps) as (_ & _ & Hu'). by apply Hu'.
Qed.

(** *** Cancelling *)

Lemma queue_amount_ge queue order :
  queue_wf queue -> order ∈ queue -> order_amount order <= queue_amount queue.
Proof.
  unfold queue_amount. intros Hq Hin.
  assert (forall q, queue_wf q -> 0 <= foldr (fun o sum => order_amount o + sum) 0 q) as Hnn.
  { induction 1 as [|o q Ho _ IH]; simpl; [done|]. unfold in_range in Ho. lia. }
  induction Hq as [|o q Ho Hq IH]; [by apply not_elem_of_nil in Hin|]. simpl. unfold in_range in Ho.
  apply elem_of_cons in Hin as [->|Hin]; [specialize (Hnn q Hq); lia|]. specialize (IH Hin). lia.
Qed.
Lemma unit_value_nonneg nature key : in_range u64_MAX key ->
  0 <= unit_value nature (level_key nature key).
Proof. unfold in_range. destruct nature; simpl; unfold revert; lia. Qed.
Lemma book_value_ge self nature key queue order :
  engine_ok me self -> book_of nature self !! key = Some queue -> order ∈ queue ->
  unit_value nature (level_key nature key) * order_amount order <= book_value nature (book_of nature
    self).
Proof.
  intros Hok Hk Hin. destruct (ok_level _ _ Hok _ _ _ Hk) as (Hkey & Hwf & _).
  pose proof (queue_amount_ge _ _ Hwf Hin). pose proof (unit_value_nonneg nature key Hkey).
  transitivity (unit_value nature (level_key nature key) * queue_amount queue); [nia|].
  unfold book_value. apply (map_sum_ge _ key); [|by rewrite map_lookup_imap, Hk].
  intros k x. rewrite map_lookup_imap. destruct (book_of nature self !! k) as [q|] eqn:Hq; simpl;
    [|done].
  intros [= <-]. destruct (ok_level _ _ Hok _ _ _ Hq) as (Hk' & Hwf' & _).
  pose proof (unit_value_nonneg nature k Hk').
  assert (0 <= queue_amount q); [|nia]. clear - Hwf'. unfold queue_amount.
  induction Hwf' as [|o q Ho _ IH]; simpl; [done|]. unfold in_range in Ho. lia.
Qed.

Lemma find_order queue order :
  NoDup (order_id <$> queue) -> order ∈ queue ->
  exists i, list_find (fun o => order_id o = order_id order) queue = Some (i, order).
Proof.
  intros Hnd Hin.
  destruct (list_find_elem_of (fun o => order_id o = order_id order) queue order) as [[i o] Hf];
    [done..|].
  exists i. rewrite Hf. apply list_find_Some in Hf as (Hi & Hid & _).
  apply list_elem_of_lookup in Hin as [j Hj].
  assert (i = j) as ->; [|congruence].
  eapply (NoDup_lookup (order_id <$> queue)); [done|rewrite list_lookup_fmap, Hi; simpl;
    by rewrite Hid|].
  by rewrite list_lookup_fmap, Hj.
Qed.

(** Cancelling an order that waits gives a transfer of all of it. *)
Lemma cancel_order self nature key queue order :
  engine_ok me self -> book_of nature self !! key = Some queue -> order ∈ queue ->
  unit_value nature (level_key nature key) * order_amount order <= u128_MAX ->
  exists self', modify_order (order_id order) All self =
    Ok ({| transfer_owner := order_owner order;
           transfer_amount := unit_value nature (level_key nature key) * order_amount order;
           token_idx := side_token nature |}, self').
Proof.
  intros Hok Hk Hin Hmax. destruct (ok_level _ _ Hok _ _ _ Hk) as (Hkey & Hwf & Hnd).
  destruct (ok_order _ _ Hok _ _ _ _ Hk Hin) as (_ & Hord & [ids Hinfo]).
  destruct (find_order _ _ Hnd Hin) as [i Hfind]. unfold queue_wf in Hwf. rewrite Forall_forall in Hwf.
  specialize (Hwf order Hin). unfold in_range in Hwf.
  unfold modify_order. rewrite Hord. cbn [ok_or mbind result_bind kb_nature kb_price kb_owner].
  rewrite level_key_involutive, Hk. cbn [default]. unfold modify_order_level.
  unfold default, id. rewrite Hfind. cbn [ok_or mbind result_bind].
  assert (checked_sub (order_amount order) 0 = Some (order_amount order)) as ->
    by (apply checked_sub_Some; lia).
  cbn [expect mbind result_bind]. rewrite Z.eqb_refl. unfold remove_order_id. cbn [fst snd].
  change (account_info (set_book ?n ?b self)) with (account_info self). rewrite Hinfo.
  cbn [expect mbind result_bind]. destruct nature; cbn [unit_value side_token level_key] in *.
  - unfold product_price_amount, try_mul.
    assert (checked_mul u128_MAX (order_amount order) (revert key) =
      Some (revert key * order_amount order)) as ->
      by (apply checked_mul_Some; lia). cbn. by eexists.
  - rewrite Z.mul_1_l. by eexists.
Qed.


End custody.

(** ** Examples *)

Module EngineExamples.

Import TokenExamples.

Definition engine0 : MatchingEngine :=
  {| next_order_number := 0; bids := ∅; asks := ∅; orders := ∅; account_info := ∅ |}.
Definition w0 : World :=
  {| engine := engine0; tokens := owning {[ User 1 := 100 ]} {[ User 2 := 10 ]} |}.
Definition run (signer : option Owner) (order : Order) (w : World) : World :=
  match execute_order_local (signed signer) coins apples order w with Ok w' => w' | _ => w end.

(** User 2 sells 10 apples for 5 coins each; user 1 bids 6 coins for each of 4 of them. *)
Definition ask : Order := Insert (User 2) 10 Ask 5.
Definition w1 : World := run (Some 2) ask w0.
Definition bid : Order := Insert (User 1) 4 Bid 6.
Definition w2 : World := run (Some 1) bid w1.

Lemma w0_ok : world_ok app w0.
Proof.
  split.
  - split; [intros nature ? ? H|intros nature ? ? ? H|intros ? [? H]|done];
      try destruct nature; cbn [w0 engine engine0 book_of bids asks orders] in H;
      by rewrite lookup_empty in H.
  - by apply owning_wf; vm_compute.
Qed.
Lemma history : rtc (engine_step app coins apples) w0 w2.
Proof.
  eapply rtc_l; [apply (step_order _ _ _ _ (signed (Some 2)) ask w1)|
    apply rtc_once, (step_order _ _ _ _ (signed (Some 1)) bid w2)].
  all: try (by vm_compute).
Qed.


(** What is left of the ask, and a bid below it. *)
Definition w3 : World := run (Some 1) (Insert (User 1) 2 Bid 3) w2.
Lemma history3 : rtc (engine_step app coins apples) w0 w3.
Proof.
  eapply rtc_r; [exact history|].
  apply (step_order _ _ _ _ (signed (Some 1)) (Insert (User 1) 2 Bid 3) w3); by vm_compute.
Qed.
Lemma book_uncrossed_witness : revert (revert 3) < 5.
Proof.
  apply (book_uncrossed app coins apples tokens_differ w0 w3 (revert 3)
    [{| order_amount := 2; order_owner := User 1; order_id := 2 |}] 5
    [{| order_amount := 6; order_owner := User 2; order_id := 0 |}] w0_ok).
  - intros ? ? ? ? H. cbn [w0 engine engine0 bids] in H. by rewrite lookup_empty in H.
  - exact history3.
  - by vm_compute.
  - by vm_compute.
  - eexists. split; [by apply list_elem_of_singleton|done].
  - eexists. split; [by apply list_elem_of_singleton|done].
Defined.

Definition rest : OrderEntry := {| order_amount := 6; order_owner := User 2; order_id := 0 |}.

(** The owner that an order names is the owner that is compared: whoever signs, the order of user 2
    is cancelled. *)
Example anyone_cancels :
  asks (engine (run (Some 9) (Cancel (User 2) 0) w2)) !! 5 = Some [] /\
  balance_of (tokens (run (Some 9) (Cancel (User 2) 0) w2)) apples (User 2) = 6.
Proof. by vm_compute. Qed.

(** An order in the name of the engine itself needs no deposit: the tokens of other orders are moved
    from the account of the engine to itself.  User 9, who has nothing, inserts such an ask and then
    a bid for it at the price 0, and has the apples of user 2. *)
Definition stolen : World :=
  run (Some 9) (Insert (User 9) 10 Bid 0) (run (Some 9) (Insert (Application app) 10 Ask 0) w1).
Example engine_order_steals :
  balance_of (tokens w1) coins (User 9) = 0 /\
  balance_of (tokens stolen) apples (User 9) = 10 /\
  surplus app coins apples Ask stolen = -10 /\
  execute_order_local (signed (Some 2)) coins apples (Cancel (User 2) 0) stolen =
    Err (CallFailed InsufficientBalance).
Proof. by vm_compute. Qed.

(** The entry of an order in [orders] is never removed. *)
Example cancelled_order_remains :
  account_info (engine (run None (Cancel (User 2) 0) w2)) !! User 2 = Some ∅ /\
  orders (engine (run None (Cancel (User 2) 0) w2)) !! 0 =
    Some {| kb_price := 5; kb_nature := Ask; kb_owner := User 2 |}.
Proof. by vm_compute. Qed.

End EngineExamples.
