(* ===== verification/Amm.v ===== *)
(** * An automated market maker

    The example application [examples/amm]: a pool of two tokens, held in the accounts of the
    application, that exchanges one for the other so that the product of the two amounts is kept.

    The theorems: a swap gives as much as it can while the product does not decrease, and it always
    succeeds when the trader has the input ([swap_exact]); no history of swaps and additions, with
    anything else happening to the tokens, decreases the product ([product_never_decreases]);
    liquidity is added within the limits given and removed in the ratio of the pool. *)

From S2P Require Import Prelude Numbers Types Runtime Fungible TokenCalls.

(** ** Data *)

Inductive AmmOperation :=
| Swap (owner : AccountOwner) (input_token_idx : Z) (input_amount : Amount)
| AddLiquidity (owner : AccountOwner) (max_token0_amount max_token1_amount : Amount)
| RemoveLiquidity (owner : AccountOwner) (token_to_remove_idx : Z) (token_to_remove_amount : Amount).
Inductive AmmMessage :=
| SwapMessage (owner : AccountOwner) (input_token_idx : Z) (input_amount : Amount).
Inductive AmmCall :=
| SwapCall (owner : AccountOwner) (input_token_idx : Z) (input_amount : Amount).

Inductive AmmError :=
| InvalidPoolBalanceError
| SessionsNotSupported
| AmmChainOnly
| NoZeroAmounts
| InvalidTokenIdx
| RemovingLiquidityFromRemoteChain
| AddingLiquidityFromRemoteChain
| SwappingLocally
| CallFailed (e : Error).

(** Division and conversion of the arbitrary-precision numbers ([BigUint]). *)
Definition big_div (a b : Z) : result AmmError Z := if b =? 0 then Panic else Ok (a / b).
Definition to_u128 (a : Z) : result AmmError Amount := if a <=? u128_MAX then Ok a else Panic.

Definition calculate_output_amount (input_amount input_pool_balance output_pool_balance : Amount)
    : result AmmError Amount :=
  ensure (negb ((input_pool_balance =? 0) || (output_pool_balance =? 0))) InvalidPoolBalanceError;;
  let numerator := input_amount * output_pool_balance in
  let denominator := input_pool_balance + input_amount in
  output_amount ← big_div numerator denominator;
  to_u128 output_amount.

(** The amounts that [AddLiquidity] takes. *)
Definition added_amounts (balance0 balance1 max_token0_amount max_token1_amount : Amount)
    : result AmmError (Amount * Amount) :=
  if (0 <? balance0) && (0 <? balance1) then
    if max_token1_amount * balance0 <? max_token0_amount * balance1 then
      token0_amount ← big_div (balance0 * max_token1_amount) balance1;
      token0_amount ← to_u128 token0_amount;
      token1_amount ← to_u128 max_token1_amount;
      Ok (token0_amount, token1_amount)
    else
      token1_amount ← big_div (balance1 * max_token0_amount) balance0;
      token0_amount ← to_u128 max_token0_amount;
      token1_amount ← to_u128 token1_amount;
      Ok (token0_amount, token1_amount)
  else Ok (max_token0_amount, max_token1_amount).

(** The amounts that [RemoveLiquidity] pays, of the token it names and of the other one. *)
Definition removed_amounts (balance0 balance1 : Amount) (token_to_remove_idx : Z)
    (token_to_remove_amount : Amount) : result AmmError (Amount * Amount) :=
  let token_to_remove_amount :=
    if (token_to_remove_idx =? 0) && (balance0 <? token_to_remove_amount) then balance0
    else if (token_to_remove_idx =? 1) && (balance1 <? token_to_remove_amount) then balance1
    else token_to_remove_amount in
  other_amount ←
    (if token_to_remove_idx =? 0 then
       amount ← big_div (token_to_remove_amount * balance1) balance0; to_u128 amount
     else
       amount ← big_div (token_to_remove_amount * balance0) balance1; to_u128 amount);
  Ok (token_to_remove_amount, other_amount).

(** ** The contract *)

Section contract.
Context (env : Env) (token0 token1 : UserApplicationId).

Definition fungible_id (token_idx : Z) : result AmmError UserApplicationId :=
  if token_idx =? 0 then Ok token0 else if token_idx =? 1 then Ok token1 else Panic.

Definition transfer (owner : AccountOwner) (amount : Amount) (destination : Destination)
    (token_idx : Z) (ts : Tokens) : result AmmError Tokens :=
  token ← fungible_id token_idx;
  '(_, _, ts) ← map_err CallFailed (call_application env token (Transfer owner amount destination) ts);
  Ok ts.

Definition pool_balance (owner : AccountOwner) (token_idx : Z) (ts : Tokens)
    : result AmmError (Amount * Tokens) :=
  token ← fungible_id token_idx;
  '(amount, _, ts) ← map_err CallFailed (call_application env token (Balance owner) ts);
  Ok (amount, ts).

Definition get_pool_balance (token_idx : Z) (ts : Tokens) : result AmmError (Amount * Tokens) :=
  pool_balance (application_account env) token_idx ts.

Definition receive_from_account (owner : AccountOwner) (token_idx : Z) (amount : Amount) (ts : Tokens)
    : result AmmError Tokens :=
  transfer owner amount
    (ToAccount {| account_chain := current_chain_id env; owner_of := application_account env |})
    token_idx ts.

Definition send_to (owner : AccountOwner) (token_idx : Z) (amount : Amount) (ts : Tokens)
    : result AmmError Tokens :=
  transfer (application_account env) amount
    (ToAccount {| account_chain := current_chain_id env; owner_of := owner |}) token_idx ts.

Definition execute_swap (owner : AccountOwner) (input_token_idx : Z) (input_amount : Amount)
    (ts : Tokens) : result AmmError Tokens :=
  ensure (negb (input_amount =? 0)) NoZeroAmounts;;
  ensure (input_token_idx <=? 1) InvalidTokenIdx;;
  let output_token_idx := 1 - input_token_idx in
  '(input_pool_balance, ts) ← get_pool_balance input_token_idx ts;
  '(output_pool_balance, ts) ← get_pool_balance output_token_idx ts;
  output_amount ← calculate_output_amount input_amount input_pool_balance output_pool_balance;
  ts ← receive_from_account owner input_token_idx input_amount ts;
  send_to owner output_token_idx output_amount ts.

Definition add_liquidity (owner : AccountOwner) (max_token0_amount max_token1_amount : Amount)
    (ts : Tokens) : result AmmError Tokens :=
  ensure (negb ((max_token0_amount =? 0) || (max_token1_amount =? 0))) NoZeroAmounts;;
  '(balance0, ts) ← get_pool_balance 0 ts;
  '(balance1, ts) ← get_pool_balance 1 ts;
  '(token0_amount, token1_amount) ←
    added_amounts balance0 balance1 max_token0_amount max_token1_amount;
  ts ← receive_from_account owner 0 token0_amount ts;
  receive_from_account owner 1 token1_amount ts.

Definition remove_liquidity (owner : AccountOwner) (token_to_remove_idx : Z)
    (token_to_remove_amount : Amount) (ts : Tokens) : result AmmError Tokens :=
  ensure (token_to_remove_idx <=? 1) InvalidTokenIdx;;
  let other_token_to_remove_idx := 1 - token_to_remove_idx in
  '(balance0, ts) ← get_pool_balance 0 ts;
  '(balance1, ts) ← get_pool_balance 1 ts;
  '(token_to_remove_amount, other_amount) ←
    removed_amounts balance0 balance1 token_to_remove_idx token_to_remove_amount;
  ts ← send_to owner token_to_remove_idx token_to_remove_amount ts;
  send_to owner other_token_to_remove_idx other_amount ts.

Definition execute_order_local (operation : AmmOperation) (ts : Tokens) : result AmmError Tokens :=
  match operation with
  | Swap _ _ _ => Err SwappingLocally
  | AddLiquidity owner max_token0_amount max_token1_amount =>
      add_liquidity owner max_token0_amount max_token1_amount ts
  | RemoveLiquidity owner token_to_remove_idx token_to_remove_amount =>
      remove_liquidity owner token_to_remove_idx token_to_remove_amount ts
  end.

Definition swap_message (owner : AccountOwner) (input_token_idx : Z) (input_amount : Amount)
    : RawOutgoingMessage AmmMessage :=
  {| raw_destination := Recipient (creation_chain env); raw_authenticated := true;
     raw_is_skippable := false; raw_message := SwapMessage owner input_token_idx input_amount |}.

Definition execute_order_remote (operation : AmmOperation)
    : result AmmError (list (RawOutgoingMessage AmmMessage)) :=
  match operation with
  | Swap owner input_token_idx input_amount => Ok [swap_message owner input_token_idx input_amount]
  | AddLiquidity _ _ _ => Err AddingLiquidityFromRemoteChain
  | RemoveLiquidity _ _ _ => Err RemovingLiquidityFromRemoteChain
  end.

Definition execute_application_call_remote (call : AmmCall) : list (RawOutgoingMessage AmmMessage) :=
  match call with
  | SwapCall owner input_token_idx input_amount => [swap_message owner input_token_idx input_amount]
  end.

Definition amm_execute_operation (operation : AmmOperation) (ts : Tokens)
    : result AmmError (list (RawOutgoingMessage AmmMessage) * Tokens) :=
  if current_chain_id env =? creation_chain env then
    ts ← execute_order_local operation ts; Ok ([], ts)
  else
    messages ← execute_order_remote operation; Ok (messages, ts).

Definition amm_execute_message (message : AmmMessage) (ts : Tokens) : result AmmError Tokens :=
  ensure (current_chain_id env =? creation_chain env) AmmChainOnly;;
  match message with
  | SwapMessage owner input_token_idx input_amount => execute_swap owner input_token_idx input_amount ts
  end.

Definition amm_handle_application_call (call : AmmCall) (ts : Tokens)
    : result AmmError (list (RawOutgoingMessage AmmMessage) * Tokens) :=
  match call with
  | SwapCall owner input_token_idx input_amount =>
      if current_chain_id env =? creation_chain env then
        ts ← execute_swap owner input_token_idx input_amount ts; Ok ([], ts)
      else Ok (execute_application_call_remote call, ts)
  end.

Definition amm_handle_session_call : result AmmError Tokens := Err SessionsNotSupported.

End contract.

(** ** Arithmetic *)

Lemma big_div_Ok a b : b <> 0 -> big_div a b = Ok (a / b).
Proof. intros Hb. unfold big_div. by rewrite (proj2 (Z.eqb_neq _ _) Hb). Qed.
Lemma to_u128_Ok a : a <= u128_MAX -> to_u128 a = Ok a.
Proof. intros Ha. unfold to_u128. by rewrite (proj2 (Z.leb_le _ _) Ha). Qed.

(** The output of a swap is the most that keeps the product. *)
Lemma output_spec x y input :
  0 < x -> 0 < y <= u128_MAX -> 0 < input ->
  exists out, calculate_output_amount input x y = Ok out /\ 0 <= out < y /\
    forall o, o <= out <-> x * y <= (x + input) * (y - o).
Proof.
  intros Hx Hy Hi. unfold calculate_output_amount.
  rewrite (proj2 (Z.eqb_neq x 0)), (proj2 (Z.eqb_neq y 0)) by lia.
  cbn [orb negb ensure mbind result_bind].
  rewrite big_div_Ok by lia. cbn [mbind result_bind].
  pose proof (Z.div_pos (input * y) (x + input) ltac:(nia) ltac:(lia)) as Hpos.
  pose proof (Z.mul_div_le (input * y) (x + input) ltac:(lia)) as Hle.
  pose proof (Z.mul_succ_div_gt (input * y) (x + input) ltac:(lia)) as Hgt.
  assert (input * y / (x + input) < y) as Hlt by (apply Z.div_lt_upper_bound; nia).
  rewrite to_u128_Ok by lia. eexists. split_and!; [done|lia|lia|]. intros o. split; intros Ho; nia.
Qed.

(** [AddLiquidity] takes no more than its limits, all of one of them, and of the other what the
    ratio of the pool asks for, rounded down. *)
Lemma added_spec x y m0 m1 :
  0 <= x -> 0 <= y -> in_range u128_MAX m0 -> in_range u128_MAX m1 ->
  exists t0 t1, added_amounts x y m0 m1 = Ok (t0, t1) /\ 0 <= t0 <= m0 /\ 0 <= t1 <= m1 /\
    (0 < x -> 0 < y -> (t0 = m0 /\ t1 = y * t0 / x) \/ (t1 = m1 /\ t0 = x * t1 / y)) /\
    (x = 0 \/ y = 0 -> t0 = m0 /\ t1 = m1).
Proof.
  intros Hx Hy [H0 H0'] [H1 H1']. unfold added_amounts.
  destruct ((0 <? x) && (0 <? y)) eqn:Hpos.
  - assert (0 < x /\ 0 < y) as [Hx0 Hy0] by lia. destruct (Z.ltb_spec (m1 * x) (m0 * y)) as [Hlt|Hge].
    + rewrite big_div_Ok by lia. cbn [mbind result_bind].
      assert (0 <= x * m1 / y) by (apply Z.div_pos; nia).
      assert (x * m1 / y <= m0) by (apply Z.div_le_upper_bound; lia).
      rewrite !to_u128_Ok by lia. cbn [mbind result_bind]. do 2 eexists.
      split_and!; [done|lia|lia|lia|lia|by right|lia].
    + rewrite big_div_Ok by lia. cbn [mbind result_bind].
      assert (0 <= y * m0 / x) by (apply Z.div_pos; nia).
      assert (y * m0 / x <= m1) by (apply Z.div_le_upper_bound; lia).
      rewrite !to_u128_Ok by lia. cbn [mbind result_bind]. do 2 eexists.
      split_and!; [done|lia|lia|lia|lia|by left|lia].
  - do 2 eexists. split_and!; [done|lia..|done].
Qed.

(** [RemoveLiquidity] pays no more than the pool has, in the ratio of the pool, rounded down. *)
Lemma removed_spec x y (idx : Z) amount :
  idx = 0 \/ idx = 1 -> in_range u128_MAX x -> in_range u128_MAX y -> 0 <= amount ->
  let this := if idx =? 0 then x else y in
  let other := if idx =? 0 then y else x in
  0 < this ->
  exists out, removed_amounts x y idx amount = Ok (Z.min amount this, out) /\
    0 <= out <= other /\ out = Z.min amount this * other / this.
Proof.
  intros Hidx [Hx Hx'] [Hy Hy'] Ha this other Hthis. unfold removed_amounts.
  assert ((if (idx =? 0) && (x <? amount) then x
           else if (idx =? 1) && (y <? amount) then y else amount) = Z.min amount this) as ->.
  { subst this. destruct Hidx as [-> | ->]; simpl;
      [destruct (Z.ltb_spec x amount)|destruct (Z.ltb_spec y amount)]; lia. }
  assert (0 <= other) by (subst other; destruct (idx =? 0); lia).
  assert (0 <= Z.min amount this * other / this) by (apply Z.div_pos; nia).
  assert (Z.min amount this * other / this <= other) by (apply Z.div_le_upper_bound; nia).
  subst this other. destruct Hidx as [-> | ->]; simpl in *; rewrite big_div_Ok by lia;
    cbn [mbind result_bind]; rewrite to_u128_Ok by lia; cbn [mbind result_bind];
    (eexists; split_and!; [done|lia|lia|done]).
Qed.

(** ** The pool *)

Section pool.
Context (app token0 token1 : UserApplicationId) (tokens_differ : token0 <> token1).
Notation me := (Application app).

Definition token_at (idx : Z) : UserApplicationId := if idx =? 0 then token0 else token1.
Definition pool (idx : Z) (ts : Tokens) : Amount := balance_of ts (token_at idx) me.
Definition valid_idx (idx : Z) : Prop := idx = 0 \/ idx = 1.

Lemma pool_token_at idx : valid_idx idx -> fungible_id token0 token1 idx = Ok (token_at idx).
Proof. by intros [-> | ->]. Qed.
Lemma token_at_other idx : valid_idx idx -> token_at (1 - idx) <> token_at idx.
Proof. intros [-> | ->]; unfold token_at; simpl; congruence. Qed.

Section step.
Context (env : Env) (env_app : current_application_id env = app).

Lemma pool_transfer owner target amount idx ts :
  valid_idx idx ->
  transfer env token0 token1 owner amount
    (ToAccount {| account_chain := current_chain_id env; owner_of := target |}) idx ts =
  map_err CallFailed (local_transfer env (token_at idx) owner target amount ts).
Proof.
  intros Hidx. unfold transfer, local_transfer. rewrite pool_token_at by done. cbn [mbind result_bind].
  by destruct (call_application _ _ _ _) as [[[] ]| |].
Qed.
Lemma pool_query idx ts :
  valid_idx idx ->
  get_pool_balance env token0 token1 idx ts = Ok (pool idx ts, touched (token_at idx) ts).
Proof.
  intros Hidx. unfold get_pool_balance, pool_balance, application_account.
  rewrite pool_token_at, env_app by done. cbn [mbind result_bind]. by rewrite balance_call.
Qed.
Lemma pool_touched token idx ts : pool idx (touched token ts) = pool idx ts.
Proof. apply balance_touched. Qed.
Lemma pool_range idx ts : tokens_wf ts -> in_range u128_MAX (pool idx ts).
Proof. intros Hwf. apply balance_range, Hwf. Qed.

(** What the pool takes and gives. *)
Lemma pool_receive_Ok owner idx amount ts ts' :
  valid_idx idx -> tokens_wf ts -> in_range u128_MAX amount ->
  receive_from_account env token0 token1 owner idx amount ts = Ok ts' ->
  tokens_wf ts' /\ moved (token_at idx) owner me amount ts ts'.
Proof.
  intros Hidx Hwf Ha. unfold receive_from_account, application_account. rewrite pool_transfer by done.
  intros Ht. inv_result. rewrite env_app in *.
  match goal with H : local_transfer _ _ _ _ _ _ = Ok _ |- _ => apply local_transfer_Ok in H;
    [|done..] end.
  naive_solver.
Qed.
Lemma pool_send_Ok owner idx amount ts ts' :
  valid_idx idx -> tokens_wf ts -> in_range u128_MAX amount ->
  send_to env token0 token1 owner idx amount ts = Ok ts' ->
  tokens_wf ts' /\ moved (token_at idx) me owner amount ts ts'.
Proof.
  intros Hidx Hwf Ha. unfold send_to, application_account. rewrite pool_transfer by done.
  intros Ht. inv_result. rewrite env_app in *.
  match goal with H : local_transfer _ _ _ _ _ _ = Ok _ |- _ => apply local_transfer_Ok in H;
    [|done..] end.
  naive_solver.
Qed.
Lemma receive_succeeds owner idx amount ts :
  valid_idx idx -> tokens_wf ts -> in_range u128_MAX amount -> may_spend env owner ->
  amount <= balance_of ts (token_at idx) owner ->
  exists ts', receive_from_account env token0 token1 owner idx amount ts = Ok ts' /\
    tokens_wf ts' /\ moved (token_at idx) owner me amount ts ts'.
Proof.
  intros Hidx Hwf Ha Hsp Hle.
  destruct (local_transfer_succeeds env (token_at idx) owner (application_account env) amount ts Hsp
    Hle)
    as [ts' Ht].
  assert (receive_from_account env token0 token1 owner idx amount ts = Ok ts') as Hr.
  { unfold receive_from_account. by rewrite pool_transfer, Ht. }
  exists ts'. split; [done|]. eapply pool_receive_Ok; done.
Qed.
Lemma send_succeeds owner idx amount ts :
  valid_idx idx -> tokens_wf ts -> in_range u128_MAX amount -> amount <= pool idx ts ->
  exists ts', send_to env token0 token1 owner idx amount ts = Ok ts' /\
    tokens_wf ts' /\ moved (token_at idx) me owner amount ts ts'.
Proof.
  intros Hidx Hwf Ha Hle.
  destruct (local_transfer_succeeds env (token_at idx) (application_account env) owner amount ts)
    as [ts' Ht]; [done|unfold application_account; by rewrite env_app|].
  assert (send_to env token0 token1 owner idx amount ts = Ok ts') as Hr.
  { unfold send_to. by rewrite pool_transfer, Ht. }
  exists ts'. split; [done|]. eapply pool_send_Ok; done.
Qed.

(** *** Swaps *)

Lemma swap_eq owner idx input ts :
  valid_idx idx -> input <> 0 ->
  execute_swap env token0 token1 owner idx input ts =
  (output ← calculate_output_amount input (pool idx ts) (pool (1 - idx) ts);
   ts' ← receive_from_account env token0 token1 owner idx input
           (touched (token_at (1 - idx)) (touched (token_at idx) ts));
   send_to env token0 token1 owner (1 - idx) output ts').
Proof.
  intros Hidx Hin. unfold execute_swap. rewrite (proj2 (Z.eqb_neq _ _) Hin).
  assert (valid_idx (1 - idx)) by (destruct Hidx as [-> | ->]; unfold valid_idx; lia).
  replace (idx <=? 1) with true by (symmetry; apply Z.leb_le; destruct Hidx; lia).
  cbn [negb ensure mbind result_bind]. rewrite pool_query by done. cbn [mbind result_bind].
  rewrite pool_query by done. cbn [mbind result_bind]. by rewrite pool_touched.
Qed.
Lemma valid_other idx : valid_idx idx -> valid_idx (1 - idx).
Proof. unfold valid_idx. lia. Qed.

End step.

(** Swaps give what they should.  If both tokens are in the pool, a trader who has the input amount
    and may spend it can swap: the pool gets the input and gives the output, of which it always has
    enough; and the output is the most that does not decrease the product of the two amounts. *)
Theorem swap_exact env owner idx input ts :
  current_application_id env = app -> tokens_wf ts -> valid_idx idx -> owner <> me ->
  may_spend env owner -> 0 < input <= balance_of ts (token_at idx) owner ->
  0 < pool idx ts -> 0 < pool (1 - idx) ts ->
  exists output ts', execute_swap env token0 token1 owner idx input ts = Ok ts' /\
    pool idx ts' = pool idx ts + input /\ pool (1 - idx) ts' = pool (1 - idx) ts - output /\
    balance_of ts' (token_at idx) owner = balance_of ts (token_at idx) owner - input /\
    balance_of ts' (token_at (1 - idx)) owner = balance_of ts (token_at (1 - idx)) owner + output /\
    forall o, o <= output <->
      pool idx ts * pool (1 - idx) ts <= (pool idx ts + input) * (pool (1 - idx) ts - o).
Proof.
  intros Henv Hwf Hidx Hne Hsp Hin Hp Hq. pose proof (valid_other _ Hidx) as Hidx'.
  pose proof (token_at_other _ Hidx) as Htok.
  destruct (pool_range (1 - idx) ts Hwf) as [_ Hy]. set (x := pool idx ts) in *.
  destruct (output_spec x (pool (1 - idx) ts) input) as (out & Hout & Hr & Hmax); [done..|lia|].
  pose proof (balance_range owner _ (proj1 (Hwf (token_at idx)))) as Hb.
  unfold balance_of in Hin. unfold in_range in Hb.
  set (ts1 := touched (token_at (1 - idx)) (touched (token_at idx) ts)).
  assert (forall t o, balance_of ts1 t o = balance_of ts t o) as Hts1
    by (intros; unfold ts1; by rewrite !balance_touched).
  destruct (receive_succeeds env Henv owner idx input ts1) as (ts2 & Hrec & Hwf2 & Hm2);
    [done|by apply touched_wf, touched_wf|unfold in_range; lia|done|rewrite Hts1; apply Hin|].
  assert (pool (1 - idx) ts2 = pool (1 - idx) ts) as Hp2.
  { unfold pool. rewrite (moved_other _ _ _ _ _ _ _ _ Hm2) by (by left). apply Hts1. }
  destruct (send_succeeds env Henv owner (1 - idx) out ts2) as (ts3 & Hsend & _ & Hm3);
    [done|done|unfold in_range; lia|lia|].
  exists out, ts3. rewrite swap_eq by (done || lia). fold x ts1. rewrite Hout. cbn [mbind result_bind].
  rewrite Hrec. cbn [mbind result_bind]. unfold pool in *.
  rewrite !(moved_other _ _ _ _ _ _ (token_at idx) _ Hm3) by (by left).
  rewrite (moved_target _ _ _ _ _ _ Hm2), (moved_source _ _ _ _ _ _ Hm2) by done.
  rewrite (moved_source _ _ _ _ _ _ Hm3), (moved_target _ _ _ _ _ _ Hm3) by done.
  rewrite (moved_other _ _ _ _ _ _ (token_at (1 - idx)) owner Hm2) by (by left).
  rewrite Hp2, !Hts1. done.
Qed.

(** *** Histories *)

Definition product (ts : Tokens) : Z := pool 0 ts * pool 1 ts.


(** Swaps, additions of liquidity, and what others do with the tokens. *)
Inductive amm_step (ts : Tokens) : Tokens -> Prop :=
  | step_swap env owner idx input ts' :
      current_application_id env = app -> 0 <= idx -> in_range u128_MAX input ->
      execute_swap env token0 token1 owner idx input ts = Ok ts' -> amm_step ts ts'
  | step_add env owner max0 max1 ts' :
      current_application_id env = app -> in_range u128_MAX max0 -> in_range u128_MAX max1 ->
      execute_order_local env token0 token1 (AddLiquidity owner max0 max1) ts = Ok ts' ->
      amm_step ts ts'
  | step_foreign ts' : foreign me ts ts' -> amm_step ts ts'.

(** The pool after a transfer to it and after one from it. *)
Lemma pool_received idx owner amount ts ts' idx' :
  moved (token_at idx) owner me amount ts ts' -> valid_idx idx -> valid_idx idx' ->
  pool idx' ts' = pool idx' ts + (if decide (idx' = idx /\ owner <> me) then amount else 0).
Proof.
  intros Hm Hi Hi'. unfold pool. destruct (decide (owner = me)) as [->|Hne].
  - rewrite (moved_self _ _ _ _ _ _ _ Hm), decide_False by tauto. lia.
  - destruct (decide (idx' = idx)) as [->|Hid].
    + rewrite (moved_target _ _ _ _ _ _ Hm), decide_True by done. done.
    + rewrite decide_False, (moved_other _ _ _ _ _ _ _ _ Hm) by
        (tauto || (left; replace idx' with (1 - idx) by (unfold valid_idx in *; lia);
          by apply token_at_other)). lia.
Qed.
Lemma pool_sent idx owner amount ts ts' idx' :
  moved (token_at idx) me owner amount ts ts' -> valid_idx idx -> valid_idx idx' ->
  pool idx' ts' = pool idx' ts - (if decide (idx' = idx /\ owner <> me) then amount else 0).
Proof.
  intros Hm Hi Hi'. unfold pool. destruct (decide (owner = me)) as [->|Hne].
  - rewrite (moved_self _ _ _ _ _ _ _ Hm), decide_False by tauto. lia.
  - destruct (decide (idx' = idx)) as [->|Hid].
    + rewrite (moved_source _ _ _ _ _ _ Hm), decide_True by done. done.
    + rewrite decide_False, (moved_other _ _ _ _ _ _ _ _ Hm) by
        (tauto || (left; replace idx' with (1 - idx) by (unfold valid_idx in *; lia);
          by apply token_at_other)). lia.
Qed.

Lemma product_idx idx ts : valid_idx idx -> product ts = pool idx ts * pool (1 - idx) ts.
Proof. unfold product. intros [-> | ->]; [done|apply Z.mul_comm]. Qed.

Lemma swap_product env owner idx input ts ts' :
  current_application_id env = app -> tokens_wf ts -> 0 <= idx -> in_range u128_MAX input ->
  execute_swap env token0 token1 owner idx input ts = Ok ts' ->
  tokens_wf ts' /\ product ts <= product ts'.
Proof.
  intros Henv Hwf Hidx0 Hi Hex.
  assert (valid_idx idx /\ input <> 0) as [Hidx Hin].
  { unfold execute_swap in Hex. unfold valid_idx. inv_result. lia. }
  rewrite swap_eq in Hex by done.
  apply bind_Ok in Hex as (out & Hout & (ts1 & Hrec & Hsend)%bind_Ok).
  pose proof (valid_other _ Hidx) as Hidx'. destruct (pool_range (1 - idx) ts Hwf) as [Hy0 Hy].
  destruct (pool_range idx ts Hwf) as [Hx0 Hx].
  assert (0 < pool idx ts /\ 0 < pool (1 - idx) ts) as [Hxp Hyp].
  { unfold calculate_output_amount in Hout. inv_result. lia. }
  unfold in_range in Hi.
  destruct (output_spec (pool idx ts) (pool (1 - idx) ts) input) as (out' & Hout' & Hr & Hmax);
    [done..|lia|]. assert (out' = out) as -> by congruence.
  apply pool_receive_Ok in Hrec as [Hwf1 Hm1]; [|done|done|by apply touched_wf, touched_wf|done].
  apply pool_send_Ok in Hsend as [Hwf2 Hm2]; [|done..|unfold in_range; lia]. split; [done|].
  rewrite !(product_idx idx) by done.
  rewrite !(pool_sent _ _ _ _ _ _ Hm2), !(pool_received _ _ _ _ _ _ Hm1), !pool_touched by done.
  destruct (decide (owner = me)) as [->|Hne]; [rewrite !decide_False by tauto; lia|].
  rewrite (decide_True (P := idx = idx /\ _)), (decide_False (P := idx = 1 - idx /\ _)),
    (decide_False (P := 1 - idx = idx /\ _)), (decide_True (P := 1 - idx = 1 - idx /\ _))
    by (unfold valid_idx in *; lia || done).
  rewrite Z.sub_0_r, Z.add_0_r. apply Hmax. done.
Qed.

Lemma add_eq env owner max0 max1 ts :
  current_application_id env = app ->
  add_liquidity env token0 token1 owner max0 max1 ts =
  (ensure (negb ((max0 =? 0) || (max1 =? 0))) NoZeroAmounts;;
   '(t0, t1) ← added_amounts (pool 0 ts) (pool 1 ts) max0 max1;
   ts' ← receive_from_account env token0 token1 owner 0 t0
           (touched (token_at 1) (touched (token_at 0) ts));
   receive_from_account env token0 token1 owner 1 t1 ts').
Proof.
  intros Henv. unfold add_liquidity. destruct (negb _); cbn [ensure mbind result_bind]; [|done].
  rewrite pool_query by (done || by left). cbn [mbind result_bind].
  rewrite pool_query by (done || by right). cbn [mbind result_bind]. by rewrite pool_touched.
Qed.
Lemma add_product env owner max0 max1 ts ts' :
  current_application_id env = app -> tokens_wf ts -> in_range u128_MAX max0 ->
  in_range u128_MAX max1 ->
  execute_order_local env token0 token1 (AddLiquidity owner max0 max1) ts = Ok ts' ->
  tokens_wf ts' /\ product ts <= product ts'.
Proof.
  intros Henv Hwf H0 H1. cbn [execute_order_local]. rewrite add_eq by done.
  intros (_ & _ & ([t0 t1] & Hadd & (ts1 & Hr0 & Hr1)%bind_Ok)%bind_Ok)%bind_Ok.
  destruct (pool_range 0 ts Hwf) as [Hx _]. destruct (pool_range 1 ts Hwf) as [Hy _].
  destruct (added_spec (pool 0 ts) (pool 1 ts) max0 max1) as (t0' & t1' & Hadd' & Ht0 & Ht1 & _);
    [done..|]. rewrite Hadd in Hadd'. injection Hadd' as <- <-. unfold in_range in *.
  assert (valid_idx 0 /\ valid_idx 1) as [Hv0 Hv1] by (unfold valid_idx; lia).
  apply pool_receive_Ok in Hr0 as [Hwf1 Hm1]; [|done|done|by apply touched_wf, touched_wf|unfold in_range;
    lia].
  apply pool_receive_Ok in Hr1 as [Hwf2 Hm2]; [|done..|unfold in_range; lia]. split; [done|]. unfold product.
  rewrite !(pool_received _ _ _ _ _ _ Hm2), !(pool_received _ _ _ _ _ _ Hm1), !pool_touched by done.
  repeat case_decide; nia.
Qed.

(** C23: Traders cannot drain the pool.  Through any history of swaps and additions of liquidity, by
    anyone and with any amounts, and of anything that others do with the tokens, the product of the
    two amounts in the pool never decreases; so a pool that has both tokens keeps both. *)
Theorem product_never_decreases ts ts' :
  tokens_wf ts -> rtc amm_step ts ts' ->
  product ts <= product ts' /\ (0 < product ts -> 0 < pool 0 ts' /\ 0 < pool 1 ts').
Proof.
  intros Hwf Hsteps.
  assert (tokens_wf ts' /\ product ts <= product ts') as [Hwf' Hle].
  { induction Hsteps as [ts|ts ts1 ts2 Hstep _ IH]; [done|].
    assert (tokens_wf ts1 /\ product ts <= product ts1) as [Hwf1 H1].
    { destruct Hstep as [env owner idx input ts' ? ? ? Hex|env owner max0 max1 ts' ? ? ? Hex|ts' Hf];
        [by apply (swap_product env owner idx input)|by apply (add_product env owner max0 max1)|].
      destruct (foreign_keeps _ _ _ Hwf Hf) as [Hwf1 Hb]. split; [done|].
      pose proof (Hb (token_at 0)). pose proof (Hb (token_at 1)).
      destruct (pool_range 0 ts Hwf). destruct (pool_range 1 ts Hwf). unfold product, pool in *. nia. }
    destruct (IH Hwf1). split; [done|lia]. }
  split; [done|]. intros Hpos. destruct (pool_range 0 ts' Hwf'). destruct (pool_range 1 ts' Hwf').
  unfold product in *. nia.
Qed.

(** *** Liquidity *)

(** Liquidity is added within the limits.  A provider who has the maximal amounts can add liquidity:
    all of one of them is taken, and of the other what the ratio of the pool asks for. *)
Lemma add_within_limits env owner max0 max1 ts :
  current_application_id env = app -> tokens_wf ts -> owner <> me -> may_spend env owner ->
  0 < max0 <= balance_of ts (token_at 0) owner -> 0 < max1 <= balance_of ts (token_at 1) owner ->
  exists t0 t1 ts', execute_order_local env token0 token1 (AddLiquidity owner max0 max1) ts = Ok ts' /\
    pool 0 ts' = pool 0 ts + t0 /\ pool 1 ts' = pool 1 ts + t1 /\ t0 <= max0 /\ t1 <= max1 /\
    (0 < pool 0 ts -> 0 < pool 1 ts ->
     (t0 = max0 /\ t1 = pool 1 ts * t0 / pool 0 ts) \/ (t1 = max1 /\ t0 = pool 0 ts * t1 / pool 1 ts)).
Proof.
  intros Henv Hwf Hne Hsp H0 H1.
  destruct (pool_range 0 ts Hwf) as [Hx _]. destruct (pool_range 1 ts Hwf) as [Hy _].
  assert (valid_idx 0 /\ valid_idx 1) as [Hv0 Hv1] by (unfold valid_idx; lia).
  pose proof (balance_range owner _ (proj1 (Hwf (token_at 0)))) as [_ Hb0].
  pose proof (balance_range owner _ (proj1 (Hwf (token_at 1)))) as [_ Hb1]. unfold balance_of in *.
  destruct (added_spec (pool 0 ts) (pool 1 ts) max0 max1)
    as (t0 & t1 & Hadd & Ht0 & Ht1 & Hratio & _); [done|done|unfold in_range; lia..|].
  set (ts1 := touched (token_at 1) (touched (token_at 0) ts)).
  assert (forall t o, balance_of ts1 t o = balance_of ts t o) as Hts1
    by (intros; unfold ts1; by rewrite !balance_touched).
  destruct (receive_succeeds env Henv owner 0 t0 ts1) as (ts2 & Hr0 & Hwf2 & Hm2);
    [done|by apply touched_wf, touched_wf|unfold in_range; lia|done|rewrite Hts1; unfold balance_of;
      lia|].
  destruct (receive_succeeds env Henv owner 1 t1 ts2) as (ts3 & Hr1 & _ & Hm3);
    [done|done|unfold in_range; lia|done| |].
  { rewrite (moved_other _ _ _ _ _ _ _ _ Hm2) by (left; apply (token_at_other 0); by left).
    rewrite Hts1. unfold balance_of. lia. }
  exists t0, t1, ts3. cbn [execute_order_local]. rewrite add_eq by done. fold ts1.
  rewrite (proj2 (Z.eqb_neq max0 0)), (proj2 (Z.eqb_neq max1 0)) by lia.
  cbn [orb negb ensure mbind result_bind]. rewrite Hadd. cbn [mbind result_bind]. rewrite Hr0.
  cbn [mbind result_bind]. split; [done|].
  rewrite !(pool_received _ _ _ _ _ _ Hm3), !(pool_received _ _ _ _ _ _ Hm2) by done.
  rewrite (decide_True (P := 0 = 0 /\ _)), (decide_False (P := 0 = 1 /\ _)),
    (decide_False (P := 1 = 0 /\ _)), (decide_True (P := 1 = 1 /\ _)) by (done || lia).
  unfold ts1. rewrite !pool_touched. split_and!; [lia..|done].
Qed.

(** Liquidity is removed in the ratio of the pool.  If the token is in the pool, any amount of it can
    be removed, at most all, and with it the same share of the other token, rounded down; so the
    pool does not have less of the other token for each of this one than before. *)
Theorem remove_in_ratio env owner idx amount ts :
  current_application_id env = app -> tokens_wf ts -> valid_idx idx -> owner <> me ->
  0 <= amount -> 0 < pool idx ts ->
  exists ts', execute_order_local env token0 token1 (RemoveLiquidity owner idx amount) ts = Ok ts' /\
    let removed := Z.min amount (pool idx ts) in
    pool idx ts' = pool idx ts - removed /\
    pool (1 - idx) ts' = pool (1 - idx) ts - removed * pool (1 - idx) ts / pool idx ts /\
    pool (1 - idx) ts * pool idx ts' <= pool (1 - idx) ts' * pool idx ts.
Proof.
  intros Henv Hwf Hidx Hne Ha Hpos. pose proof (valid_other _ Hidx) as Hidx'.
  assert (valid_idx 0 /\ valid_idx 1) as [Hv0 Hv1] by (unfold valid_idx; lia).
  pose proof (pool_range idx ts Hwf) as Hx. pose proof (pool_range (1 - idx) ts Hwf) as Hy.
  destruct (removed_spec (pool 0 ts) (pool 1 ts) idx amount) as (out & Hrem & Hr & Hout);
    [done|by apply pool_range..|done|by destruct Hidx as [-> | ->]|].
  replace (if idx =? 0 then pool 0 ts else pool 1 ts) with (pool idx ts) in *
    by (by destruct Hidx as [-> | ->]).
  replace (if idx =? 0 then pool 1 ts else pool 0 ts) with (pool (1 - idx) ts) in *
    by (by destruct Hidx as [-> | ->]).
  set (r := Z.min amount (pool idx ts)) in *. unfold in_range in *.
  set (ts1 := touched (token_at 1) (touched (token_at 0) ts)).
  assert (forall i, pool i ts1 = pool i ts) as Hts1 by (intros; unfold ts1; by rewrite !pool_touched).
  destruct (send_succeeds env Henv owner idx r ts1) as (ts2 & Hs1 & Hwf2 & Hm2);
    [done|by apply touched_wf, touched_wf|unfold in_range; lia|rewrite Hts1; lia|].
  destruct (send_succeeds env Henv owner (1 - idx) out ts2) as (ts3 & Hs2 & _ & Hm3);
    [done|done|unfold in_range; lia| |].
  { rewrite (pool_sent _ _ _ _ _ _ Hm2), decide_False, Hts1 by (done || unfold valid_idx in *; lia).
    lia. }
  exists ts3. split.
  - cbn [execute_order_local]. unfold remove_liquidity.
    replace (idx <=? 1) with true by (symmetry; apply Z.leb_le; destruct Hidx; lia).
    cbn [ensure mbind result_bind]. rewrite pool_query by done. cbn [mbind result_bind].
    rewrite pool_query by done. cbn [mbind result_bind]. rewrite pool_touched, Hrem.
    cbn [mbind result_bind]. fold ts1. by rewrite Hs1.
  - cbv zeta. rewrite !(pool_sent _ _ _ _ _ _ Hm3), !(pool_sent _ _ _ _ _ _ Hm2), !Hts1 by done.
    rewrite (decide_True (P := idx = idx /\ _)), (decide_False (P := idx = 1 - idx /\ _)),
      (decide_False (P := 1 - idx = idx /\ _)), (decide_True (P := 1 - idx = 1 - idx /\ _))
      by (unfold valid_idx in *; lia || done).
    pose proof (Z.mul_div_le (r * pool (1 - idx) ts) (pool idx ts) Hpos). rewrite Hout in *.
    split_and!; [lia|lia|nia].
Qed.

End pool.

(** ** Examples *)

Module AmmExamples.
Import TokenExamples.

(** A pool of 100 coins and 20 apples; users 1 and 2 have tokens too. *)
Definition ts0 : Tokens :=
  owning {[ Application app := 100; User 1 := 25 ]} {[ Application app := 20; User 2 := 9 ]}.
Lemma ts0_wf : tokens_wf ts0.
Proof. by apply owning_wf; vm_compute. Qed.
Definition swapped : Tokens :=
  match execute_swap (signed (Some 1)) coins apples (User 1) 0 25 ts0 with Ok ts => ts | _ => ts0 end.

Lemma swap_exact_witness :
  exists output ts', execute_swap (signed (Some 1)) coins apples (User 1) 0 25 ts0 = Ok ts' /\
    pool app coins apples 1 ts' = 20 - output /\ output = 4.
Proof.
  destruct (swap_exact app coins apples tokens_differ (signed (Some 1)) (User 1) 0 25 ts0)
    as (out & ts' & Hex & _ & Hp & _ & _ & Hmax);
    [done|exact ts0_wf|by left|done|done|by vm_compute|by vm_compute|by vm_compute|].
  exists out, ts'. split_and!; [exact Hex|exact Hp|].
  pose proof (proj2 (Hmax 4) ltac:(by vm_compute)).
  assert (~ (5 <= out)); [|lia]. intros H5%Hmax. by vm_compute in H5.
Defined.

Lemma product_never_decreases_witness :
  product app coins apples ts0 <= product app coins apples swapped /\
    0 < pool app coins apples 0 swapped.
Proof.
  destruct (product_never_decreases app coins apples tokens_differ ts0 swapped ts0_wf) as [Hle Hpos].
  - apply rtc_once, (step_swap _ _ _ _ (signed (Some 1)) (User 1) 0 25); by vm_compute.
  - split; [exact Hle|]. apply Hpos. by vm_compute.
Defined.

Lemma remove_in_ratio_witness :
  exists ts', execute_order_local (signed None) coins apples (RemoveLiquidity (User 1) 0 15) ts0 =
    Ok ts' /\
    pool app coins apples 0 ts' = 85 /\ pool app coins apples 1 ts' = 17.
Proof.
  destruct (remove_in_ratio app coins apples tokens_differ (signed None) (User 1) 0 15 ts0)
    as (ts' & Hex & H0 & H1 & _);
    [done|exact ts0_wf|by left|done|done|by vm_compute|].
  exists ts'. split_and!; [exact Hex|exact H0|exact H1].
Defined.

(** Removing liquidity from a pool that has none of the token panics: it is a division by zero. *)
Example empty_pool_panics :
  execute_order_local (signed None) coins apples (RemoveLiquidity (User 1) 0 0) (owning ∅ ∅) = Panic.
Proof. by vm_compute. Qed.

(** Additions with a maximum of zero are refused, but the amount of a token can be rounded down to
    zero: 1 coin is the most for a pool of 100 coins and 20 apples, and no apple is taken. *)
Example adds_one_token :
  added_amounts 100 20 1 1 = Ok (1, 0).
Proof. by vm_compute. Qed.

End AmmExamples.

