(* ===== verification/Quorum.v ===== *)
(** * Talking to a quorum of validators

    [communicate_with_quorum] of [linera-core/src/updater.rs]: a client asks all validators of a
    committee at once, groups their answers, and stops when a group has a quorum, when an error has
    enough weight to be trusted, or when no group can have a quorum any more.

    The answers are a list in the order in which they arrive before the time is out.  After a quorum
    was reached, or became impossible, [grace] more of them arrive in time.  [HashMap]s are
    association lists in the order of the first insertion.

    The theorem [quorum_decides]: a key is returned exactly if it has a quorum among the answers, and
    an error that is trusted was returned by validators one of which is honest. *)

From S2P Require Import Prelude Numbers Types Crypto Committees Certificates.

Inductive CommunicationError (E : Type) :=
| Trusted (error : E)
| Sample (errors : list E).
Arguments Trusted {E}.
Arguments Sample {E}.

(** [HashMap::entry(key).or_insert(default)], changed by [f]. *)
Fixpoint entry_or_insert {K A} `{EqDecision K} (key : K) (default : A) (f : A -> A) (l : list (K * A))
    : list (K * A) :=
  match l with
  | [] => [(key, f default)]
  | (key', a) :: l =>
      if decide (key' = key) then (key', f a) :: l
      else (key', a) :: entry_or_insert key default f l
  end.
Fixpoint assoc {K A} `{EqDecision K} (key : K) (l : list (K * A)) : option A :=
  match l with
  | [] => None
  | (key', a) :: l => if decide (key' = key) then Some a else assoc key l
  end.

Section quorum.
Context {E K V : Type} `{EqDecision E, EqDecision K}.
Context (committee : Committee) (group_by : V -> K).
Notation Response := (ValidatorName * result E V)%type.

Record Tally := {
  remaining_votes : Z;
  highest_key_score : Z;
  value_scores : list (K * (Z * list V));
  error_scores : list (E * Z);
}.

(** The body of the loop, for one answer. *)
Definition count_response (response : Response) (t : Tally) : result (CommunicationError E) Tally :=
  let w := weight committee response.1 in
  let remaining := wrapping_sub u64_MAX (remaining_votes t) w in
  match response.2 with
  | Ok value =>
      let key := group_by value in
      let values := entry_or_insert key (0, [])
        (fun entry => (wrapping_add u64_MAX entry.1 w, entry.2 ++ [value])) (value_scores t) in
      let score := default 0 (fst <$> assoc key values) in
      Ok {| remaining_votes := remaining;
            highest_key_score := Z.max (highest_key_score t) score;
            value_scores := values; error_scores := error_scores t |}
  | Err err =>
      let errors := entry_or_insert err 0 (fun score => wrapping_add u64_MAX score w) (error_scores t)
        in
      let score := default 0 (assoc err errors) in
      if validity_threshold committee <=? score then Err (Trusted err)
      else Ok {| remaining_votes := remaining; highest_key_score := highest_key_score t;
                 value_scores := value_scores t; error_scores := errors |}
  | Panic => Panic
  end.

(** A key has a quorum, or no key can have one. *)
Definition quorum_settled (t : Tally) : bool :=
  (quorum_threshold committee <=? highest_key_score t) ||
  (wrapping_add u64_MAX (highest_key_score t) (remaining_votes t) <? quorum_threshold committee).

(** [sort_by_key(Reverse(score))]. *)
Definition by_score (x y : E * Z) : Prop := y.2 <= x.2.
#[local] Instance by_score_dec x y : Decision (by_score x y).
Proof. unfold by_score. apply _. Defined.

(** After the loop. *)
Definition quorum_result (t : Tally) : result (CommunicationError E) (K * list V) :=
  match list_find (fun entry => quorum_threshold committee <= entry.2.1) (value_scores t) with
  | Some (_, (key, (_, values))) => Ok (key, values)
  | None =>
      let sample := merge_sort by_score (error_scores t) in
      Err (Sample (take 4 sample.*1))
  end.

(** [end_time] is the number of answers that still arrive in time, if it was set. *)
Fixpoint quorum_loop (grace : nat) (responses : list Response) (end_time : option nat) (t : Tally)
    : result (CommunicationError E) (K * list V) :=
  match responses, end_time with
  | [], _ | _, Some 0%nat => quorum_result t
  | response :: responses, _ =>
      t ← count_response response t;
      let end_time :=
        match end_time with
        | Some n => Some (pred n)
        | None => if quorum_settled t then Some grace else None
        end in
      quorum_loop grace responses end_time t
  end.

Definition communicate_with_quorum (grace : nat) (responses : list Response)
    : result (CommunicationError E) (K * list V) :=
  quorum_loop grace responses None
    {| remaining_votes := total_votes committee; highest_key_score := 0;
       value_scores := []; error_scores := [] |}.

(** ** What was answered *)

Definition vote_for (key : K) (response : Response) : option (ValidatorName * V) :=
  match response.2 with
  | Ok value => if decide (group_by value = key) then Some (response.1, value) else None
  | _ => None
  end.
(** The answers of a group. *)
Definition votes_for (key : K) (responses : list Response) : list (ValidatorName * V) :=
  omap (vote_for key) responses.
Definition error_from (error : E) (response : Response) : option ValidatorName :=
  match response.2 with
  | Err error' => if decide (error' = error) then Some response.1 else None
  | _ => None
  end.
(** The validators that returned an error. *)
Definition errors_from (error : E) (responses : list Response) : list ValidatorName :=
  omap (error_from error) responses.
Definition score (key : K) (responses : list Response) : Z :=
  weight_of committee (votes_for key responses).*1.


(** ** Association lists *)

Lemma assoc_insert {A B} `{EqDecision A} (key key' : A) (d : B) f l :
  assoc key' (entry_or_insert key d f l) =
  if decide (key' = key) then Some (f (default d (assoc key l))) else assoc key' l.
Proof.
  induction l as [|[k b] l IH]; simpl.
  - by destruct (decide (key = key')), (decide (key' = key)); simplify_eq.
  - destruct (decide (k = key)) as [->|Hk]; simpl.
    + by destruct (decide (key = key')), (decide (key' = key)); simplify_eq.
    + rewrite IH. by destruct (decide (k = key')), (decide (key' = key)); simplify_eq.
Qed.
Lemma entry_or_insert_keys {A B} `{EqDecision A} (key : A) (d : B) f l :
  NoDup l.*1 -> NoDup (entry_or_insert key d f l).*1 /\
  forall k, k ∈ (entry_or_insert key d f l).*1 <-> k = key \/ k ∈ l.*1.
Proof.
  induction l as [|[k b] l IH]; simpl; intros Hnd.
  - split; [apply NoDup_singleton|]. intros k. rewrite list_elem_of_singleton, elem_of_nil. tauto.
  - apply NoDup_cons in Hnd as [Hnin Hnd]. destruct (IH Hnd) as [IH1 IH2].
    destruct (decide (k = key)) as [->|Hk]; rewrite !fmap_cons; simpl.
    + split; [by apply NoDup_cons|]. intros k. rewrite !elem_of_cons. tauto.
    + split; [apply NoDup_cons; split; [rewrite IH2; naive_solver|done]|].
      intros k'. rewrite !elem_of_cons, IH2. tauto.
Qed.
Lemma elem_of_assoc {A B} `{EqDecision A} (l : list (A * B)) key b :
  NoDup l.*1 -> (key, b) ∈ l <-> assoc key l = Some b.
Proof.
  induction l as [|[k x] l IH]; csimpl; intros Hnd; [by rewrite elem_of_nil|].
  apply NoDup_cons in Hnd as [Hnin Hnd]. rewrite elem_of_cons. case_decide as Hk.
  - subst k. split; [|by intros [= ->]; left]. intros [[= ->]|Hin]; [done|].
    destruct Hnin. apply list_elem_of_fmap. by exists (key, b).
  - rewrite <- IH by done. split; [|by right]. intros [[= -> ->]|Hin]; done.
Qed.

(** ** Values that are returned were answered *)

Lemma entry_or_insert_Forall {A B} `{EqDecision A} (P : B -> Prop) (key : A) (d : B) f l :
  (forall b, P b -> P (f b)) -> P d -> Forall (fun e => P e.2) l ->
  Forall (fun e => P e.2) (entry_or_insert key d f l).
Proof.
  intros Hf Hd. induction 1 as [|[k b] l Hb Hl IH]; simpl; [by repeat constructor; apply Hf|].
  case_decide; by constructor; simpl in *; auto.
Qed.
Lemma quorum_values_of (P : V -> Prop) grace responses : forall end_time t key values,
  Forall (fun r => forall v, r.2 = Ok v -> P v) responses ->
  Forall (fun e => Forall P e.2.2) (value_scores t) ->
  quorum_loop grace responses end_time t = Ok (key, values) -> Forall P values.
Proof.
  induction responses as [|response responses IH]; intros end_time t key values Hr Ht.
  all: assert (quorum_result t = Ok (key, values) -> Forall P values) as Hres
    by (unfold quorum_result; destruct (list_find _ _) as [[i [k [sc vs]]]|] eqn:Hf; [|done];
        intros [= <- <-]; apply list_find_Some in Hf as (Hin%list_elem_of_lookup_2 & _);
        rewrite Forall_forall in Ht; by apply (Ht _ Hin)).
  { done. }
  apply Forall_cons in Hr as [Hr Hrest].
  assert (forall t', count_response response t = Ok t' ->
    Forall (fun e => Forall P e.2.2) (value_scores t')) as Hc.
  { unfold count_response. destruct (response.2) as [v|e|] eqn:Hv; [|destruct (_ <=? _); [done|]|done];
      intros t' [= <-]; simpl; [|done].
    apply (entry_or_insert_Forall (fun p => Forall P p.2)); [|done|done].
    intros [sc vs] Hvs. simpl in *. apply Forall_app. split; [done|]. apply Forall_singleton. auto. }
  cbn [quorum_loop]. destruct end_time as [[|n]|]; [done|..];
    intros (t' & Ht' & Hq)%bind_Ok; by eapply IH; [| |exact Hq]; auto.
Qed.

(** ** The tally *)

Context (committee_ok : committee_wf committee).
#[local] Arguments weight_of : simpl never.

(** The tally of the answers seen so far. *)
Record tally_ok (seen : list Response) (t : Tally) : Prop := {
  ok_remaining : remaining_votes t = total_votes committee - weight_of committee seen.*1;
  ok_keys : NoDup (value_scores t).*1;
  ok_errors : NoDup (error_scores t).*1;
  ok_value key : default (0, []) (assoc key (value_scores t)) = (score key seen,
    (votes_for key seen).*2);
  ok_error error : default 0 (assoc error (error_scores t)) =
    weight_of committee (errors_from error seen);
  ok_highest key : score key seen <= highest_key_score t;
  ok_reached : highest_key_score t = 0 \/ exists key, highest_key_score t = score key seen;
}.

Lemma votes_for_cons key response seen :
  votes_for key (response :: seen) = option_list (vote_for key response) ++ votes_for key seen.
Proof. unfold votes_for. simpl. by destruct (vote_for key response). Qed.
Lemma errors_from_cons error response seen :
  errors_from error (response :: seen) = option_list (error_from error response) ++ errors_from error
    seen.
Proof. unfold errors_from. simpl. by destruct (error_from error response). Qed.
Lemma votes_for_snoc key seen response :
  votes_for key (seen ++ [response]) = votes_for key seen ++ option_list (vote_for key response).
Proof. unfold votes_for. rewrite omap_app. simpl. by destruct (vote_for key response). Qed.
Lemma errors_from_snoc error seen response :
  errors_from error (seen ++ [response]) = errors_from error seen ++ option_list (error_from error
    response).
Proof. unfold errors_from. rewrite omap_app. simpl. by destruct (error_from error response). Qed.

Lemma votes_for_names key seen : (votes_for key seen).*1 `sublist_of` seen.*1.
Proof.
  induction seen as [|response seen IH]; [done|]. rewrite fmap_cons. unfold votes_for in *. simpl.
  unfold vote_for at 1. destruct (response.2); [|by apply sublist_cons..].
  case_decide; csimpl; [by apply sublist_skip|by apply sublist_cons].
Qed.
Lemma errors_from_names error seen : errors_from error seen `sublist_of` seen.*1.
Proof.
  induction seen as [|response seen IH]; [done|]. rewrite fmap_cons. unfold errors_from in *. simpl.
  unfold error_from at 1. destruct (response.2); [by apply sublist_cons| |by apply sublist_cons].
  case_decide; [by apply sublist_skip|by apply sublist_cons].
Qed.
Lemma weight_of_sublist vs vs' : vs `sublist_of` vs' ->
  weight_of committee vs <= weight_of committee vs'.
Proof.
  pose proof (fun v => weight_nonneg committee v (committee_wf_votes _ committee_ok)) as Hpos.
  induction 1 as [|v vs vs' _ IH|v vs vs' _ IH]; [done|..]; rewrite !weight_of_cons;
    [lia|specialize (Hpos v); lia].
Qed.
(** Votes for a key and errors are of different validators. *)
Lemma vote_error_disjoint key error seen :
  score key seen + weight_of committee (errors_from error seen) <= weight_of committee seen.*1.
Proof.
  unfold score. pose proof (fun v => weight_nonneg committee v (committee_wf_votes _ committee_ok)) as
    Hpos.
  induction seen as [|[name r] seen IH]; [done|]. rewrite fmap_cons, weight_of_cons.
  rewrite votes_for_cons, errors_from_cons, fmap_app, !weight_of_app. specialize (Hpos name).
  unfold vote_for, error_from. destruct r; cbn [fst snd]; repeat case_decide; csimpl;
    rewrite ?weight_of_cons; change (weight_of committee []) with 0; lia.
Qed.
Lemma names_weight (seen : list Response) : NoDup seen.*1 ->
  0 <= weight_of committee seen.*1 <= total_votes committee.
Proof.
  intros Hnd. pose proof (committee_wf_votes _ committee_ok) as Hpos.
  pose proof (weight_of_nonneg committee seen.*1 Hpos).
  pose proof (weight_of_le_full committee _ Hpos Hnd).
  destruct committee_ok as (m & p & -> & Hb & _). rewrite committee_new_total by done. done.
Qed.
Lemma score_bounds key seen : NoDup seen.*1 -> 0 <= score key seen <= total_votes committee.
Proof.
  intros Hnd. pose proof (weight_of_sublist _ _ (votes_for_names key seen)).
  pose proof (names_weight _ Hnd). unfold score.
  pose proof (weight_of_nonneg committee (votes_for key seen).*1 (committee_wf_votes _ committee_ok)).
  lia.
Qed.
Lemma total_bounded : total_votes committee <= u64_MAX.
Proof.
  destruct committee_ok as (m & p & -> & [? Hb] & ?). rewrite committee_new_total by done. lia.
Qed.
Lemma thresholds : validity_threshold committee + quorum_threshold committee =
  total_votes committee + 1.
Proof.
  destruct committee_ok as (m & p & -> & Hb & Hpos). rewrite committee_new_total by done.
  destruct (committee_new_thresholds m p Hb Hpos) as [-> ->]. lia.
Qed.

Lemma quorum_positive : 0 < quorum_threshold committee.
Proof.
  destruct committee_ok as (m & p & -> & Hb & Hpos).
  destruct (committee_new_thresholds m p Hb Hpos) as [-> _]. unfold max_faulty.
  pose proof (Z.div_le_upper_bound (full_weight m - 1) 3 (full_weight m - 1)). lia.
Qed.

Lemma count_value seen name value t :
  NoDup (seen ++ [(name, Ok value)]).*1 -> tally_ok seen t ->
  exists t', count_response (name, Ok value) t = Ok t' /\ tally_ok (seen ++ [(name, Ok value)]) t'.
Proof.
  intros Hnd [Hrem Hk He Hv Herr Hhi Hre]. set (seen' := seen ++ [(name, Ok value)]) in *.
  pose proof (names_weight _ Hnd) as Hw. pose proof total_bounded.
  pose proof (weight_nonneg committee name (committee_wf_votes _ committee_ok)) as Hn.
  assert (NoDup seen.*1) as Hnd0.
  { unfold seen' in Hnd. rewrite fmap_app in Hnd. by apply NoDup_app in Hnd as (? & _). }
  pose proof (names_weight _ Hnd0) as Hw0.
  assert (weight_of committee seen'.*1 = weight_of committee seen.*1 + weight committee name) as Hws.
  { unfold seen'. rewrite fmap_app, weight_of_app. csimpl. rewrite weight_of_cons.
    unfold weight_of at 2. simpl. lia. }
  assert (forall key, votes_for key seen' = votes_for key seen ++
    (if decide (group_by value = key) then [(name, value)] else [])) as Hvotes.
  { intros key. unfold seen'. rewrite votes_for_snoc. unfold vote_for. simpl. by case_decide. }
  assert (forall key, score key seen' = score key seen +
    (if decide (group_by value = key) then weight committee name else 0)) as Hscore.
  { intros key. unfold score. rewrite Hvotes, fmap_app, weight_of_app. case_decide; csimpl;
      rewrite ?weight_of_cons; change (weight_of committee []) with 0; lia. }
  assert (default (0, []) (assoc (group_by value) (value_scores t)) =
    (score (group_by value) seen, (votes_for (group_by value) seen).*2)) as Hold by apply Hv.
  pose proof (score_bounds (group_by value) _ Hnd) as Hb. rewrite Hscore, decide_True in Hb by done.
  pose proof (score_bounds (group_by value) _ Hnd0) as Hb0.
  eexists. split; [reflexivity|]. cbn [fst snd].
  rewrite assoc_insert, decide_True, Hold by done. cbn [fmap option_fmap option_map default fst snd id].
  rewrite wrapping_add_small by lia. split; cbn [remaining_votes highest_key_score value_scores
    error_scores].
  - rewrite wrapping_sub_small by lia. lia.
  - by apply entry_or_insert_keys.
  - done.
  - intros key. rewrite assoc_insert, Hold. cbn [fst snd]. rewrite Hscore, Hvotes.
    destruct (decide (key = group_by value)) as [->|Hne].
    + rewrite !decide_True by done. simpl. rewrite wrapping_add_small by lia. by rewrite fmap_app.
    + rewrite !decide_False, app_nil_r, Z.add_0_r by done. apply Hv.
  - intros error. rewrite Herr. unfold seen'. rewrite errors_from_snoc. simpl. by rewrite app_nil_r.
  - intros key. rewrite Hscore. specialize (Hhi key). case_decide; subst; lia.
  - right. destruct (Z.max_spec (highest_key_score t)
      (score (group_by value) seen + weight committee name)) as [[Hlt ->]|[Hge ->]].
    + exists (group_by value). rewrite Hscore, decide_True by done. done.
    + destruct Hre as [H0|[key Hkey]].
      * exists (group_by value). rewrite Hscore, decide_True by done. lia.
      * exists key. rewrite Hscore. pose proof (Hhi key). case_decide; subst; lia.
Qed.

Lemma count_error seen name error t :
  NoDup (seen ++ [(name, Err error)]).*1 -> tally_ok seen t ->
  (count_response (name, Err error) t = Err (Trusted error) /\
   validity_threshold committee <= weight_of committee (errors_from error (seen ++ [(name,
     Err error)]))) \/
  (exists t', count_response (name, Err error) t = Ok t' /\ tally_ok (seen ++ [(name, Err error)]) t').
Proof.
  intros Hnd [Hrem Hk He Hv Herr Hhi Hre]. set (seen' := seen ++ [(name, Err error)]) in *.
  pose proof (names_weight _ Hnd) as Hw. pose proof total_bounded.
  pose proof (weight_nonneg committee name (committee_wf_votes _ committee_ok)) as Hn.
  assert (NoDup seen.*1) as Hnd0.
  { unfold seen' in Hnd. rewrite fmap_app in Hnd. by apply NoDup_app in Hnd as (? & _). }
  pose proof (names_weight _ Hnd0) as Hw0.
  assert (weight_of committee seen'.*1 = weight_of committee seen.*1 + weight committee name) as Hws.
  { unfold seen'. rewrite fmap_app, weight_of_app. csimpl. rewrite weight_of_cons.
    change (weight_of committee []) with 0. lia. }
  assert (forall key, votes_for key seen' = votes_for key seen) as Hvotes.
  { intros key. unfold seen'. rewrite votes_for_snoc. simpl. by rewrite app_nil_r. }
  assert (forall e, weight_of committee (errors_from e seen') =
    weight_of committee (errors_from e seen) +
    (if decide (error = e) then weight committee name else 0)) as Herrs.
  { intros e. unfold seen'. rewrite errors_from_snoc, weight_of_app. unfold error_from. simpl.
    case_decide; simpl; rewrite ?weight_of_cons; change (weight_of committee []) with 0; lia. }
  pose proof (weight_of_sublist _ _ (errors_from_names error seen')) as Hsub.
  rewrite Herrs, decide_True in Hsub by done.
  pose proof (weight_of_nonneg committee (errors_from error seen) (committee_wf_votes _ committee_ok)).
  unfold count_response. cbn [fst snd]. rewrite assoc_insert, decide_True, Herr by done.
  cbn [default id]. rewrite wrapping_add_small by lia.
  destruct (Z.leb_spec (validity_threshold committee)
    (weight_of committee (errors_from error seen) + weight committee name)).
  { left. split; [done|]. rewrite Herrs, decide_True by done. done. }
  right. eexists. split; [reflexivity|].
  assert (forall key, score key seen' = score key seen) as Hscore
    by (intros key; unfold score; by rewrite Hvotes).
  split; cbn [remaining_votes highest_key_score value_scores error_scores].
  - rewrite wrapping_sub_small by lia. lia.
  - done.
  - by apply entry_or_insert_keys.
  - intros key. rewrite Hscore, Hvotes. apply Hv.
  - intros e. rewrite assoc_insert, Herrs. destruct (decide (e = error)) as [->|Hne].
    + rewrite decide_True, Herr by done. simpl. rewrite wrapping_add_small by lia. done.
    + rewrite decide_False, Herr by done. lia.
  - intros key. rewrite Hscore. apply Hhi.
  - destruct Hre as [?|[key ?]]; [by left|right]. exists key. by rewrite Hscore.
Qed.

(** *** The loop *)

Definition no_quorum (responses : list Response) : Prop :=
  forall key, score key responses < quorum_threshold committee.

Lemma score_app key seen rest : score key (seen ++ rest) = score key seen + score key rest.
Proof. unfold score, votes_for. by rewrite omap_app, fmap_app, weight_of_app. Qed.
Lemma score_le key (seen : list Response) : score key seen <= weight_of committee seen.*1.
Proof. apply weight_of_sublist, votes_for_names. Qed.
Lemma score_nonneg key seen : 0 <= score key seen.
Proof. apply weight_of_nonneg, committee_wf_votes, committee_ok. Qed.

Lemma result_ok seen t :
  tally_ok seen t ->
  match quorum_result t with
  | Ok (key, values) => values = (votes_for key seen).*2 /\ quorum_threshold committee <= score key seen
  | Err (Trusted _) => False
  | Err (Sample _) => no_quorum seen
  | Panic => False
  end.
Proof.
  intros [_ Hk _ Hv _ _ _]. unfold quorum_result.
  destruct (list_find _ (value_scores t)) as [[i [key [s vs]]]|] eqn:Hf.
  - apply list_find_Some in Hf as (Hi & Hq & _). simpl in Hq.
    apply list_elem_of_lookup_2, (elem_of_assoc _ _ _ Hk) in Hi.
    specialize (Hv key). rewrite Hi in Hv. simpl in Hv. injection Hv as -> ->. done.
  - intros key. apply list_find_None in Hf. specialize (Hv key).
    pose proof quorum_positive.
    destruct (assoc key (value_scores t)) as [[s vs]|] eqn:Ha; simpl in Hv; injection Hv as Hs _.
    + apply (elem_of_assoc _ _ _ Hk) in Ha. rewrite Forall_forall in Hf. specialize (Hf _ Ha).
      simpl in Hf. lia.
    + lia.
Qed.

Lemma settled_ok seen rest t :
  NoDup (seen ++ rest).*1 -> tally_ok seen t -> quorum_settled t = true ->
  (exists key, quorum_threshold committee <= score key seen) \/ no_quorum (seen ++ rest).
Proof.
  intros Hnd [Hrem _ _ _ _ Hhi Hre] Hset. pose proof total_bounded.
  pose proof (names_weight _ Hnd) as Hall. rewrite fmap_app, weight_of_app in Hall.
  assert (NoDup seen.*1) as Hnd0 by (rewrite fmap_app in Hnd; by apply NoDup_app in Hnd as (? & _)).
  pose proof (names_weight _ Hnd0) as Hw0.
  assert (highest_key_score t <= weight_of committee seen.*1) as Hle.
  { destruct Hre as [->|[key ->]]; [lia|apply score_le]. }
  assert (0 <= highest_key_score t) as Hge.
  { destruct Hre as [->|[key ->]]; [done|apply score_nonneg]. }
  unfold quorum_settled in Hset. apply orb_true_iff in Hset as [Hq%Z.leb_le|Hq%Z.ltb_lt].
  - destruct Hre as [H0|[key Hkey]]; [|left; exists key; lia].
    pose proof quorum_positive. lia.
  - right. intros key. rewrite wrapping_add_small in Hq by lia. rewrite score_app.
    specialize (Hhi key). pose proof (score_le key rest). lia.
Qed.

(** What the client learns. *)
Definition decided (responses : list Response) (r : result (CommunicationError E) (K * list V)) : Prop
  :=
  match r with
  | Ok (key, values) =>
      exists seen, seen `prefix_of` responses /\ values = (votes_for key seen).*2 /\
        quorum_threshold committee <= score key seen
  | Err (Trusted error) =>
      validity_threshold committee <= weight_of committee (errors_from error responses) /\
      no_quorum responses
  | Err (Sample _) => no_quorum responses
  | Panic => False
  end.

Lemma stop_decided seen rest t :
  tally_ok seen t ->
  ((exists key, quorum_threshold committee <= score key seen) \/ no_quorum (seen ++ rest)) ->
  decided (seen ++ rest) (quorum_result t).
Proof.
  intros Ht Hend. pose proof (result_ok seen t Ht) as Hres. unfold decided.
  destruct (quorum_result t) as [[key values]|[e|es]|]; [| | |done].
  - exists seen. destruct Hres. split_and!; [by apply prefix_app_r|done|done].
  - done.
  - destruct Hend as [[key Hkey]|?]; [|done]. specialize (Hres key). lia.
Qed.
Lemma trusted_decided error seen rest :
  NoDup (seen ++ rest).*1 -> validity_threshold committee <= weight_of committee (errors_from error
    seen) ->
  decided (seen ++ rest) (Err (Trusted error)).
Proof.
  intros Hnd Hv. unfold decided.
  assert (validity_threshold committee <= weight_of committee (errors_from error (seen ++ rest))) as
    Hv'.
  { unfold errors_from in *. rewrite omap_app, weight_of_app.
    pose proof (weight_of_nonneg committee (omap (error_from error) rest) (committee_wf_votes _
      committee_ok)).
    lia. }
  split; [done|]. intros key. pose proof (vote_error_disjoint key error (seen ++ rest)).
  pose proof (names_weight _ Hnd). pose proof thresholds. lia.
Qed.

(** One answer: it is counted, or its error is trusted. *)
Lemma count_decided seen response rest t :
  NoDup (seen ++ response :: rest).*1 -> response.2 <> Panic -> tally_ok seen t ->
  (exists t', count_response response t = Ok t' /\ tally_ok (seen ++ [response]) t') \/
  (exists error, count_response response t = Err (Trusted error) /\
     decided (seen ++ response :: rest) (Err (Trusted error))).
Proof.
  intros Hnd Hp Ht.
  assert (seen ++ response :: rest = (seen ++ [response]) ++ rest) as Heq by (by rewrite <- app_assoc).
  rewrite Heq in *.
  assert (NoDup (seen ++ [response]).*1) as Hnd1
    by (rewrite fmap_app in Hnd; by apply NoDup_app in Hnd as (? & _)).
  destruct response as [name [value|error|]]; [left; by apply count_value| |done].
  destruct (count_error seen name error t Hnd1 Ht) as [[Hc Hv]|?]; [right|by left].
  exists error. split; [done|]. by apply trusted_decided.
Qed.

Lemma quorum_loop_decides grace rest : forall seen end_time t,
  NoDup (seen ++ rest).*1 -> Forall (fun response => response.2 <> Panic) rest -> tally_ok seen t ->
  (is_Some end_time ->
   (exists key, quorum_threshold committee <= score key seen) \/ no_quorum (seen ++ rest)) ->
  decided (seen ++ rest) (quorum_loop grace rest end_time t).
Proof.
  induction rest as [|response rest IH]; intros seen end_time t Hnd Hp Ht Hend.
  { apply stop_decided; [done|]. cbn [quorum_loop]. pose proof (result_ok seen t Ht) as Hres.
    destruct (quorum_result t) as [[key values]|[e|es]|]; [left; exists key; apply Hres|done| |done].
    right. by rewrite app_nil_r. }
  apply Forall_cons in Hp as [Hr Hp].
  assert (decided (seen ++ response :: rest)
      (t' ← count_response response t;
       quorum_loop grace rest
         (match end_time with Some n => Some (pred n)
          | None => if quorum_settled t' then Some grace else None end) t')) as Hstep.
  { destruct (count_decided seen response rest t Hnd Hr Ht) as [(t' & -> & Ht')|(e & -> & ?)];
      cbn [mbind result_bind]; [|done].
    assert (seen ++ response :: rest = (seen ++ [response]) ++ rest) as Heq
      by (by rewrite <- app_assoc).
    rewrite Heq in *. apply IH; [done|done|done|].
    destruct end_time as [n|]; intros Hsome.
    - destruct Hend as [[key Hkey]|?]; [done| |by right]. left. exists key. rewrite score_app.
      pose proof (score_nonneg key [response]). lia.
    - destruct (quorum_settled t') eqn:Hset; [by apply settled_ok with t'|by destruct Hsome]. }
  cbn [quorum_loop]. destruct end_time as [[|n]|]; [apply stop_decided; [done|by apply Hend]| |];
    exact Hstep.
Qed.

Lemma tally_start :
  tally_ok [] {| remaining_votes := total_votes committee; highest_key_score := 0;
                 value_scores := []; error_scores := [] |}.
Proof.
  split; simpl; try (apply NoDup_nil_2); try done; [|by left].
  change (weight_of committee []) with 0. lia.
Qed.

(** C11: A key is returned exactly if it has a quorum.  If the client returns a key, its values are those
    of validators that weigh at least the quorum threshold.  If it returns an error, no key has a
    quorum among all the answers that arrive; and an error that is trusted was returned by validators
    that weigh at least the validity threshold, so by an honest one. *)
Theorem quorum_decides grace responses :
  NoDup responses.*1 -> Forall (fun response => response.2 <> Panic) responses ->
  decided responses (communicate_with_quorum grace responses).
Proof.
  intros Hnd Hp. apply (quorum_loop_decides grace responses []);
    [done|done|apply tally_start|by intros []].
Qed.

(** The values of a key that is returned, also if a later request panics. *)
Lemma quorum_loop_Ok grace rest : forall seen end_time t key values,
  NoDup (seen ++ rest).*1 -> tally_ok seen t -> quorum_loop grace rest end_time t = Ok (key, values) ->
  exists seen', seen' `prefix_of` seen ++ rest /\ values = (votes_for key seen').*2 /\
    quorum_threshold committee <= score key seen'.
Proof.
  induction rest as [|response rest IH]; intros seen end_time t key values Hnd Ht;
    pose proof (result_ok seen t Ht) as Hres.
  { cbn [quorum_loop]. intros Hq. rewrite Hq in Hres. exists seen. split; [by rewrite app_nil_r|done]. }
  assert (seen ++ response :: rest = (seen ++ [response]) ++ rest) as Happ by by rewrite <- app_assoc.
  assert (forall e, (t' ← count_response response t; quorum_loop grace rest (e t') t') = Ok (key,
    values) ->
    exists seen', seen' `prefix_of` seen ++ response :: rest /\ values = (votes_for key seen').*2 /\
      quorum_threshold committee <= score key seen') as Hstep.
  { intros e (t' & Hc & Hq)%bind_Ok. rewrite Happ in Hnd |- *.
    assert (NoDup (seen ++ [response]).*1) as Hnd1.
    { rewrite fmap_app in Hnd. by apply NoDup_app in Hnd as (? & _). }
    destruct response as [name [value|error|]]; [| |done].
    - destruct (count_value seen name value t Hnd1 Ht) as (t1 & Heq & Ht1).
      rewrite Heq in Hc. injection Hc as <-. by eapply IH.
    - destruct (count_error seen name error t Hnd1 Ht) as [[Heq _]|(t1 & Heq & Ht1)];
        rewrite Heq in Hc; [done|]. injection Hc as <-. by eapply IH. }
  cbn [quorum_loop]. destruct end_time as [[|n]|]; [|by apply Hstep..].
  intros Hq. rewrite Hq in Hres. exists seen. split; [by apply prefix_app_r|done].
Qed.
Lemma quorum_Ok grace responses key values :
  NoDup responses.*1 -> communicate_with_quorum grace responses = Ok (key, values) ->
  exists seen, seen `prefix_of` responses /\ values = (votes_for key seen).*2 /\
    quorum_threshold committee <= score key seen.
Proof. intros Hnd. apply (quorum_loop_Ok grace responses []); [done|apply tally_start]. Qed.

(** At most one key has a quorum, so that it does not matter which one is found. *)
Lemma quorum_unique responses key key' :
  NoDup responses.*1 -> quorum_threshold committee <= score key responses ->
  quorum_threshold committee <= score key' responses -> key = key'.
Proof.
  intros Hnd H1 H2. destruct (decide (key = key')) as [|Hne]; [done|exfalso].
  assert (score key responses + score key' responses <= weight_of committee responses.*1) as Hle.
  { clear Hnd H1 H2. unfold score.
    pose proof (fun v => weight_nonneg committee v (committee_wf_votes _ committee_ok)) as Hpos.
    induction responses as [|[name r] responses IH]; [done|]. rewrite fmap_cons, weight_of_cons.
    rewrite !votes_for_cons, !fmap_app, !weight_of_app. specialize (Hpos name).
    unfold vote_for. destruct r; cbn [fst snd]; repeat case_decide; csimpl; subst;
      rewrite ?weight_of_cons; change (weight_of committee []) with 0; try lia; done. }
  pose proof (names_weight _ Hnd). pose proof thresholds.
  destruct committee_ok as (m & p & Heq & Hb & Hpos).
  assert (total_votes committee = full_weight m) by (rewrite Heq; by apply committee_new_total).
  pose proof (committee_new_thresholds m p Hb Hpos) as [Hq _]. rewrite <- Heq in Hq.
  unfold max_faulty in *. pose proof (Z.mul_div_le (full_weight m - 1) 3). lia.
Qed.

End quorum.
