(* ===== verification/Updater.v ===== *)
(** * Updating validators

    How a client talks to one validator ([linera-core/src/updater.rs] and the errors of [node.rs]):
    it sends the certificates that the validator misses, for the chain, for the chains that created
    it and for the senders of its messages, and then a proposal or a certificate, for which it gets
    a vote.

    The validators are a parameter (class [ValidatorNodes]): they have a state that the model does
    not look into, and may answer anything.  Whatever they do, [send_chain_update] ends and returns a
    vote only if it has a valid signature of the validator that was asked ([update_returns_own_vote]).

    Waiting between two attempts is left out.  Following the parents of a chain has as fuel the number
    of chains in the local store; it runs out only if a chain is its own ancestor. *)

From S2P Require Import Prelude Numbers Types Crypto Committees Policy Bcs Inbox Outbox Errors.
From S2P Require Import Certificates Managers Registry System Batches KeyValueStore Runtime.
From S2P Require Import Execution ChainState Storage Worker Quorum.

(** ** Errors of nodes *)

Inductive NodeError :=
| NodeCryptoError (error : bytes)
| NodeArithmeticError (error : bytes)
| NodeViewError (error : bytes)
| NodeChainError (error : bytes)
| NodeWorkerError (error : bytes)
| NodeInactiveChain (id : ChainId)
| NodeMissingCrossChainUpdate (chain_id : ChainId) (origin : Origin) (height : BlockHeight)
| NodeApplicationBytecodesNotFound (locations : list BytecodeLocation)
| NodeMissingCertificateValue
| MissingVoteInValidatorResponse
| InactiveLocalChain (id : ChainId)
| InvalidChainInfoResponse
| ProposedBlockToInactiveChain (chain_id : ChainId) (retries : nat)
| ProposedBlockWithLaggingMessages (chain_id : ChainId) (retries : nat)
| ProposedBlockWithLaggingBytecode (chain_id : ChainId) (retries : nat)
| InvalidDecoding
| NodeUnexpectedMessage
| GrpcError (error : bytes)
| ClientIoError (error : bytes)
| CannotResolveValidatorAddress (address : bytes)
| SubscriptionError (transport : bytes)
| SubscriptionFailed (status : bytes).
#[export] Instance NodeError_eq_dec : EqDecision NodeError.
Proof. solve_decision. Defined.

(** The texts of errors ([to_string]). *)
Class ErrorTexts := {
  crypto_error_text : CryptoError -> bytes;
  arithmetic_error_text : ArithmeticError -> bytes;
  view_error_text : ViewError -> bytes;
  chain_error_text : ChainError -> bytes;
  worker_error_text : WorkerError -> bytes;
}.

Section errors.
Context `{ErrorTexts}.

Definition node_error_from_view (error : ViewError) : NodeError :=
  NodeViewError (view_error_text error).
Definition node_error_from_arithmetic (error : ArithmeticError) : NodeError :=
  NodeArithmeticError (arithmetic_error_text error).
Definition node_error_from_crypto (error : CryptoError) : NodeError :=
  NodeCryptoError (crypto_error_text error).
Definition node_error_from_chain (error : ChainError) : NodeError :=
  match error with
  | MissingCrossChainUpdate chain_id origin height => NodeMissingCrossChainUpdate chain_id origin height
  | InactiveChain chain_id => NodeInactiveChain chain_id
  | error => NodeChainError (chain_error_text error)
  end.
Definition node_error_from_worker (error : WorkerError) : NodeError :=
  match error with
  | WorkerChainError error => node_error_from_chain error
  | MissingCertificateValue => NodeMissingCertificateValue
  | ApplicationBytecodesNotFound locations => NodeApplicationBytecodesNotFound locations
  | error => NodeWorkerError (worker_error_text error)
  end.

End errors.

(** ** Validators *)

(** The validators behind the network, each known by its name; the order in which answers to
    requests that are sent at once arrive, and how many arrive in time after a quorum; the order in
    which validators are tried ([SliceRandom::shuffle]). *)
Class ValidatorNodes := {
  network : Type;
  make_node : bytes -> result NodeError unit;
  node_block_proposal :
    ValidatorName -> BlockProposal -> network -> result NodeError ChainInfoResponse * network;
  node_lite_certificate :
    ValidatorName -> LiteCertificate -> network -> result NodeError ChainInfoResponse * network;
  node_certificate :
    ValidatorName -> Certificate -> list HashedValue -> network ->
    result NodeError ChainInfoResponse * network;
  node_chain_info_query :
    ValidatorName -> ChainInfoQuery -> network -> result NodeError ChainInfoResponse * network;
  node_subscribe : ValidatorName -> list ChainId -> network -> result NodeError unit * network;
  arrivals : list ValidatorName -> network -> list ValidatorName * nat * network;
  shuffle : list ValidatorName -> network -> list ValidatorName * network;
}.
(** A request that fails is an error and not a panic; every request is answered at most once; no
    validator is lost by shuffling. *)
Class ValidatorNodesLaws (VN : ValidatorNodes) := {
  proposal_no_panic name proposal n : (node_block_proposal name proposal n).1 <> Panic;
  lite_certificate_no_panic name certificate n : (node_lite_certificate name certificate n).1 <> Panic;
  certificate_no_panic name certificate blobs n : (node_certificate name certificate blobs n).1 <>
    Panic;
  query_no_panic name query n : (node_chain_info_query name query n).1 <> Panic;
  arrivals_ok names n : (arrivals names n).1.1 ⊆ names /\ (NoDup names -> NoDup (arrivals names n).1.1);
  shuffle_perm names n : (shuffle names n).1 ≡ₚ names;
}.
(** [Signature::check] of a [ChainInfo]. *)
Class InfoChecking := { verify_info : ValidatorName -> ChainInfo -> Signature -> bool }.

Section remote.
Context `{ValidatorNodes}.

(** Requests to validators: the state of the network is kept with errors. *)
Definition remote (A : Type) : Type := network -> result NodeError A * network.

#[export] Instance remote_ret : MRet remote := fun A a n => (Ok a, n).
#[export] Instance remote_bind : MBind remote := fun A B k m n =>
  match m n with
  | (Ok a, n) => k a n
  | (Err e, n) => (Err e, n)
  | (Panic, n) => (Panic, n)
  end.
Definition r_lift {A} (r : result NodeError A) : remote A := fun n => (r, n).
(** The result of a request, to be matched on. *)
Definition attempt {A} (m : remote A) : remote (result NodeError A) := fun n =>
  match m n with
  | (Panic, n) => (Panic, n)
  | (r, n) => (Ok r, n)
  end.
Fixpoint r_for_each {A} (f : A -> remote unit) (l : list A) : remote unit :=
  match l with
  | [] => mret ()
  | a :: l => f a ;; r_for_each f l
  end.

End remote.

Inductive CommunicateAction :=
| SubmitBlockForConfirmation (proposal : BlockProposal)
| SubmitBlockForValidation (proposal : BlockProposal)
| FinalizeBlock (certificate : Certificate)
| AdvanceToNextBlockHeight (height : BlockHeight)
| RequestLeaderTimeout (height : BlockHeight) (round : RoundNumber) (epoch : Epoch).

Definition query_with_leader_timeout (query : ChainInfoQuery) : ChainInfoQuery :=
  {| query_chain_id := query_chain_id query; test_next_block_height := test_next_block_height query;
     request_committees := request_committees query;
     request_pending_messages := request_pending_messages query;
     request_sent_certificates_in_range := request_sent_certificates_in_range query;
     request_received_log_excluding_first_nth := request_received_log_excluding_first_nth query;
     request_manager_values := request_manager_values query; request_leader_timeout := true;
     request_blob := request_blob query |}.

(** ** The updater of a validator *)

Section updater.
Context `{Crypto, Bcs, LeaderSampling, StorageEnv, ErrorTexts, InfoChecking} {VN : ValidatorNodes}.
Context (name : ValidatorName) (store : DbStore) (retries : nat).

Definition response_check (response : ChainInfoResponse) (author : ValidatorName)
    : result NodeError unit :=
  match response_signature response with
  | Some signature =>
      map_err node_error_from_crypto
        (ensure (verify_info author (response_info response) signature) InvalidSignature)
  | None => Err InvalidChainInfoResponse
  end.

(** The blobs that a validator asks for with a certificate, in the order of the request; the code
    reads them in the order of a hash set. *)
Definition requested_blobs (certificate : Certificate) (locations : list BytecodeLocation)
    : result NodeError (list HashedValue) :=
  let required :=
    match value_block (hv_value (cert_value certificate)) with
    | Some block => (block_bytecode_locations block).*1
    | None => []
    end in
  ensure (forallb (fun location => bool_decide (location ∈ required)) locations)
    InvalidChainInfoResponse ;;
  ensure (bool_decide (NoDup locations)) InvalidChainInfoResponse ;;
  map_err node_error_from_view
    (for_each (fun location blobs =>
       blob ← read_value (loc_certificate_hash location) store; Ok (blobs ++ [blob])) locations []).

(** One iteration of the loop of [send_certificate], without the retry. *)
Definition send_certificate_once (certificate : Certificate)
    : remote (result NodeError ChainInfoResponse) :=
  result ←
    (if is_signed_by certificate name then
       result ← attempt (node_lite_certificate name (lite_certificate certificate));
       match result with
       | Err NodeMissingCertificateValue => attempt (node_certificate name certificate [])
       | result => mret result
       end
     else attempt (node_certificate name certificate []));
  match result with
  | Err (NodeApplicationBytecodesNotFound locations) =>
      blobs ← r_lift (requested_blobs certificate locations);
      attempt (node_certificate name certificate blobs)
  | result => mret result
  end.

(** [remaining] is what is left of the retries. *)
Fixpoint send_certificate (remaining : nat) (certificate : Certificate) (retryable : bool)
    : remote ChainInfo :=
  result ← send_certificate_once certificate;
  match result with
  | Ok response =>
      r_lift (response_check response name) ;;
      mret (response_info response)
  | Err (NodeInactiveChain id) =>
      match remaining with
      | S remaining => if retryable then send_certificate remaining certificate retryable
                  else r_lift (Err (NodeInactiveChain id))
      | O => r_lift (Err (NodeInactiveChain id))
      end
  | Err e => r_lift (Err e)
  | Panic => r_lift Panic
  end.

(** *** Missing certificates *)

(** A job of [send_chain_information]: a chain, the first height, the height after the last one, and
    whether to retry. *)
Notation Job := (ChainId * BlockHeight * BlockHeight * bool)%type.

(** The first loop, over the chain and its parents; it also returns the last chain. *)
Fixpoint find_jobs (fuel : nat) (chain_id : ChainId) (target_block_height : BlockHeight)
    (jobs : list Job) : remote (list Job * ChainId) :=
  match fuel with
  | O => r_lift Panic
  | S fuel =>
      response ← node_chain_info_query name (query_new chain_id);
      r_lift (response_check response name) ;;
      match info_description (response_info response) with
      | Some _ =>
          mret (jobs ++ [(chain_id, info_next_block_height (response_info response),
                          target_block_height, false)], chain_id)
      | None =>
          match sys_description (es_system (ch_execution (load_chain chain_id store))) with
          | Some (Child message_id) =>
              target ← r_lift (map_err node_error_from_arithmetic
                (try_add_one u64_MAX (mid_height message_id)));
              find_jobs fuel (mid_chain_id message_id) target
                (jobs ++ [(chain_id, 0, target_block_height, true)])
          | _ => r_lift (Err (InactiveLocalChain chain_id))
          end
      end
  end.

Definition run_job (job : Job) : remote unit :=
  let '(chain_id, initial_block_height, target_block_height, retryable) := job in
  if initial_block_height <? target_block_height then
    let keys := log_read (ch_confirmed_log (load_chain chain_id store)) initial_block_height
      (Some target_block_height) in
    certs ← r_lift (map_err node_error_from_view (read_certificates keys store));
    r_for_each (fun cert => send_certificate retries cert retryable ;; mret ()) certs
  else mret ().

(** The certificates of the manager. *)
Definition send_manager (chain_id : ChainId) : remote unit :=
  match ch_manager (load_chain chain_id store) with
  | ManagerMulti manager =>
      match locked manager with
      | Some cert =>
          if is_validated (hv_value (cert_value cert)) &&
             (value_chain_id (hv_value (cert_value cert)) =? chain_id)
          then send_certificate retries cert false ;; mret () else mret ()
      | None => mret ()
      end ;;
      match leader_timeout manager with
      | Some cert =>
          if is_timeout (hv_value (cert_value cert)) &&
             (value_chain_id (hv_value (cert_value cert)) =? chain_id)
          then send_certificate retries cert false ;; mret () else mret ()
      | None => mret ()
      end
  | _ => mret ()
  end.

Definition ancestors_fuel : nat := S (size (st_chains store)).

Definition send_chain_information (chain_id : ChainId) (target_block_height : BlockHeight)
    : remote unit :=
  '(jobs, chain_id) ← find_jobs ancestors_fuel chain_id target_block_height [];
  r_for_each run_job (reverse jobs) ;;
  send_manager chain_id.

(** The heights to send for the senders of a chain. *)
Definition sender_heights (chain_id : ChainId) : result NodeError (gmap ChainId BlockHeight) :=
  map_err node_error_from_arithmetic
    (for_each (fun '(origin, inbox) info =>
       inbox_next_height ← next_block_height_to_receive inbox;
       let next_height := default 0 (info !! sender origin) in
       Ok (<[sender origin := Z.max next_height inbox_next_height]> info))
      (map_to_list (ch_inboxes (load_chain chain_id store))) ∅).

Definition send_chain_information_for_senders (chain_id : ChainId) : remote unit :=
  info ← r_lift (sender_heights chain_id);
  r_for_each (fun '(sender, next_height) => send_chain_information sender next_height)
    (btree_iter info).

(** *** Proposals *)

(** One iteration of the loop of [send_block_proposal].  [synchronize] is what to do if messages are
    missing and were not sent yet, and [retry] if there are retries left. *)
Definition send_proposal_once (proposal : BlockProposal) (synchronize retry : option (remote ChainInfo))
    : remote ChainInfo :=
  let chain_id := block_chain_id (bar_block (prop_content proposal)) in
  result ← attempt (node_block_proposal name proposal);
  match result with
  | Ok response =>
      r_lift (response_check response name) ;;
      mret (response_info response)
  | Err (NodeInactiveChain _) =>
      default (r_lift (Err (ProposedBlockToInactiveChain chain_id retries))) retry
  | Err (NodeMissingCrossChainUpdate _ _ _) =>
      match synchronize with
      | Some synchronize => synchronize
      | None => default (r_lift (Err (ProposedBlockWithLaggingMessages chain_id retries))) retry
      end
  | Err (NodeApplicationBytecodesNotFound _) =>
      match synchronize with
      | Some synchronize => synchronize
      | None => default (r_lift (Err (ProposedBlockWithLaggingBytecode chain_id retries))) retry
      end
  | Err e => r_lift (Err e)
  | Panic => r_lift Panic
  end.

(** The loop, after the chains of the senders were sent and before. *)
Fixpoint send_proposal_again (remaining : nat) (proposal : BlockProposal) : remote ChainInfo :=
  send_proposal_once proposal None
    (match remaining with S remaining => Some (send_proposal_again remaining proposal) | O => None end).
Fixpoint send_proposal_first (remaining : nat) (proposal : BlockProposal) : remote ChainInfo :=
  send_proposal_once proposal
    (Some (send_chain_information_for_senders (block_chain_id (bar_block (prop_content proposal))) ;;
           send_proposal_again remaining proposal))
    (match remaining with S remaining => Some (send_proposal_first remaining proposal) | O => None end).

Definition send_block_proposal (proposal : BlockProposal) : remote ChainInfo :=
  send_proposal_first retries proposal.

(** The vote in an answer. *)
Definition own_vote (vote : option LiteVote) : result NodeError (option LiteVote) :=
  match vote with
  | Some vote =>
      if lvote_validator vote =? name then
        map_err node_error_from_chain (lite_vote_check vote) ;;
        Ok (Some vote)
      else Err MissingVoteInValidatorResponse
  | None => Err MissingVoteInValidatorResponse
  end.

Definition target_height (action : CommunicateAction) : BlockHeight :=
  match action with
  | SubmitBlockForValidation proposal | SubmitBlockForConfirmation proposal =>
      block_height (bar_block (prop_content proposal))
  | FinalizeBlock certificate => value_height (hv_value (cert_value certificate))
  | AdvanceToNextBlockHeight height => height
  | RequestLeaderTimeout height _ _ => height
  end.

Definition send_chain_update (chain_id : ChainId) (action : CommunicateAction)
    : remote (option LiteVote) :=
  let target_block_height := target_height action in
  send_chain_information chain_id target_block_height ;;
  match action with
  | SubmitBlockForValidation proposal | SubmitBlockForConfirmation proposal =>
      info ← send_block_proposal proposal;
      r_lift (own_vote (info_pending (info_manager info)))
  | FinalizeBlock certificate =>
      let retryable := target_block_height =? 0 in
      info ← send_certificate retries certificate retryable;
      r_lift (own_vote (info_pending (info_manager info)))
  | RequestLeaderTimeout _ _ _ =>
      response ← node_chain_info_query name (query_with_leader_timeout (query_new chain_id));
      r_lift (own_vote (info_timeout_vote (info_manager (response_info response))))
  | AdvanceToNextBlockHeight _ => mret None
  end.


(** ** Votes *)

Lemma own_vote_Ok vote r :
  own_vote vote = Ok r ->
  exists vote', r = Some vote' /\ lvote_validator vote' = name /\ lite_vote_check vote' = Ok ().
Proof.
  unfold own_vote. destruct vote as [vote|]; [|done].
  destruct (Z.eqb_spec (lvote_validator vote) name) as [Hname|]; [|done].
  intros ([] & Hc%map_err_Ok & [= <-])%bind_Ok. by exists vote.
Qed.
Lemma remote_bind_Ok {A B} (m : remote A) (k : A -> remote B) n b n' :
  (m ≫= k) n = (Ok b, n') -> exists a n1, m n = (Ok a, n1) /\ k a n1 = (Ok b, n').
Proof.
  unfold mbind, remote_bind. destruct (m n) as [[a|e|] n1]; intros Hk; [|done..]. by exists a, n1.
Qed.

(** Votes are those of the validator that was asked.  Whatever a validator answers, an update that
    succeeds returns a vote that names this validator and has a valid signature of it, unless the
    update asks for no vote. *)
Lemma update_returns_own_vote chain_id action n r n' :
  send_chain_update chain_id action n = (Ok r, n') ->
  match action with
  | AdvanceToNextBlockHeight _ => r = None
  | _ => exists vote, r = Some vote /\ lvote_validator vote = name /\ lite_vote_check vote = Ok ()
  end.
Proof.
  unfold send_chain_update. intros (u & n1 & _ & Hrun)%remote_bind_Ok. destruct action.
  all: try (apply remote_bind_Ok in Hrun as (info & n2 & _ & Hvote);
            injection Hvote as Hvote _; by apply own_vote_Ok in Hvote).
  by injection Hrun as <- _.
Qed.

(** ** Termination *)

(** The parent of a chain, as the local store knows it. *)
Definition parent (child parent : ChainId) : Prop :=
  exists message_id,
    sys_description (es_system (ch_execution (load_chain child store))) = Some (Child message_id) /\
    mid_chain_id message_id = parent.

(** Requests that do not panic, and whose values have a property. *)
Definition yields {A} (P : A -> Prop) (m : remote A) : Prop :=
  forall n, match (m n).1 with Ok a => P a | Err _ => True | Panic => False end.
Notation returns := (yields (fun _ => True)).

Lemma yields_ret {A} (P : A -> Prop) a : P a -> yields P (mret a).
Proof. by intros Ha n. Qed.
Lemma yields_bind {A B} (P : A -> Prop) (Q : B -> Prop) (m : remote A) (k : A -> remote B) :
  yields P m -> (forall a, P a -> yields Q (k a)) -> yields Q (m ≫= k).
Proof.
  intros Hm Hk n. unfold mbind, remote_bind. specialize (Hm n).
  destruct (m n) as [[a|e|] n']; simpl in *; [by apply Hk|done..].
Qed.
Lemma yields_lift {A} (P : A -> Prop) (r : result NodeError A) :
  (forall a, r = Ok a -> P a) -> r <> Panic -> yields P (r_lift r).
Proof. intros HP Hr n. simpl. destruct r; auto. Qed.
Lemma yields_error {A} (P : A -> Prop) e : yields P (r_lift (Err e)).
Proof. by intros n. Qed.
Lemma yields_attempt {A} (m : remote A) : (forall n, (m n).1 <> Panic) -> yields (.≠ Panic) (attempt m).
Proof. intros Hm n. unfold attempt. specialize (Hm n). by destruct (m n) as [[a|e|] n']. Qed.
Lemma yields_request {A} (m : remote A) : (forall n, (m n).1 <> Panic) -> returns m.
Proof. intros Hm n. specialize (Hm n). by destruct (m n) as [[a|e|] n']. Qed.
Lemma returns_for_each {A} (f : A -> remote unit) l : (forall a, returns (f a)) ->
  returns (r_for_each f l).
Proof.
  intros Hf. induction l as [|a l IH]; cbn [r_for_each]; [by apply yields_ret|].
  eapply yields_bind; [apply Hf|]. auto.
Qed.

Context {VNL : ValidatorNodesLaws VN}.

Lemma response_check_returns response : response_check response name <> Panic.
Proof. unfold response_check. destruct (response_signature response); [|done].
by destruct (verify_info _ _ _). Qed.
Lemma lift_check_returns response : returns (r_lift (response_check response name)).
Proof. apply yields_lift; [done|apply response_check_returns]. Qed.

Lemma result_bind_returns {F A B} (m : result F A) (k : A -> result F B) :
  m <> Panic -> (forall a, k a <> Panic) -> m ≫= k <> Panic.
Proof. intros Hm Hk. destruct m; simpl; auto. Qed.
Lemma for_each_returns {F A B} (f : A -> B -> result F B) l : forall b,
  (forall a b, f a b <> Panic) -> for_each f l b <> Panic.
Proof.
  induction l as [|a l IH]; intros b Hf; cbn [for_each]; [done|]. apply result_bind_returns; auto.
Qed.
Lemma map_err_returns {F G A} (f : F -> G) (r : result F A) : r <> Panic -> map_err f r <> Panic.
Proof. by destruct r. Qed.
Lemma ensure_returns {F} b (e : F) : ensure b e <> Panic.
Proof. by destruct b. Qed.
Lemma read_value_returns hash : read_value hash store <> Panic.
Proof. unfold read_value. by destruct (st_values store !! hash). Qed.
Lemma ok_or_returns {F A} (o : option A) (e : F) : ok_or o e <> Panic.
Proof. by destruct o. Qed.

Lemma requested_blobs_returns certificate locations : requested_blobs certificate locations <> Panic.
Proof.
  unfold requested_blobs. apply result_bind_returns; [apply ensure_returns|intros _].
  apply result_bind_returns; [apply ensure_returns|intros _].
  apply map_err_returns, for_each_returns. intros location blobs.
  apply result_bind_returns; [apply read_value_returns|done].
Qed.
Lemma read_certificates_returns keys : read_certificates keys store <> Panic.
Proof.
  induction keys as [|key keys IH]; cbn [read_certificates]; [done|].
  apply result_bind_returns; [|intros cert].
  - unfold read_certificate. do 2 (apply result_bind_returns; [apply ok_or_returns|intros ?]).
    apply ok_or_returns.
  - by apply result_bind_returns.
Qed.

Lemma send_certificate_once_yields certificate : yields (.≠ Panic) (send_certificate_once certificate).
Proof.
  unfold send_certificate_once. eapply yields_bind.
  - destruct (is_signed_by certificate name); [|apply yields_attempt, certificate_no_panic].
    eapply yields_bind; [apply yields_attempt, lite_certificate_no_panic|].
    intros r Hr. destruct r as [|[]|]; try (by apply yields_ret).
    apply yields_attempt, certificate_no_panic.
  - intros r Hr. destruct r as [|[]|]; try (by apply yields_ret).
    eapply (yields_bind (fun _ => True)); [apply yields_lift; [done|apply requested_blobs_returns]|].
    intros blobs _. apply yields_attempt, certificate_no_panic.
Qed.
Lemma send_certificate_returns remaining certificate retryable :
  returns (send_certificate remaining certificate retryable).
Proof.
  induction remaining as [|remaining IH]; cbn [send_certificate];
    (eapply yields_bind; [apply send_certificate_once_yields|]); intros r Hr.
  all: destruct r as [response|[]|]; try apply yields_error; try done.
  all: try (eapply yields_bind; [apply lift_check_returns|]; intros; by apply yields_ret).
  destruct retryable; [exact IH|apply yields_error].
Qed.
Lemma run_job_returns job : returns (run_job job).
Proof.
  destruct job as [[[id start] stop] retryable]. unfold run_job.
  destruct (start <? stop); [|by apply yields_ret].
  eapply (yields_bind (fun _ => True)).
  { apply yields_lift; [done|]. apply map_err_returns, read_certificates_returns. }
  intros certs _. apply returns_for_each. intros cert.
  eapply yields_bind; [apply send_certificate_returns|]. intros; by apply yields_ret.
Qed.
Lemma send_manager_returns id : returns (send_manager id).
Proof.
  assert (forall cert, returns (send_certificate retries cert false ;; mret ())) as Hsend.
  { intros cert. eapply yields_bind; [apply send_certificate_returns|]. intros; by apply yields_ret. }
  unfold send_manager. destruct (ch_manager (load_chain id store)) as [| |m]; try by apply yields_ret.
  eapply (yields_bind (fun _ => True)); [|intros _ _].
  - destruct (locked m); [|by apply yields_ret]. destruct (_ && _); [apply Hsend|by apply yields_ret].
  - destruct (leader_timeout m); [|by apply yields_ret].
    destruct (_ && _); [apply Hsend|by apply yields_ret].
Qed.

(** *** The parents of a chain *)

Context (acyclic : forall id, ~ tc parent id id).

Lemma find_jobs_returns fuel : forall visited id target jobs,
  NoDup visited -> (forall v, v ∈ visited -> is_Some (st_chains store !! v) /\ tc parent v id) ->
  (fuel + length visited = ancestors_fuel)%nat ->
  returns (find_jobs fuel id target jobs).
Proof.
  induction fuel as [|fuel IH]; intros visited id target jobs Hnd Hv Hfuel.
  { exfalso. unfold ancestors_fuel in Hfuel.
    assert (list_to_set visited ⊆ dom (st_chains store)) as Hsub.
    { intros v Hin%elem_of_list_to_set. apply elem_of_dom. by apply Hv. }
    apply subseteq_size in Hsub. rewrite size_list_to_set, size_dom in Hsub by done. simpl in Hfuel.
    lia. }
  cbn [find_jobs]. eapply yields_bind; [apply yields_request, query_no_panic|]. intros response _.
  eapply yields_bind; [apply lift_check_returns|]. intros _ _.
  destruct (info_description (response_info response)); [by apply yields_ret|].
  destruct (sys_description _) as [[|mid]|] eqn:Hd; try apply yields_error.
  eapply (yields_bind (fun _ => True)).
  { apply yields_lift; [done|]. apply map_err_returns, ok_or_returns. }
  intros height _. apply (IH (id :: visited)).
  - apply NoDup_cons. split; [|done]. intros Hin. destruct (Hv _ Hin) as [_ Ht]. by apply (acyclic id).
  - assert (parent id (mid_chain_id mid)) as Hp by by exists mid.
    intros v [->|Hin]%elem_of_cons.
    + split; [|by apply tc_once]. unfold load_chain in Hd.
      destruct (st_chains store !! id); [by eexists|done].
    + destruct (Hv _ Hin) as [? Ht]. split; [done|]. by eapply tc_r.
  - simpl. lia.
Qed.
Lemma send_chain_information_returns id target : returns (send_chain_information id target).
Proof.
  unfold send_chain_information. eapply yields_bind.
  - apply (find_jobs_returns _ []); [apply NoDup_nil_2|intros v Hv;
      by apply elem_of_nil in Hv|apply Nat.add_0_r].
  - intros [jobs last] _. eapply yields_bind; [apply returns_for_each, run_job_returns|].
    intros _ _. apply send_manager_returns.
Qed.
Lemma sender_heights_returns id : sender_heights id <> Panic.
Proof.
  apply map_err_returns, for_each_returns. intros [origin inbox] info.
  apply result_bind_returns; [|done].
  unfold next_block_height_to_receive. destruct (cursor_index _ =? 0); [done|]. apply ok_or_returns.
Qed.
Lemma send_for_senders_returns id : returns (send_chain_information_for_senders id).
Proof.
  unfold send_chain_information_for_senders. eapply (yields_bind (fun _ => True)).
  - apply yields_lift; [done|apply sender_heights_returns].
  - intros info _. apply returns_for_each. intros [sender height]. apply send_chain_information_returns.
Qed.
Lemma send_proposal_once_returns proposal synchronize retry :
  (forall m, synchronize = Some m -> returns m) -> (forall m, retry = Some m -> returns m) ->
  returns (send_proposal_once proposal synchronize retry).
Proof.
  intros Hs Hr. unfold send_proposal_once.
  eapply yields_bind; [apply yields_attempt, proposal_no_panic|]. intros r Hp.
  assert (forall e, returns (default (r_lift (Err e)) retry)) as Hretry.
  { intros e. destruct retry; simpl; [by apply Hr|apply yields_error]. }
  destruct r as [response|[]|]; try apply yields_error; try done.
  all: try (destruct synchronize; [by apply Hs|apply Hretry]).
  eapply yields_bind; [apply lift_check_returns|]. intros; by apply yields_ret.
Qed.
Lemma send_proposal_again_returns remaining proposal : returns (send_proposal_again remaining proposal).
Proof.
  induction remaining as [|remaining IH]; cbn [send_proposal_again];
    apply send_proposal_once_returns; intros m [= <-]; done.
Qed.
Lemma send_proposal_first_returns remaining proposal : returns (send_proposal_first remaining proposal).
Proof.
  induction remaining as [|remaining IH]; cbn [send_proposal_first];
    apply send_proposal_once_returns; intros m Hm; try discriminate Hm; try (by injection Hm as <-).
  all: injection Hm as <-; (eapply yields_bind; [apply send_for_senders_returns|intros _ _]).
  - apply (send_proposal_again_returns 0).
  - apply (send_proposal_again_returns (S remaining)).
Qed.
Lemma own_vote_returns vote : own_vote vote <> Panic.
Proof.
  unfold own_vote. destruct vote as [vote|]; [|done]. destruct (lvote_validator vote =? name); [|done].
  apply result_bind_returns; [|done]. do 2 apply map_err_returns. apply ensure_returns.
Qed.

(** C40: Updates end.  If no chain is its own ancestor in the local store, then an update of a validator
    that answers ends in a vote or in an error, whatever the answers are: the search for the ancestors
    that the validator does not have ends within as many steps as the store has chains, and the
    requests are repeated at most as often as the client allows. *)
Theorem update_returns chain_id action n : (send_chain_update chain_id action n).1 <> Panic.
Proof.
  enough (returns (send_chain_update chain_id action)) as Hr.
  { specialize (Hr n). by destruct (send_chain_update chain_id action n) as [[]]. }
  unfold send_chain_update. eapply yields_bind; [apply send_chain_information_returns|]. intros _ _.
  assert (forall vote, returns (r_lift (own_vote vote))) as Hvote.
  { intros vote. apply yields_lift; [done|apply own_vote_returns]. }
  destruct action.
  1, 2: eapply yields_bind; [apply send_proposal_first_returns|auto].
  - eapply yields_bind; [apply send_certificate_returns|auto].
  - by apply yields_ret.
  - eapply yields_bind; [apply yields_request, query_no_panic|auto].
Qed.

End updater.
