(* ===== verification/Subscriptions.v ===== *)
(** * Subscriptions to notifications

    The [Notifier] of [linera-core/src/notifier.rs]: the senders of the channels to the clients that
    wait for the notifications of a chain; and the [NotificationTracker] of
    [linera-core/src/tracker.rs], with which a client tells the notifications that are new.

    A channel is a number, given in the order of creation; [unbounded_channel] of Tokio is a list of
    what was sent, and sending fails once the receiver was dropped.  A sender that is stored for
    several chains is the same channel. *)

From S2P Require Import Prelude Numbers Types Crypto Committees Policy Bcs Inbox Outbox Errors.
From S2P Require Import Certificates Managers Registry System Batches KeyValueStore Runtime.
From S2P Require Import Execution ChainState Storage Worker.

Section notifier.
Context {N : Type}.

Record NotifierState := {
  inner : gmap ChainId (list nat);
  (* The channels: whether the receiver still exists, and what was sent to it. *)
  channels : list (bool * list N);
}.
Definition notifier_default : NotifierState := {| inner := ∅; channels := [] |}.

Definition subscribe (chain_ids : list ChainId) (self : NotifierState) : nat * NotifierState :=
  let tx := length (channels self) in
  (tx, {| inner := foldl (fun inner id => <[id := default [] (inner !! id) ++ [tx]]> inner)
                     (inner self) chain_ids;
          channels := channels self ++ [(true, [])] |}).

(** The receiver is dropped. *)
Definition close (rx : nat) (self : NotifierState) : NotifierState :=
  {| inner := inner self; channels := alter (fun channel => (false, channel.2)) rx (channels self) |}.

(** [UnboundedSender::send], and whether it failed. *)
Definition send (notification : N) (tx : nat) (chans : list (bool * list N))
    : bool * list (bool * list N) :=
  match chans !! tx with
  | Some (true, sent) => (false, <[tx := (true, sent ++ [notification])]> chans)
  | _ => (true, chans)
  end.

(** The loop over the senders: the indices of those that are dead, and the channels. *)
Fixpoint send_all (notification : N) (index : nat) (senders : list nat) (chans : list (bool * list N))
    : list nat * list (bool * list N) :=
  match senders with
  | [] => ([], chans)
  | sender :: senders =>
      let '(failed, chans) := send notification sender chans in
      let '(dead_senders, chans) := send_all notification (S index) senders chans in
      (if (failed : bool) then index :: dead_senders else dead_senders, chans)
  end.

Definition notify (chain_id : ChainId) (notification : N) (self : NotifierState) : NotifierState :=
  match inner self !! chain_id with
  | None => self
  | Some senders =>
      let '(dead_senders, chans) := send_all notification 0 senders (channels self) in
      let senders := foldl (fun senders index => delete index senders) senders (reverse dead_senders) in
      {| inner := if bool_decide (senders = []) then delete chain_id (inner self)
                  else <[chain_id := senders]> (inner self);
         channels := chans |}
  end.

Definition handle_notifications (chain_of : N -> ChainId) (notifications : list N)
    (self : NotifierState) : NotifierState :=
  foldl (fun self notification => notify (chain_of notification) notification self) self notifications.

(** ** Specification *)

(** Channels whose receiver exists. *)
Definition open (chans : list (bool * list N)) (tx : nat) : Prop :=
  exists sent, chans !! tx = Some (true, sent).
#[local] Instance open_dec chans tx : Decision (open chans tx).
Proof.
  refine (match chans !! tx as c return chans !! tx = c -> _ with
          | Some (true, sent) => fun Hc => left (ex_intro _ sent Hc)
          | _ => fun Hc => right _
          end eq_refl); intros [sent' Hs]; congruence.
Defined.
Definition subscribers (id : ChainId) (self : NotifierState) : list nat :=
  default [] (inner self !! id).

Lemma send_open notification tx chans failed chans' :
  send notification tx chans = (failed, chans') ->
  failed = negb (bool_decide (open chans tx)) /\ (forall tx', open chans' tx' <-> open chans tx').
Proof.
  unfold send. destruct (chans !! tx) as [[[] sent]|] eqn:Htx; intros [= <- <-].
  - rewrite bool_decide_true by (by exists sent). split; [done|]. intros tx'. unfold open.
    destruct (decide (tx' = tx)) as [->|Hne]; [|by rewrite list_lookup_insert_ne].
    rewrite list_lookup_insert_eq by (by eapply lookup_lt_Some). split; intros [s _]; by eexists.
  - rewrite bool_decide_false; [done|]. intros [s Hs]. congruence.
  - rewrite bool_decide_false; [done|]. intros [s Hs]. congruence.
Qed.

(** The senders that are left after those of the dead channels were removed. *)
Lemma send_all_senders notification senders : forall pre chans dead chans',
  send_all notification (length pre) senders chans = (dead, chans') ->
  foldl (fun senders index => delete index senders) (pre ++ senders) (reverse dead) =
  pre ++ filter (open chans) senders.
Proof.
  induction senders as [|tx senders IH]; intros pre chans dead chans'; cbn [send_all].
  { by intros [= <- <-]. }
  destruct (send notification tx chans) as [failed chans1] eqn:Hsend.
  destruct (send_open _ _ _ _ _ Hsend) as [-> Hopen].
  destruct (send_all _ _ _ _) as [dead1 chans2] eqn:Hall. intros [= <- <-].
  replace (S (length pre)) with (length (pre ++ [tx])) in Hall by (rewrite length_app; simpl; lia).
  apply IH in Hall. rewrite <- app_assoc in Hall. simpl in Hall.
  rewrite (list_filter_iff _ (open chans)), <- app_assoc in Hall by done.
  rewrite filter_cons. destruct (decide (open chans tx)) as [Ho|Ho].
  - by rewrite bool_decide_true.
  - rewrite bool_decide_false by done. cbn [negb]. rewrite reverse_cons, foldl_app, Hall. simpl.
    by apply delete_middle.
Qed.

(** How often a channel is among the senders. *)
Definition count (tx : nat) (senders : list nat) : nat := length (filter (eq tx) senders).
Definition receive (notification : N) (times : nat) (channel : bool * list N) : bool * list N :=
  (channel.1, if channel.1 then channel.2 ++ replicate times notification else channel.2).

Lemma send_all_channels notification senders : forall index chans dead chans' tx,
  send_all notification index senders chans = (dead, chans') ->
  chans' !! tx = receive notification (count tx senders) <$> chans !! tx.
Proof.
  induction senders as [|tx' senders IH]; intros index chans dead chans' tx; cbn [send_all].
  { intros [= <- <-]. destruct (chans !! tx) as [[[] sent]|]; [|done..]. unfold receive. simpl.
    by rewrite app_nil_r. }
  destruct (send notification tx' chans) as [failed chans1] eqn:Hsend.
  destruct (send_all _ _ _ _) as [dead1 chans2] eqn:Hall. intros [= <- <-].
  rewrite (IH _ _ _ _ tx Hall). unfold count. rewrite filter_cons. unfold send in Hsend.
  destruct (decide (tx = tx')) as [<-|Hne].
  - destruct (chans !! tx) as [[[] sent]|] eqn:Htx; injection Hsend as <- <-; rewrite ?Htx; try done.
    rewrite list_lookup_insert_eq by (by eapply lookup_lt_Some). unfold receive. simpl.
    by rewrite <- app_assoc.
  - destruct (chans !! tx') as [[[] sent]|] eqn:Htx; injection Hsend as <- <-; try done.
    by rewrite list_lookup_insert_ne.
Qed.

(** Who is notified.  A notification of a chain is sent to exactly the receivers that subscribed to
    this chain and still exist, as often as they subscribed; the channels of the other receivers are
    removed from the chain, and no other chain is affected. *)
Theorem notify_subscribers id notification self id' tx :
  subscribers id' (notify id notification self) =
    (if decide (id' = id) then filter (open (channels self)) (subscribers id self)
     else subscribers id' self) /\
  channels (notify id notification self) !! tx =
    receive notification (count tx (subscribers id self)) <$> channels self !! tx.
Proof.
  unfold notify, subscribers. destruct (inner self !! id) as [senders|] eqn:Hid.
  2: { split; [case_decide; subst; by rewrite ?Hid|].
       destruct (channels self !! tx) as [[[] sent]|]; [|done..].
       unfold receive. simpl. by rewrite app_nil_r. }
  destruct (send_all notification 0 senders (channels self)) as [dead chans] eqn:Hall. simpl. split.
  - pose proof (send_all_senders _ _ [] _ _ _ Hall) as Hs. cbn [app] in Hs. rewrite Hs.
    case_bool_decide as He; case_decide; subst.
    + by rewrite lookup_delete_eq, He.
    + by rewrite lookup_delete_ne.
    + by rewrite lookup_insert_eq.
    + by rewrite lookup_insert_ne.
  - by rewrite (send_all_channels _ _ _ _ _ _ tx Hall).
Qed.

End notifier.
Arguments NotifierState : clear implicits.

(** ** New notifications *)

Record NotificationTracker := {
  new_block : gmap ChainId BlockHeight;
  new_message : gmap (ChainId * Origin) BlockHeight;
  new_round : gmap ChainId (BlockHeight * RoundNumber);
}.
Definition tracker_default : NotificationTracker :=
  {| new_block := ∅; new_message := ∅; new_round := ∅ |}.

(** [<] on pairs. *)
Definition pair_ltb (p q : Z * Z) : bool := (p.1 <? q.1) || (p.1 =? q.1) && (p.2 <? q.2).

Definition is_new (self : NotificationTracker) (notification : Notification) : bool :=
  let chain_id := notification_chain_id notification in
  match notification_reason notification with
  | NewBlock height _ =>
      match new_block self !! chain_id with Some prev_height => prev_height <? height | None => true end
  | NewIncomingMessage origin height =>
      match new_message self !! (chain_id, origin) with
      | Some prev_height => prev_height <? height
      | None => true
      end
  | NewRound height round =>
      match new_round self !! chain_id with
      | Some prev => pair_ltb prev (height, round)
      | None => true
      end
  end.

Definition insert_new_block (chain_id : ChainId) (height : BlockHeight) (self : NotificationTracker)
    : bool * NotificationTracker :=
  let inserted := {| new_block := <[chain_id := height]> (new_block self);
                     new_message := new_message self; new_round := new_round self |} in
  match new_block self !! chain_id with
  | None => (true, inserted)
  | Some prev_height => if prev_height <? height then (true, inserted) else (false, self)
  end.

Definition insert_new_message (chain_id : ChainId) (origin : Origin) (height : BlockHeight)
    (self : NotificationTracker) : bool * NotificationTracker :=
  let key := (chain_id, origin) in
  let inserted := {| new_block := new_block self; new_message := <[key := height]> (new_message self);
                     new_round := new_round self |} in
  match new_message self !! key with
  | None => (true, inserted)
  | Some prev_height => if prev_height <? height then (true, inserted) else (false, self)
  end.

Definition insert_new_round (chain_id : ChainId) (height : BlockHeight) (round : RoundNumber)
    (self : NotificationTracker) : bool * NotificationTracker :=
  let inserted := {| new_block := new_block self; new_message := new_message self;
                     new_round := <[chain_id := (height, round)]> (new_round self) |} in
  match new_round self !! chain_id with
  | Some previous => if pair_ltb previous (height, round) then (true, inserted) else (false, self)
  | None => (true, inserted)
  end.

(** [NotificationTracker::insert]. *)
Definition tracker_insert (notification : Notification) (self : NotificationTracker)
    : bool * NotificationTracker :=
  let chain_id := notification_chain_id notification in
  match notification_reason notification with
  | NewBlock height _ => insert_new_block chain_id height self
  | NewIncomingMessage origin height => insert_new_message chain_id origin height self
  | NewRound height round => insert_new_round chain_id height round self
  end.

(** What a notification is about, and its place in the order of these. *)
Inductive Subject :=
| BlocksOf (id : ChainId)
| MessagesOf (id : ChainId) (origin : Origin)
| RoundsOf (id : ChainId).
#[local] Instance Subject_eq_dec : EqDecision Subject.
Proof. solve_decision. Defined.
Definition subject (notification : Notification) : Subject :=
  let id := notification_chain_id notification in
  match notification_reason notification with
  | NewBlock _ _ => BlocksOf id
  | NewIncomingMessage origin _ => MessagesOf id origin
  | NewRound _ _ => RoundsOf id
  end.
Definition rank (notification : Notification) : Z * Z :=
  match notification_reason notification with
  | NewBlock height _ | NewIncomingMessage _ height => (height, 0)
  | NewRound height round => (height, round)
  end.

(** What the tracker remembers of a subject. *)
Definition latest (self : NotificationTracker) (about : Subject) : option (Z * Z) :=
  match about with
  | BlocksOf id => (fun height => (height, 0)) <$> new_block self !! id
  | MessagesOf id origin => (fun height => (height, 0)) <$> new_message self !! (id, origin)
  | RoundsOf id => new_round self !! id
  end.

Lemma is_new_latest self n :
  is_new self n = match latest self (subject n) with Some p => pair_ltb p (rank n) | None => true end.
Proof.
  assert (forall a b, pair_ltb (a, 0) (b, 0) = (a <? b)) as Hz.
  { intros a b. unfold pair_ltb. simpl. by rewrite andb_false_r, orb_false_r. }
  destruct n as [id []]; unfold is_new, latest, subject, rank; simpl; case_match; simpl; rewrite ?Hz; done.
Qed.

Lemma tracker_insert_latest self n about :
  (tracker_insert n self).1 = is_new self n /\
  latest (tracker_insert n self).2 about =
    if is_new self n && bool_decide (about = subject n) then Some (rank n) else latest self about.
Proof.
  destruct n as [id reason]. unfold is_new, subject, rank, tracker_insert. simpl.
  destruct reason as [height hash|origin height|height round];
    [unfold insert_new_block; destruct (new_block self !! id) as [p|] eqn:Hp
    |unfold insert_new_message; destruct (new_message self !! (id, origin)) as [p|] eqn:Hp
    |unfold insert_new_round; destruct (new_round self !! id) as [p|] eqn:Hp];
    try destruct (_ <? _); try destruct (pair_ltb _ _); (split; [done|]); cbn [andb snd fst];
    try done; case_bool_decide as Hs; try subst about; simpl; simplify_map_eq; try done;
    destruct about; simpl; try done; rewrite lookup_insert_ne; congruence.
Qed.

Lemma pair_ltb_trans p q r : pair_ltb p q = true -> pair_ltb q r = true -> pair_ltb p r = true.
Proof. unfold pair_ltb. rewrite !orb_true_iff, !andb_true_iff, !Z.ltb_lt, !Z.eqb_eq. lia. Qed.
Lemma pair_ltb_weak p q r : pair_ltb p q = false -> pair_ltb p r = true -> pair_ltb q r = true.
Proof.
  destruct p, q, r. unfold pair_ltb. simpl.
  rewrite orb_false_iff, !orb_true_iff, !andb_true_iff, andb_false_iff, !Z.ltb_lt, !Z.ltb_ge, !Z.eqb_eq,
    Z.eqb_neq. lia.
Qed.

(** What the tracker remembers after a history is the highest of what was seen. *)
Definition highest (history : list Notification) (about : Subject) (p : option (Z * Z)) : Prop :=
  forall q, match p with Some p => pair_ltb p q | None => true end = true <->
    forall n, n ∈ history -> subject n = about -> pair_ltb (rank n) q = true.
Lemma tracker_highest history about :
  let self := foldl (fun self n => (tracker_insert n self).2) tracker_default history in
  highest history about (latest self about).
Proof.
  cbn zeta. induction history as [|n history IH] using rev_ind.
  { intros q. split; [|by destruct about]. intros _ n Hn. by apply not_elem_of_nil in Hn. }
  rewrite foldl_app. cbn [foldl]. set (self' := foldl _ _ history) in *.
  destruct (tracker_insert_latest self' n about) as [_ ->]. rewrite is_new_latest. intros q.
  setoid_rewrite elem_of_app. setoid_rewrite list_elem_of_singleton. specialize (IH q).
  destruct (decide (about = subject n)) as [->|Hne].
  - rewrite bool_decide_true, andb_true_r by done.
    destruct (latest self' (subject n)) as [p|] eqn:Hp.
    + destruct (pair_ltb p (rank n)) eqn:Hlt.
      * split; [|intros Hall; apply Hall; auto].
        intros Hq m [Hm| ->] Hs; [|done]. apply IH; [|done..]. by eapply pair_ltb_trans.
      * rewrite IH. split; [|intros Hall m Hm Hs; apply Hall; auto].
        intros Hall m [Hm| ->] Hs; [by apply Hall|]. apply (pair_ltb_weak p); [done|]. by apply IH.
    + split; [|intros Hall; apply Hall; auto]. intros Hq m [Hm| ->] Hs; [|done]. by apply IH.
  - rewrite bool_decide_false, andb_false_r, IH by done. split.
    + intros Hall m [Hm| ->] Hs; [by apply Hall|]. by destruct Hne.
    + intros Hall m Hm Hs. apply Hall; auto.
Qed.

(** After any history of notifications, the tracker calls a notification new exactly if it is higher
    than all of those that were about the same blocks, messages or rounds; inserting it gives the same
    answer. *)
Theorem tracker_is_new history n :
  let self := foldl (fun self n => (tracker_insert n self).2) tracker_default history in
  (tracker_insert n self).1 = is_new self n /\
  (is_new self n = true <->
   forall m, m ∈ history -> subject m = subject n -> pair_ltb (rank m) (rank n) = true).
Proof.
  cbn zeta. set (self := foldl _ _ history). split; [apply tracker_insert_latest; exact (subject n)|].
  rewrite is_new_latest. apply tracker_highest.
Qed.
