(* ===== verification/LocalNode.v ===== *)
(** * Local nodes

    The worker of a client ([linera-core/src/local_node.rs]): it executes the same handlers as that
    of a validator, on certificates and blobs that are downloaded from validators which may answer
    anything.

    Tasks that the code runs at the same time ([join_all]) are run one after the other; the lock of
    the node is taken for each handler, so an interleaving of two tasks is an interleaving of
    handlers.  Logging is left out. *)

From S2P Require Import Prelude Numbers Types Crypto Committees Policy Bcs Inbox Outbox Errors.
From S2P Require Import Certificates Managers Registry System Batches KeyValueStore Runtime.
From S2P Require Import Execution ChainState Storage Worker Quorum Updater Subscriptions.

(** ** Computations *)

(** Computations with a state that is kept with errors. *)
Definition task (S E A : Type) : Type := S -> result E A * S.

#[export] Instance task_ret {S E} : MRet (task S E) := fun A a s => (Ok a, s).
#[export] Instance task_bind {S E} : MBind (task S E) := fun A B k m s =>
  match m s with
  | (Ok a, s) => k a s
  | (Err e, s) => (Err e, s)
  | (Panic, s) => (Panic, s)
  end.

Section task.
Context {S E : Type}.

Definition t_lift {A} (r : result E A) : task S E A := fun s => (r, s).
Definition t_gets {A} (f : S -> A) : task S E A := fun s => (Ok (f s), s).
Definition t_modify (f : S -> S) : task S E unit := fun s => (Ok (), f s).
(** The result of a computation, to be matched on. *)
Definition t_attempt {E' A} (m : task S E' A) : task S E (result E' A) := fun s =>
  match m s with
  | (Panic, s) => (Panic, s)
  | (r, s) => (Ok r, s)
  end.
(** [?] with a conversion of errors. *)
Definition t_from {E' A} (f : E' -> E) (m : task S E' A) : task S E A := fun s =>
  let '(r, s) := m s in (map_err f r, s).
(** All the computations of a list, one after the other. *)
Fixpoint t_map {A B} (f : A -> task S E B) (l : list A) : task S E (list B) :=
  match l with
  | [] => mret []
  | a :: l => b ← f a; bs ← t_map f l; mret (b :: bs)
  end.
Fixpoint t_for_each {A B} (f : A -> B -> task S E B) (l : list A) (b : B) : task S E B :=
  match l with
  | [] => mret b
  | a :: l => b ← f a b; t_for_each f l b
  end.

End task.

(** ** Queries *)

Definition single (start : BlockHeight) : BlockHeightRange :=
  {| range_start := start; range_limit := Some 1 |}.

Definition with_committees (query : ChainInfoQuery) : ChainInfoQuery :=
  {| query_chain_id := query_chain_id query; test_next_block_height := test_next_block_height query;
     request_committees := true; request_pending_messages := request_pending_messages query;
     request_sent_certificates_in_range := request_sent_certificates_in_range query;
     request_received_log_excluding_first_nth := request_received_log_excluding_first_nth query;
     request_manager_values := request_manager_values query;
     request_leader_timeout := request_leader_timeout query; request_blob := request_blob query |}.
Definition with_pending_messages (query : ChainInfoQuery) : ChainInfoQuery :=
  {| query_chain_id := query_chain_id query; test_next_block_height := test_next_block_height query;
     request_committees := request_committees query; request_pending_messages := true;
     request_sent_certificates_in_range := request_sent_certificates_in_range query;
     request_received_log_excluding_first_nth := request_received_log_excluding_first_nth query;
     request_manager_values := request_manager_values query;
     request_leader_timeout := request_leader_timeout query; request_blob := request_blob query |}.
Definition with_sent_certificates_in_range (range : BlockHeightRange) (query : ChainInfoQuery)
    : ChainInfoQuery :=
  {| query_chain_id := query_chain_id query; test_next_block_height := test_next_block_height query;
     request_committees := request_committees query;
     request_pending_messages := request_pending_messages query;
     request_sent_certificates_in_range := Some range;
     request_received_log_excluding_first_nth := request_received_log_excluding_first_nth query;
     request_manager_values := request_manager_values query;
     request_leader_timeout := request_leader_timeout query; request_blob := request_blob query |}.
Definition with_received_log_excluding_first_nth (n : Z) (query : ChainInfoQuery) : ChainInfoQuery :=
  {| query_chain_id := query_chain_id query; test_next_block_height := test_next_block_height query;
     request_committees := request_committees query;
     request_pending_messages := request_pending_messages query;
     request_sent_certificates_in_range := request_sent_certificates_in_range query;
     request_received_log_excluding_first_nth := Some n;
     request_manager_values := request_manager_values query;
     request_leader_timeout := request_leader_timeout query; request_blob := request_blob query |}.
Definition with_manager_values (query : ChainInfoQuery) : ChainInfoQuery :=
  {| query_chain_id := query_chain_id query; test_next_block_height := test_next_block_height query;
     request_committees := request_committees query;
     request_pending_messages := request_pending_messages query;
     request_sent_certificates_in_range := request_sent_certificates_in_range query;
     request_received_log_excluding_first_nth := request_received_log_excluding_first_nth query;
     request_manager_values := true;
     request_leader_timeout := request_leader_timeout query; request_blob := request_blob query |}.
Definition with_blob (hash : CryptoHash) (query : ChainInfoQuery) : ChainInfoQuery :=
  {| query_chain_id := query_chain_id query; test_next_block_height := test_next_block_height query;
     request_committees := request_committees query;
     request_pending_messages := request_pending_messages query;
     request_sent_certificates_in_range := request_sent_certificates_in_range query;
     request_received_log_excluding_first_nth := request_received_log_excluding_first_nth query;
     request_manager_values := request_manager_values query;
     request_leader_timeout := request_leader_timeout query; request_blob := Some hash |}.

(** ** The node *)

Inductive LocalNodeError :=
| LocalArithmeticError (e : ArithmeticError)
| LocalViewError (e : ViewError)
| LocalWorkerError (e : WorkerError)
| CannotDownloadCertificates (chain_id : ChainId) (target_next_block_height : BlockHeight)
| LocalInactiveChain (chain_id : ChainId)
| LocalInvalidChainInfoResponse.

Section node.
Context `{Crypto, Bcs, LeaderSampling, StorageEnv, ValueCache, InfoSigning, ErrorTexts, InfoChecking}.
Context {VN : ValidatorNodes} (clock : nat -> Timestamp) (depth : nat).

Record LocalNode := {
  node_state : WorkerState;
  node_notifier : NotifierState Notification;
}.
(** The state: the node and the validators behind the network. *)
Notation local := (task (LocalNode * network) LocalNodeError).

Definition set_node_state (w : WorkerState) (node : LocalNode) : LocalNode :=
  {| node_state := w; node_notifier := node_notifier node |}.
Definition set_node_notifier (notifier : NotifierState Notification) (node : LocalNode) : LocalNode :=
  {| node_state := node_state node; node_notifier := notifier |}.

(** A handler of the worker, under the lock of the node. *)
Definition on_worker {A} (m : worker A) : local A := fun '(node, n) =>
  let '(r, w) := m (node_state node) in
  (map_err LocalWorkerError r, (set_node_state w node, n)).
(** A request to a validator, and its result. *)
Definition on_network {A} (m : remote A) : local (result NodeError A) := fun '(node, n) =>
  let '(r, n) := m n in
  (match r with Panic => Panic | r => Ok r end, (node, n)).
Definition shuffled (names : list ValidatorName) : local (list ValidatorName) := fun '(node, n) =>
  let '(names, n) := shuffle names n in
  (Ok names, (node, n)).
Definition storage_client : local DbStore := t_gets (fun '(node, _) => ws_storage (node_state node)).

Definition local_block_proposal (proposal : BlockProposal) : local ChainInfoResponse :=
  '(response, _) ← on_worker (handle_block_proposal clock depth proposal);
  mret response.

Definition local_certificate (certificate : Certificate) (blobs : list HashedValue)
    : local ChainInfoResponse :=
  '(response, log) ←
    on_worker (fully_handle_certificate_with_notifications clock depth certificate blobs);
  match log with
  | Some notifications =>
      t_modify (fun '(node, n) =>
        (set_node_notifier
           (handle_notifications notification_chain_id notifications (node_notifier node)) node, n)) ;;
      mret response
  | None => t_lift Panic
  end.

Definition local_lite_certificate (certificate : LiteCertificate) : local ChainInfoResponse :=
  full_cert ← on_worker (full_certificate certificate);
  local_certificate full_cert [].

Definition local_chain_info_query (query : ChainInfoQuery) : local ChainInfoResponse :=
  '(response, _) ← on_worker (handle_chain_info_query clock query);
  mret response.

Definition local_subscribe (chains : list ChainId) : local nat := fun '(node, n) =>
  let '(rx, notifier) := subscribe chains (node_notifier node) in
  (Ok rx, (set_node_notifier notifier node, n)).

Definition local_stage_block_execution (block : Block) : local (ExecutedBlock * ChainInfoResponse) :=
  on_worker (stage_block_execution clock depth block).

Definition local_query_application (chain_id : ChainId) (query : Query) : local Response :=
  on_worker (w_query_application depth chain_id query).

Definition local_describe_application (chain_id : ChainId) (application_id : UserApplicationId)
    : local UserApplicationDescription :=
  on_worker (w_describe_application chain_id application_id).

Definition local_chain_info (chain_id : ChainId) : local ChainInfo :=
  response ← local_chain_info_query (query_new chain_id);
  mret (response_info response).

(** The certificate that has a message. *)
Definition certificate_for (message_id : MessageId) : local Certificate :=
  let query := with_sent_certificates_in_range (single (mid_height message_id))
    (query_new (mid_chain_id message_id)) in
  response ← local_chain_info_query query;
  match list_find (fun certificate =>
          has_message (hv_value (cert_value certificate)) message_id = true)
          (requested_sent_certificates (response_info response)) with
  | Some (_, certificate) => mret certificate
  | None => t_lift (Err (LocalViewError ViewNotFound))
  end.

(** ** Downloading *)

(** The answer of a validator to a query, if it has a valid signature. *)
Definition checked_answer (name : ValidatorName) (query : ChainInfoQuery) : local (option ChainInfo) :=
  result ← on_network (node_chain_info_query name query);
  mret match result with
       | Ok response =>
           if is_ok (response_check response name) then Some (response_info response) else None
       | _ => None
       end.

Definition try_download_blob_from (name : ValidatorName) (chain_id : ChainId)
    (location : BytecodeLocation) : local (option HashedValue) :=
  info ← checked_answer name (with_blob (loc_certificate_hash location) (query_new chain_id));
  mret (info ≫= requested_blob).

Fixpoint try_each_validator (names : list ValidatorName) (chain_id : ChainId)
    (location : BytecodeLocation) : local (option HashedValue) :=
  match names with
  | [] => mret None
  | name :: names =>
      blob ← try_download_blob_from name chain_id location;
      match blob with
      | Some blob => mret (Some blob)
      | None => try_each_validator names chain_id location
      end
  end.

Definition download_blob (validators : list ValidatorName) (chain_id : ChainId)
    (location : BytecodeLocation) : local (option HashedValue) :=
  validators ← shuffled validators;
  try_each_validator validators chain_id location.

(** A certificate of the network, with the bytecode it needs if the validator has it; [None] if it
    does not. *)
Definition process_with_blobs (name : ValidatorName) (chain_id : ChainId) (certificate : Certificate)
    : local (option (result LocalNodeError ChainInfoResponse)) :=
  result ← t_attempt (local_certificate certificate []);
  match result with
  | Err (LocalWorkerError (ApplicationBytecodesNotFound locations)) =>
      maybe_blobs ← t_map (try_download_blob_from name chain_id) locations;
      match mapM id maybe_blobs with
      | Some blobs =>
          result ← t_attempt (local_certificate certificate blobs);
          mret (Some result)
      | None => mret None
      end
  | result => mret (Some result)
  end.

Fixpoint try_process_certificates (name : ValidatorName) (chain_id : ChainId)
    (certificates : list Certificate) (info : option ChainInfo) : local (option ChainInfo) :=
  match certificates with
  | [] => mret info
  | certificate :: certificates =>
      let value := hv_value (cert_value certificate) in
      if negb (is_confirmed value) || negb (value_chain_id value =? chain_id) then mret info
      else
        result ← process_with_blobs name (value_chain_id value) certificate;
        match result with
        | Some (Ok response) =>
            try_process_certificates name chain_id certificates (Some (response_info response))
        | _ => mret info
        end
  end.

Definition try_download_certificates_from (name : ValidatorName) (chain_id : ChainId)
    (start stop : BlockHeight) : local unit :=
  limit ← t_lift (ok_or (checked_sub stop start) (LocalArithmeticError Overflow));
  let query := with_sent_certificates_in_range {| range_start := start; range_limit := Some limit |}
    (query_new chain_id) in
  info ← checked_answer name query;
  match info with
  | Some info => try_process_certificates name chain_id (requested_sent_certificates info) None ;;
    mret ()
  | None => mret ()
  end.

(** The loop over the validators, and what follows it. *)
Fixpoint download_from_each (names : list ValidatorName) (chain_id : ChainId)
    (target_next_block_height : BlockHeight) : local ChainInfo :=
  match names with
  | [] =>
      info ← local_chain_info chain_id;
      if target_next_block_height <=? info_next_block_height info then mret info
      else t_lift (Err (CannotDownloadCertificates chain_id target_next_block_height))
  | name :: names =>
      info ← local_chain_info chain_id;
      if target_next_block_height <=? info_next_block_height info then mret info
      else
        try_download_certificates_from name chain_id (info_next_block_height info)
          target_next_block_height ;;
        download_from_each names chain_id target_next_block_height
  end.

Definition download_certificates (validators : list ValidatorName) (chain_id : ChainId)
    (target_next_block_height : BlockHeight) : local ChainInfo :=
  validators ← shuffled validators;
  download_from_each validators chain_id target_next_block_height.

Definition read_or_download_blob (validators : list ValidatorName) (chain_id : ChainId)
    (location : BytecodeLocation) : local (option HashedValue) :=
  storage ← storage_client;
  match read_value (loc_certificate_hash location) storage with
  | Ok blob => mret (Some blob)
  | Err ViewNotFound =>
      blob ← download_blob validators chain_id location;
      match blob with
      | Some blob =>
          t_modify (fun '(node, n) =>
            (set_node_state (set_storage (write_value blob (ws_storage (node_state node)))
               (node_state node)) node, n)) ;;
          mret (Some blob)
      | None => mret None
      end
  | Err e => t_lift (Err (LocalViewError e))
  | Panic => t_lift Panic
  end.

Definition read_or_download_blobs (validators : list ValidatorName)
    (blob_locations : list (BytecodeLocation * ChainId)) : local (list HashedValue) :=
  '(blobs, tasks) ← t_for_each (fun '(location, chain_id) '(blobs, tasks) =>
      blob ← on_worker (recent_value (loc_certificate_hash location));
      mret match blob with
           | Some blob => (blobs ++ [blob], tasks)
           | None => (blobs, tasks ++ [(location, chain_id)])
           end) blob_locations ([], []);
  match tasks with
  | [] => mret blobs
  | _ =>
      results ← t_map (fun '(location, chain_id) =>
        t_attempt (read_or_download_blob validators chain_id location)) tasks;
      t_for_each (fun result blobs =>
        blob ← t_lift result;
        match blob with
        | Some blob => on_worker (cache_recent_value blob) ;; mret (blobs ++ [blob])
        | None => mret blobs
        end) results blobs
  end.

(** ** Synchronizing *)

(** The proposal and the locked certificate of the manager of a validator. *)
Definition synchronize_manager (chain_id : ChainId) (manager : ChainManagerInfo) : local unit :=
  match manager with
  | InfoMulti manager =>
      match minfo_requested_proposed manager with
      | Some proposal =>
          if block_chain_id (bar_block (prop_content proposal)) =? chain_id
          then t_attempt (E' := LocalNodeError) (local_block_proposal proposal) ;; mret () else mret ()
      | None => mret ()
      end ;;
      match minfo_requested_locked manager with
      | Some cert =>
          if is_validated (hv_value (cert_value cert)) &&
             (value_chain_id (hv_value (cert_value cert)) =? chain_id)
          then t_attempt (E' := LocalNodeError) (local_certificate cert []) ;; mret () else mret ()
      | None => mret ()
      end
  | _ => mret ()
  end.

Definition try_synchronize_chain_state_from (name : ValidatorName) (chain_id : ChainId) : local unit :=
  local_info ← local_chain_info chain_id;
  let range := {| range_start := info_next_block_height local_info; range_limit := None |} in
  let query := with_manager_values (with_sent_certificates_in_range range (query_new chain_id)) in
  info ← checked_answer name query;
  match info with
  | None => mret ()
  | Some info =>
      processed ← try_process_certificates name chain_id (requested_sent_certificates info) None;
      match processed with
      | None => mret ()
      | Some _ => synchronize_manager chain_id (info_manager info)
      end
  end.

Definition synchronize_chain_state (validators : list ValidatorName) (chain_id : ChainId)
    : local ChainInfo :=
  t_map (fun name =>
    t_attempt (E' := LocalNodeError) (try_synchronize_chain_state_from name chain_id)) validators ;;
  local_chain_info chain_id.

End node.
