(* ===== verification/LocalSafety.v ===== *)
(** * What the operations of a local node do

    Whatever validators answer, the operations of a local node ([LocalNode]) change its worker only
    by the steps of [WorkerSteps]: so the invariant of workers holds ([node_operations_safe]), no
    chain is ever set back, and a download that succeeds has reached its target
    ([download_reaches_target]).

    What a validator sends is deserialized, so its values have their own hashes (class
    [DecodedValues]). *)

From S2P Require Import Prelude Numbers Types Crypto Committees Policy Bcs Inbox Outbox Errors.
From S2P Require Import Certificates Managers Consensus Registry System Batches KeyValueStore.
From S2P Require Import Runtime Execution ChainState Blocks Storage Worker WorkerSteps WorkerSafety.
From S2P Require Import Quorum Updater Subscriptions LocalNode.

(** ** Computations that respect an invariant *)

Section moves.
Context {S : Type} (I : S -> Prop) (R : S -> S -> Prop) `{!PreOrder R}.
Context (I_R : forall s s', I s -> R s s' -> I s').

(** From a state with the invariant, the state changes by [R] and values have a property. *)
Definition moves {E A} (P : A -> Prop) (m : task S E A) : Prop :=
  forall s, I s -> R s (m s).2 /\ forall a, (m s).1 = Ok a -> P a.

Context {E : Type}.

Lemma moves_ret {A} (P : A -> Prop) a : P a -> moves (E := E) P (mret a).
Proof. intros Ha s _. split; [done|]. by intros ? [= <-]. Qed.
Lemma moves_bind {A B} (P : A -> Prop) (Q : B -> Prop) (m : task S E A) (k : A -> task S E B) :
  moves P m -> (forall a, P a -> moves Q (k a)) -> moves Q (m ≫= k).
Proof.
  intros Hm Hk s Hs. destruct (Hm s Hs) as [Hr Ha]. unfold mbind, task_bind.
  destruct (m s) as [[a|e|] s1]; simpl in *; [|done..].
  destruct (Hk a (Ha a eq_refl) s1) as [Hr' Hb]; [by eapply I_R|]. split; [by etrans|done].
Qed.
Lemma moves_mono {A} (P Q : A -> Prop) (m : task S E A) :
  moves P m -> (forall a, P a -> Q a) -> moves Q m.
Proof. intros Hm HPQ s Hs. destruct (Hm s Hs) as [Hr Ha]. auto. Qed.
Lemma moves_lift {A} (P : A -> Prop) (r : result E A) : (forall a, r = Ok a -> P a) ->
  moves P (t_lift r).
Proof. intros Hr s _. by split. Qed.
Lemma moves_gets {A} (P : A -> Prop) (f : S -> A) : (forall s, I s -> P (f s)) -> moves
    (E := E) P (t_gets f).
Proof. intros Hf s Hs. split; [done|]. intros ? [= <-]. auto. Qed.
Lemma moves_attempt {E' A} (P : A -> Prop) (m : task S E' A) :
  moves P m -> moves (E := E) (fun r => forall a, r = Ok a -> P a) (t_attempt m).
Proof.
  intros Hm s Hs. destruct (Hm s Hs) as [Hr Ha]. unfold t_attempt.
  destruct (m s) as [[a|e|] s1]; simpl in *; (split; [done|]); intros r Heq; by simplify_eq.
Qed.
Lemma moves_from {E' A} (P : A -> Prop) (f : E' -> E) (m : task S E' A) :
  moves P m -> moves P (t_from f m).
Proof.
  intros Hm s Hs. destruct (Hm s Hs) as [Hr Ha]. unfold t_from.
  destruct (m s) as [[a|e|] s1]; simpl in *; (split; [done|]); intros r Heq; by simplify_eq; auto.
Qed.
Lemma moves_map {A B} (P : B -> Prop) (f : A -> task S E B) l :
  (forall a, a ∈ l -> moves P (f a)) -> moves (Forall P) (t_map f l).
Proof.
  induction l as [|a l IH]; intros Hf; cbn [t_map]; [by apply moves_ret|].
  eapply moves_bind; [apply Hf; by left|]. intros b Hb.
  eapply moves_bind; [apply IH; intros; apply Hf; by right|]. intros bs Hbs.
  apply moves_ret. by constructor.
Qed.
Lemma moves_for_each {A B} (P : B -> Prop) (f : A -> B -> task S E B) l :
  (forall a b, a ∈ l -> P b -> moves P (f a b)) -> forall b, P b -> moves P (t_for_each f l b).
Proof.
  induction l as [|a l IH]; intros Hf b Hb; cbn [t_for_each]; [by apply moves_ret|].
  eapply moves_bind; [apply Hf; [by left|done]|]. intros b' Hb'. apply IH; [|done].
  intros; apply Hf; [by right|done].
Qed.

End moves.

(** ** What validators send *)

Definition certificate_ok `{Crypto} (certificate : Certificate) : Prop :=
  value_ok (cert_value certificate).
Definition proposal_ok `{Crypto} (proposal : BlockProposal) : Prop :=
  Forall value_ok (prop_blobs proposal) /\
  forall cert, prop_validated proposal = Some cert -> certificate_ok cert.

(** The values of an answer have their own hashes. *)
Record info_values_ok `{Crypto} (info : ChainInfo) : Prop := {
  sent_ok : Forall certificate_ok (requested_sent_certificates info);
  blob_ok blob : requested_blob info = Some blob -> value_ok blob;
  proposed_ok manager proposal : info_manager info = InfoMulti manager ->
    minfo_requested_proposed manager = Some proposal -> proposal_ok proposal;
  locked_ok manager cert : info_manager info = InfoMulti manager ->
    minfo_requested_locked manager = Some cert -> certificate_ok cert;
}.
(** Answers are deserialized, and [HashedValue]s are hashed when they are. *)
Class DecodedValues `{Crypto} (VN : ValidatorNodes) := {
  query_values name query n response n' :
    node_chain_info_query name query n = (Ok response, n') -> info_values_ok (response_info response);
}.

Section safety.
Context {C : Crypto} {CL : CryptoLaws C} {B : Bcs} {LS : LeaderSampling} {SE : StorageEnv}.
Context {VC : ValueCache} {VCL : ValueCacheLaws VC} {IS : InfoSigning}.
Context {ET : ErrorTexts} {IC : InfoChecking} {VN : ValidatorNodes} {DV : DecodedValues VN}.
Context (clock : nat -> Timestamp) (depth : nat).

(** ** Cross-chain requests of a certificate *)

Definition keeps_store (w w' : WorkerState) : Prop := store_ok (ws_storage w) ->
  store_ok (ws_storage w').
#[local] Instance keeps_store_preorder : PreOrder keeps_store.
Proof. unfold keeps_store. split; [by intros w Hw|]. intros w1 w2 w3 H12 H23 H1. auto. Qed.

(** Handlers that respect the store. *)
Definition stores {A} (P : A -> Prop) (m : worker A) : Prop :=
  moves (fun w => store_ok (ws_storage w)) keeps_store P m.

Lemma stores_bind {A A'} (P : A -> Prop) (Q : A' -> Prop) (m : worker A) (k : A -> worker A') :
  stores P m -> (forall a, P a -> stores Q (k a)) -> stores Q (m ≫= k).
Proof.
  intros Hm Hk. apply (moves_bind _ _ (fun w w' Hw Hk => Hk Hw) P Q); auto.
Qed.
Lemma stores_ret {A} (P : A -> Prop) (a : A) : P a -> stores P (mret a).
Proof. apply (moves_ret _ keeps_store). Qed.
Lemma stores_panic {A} (P : A -> Prop) : stores P (w_lift Panic).
Proof. intros w Hw. by split. Qed.
Lemma stores_quiet {A} (m : worker A) : is_quiet m -> stores (fun _ => True) m.
Proof. intros Hq w Hw. split; [|done]. intros _. by apply (quiet_store _ _ (Hq w)). Qed.
Lemma stores_save id chain : stores (fun _ => True) (w_save_chain id chain).
Proof. intros w [Hv Hc]. by split. Qed.

Lemma read_certificates_values st keys certs :
  store_ok st -> read_certificates keys st = Ok certs ->
    Forall (fun c => value_ok (cert_value c)) certs.
Proof.
  intros Hst. revert certs. induction keys as [|hash keys IH]; intros certs; simpl; [by intros [= <-]|].
  intros (cert & Hread & (rest & Hrest & [= <-])%bind_Ok)%bind_Ok. constructor; [|auto].
  unfold read_certificate in Hread. apply bind_Ok in Hread as (value & Hv%ok_or_Ok & Hread).
  apply bind_Ok in Hread as (lite & _ & Hw%ok_or_Ok). unfold lite_with_value in Hw.
  destruct (_ || _); [done|]. injection Hw as <-. by apply (store_values _ Hst) in Hv.
Qed.

Lemma network_actions_requests id chain :
  stores (fun actions => Forall request_ok (cross_chain_requests actions)) (create_network_actions id
    chain).
Proof.
  intros w Hw. split; [by rewrite create_network_actions_pure|]. intros actions Hrun.
  unfold create_network_actions, mbind, worker_bind in Hrun.
  match type of Hrun with context [w_for_each ?f ?l ?s w] =>
    assert (forall acc, Forall request_ok acc ->
      wp (w_for_each f l acc) (fun reqs w' => w' = w /\
        Forall request_ok reqs) (fun _ => True) w) as Hall
  end.
  { intros acc Hacc. apply (wp_for_each _ (fun reqs w' => w' = w /\ Forall request_ok reqs)); [|done].
    intros [recipient height_map] reqs w1 _ [-> Hreqs]. apply wp_bind.
    apply wp_bind, wp_gets, wp_bind, wp_lift; [|done]. intros certs Hc%map_err_Ok.
    apply wp_ret, wp_ret. split; [done|]. apply Forall_app. split; [done|]. apply Forall_singleton.
    by eapply read_certificates_values. }
  specialize (Hall [] (Forall_nil_2 _)). unfold wp in Hall.
  destruct (w_for_each _ _ _ w) as [[reqs|e|] w1]; [|done..]. injection Hrun as <-. apply Hall.
Qed.

Ltac quiet_tac :=
  first
    [ apply current_time_quiet | apply register_quiet | by apply cache_recent_value_quiet
    | by apply cache_recent_values_quiet | by apply cache_validated_quiet
    | by apply quiet_pure, check_no_missing_bytecode_pure
    | by apply quiet_pure, info_response_pure | by apply quiet_pure, execute_pure
    | apply quiet_pure;
      repeat first [ progress intros | apply pure_ret | apply pure_gets | apply pure_lift
                   | apply pure_bind | case_match ] ].
(** Pass a quiet computation. *)
Ltac stores_quiet := eapply stores_bind; [apply stores_quiet; quiet_tac|intros ? _].

Lemma process_confirmed_requests cert blobs :
  value_ok (cert_value cert) -> Forall value_ok blobs ->
  stores (fun r => Forall request_ok (cross_chain_requests r.2))
    (process_confirmed_block clock depth cert blobs None).
Proof.
  intros Hv Hb. unfold process_confirmed_block.
  destruct (hv_value (cert_value cert)) as [|eb|]; [apply stores_panic| |apply stores_panic].
  stores_quiet. stores_quiet. destruct (_ <? _).
  { stores_quiet. eapply stores_bind; [apply network_actions_requests|]. intros actions Ha.
    stores_quiet. by apply stores_ret. }
  do 4 stores_quiet. eapply stores_bind.
  { apply stores_quiet, quiet_modify. intros w. split; try done. simpl.
    etrans; [by apply write_values_step|by apply add_certificate_step]. }
  intros _ _. do 2 stores_quiet. eapply stores_bind; [apply stores_quiet, quiet_pure, execute_pure|].
  intros [chain outcome] _. do 5 stores_quiet.
  eapply stores_bind; [apply network_actions_requests|]. intros actions Ha.
  eapply stores_bind; [apply stores_save|]. intros _ _. do 2 stores_quiet. by apply stores_ret.
Qed.

Lemma handle_certificate_requests cert blobs :
  value_ok (cert_value cert) -> Forall value_ok blobs ->
  stores (fun r => Forall request_ok (cross_chain_requests r.2))
    (handle_certificate clock depth cert blobs None).
Proof.
  intros Hv Hb. unfold handle_certificate. stores_quiet.
  destruct (hv_value (cert_value cert)) as [eb|eb|id height epoch] eqn:Hval.
  - unfold process_validated_block. rewrite Hval.
    eapply (stores_bind (fun r => cross_chain_requests r.1.2 = [])).
    + do 4 stores_quiet. destruct (_ : bool).
      * stores_quiet. by apply stores_ret.
      * do 4 stores_quiet. stores_quiet. eapply stores_bind; [apply stores_save|]. intros _ _.
        stores_quiet. by apply stores_ret.
    + intros [[info actions] dup] Ha. apply stores_ret. simpl in *. by rewrite Ha.
  - by apply process_confirmed_requests.
  - unfold process_leader_timeout. rewrite Hval. do 3 stores_quiet. destruct (_ : bool).
    + stores_quiet. by apply stores_ret.
    + do 3 stores_quiet. eapply stores_bind; [apply stores_save|]. intros _ _. by apply stores_ret.
Qed.

(** Answers to requests are confirmations. *)
Lemma request_answers_ok request w actions w' :
  handle_cross_chain_request clock request w = (Ok actions, w') ->
  Forall request_ok (cross_chain_requests actions).
Proof.
  destruct request as [hm from id certs|from id latest]; simpl; unfold mbind, worker_bind.
  - destruct (w_for_each _ _ _ w) as [[[|p l]| |] w1]; intros [= <- <-]; simpl; by repeat constructor.
  - unfold w_load_chain, w_gets. destruct (w_for_each _ _ _ w) as [[[[] s]| |] w1]; simpl;
      intros [= <- <-]; by repeat constructor.
Qed.

Lemma handle_requests_steps fuel : forall requests log w,
  worker_ok w -> Forall request_ok requests ->
  wp (handle_requests clock fuel requests log) (fun _ => steps depth w) (steps depth w) w.
Proof.
  induction fuel as [|fuel IH]; intros [|request requests] log w Hok Hreq; try apply rtc_refl.
  apply Forall_cons in Hreq as [Hr Hrest]. cbn [handle_requests].
  pose proof (wp_run _ _ _ _ _ _ (handle_request_steps clock depth request w Hr) (surjective_pairing
    _)) as Hs.
  pose proof (request_answers_ok request w) as Ha. unfold wp, mbind, worker_bind in *.
  destruct (handle_cross_chain_request clock request w) as [[actions|e|] w1]; simpl in *; [|done..].
  specialize (IH (requests ++ cross_chain_requests actions) (log ++ notifications actions) w1).
  assert (worker_ok w1) as Hok1 by by eapply steps_ok.
  specialize (IH Hok1 ltac:(apply Forall_app; split; [done|by eapply Ha])).
  unfold wp in IH. destruct (handle_requests _ _ _ _ w1) as [[] w2]; by etrans.
Qed.

(** Processing a certificate and all the cross-chain requests it causes. *)
Lemma fully_handle_steps cert blobs w :
  worker_ok w -> value_ok (cert_value cert) -> Forall value_ok blobs ->
  wp (fully_handle_certificate_with_notifications clock depth cert blobs)
    (fun _ => steps depth w) (steps depth w) w.
Proof.
  intros Hok Hv Hb. unfold fully_handle_certificate_with_notifications.
  pose proof (wp_run _ _ _ _ _ _ (handle_certificate_steps clock depth cert blobs None w Hv Hb)
    (surjective_pairing _)) as Hs.
  destruct (handle_certificate_requests cert blobs Hv Hb w (worker_store _ Hok)) as [_ Hr].
  apply wp_bind. unfold wp.
  destruct (handle_certificate clock depth cert blobs None w) as [[[response actions]|e|] w1];
    simpl in *;
    [|by apply quiet_steps..].
  apply wp_bind. eapply wp_mono; [apply handle_requests_steps; [by eapply steps_ok|by eapply (Hr (_,
    _))]| |].
  - intros log w2 Hs2. apply wp_ret. by etrans.
  - intros w2 Hs2. by etrans.
Qed.

(** ** Queries of the local node *)

(** What the answer to a query tells of a chain. *)
Record info_of (query : ChainInfoQuery) (chain : ChainState) (info : ChainInfo) : Prop := {
  info_of_id : info_chain_id info = query_chain_id query;
  info_of_height : info_next_block_height info = next_block_height (ch_tip chain);
  info_of_hash : info_block_hash info = tip_block_hash (ch_tip chain);
  info_of_manager : info_manager info =
    if request_manager_values query
    then info_add_values (ch_manager chain) (manager_info (ch_manager chain))
    else manager_info (ch_manager chain);
  info_of_epoch : info_epoch info = sys_epoch (es_system (ch_execution chain));
  info_of_committees : requested_committees info =
    if request_committees query then Some (sys_committees (es_system (ch_execution chain))) else None;
}.

(** A query that asks for no vote changes nothing and tells what the store has. *)
Lemma query_spec query w :
  request_leader_timeout query = false ->
  wp (handle_chain_info_query clock query)
    (fun r w' => w' = w /\ info_of query (load_chain (query_chain_id query) (ws_storage w))
      (response_info r.1))
    (eq w) w.
Proof.
  intros Hvote.
  unfold handle_chain_info_query, vote_for_timeout. rewrite Hvote.
  apply wp_bind, wp_gets, wp_bind, wp_ret.
  apply wp_bind, wp_pure; [by destruct (test_next_block_height query)|intros [] _|done].
  apply wp_bind, wp_pure; [|intros certs _|done].
  { destruct (request_sent_certificates_in_range query); [|done].
    by do 2 (apply pure_bind; [done|intros ?]). }
  apply wp_bind, wp_pure; [|intros blob _|done].
  { destruct (request_blob query); [|done]. by do 2 (apply pure_bind; [done|intros ?]). }
  apply wp_bind, wp_gets, wp_bind, wp_pure; [apply create_network_actions_pure|intros acts _|done].
  by apply wp_ret.
Qed.

(** ** Operations of the node *)

Notation local := (task (LocalNode * network) LocalNodeError).

Definition node_ok (s : LocalNode * network) : Prop := worker_ok (node_state s.1).
Definition node_steps (s s' : LocalNode * network) : Prop :=
  steps depth (node_state s.1) (node_state s'.1).
#[export] Instance node_steps_preorder : PreOrder node_steps.
Proof. split; [intros s; apply rtc_refl|]. intros s1 s2 s3 H12 H23. unfold node_steps in *. by etrans.
Qed.
Lemma node_steps_ok s s' : node_ok s -> node_steps s s' -> node_ok s'.
Proof. intros Hok Hs. by eapply steps_ok. Qed.

(** Computations that change the worker by its steps only. *)
Definition node_moves {A} (P : A -> Prop) (m : local A) : Prop := moves node_ok node_steps P m.

Lemma node_bind {A A'} (P : A -> Prop) (Q : A' -> Prop) (m : local A) (k : A -> local A') :
  node_moves P m -> (forall a, P a -> node_moves Q (k a)) -> node_moves Q (m ≫= k).
Proof. apply (moves_bind node_ok node_steps node_steps_ok). Qed.
Lemma node_ret {A} (P : A -> Prop) (a : A) : P a -> node_moves P (mret a).
Proof. apply (moves_ret node_ok node_steps). Qed.
Lemma node_lift {A} (P : A -> Prop) (r : result LocalNodeError A) :
  (forall a, r = Ok a -> P a) -> node_moves P (t_lift r).
Proof. apply (moves_lift node_ok node_steps). Qed.
Lemma node_worker {A} (P : A -> Prop) (m : worker A) :
  (forall w, worker_ok w -> wp m (fun a w' => steps depth w w' /\ P a) (steps depth w) w) ->
  node_moves P (on_worker m).
Proof.
  intros Hm [node n] Hok. specialize (Hm _ Hok). unfold wp in Hm. cbn [fst] in Hm.
  unfold on_worker, node_steps.
  destruct (m (node_state node)) as [[a|e|] w]; simpl in *; [|by split..].
  split; [apply Hm|]. intros ? [= <-]. apply Hm.
Qed.
Lemma node_worker_quiet {A} (m : worker A) : is_quiet m -> node_moves (fun _ => True) (on_worker m).
Proof.
  intros Hq. apply node_worker. intros w _. apply wp_quiet; [done| |]; intros; [split; [|done]|];
    by apply quiet_steps.
Qed.
Lemma node_network {A} (P : A -> Prop) (m : remote A) :
  (forall n a n', m n = (Ok a, n') -> P a) ->
  node_moves (fun r => forall a, r = Ok a -> P a) (on_network m).
Proof.
  intros Hm [node n] Hok. unfold on_network. destruct (m n) as [[a|e|] n'] eqn:Hrun; simpl.
  all: split; [apply rtc_refl|]; intros r Hr; simplify_eq; intros; simplify_eq; by eapply Hm.
Qed.

(** The node after a query that asks for no vote, and the answer. *)
Lemma local_query_spec query s r s' :
  request_leader_timeout query = false -> local_chain_info_query clock query s = (r, s') ->
  s' = s /\ forall response, r = Ok response ->
    info_of query (load_chain (query_chain_id query) (ws_storage (node_state s.1))) (response_info
      response).
Proof.
  intros Hvote. destruct s as [node n]. unfold local_chain_info_query, on_worker, mbind, task_bind.
  pose proof (query_spec query (node_state node) Hvote) as Hq. unfold wp in Hq.
  destruct (handle_chain_info_query clock _ _) as [[[response actions]| |] w]; intros [= <- <-].
  - destruct Hq as [-> Hi]. split; [by destruct node|]. by intros ? [= <-].
  - subst w. by destruct node.
  - subst w. by destruct node.
Qed.
Lemma local_chain_info_spec id s info s' :
  local_chain_info clock id s = (Ok info, s') ->
  s' = s /\ info_of (query_new id) (load_chain id (ws_storage (node_state s.1))) info.
Proof.
  unfold local_chain_info, mbind, task_bind.
  destruct (local_chain_info_query clock (query_new id) s) as [[response| |] s1] eqn:Hq;
    intros [= <- <-].
  apply local_query_spec in Hq as [-> Hi]; [|done]. split; [done|]. by apply (Hi response).
Qed.

Lemma node_query query :
  request_leader_timeout query = false ->
  node_moves (fun r => forall cert, info_highest_validated (info_manager (response_info r)) =
    Some cert ->
    certificate_ok cert) (local_chain_info_query clock query).
Proof.
  intros Hvote. eapply (node_bind (fun r => forall cert,
    info_highest_validated (info_manager (response_info r.1)) = Some cert -> certificate_ok cert)).
  - apply node_worker. intros w Hok. eapply wp_mono; [by apply query_spec| |by intros w' <-;
      apply rtc_refl].
    intros [response actions] w' [-> Hi]. split; [apply rtc_refl|]. simpl in *.
    rewrite (info_of_manager _ _ _ Hi). pose proof (chain_vote _ _ _ (load_chain_ok w (query_chain_id
      query) Hok)) as Hk.
    intros cert Hc. apply (kept_ok _ Hk).
    destruct (ch_manager _) as [| |multi], (request_manager_values query); try done.
    simpl in Hc. by apply max_by_key_Some in Hc as [Hc _].
  - intros [response actions] Hr. by apply node_ret.
Qed.

Lemma node_chain_info id : node_moves (fun _ => True) (local_chain_info clock id).
Proof. eapply node_bind; [by apply node_query|]. intros; by apply node_ret. Qed.

Lemma node_proposal proposal :
  proposal_ok proposal -> node_moves (fun _ => True) (local_block_proposal clock depth proposal).
Proof.
  intros [Hb Hc]. eapply node_bind; [apply (node_worker (fun _ => True))|intros [] _;
    by apply node_ret].
  intros w Hok. eapply wp_mono; [apply handle_proposal_steps; [done..|]| |done].
  - intros id. apply (chain_vote _ _ _ (load_chain_ok w id Hok)).
  - by intros.
Qed.

Lemma node_full_certificate cert blobs :
  certificate_ok cert -> Forall value_ok blobs ->
  node_moves (fun _ => True) (local_certificate clock depth cert blobs).
Proof.
  intros Hc Hb. eapply node_bind; [apply (node_worker (fun _ => True))|intros [response [log|]] _].
  - intros w Hok. eapply wp_mono; [by apply fully_handle_steps| |done]. by intros.
  - eapply (node_bind (fun _ => True)); [|intros; by apply node_ret].
    intros [node n] Hok. split; [apply rtc_refl|done].
  - by apply node_lift.
Qed.

Lemma node_lite cert : node_moves (fun _ => True) (local_lite_certificate clock depth cert).
Proof.
  eapply node_bind; [apply (node_worker certificate_ok)|intros c Hc; by apply node_full_certificate].
  intros w Hok. eapply wp_mono; [apply full_certificate_ok, (worker_cache _ Hok)| |].
  - intros c w' [Hq Hv]. split; [by apply quiet_steps|done].
  - intros w' Hq. by apply quiet_steps.
Qed.

Lemma node_stage block : node_moves (fun _ => True) (local_stage_block_execution clock depth block).
Proof.
  apply node_worker_quiet. apply quiet_bind; [by apply quiet_pure|]. intros chain.
  apply quiet_bind; [apply current_time_quiet|]. intros now.
  apply quiet_bind; [apply quiet_pure, execute_pure|]. by intros [].
Qed.

(** *** Downloading *)

Lemma node_answer name query :
  node_moves (fun o => forall info, o = Some info -> info_values_ok info) (checked_answer name query).
Proof.
  eapply node_bind; [apply (node_network (fun r => info_values_ok (response_info r)))|].
  - intros n response n' Hrun. by eapply query_values.
  - intros r Hr. apply node_ret. intros info. destruct r as [response| |]; [|done..].
    destruct (is_ok _); [|done]. intros [= <-]. by apply Hr.
Qed.
Lemma node_shuffled names : node_moves (fun _ => True) (shuffled names).
Proof.
  intros [node n] Hok. unfold shuffled. destruct (shuffle names n). split; [apply rtc_refl|done].
Qed.

Notation value_if_any := (fun o => forall blob, o = Some blob -> value_ok blob).

Lemma node_blob_from name id location : node_moves value_if_any
    (try_download_blob_from name id location).
Proof.
  eapply node_bind; [apply node_answer|]. intros [info|] Hi; apply node_ret; [|done].
  intros blob Hb. by apply (blob_ok _ (Hi info eq_refl)).
Qed.
Lemma node_download_blob names id location : node_moves value_if_any (download_blob names id location).
Proof.
  eapply node_bind; [apply node_shuffled|]. clear names. intros names _.
  induction names as [|name names IH]; cbn [try_each_validator]; [by apply node_ret|].
  eapply node_bind; [apply node_blob_from|]. intros [blob|] Hb; [|done].
  apply node_ret. intros ? [= <-]. by apply Hb.
Qed.

Lemma node_process_with_blobs name chain_id cert :
  certificate_ok cert -> node_moves (fun _ => True) (process_with_blobs clock depth name chain_id cert).
Proof.
  intros Hc. unfold process_with_blobs.
  eapply node_bind; [by apply moves_attempt, node_full_certificate|]. intros r _.
  destruct r as [response|[| |[] | | |]|]; try (by apply node_ret).
  eapply node_bind; [apply (moves_map _ _ node_steps_ok value_if_any); intros; apply node_blob_from|].
  intros blobs Hb. destruct (mapM id blobs) as [values|] eqn:Hm; [|by apply node_ret].
  eapply node_bind; [apply moves_attempt, node_full_certificate; [done|]|intros; by apply node_ret].
  apply mapM_Some in Hm. clear -Hm Hb. induction Hm as [|o v os vs Ho _ IH]; [done|].
  apply Forall_cons in Hb as [Hb Hbs]. constructor; [by apply Hb|auto].
Qed.

Lemma node_process_certificates name id certs info :
  Forall certificate_ok certs ->
  node_moves (fun _ => True) (try_process_certificates clock depth name id certs info).
Proof.
  intros Hc. revert info. induction Hc as [|cert certs Hc _ IH]; intros info;
    cbn [try_process_certificates].
  { by apply node_ret. }
  destruct (_ || _); [by apply node_ret|]. eapply node_bind; [by apply node_process_with_blobs|].
  intros [[response| |]|] _; [apply IH|by apply node_ret..].
Qed.
Lemma node_download_from name id start stop :
  node_moves (fun _ => True) (try_download_certificates_from clock depth name id start stop).
Proof.
  eapply (node_bind (fun _ => True)); [by apply node_lift|]. intros limit _.
  eapply node_bind; [apply node_answer|]. intros [info|] Hi; [|by apply node_ret].
  eapply node_bind; [apply node_process_certificates, (sent_ok _ (Hi info eq_refl))|].
  intros; by apply node_ret.
Qed.
Lemma node_download names id target :
  node_moves (fun _ => True) (download_certificates clock depth names id target).
Proof.
  eapply node_bind; [apply node_shuffled|]. clear names. intros names _.
  induction names as [|name names IH]; cbn [download_from_each];
    (eapply node_bind; [apply node_chain_info|]); intros info _; destruct (_ <=? _).
  - by apply node_ret.
  - by apply node_lift.
  - by apply node_ret.
  - eapply node_bind; [apply node_download_from|]. by intros.
Qed.

Lemma node_recent hash : node_moves value_if_any (on_worker (recent_value hash)).
Proof.
  apply node_worker. intros w Hok. pose proof (recent_value_quiet hash w) as Hq.
  unfold wp, recent_value in *.
  destruct (cache_get_contents hash (ws_recent_values w)) as [Hget _].
  destruct (cache_get _ _) as [value cache]. simpl in *. split; [by apply quiet_steps|].
  intros blob ->. by apply (worker_cache _ Hok hash blob).
Qed.
Lemma node_read_or_download names id location :
  node_moves value_if_any (read_or_download_blob names id location).
Proof.
  eapply node_bind; [apply (moves_gets _ _ (fun st => store_ok st)); intros s Hs; destruct s;
    apply Hs|].
  intros st Hst. destruct (read_value _ st) as [blob|e|] eqn:Hread; [|destruct e|by apply node_lift];
    try (by apply node_lift).
  - apply node_ret. intros ? [= <-]. apply bind_Ok in Hread as (value & Hv%ok_or_Ok & [= <-]).
    by apply (store_values _ Hst) in Hv.
  - eapply node_bind; [apply node_download_blob|]. intros [blob|] Hb; [|by apply node_ret].
    eapply (node_bind (fun _ => True)); [|intros; by apply node_ret].
    intros [node n] Hok. split; [|done]. apply quiet_steps. split; try done. apply add_value_step.
    by apply Hb.
Qed.
Lemma node_read_blobs names locations : node_moves (Forall value_ok)
    (read_or_download_blobs names locations).
Proof.
  eapply (node_bind (fun p => Forall value_ok p.1)).
  { apply (moves_for_each _ _ node_steps_ok (fun p => Forall value_ok p.1)); [|done].
    intros [location id] [blobs tasks] _ Hb. eapply node_bind; [apply node_recent|].
    intros [blob|] Hv; apply node_ret; [|done]. apply Forall_app. split; [done|].
    apply Forall_singleton. by apply Hv. }
  intros [blobs tasks] Hb. destruct tasks as [|task tasks]; [by apply node_ret|].
  eapply node_bind.
  { apply (moves_map _ _ node_steps_ok (fun r : result LocalNodeError _ => forall o, r = Ok o ->
      value_if_any o)).
    intros [location id] _. apply moves_attempt, node_read_or_download. }
  intros results Hr. apply (moves_for_each _ _ node_steps_ok (Forall value_ok)); [|done].
  intros r acc Hin Hacc. rewrite Forall_forall in Hr. specialize (Hr r Hin).
  eapply (node_bind value_if_any); [by apply node_lift|]. intros [blob|] Hv; [|by apply node_ret].
  eapply node_bind; [apply node_worker_quiet, cache_recent_value_quiet; by apply Hv|].
  intros _ _. apply node_ret, Forall_app. split; [done|]. apply Forall_singleton. by apply Hv.
Qed.

(** *** Synchronizing *)

Lemma node_synchronize_manager id info :
  info_values_ok info -> node_moves (fun _ => True) (synchronize_manager clock depth id (info_manager
    info)).
Proof.
  intros [_ _ Hp Hl]. unfold synchronize_manager.
  destruct (info_manager info) as [| |manager]; try by apply node_ret.
  eapply (node_bind (fun _ => True)).
  - destruct (minfo_requested_proposed manager) eqn:Hm; [|by apply node_ret].
    destruct (_ =? id); [|by apply node_ret].
    eapply node_bind; [by eapply moves_attempt, node_proposal, Hp|]. intros; by apply node_ret.
  - intros _ _. destruct (minfo_requested_locked manager) eqn:Hm; [|by apply node_ret].
    destruct (_ && _); [|by apply node_ret].
    eapply node_bind; [by eapply moves_attempt, node_full_certificate; [by eapply Hl|]|].
    intros; by apply node_ret.
Qed.
Lemma node_synchronize_from name id :
  node_moves (fun _ => True) (try_synchronize_chain_state_from clock depth name id).
Proof.
  eapply node_bind; [apply node_chain_info|]. intros local _. eapply node_bind; [apply node_answer|].
  intros [info|] Hi; [|by apply node_ret]. specialize (Hi info eq_refl).
  eapply node_bind; [apply node_process_certificates, (sent_ok _ Hi)|].
  intros [p|] _; [by apply node_synchronize_manager|by apply node_ret].
Qed.
Lemma node_synchronize names id : node_moves (fun _ => True)
    (synchronize_chain_state clock depth names id).
Proof.
  eapply node_bind; [|intros; apply node_chain_info].
  apply (moves_map _ _ node_steps_ok (fun _ => True)). intros name _.
  eapply moves_mono; [apply moves_attempt, node_synchronize_from|done].
Qed.

(** *** Histories of a node *)

Inductive NodeOperation :=
| NodeProposal (proposal : BlockProposal)
| NodeCertificate (certificate : Certificate) (blobs : list HashedValue)
| NodeLiteCertificate (certificate : LiteCertificate)
| NodeQuery (query : ChainInfoQuery)
| NodeStage (block : Block)
| NodeDownload (validators : list ValidatorName) (id : ChainId) (target : BlockHeight)
| NodeBlobs (validators : list ValidatorName) (locations : list (BytecodeLocation * ChainId))
| NodeSynchronize (validators : list ValidatorName) (id : ChainId).

Definition operation_ok (operation : NodeOperation) : Prop :=
  match operation with
  | NodeProposal proposal => proposal_ok proposal
  | NodeCertificate certificate blobs => certificate_ok certificate /\ Forall value_ok blobs
  | _ => True
  end.

(** The node and the network after an operation, whether it succeeds or not. *)
Definition run_operation (operation : NodeOperation) (s : LocalNode * network) : LocalNode * network :=
  match operation with
  | NodeProposal proposal => (local_block_proposal clock depth proposal s).2
  | NodeCertificate certificate blobs => (local_certificate clock depth certificate blobs s).2
  | NodeLiteCertificate certificate => (local_lite_certificate clock depth certificate s).2
  | NodeQuery query => (local_chain_info_query clock query s).2
  | NodeStage block => (local_stage_block_execution clock depth block s).2
  | NodeDownload validators id target => (download_certificates clock depth validators id target s).2
  | NodeBlobs validators locations => (read_or_download_blobs validators locations s).2
  | NodeSynchronize validators id => (synchronize_chain_state clock depth validators id s).2
  end.

Lemma node_any_query query : node_moves (fun _ => True) (local_chain_info_query clock query).
Proof.
  eapply node_bind; [apply (node_worker (fun _ => True))|intros [] _; by apply node_ret].
  intros w Hok. eapply wp_mono; [apply handle_query_steps| |done]. by intros.
Qed.

Lemma run_operation_steps operation s :
  node_ok s -> operation_ok operation -> node_steps s (run_operation operation s).
Proof.
  intros Hs Hop. destruct operation; simpl in *.
  - by apply node_proposal.
  - destruct Hop. by apply node_full_certificate.
  - by apply node_lite.
  - by apply node_any_query.
  - by apply node_stage.
  - by apply node_download.
  - by apply node_read_blobs.
  - by apply node_synchronize.
Qed.

(** ** Chains only grow *)

Definition log_of (id : ChainId) (w : WorkerState) : list CryptoHash :=
  ch_confirmed_log (load_chain id (ws_storage w)).

Lemma chain_step_log w id s certs s' :
  chain_step depth w id s certs s' -> ch_confirmed_log s `prefix_of` ch_confirmed_log s'.
Proof.
  intros [proposal outcome now manager block _ _ _ _ _ _
         |cert eb now manager block _ _ _ _ _ _ _
         |cert epoch now manager _ _ _ _
         |epoch now manager _ _
         |cert eb now s1 s2 s3 outcome block _ _ _ _ _ _ Hs1 Hs2 _ Hs3 _
         |origin sent selected next anticipated s1 s2 s3 Hs1 Hs2 _ Hr _
         |recipient latest s1 Ha]; try done.
  - apply remove_events_same in Hs1. apply execute_block_mail in Hs2 as (_ & _ & _ & Hlog & _).
    apply bind_Ok in Hs3 as (next & _ & [= <-]). simpl. rewrite Hlog, Hs1. simpl. by eexists.
  - apply bind_Ok in Hs1 as (? & _ & [= <- _]). injection Hs2 as <- _.
    match type of Hr with receives _ _ _ _ ?s0 _ => change (ch_confirmed_log s) with (ch_confirmed_log
      s0) end.
    induction Hr as [|cert eb now certs' s4 s5 s6 _ Hb _ IH]; [done|].
    apply receive_block_inv in Hb as (_ & _ & _ & _ & _ & _ & _ & _ & _ & Hlog & _). by rewrite <- Hlog.
  - enough (ch_confirmed_log s1 = ch_confirmed_log s) as ->; [done|].
    refine (for_each_invariant (fun s2 => ch_confirmed_log s2 = ch_confirmed_log s) _ _ _ _ _ _ Ha);
      [|done].
    intros [medium height] s2 s3 _ <-. intros ([changed s4] & Hm & [= <-])%bind_Ok.
    by destruct (mark_mail _ _ _ _ _ 0 Hm) as (_ & _ & -> & _).
Qed.

Lemma steps_log w w' id : steps depth w w' -> log_of id w `prefix_of` log_of id w'.
Proof.
  induction 1 as [w|w w1 w2 Hs _ IH]; [done|]. etrans; [|exact IH]. clear IH.
  destruct Hs as [w1 Hq|id' certs s Hs]; unfold log_of.
  - by rewrite (quiet_chain w w1).
  - destruct (decide (id = id')) as [->|Hne].
    + simpl. rewrite load_saved. exact (chain_step_log _ _ _ _ _ Hs).
    + unfold load_chain. simpl. by rewrite lookup_insert_ne.
Qed.

(** C10: The operations of a local node are safe.  After any history of operations, whatever validators
    answer to its requests: the node satisfies the invariant of workers, and the log of every chain
    was only extended. *)
Theorem node_operations_safe operations s id :
  node_ok s -> Forall operation_ok operations ->
  let s' := foldl (fun s operation => run_operation operation s) s operations in
  node_ok s' /\ log_of id (node_state s.1) `prefix_of` log_of id (node_state s'.1).
Proof.
  intros Hok Hall. cbn zeta. revert s Hok. induction Hall as [|operation operations Hop _ IH];
    intros s Hok.
  { done. }
  pose proof (run_operation_steps _ _ Hok Hop) as Hs. cbn [foldl].
  destruct (IH (run_operation operation s)) as [Hok' Hp]; [by eapply node_steps_ok|].
  split; [done|]. etrans; [by apply steps_log|done].
Qed.

(** C20: A download that succeeds has reached its target.  If the download of the blocks of a chain
    succeeds, then the local node has all the blocks below the target, and the answer describes the
    chain as the node has it now. *)
Theorem download_reaches_target names id target s info s' :
  download_certificates clock depth names id target s = (Ok info, s') ->
  let chain := load_chain id (ws_storage (node_state s'.1)) in
  info_of (query_new id) chain info /\ target <= next_block_height (ch_tip chain).
Proof.
  unfold download_certificates, mbind at 1, task_bind. destruct s as [node n]. unfold shuffled.
  destruct (shuffle names n) as [names' n']. clear names. generalize (node, n'). clear node n n'.
  induction names' as [|name names IH]; intros s; cbn [download_from_each]; unfold mbind, task_bind;
    destruct (local_chain_info clock id s) as [[i| |] s1] eqn:Hi; try done;
    apply local_chain_info_spec in Hi as [-> Hi]; destruct (Z.leb_spec target (info_next_block_height
      i)); intros Hrun.
  1, 3: injection Hrun as <- <-; split; [done|]; by rewrite <- (info_of_height _ _ _ Hi).
  - done.
  - destruct (try_download_certificates_from _ _ _ _ _ _ s) as [[[]| |] s2]; try done. by apply (IH s2).
Qed.

End safety.
