(* ===== verification/Client.v ===== *)
(** * Clients of a chain

    The client that owns a chain ([linera-core/src/client.rs]): it prepares a block from the pending
    messages, has it signed by a quorum of validators, processes the certificate in its local node,
    and makes sure that enough validators have it.  It also downloads the certificates of the
    messages that its chain receives.

    The state is the client and the validators behind the network ([Updater]).  Updates that are sent
    to all validators at once are run one after the other in the order in which their answers arrive;
    those that are dropped after a quorum are part of what [arrivals] does to the network.  Of the
    streams of notifications ([listen]) the validators that are listened to are modelled, and not the
    tasks that forward their notifications.  The queries of applications, which only read, and the
    conversion of arguments to JSON are left out. *)

From stdpp Require Import strings.
From S2P Require Import Prelude Numbers Types Crypto Committees Policy Bcs Inbox Outbox Errors.
From S2P Require Import Certificates Managers Registry System Batches KeyValueStore Runtime.
From S2P Require Import Execution ChainState Storage Worker Quorum Updater Subscriptions LocalNode.

Inductive ChainClientError :=
| ClientLocalNodeError (e : LocalNodeError)
| ClientRemoteNodeError (e : NodeError)
| ClientArithmeticError (e : ArithmeticError)
| ClientChainError (e : ChainError)
| ClientCommunicationError (e : CommunicationError NodeError)
| ClientInternalError (message : string)
| CommitteeSynchronizationError
| WalletSynchronizationError
| BlockProposalError (message : string)
| CommitteeDeprecationError
| ProtocolError (message : string)
| CannotFindKeyForSingleOwnerChain (chain_id : ChainId)
| CannotFindKeyForMultiOwnerChain (chain_id : ChainId)
| FoundMultipleKeysForMultiOwnerChain (chain_id : ChainId)
| UnexpectedLeaderTimeout.

Inductive ReceiveCertificateMode :=
| NeedsCheck
| AlreadyChecked.

(** The first message of the operations that create something. *)
Definition OPEN_CHAIN_MESSAGE_INDEX : Z := 0.
Definition CREATE_APPLICATION_MESSAGE_INDEX : Z := 0.
Definition PUBLISH_BYTECODE_MESSAGE_INDEX : Z := 0.

Section client.
Context `{Crypto, Bcs, LeaderSampling, StorageEnv, ValueCache, InfoSigning, ErrorTexts, InfoChecking}.
Context {VN : ValidatorNodes} (clock : nat -> Timestamp) (depth : nat).

Record ChainClient := {
  cc_chain_id : ChainId;
  cc_block_hash : option CryptoHash;
  cc_timestamp : Timestamp;
  cc_next_block_height : BlockHeight;
  cc_pending_block : option Block;
  cc_known_key_pairs : gmap Owner KeyPair;
  cc_admin_id : ChainId;
  cc_max_pending_messages : nat;
  cc_received_certificate_trackers : gmap ValidatorName Z;
  cc_cross_chain_retries : nat;
  cc_node_client : LocalNode;
}.
Notation state := (ChainClient * network)%type.
Notation client := (task state ChainClientError).
(** Functions that return a [LocalNodeError]. *)
Notation client_local := (task state LocalNodeError).

Definition set_tip (block_hash : option CryptoHash) (timestamp : Timestamp) (height : BlockHeight)
    (c : ChainClient) : ChainClient :=
  {| cc_chain_id := cc_chain_id c; cc_block_hash := block_hash; cc_timestamp := timestamp;
     cc_next_block_height := height; cc_pending_block := cc_pending_block c;
     cc_known_key_pairs := cc_known_key_pairs c; cc_admin_id := cc_admin_id c;
     cc_max_pending_messages := cc_max_pending_messages c;
     cc_received_certificate_trackers := cc_received_certificate_trackers c;
     cc_cross_chain_retries := cc_cross_chain_retries c; cc_node_client := cc_node_client c |}.
Definition set_pending_block (pending : option Block) (c : ChainClient) : ChainClient :=
  {| cc_chain_id := cc_chain_id c; cc_block_hash := cc_block_hash c; cc_timestamp := cc_timestamp c;
     cc_next_block_height := cc_next_block_height c; cc_pending_block := pending;
     cc_known_key_pairs := cc_known_key_pairs c; cc_admin_id := cc_admin_id c;
     cc_max_pending_messages := cc_max_pending_messages c;
     cc_received_certificate_trackers := cc_received_certificate_trackers c;
     cc_cross_chain_retries := cc_cross_chain_retries c; cc_node_client := cc_node_client c |}.
Definition set_known_key_pairs (keys : gmap Owner KeyPair) (c : ChainClient) : ChainClient :=
  {| cc_chain_id := cc_chain_id c; cc_block_hash := cc_block_hash c; cc_timestamp := cc_timestamp c;
     cc_next_block_height := cc_next_block_height c; cc_pending_block := cc_pending_block c;
     cc_known_key_pairs := keys; cc_admin_id := cc_admin_id c;
     cc_max_pending_messages := cc_max_pending_messages c;
     cc_received_certificate_trackers := cc_received_certificate_trackers c;
     cc_cross_chain_retries := cc_cross_chain_retries c; cc_node_client := cc_node_client c |}.
Definition set_trackers (trackers : gmap ValidatorName Z) (c : ChainClient) : ChainClient :=
  {| cc_chain_id := cc_chain_id c; cc_block_hash := cc_block_hash c; cc_timestamp := cc_timestamp c;
     cc_next_block_height := cc_next_block_height c; cc_pending_block := cc_pending_block c;
     cc_known_key_pairs := cc_known_key_pairs c; cc_admin_id := cc_admin_id c;
     cc_max_pending_messages := cc_max_pending_messages c;
     cc_received_certificate_trackers := trackers;
     cc_cross_chain_retries := cc_cross_chain_retries c; cc_node_client := cc_node_client c |}.
Definition set_node_client (node : LocalNode) (c : ChainClient) : ChainClient :=
  {| cc_chain_id := cc_chain_id c; cc_block_hash := cc_block_hash c; cc_timestamp := cc_timestamp c;
     cc_next_block_height := cc_next_block_height c; cc_pending_block := cc_pending_block c;
     cc_known_key_pairs := cc_known_key_pairs c; cc_admin_id := cc_admin_id c;
     cc_max_pending_messages := cc_max_pending_messages c;
     cc_received_certificate_trackers := cc_received_certificate_trackers c;
     cc_cross_chain_retries := cc_cross_chain_retries c; cc_node_client := node |}.

(** [ChainClientBuilder::build]; the cache, the callers that wait for deliveries and the subscribers
    are those of the builder. *)
Definition client_build (max_pending_messages cross_chain_retries : nat) (recent_values : value_cache)
    (delivery_notifiers : DeliveryNotifiers) (notifier : NotifierState Notification)
    (chain_id : ChainId) (known_key_pairs : list KeyPair) (storage : DbStore) (admin_id : ChainId)
    (block_hash : option CryptoHash) (timestamp : Timestamp) (next_block_height : BlockHeight) :
    ChainClient :=
  {| cc_chain_id := chain_id;
     cc_known_key_pairs :=
       foldl (fun keys kp => <[owner_from (key_public kp) := kp]> keys) ∅ known_key_pairs;
     cc_admin_id := admin_id; cc_max_pending_messages := max_pending_messages;
     cc_received_certificate_trackers := ∅; cc_block_hash := block_hash; cc_timestamp := timestamp;
     cc_next_block_height := next_block_height; cc_pending_block := None;
     cc_cross_chain_retries := cross_chain_retries;
     cc_node_client :=
       {| node_state :=
            {| ws_key_pair := None; ws_storage := storage; ws_allow_inactive_chains := true;
               ws_allow_messages_from_deprecated_epochs := true; ws_grace_period_micros := 0;
               ws_recent_values := recent_values; ws_delivery_notifiers := delivery_notifiers;
               ws_notified := []; ws_clock := O |};
          node_notifier := notifier |} |}.

(** An operation of the local node. *)
Definition on_node {A} (m : task (LocalNode * network) LocalNodeError A) : client_local A :=
  fun '(c, n) =>
    let '(r, (node, n)) := m (cc_node_client c, n) in
    (r, (set_node_client node c, n)).
(** [?] on a [LocalNodeError]. *)
Definition locally {A} (m : client_local A) : client A := t_from ClientLocalNodeError m.
(** [?] on a [NodeError]. *)
Definition remotely {A} (r : result NodeError A) : client A := t_lift (map_err ClientRemoteNodeError r).
Definition gets {A} (f : ChainClient -> A) : client A := t_gets (fun '(c, _) => f c).
Definition modify (f : ChainClient -> ChainClient) : client unit := t_modify (fun '(c, n) => (f c, n)).
Definition ensure_client (cond : bool) (e : ChainClientError) : client unit := t_lift (ensure cond e).
Definition local_gets {A} (f : ChainClient -> A) : client_local A := t_gets (fun '(c, _) => f c).

(** ** Reading the local chain *)

Definition client_chain_info : client_local ChainInfo :=
  chain_id ← local_gets cc_chain_id;
  response ← on_node (local_chain_info_query clock (query_new chain_id));
  mret (response_info response).

(** The loop over the messages: [pending] is what is kept so far. *)
Fixpoint take_pending (chain_id : ChainId) (max_pending_messages : nat)
    (messages pending : list IncomingMessage) : client_local (list IncomingMessage) :=
  match messages with
  | [] => mret pending
  | message :: messages =>
      if (max_pending_messages <=? length pending)%nat then mret pending
      else
        registered ←
          match ev_message (in_event message) with
          | SystemMsg (MsgRegisterApplications applications) =>
              results ← t_map (fun application =>
                t_attempt (E' := LocalNodeError)
                  (on_node (local_describe_application chain_id (application_id_from application))))
                applications;
              mret (forallb is_ok results)
          | _ => mret false
          end;
        if (registered : bool) then take_pending chain_id max_pending_messages messages pending
        else take_pending chain_id max_pending_messages messages (pending ++ [message])
  end.

Definition client_pending_messages : client_local (list IncomingMessage) :=
  chain_id ← local_gets cc_chain_id;
  max_pending_messages ← local_gets cc_max_pending_messages;
  response ← on_node (local_chain_info_query clock (with_pending_messages (query_new chain_id)));
  take_pending chain_id max_pending_messages (requested_pending_messages (response_info response)) [].

Definition epoch_and_committees (chain_id : ChainId)
    : client_local (option Epoch * gmap Epoch Committee) :=
  response ← on_node (local_chain_info_query clock (with_committees (query_new chain_id)));
  let info := response_info response in
  committees ← t_lift (ok_or (requested_committees info) LocalInvalidChainInfoResponse);
  mret (info_epoch info, committees).

Definition committees : client_local (gmap Epoch Committee) :=
  chain_id ← local_gets cc_chain_id;
  '(_, committees) ← epoch_and_committees chain_id;
  mret committees.

Definition epochs : client_local (list Epoch) :=
  committees ← committees;
  mret (btree_iter committees).*1.

Definition local_committee : client_local Committee :=
  chain_id ← local_gets cc_chain_id;
  '(epoch, committees) ← epoch_and_committees chain_id;
  epoch ← t_lift (ok_or epoch (LocalInactiveChain chain_id));
  t_lift (ok_or (committees !! epoch) (LocalInactiveChain chain_id)).

Definition known_committees : client_local (gmap Epoch Committee * Epoch) :=
  chain_id ← local_gets cc_chain_id;
  admin_id ← local_gets cc_admin_id;
  '(epoch, committees) ← epoch_and_committees chain_id;
  '(admin_epoch, admin_committees) ← epoch_and_committees admin_id;
  mret (admin_committees ∪ committees, Z.max (default 0 epoch) (default 0 admin_epoch)).

Definition make_nodes (committee : Committee) : result NodeError (list ValidatorName) :=
  for_each (fun '(name, validator) names =>
    make_node (network_address validator) ;;
    Ok (names ++ [name])) (btree_iter (validators committee)) [].

Definition validator_nodes : client (list ValidatorName) :=
  committee ← t_attempt local_committee;
  match committee with
  | Ok committee => remotely (make_nodes committee)
  | Err (LocalInactiveChain _) => mret []
  | Err (LocalWorkerError (WorkerChainError (InactiveChain _))) => mret []
  | Err e => t_lift (Err (ClientLocalNodeError e))
  | Panic => t_lift Panic
  end.

Definition client_epoch : client_local Epoch :=
  info ← client_chain_info;
  chain_id ← local_gets cc_chain_id;
  t_lift (ok_or (info_epoch info) (LocalInactiveChain chain_id)).

Definition identity : client Owner :=
  info ← locally client_chain_info;
  keys ← gets cc_known_key_pairs;
  chain_id ← gets cc_chain_id;
  match info_manager info with
  | InfoSingle manager =>
      ensure_client (bool_decide (is_Some (keys !! sinfo_owner manager)))
        (CannotFindKeyForSingleOwnerChain chain_id) ;;
      mret (sinfo_owner manager)
  | InfoMulti manager =>
      let identities := filter (fun owner => is_Some (keys !! owner)) (btree_iter (minfo_public_keys
        manager)).*1 in
      match identities with
      | [] => t_lift (Err (CannotFindKeyForMultiOwnerChain chain_id))
      | [identity] => mret identity
      | _ => t_lift (Err (FoundMultipleKeysForMultiOwnerChain chain_id))
      end
  | InfoNone => t_lift (Err (ClientLocalNodeError (LocalInactiveChain chain_id)))
  end.

Definition key_pair : client KeyPair :=
  id ← identity;
  keys ← gets cc_known_key_pairs;
  t_lift (expect (keys !! id)).

Definition public_key : client PublicKey :=
  key_pair ← key_pair;
  mret (key_public key_pair).

(** ** Processing certificates *)

Definition update_from_info (info : ChainInfo) (c : ChainClient) : ChainClient :=
  if (info_chain_id info =? cc_chain_id c) && (cc_next_block_height c <? info_next_block_height info)
  then set_tip (info_block_hash info) (info_timestamp info) (info_next_block_height info) c
  else c.

Definition process_certificate (certificate : Certificate) (blobs : list HashedValue)
    : client_local unit :=
  response ← on_node (local_certificate clock depth certificate blobs);
  t_modify (fun '(c, n) => (update_from_info (response_info response) c, n)).

Definition prepare_chain : client ChainInfo :=
  nodes ← validator_nodes;
  c ← gets id;
  info ← locally (on_node (download_certificates clock depth nodes (cc_chain_id c)
    (cc_next_block_height c)));
  (if info_next_block_height info =? cc_next_block_height c
   then ensure_client (bool_decide (cc_block_hash c = info_block_hash info))
          (ClientInternalError "Invalid chain of blocks in local node")
   else mret ()) ;;
  info ←
    (if match info_manager info with
        | InfoSingle single => bool_decide (is_Some (cc_known_key_pairs c !! sinfo_owner single))
        | _ => false
        end
     then mret info
     else
       nodes ← validator_nodes;
       locally (on_node (synchronize_chain_state clock depth nodes (cc_chain_id c))));
  modify (update_from_info info) ;;
  mret info.

(** ** Votes of the validators *)

(** The answers of validators, in the order in which they arrive. *)
Fixpoint run_all {V} (execute : ValidatorName -> remote V) (names : list ValidatorName) (n : network)
    : list (ValidatorName * result NodeError V) * network :=
  match names with
  | [] => ([], n)
  | name :: names =>
      let '(r, n) := execute name n in
      let '(responses, n) := run_all execute names n in
      ((name, r) :: responses, n)
  end.

(** [communicate_with_quorum] at the validators of a committee. *)
Definition ask_quorum {V K} `{EqDecision K} (nodes : list ValidatorName) (committee : Committee)
    (group_by : V -> K) (execute : ValidatorName -> remote V)
    : client (result (CommunicationError NodeError) (K * list V)) := fun '(c, n) =>
  let names := filter (fun name => 0 < weight committee name) nodes in
  let '(order, grace, n) := arrivals names n in
  let '(responses, n) := run_all execute order n in
  (match communicate_with_quorum committee group_by grace responses with Panic => Panic | r => Ok r end,
   (c, n)).

(** The value and the round that the validators should vote for; [None] if no vote is asked for. *)
Definition expected_vote (chain_id : ChainId) (action : CommunicateAction)
    : client (option (HashedValue * RoundNumber)) :=
  match action with
  | SubmitBlockForConfirmation proposal =>
      '(executed_block, _) ←
        locally (on_node (local_stage_block_execution clock depth (bar_block (prop_content proposal))));
      mret (Some (hashed_from (ConfirmedBlock executed_block), bar_round (prop_content proposal)))
  | SubmitBlockForValidation proposal =>
      '(executed_block, _) ←
        locally (on_node (local_stage_block_execution clock depth (bar_block (prop_content proposal))));
      mret (Some (new_validated executed_block, bar_round (prop_content proposal)))
  | FinalizeBlock validity_certificate =>
      match into_confirmed (cert_value validity_certificate) with
      | Some conf_value => mret (Some (conf_value, cert_round validity_certificate))
      | None => t_lift (Err (ProtocolError "Unexpected certificate value for finalized block"))
      end
  | RequestLeaderTimeout height round epoch =>
      mret (Some (hashed_from (LeaderTimeout chain_id height epoch), round))
  | AdvanceToNextBlockHeight _ => mret None
  end.

Definition vote_key (value : option LiteVote) : option (CryptoHash * RoundNumber) :=
  (fun vote => (lv_value_hash (lvote_value vote), lvote_round vote)) <$> value.

Definition communicate_chain_updates (committee : Committee) (chain_id : ChainId)
    (action : CommunicateAction) : client (option Certificate) :=
  c ← gets id;
  nodes ← remotely (make_nodes committee);
  result ← ask_quorum nodes committee vote_key (fun name =>
    send_chain_update name (ws_storage (node_state (cc_node_client c))) (cc_cross_chain_retries c)
      chain_id action);
  expected ← expected_vote chain_id action;
  match expected with
  | None =>
      match result with
      | Ok _ => mret None
      | Err (Trusted (NodeInactiveChain id)) =>
          if id =? chain_id then mret None
          else t_lift (Err (ClientCommunicationError (Trusted (NodeInactiveChain id))))
      | Err error => t_lift (Err (ClientCommunicationError error))
      | Panic => t_lift Panic
      end
  | Some (value, round) =>
      '(key, votes) ← t_lift (map_err ClientCommunicationError result);
      match key with
      | Some (votes_hash, votes_round) =>
          if (votes_hash =? hv_hash value) && (votes_round =? round) then
            certificate ← t_lift (ok_or (try_from_votes (omap id votes))
              (ClientInternalError "Vote values or rounds don't match; this is a bug"));
            certificate ← t_lift (ok_or (lite_with_value certificate value)
              (ProtocolError "A quorum voted for an unexpected value"));
            mret (Some certificate)
          else t_lift (Err (ProtocolError "Unexpected response from validators"))
      | None => t_lift (Err (ProtocolError "Unexpected response from validators"))
      end
  end.

(** ** Receiving certificates *)

(** The blobs that some validator has, for a list of locations. *)
Definition download_blobs (nodes : list ValidatorName) (chain_id : ChainId)
    (locations : list BytecodeLocation) : client_local (list HashedValue) :=
  blobs ← t_map (fun location => on_node (download_blob nodes chain_id location)) locations;
  mret (omap id blobs).

Definition receive_certificate_internal (certificate : Certificate) (mode : ReceiveCertificateMode)
    : client unit :=
  match hv_value (cert_value certificate) with
  | ConfirmedBlock executed_block =>
      let block := eb_block executed_block in
      '(committees, max_epoch) ← locally known_committees;
      ensure_client (block_epoch block <=? max_epoch) CommitteeSynchronizationError ;;
      remote_committee ← t_lift (ok_or (committees !! block_epoch block) CommitteeDeprecationError);
      match mode with
      | NeedsCheck =>
          t_lift (map_err ClientChainError (certificate_check certificate remote_committee)) ;; mret ()
      | AlreadyChecked => mret ()
      end ;;
      nodes ← remotely (make_nodes remote_committee);
      locally (on_node
        (download_certificates clock depth nodes (block_chain_id block) (block_height block))) ;;
      result ← t_attempt (process_certificate certificate []);
      match result with
      | Ok _ =>
          local_committee ← locally local_committee;
          height ← t_lift (map_err ClientArithmeticError (try_add_one u64_MAX (block_height block)));
          communicate_chain_updates local_committee (block_chain_id block)
            (AdvanceToNextBlockHeight height) ;;
          mret ()
      | Err err =>
          match err with
          | LocalWorkerError (ApplicationBytecodesNotFound locations) =>
              blobs ← locally (download_blobs nodes (block_chain_id block) locations);
              if bool_decide (blobs = []) then mret ()
              else locally (process_certificate certificate blobs)
          | _ => mret ()
          end ;;
          t_lift (Err (ClientLocalNodeError err))
      | Panic => t_lift Panic
      end
  | _ => t_lift (Err (ClientInternalError "Was expecting a confirmed chain operation"))
  end.

Definition client_receive_certificate (certificate : Certificate) : client unit :=
  receive_certificate_internal certificate NeedsCheck.

(** The loop over the received log; [new_tracker] and [certificates] are what was found so far. *)
Fixpoint synchronize_log (committees : gmap Epoch Committee) (max_epoch : Epoch) (name : ValidatorName)
    (entries : list ChainAndHeight) (new_tracker : Z) (certificates : list Certificate)
    : remote (Z * list Certificate) :=
  match entries with
  | [] => mret (new_tracker, certificates)
  | entry :: entries =>
      let query := with_sent_certificates_in_range (single (cah_height entry))
        (query_new (cah_chain_id entry)) in
      response ← (node_chain_info_query name query : remote _);
      match last (requested_sent_certificates (response_info response)) with
      | None => mret (new_tracker, certificates)
      | Some certificate =>
          match hv_value (cert_value certificate) with
          | ConfirmedBlock executed_block =>
              let block := eb_block executed_block in
              if max_epoch <? block_epoch block then mret (new_tracker, certificates)
              else
                let new_tracker' := wrapping_add u64_MAX new_tracker 1 in
                match committees !! block_epoch block with
                | Some committee =>
                    r_lift (map_err node_error_from_chain (certificate_check certificate committee)) ;;
                    synchronize_log committees max_epoch name entries new_tracker'
                      (certificates ++ [certificate])
                | None => synchronize_log committees max_epoch name entries new_tracker' certificates
                end
          | _ => r_lift (Err InvalidChainInfoResponse)
          end
      end
  end.

Definition synchronize_received_certificates_from_validator (chain_id : ChainId) (tracker : Z)
    (committees : gmap Epoch Committee) (max_epoch : Epoch) (name : ValidatorName)
    : remote (ValidatorName * Z * list Certificate) :=
  let query := with_received_log_excluding_first_nth tracker (query_new chain_id) in
  response ← (node_chain_info_query name query : remote _);
  r_lift (response_check response name) ;;
  '(new_tracker, certificates) ← synchronize_log committees max_epoch name
    (requested_received_log (response_info response)) tracker [];
  mret (name, new_tracker, certificates).

(** The loop over the certificates: whether all of them were received. *)
Fixpoint receive_all (certificates : list Certificate) : client bool :=
  match certificates with
  | [] => mret true
  | certificate :: certificates =>
      result ← t_attempt (E' := ChainClientError)
        (receive_certificate_internal certificate AlreadyChecked);
      if is_ok result then receive_all certificates else mret false
  end.

Definition update_tracker (name : ValidatorName) (tracker : Z) (c : ChainClient) : ChainClient :=
  let trackers := cc_received_certificate_trackers c in
  set_trackers (<[name := match trackers !! name with
                          | Some t => if t <? tracker then tracker else t
                          | None => tracker
                          end]> trackers) c.

Definition receive_certificates_from_validator (name : ValidatorName) (tracker : Z)
    (certificates : list Certificate) : client unit :=
  received ← receive_all certificates;
  if (received : bool) then modify (update_tracker name tracker) else mret ().

Definition find_received_certificates : client unit :=
  chain_id ← gets cc_chain_id;
  local_committee ← locally local_committee;
  nodes ← remotely (make_nodes local_committee);
  admin_id ← gets cc_admin_id;
  locally (on_node (synchronize_chain_state clock depth nodes admin_id)) ;;
  '(committees, max_epoch) ← locally known_committees;
  trackers ← gets cc_received_certificate_trackers;
  result ← ask_quorum nodes local_committee (fun _ => ()) (fun name =>
    synchronize_received_certificates_from_validator chain_id (default 0 (trackers !! name))
      committees max_epoch name);
  match result with
  | Ok (_, responses) =>
      t_for_each (fun '(name, tracker, certificates) _ =>
        receive_certificates_from_validator name tracker certificates) responses ()
  | Err (Trusted (NodeInactiveChain id)) =>
      if id =? chain_id then mret ()
      else t_lift (Err (ClientCommunicationError (Trusted (NodeInactiveChain id))))
  | Err error => t_lift (Err (ClientCommunicationError error))
  | Panic => t_lift Panic
  end.

(** A request to a validator, with its error. *)
Definition ask {A} (m : remote A) : client A := fun '(c, n) =>
  let '(r, n) := m n in
  (map_err ClientRemoteNodeError r, (c, n)).

Definition find_received_certificates_from_validator (name : ValidatorName) : client unit :=
  '(committees, max_epoch) ← locally known_committees;
  chain_id ← gets cc_chain_id;
  trackers ← gets cc_received_certificate_trackers;
  '(name, tracker, certificates) ← ask (synchronize_received_certificates_from_validator chain_id
    (default 0 (trackers !! name)) committees max_epoch name);
  receive_certificates_from_validator name tracker certificates.

(** ** Proposing blocks *)

Definition request_leader_timeout_certificate : client Certificate :=
  chain_id ← gets cc_chain_id;
  response ← locally (on_node (local_chain_info_query clock (with_committees (query_new chain_id))));
  let info := response_info response in
  epoch ← t_lift (ok_or (info_epoch info) (ClientLocalNodeError (LocalInactiveChain chain_id)));
  committees ← t_lift (ok_or (requested_committees info)
    (ClientLocalNodeError LocalInvalidChainInfoResponse));
  committee ← t_lift (ok_or (committees !! epoch) (ClientLocalNodeError (LocalInactiveChain chain_id)));
  let height := info_next_block_height info in
  let round := info_current_round (info_manager info) in
  certificate ← communicate_chain_updates committee chain_id (RequestLeaderTimeout height round epoch);
  certificate ← t_lift (expect certificate);
  let expected := LeaderTimeout chain_id height epoch in
  ensure_client (bool_decide (hv_value (cert_value certificate) = expected) &&
                 (cert_round certificate =? round)) UnexpectedLeaderTimeout ;;
  locally (process_certificate certificate []) ;;
  communicate_chain_updates committee chain_id (AdvanceToNextBlockHeight height) ;;
  mret certificate.

(** The two round-trips of a chain with several owners, or the only one of a chain with one owner. *)
Definition certify_block (committee : Committee) (chain_id : ChainId) (manager : ChainManagerInfo)
    (proposal : BlockProposal) : client Certificate :=
  match manager with
  | InfoMulti _ =>
      certificate ← communicate_chain_updates committee chain_id (SubmitBlockForValidation proposal);
      certificate ← t_lift (expect certificate);
      t_lift (if match hv_value (cert_value certificate) with
                 | ValidatedBlock executed_block =>
                     bool_decide (eb_block executed_block = bar_block (prop_content proposal))
                 | _ => false
                 end then Ok () else Panic) ;;
      certificate ← communicate_chain_updates committee chain_id (FinalizeBlock certificate);
      t_lift (expect certificate)
  | InfoSingle _ =>
      certificate ← communicate_chain_updates committee chain_id (SubmitBlockForConfirmation proposal);
      t_lift (expect certificate)
  | InfoNone => t_lift Panic
  end.

(** The last part of [propose_block]: the block is final. *)
Definition finish_block (committee : Committee) (chain_id : ChainId) (final_certificate : Certificate)
    : client Certificate :=
  locally (process_certificate final_certificate []) ;;
  modify (set_pending_block None) ;;
  height ← gets cc_next_block_height;
  communicate_chain_updates committee chain_id (AdvanceToNextBlockHeight height) ;;
  new_committee ← t_attempt (E' := LocalNodeError) local_committee;
  match new_committee with
  | Ok new_committee =>
      if bool_decide (new_committee = committee) then mret ()
      else
        communicate_chain_updates new_committee chain_id (AdvanceToNextBlockHeight height) ;;
        mret ()
  | _ => mret ()
  end ;;
  mret final_certificate.

Definition propose_block (block : Block) : client Certificate :=
  c ← gets id;
  ensure_client
    (bool_decide (cc_pending_block c = None) || bool_decide (cc_pending_block c = Some block))
    (BlockProposalError "Client state has a different pending block") ;;
  ensure_client (block_height block =? cc_next_block_height c)
    (BlockProposalError "Unexpected block height") ;;
  ensure_client (bool_decide (block_previous_block_hash block = cc_block_hash c))
    (BlockProposalError "Unexpected previous block hash") ;;
  committee ← locally local_committee;
  nodes ← remotely (make_nodes committee);
  blobs ← locally (on_node (read_or_download_blobs nodes (block_bytecode_locations block)));
  response ← locally (on_node
    (local_chain_info_query clock (with_manager_values (query_new (cc_chain_id c)))));
  let manager := info_manager (response_info response) in
  next_round ← t_lift (ok_or (info_next_round manager)
    (BlockProposalError "Cannot propose a block; there is already a proposal in the current round"));
  key_pair ← key_pair;
  let validated := info_highest_validated manager in
  match validated with
  | Some validated =>
      ensure_client (bool_decide (value_block (hv_value (cert_value validated)) = Some block))
        (BlockProposalError "A different block has already been validated at this height")
  | None => mret ()
  end ;;
  let proposal := proposal_new {| bar_block := block; bar_round := next_round |} key_pair blobs
    validated in
  locally (on_node (local_block_proposal clock depth proposal)) ;;
  modify (set_pending_block (Some block)) ;;
  final_certificate ← certify_block committee (cc_chain_id c) manager proposal;
  ensure_client match hv_value (cert_value final_certificate) with
                | ConfirmedBlock executed_block => bool_decide (eb_block executed_block = block)
                | _ => false
                end
    (BlockProposalError "A different operation was executed in parallel (consider retrying the operation)") ;;
  finish_block committee (cc_chain_id c) final_certificate.

(** A reading of the clock of the storage. *)
Definition client_time : client Timestamp := fun '(c, n) =>
  let node := cc_node_client c in
  let w := node_state node in
  (Ok (clock (ws_clock w)), (set_node_client (set_node_state (set_clock (S (ws_clock w)) w) node) c,
    n)).

Definition next_timestamp (incoming_messages : list IncomingMessage) : client Timestamp :=
  now ← client_time;
  timestamp ← gets cc_timestamp;
  let timestamps := (fun msg => ev_timestamp (in_event msg)) <$> incoming_messages in
  let now := match max_by_key (fun t => t) timestamps with Some t => Z.max t now | None => now end in
  mret (Z.max now timestamp).

Definition client_execute_block (incoming_messages : list IncomingMessage) (operations : list Operation)
    : client Certificate :=
  timestamp ← next_timestamp incoming_messages;
  epoch ← locally client_epoch;
  c ← gets id;
  signer ← identity;
  propose_block
    {| block_epoch := epoch; block_chain_id := cc_chain_id c;
       block_incoming_messages := incoming_messages; block_operations := operations;
       block_previous_block_hash := cc_block_hash c; block_height := cc_next_block_height c;
       block_authenticated_signer := Some signer; block_timestamp := timestamp |}.

Definition execute_operations (operations : list Operation) : client Certificate :=
  prepare_chain ;;
  messages ← locally client_pending_messages;
  client_execute_block messages operations.

Definition client_execute_operation (operation : Operation) : client Certificate :=
  execute_operations [operation].

Definition local_balance : client Amount :=
  info ← locally client_chain_info;
  c ← gets id;
  ensure_client (info_next_block_height info =? cc_next_block_height c) WalletSynchronizationError ;;
  incoming_messages ← locally client_pending_messages;
  timestamp ← next_timestamp incoming_messages;
  epoch ← locally client_epoch;
  '(_, response) ← locally (on_node (local_stage_block_execution clock depth
    {| block_epoch := epoch; block_chain_id := cc_chain_id c;
       block_incoming_messages := incoming_messages; block_operations := [];
       block_previous_block_hash := cc_block_hash c; block_height := cc_next_block_height c;
       block_authenticated_signer := None; block_timestamp := timestamp |}));
  mret (info_system_balance (response_info response)).

Definition update_validators : client unit :=
  committee ← locally local_committee;
  c ← gets id;
  communicate_chain_updates committee (cc_chain_id c)
    (AdvanceToNextBlockHeight (cc_next_block_height c)) ;;
  mret ().

Definition synchronize_from_validators : client Amount :=
  find_received_certificates ;;
  prepare_chain ;;
  local_balance.

Definition retry_pending_block : client (option Certificate) :=
  find_received_certificates ;;
  prepare_chain ;;
  pending ← gets cc_pending_block;
  match pending with
  | Some block =>
      certificate ← propose_block block;
      mret (Some certificate)
  | None => mret None
  end.

Definition clear_pending_block : client unit := modify (set_pending_block None).

(** ** Operations of the owner *)

Definition transfer (owner : option Owner) (amount : Amount) (recipient : TransferRecipient)
    (user_data : UserData) : client Certificate :=
  client_execute_operation (SystemOp (OpTransfer owner recipient amount user_data)).
Definition client_claim (owner : Owner) (target : ChainId) (recipient : TransferRecipient)
    (amount : Amount)
    (user_data : UserData) : client Certificate :=
  client_execute_operation (SystemOp (OpClaim owner target recipient amount user_data)).
Definition transfer_to_account (owner : option Owner) (amount : Amount) (account : Account)
    (user_data : UserData) : client Certificate :=
  transfer owner amount (ToAccount account) user_data.
Definition burn (owner : option Owner) (amount : Amount) (user_data : UserData) : client Certificate :=
  transfer owner amount Burn user_data.
Definition transfer_to_account_unsafe_unconfirmed (owner : option Owner) (amount : Amount)
    (account : Account) (user_data : UserData) : client Certificate :=
  client_execute_operation (SystemOp (OpTransfer owner (ToAccount account) amount user_data)).
Definition request_application (application_id : UserApplicationId) (chain_id : option ChainId)
    : client Certificate :=
  let chain_id := default (mid_chain_id (app_creation application_id)) chain_id in
  client_execute_operation (SystemOp (OpRequestApplication chain_id application_id)).

Definition transfer_ownership (new_public_key : PublicKey) : client Certificate :=
  client_execute_operation (SystemOp (OpChangeOwner new_public_key)).
Definition rotate_key_pair (key_pair : KeyPair) : client Certificate :=
  let new_public_key := key_public key_pair in
  modify (fun c =>
    set_known_key_pairs (<[owner_from new_public_key := key_pair]> (cc_known_key_pairs c)) c) ;;
  transfer_ownership new_public_key.

Definition share_ownership (new_public_key : PublicKey) (new_weight : Z) : client Certificate :=
  info ← prepare_chain;
  messages ← locally client_pending_messages;
  chain_id ← gets cc_chain_id;
  '(new_public_keys, multi_leader_rounds) ← t_lift
    match info_manager info with
    | InfoNone => Err (ClientChainError (InactiveChain chain_id))
    | InfoSingle manager => Ok ([(sinfo_public_key manager, 100); (new_public_key, new_weight)], 2)
    | InfoMulti manager =>
        Ok ((btree_iter (minfo_public_keys manager)).*2 ++ [(new_public_key, new_weight)],
            minfo_multi_leader_rounds manager)
    end;
  client_execute_block messages
    [SystemOp (OpChangeMultipleOwners new_public_keys multi_leader_rounds)].

(** The message that a certificate of one operation starts with. *)
Definition first_message (certificate : Certificate) (index : Z) (error : ChainClientError)
    : result ChainClientError MessageId :=
  ok_or (executed_block ← value_executed_block (hv_value (cert_value certificate));
         message_id_for_operation executed_block 0 index) error.

Definition open_chain (ownership : ChainOwnership) : client (MessageId * Certificate) :=
  prepare_chain ;;
  c ← gets id;
  '(epoch, committees) ← locally (epoch_and_committees (cc_chain_id c));
  epoch ← t_lift (ok_or epoch (ClientLocalNodeError (LocalInactiveChain (cc_chain_id c))));
  messages ← locally client_pending_messages;
  certificate ← client_execute_block messages
    [SystemOp (OpOpenChain ownership (cc_admin_id c) epoch committees)];
  message_id ← t_lift (first_message certificate OPEN_CHAIN_MESSAGE_INDEX
    (ClientInternalError "Failed to create new chain"));
  mret (message_id, certificate).

Definition close_chain : client Certificate := client_execute_operation (SystemOp OpCloseChain).

Definition publish_bytecode (contract service : bytes) : client (BytecodeId * Certificate) :=
  certificate ← client_execute_operation (SystemOp (OpPublishBytecode contract service));
  message_id ← t_lift (first_message certificate PUBLISH_BYTECODE_MESSAGE_INDEX
    (ClientInternalError "Failed to publish bytecode"));
  mret ({| bytecode_message_id := message_id |}, certificate).

Definition create_application_untyped (bytecode_id : BytecodeId)
    (parameters initialization_argument : bytes)
    (required_application_ids : list UserApplicationId) : client (UserApplicationId * Certificate) :=
  certificate ← client_execute_operation (SystemOp
    (OpCreateApplication bytecode_id parameters initialization_argument required_application_ids));
  creation ← t_lift (first_message certificate CREATE_APPLICATION_MESSAGE_INDEX
    (ClientInternalError "Failed to create application"));
  mret ({| app_creation := creation; app_bytecode_id := bytecode_id |}, certificate).

Definition stage_new_committee (committee : Committee) : client Certificate :=
  prepare_chain ;;
  epoch ← locally client_epoch;
  messages ← locally client_pending_messages;
  epoch ← t_lift (map_err ClientArithmeticError (try_add_one u32_MAX epoch));
  client_execute_block messages [SystemOp (OpAdmin (CreateCommittee epoch committee))].

Definition finalize_committee : client Certificate :=
  prepare_chain ;;
  chain_id ← gets cc_chain_id;
  '(current_epoch, committees) ← locally (epoch_and_committees chain_id);
  current_epoch ← t_lift (ok_or current_epoch (ClientLocalNodeError (LocalInactiveChain chain_id)));
  let operations := omap (fun epoch =>
    if epoch =? current_epoch then None else Some (SystemOp (OpAdmin (RemoveCommittee epoch))))
    (btree_iter committees).*1 in
  messages ← locally client_pending_messages;
  client_execute_block messages operations.

Definition subscribe_to_new_committees : client Certificate :=
  admin_id ← gets cc_admin_id;
  client_execute_operation (SystemOp (OpSubscribe admin_id AdminChannel)).
Definition unsubscribe_from_new_committees : client Certificate :=
  admin_id ← gets cc_admin_id;
  client_execute_operation (SystemOp (OpUnsubscribe admin_id AdminChannel)).
Definition subscribe_to_published_bytecodes (chain_id : ChainId) : client Certificate :=
  client_execute_operation (SystemOp (OpSubscribe chain_id PublishedBytecodes)).
Definition unsubscribe_from_published_bytecodes (chain_id : ChainId) : client Certificate :=
  client_execute_operation (SystemOp (OpUnsubscribe chain_id PublishedBytecodes)).

(** The loop of [process_inbox], with a bound on the number of blocks; [None] is the bound.  It ends
    when no messages are pending, and messages may keep arriving. *)
Fixpoint process_inbox_loop (fuel : nat) (certificates : list Certificate)
    : client (option (list Certificate)) :=
  match fuel with
  | O => mret None
  | S fuel =>
      incoming_messages ← locally client_pending_messages;
      if bool_decide (incoming_messages = []) then mret (Some certificates)
      else
        certificate ← client_execute_block incoming_messages [];
        process_inbox_loop fuel (certificates ++ [certificate])
  end.
Definition process_inbox (fuel : nat) : client (option (list Certificate)) :=
  prepare_chain ;;
  process_inbox_loop fuel [].

Definition client_read_value (hash : CryptoHash) (c : ChainClient) : result ViewError HashedValue :=
  read_value hash (ws_storage (node_state (cc_node_client c))).
Definition client_read_values_downward (from : CryptoHash) (limit : nat) (c : ChainClient)
    : result ViewError (list HashedValue) :=
  read_values_downward (Some from) limit (ws_storage (node_state (cc_node_client c))).

(** ** Notifications *)

(** [local_chain_info] under the lock of the client: an error is logged. *)
Definition guarded_chain_info (chain_id : ChainId) : client (option ChainInfo) :=
  result ← t_attempt (E' := LocalNodeError) (on_node (local_chain_info clock chain_id));
  match result with
  | Ok info => modify (update_from_info info) ;; mret (Some info)
  | _ => mret None
  end.
Definition local_next_block_height (chain_id : ChainId) : client (option BlockHeight) :=
  info ← guarded_chain_info chain_id;
  mret (info_next_block_height <$> info).

(** The order of heights and rounds. *)
Definition at_least (info : ChainInfo) (height : BlockHeight) (round : RoundNumber) : bool :=
  (height <? info_next_block_height info) ||
  ((height =? info_next_block_height info) && (round <=? info_current_round (info_manager info))).

(** What follows the synchronization after a notification of a block. *)
Definition check_new_block (chain_id : ChainId) (height : BlockHeight) (hash : CryptoHash) : client
  bool :=
  next ← local_next_block_height chain_id;
  if option_leb next (Some height) then mret false
  else
    storage ← gets (fun c => ws_storage (node_state (cc_node_client c)));
    mret match read_certificate hash storage with
         | Ok certificate =>
             (value_chain_id (hv_value (cert_value certificate)) =? chain_id) &&
             (value_height (hv_value (cert_value certificate)) =? height)
         | _ => false
         end.

Definition process_notification (name : ValidatorName) (notification : Notification) : client bool :=
  match notification_reason notification with
  | NewIncomingMessage origin height =>
      next ← local_next_block_height (sender origin);
      if option_ltb (Some height) next then mret true
      else
        result ← t_attempt (E' := ChainClientError) (find_received_certificates_from_validator name);
        if is_ok result then
          next ← local_next_block_height (sender origin);
          mret (negb (option_leb next (Some height)))
        else mret false
  | NewBlock height hash =>
      let chain_id := notification_chain_id notification in
      next ← local_next_block_height chain_id;
      if option_ltb (Some height) next then mret true
      else
        result ← t_attempt (E' := LocalNodeError)
          (on_node (try_synchronize_chain_state_from clock depth name chain_id));
        if is_ok result then check_new_block chain_id height hash else mret false
  | NewRound height round =>
      let chain_id := notification_chain_id notification in
      info ← guarded_chain_info chain_id;
      if match info with Some info => at_least info height round | None => false end then mret true
      else
        result ← t_attempt (E' := LocalNodeError)
          (on_node (try_synchronize_chain_state_from clock depth name chain_id));
        if is_ok result then
          info ← guarded_chain_info chain_id;
          mret match info with Some info => at_least info height round | None => false end
        else mret false
  end.

(** [update_streams]: the validators whose notifications are listened to. *)
Definition update_streams (streams : gset ValidatorName) : client (gset ValidatorName) :=
  committee ← locally local_committee;
  nodes ← remotely (make_nodes committee);
  chain_id ← gets cc_chain_id;
  let streams := filter (fun name => name ∈ nodes) streams in
  t_for_each (fun name streams =>
    if decide (name ∈ streams) then mret streams
    else
      result ← t_attempt (E' := ChainClientError) (ask (node_subscribe name [chain_id]));
      mret (if is_ok result then {[name]} ∪ streams else streams)) nodes streams.

(** [listen]: the validators at the start, and one item of the stream.  [answer] is that of the
    stream which is ready first, [None] if that stream has ended; waiting for the first of no
    streams panics. *)
Definition refresh_streams (streams : gset ValidatorName) : client (gset ValidatorName) :=
  result ← t_attempt (E' := ChainClientError) (update_streams streams);
  mret match result with Ok streams => streams | _ => streams end.
Definition listen : client (gset ValidatorName) := refresh_streams ∅.
Definition listen_next (answer : option Notification) (streams : gset ValidatorName) :
    client (option (Notification * gset ValidatorName)) :=
  if decide (streams = ∅) then t_lift Panic
  else match answer with
  | None => mret None
  | Some notification =>
      streams ←
        match notification_reason notification with
        | NewBlock _ _ => refresh_streams streams
        | _ => mret streams
        end;
      mret (Some (notification, streams))
  end.

End client.
