(* ===== verification/ClientSafety.v ===== *)
(** * What clients can rely on

    Validators may answer anything; the network only delivers their answers.  The theorems on the
    client of a chain ([Client]):

    - a certificate that the client puts together from votes is valid for the committee and has the
      value that was asked for ([updates_are_certified]);
    - whatever happens, the local node only takes the steps of a worker, and the client never goes
      back to a lower height ([client_operations_safe]);
    - a block that was proposed with success is final: it is certified, the client is past it, and
      nothing is pending ([proposed_block_final]); and no other block is proposed while one is pending
      ([pending_block_guard]);
    - certificates that are received were checked with a committee that the client trusts
      ([received_certificates_checked]);
    - a notification that is accepted is true of the local node ([notification_verified]). *)

From S2P Require Import Prelude Numbers Types Crypto Committees Policy Bcs Inbox Outbox Errors.
From S2P Require Import Certificates Managers Consensus Registry System Batches KeyValueStore.
From S2P Require Import Runtime Execution ChainState Blocks Storage Worker WorkerSteps WorkerSafety.
From S2P Require Import Quorum Updater Subscriptions LocalNode LocalSafety Client.

Section safety.
Context {C : Crypto} {CL : CryptoLaws C} {B : Bcs} {LS : LeaderSampling} {SE : StorageEnv}.
Context {VC : ValueCache} {VCL : ValueCacheLaws VC} {IS : InfoSigning}.
Context {ET : ErrorTexts} {IC : InfoChecking} {VN : ValidatorNodes} {VNL : ValidatorNodesLaws VN}
  {DV : DecodedValues VN}.
Context (clock : nat -> Timestamp) (depth : nat).
Notation state := (ChainClient * network)%type.
Notation client := (task state ChainClientError).

Lemma task_bind_Ok {S E A A'} (m : task S E A) (k : A -> task S E A') s b s' :
  (m ≫= k) s = (Ok b, s') -> exists a s1, m s = (Ok a, s1) /\ k a s1 = (Ok b, s').
Proof.
  unfold mbind, task_bind. destruct (m s) as [[a|e|] s1]; intros Hk; [|done..]. by exists a, s1.
Qed.
Lemma t_lift_Ok {S E A} (r : result E A) (s : S) a s' : t_lift r s = (Ok a, s') -> r = Ok a /\ s' = s.
Proof. unfold t_lift. by intros [= -> ->]. Qed.

(** ** Certificates made of votes *)

Lemma run_all_names {V} (execute : ValidatorName -> remote V) names : forall n responses n',
  run_all execute names n = (responses, n') -> responses.*1 = names.
Proof.
  induction names as [|name names IH]; intros n responses n'; cbn [run_all]; [by intros [= <- _]|].
  destruct (execute name n) as [r n1]. destruct (run_all execute names n1) as [rs n2] eqn:Hr.
  intros [= <- _]. rewrite fmap_cons. f_equal. by eapply IH.
Qed.
(** What an answer is. *)
Lemma run_all_responses {V} (execute : ValidatorName -> remote V)
    (P : ValidatorName -> V -> Prop) names :
  (forall name n v n', execute name n = (Ok v, n') -> P name v) -> forall n responses n',
  run_all execute names n = (responses, n') -> Forall (fun r => forall v, r.2 = Ok v ->
    P r.1 v) responses.
Proof.
  intros HP. induction names as [|name names IH]; intros n responses n'; cbn [run_all];
    [by intros [= <- _]|].
  destruct (execute name n) as [r n1] eqn:He. destruct (run_all execute names n1) as [rs n2] eqn:Hr.
  intros [= <- _]. constructor; [|by eapply IH]. simpl. intros v ->. by eapply HP.
Qed.

Lemma make_nodes_names committee names :
  make_nodes committee = Ok names -> names = (btree_iter (validators committee)).*1.
Proof.
  unfold make_nodes. set (l := btree_iter _). clearbody l.
  enough (forall acc, for_each (fun '(name, validator) names =>
    make_node (network_address validator) ;; Ok (names ++ [name])) l acc = Ok names -> names =
      acc ++ l.*1)
    as Hall by apply Hall.
  induction l as [|[name validator] l IH]; intros acc; cbn [for_each]; [intros [= <-];
    by rewrite app_nil_r|].
  intros (acc' & ([] & _ & [= <-])%bind_Ok & Hr)%bind_Ok. apply IH in Hr as ->.
  by rewrite <- app_assoc.
Qed.
Lemma btree_iter_nodup {A} (m : gmap Z A) : NoDup (btree_iter m).*1.
Proof. rewrite btree_iter_perm. apply NoDup_fst_map_to_list. Qed.

(** A key that is returned has a quorum of answers. *)
Lemma ask_quorum_Ok {V K} `{EqDecision K} nodes committee (group_by : V -> K) execute
    (P : ValidatorName -> V -> Prop) (s s' : state) key values :
  committee_wf committee -> NoDup nodes ->
  (forall name n v n', execute name n = (Ok v, n') -> P name v) ->
  ask_quorum nodes committee group_by execute s = (Ok (Ok (key, values)), s') ->
  exists votes, values = votes.*2 /\ NoDup votes.*1 /\
    quorum_threshold committee <= weight_of committee votes.*1 /\
    Forall (fun vote => 0 < weight committee vote.1 /\ group_by vote.2 = key /\ P vote.1 vote.2) votes.
Proof.
  intros Hwf Hnd HP. destruct s as [c n]. unfold ask_quorum. set (names := filter _ nodes).
  destruct (arrivals names n) as [[order grace] n1] eqn:Harr.
  destruct (run_all execute order n1) as [responses n2] eqn:Hrun.
  destruct (communicate_with_quorum committee group_by grace responses) as [[k vs]| |] eqn:Hq;
    intros Heq; simplify_eq.
  pose proof (arrivals_ok names n) as [Hsub Hnd']. rewrite Harr in Hsub, Hnd'. simpl in *.
  pose proof (run_all_names _ _ _ _ _ Hrun) as Hnames.
  pose proof (run_all_responses _ P _ HP _ _ _ Hrun) as Hall.
  assert (NoDup responses.*1) as Hndr by (rewrite Hnames; by apply Hnd', NoDup_filter).
  apply quorum_Ok in Hq as (seen & [rest ->] & -> & Hw); [|done|done].
  exists (votes_for group_by key seen). split_and!; [done| |done|].
  - eapply sublist_NoDup; [|apply votes_for_names]. rewrite fmap_app in Hndr.
    by apply NoDup_app in Hndr as (? & _).
  - apply Forall_forall. intros [name value] Hin. unfold votes_for in Hin.
    apply list_elem_of_omap in Hin as ([name' r] & Hr & Hv). unfold vote_for in Hv. simpl in *.
    destruct r as [v| |]; [|done..]. case_decide as Hk; [|done]. injection Hv as -> ->.
    rewrite Forall_app, Forall_forall in Hall. destruct Hall as [Hall _].
    split_and!; [|done|by apply (Hall _ Hr)].
    assert (name ∈ names) as Hin.
    { apply Hsub. rewrite <- Hnames, fmap_app, elem_of_app. left. apply list_elem_of_fmap.
      by exists (name, Ok value). }
    by apply list_elem_of_filter in Hin as [? _].
Qed.

(** The value and the round that an action asks for. *)
Definition asked_for (chain_id : ChainId) (action : CommunicateAction) (value : HashedValue)
    (round : RoundNumber) : Prop :=
  match action with
  | SubmitBlockForConfirmation proposal =>
      round = bar_round (prop_content proposal) /\
      exists executed_block, value = hashed_from (ConfirmedBlock executed_block) /\
        eb_block executed_block = bar_block (prop_content proposal)
  | SubmitBlockForValidation proposal =>
      round = bar_round (prop_content proposal) /\
      exists executed_block, value = hashed_from (ValidatedBlock executed_block) /\
        eb_block executed_block = bar_block (prop_content proposal)
  | FinalizeBlock certificate =>
      round = cert_round certificate /\ into_confirmed (cert_value certificate) = Some value
  | RequestLeaderTimeout height round' epoch =>
      round = round' /\ value = hashed_from (LeaderTimeout chain_id height epoch)
  | AdvanceToNextBlockHeight _ => False
  end.

Lemma on_node_Ok {A} (m : task (LocalNode * network) LocalNodeError A) (s : state) r s' :
  on_node m s = (r, s') -> m (cc_node_client s.1, s.2) = (r, (cc_node_client s'.1, s'.2)).
Proof.
  destruct s as [c n]. unfold on_node. simpl. destruct (m _) as [r1 [node n1]]. by intros [= <- <-].
Qed.
Lemma locally_Ok {A} (m : task state LocalNodeError A) s a s' : locally m s = (Ok a, s') -> m s =
  (Ok a, s').
Proof.
  unfold locally, t_from. destruct (m s) as [r s1]. intros [= Hr ->]. by apply map_err_Ok in Hr as ->.
Qed.
Lemma stage_Ok block s executed_block response s' :
  local_stage_block_execution clock depth block s = (Ok (executed_block, response), s') ->
  eb_block executed_block = block.
Proof.
  destruct s as [node n]. unfold local_stage_block_execution, on_worker.
  destruct (stage_block_execution clock depth block (node_state node)) as [r w] eqn:Hrun.
  intros [= Hr _]. apply map_err_Ok in Hr as ->.
  enough (wp (stage_block_execution clock depth block) (fun p _ => eb_block p.1 = block) (fun _ => True)
    (node_state node)) as Hwp by (unfold wp in Hwp; by rewrite Hrun in Hwp).
  apply wp_bind, wp_load_active; [intros _|done]. apply wp_bind, wp_time. intros now w1 _ _.
  apply wp_bind, wp_pure; [apply execute_pure|intros [chain outcome] _|done]. by apply wp_ret.
Qed.

Lemma expected_vote_Ok chain_id action s value round s' :
  expected_vote clock depth chain_id action s = (Ok (Some (value, round)), s') ->
  asked_for chain_id action value round.
Proof.
  destruct action as [proposal|proposal|cert|height|height round' epoch]; cbn [expected_vote asked_for].
  1, 2: intros ([eb response] & s1 & Hs%locally_Ok & Hr)%task_bind_Ok; injection Hr as <- <- _;
    split; [done|]; exists eb; split; [done|]; by eapply stage_Ok, on_node_Ok.
  - destruct (into_confirmed (cert_value cert)); [|done]. by intros [= <- <- _].
  - done.
  - by intros [= <- <- _].
Qed.

(** Votes that agree, as a certificate. *)
Lemma votes_certificate committee votes key value lite cert :
  committee_wf committee -> NoDup votes.*1 ->
  quorum_threshold committee <= weight_of committee votes.*1 ->
  Forall (fun vote : ValidatorName * option LiteVote =>
    0 < weight committee vote.1 /\ vote_key vote.2 = Some key /\
    forall v, vote.2 = Some v -> lvote_validator v = vote.1 /\ lite_vote_check v = Ok ()) votes ->
  try_from_votes (omap id votes.*2) = Some lite -> lite_with_value lite value = Some cert ->
  hv_hash value = key.1 ->
  cert_value cert = value /\ cert_round cert = key.2 /\
  certificate_check cert committee = Ok (cert_value cert) /\
  is_strictly_ordered (cert_signatures cert) = true.
Proof.
  intros Hwf Hnd Hq Hall Hlite Hcert Hkey.
  assert (lvote_validator <$> omap id votes.*2 = votes.*1 /\
    Forall (fun v => lite_vote_check v = Ok () /\ 0 < weight committee (lvote_validator v) /\
      lvote_round v = key.2) (omap id votes.*2)) as [Hnames Hvotes].
  { clear -Hall. induction Hall as [|[name [v|]] votes (Hw & Hk & Hv) _ [IH1 IH2]]; csimpl;
      [done| |done].
    destruct (Hv v eq_refl) as [Hn Hc]. simpl in *. subst name. split; [by f_equal|].
    constructor; [|done].
    split_and!; try done. injection Hk as <-. done. }
  destruct (try_from_votes_valid (omap id votes.*2) committee lite Hwf) as [Hcheck Hsorted];
    [by rewrite Hnames| |by rewrite Hnames|done|].
  { eapply Forall_impl; [exact Hvotes|]. by intros v (? & ? & _). }
  assert (lcert_round lite = key.2) as Hround.
  { unfold try_from_votes in Hlite. destruct (omap id votes.*2) as [|v vs]; [done|].
    destruct (forallb _ vs); [|done]. injection Hlite as <-.
    by apply Forall_cons in Hvotes as [(_ & _ & ?) _]. }
  unfold lite_with_value in Hcert. destruct (Z.eqb_spec (lv_chain_id (lcert_value lite))
    (value_chain_id (hv_value value)))
    as [Hid|]; [|done]. destruct (Z.eqb_spec (lv_value_hash (lcert_value lite)) (hv_hash value)) as
      [Hh|]; [|done].
  injection Hcert as <-. simpl. split_and!; [done|done| |done].
  unfold certificate_check, lite_certificate_check, cert_lite_value in *. simpl.
  rewrite <- Hid, <- Hh. destruct lite as [[h i] r sigs]. simpl in *.
  by apply bind_Ok in Hcheck as ([] & -> & _).
Qed.

Lemma update_certificate committee chain_id action s cert s' :
  committee_wf committee ->
  communicate_chain_updates clock depth committee chain_id action s = (Ok (Some cert), s') ->
  certificate_check cert committee = Ok (cert_value cert) /\
  is_strictly_ordered (cert_signatures cert) = true /\
  asked_for chain_id action (cert_value cert) (cert_round cert).
Proof.
  intros Hwf (c & s1 & _ & Hrun)%task_bind_Ok.
  apply task_bind_Ok in Hrun as (nodes & s2 & [Hn _]%t_lift_Ok & Hrun).
  apply map_err_Ok, make_nodes_names in Hn as ->.
  apply task_bind_Ok in Hrun as (result & s3 & Hask & Hrun).
  apply task_bind_Ok in Hrun as ([[value round]|] & s4 & Hexp & Hrun).
  2: { destruct result as [|[[]|]|]; try done. by destruct (_ =? chain_id). }
  apply expected_vote_Ok in Hexp.
  apply task_bind_Ok in Hrun as ([key votes] & s5 & [Hr _]%t_lift_Ok & Hrun).
  apply map_err_Ok in Hr as ->. destruct key as [[hash round']|]; [|done].
  destruct (Z.eqb_spec hash (hv_hash value)) as [->|]; [|done].
  destruct (Z.eqb_spec round' round) as [->|]; [|done].
  apply task_bind_Ok in Hrun as (lite & s6 & [Hl%ok_or_Ok _]%t_lift_Ok & Hrun).
  apply task_bind_Ok in Hrun as (cert' & s7 & [Hc%ok_or_Ok _]%t_lift_Ok & Hrun).
  injection Hrun as -> _.
  eapply (ask_quorum_Ok _ _ _ _ (fun name r => forall v, r = Some v -> lvote_validator v = name /\
    lite_vote_check v = Ok ()))
    in Hask as (vs & -> & Hnd & Hq & Hall); [|done|apply btree_iter_nodup|].
  2: { intros name n r n' Hs v ->. apply update_returns_own_vote in Hs.
       destruct action; try done; by destruct Hs as (v' & [= <-] & Hv). }
  destruct (votes_certificate committee vs (hv_hash value, round) value lite cert)
    as (-> & -> & Hcheck & Hsorted); done.
Qed.

(** C9: Updates are certified.  If the client gets a certificate from an update, whatever the validators
    answered and whoever of them is faulty: the certificate is valid for the committee, and it has
    the value and the round that the client asked for. *)
Theorem updates_are_certified committee chain_id action s cert s' :
  committee_wf committee ->
  communicate_chain_updates clock depth committee chain_id action s = (Ok (Some cert), s') ->
  certificate_check cert committee = Ok (cert_value cert) /\
  is_strictly_ordered (cert_signatures cert) = true /\
  asked_for chain_id action (cert_value cert) (cert_round cert).
Proof. apply update_certificate. Qed.

(** ** What happens to the local node *)

Definition client_ok (s : state) : Prop := worker_ok (node_state (cc_node_client s.1)).
(** The local node takes steps of a worker, and the client does not go back. *)
Record client_steps (s s' : state) : Prop := {
  client_worker : steps depth (node_state (cc_node_client s.1)) (node_state (cc_node_client s'.1));
  client_height : cc_next_block_height s.1 <= cc_next_block_height s'.1;
  client_chain : cc_chain_id s'.1 = cc_chain_id s.1;
}.
#[export] Instance client_steps_preorder : PreOrder client_steps.
Proof.
  split; [intros s; split; [apply rtc_refl|lia|done]|]. intros s1 s2 s3 [] [].
  split; [by etrans|lia|congruence].
Qed.
Lemma client_steps_ok s s' : client_ok s -> client_steps s s' -> client_ok s'.
Proof. intros Hok Hs. eapply steps_ok, Hok. apply Hs. Qed.

Definition client_moves {E A} (P : A -> Prop) (m : task state E A) : Prop :=
  moves client_ok client_steps P m.

Lemma client_bind {E A A'} (P : A -> Prop) (Q : A' -> Prop) (m : task state E A)
    (k : A -> task state E A') :
  client_moves P m -> (forall a, P a -> client_moves Q (k a)) -> client_moves Q (m ≫= k).
Proof. apply (moves_bind client_ok client_steps client_steps_ok). Qed.
Lemma client_ret {E A} (P : A -> Prop) (a : A) : P a -> client_moves (E := E) P (mret a).
Proof. apply (moves_ret client_ok client_steps). Qed.
Lemma client_lift {E A} (P : A -> Prop) (r : result E A) :
  (forall a, r = Ok a -> P a) -> client_moves P (t_lift r).
Proof. apply (moves_lift client_ok client_steps). Qed.
Lemma client_gets {E A} (f : state -> A) : client_moves (E := E) (fun _ => True) (t_gets f).
Proof. by apply (moves_gets client_ok client_steps). Qed.
Lemma client_local {A} (P : A -> Prop) (m : task state LocalNodeError A) :
  client_moves P m -> client_moves P (locally m).
Proof. apply (moves_from client_ok client_steps). Qed.
Lemma client_attempt {E E' A} (m : task state E' A) :
  client_moves (fun _ => True) m -> client_moves (E := E) (fun _ => True) (t_attempt m).
Proof. intros Hm. eapply moves_mono; [by apply moves_attempt|done]. Qed.
Lemma client_node {A} (P : A -> Prop) (m : task (LocalNode * network) LocalNodeError A) :
  node_moves depth P m -> client_moves P (on_node m).
Proof.
  intros Hm [c n] Hok. destruct (Hm (cc_node_client c, n) Hok) as [Hs HP]. unfold on_node.
  destruct (m (cc_node_client c, n)) as [r [node n1]]. simpl in *. split; [|done].
  split; [exact Hs|simpl; lia|done].
Qed.
Lemma client_same c n n' : client_steps (c, n) (c, n').
Proof. split; [apply rtc_refl|simpl; lia|done]. Qed.
Lemma client_ask {A} (P : A -> Prop) (m : remote A) :
  (forall n a n', m n = (Ok a, n') -> P a) -> client_moves P (ask m).
Proof.
  intros Hm [c n] Hok. unfold ask. destruct (m n) as [r n1] eqn:Hrun. split; [apply client_same|].
  simpl. intros a Ha%map_err_Ok. subst r. by eapply Hm.
Qed.
Lemma client_modify {E} f :
  (forall c, cc_node_client (f c) = cc_node_client c /\
    cc_next_block_height c <= cc_next_block_height (f c) /\
    cc_chain_id (f c) = cc_chain_id c) ->
  client_moves (E := E) (fun _ => True) (t_modify (fun '(c, n) => (f c, n))).
Proof.
  intros Hf [c n] Hok. split; [|done]. destruct (Hf c) as (Hn & Hh & Hc).
  split; simpl; [rewrite Hn; apply rtc_refl|done|done].
Qed.
Lemma update_from_info_ok info c :
  cc_node_client (update_from_info info c) = cc_node_client c /\
  cc_next_block_height c <= cc_next_block_height (update_from_info info c) /\
  cc_chain_id (update_from_info info c) = cc_chain_id c.
Proof.
  unfold update_from_info. destruct (_ && _) eqn:Hc; [|by split_and!]. split_and!; [done| |done].
  apply andb_true_iff in Hc as [_ Hc%Z.ltb_lt]. simpl. lia.
Qed.
Lemma client_ask_quorum {V K} `{EqDecision K} nodes committee (group_by : V -> K) execute
    (P : V -> Prop) :
  (forall name n v n', execute name n = (Ok v, n') -> P v) ->
  client_moves (fun r => forall key values, r = Ok (key, values) -> Forall P values)
    (ask_quorum nodes committee group_by execute).
Proof.
  intros HP [c n] Hok. unfold ask_quorum. set (names := filter _ nodes).
  destruct (arrivals names n) as [[order grace] n1].
  destruct (run_all execute order n1) as [responses n2] eqn:Hrun. split; [apply client_same|].
  apply (run_all_responses _ (fun _ => P)) in Hrun; [|done]. simpl.
  destruct (communicate_with_quorum _ _ _ _) as [[k vs]| |] eqn:Hq; intros r Hr key values Hkey;
    simplify_eq.
  by eapply quorum_values_of in Hq.
Qed.

(** *** Operations *)

Notation harmless := (client_moves (fun _ => True)).

Lemma harmless_bind {E A A'} (m : task state E A) (k : A -> task state E A') :
  harmless m -> (forall a, harmless (k a)) -> harmless (m ≫= k).
Proof. intros Hm Hk. by eapply client_bind. Qed.
Lemma harmless_lift {E A} (r : result E A) : harmless (t_lift r).
Proof. by apply client_lift. Qed.
Lemma harmless_ret {E A} (a : A) : client_moves (E := E) (fun _ => True) (mret a).
Proof. by apply client_ret. Qed.
Lemma harmless_ensure cond e : harmless (ensure_client cond e).
Proof. apply harmless_lift. Qed.
Lemma harmless_remotely {A} (r : result NodeError A) : harmless (remotely r).
Proof. apply harmless_lift. Qed.
Lemma harmless_gets {A} (f : ChainClient -> A) : harmless (gets f).
Proof. apply client_gets. Qed.
Lemma harmless_local_gets {A} (f : ChainClient -> A) : harmless (local_gets f).
Proof. apply client_gets. Qed.
Lemma harmless_map {E A A'} (f : A -> task state E A') l : (forall a, harmless (f a)) ->
  harmless (t_map f l).
Proof.
  intros Hf. eapply moves_mono; [|done]. apply (moves_map _ _ client_steps_ok (fun _ => True)).
  intros a _. apply Hf.
Qed.
Lemma harmless_query query : harmless (on_node (local_chain_info_query clock query)).
Proof. apply client_node, node_any_query. Qed.
Lemma harmless_update info : harmless (modify (update_from_info info)).
Proof. apply (client_modify (update_from_info info)), update_from_info_ok. Qed.

(** Pass computations that are known to be harmless. *)
Ltac harmless_tac :=
  repeat first
    [ assumption
    | apply harmless_ret | apply harmless_lift | apply harmless_ensure | apply harmless_remotely
    | apply harmless_gets | apply harmless_local_gets | apply harmless_query | apply harmless_update
    | apply client_local | apply client_attempt | progress eauto with harmless
    | apply harmless_bind; [|intros ?] | case_match ].
Create HintDb harmless.

Lemma harmless_chain_info : harmless (client_chain_info clock).
Proof. unfold client_chain_info. harmless_tac. Qed.
Lemma harmless_pending : harmless (client_pending_messages clock).
Proof.
  unfold client_pending_messages. do 3 (apply harmless_bind; [harmless_tac|intros ?]).
  generalize (@nil IncomingMessage). induction (requested_pending_messages _) as [|m ms IH];
    intros pending;
    cbn [take_pending]; [apply harmless_ret|].
  destruct (_ <=? _)%nat; [apply harmless_ret|]. apply harmless_bind; [|intros []; apply IH].
  destruct (ev_message _) as [[]|]; try apply harmless_ret.
  apply harmless_bind; [|intros; apply harmless_ret]. apply harmless_map. intros application.
  apply client_attempt, client_node, node_worker_quiet, quiet_pure. apply pure_bind; [done|]. by intros.
Qed.
Lemma harmless_epoch_and_committees id : harmless (epoch_and_committees clock id).
Proof. unfold epoch_and_committees. harmless_tac. Qed.
#[local] Hint Resolve harmless_chain_info harmless_pending harmless_epoch_and_committees : harmless.
Lemma harmless_local_committee : harmless (local_committee clock).
Proof. unfold local_committee. harmless_tac. Qed.
Lemma harmless_known_committees : harmless (known_committees clock).
Proof. unfold known_committees. harmless_tac. Qed.
#[local] Hint Resolve harmless_local_committee harmless_known_committees : harmless.
Lemma harmless_validator_nodes : harmless (validator_nodes clock).
Proof. unfold validator_nodes. harmless_tac. Qed.
Lemma harmless_epoch : harmless (client_epoch clock).
Proof. unfold client_epoch. harmless_tac. Qed.
Lemma harmless_identity : harmless (identity clock).
Proof. unfold identity. harmless_tac. Qed.
#[local] Hint Resolve harmless_validator_nodes harmless_epoch harmless_identity : harmless.
Lemma harmless_key_pair : harmless (key_pair clock).
Proof. unfold key_pair. harmless_tac. Qed.
Lemma harmless_process cert blobs :
  certificate_ok cert -> Forall value_ok blobs -> harmless (process_certificate clock depth cert blobs).
Proof.
  intros Hc Hb. eapply client_bind; [by apply client_node, node_full_certificate|]. intros response _.
  apply (client_modify (update_from_info _)), update_from_info_ok.
Qed.
Lemma harmless_download names id target :
  harmless (on_node (download_certificates clock depth names id target)).
Proof. apply client_node, node_download. Qed.
Lemma harmless_synchronize names id : harmless (on_node (synchronize_chain_state clock depth names id)).
Proof. apply client_node, node_synchronize. Qed.
#[local] Hint Resolve harmless_key_pair harmless_process harmless_download harmless_synchronize :
  harmless.
Lemma harmless_prepare : harmless (prepare_chain clock depth).
Proof. unfold prepare_chain. harmless_tac. Qed.

#[local] Hint Resolve harmless_prepare : harmless.

Definition action_ok (action : CommunicateAction) : Prop :=
  match action with FinalizeBlock certificate => certificate_ok certificate | _ => True end.
Notation certificate_if_any := (fun o => forall cert, o = Some cert -> certificate_ok cert).

Lemma client_expected_vote chain_id action :
  action_ok action ->
  client_moves (fun o => forall value round, o = Some (value, round) -> value_ok value)
    (expected_vote clock depth chain_id action).
Proof.
  intros Ha. destruct action as [proposal|proposal|cert|height|height round epoch]; cbn [expected_vote].
  1, 2: (eapply client_bind; [apply client_local, client_node, node_stage|]; intros [eb response] _;
         apply client_ret; by intros value round [= <- <-]).
  - destruct (into_confirmed (cert_value cert)) as [v|] eqn:Hv; [|by apply client_lift].
    apply client_ret. intros value round [= <- <-]. by eapply into_confirmed_ok.
  - by apply client_ret.
  - apply client_ret. by intros value round' [= <- <-].
Qed.
Lemma client_updates committee chain_id action :
  action_ok action ->
  client_moves certificate_if_any (communicate_chain_updates clock depth committee chain_id action).
Proof.
  intros Ha. eapply client_bind; [apply harmless_gets|]. intros c _.
  eapply client_bind; [apply harmless_remotely|]. intros nodes _.
  eapply client_bind; [by apply (client_ask_quorum _ _ _ _ (fun _ => True))|]. intros result _.
  eapply client_bind; [by apply client_expected_vote|]. intros [[value round]|] Hv.
  - eapply (client_bind (fun _ => True)); [by apply client_lift|]. intros [key votes] _.
    destruct key as [[hash r]|]; [|by apply client_lift]. destruct (_ && _); [|by apply client_lift].
    eapply (client_bind (fun _ => True)); [by apply client_lift|]. intros lite _.
    eapply (client_bind certificate_ok); [apply client_lift|intros cert Hc; apply client_ret;
      by intros ? [= <-]].
    intros cert Hc%ok_or_Ok. unfold lite_with_value in Hc. destruct (_ || _); [done|].
    injection Hc as <-.
    by eapply Hv.
  - destruct result as [|[[]|]|]; try (by apply client_lift); try (by apply client_ret).
    destruct (_ =? chain_id); [by apply client_ret|by apply client_lift].
Qed.
Lemma harmless_advance committee chain_id height :
  harmless (communicate_chain_updates clock depth committee chain_id (AdvanceToNextBlockHeight height)).
Proof. eapply moves_mono; [by apply client_updates|done]. Qed.
#[local] Hint Resolve harmless_advance : harmless.

(** *** Receiving certificates *)

Lemma client_download_blobs nodes id locations :
  client_moves (Forall value_ok) (download_blobs nodes id locations).
Proof.
  eapply client_bind.
  { apply (moves_map _ _ client_steps_ok (fun o => forall blob, o = Some blob -> value_ok blob)).
    intros location _. apply client_node, node_download_blob. }
  intros blobs Hb. apply client_ret. induction Hb as [|[blob|] blobs Hb _ IH]; csimpl; [done| |done].
  constructor; [by apply Hb|done].
Qed.
Lemma harmless_receive cert mode :
  certificate_ok cert -> harmless (receive_certificate_internal clock depth cert mode).
Proof.
  intros Hc. unfold receive_certificate_internal.
  destruct (hv_value (cert_value cert)) as [|eb|]; try apply harmless_lift.
  apply harmless_bind; [harmless_tac|intros [committees max_epoch]].
  do 2 (apply harmless_bind; [harmless_tac|intros ?]).
  apply harmless_bind; [destruct mode; harmless_tac|intros _].
  apply harmless_bind; [harmless_tac|intros nodes]. apply harmless_bind; [harmless_tac|intros _].
  apply harmless_bind; [apply client_attempt; by apply harmless_process|].
  intros [[]|err|]; [harmless_tac| |apply harmless_lift].
  apply harmless_bind; [|intros; apply harmless_lift].
  destruct err as [| |[]| | |]; try apply harmless_ret.
  eapply client_bind; [apply client_local, client_download_blobs|]. intros blobs Hb.
  destruct (bool_decide _); [apply harmless_ret|]. apply client_local. by apply harmless_process.
Qed.

(** What is synchronized was decoded. *)
Lemma synchronize_log_ok committees max_epoch name entries : forall tracker certs n r n',
  Forall certificate_ok certs ->
  synchronize_log committees max_epoch name entries tracker certs n = (Ok r, n') ->
  Forall certificate_ok r.2.
Proof.
  induction entries as [|entry entries IH]; intros tracker certs n r n' Hcs; cbn [synchronize_log].
  { by intros [= <- _]. }
  intros (response & n1 & Hq & Hrun)%remote_bind_Ok. apply query_values, sent_ok in Hq.
  destruct (last _) as [cert|] eqn:Hl; [|by injection Hrun as <- _].
  assert (certificate_ok cert) as Hc.
  { rewrite Forall_forall in Hq. apply Hq. rewrite last_lookup in Hl. by eapply list_elem_of_lookup_2. }
  destruct (hv_value (cert_value cert)) as [|eb|]; [done| |done].
  destruct (max_epoch <? _); [by injection Hrun as <- _|].
  destruct (committees !! _) as [committee|]; [|by eapply (IH _ _ _ _ _ Hcs), Hrun].
  apply remote_bind_Ok in Hrun as (v & n2 & _ & Hrun). eapply IH, Hrun.
  apply Forall_app. split; [done|]. by apply Forall_singleton.
Qed.
Lemma synchronize_received_ok id tracker committees max_epoch name n r n' :
  synchronize_received_certificates_from_validator id tracker committees max_epoch name n = (Ok r,
    n') ->
  Forall certificate_ok r.2.
Proof.
  intros (response & n1 & _ & Hrun)%remote_bind_Ok. apply remote_bind_Ok in Hrun as (u & n2 & _ & Hrun).
  apply remote_bind_Ok in Hrun as ([new certs] & n3 & Hl & Hrun).
  apply synchronize_log_ok in Hl; [|done]. by injection Hrun as <- _.
Qed.

Lemma harmless_receive_from name tracker certs :
  Forall certificate_ok certs ->
  harmless (receive_certificates_from_validator clock depth name tracker certs).
Proof.
  intros Hcs. apply harmless_bind.
  - induction Hcs as [|cert certs Hc _ IH]; cbn [receive_all]; [apply harmless_ret|].
    apply harmless_bind; [apply client_attempt; by apply harmless_receive|].
    intros r. destruct (is_ok r); [done|apply harmless_ret].
  - intros []; [|apply harmless_ret]. apply (client_modify (update_tracker name tracker)).
    intros c. simpl. split_and!; [done|lia|done].
Qed.
Lemma harmless_find_received : harmless (find_received_certificates clock depth).
Proof.
  unfold find_received_certificates. do 5 (apply harmless_bind; [harmless_tac|intros ?]).
  apply harmless_bind; [harmless_tac|intros [committees max_epoch]].
  apply harmless_bind; [harmless_tac|intros trackers].
  eapply client_bind; [apply (client_ask_quorum _ _ _ _ (fun r => Forall certificate_ok r.2));
    intros; by eapply synchronize_received_ok|].
  intros result Hr. destruct result as [[[] responses]|[[]|]|]; try apply harmless_lift;
    [|harmless_tac].
  specialize (Hr () responses eq_refl).
  apply (moves_for_each _ _ client_steps_ok (fun _ => True)); [|done].
  intros [[name tracker] certs] u Hin _. rewrite Forall_forall in Hr.
  apply harmless_receive_from. by apply (Hr _ Hin).
Qed.
Lemma harmless_find_received_from name :
  harmless (find_received_certificates_from_validator clock depth name).
Proof.
  unfold find_received_certificates_from_validator.
  apply harmless_bind; [harmless_tac|intros [committees max_epoch]].
  do 2 (apply harmless_bind; [harmless_tac|intros ?]).
  eapply client_bind; [apply (client_ask (fun r => Forall certificate_ok r.2));
    intros; by eapply synchronize_received_ok|].
  intros [[name' tracker] certs] Hc. by apply harmless_receive_from.
Qed.

#[local] Hint Resolve harmless_find_received : harmless.

(** *** Proposing blocks *)

Lemma client_expect_update committee chain_id action :
  action_ok action ->
  client_moves certificate_ok
    (o ← communicate_chain_updates clock depth committee chain_id action; t_lift (expect o)).
Proof.
  intros Ha. eapply client_bind; [by apply client_updates|]. intros o Ho. apply client_lift.
  intros cert Hc%expect_Ok. by apply Ho.
Qed.
Lemma harmless_timeout : harmless (request_leader_timeout_certificate clock depth).
Proof.
  unfold request_leader_timeout_certificate. do 5 (apply harmless_bind; [harmless_tac|intros ?]).
  eapply client_bind; [by apply client_updates|]. intros o Ho.
  eapply (client_bind certificate_ok); [apply client_lift; intros cert Hc%expect_Ok; by apply Ho|].
  intros cert Hc. apply harmless_bind; [harmless_tac|intros _].
  apply harmless_bind; [apply client_local; by apply harmless_process|]. intros _. harmless_tac.
Qed.
Lemma client_certify committee chain_id manager proposal :
  client_moves certificate_ok (certify_block clock depth committee chain_id manager proposal).
Proof.
  destruct manager as [|single|multi]; cbn [certify_block].
  - by apply client_lift.
  - by apply client_expect_update.
  - eapply client_bind; [by apply client_updates|]. intros o Ho.
    eapply (client_bind certificate_ok); [apply client_lift; intros cert Hc%expect_Ok; by apply Ho|].
    intros cert Hc. eapply (client_bind (fun _ => True)); [by apply client_lift|]. intros _ _.
    by apply client_expect_update.
Qed.

Lemma harmless_pending_block pending : harmless (modify (set_pending_block pending)).
Proof. apply (client_modify (set_pending_block pending)). intros c. simpl.
split_and!; [done|lia|done]. Qed.

Lemma harmless_finish committee chain_id cert :
  certificate_ok cert -> harmless (finish_block clock depth committee chain_id cert).
Proof.
  intros Hc. apply harmless_bind; [apply client_local; by apply harmless_process|intros _].
  apply harmless_bind; [apply harmless_pending_block|intros _]. harmless_tac.
Qed.
Lemma harmless_propose block : harmless (propose_block clock depth block).
Proof.
  unfold propose_block. do 6 (apply harmless_bind; [harmless_tac|intros ?]).
  eapply client_bind; [apply client_local, client_node, node_read_blobs|]. intros blobs Hb.
  eapply client_bind; [by apply client_local, client_node, node_query|]. intros response Hr.
  do 2 (apply harmless_bind; [harmless_tac|intros ?]). apply harmless_bind; [harmless_tac|intros _].
  apply harmless_bind; [apply client_local, client_node, node_proposal; by split|intros _].
  apply harmless_bind; [apply harmless_pending_block|intros _].
  eapply client_bind; [apply client_certify|]. intros cert Hc.
  apply harmless_bind; [harmless_tac|intros _]. by apply harmless_finish.
Qed.
#[local] Hint Resolve harmless_propose : harmless.
Lemma harmless_timestamp messages : harmless (next_timestamp clock messages).
Proof.
  apply harmless_bind; [|intros now; harmless_tac]. intros [c n] Hok. split; [|done].
  split; simpl; [|lia|done]. apply quiet_steps. by split.
Qed.
#[local] Hint Resolve harmless_timestamp : harmless.
Lemma harmless_execute_block messages operations : harmless
    (client_execute_block clock depth messages operations).
Proof. unfold client_execute_block. harmless_tac. Qed.
#[local] Hint Resolve harmless_execute_block : harmless.
Lemma harmless_execute operations : harmless (execute_operations clock depth operations).
Proof. unfold execute_operations. harmless_tac. Qed.
Lemma harmless_balance : harmless (local_balance clock depth).
Proof.
  unfold local_balance. do 6 (apply harmless_bind; [harmless_tac|intros ?]).
  apply harmless_bind; [apply client_local, client_node, node_stage|]. intros [eb response].
  harmless_tac.
Qed.
#[local] Hint Resolve harmless_balance harmless_execute : harmless.
Lemma harmless_synchronize_all : harmless (synchronize_from_validators clock depth).
Proof. unfold synchronize_from_validators. harmless_tac. Qed.
Lemma harmless_retry : harmless (retry_pending_block clock depth).
Proof. unfold retry_pending_block. harmless_tac. Qed.
Lemma harmless_inbox fuel : harmless (process_inbox clock depth fuel).
Proof.
  apply harmless_bind; [apply harmless_prepare|intros _]. generalize (@nil Certificate).
  induction fuel as [|fuel IH]; intros certs; cbn [process_inbox_loop]; harmless_tac.
Qed.
Lemma harmless_rotate key : harmless (rotate_key_pair clock depth key).
Proof.
  apply harmless_bind; [|intros _; apply harmless_execute].
  match goal with |- harmless (modify ?f) => apply (client_modify f) end.
  intros c. simpl. split_and!; [done|lia|done].
Qed.
#[local] Hint Resolve harmless_rotate harmless_inbox harmless_retry harmless_synchronize_all : harmless.
Lemma harmless_share key weight : harmless (share_ownership clock depth key weight).
Proof. unfold share_ownership. harmless_tac. Qed.
Lemma harmless_open ownership : harmless (open_chain clock depth ownership).
Proof. unfold open_chain. harmless_tac. Qed.
Lemma harmless_stage committee : harmless (stage_new_committee clock depth committee).
Proof. unfold stage_new_committee. harmless_tac. Qed.
Lemma harmless_finalize : harmless (finalize_committee clock depth).
Proof. unfold finalize_committee. harmless_tac. Qed.
Lemma harmless_update_validators : harmless (update_validators clock depth).
Proof. unfold update_validators. harmless_tac. Qed.
Lemma harmless_streams streams : harmless (update_streams clock streams).
Proof.
  unfold update_streams. do 3 (apply harmless_bind; [harmless_tac|intros ?]).
  apply (moves_for_each _ _ client_steps_ok (fun _ => True)); [|done].
  intros name names _ _. case_decide; [apply harmless_ret|].
  apply harmless_bind; [by apply client_attempt, client_ask|]. intros r. apply harmless_ret.
Qed.
Lemma harmless_refresh streams : harmless (refresh_streams clock streams).
Proof.
  apply harmless_bind; [apply client_attempt, harmless_streams|]. intros r. apply harmless_ret.
Qed.

(** *** Notifications *)

Lemma harmless_guarded id : harmless (guarded_chain_info clock id).
Proof.
  unfold guarded_chain_info. apply harmless_bind; [apply client_attempt, client_node, node_chain_info|].
  intros [info| |]; harmless_tac.
Qed.
Lemma harmless_next_height id : harmless (local_next_block_height clock id).
Proof. apply harmless_bind; [apply harmless_guarded|]. intros. apply harmless_ret. Qed.
Lemma harmless_synchronize_from name id :
  harmless (on_node (try_synchronize_chain_state_from clock depth name id)).
Proof. apply client_node, node_synchronize_from. Qed.
#[local] Hint Resolve harmless_guarded harmless_next_height harmless_synchronize_from
  harmless_find_received_from
  : harmless.
Lemma harmless_notification name notification : harmless
    (process_notification clock depth name notification).
Proof. unfold process_notification, check_new_block. harmless_tac. Qed.

(** *** Histories of a client *)

Inductive ClientOperation :=
| ClientExecute (operations : list Operation)
| ClientInbox (fuel : nat)
| ClientRotateKey (key : KeyPair)
| ClientShareOwnership (key : PublicKey) (weight : Z)
| ClientOpenChain (ownership : ChainOwnership)
| ClientStageCommittee (committee : Committee)
| ClientFinalizeCommittee
| ClientUpdateValidators
| ClientRetry
| ClientClear
| ClientTimeout
| ClientSynchronize
| ClientReceive (certificate : Certificate)
| ClientNotification (name : ValidatorName) (notification : Notification)
| ClientListen (streams : gset ValidatorName).

Definition client_operation_ok (operation : ClientOperation) : Prop :=
  match operation with ClientReceive certificate => certificate_ok certificate | _ => True end.

(** The client and the network after an operation, whether it succeeds or not. *)
Definition run_client (operation : ClientOperation) (s : state) : state :=
  match operation with
  | ClientExecute operations => (execute_operations clock depth operations s).2
  | ClientInbox fuel => (process_inbox clock depth fuel s).2
  | ClientRotateKey key => (rotate_key_pair clock depth key s).2
  | ClientShareOwnership key weight => (share_ownership clock depth key weight s).2
  | ClientOpenChain ownership => (open_chain clock depth ownership s).2
  | ClientStageCommittee committee => (stage_new_committee clock depth committee s).2
  | ClientFinalizeCommittee => (finalize_committee clock depth s).2
  | ClientUpdateValidators => (update_validators clock depth s).2
  | ClientRetry => (retry_pending_block clock depth s).2
  | ClientClear => (clear_pending_block s).2
  | ClientTimeout => (request_leader_timeout_certificate clock depth s).2
  | ClientSynchronize => (synchronize_from_validators clock depth s).2
  | ClientReceive certificate => (client_receive_certificate clock depth certificate s).2
  | ClientNotification name notification => (process_notification clock depth name notification s).2
  | ClientListen streams => (refresh_streams clock streams s).2
  end.

Lemma run_client_steps operation s :
  client_ok s -> client_operation_ok operation -> client_steps s (run_client operation s).
Proof.
  intros Hok Hop. destruct operation; simpl in *.
  - by apply harmless_execute.
  - by apply harmless_inbox.
  - by apply harmless_rotate.
  - by apply harmless_share.
  - by apply harmless_open.
  - by apply harmless_stage.
  - by apply harmless_finalize.
  - by apply harmless_update_validators.
  - by apply harmless_retry.
  - by apply harmless_pending_block.
  - by apply harmless_timeout.
  - by apply harmless_synchronize_all.
  - by apply harmless_receive.
  - by apply harmless_notification.
  - by apply harmless_refresh.
Qed.

(** C5: Clients are safe.  After any history of a client, whatever the validators answer and whichever
    operations fail: its local node satisfies the invariant of workers and no chain in it was set
    back, and the height that the client keeps outside of the storage was never lowered. *)
Theorem client_operations_safe operations s id :
  client_ok s -> Forall client_operation_ok operations ->
  let s' := foldl (fun s operation => run_client operation s) s operations in
  client_ok s' /\ cc_next_block_height s.1 <= cc_next_block_height s'.1 /\
  log_of id (node_state (cc_node_client s.1)) `prefix_of` log_of id (node_state (cc_node_client s'.1)).
Proof.
  intros Hok Hall. cbn zeta.
  assert (client_steps s (foldl (fun s operation => run_client operation s) s operations)) as Hs.
  { revert s Hok. induction Hall as [|operation operations Hop _ IH]; intros s Hok; [reflexivity|].
    pose proof (run_client_steps _ _ Hok Hop). cbn [foldl]. etrans; [done|].
    by eapply IH, client_steps_ok. }
  split; [by eapply client_steps_ok|]. destruct Hs as [Hw Hh _]. split; [done|]. by eapply steps_log.
Qed.

(** ** Proposed blocks *)

(** Only the local node changes. *)
Definition same_client (s s' : state) : Prop := s'.1 = set_node_client (cc_node_client s'.1) s.1.
#[export] Instance same_client_preorder : PreOrder same_client.
Proof.
  unfold same_client. split; [intros [[] n]; done|]. intros [c1 n1] [c2 n2] [c3 n3] H12 H23. simpl in *.
  rewrite H23, H12. done.
Qed.
Definition keeps_client {E A} (m : task state E A) : Prop := forall s, same_client s (m s).2.

Lemma keeps_bind {E A A'} (m : task state E A) (k : A -> task state E A') :
  keeps_client m -> (forall a, keeps_client (k a)) -> keeps_client (m ≫= k).
Proof.
  intros Hm Hk s. specialize (Hm s). unfold mbind, task_bind.
  destruct (m s) as [[a| |] s1]; simpl in *; [|done..]. etrans; [done|apply Hk].
Qed.
Lemma keeps_lift {E A} (r : result E A) : keeps_client (t_lift r).
Proof. intros s. reflexivity. Qed.
Lemma keeps_ret {E A} (a : A) : keeps_client (E := E) (mret a).
Proof. intros s. reflexivity. Qed.
Lemma keeps_gets {E A} (f : state -> A) : keeps_client (E := E) (t_gets f).
Proof. intros s. reflexivity. Qed.
Lemma keeps_node {A} (m : task (LocalNode * network) LocalNodeError A) : keeps_client (on_node m).
Proof. intros [c n]. unfold on_node, same_client. by destruct (m _) as [r [node n1]]. Qed.
Lemma keeps_from {E E' A} (f : E' -> E) (m : task state E' A) : keeps_client m ->
  keeps_client (t_from f m).
Proof. intros Hm s. specialize (Hm s). unfold t_from. by destruct (m s). Qed.
Lemma keeps_attempt {E E' A} (m : task state E' A) : keeps_client m -> keeps_client
    (E := E) (t_attempt m).
Proof. intros Hm s. specialize (Hm s). unfold t_attempt. by destruct (m s) as [[] s1]. Qed.
Lemma keeps_quorum {V K} `{EqDecision K} nodes committee (group_by : V -> K) execute :
  keeps_client (ask_quorum nodes committee group_by execute).
Proof.
  intros [c n]. unfold ask_quorum, same_client. destruct (arrivals _ n) as [[order grace] n1].
  destruct (run_all execute order n1). by destruct c.
Qed.
Ltac keeps_tac :=
  repeat first
    [ assumption | apply keeps_ret | apply keeps_lift | apply keeps_gets | apply keeps_node
    | apply keeps_quorum | apply keeps_from | apply keeps_attempt | apply keeps_bind; [|intros ?]
    | case_match ].

Lemma keeps_committee : keeps_client (local_committee clock).
Proof. unfold local_committee, epoch_and_committees. keeps_tac. Qed.
Lemma keeps_key_pair : keeps_client (key_pair clock).
Proof. unfold key_pair, identity, client_chain_info. keeps_tac. Qed.
Lemma keeps_updates committee chain_id action :
  keeps_client (communicate_chain_updates clock depth committee chain_id action).
Proof. unfold communicate_chain_updates, expected_vote. keeps_tac. Qed.
Lemma keeps_certify committee chain_id manager proposal :
  keeps_client (certify_block clock depth committee chain_id manager proposal).
Proof.
  destruct manager; cbn [certify_block]; [apply keeps_lift|..];
    repeat first [apply keeps_updates|apply keeps_lift|apply keeps_bind; [|intros ?]].
Qed.

(** After a confirmed block was processed, the chain is past it. *)
Lemma confirmed_response cert eb blobs w :
  hv_value (cert_value cert) = ConfirmedBlock eb ->
  wp (process_confirmed_block clock depth cert blobs None)
    (fun r _ => info_chain_id (response_info r.1) = block_chain_id (eb_block eb) /\
       block_height (eb_block eb) < info_next_block_height (response_info r.1)) (fun _ => True) w.
Proof.
  intros Hv. assert (forall A (m : worker A) w, wp m (fun _ _ => True) (fun _ => True) w) as Hany.
  { intros A m w0. unfold wp. by destruct (m w0) as [[] ?]. }
  unfold process_confirmed_block. rewrite Hv.
  apply wp_bind, wp_load_active; [intros _|done]. set (s0 := load_chain _ _).
  apply wp_bind, wp_ensure; [intros Hle%Z.leb_le|done].
  destruct (Z.ltb_spec (block_height (eb_block eb)) (next_block_height (ch_tip s0))) as [Hlt|Hge].
  { apply wp_bind, wp_gets, wp_bind. eapply wp_mono; [apply Hany| |done]. intros actions w1 _.
    apply wp_bind. eapply wp_mono; [apply Hany| |done]. intros u w2 _. by apply wp_ret. }
  do 5 (apply wp_bind; eapply wp_mono; [apply Hany| |done]; intros ? ? _).
  apply wp_bind, wp_chain; [intros s1 Hs1|done]. apply remove_events_same in Hs1.
  apply wp_bind. eapply wp_mono; [apply Hany| |done]. intros now w1 _.
  apply wp_bind, wp_pure; [apply execute_pure|intros [s2 outcome] Hs2|done].
  injection Hs2 as Hs2. apply map_err_Ok, execute_block_mail in Hs2 as (_ & Ht & _).
  rewrite Hs1 in Ht. simpl in Ht.
  do 3 (apply wp_bind, wp_ensure; [intros _|done]). apply wp_bind, wp_lift; [intros s3 Hs3|done].
  apply advance_tip_height in Hs3. rewrite Ht in Hs3. apply wp_bind, wp_gets.
  do 4 (apply wp_bind; eapply wp_mono; [apply Hany| |done]; intros ? ? _).
  apply wp_ret. simpl. split; [done|]. rewrite Hs3. lia.
Qed.

Lemma process_past_block cert eb blobs s u s' :
  hv_value (cert_value cert) = ConfirmedBlock eb -> block_chain_id (eb_block eb) = cc_chain_id s.1 ->
  process_certificate clock depth cert blobs s = (Ok u, s') ->
  block_height (eb_block eb) < cc_next_block_height s'.1.
Proof.
  intros Hv Hid (response & s1 & Hnode & Hmod)%task_bind_Ok. injection Hmod as <- <-.
  pose proof (keeps_node (local_certificate clock depth cert blobs) s) as Hsame.
  rewrite Hnode in Hsame. apply on_node_Ok in Hnode.
  assert (info_chain_id (response_info response) = block_chain_id (eb_block eb) /\
    block_height (eb_block eb) < info_next_block_height (response_info response)) as [Hi Hh].
  { unfold local_certificate in Hnode. apply task_bind_Ok in Hnode as ([r log] & s2 & Hw & Hrun).
    assert (r = response) as ->.
    { destruct log; [|done]. by apply task_bind_Ok in Hrun as (? & ? & _ & [= <- _]). }
    unfold on_worker in Hw. destruct (fully_handle_certificate_with_notifications _ _ _ _ _) as [res
      w] eqn:Hf.
    injection Hw as Hres _. apply map_err_Ok in Hres as ->.
    unfold fully_handle_certificate_with_notifications, handle_certificate in Hf. rewrite Hv in Hf.
    pose proof (confirmed_response cert eb blobs (node_state (cc_node_client s.1)) Hv) as Hwp.
    unfold wp, mbind, worker_bind, w_lift in *. simpl in Hf.
    destruct (process_confirmed_block _ _ _ _ _ _) as [[[r actions]| |] w1]; [|done..].
    destruct (handle_requests _ _ _ _ w1) as [[lg| |] w2]; [|done..]. by injection Hf as <- _. }
  destruct s1 as [c1 n1]. unfold same_client in Hsame. simpl in *. unfold update_from_info.
  assert (cc_chain_id c1 = cc_chain_id s.1) as Hc by (by rewrite Hsame).
  rewrite Hi, Hid, Hc, Z.eqb_refl. simpl.
  destruct (Z.ltb_spec (cc_next_block_height c1) (info_next_block_height (response_info response)));
    simpl; lia.
Qed.

Lemma keeps_run {E A} (m : task state E A) s r s' : keeps_client m -> m s = (r, s') -> same_client s s'.
Proof. intros Hm Hrun. specialize (Hm s). by rewrite Hrun in Hm. Qed.
Lemma same_fields s s' :
  same_client s s' ->
  cc_chain_id s'.1 = cc_chain_id s.1 /\ cc_pending_block s'.1 = cc_pending_block s.1 /\
  cc_next_block_height s'.1 = cc_next_block_height s.1.
Proof. unfold same_client. by intros ->. Qed.

Lemma certify_valid committee chain_id manager proposal s cert s' :
  committee_wf committee ->
  certify_block clock depth committee chain_id manager proposal s = (Ok cert, s') ->
  certificate_check cert committee = Ok (cert_value cert).
Proof.
  intros Hwf. destruct manager as [|single|multi]; cbn [certify_block]; [done|..].
  - intros (o & s1 & Hu & [Ho _]%t_lift_Ok)%task_bind_Ok. apply expect_Ok in Ho as ->.
    by apply update_certificate in Hu as (? & _).
  - do 3 (intros (? & ? & _ & Hrun)%task_bind_Ok; revert Hrun).
    intros (o & s1 & Hu & [Ho _]%t_lift_Ok)%task_bind_Ok. apply expect_Ok in Ho as ->.
    by apply update_certificate in Hu as (? & _).
Qed.

Lemma finish_past_block committee chain_id cert eb s cert' s' :
  hv_value (cert_value cert) = ConfirmedBlock eb -> block_chain_id (eb_block eb) = cc_chain_id s.1 ->
  finish_block clock depth committee chain_id cert s = (Ok cert', s') ->
  cert' = cert /\ cc_pending_block s'.1 = None /\ block_height (eb_block eb) < cc_next_block_height
    s'.1.
Proof.
  intros Hv Hid (v & s1 & Hproc%locally_Ok & Hrun)%task_bind_Ok.
  apply (process_past_block _ eb) in Hproc; [|done..].
  apply task_bind_Ok in Hrun as (w & s2 & Hmod & Hrun). injection Hmod as <- <-.
  split; [do 4 (apply task_bind_Ok in Hrun as (? & ? & _ & Hrun)); by injection Hrun as <- _|].
  apply keeps_run, same_fields in Hrun as (_ & Hp & Hh).
  - rewrite Hp, Hh. by destruct s1 as [c n].
  - repeat first [apply keeps_updates|apply keeps_committee|apply keeps_ret|apply keeps_gets
                 |apply keeps_attempt|apply keeps_bind; [|intros ?]|case_match].
Qed.

(** C4: A proposed block is final.  If the proposal of a block succeeds, then the result is a certificate
    that confirms this block, valid for the committee of the chain; the client is past the block, and
    nothing is pending any more. *)
Theorem proposed_block_final block s cert s' :
  block_chain_id block = cc_chain_id s.1 -> propose_block clock depth block s = (Ok cert, s') ->
  (exists executed_block, hv_value (cert_value cert) = ConfirmedBlock executed_block /\
     eb_block executed_block = block) /\
  (exists committee s1, local_committee clock s = (Ok committee, s1) /\
     (committee_wf committee -> certificate_check cert committee = Ok (cert_value cert))) /\
  cc_pending_block s'.1 = None /\ block_height block < cc_next_block_height s'.1.
Proof.
  intros Hid (c & s0 & Hget & Hrun)%task_bind_Ok. injection Hget as <- <-.
  do 3 (apply task_bind_Ok in Hrun as (? & ? & [_ ->]%t_lift_Ok & Hrun)).
  apply task_bind_Ok in Hrun as (committee & s1 & Hc%locally_Ok & Hrun).
  apply task_bind_Ok in Hrun as (nodes & ? & [_ ->]%t_lift_Ok & Hrun).
  apply task_bind_Ok in Hrun as (blobs & s2 & Hb%locally_Ok & Hrun).
  apply task_bind_Ok in Hrun as (response & s3 & Hq%locally_Ok & Hrun).
  apply task_bind_Ok in Hrun as (round & ? & [_ ->]%t_lift_Ok & Hrun).
  apply task_bind_Ok in Hrun as (key & s4 & Hk & Hrun).
  apply task_bind_Ok in Hrun as (? & s5 & Hval & Hrun).
  apply task_bind_Ok in Hrun as (? & s6 & Hprop%locally_Ok & Hrun).
  apply task_bind_Ok in Hrun as (? & s7 & Hpend & Hrun). injection Hpend as <- <-.
  apply task_bind_Ok in Hrun as (cert' & s8 & Hcert & Hrun).
  apply task_bind_Ok in Hrun as (? & ? & [Hens%ensure_Ok ->]%t_lift_Ok & Hrun).
  assert (cc_chain_id s8.1 = cc_chain_id s.1) as Hid8.
  { transitivity (cc_chain_id s6.1).
    - apply keeps_run, same_fields in Hcert as [-> _]; [|apply keeps_certify]. by destruct s6.
    - apply keeps_run in Hc; [|apply keeps_committee]. apply keeps_run in Hb; [|apply keeps_node].
      apply keeps_run in Hq; [|apply keeps_node]. apply keeps_run in Hk; [|apply keeps_key_pair].
      apply keeps_run in Hval; [|keeps_tac]. apply keeps_run in Hprop; [|apply keeps_node].
      assert (same_client s s6) as Hs by (do 5 (etrans; [eassumption|]); done).
      by apply same_fields in Hs as [-> _]. }
  destruct (hv_value (cert_value cert')) as [|eb|] eqn:Hv; [done| |done].
  apply bool_decide_eq_true in Hens.
  apply (finish_past_block _ _ _ eb) in Hrun as (-> & Hpend & Hh); [|done|congruence].
  split; [by exists eb|]. split.
  - exists committee, s1. split; [done|]. intros Hwf. by eapply certify_valid.
  - by rewrite <- Hens.
Qed.

(** Runs that may fail: either the first part fails, or the second part runs. *)
Lemma task_bind_run {S E A A'} (m : task S E A) (k : A -> task S E A') s r s' (P : S -> Prop) :
  (m ≫= k) s = (r, s') -> P (m s).2 ->
  (forall a s1, m s = (Ok a, s1) -> P s1 -> k a s1 = (r, s') -> P s') -> P s'.
Proof.
  unfold mbind, task_bind. destruct (m s) as [[a|e|] s1]; simpl; intros Hrun Hp Hk.
  - by eapply Hk.
  - by injection Hrun as _ <-.
  - by injection Hrun as _ <-.
Qed.
(** Pass a computation that leaves the client alone. *)
Lemma keeps_bind_run {E A A'} s0 (m : task state E A) (k : A -> task state E A') s r s'
    (P : state -> Prop) :
  (m ≫= k) s = (r, s') -> keeps_client m -> same_client s0 s -> (forall s1, same_client s0 s1 ->
    P s1) ->
  (forall a s1, m s = (Ok a, s1) -> same_client s0 s1 -> k a s1 = (r, s') -> P s') -> P s'.
Proof.
  intros Hrun Hm H0 HP Hk. assert (same_client s0 (m s).2) as Hs by (etrans; [done|apply Hm]).
  refine (task_bind_run m k s r s' P Hrun (HP _ Hs) _). intros a s1 Ha _. apply (Hk a s1 Ha).
  by rewrite Ha in Hs.
Qed.

Lemma process_pending cert blobs s :
  cc_pending_block (process_certificate clock depth cert blobs s).2.1 = cc_pending_block s.1.
Proof.
  pose proof (same_fields _ _ (keeps_node (local_certificate clock depth cert blobs) s)) as (_ & Hp &
    _).
  unfold process_certificate, mbind, task_bind.
  destruct (on_node (local_certificate clock depth cert blobs) s) as [[resp| |] [c n]]; simpl in *;
    [|done..].
  unfold update_from_info. by destruct (_ && _).
Qed.
Lemma locally_snd {A} (m : task state LocalNodeError A) s : (locally m s).2 = (m s).2.
Proof. unfold locally, t_from. by destruct (m s). Qed.

Lemma finish_pending committee chain_id cert eb s r s' :
  hv_value (cert_value cert) = ConfirmedBlock eb -> block_chain_id (eb_block eb) = cc_chain_id s.1 ->
  finish_block clock depth committee chain_id cert s = (r, s') ->
  cc_pending_block s'.1 = cc_pending_block s.1 \/
  cc_pending_block s'.1 = None /\ block_height (eb_block eb) < cc_next_block_height s'.1.
Proof.
  intros Hv Hid Hrun. eapply (task_bind_run _ _ _ _ _ (fun s' => _ \/ _) Hrun).
  { left. rewrite locally_snd. apply process_pending. }
  clear Hrun. intros u s1 Hp _ Hrun. apply locally_Ok in Hp.
  apply (process_past_block _ eb) in Hp; [|done..].
  right. unfold mbind at 1, task_bind in Hrun. destruct s1 as [c1 n1]. simpl in Hrun, Hp.
  apply keeps_run, same_fields in Hrun as (_ & -> & ->); [done|].
  repeat first [apply keeps_updates|apply keeps_committee|apply keeps_ret|apply keeps_gets
               |apply keeps_attempt|apply keeps_bind; [|intros ?]|case_match].
Qed.

(** The pending block after a proposal. *)
Definition pending_after (block : Block) (s s' : state) : Prop :=
  cc_pending_block s'.1 = cc_pending_block s.1 \/ cc_pending_block s'.1 = Some block \/
  cc_pending_block s'.1 = None /\ block_height block < cc_next_block_height s'.1.


(** ** Received certificates *)

(** A confirmed block, certified by a committee that the client knows. *)
Definition trusted (committees : gmap Epoch Committee) (max_epoch : Epoch) (cert : Certificate) : Prop
  :=
  exists executed_block committee,
    hv_value (cert_value cert) = ConfirmedBlock executed_block /\
    block_epoch (eb_block executed_block) <= max_epoch /\
    committees !! block_epoch (eb_block executed_block) = Some committee /\
    certificate_check cert committee = Ok (cert_value cert).

Lemma check_Ok cert committee v : certificate_check cert committee = Ok v -> v = cert_value cert.
Proof. by intros ([] & _ & [= <-])%bind_Ok. Qed.

Lemma synchronize_log_trusted committees max_epoch name entries : forall tracker certs n new certs' n',
  Forall (trusted committees max_epoch) certs -> in_range u64_MAX tracker ->
  synchronize_log committees max_epoch name entries tracker certs n = (Ok (new, certs'), n') ->
  Forall (trusted committees max_epoch) certs' /\
  exists k, (k <= length entries)%nat /\ (length certs' <= length certs + k)%nat /\
    new = (tracker + Z.of_nat k) mod (u64_MAX + 1).
Proof.
  induction entries as [|entry entries IH]; intros tracker certs n new certs' n' Hcs Ht;
    cbn [synchronize_log].
  all: assert ((tracker + Z.of_nat 0) mod (u64_MAX + 1) = tracker) as H0
    by (rewrite Z.add_0_r; apply Z.mod_small; unfold in_range in Ht; lia).
  { intros [= <- <- _]. split; [done|]. exists 0%nat. split_and!; [simpl; lia..|done]. }
  intros (response & n1 & _ & Hrun)%remote_bind_Ok.
  assert (forall c', (mret (tracker, certs) : remote _) n1 = (Ok (new, c'), n') ->
    Forall (trusted committees max_epoch) c' /\
    exists k, (k <= length (entry :: entries))%nat /\ (length c' <= length certs + k)%nat /\
      new = (tracker + Z.of_nat k) mod (u64_MAX + 1)) as Hstop.
  { intros c' [= <- <- _]. split; [done|]. exists 0%nat. split_and!; [simpl; lia..|done]. }
  destruct (last _) as [cert|]; [|by apply Hstop].
  destruct (hv_value (cert_value cert)) as [|eb|] eqn:Hv; [done| |done].
  destruct (Z.ltb_spec max_epoch (block_epoch (eb_block eb))) as [|He]; [by apply Hstop|].
  assert (in_range u64_MAX (wrapping_add u64_MAX tracker 1)) as Ht'.
  { unfold in_range, wrapping_add. pose proof (Z.mod_pos_bound (tracker + 1) (u64_MAX + 1)).
    unfold u64_MAX in *. lia. }
  assert (forall k, (wrapping_add u64_MAX tracker 1 + Z.of_nat k) mod (u64_MAX + 1) =
    (tracker + Z.of_nat (S k)) mod (u64_MAX + 1)) as Hadd.
  { intros k. unfold wrapping_add. rewrite Zplus_mod_idemp_l. f_equal. lia. }
  destruct (committees !! _) as [committee|] eqn:Hc.
  - apply remote_bind_Ok in Hrun as (v & n2 & Hcheck & Hrun). injection Hcheck as Hcheck _.
    apply map_err_Ok in Hcheck. pose proof (check_Ok _ _ _ Hcheck) as ->.
    apply IH in Hrun as (Hall & k & Hk & Hl & ->); [|apply Forall_app; split; [done|]|done].
    + split; [done|]. exists (S k). rewrite length_app in Hl. simpl in *.
      split_and!; [lia..|apply Hadd].
    + apply Forall_singleton. by exists eb, committee.
  - apply IH in Hrun as (Hall & k & Hk & Hl & ->); [|done..].
    split; [done|]. exists (S k). simpl in *. split_and!; [lia..|apply Hadd].
Qed.


(** ** Notifications *)

Lemma guarded_spec id s o s' :
  guarded_chain_info clock id s = (Ok o, s') -> forall info, o = Some info ->
  info_of (query_new id) (load_chain id (ws_storage (node_state (cc_node_client s'.1)))) info.
Proof.
  intros (r & s1 & Hatt & Hrun)%task_bind_Ok info ->. unfold t_attempt in Hatt.
  destruct (on_node (local_chain_info clock id) s) as [r1 s2] eqn:Hn. apply on_node_Ok in Hn.
  destruct r1 as [i| |]; [|by injection Hatt as <- <-|done]. injection Hatt as <- <-.
  apply local_chain_info_spec in Hn as [Heq Hi]. injection Heq as Hnode _. simpl in Hi.
  rewrite <- Hnode in Hi. destruct s2 as [c n]. unfold mbind, task_bind in Hrun. simpl in *.
  injection Hrun as <- <-. simpl. by destruct (update_from_info_ok i c) as (-> & _).
Qed.
Lemma next_height_spec id s o s' :
  local_next_block_height clock id s = (Ok o, s') -> forall next, o = Some next ->
  next = next_block_height (ch_tip (load_chain id (ws_storage (node_state (cc_node_client s'.1))))).
Proof.
  intros (info & s1 & Hg & Hrun)%task_bind_Ok next ->. injection Hrun as Hr <-.
  destruct info as [info|]; [|done]. injection Hr as <-.
  apply (info_of_height _ _ _ (guarded_spec _ _ _ _ Hg info eq_refl)).
Qed.

(** What a notification says of a node. *)
Definition notification_true (notification : Notification) (w : WorkerState) : Prop :=
  let chain id := load_chain id (ws_storage w) in
  let next id := next_block_height (ch_tip (chain id)) in
  match notification_reason notification with
  | NewBlock height hash => height < next (notification_chain_id notification)
  | NewIncomingMessage origin height => height < next (sender origin)
  | NewRound height round =>
      let id := notification_chain_id notification in
      height < next id \/
      height = next id /\ round <= info_current_round (manager_info (ch_manager (chain id)))
  end.

Lemma option_lt_next height o : option_ltb (Some height) o = true -> exists next, o = Some next /\
  height < next.
Proof. destruct o as [next|]; [|done]. simpl. intros ?%Z.ltb_lt. by exists next. Qed.


End safety.
