(* ===== verification/ClientExamples.v ===== *)
(** * A client and four validators

    The whole protocol on a small network: the validators are workers ([Worker]) that answer the
    requests of a client, so that the client proposes a block, gets the votes, and all of them execute
    it.  One of the validators may be faulty. *)

From stdpp Require Import strings.
From S2P Require Import Prelude Numbers Types Crypto Committees Policy Bcs Inbox Outbox Errors.
From S2P Require Import Certificates Managers Consensus Registry System Batches KeyValueStore.
From S2P Require Import Runtime Execution ChainState Blocks Storage Worker WorkerExamples.
From S2P Require Import WorkerSteps WorkerSafety Quorum Updater Subscriptions LocalNode LocalSafety.
From S2P Require Import Client ClientSafety.

(** ** Validators as workers *)

Module WorkerNetwork.
Import SymbolicCrypto SymbolicBcs ListCache CommitteeExamples BlockExamples TwoChains.

#[export] Instance no_texts : ErrorTexts :=
  {| crypto_error_text _ := []; arithmetic_error_text _ := []; view_error_text _ := [];
     chain_error_text _ := []; worker_error_text _ := [] |}.
#[export] Instance named_checking : InfoChecking :=
  {| verify_info name _ signature := signature =? name |}.

(** Deserialization: values are hashed. *)
Definition decode_certificate (c : Certificate) : Certificate :=
  {| cert_value := hashed_from (hv_value (cert_value c)); cert_round := cert_round c;
     cert_signatures := cert_signatures c |}.
Definition decode_proposal (p : BlockProposal) : BlockProposal :=
  {| prop_content := prop_content p; prop_owner := prop_owner p; prop_signature := prop_signature p;
     prop_blobs := (fun v => hashed_from (hv_value v)) <$> prop_blobs p;
     prop_validated := decode_certificate <$> prop_validated p |}.
Definition decode_manager (m : ChainManagerInfo) : ChainManagerInfo :=
  match m with
  | InfoMulti multi =>
      InfoMulti
        {| minfo_public_keys := minfo_public_keys multi;
           minfo_multi_leader_rounds := minfo_multi_leader_rounds multi;
           minfo_requested_proposed := decode_proposal <$> minfo_requested_proposed multi;
           minfo_requested_locked := decode_certificate <$> minfo_requested_locked multi;
           minfo_leader_timeout := minfo_leader_timeout multi; minfo_pending := minfo_pending multi;
           minfo_timeout_vote := minfo_timeout_vote multi;
           minfo_requested_pending_value := minfo_requested_pending_value multi;
           minfo_current_round := minfo_current_round multi; minfo_leader := minfo_leader multi;
           minfo_round_timeout := minfo_round_timeout multi |}
  | m => m
  end.
Definition decode (r : ChainInfoResponse) : ChainInfoResponse :=
  let i := response_info r in
  {| response_info :=
       {| info_chain_id := info_chain_id i; info_epoch := info_epoch i;
          info_description := info_description i; info_manager := decode_manager (info_manager i);
          info_system_balance := info_system_balance i; info_block_hash := info_block_hash i;
          info_timestamp := info_timestamp i; info_next_block_height := info_next_block_height i;
          info_state_hash := info_state_hash i; requested_committees := requested_committees i;
          requested_pending_messages := requested_pending_messages i;
          requested_sent_certificates := decode_certificate <$> requested_sent_certificates i;
          count_received_log := count_received_log i;
          requested_received_log := requested_received_log i;
          requested_blob := (fun v => hashed_from (hv_value v)) <$> requested_blob i |};
     response_signature := response_signature r |}.

(** The workers by name, and what each of them makes of its answers before they are sent. *)
Record Network := {
  workers : gmap ValidatorName WorkerState;
  tamper : ValidatorName -> ChainInfoResponse -> ChainInfoResponse;
}.

(** A request to a validator, which has all the chains in one worker and handles the cross-chain
    requests itself.  A validator that does not run, or that panics, does not answer. *)
Definition request (name : ValidatorName) (m : worker (ChainInfoResponse * NetworkActions))
    (n : Network)
    : result NodeError ChainInfoResponse * Network :=
  match workers n !! name with
  | None => (Err (ClientIoError []), n)
  | Some w =>
      let '(r, w) := m w in
      let requests := match r with Ok (_, actions) => cross_chain_requests actions | _ => [] end in
      let w := (handle_requests clock (requests_fuel requests) requests [] w).2 in
      (match r with
       | Ok (response, _) => Ok (decode (tamper n name response))
       | Err e => Err (node_error_from_worker e)
       | Panic => Err (ClientIoError [])
       end, {| workers := <[name := w]> (workers n); tamper := tamper n |})
  end.

#[export] Instance worker_nodes : ValidatorNodes :=
  {| network := Network;
     make_node _ := Ok ();
     node_block_proposal name proposal := request name (handle_block_proposal clock depth proposal);
     node_lite_certificate name cert := request name (handle_lite_certificate clock depth cert None);
     node_certificate name cert blobs := request name (handle_certificate clock depth cert blobs None);
     node_chain_info_query name query := request name (handle_chain_info_query clock query);
     node_subscribe _ _ n := (Ok (), n);
     arrivals names n := (names, length names, n);
     shuffle names n := (names, n) |}.

Lemma request_no_panic name m n : (request name m n).1 <> Panic.
Proof. unfold request. destruct (workers n !! name); [|done]. by destruct (m w) as [[[]| |] ?]. Qed.

#[export] Instance worker_nodes_laws : ValidatorNodesLaws worker_nodes.
Proof. split; intros; try apply request_no_panic; try done. Qed.
#[export] Instance worker_nodes_decode : DecodedValues worker_nodes.
Proof.
  split. intros name query n response n'. cbn [node_chain_info_query worker_nodes]. unfold request.
  destruct (workers n !! name) as [w|]; [|done].
  destruct (handle_chain_info_query clock query w) as [[[r actions]| |] w1]; intros [= <- <-].
  generalize (tamper n name r). clear. intros r. split; simpl.
  - apply Forall_fmap, Forall_forall. by intros c _.
  - intros blob. destruct (requested_blob _); [|done]. by intros [= <-].
  - intros manager proposal. destruct (info_manager _) as [| |multi]; [done..|]. intros [= <-]. simpl.
    destruct (minfo_requested_proposed multi) as [p|]; [|done]. intros [= <-]. split; simpl.
    + apply Forall_fmap, Forall_forall. by intros v _.
    + intros cert. destruct (prop_validated p); [|done]. by intros [= <-].
  - intros manager cert. destruct (info_manager _) as [| |multi]; [done..|]. intros [= <-]. simpl.
    destruct (minfo_requested_locked multi); [|done]. by intros [= <-].
Qed.

End WorkerNetwork.

(** ** A transfer *)

Module ClientRun.
Import SymbolicCrypto SymbolicBcs ListCache CommitteeExamples BlockExamples TwoChains WorkerNetwork.

Definition honest (_ : ValidatorName) (response : ChainInfoResponse) : ChainInfoResponse := response.
Definition worker_of (name : ValidatorName) : WorkerState :=
  {| ws_key_pair := Some name; ws_storage := genesis; ws_allow_inactive_chains := false;
     ws_allow_messages_from_deprecated_epochs := false; ws_grace_period_micros := 1000;
     ws_recent_values := ([] : value_cache); ws_delivery_notifiers := ∅; ws_notified := [];
     ws_clock := 0 |}.
Definition validators_with
    (tamper : ValidatorName -> ChainInfoResponse -> ChainInfoResponse) : Network :=
  {| workers := <[1 := worker_of 1]> (<[2 := worker_of 2]> (<[3 := worker_of 3]> (<[4 :=
    worker_of 4]> ∅)));
     tamper := tamper |}.

(** The clients of the owners of the two chains, with the local node of the first. *)
Definition client_of (id : ChainId) (key : KeyPair) : ChainClient :=
  client_build 10 1 ([] : value_cache) ∅ notifier_default id [key] genesis chain_a None 0 0.
Definition client_a : ChainClient := client_of chain_a 11.
Definition client_b : ChainClient := client_of chain_b 12.
Definition local_node : LocalNode := cc_node_client client_a.

Notation initial := (client_a, validators_with honest).

(** The transfer of three tokens, its certificate, and the validators after it. *)
Definition transferred : result ChainClientError Certificate * (ChainClient * network) :=
  transfer clock depth None 3 (ToAccount (account_of_chain chain_b)) None initial.
Definition certificate_or {E} (r : result E Certificate) : Certificate :=
  match r with Ok c => c | _ => cert0 end.

Lemma transfer_succeeds :
  is_ok transferred.1 = true /\ cc_next_block_height transferred.2.1 = 1 /\
  forallb (fun '(_, w) => next_block_height (ch_tip (load_chain chain_a (ws_storage w))) =? 1)
    (map_to_list (workers transferred.2.2)) = true.
Proof. vm_compute. repeat constructor. Qed.

(** The second client gets the tokens. *)
Definition received : result ChainClientError Amount * (ChainClient * network) :=
  synchronize_from_validators clock depth (client_b, transferred.2.2).
Lemma tokens_received : received.1 = Ok 3.
Proof. vm_compute. reflexivity. Qed.

(** ** The theorems at this network *)

Lemma members_ok : committee_wf members.
Proof. exact CertificateExamples.example_committee_ok. Qed.
Lemma local_node_ok : worker_ok (node_state local_node).
Proof. destruct SafetyExamples.start_ok as [Hs Hc Hch]. by split. Qed.

(** The vote of three validators decides although the first one fails. *)
Definition answers : list (ValidatorName * result NodeError Z) :=
  [(4, Err InvalidDecoding); (1, Ok 7); (3, Ok 7); (2, Ok 7)].
Lemma quorum_decides_witness :
  communicate_with_quorum members id 1 answers = Ok (7, [7; 7; 7]) /\
  decided members id answers (communicate_with_quorum members id 1 answers).
Proof.
  split; [vm_compute; reflexivity|]. apply (quorum_decides members id members_ok).
  - decide_now.
  - by repeat constructor.
Defined.

Definition proposal_a : BlockProposal := propose block0.
Definition is_child (c : ChainState) : bool :=
  match sys_description (es_system (ch_execution c)) with Some (Child _) => true | _ => false end.
(** All chains of the genesis configuration are root chains. *)
Lemma genesis_acyclic id : ~ tc (parent genesis) id id.
Proof.
  intros Hid. assert (exists id', parent genesis id id') as (id' & mid & Hd & _)
    by (inversion Hid as [? ? Hp|? ? ? Hp]; exact (ex_intro _ _ Hp)).
  assert (forallb (fun '(_, c) => negb (is_child c)) (map_to_list (st_chains genesis)) = true) as Hall
    by (vm_compute; reflexivity).
  rewrite forallb_forall in Hall. revert Hd. unfold load_chain.
  destruct (st_chains genesis !! id) as [c|] eqn:Hl; [|done]. intros Hd. cbn in Hd.
  apply elem_of_map_to_list, list_elem_of_In, Hall in Hl. unfold is_child in Hl. by rewrite Hd in Hl.
Qed.

Lemma update_returns_witness :
  (send_chain_update (VN := worker_nodes) 1 genesis 1 chain_a (SubmitBlockForConfirmation proposal_a)
     (validators_with honest)).1 <> Panic.
Proof.
  apply (update_returns (VN := worker_nodes) 1 genesis 1 genesis_acyclic chain_a
    (SubmitBlockForConfirmation proposal_a)
    (validators_with honest)).
Defined.

Definition updated : result ChainClientError (option Certificate) * (ChainClient * network) :=
  communicate_chain_updates clock depth members chain_a (SubmitBlockForConfirmation proposal_a) initial.
Lemma updates_are_certified_witness :
  exists cert s', updated = (Ok (Some cert), s') /\
    certificate_check cert members = Ok (cert_value cert) /\
    is_strictly_ordered (cert_signatures cert) = true /\
    asked_for chain_a (SubmitBlockForConfirmation proposal_a) (cert_value cert) (cert_round cert).
Proof.
  assert (match updated.1 with Ok (Some _) => true | _ => false end = true) as Hok
    by (vm_compute; reflexivity).
  destruct updated as [[[cert|]| |] s'] eqn:Hrun; try discriminate Hok.
  exists cert, s'. split; [reflexivity|].
  unfold updated in Hrun.
  exact (updates_are_certified clock depth members chain_a (SubmitBlockForConfirmation proposal_a)
    initial
    cert s' members_ok Hrun).
Defined.

Definition operations : list ClientOperation :=
  [ClientExecute [SystemOp (OpTransfer None (ToAccount (account_of_chain chain_b)) 3 None)];
   ClientSynchronize; ClientRetry].
Lemma client_operations_safe_witness :
  client_ok initial /\ Forall client_operation_ok operations /\
  let s' := foldl (fun s operation => run_client clock depth operation s) initial operations in
  client_ok s' /\ cc_next_block_height initial.1 <= cc_next_block_height s'.1 /\
  log_of chain_a (node_state (cc_node_client initial.1)) `prefix_of`
    log_of chain_a (node_state (cc_node_client s'.1)).
Proof.
  assert (Forall client_operation_ok operations) as Hops by by repeat constructor.
  split; [exact local_node_ok|]. split; [exact Hops|].
  exact (client_operations_safe clock depth operations initial chain_a local_node_ok Hops).
Defined.

Definition proposed : result ChainClientError Certificate * (ChainClient * network) :=
  propose_block clock depth block0 initial.
Lemma proposed_block_final_witness :
  exists cert s', proposed = (Ok cert, s') /\
    (exists executed_block, hv_value (cert_value cert) = ConfirmedBlock executed_block /\
       eb_block executed_block = block0) /\
    (exists committee s1, local_committee clock initial = (Ok committee, s1) /\
       (committee_wf committee -> certificate_check cert committee = Ok (cert_value cert))) /\
    cc_pending_block s'.1 = None /\ block_height block0 < cc_next_block_height s'.1.
Proof.
  assert (is_ok proposed.1 = true) as Hok by (vm_compute; reflexivity).
  destruct proposed as [[cert| |] s'] eqn:Hrun; try discriminate Hok.
  exists cert, s'. split; [reflexivity|].
  unfold proposed in Hrun.
  exact (proposed_block_final clock depth block0 initial cert s' eq_refl Hrun).
Defined.

(** The client has proposed another block, and no answer came. *)
Definition waiting : ChainClient := set_pending_block (Some (transfer_block chain_c 0 None)) client_a.
Definition refused : result ChainClientError Certificate * (ChainClient * network) :=
  propose_block clock depth block0 (waiting, validators_with honest).

Definition synchronized : result NodeError (ValidatorName * Z * list Certificate) * network :=
  synchronize_received_certificates_from_validator chain_b 0 {[0 := members]} 0 2 transferred.2.2.

Definition incoming : Notification :=
  {| notification_chain_id := chain_b;
     notification_reason := NewIncomingMessage {| sender := chain_a; origin_medium := Direct |} 0 |}.
Definition notified : result ChainClientError bool * (ChainClient * network) :=
  process_notification clock depth 2 incoming (client_b, transferred.2.2).

Definition node_operations : list NodeOperation :=
  [NodeDownload [3; 4] chain_a 1; NodeSynchronize [1; 2] chain_b; NodeQuery (query_new chain_a)].
Lemma node_operations_safe_witness :
  node_ok (local_node, transferred.2.2) /\ Forall operation_ok node_operations /\
  let s' := foldl (fun s operation => run_operation clock depth operation s)
    (local_node, transferred.2.2) node_operations in
  node_ok s' /\ log_of chain_a (node_state local_node) `prefix_of` log_of chain_a (node_state s'.1).
Proof.
  assert (Forall operation_ok node_operations) as Hops by by repeat constructor.
  split; [exact local_node_ok|]. split; [exact Hops|].
  exact (node_operations_safe clock depth node_operations (local_node, transferred.2.2) chain_a
    local_node_ok Hops).
Defined.

Definition downloaded : result LocalNodeError ChainInfo * (LocalNode * network) :=
  download_certificates clock depth [3; 4] chain_a 1 (local_node, transferred.2.2).
Lemma download_reaches_target_witness :
  exists info s', downloaded = (Ok info, s') /\
    let chain := load_chain chain_a (ws_storage (node_state s'.1)) in
    info_of (query_new chain_a) chain info /\ 1 <= next_block_height (ch_tip chain).
Proof.
  assert (is_ok downloaded.1 = true) as Hok by (vm_compute; reflexivity).
  destruct downloaded as [[info| |] s'] eqn:Hrun; try discriminate Hok.
  exists info, s'. split; [reflexivity|].
  unfold downloaded in Hrun.
  exact (download_reaches_target clock depth [3; 4] chain_a 1 (local_node,
    transferred.2.2) info s' Hrun).
Defined.

(** ** A faulty validator *)

(** The first validator changes the chain in its vote, which its signature does not cover. *)
Definition elsewhere (vote : LiteVote) : LiteVote :=
  {| lvote_value := {| lv_value_hash := lv_value_hash (lvote_value vote); lv_chain_id := chain_b |};
     lvote_round := lvote_round vote; lvote_validator := lvote_validator vote;
     lvote_signature := lvote_signature vote |}.
Definition spoil (name : ValidatorName) (r : ChainInfoResponse) : ChainInfoResponse :=
  match info_manager (response_info r) with
  | InfoSingle single =>
      if name =? 1 then
        let i := response_info r in
        {| response_info :=
             {| info_chain_id := info_chain_id i; info_epoch := info_epoch i;
                info_description := info_description i;
                info_manager := InfoSingle
                  {| sinfo_owner := sinfo_owner single; sinfo_public_key := sinfo_public_key single;
                     sinfo_pending := elsewhere <$> sinfo_pending single;
                     sinfo_requested_pending_value := sinfo_requested_pending_value single |};
                info_system_balance := info_system_balance i; info_block_hash := info_block_hash i;
                info_timestamp := info_timestamp i; info_next_block_height := info_next_block_height i;
                info_state_hash := info_state_hash i; requested_committees := requested_committees i;
                requested_pending_messages := requested_pending_messages i;
                requested_sent_certificates := requested_sent_certificates i;
                count_received_log := count_received_log i;
                requested_received_log := requested_received_log i; requested_blob :=
                  requested_blob i |};
           response_signature := response_signature r |}
      else r
  | _ => r
  end.

(** One validator of four keeps the client from making a certificate, although all of them voted for
    its block: the vote that arrives first names another chain. *)
Theorem one_vote_spoils_certificate :
  (propose_block clock depth block0 (client_a, validators_with spoil)).1 =
    Err (ProtocolError "A quorum voted for an unexpected value"%string).
Proof. vm_compute. reflexivity. Qed.

End ClientRun.
